(* ===== verification/_CoqProject ===== *)
-Q . S2P
Prelude.v
GoBase.v
GoStrings.v
GoStrconv.v
GoIO.v
Bufio.v
Kind.v
Indicator.v
Message.v
Decoder.v
Encoder.v
Wire.v
Codec.v
MessageString.v
CachedSeq.v
Conn.v
Link.v
Signal.v
Commands.v
Replication.v
ReplicationSpec.v
Badger.v
KeyLocker.v
Transactor.v
TransactorSystem.v
LockerContract.v
TransactorSafety.v
TransactorMany.v
TransactorStream.v
TransactCall.v
TransactorLive.v
Server.v
TransactServer.v
Kafka.v
RaftUtil.v
RaftStore.v
RaftDelete.v
RaftSpec.v
RaftGC.v
RaftFSM.v
Valkey.v
