(* ===== verification/Prelude.v ===== *)
(** * A verification of anarchoredis

    anarchoredis is a proxy that makes redis strongly consistent: a client's command
    is forwarded to redis, the keys it writes are locked, and the reply is held back
    until the command has come back on the replication stream, has been appended to
    a replicated log, and the keys have been released.

    ** The parts of the program and the files that model them

    - src/protocol/kind/kind.go, the kinds of RESP messages: [Kind] (module [kind]);
      src/protocol/message.go, the same under other names: [Indicator].
    - src/protocol/message/message.go, the composite message with its lazy sequences,
      and the constructors of src/protocol/new.go and error.go: [Message] (modules
      [message] and [protocol]).  An iterator is a closure; the program makes four
      of them, and [iter] and [assoc] name them by what they captured.  Printing
      ([String], [string]) is in [MessageString], beside its reference [show].
    - src/protocol/message/seq.go: [CachedSeq] ([CachedSeq2]).
    - src/protocol/message/coder.go, the codec: [Decoder] ([simpleUnmarshal],
      [Iterate] with one turn of its loop as [decode_frame], [chunk] as
      [range_assoc], [Decode]) and [Encoder] ([Encode], [writeBulk], [simpleToByte],
      [emptyBuffer]).  [Wire] states the wire format as a reference ([resp],
      [wire]) and which messages represent which values ([rep]); [Codec] puts the
      two halves against each other.
    - src/protocol/conn.go: [Conn] (module [conn]), connections with their mutex, on
      top of the codec and of [Bufio].  [Link] is what the other components see of a
      connection: the interface [Link], its contract [LinkSpec], and the instances
      for [Conn] and for scripted peers.
    - src/protocol/commands.go: [Commands] ([Cmd], the table [cmdSpec], [Keys],
      [IsWrite]).
    - src/anarchoredis/replication/replication.go: [Signal] (the one-time signal, as
      a machine of interleaved goroutines), [Replication] (the subscriber: handshake,
      stream loop, acknowledgements, replication information, snapshot) and
      [ReplicationSpec] (its theorems).
    - src/anarchoredis/localstate/keylocker.go: [KeyLocker] ([LockKeys],
      [UnlockKeys], [AwaitUnlocked]).
    - src/anarchoredis/txn.go: [Transactor] (configuration, [proxy],
      [handleMessages]), [TransactorSystem] (the contracts of its parts,
      and proxies, stream handler and redis interleaved statement by statement),
      [TransactorSafety] (the promise for one client), [TransactorMany] (for any
      number of clients), [TransactorStream] ([StreamUpdates] with [handleMessages]
      as its callback), [TransactCall] (a call of [Transact]: dialling, both goroutines
      of its group and the wait for them), [TransactorLive] (progress) and
      [LockerContract] (the key locks against their contract).
    - src/server/server.go and config.go, src/cmd/anarchoredis/main.go: [Server];
      [TransactServer] is the server with [Transact] as the function it runs for every
      connection, all calls sharing one transactor.
    - src/kafka/log.go and consumer.go: [Kafka].
    - src/raft/util.go: [RaftUtil]; src/raft/badger_store.go: [RaftStore] (the
      operations, the order of keys, the indices), [RaftDelete] ([DeleteRange]),
      [RaftSpec] (the abstract store, the simulation, [StoreLogs]), [RaftGC] (opening,
      closing, garbage collection).
    - src/raft/appender.go: [RaftFSM] (both [Apply]s over a pool of connections,
      [Restore], [Open]).
    - src/valkey/valkey.go: [Valkey].

    What the parts rest on is in [Prelude] (bytes, machine integers, the order of
    byte strings), [GoBase] (errors, the outcomes of a call, the state monad),
    [GoStrings] (splitting, joining, prefixes, host and port), [GoStrconv] (decimal
    integers, booleans and big integers as text), [GoIO] (readers over a shared heap,
    [io.ReadFull], the contract of [io.Writer]), [Bufio] ([bufio.Writer], which keeps
    that contract) and [Badger] (transactions and iterators of the key-value store).

    ** How code is translated

    A call is a function of the state it reads and writes; where several statements
    share state they are sequenced in the monad [M], whose outcomes are a return, a
    panic, or blocking forever.  Errors are values of [error].  Readers live in a
    heap, because messages share them and reading consumes: that a second read of
    the same argument gives the empty string is a theorem, not an accident of the
    model.  Integers are [Z] with the wrap-around written where the code can
    overflow ([wrap64]).  A source of bytes delivers chunks of any size, so that the
    theorems hold however the network splits the stream; then it ends with an error,
    or stays open and silent ([stop]).  Reading from an open source that has nothing
    more waits, and the call does not return ([Block]): theorems about calls that read
    say when they return and for which source they wait otherwise ([safe], [returns],
    [starved]).

    Where goroutines share state, a call is a machine: an inductive type says before
    which statement it is, a step function executes that statement, and a system
    picks in every step which goroutine moves ([Signal.step], [proxy_step] and
    [handle_step] in [sys_step], [serve_step], [Transact_step] in [prog_step]).  Theorems about a system are
    invariants over its reachable states, for every schedule.  In [Replication] the
    acknowledging goroutine moves by single calls on the connection (write, flush and
    read of an acknowledgement each take the connection's mutex on their own,
    [ack_turn]); between any two of them the stream loop may read a message.  Reading
    a message and handling it are one turn of the stream loop: of what the handling
    changes the other goroutine uses only the offset, so that a call it makes between
    the two is one it makes before or after the turn.

    What is outside the repository is a class: [FloatConv] and [Texts] (texts of
    numbers and errors), [UnicodeCase] (case mapping of non-ASCII text), [IoWriter]
    with its contract [IoWriterSpec], [Badger] with [BadgerSpec], [BadgerFeed] with
    [BadgerFeedSpec], [VlogDB], [MsgPack] with [MsgPackSpec],
    [Puddle] with [PuddleSpec], [ErrGroup] with [ErrGroupSpec], [RaftLib], and [OldFields], the message fields of an
    earlier protocol package that the replication subscriber still uses.  The
    interfaces between the components are classes too: [Link], [CommandOps],
    [Locker] and [TxnLog], with the contracts [LinkSpec], [CommandSpec],
    [LockerSpec] and [TxnLogSpec]; the repository's connections, commands and key
    locks are instances of the first three.  Every class has an instance with which
    the concrete runs are evaluated.

    ** Loops and fuel

    Loops that are not structural take fuel and end in [OutOfFuel] when it is used
    up, and theorems show that this does not happen.  Loops over a reader have the
    number of reads its source can still answer, after which the source ends or the
    loop waits; [Encode] and [String] the nesting
    depth of the message; [StoreLogs] the number of logs, since a transaction takes
    at least one write; [DeleteRange] the number of keys, which is enough as long as
    its iteration stays within the log keys ([DeleteRange_exact]) and not beyond it
    ([DeleteRange_may_not_return]); the garbage collection runs until badger reports
    that there is nothing to collect, which nothing in its interface promises: its
    theorem holds for every fuel and says that the loop ends exactly when badger
    does so before the fuel is used up ([gc_step_runs]); [proxy] the eleven statements of its
    longest path ([rank], [proxy_ends]) and [handleMessages] its five.  Loops that
    wait for the outside (accept, poll, the stream, the proxy loop) consume a list
    of what happens, and a result says that they have not ended.

    ** What the theorems show

    - Codec: [Encode] writes exactly the wire format, and a front part of it on a
      writer that fails ([Encode_wire], [NewOutgoingCommand_wire]), does not run for ever,
      waits only for open sources of its message and counts what it wrote
      ([Encode_counts]); the frames of simple values,
      bulk strings and verbatim strings are read back ([simple_frame_roundtrip],
      [payload_frame_roundtrip]), those of sequences and maps are opened
      ([sequence_frame_opens]).  The categories of kinds are those of RESP3 but for the
      attribute type ([Category_resp3]).  Where the code falls short of that:
      [Decode_delivers_nothing], [Decode_drops_stream], [null_frame_swallows_line],
      [bad_bignumber_decodes_without_error], [error_message_not_encodable],
      [ReadAll_never_fails].
    - Printing and caching: the text of a message ([String_show], [String_ends]),
      which of a decoded message reads the stream ([String_reads_on]); the cached
      sequence is the sequence ([CachedSeq2_transparent]).
    - Connections: what is written and flushed arrives ([Write_then_Flush]), the mutex is
      given back by every call that returns or panics, and a call that waits for the
      peer keeps all others out ([lock_discipline]), and the two round trips give no
      response ([RawRoundtrip_blocks], [RoundTrip_no_response]).
    - Commands: which names write ([IsWrite_iff]), which keys the key functions
      return ([firstN_keys], [allArgs_once], [oddIndices_no_keys]), and that [Cmd]
      never sets a name ([Cmd_never_names]).
    - Transactor: no reply is sent before its write is logged, under every
      interleaving and against the contracts of parser, locks and log: for one client
      ([no_reply_before_log]), and for any number of them as long as no two write the
      same key at the same time ([no_reply_before_log_many]); a write that waits and
      comes back on the stream is answered under every fair schedule, when the calls made
      for it succeed and nobody locks its keys again ([waiting_write_is_answered]);
      [handleMessages] logs before it releases ([handleMessages_logs_first]), and so
      does the stream as a whole ([stream_logs_in_order]); [proxy] ends
      ([proxy_ends]).  The promise does not extend to two clients that write one key
      ([two_clients_one_key]), to writes without keys ([keyless_write_not_held]), to a
      stream that is faster than the proxy ([late_lock_is_stuck]) or to the
      repository's key locks ([store_locks_hold_nothing]), of which releasing keeps the
      contract, waiting keeps it up to the changes its subscription reports, and taking
      a lock does not keep it ([keylocker_contract]).  Over the repository's
      connections and parser no request is served ([proxy_never_serves]) and no
      command logged ([stream_never_logs]).
    - Replication: what the handshake sends and what of it has left the process
      ([startReplication_handshake]; the error of the last flush is lost), and that it
      drops the leader's announcement ([handshake_takes_announcement]), which
      messages reach the callback and where they go otherwise ([stream_deliveries]),
      the offset ([resync_offset], [final_ack_is_stale]), the replication information
      ([infoReplication_reads_fields]), the signal ([signal_once], [signal_ends]).
    - Server: what [Serve] returns and when ([Serve_returns_error],
      [Serve_reports_first_failure]).  With the transactor: a connection that ends
      always stops the server ([client_end_stops_server]), a client that comes after
      replication has started gets no stream ([late_client_never_streams]), and the
      streams of two clients break the promise of the transactor
      ([second_stream_breaks_promise]).
    - Kafka: the order of what the consumer writes ([Run_writes_in_order]) and that
      it is not flushed ([Run_never_flushes]); [Append] waits for its own lock
      ([Append_never_returns]).
    - Key locks: releasing ([UnlockKeys_then_await]), when exactly a wait ends
      ([await_released]: also when its view of the database fails), and that taking a
      lock uses other keys than both ([LockKeys_takes_no_lock]), so that a release ends
      no wait for keys that are not the beginning of a lock entry ([await_not_woken]).
    - Raft store: the encoding of indices ([uint64_encoding]), the least and the
      greatest index ([index_bounds], [LastIndex_misses_top]), reading back what was
      stored ([StoreLogs_then_GetLog]), what [DeleteRange] deletes
      ([DeleteRange_exact], [DeleteRange_keeps_stable]) and where it goes wrong
      ([DeleteRange_deletes_stable_key], [DeleteRange_restarts_below_min]), the
      refinement of an abstract store by every sequence of operations whose deletions
      stay within the log keys ([store_refines]), and when garbage is collected ([gc_step_runs]).
    - Raft state machine and valkey: applying an entry gives no response
      ([Apply_gives_no_response]), what [Open] leaves behind ([Open_all_or_error]),
      what [Stop] does in each state of the process ([Stop_cases]).

    ** What is not modelled

    The msgpack codec, badger, kafka, raft and the network are libraries and appear as
    parameters.  [RedisFSM.Snapshot] does not parse in the source.  The kafka
    producer is a struct whose only method is commented out.  src/protocol/protocol.go
    declares an interface that nothing uses.  Logging is left out, except where a nil
    logger panics.  The statement-level system of [TransactorSystem] has one replication
    stream; [Transact] starts one for every client, of which only the first is accepted
    once replication has started ([StreamUpdates_once]).  Programs with several streams
    are those of [TransactServer], where a message is read and handled in one step. *)

From stdpp Require Export base list gmap strings sorting.
From Stdlib Require Export ZArith Lia.
From Stdlib Require Export Strings.Byte.

Create HintDb anarcho.
Create Rewrite HintDb anarcho.

(** * Bytes *)

#[global] Instance byte_eq_dec : EqDecision byte := Byte.byte_eq_dec.

#[global] Program Instance byte_countable : Countable byte :=
  inj_countable Byte.to_N Byte.of_N _.
Next Obligation. exact Byte.of_to_N. Qed.

#[global] Instance byte_inhabited : Inhabited byte := populate x00.

(** Go strings and byte slices are both sequences of bytes. *)
Abbreviation bytes := (list byte).

(** The bytes of a string literal of the source. *)
Definition str (s : string) : bytes := String.list_byte_of_string s.

(** The numeric value of a byte, and the conversion [byte(z)], which keeps the
    low eight bits. *)
Definition byte_val (b : byte) : Z := Z.of_N (Byte.to_N b).

Definition to_byte (z : Z) : byte :=
  default x00 (Byte.of_N (Z.to_N (z mod 256))).

Lemma byte_val_range b : (0 <= byte_val b < 256)%Z.
Proof. unfold byte_val. pose proof (Byte.to_N_bounded b). lia. Qed.

Lemma byte_val_to_byte z : byte_val (to_byte z) = (z mod 256)%Z.
Proof.
  unfold byte_val, to_byte.
  pose proof (Z.mod_pos_bound z 256 ltac:(lia)).
  pose proof (Byte.to_of_N_option_map (Z.to_N (z mod 256))) as E.
  rewrite (proj2 (N.leb_le _ _)) in E by lia.
  destruct (Byte.of_N (Z.to_N (z mod 256))) as [b|]; simpl in *; [|done].
  injection E as E. rewrite E. lia.
Qed.

#[global] Instance byte_val_inj : Inj (=) (=) byte_val.
Proof.
  intros a b E. unfold byte_val in E. apply N2Z.inj in E.
  apply (f_equal Byte.of_N) in E. rewrite !Byte.of_to_N in E. by simplify_eq.
Qed.

Lemma to_byte_val b : to_byte (byte_val b) = b.
Proof.
  apply (inj byte_val). rewrite byte_val_to_byte.
  apply Z.mod_small, byte_val_range.
Qed.

(** A decidable property of bytes is checked on all 256 of them. *)
Definition all_bytes : list byte := (fun n => to_byte (Z.of_nat n)) <$> seq 0 256.

Lemma all_bytes_complete b : b ∈ all_bytes.
Proof.
  apply list_elem_of_fmap. exists (Z.to_nat (byte_val b)).
  pose proof (byte_val_range b). rewrite Z2Nat.id, to_byte_val by lia.
  split; [done|]. apply elem_of_seq. lia.
Qed.

Lemma byte_decide (P : byte -> Prop) `{!forall b, Decision (P b)} :
  forallb (fun b => bool_decide (P b)) all_bytes = true -> forall b, P b.
Proof.
  intros Hall b. rewrite forallb_forall in Hall. eapply bool_decide_eq_true_1, Hall.
  apply list_elem_of_In, all_bytes_complete.
Qed.

(** * Machine integers *)

Definition max_int64 : Z := 2 ^ 63 - 1.
Definition min_int64 : Z := - 2 ^ 63.
Definition max_uint64 : Z := 2 ^ 64 - 1.

(** The value an int64 expression holds when its mathematical value is [z]. *)
Definition wrap64 (z : Z) : Z := (z + 2 ^ 63) mod 2 ^ 64 - 2 ^ 63.

Definition int64_range (z : Z) : Prop := (min_int64 <= z <= max_int64)%Z.
Definition uint64_range (z : Z) : Prop := (0 <= z <= max_uint64)%Z.

#[global] Hint Unfold min_int64 max_int64 max_uint64 int64_range uint64_range
  : anarcho.

Lemma wrap64_small z : int64_range z -> wrap64 z = z.
Proof.
  unfold wrap64; autounfold with anarcho; intros.
  rewrite Z.mod_small by lia. lia.
Qed.

Lemma wrap64_range z : int64_range (wrap64 z).
Proof.
  unfold wrap64; autounfold with anarcho.
  pose proof (Z.mod_pos_bound (z + 2 ^ 63) (2 ^ 64) ltac:(lia)). lia.
Qed.

(** Wrapping an intermediate sum does not show in the result. *)
Lemma wrap64_add a b : wrap64 (wrap64 a + b) = wrap64 (a + b).
Proof.
  unfold wrap64.
  replace ((a + 2 ^ 63) mod 2 ^ 64 - 2 ^ 63 + b + 2 ^ 63)%Z
    with ((a + 2 ^ 63) mod 2 ^ 64 + b)%Z by lia.
  rewrite Z.add_mod_idemp_l by lia. do 2 f_equal. lia.
Qed.

(** The length of a slice as the integer [len] returns. *)
Definition zlen {A} (l : list A) : Z := Z.of_nat (length l).

Lemma zlen_nil {A} : zlen (@nil A) = 0%Z.
Proof. done. Qed.
Lemma zlen_cons {A} (x : A) l : zlen (x :: l) = (1 + zlen l)%Z.
Proof. unfold zlen. simpl. lia. Qed.
Lemma zlen_app {A} (l k : list A) : zlen (l ++ k) = (zlen l + zlen k)%Z.
Proof. unfold zlen. rewrite length_app. lia. Qed.
Lemma zlen_nonneg {A} (l : list A) : (0 <= zlen l)%Z.
Proof. unfold zlen. lia. Qed.
#[global] Hint Rewrite @zlen_nil @zlen_cons @zlen_app : anarcho.

(** * The byte-wise lexicographic order of keys *)

Fixpoint bytes_leb (a b : bytes) : bool :=
  match a, b with
  | [], _ => true
  | _ :: _, [] => false
  | x :: a', y :: b' =>
      (byte_val x <? byte_val y)%Z
      || ((byte_val x =? byte_val y)%Z && bytes_leb a' b')
  end.

Definition bytes_le (a b : bytes) : Prop := bytes_leb a b = true.

#[global] Instance bytes_le_dec : RelDecision bytes_le.
Proof. intros a b. unfold bytes_le. apply _. Defined.

Lemma bytes_le_cons x a y b :
  bytes_le (x :: a) (y :: b) <->
  (byte_val x < byte_val y)%Z \/ (x = y /\ bytes_le a b).
Proof.
  unfold bytes_le. simpl.
  rewrite orb_true_iff, andb_true_iff, Z.ltb_lt, Z.eqb_eq.
  split; intros [?|[E ?]]; auto; right; [by apply (inj byte_val) in E | by subst].
Qed.

#[global] Instance bytes_le_refl : Reflexive bytes_le.
Proof. intros a. induction a as [|x a IH]; [done|]. apply bytes_le_cons; auto. Qed.

#[global] Instance bytes_le_trans : Transitive bytes_le.
Proof.
  intros a. induction a as [|x a IH]; intros [|y b] [|z c] H1 H2; try done.
  apply bytes_le_cons in H1, H2. apply bytes_le_cons.
  destruct H1 as [?|[-> ?]], H2 as [?|[-> ?]]; eauto with lia.
Qed.

#[global] Instance bytes_le_total : Total bytes_le.
Proof.
  intros a. induction a as [|x a IH]; intros [|y b]; [by left..|by right|].
  rewrite !bytes_le_cons.
  destruct (Z.lt_trichotomy (byte_val x) (byte_val y)) as [?|[E|?]]; auto.
  apply (inj byte_val) in E as ->. destruct (IH b); auto.
Qed.

#[global] Instance bytes_le_antisymm : AntiSymm (=) bytes_le.
Proof.
  intros a. induction a as [|x a IH]; intros [|y b] H1 H2; try done.
  apply bytes_le_cons in H1, H2.
  destruct H1 as [?|[-> ?]], H2 as [?|[E ?]]; subst; try lia.
  f_equal; auto.
Qed.

Lemma bytes_le_app p a b : bytes_le (p ++ a) (p ++ b) <-> bytes_le a b.
Proof.
  induction p as [|x p IH]; [done|]. simpl. rewrite bytes_le_cons, IH.
  split; [intros [?|[_ ?]]; [lia|done] | auto].
Qed.

(** * Tactics *)

(** Normalise lengths, then linear arithmetic. *)
Ltac zlen_solve :=
  autorewrite with anarcho in *; unfold zlen in *; simpl in *; lia.
