(* ===== verification/GoBase.v ===== *)
(** The parts of the Go language every component uses: error values, the ways a
    call can end, and the state monad in which the statements of a function body
    are sequenced. *)

From S2P Require Import Prelude.

(** * Errors

    An [error] interface value.  [Sentinel] is a package-level error variable
    (compared by identity, so by name); [Env] an error the environment reports
    (network, disk), opaque to the program; [NumError] what strconv returns;
    [Errorf] an error built by [fmt.Errorf], with its format string and the
    errors its [%w] verbs wrap; [ErrorsNew] an error built by [errors.New]. *)

Inductive error :=
| Sentinel (name : string)
| Env (code : Z)
| NumError (fn : string) (num : bytes) (err : error)
| Errorf (format : string) (wrapped : list error)
| ErrorsNew (text : bytes).

Fixpoint error_dec (a b : error) : {a = b} + {a <> b}.
Proof.
  rename error_dec into IH.
  destruct a as [n|c|f s e|f ws|t], b as [n'|c'|f' s' e'|f' ws'|t'];
    try (right; discriminate).
  - destruct (decide (n = n')) as [->|]; [by left|right; congruence].
  - destruct (decide (c = c')) as [->|]; [by left|right; congruence].
  - destruct (decide (f = f')) as [->|]; [|right; congruence].
    destruct (decide (s = s')) as [->|]; [|right; congruence].
    destruct (IH e e') as [->|]; [by left|right; congruence].
  - destruct (decide (f = f')) as [->|]; [|right; congruence].
    assert ({ws = ws'} + {ws <> ws'}) as [->|]; [|by left|right; congruence].
    revert ws'. induction ws as [|w ws IHws]; intros [|w' ws']; try (right; discriminate); [by left|].
    destruct (IH w w') as [->|]; [|right; congruence].
    destruct (IHws ws') as [->|]; [by left|right; congruence].
  - destruct (decide (t = t')) as [->|]; [by left|right; congruence].
Defined.

#[global] Instance error_eq_dec : EqDecision error := error_dec.

Definition EOF : error := Sentinel "io.EOF".
Definition ErrUnexpectedEOF : error := Sentinel "io.ErrUnexpectedEOF".
Definition ErrShortWrite : error := Sentinel "io.ErrShortWrite".
Definition ErrSyntax : error := Sentinel "strconv.ErrSyntax".
Definition ErrRange : error := Sentinel "strconv.ErrRange".

(** [errors.Is(err, target)] for a target that is an error variable. *)
Fixpoint errors_is (err : error) (target : string) : bool :=
  match err with
  | Sentinel n => String.eqb n target
  | NumError _ _ e => errors_is e target
  | Errorf _ ws => existsb (fun e => errors_is e target) ws
  | Env _ | ErrorsNew _ => false
  end.

(** * Outcomes and the state monad

    A call returns, panics, or waits: for ever (a goroutine that waits for a lock
    it holds itself), or until the peer of an open stream sends more or closes it;
    the state of [Block] is the one it waits in.  [OutOfFuel] is an artefact of the
    bounded loops of the model; the theorems show that no operation ends in it. *)

Inductive outcome (A : Type) :=
| Ret (a : A)
| Panic (why : string)
| Block
| OutOfFuel.
Arguments Ret {A} a.
Arguments Panic {A} why.
Arguments Block {A}.
Arguments OutOfFuel {A}.

Definition M (S A : Type) : Type := S -> outcome A * S.

Definition nil_deref : string :=
  "invalid memory address or nil pointer dereference".

#[global] Instance M_ret S : MRet (M S) := fun A a s => (Ret a, s).

#[global] Instance M_bind S : MBind (M S) := fun A B f m s =>
  match m s with
  | (Ret a, s') => f a s'
  | (Panic w, s') => (Panic w, s')
  | (Block, s') => (Block, s')
  | (OutOfFuel, s') => (OutOfFuel, s')
  end.

Definition panic {S A} (w : string) : M S A := fun s => (Panic w, s).
Definition out_of_fuel {S A} : M S A := fun s => (OutOfFuel, s).

(** What a computation did when it returned. *)
Lemma bind_ret {S A B} (m : M S A) (f : A -> M S B) s s' a :
  m s = (Ret a, s') -> mbind f m s = f a s'.
Proof. unfold mbind, M_bind. by intros ->. Qed.

Lemma bind_ret_inv {S A B} (m : M S A) (f : A -> M S B) s s' b :
  mbind f m s = (Ret b, s') ->
  exists a s1, m s = (Ret a, s1) /\ f a s1 = (Ret b, s').
Proof. unfold mbind, M_bind. destruct (m s) as [[] ?]; naive_solver. Qed.

(** [m] run from [s] does not end because a bounded loop gave up. *)
Definition fuel_ok {S A} (m : M S A) (s : S) : Prop := (m s).1 <> OutOfFuel.

Lemma fuel_ok_ret {S A} (a : A) (s : S) : fuel_ok (mret a) s.
Proof. done. Qed.
Lemma fuel_ok_panic {S A} w (s : S) : fuel_ok (panic (A:=A) w) s.
Proof. done. Qed.

(** [safe B m s Q]: run from [s], [m] does not give up, waits only in a state of
    [B], and when it returns, [Q] holds of its result and final state. *)
Definition safe {S A} (B : S -> Prop) (m : M S A) (s : S) (Q : A -> S -> Prop) : Prop :=
  match m s with
  | (Ret a, s') => Q a s'
  | (Panic _, _) => True
  | (Block, s') => B s'
  | (OutOfFuel, _) => False
  end.

(** No condition on where it waits. *)
Definition anywhere {S} : S -> Prop := fun _ => True.

Section safe.
Context {S : Type} (B : S -> Prop).

Lemma safe_ret {A} (a : A) (s : S) (Q : A -> S -> Prop) : Q a s -> safe B (mret a) s Q.
Proof. done. Qed.
Lemma safe_panic {A} w (s : S) (Q : A -> S -> Prop) : safe B (panic w) s Q.
Proof. done. Qed.
Lemma safe_bind {A A'} (m : M S A) (f : A -> M S A') s Q :
  safe B m s (fun a s' => safe B (f a) s' Q) -> safe B (mbind f m) s Q.
Proof. unfold safe, mbind, M_bind. by destruct (m s) as [[] ?]. Qed.
Lemma safe_mono {A} (m : M S A) s (Q Q' : A -> S -> Prop) :
  safe B m s Q -> (forall a s', Q a s' -> Q' a s') -> safe B m s Q'.
Proof. unfold safe. destruct (m s) as [[] ?]; naive_solver. Qed.
Lemma safe_anywhere {A} (m : M S A) s (Q : A -> S -> Prop) : safe B m s Q -> safe anywhere m s Q.
Proof. unfold safe. by destruct (m s) as [[] ?]. Qed.
Lemma safe_elim {A} (m : M S A) s (Q : A -> S -> Prop) a s' :
  safe B m s Q -> m s = (Ret a, s') -> Q a s'.
Proof. unfold safe. intros H E. by rewrite E in H. Qed.
Lemma safe_fuel_ok {A} (m : M S A) s (Q : A -> S -> Prop) : safe B m s Q -> fuel_ok m s.
Proof. unfold safe, fuel_ok. destruct (m s) as [[] ?]; simpl; naive_solver. Qed.
Lemma safe_waits {A} (m : M S A) s (Q : A -> S -> Prop) s' :
  safe B m s Q -> m s = (Block, s') -> B s'.
Proof. unfold safe. intros H E. by rewrite E in H. Qed.

(** [returns B m s Q]: the same, and [m] does not panic. *)
Definition returns {A} (m : M S A) (s : S) (Q : A -> S -> Prop) : Prop :=
  match m s with
  | (Ret a, s') => Q a s'
  | (Block, s') => B s'
  | (Panic _, _) | (OutOfFuel, _) => False
  end.

Lemma returns_ret {A} (a : A) (s : S) (Q : A -> S -> Prop) : Q a s -> returns (mret a) s Q.
Proof. done. Qed.
Lemma returns_bind {A A'} (m : M S A) (f : A -> M S A') s Q :
  returns m s (fun a s' => returns (f a) s' Q) -> returns (mbind f m) s Q.
Proof. unfold returns, mbind, M_bind. by destruct (m s) as [[] ?]. Qed.
Lemma returns_mono {A} (m : M S A) s (Q Q' : A -> S -> Prop) :
  returns m s Q -> (forall a s', Q a s' -> Q' a s') -> returns m s Q'.
Proof. unfold returns. destruct (m s) as [[] ?]; naive_solver. Qed.
Lemma returns_cases {A} (m : M S A) s (Q : A -> S -> Prop) :
  returns m s Q ->
  (exists a s', m s = (Ret a, s') /\ Q a s') \/ (exists s', m s = (Block, s') /\ B s').
Proof. unfold returns. destruct (m s) as [[] ?]; naive_solver. Qed.
Lemma returns_safe {A} (m : M S A) s (Q : A -> S -> Prop) : returns m s Q -> safe B m s Q.
Proof. unfold returns, safe. destruct (m s) as [[] ?]; naive_solver. Qed.
End safe.

#[export] Hint Resolve fuel_ok_ret fuel_ok_panic safe_ret safe_panic : anarcho.

(** Step through the binds of a computation that returned. *)
Ltac inv_bind :=
  repeat match goal with
  | H : mbind _ _ _ = (Ret _, _) |- _ =>
      let a := fresh "r" in let s := fresh "s" in
      let H1 := fresh "Hm" in
      apply bind_ret_inv in H as (a & s & H1 & H)
  | H : mret _ _ = (Ret _, _) |- _ => unfold mret, M_ret in H; simplify_eq
  end.
