(* ===== verification/GoStrings.v ===== *)
(** Text functions of the Go standard library: [strings.Split] and [strings.Join],
    [strings.HasPrefix] and [strings.TrimPrefix], [net.SplitHostPort]. *)

From S2P Require Import Prelude GoBase.

(** * Prefixes *)

Definition has_prefix (p k : bytes) : bool := bool_decide (take (length p) k = p).

Lemma has_prefix_app p k : has_prefix p (p ++ k) = true.
Proof. unfold has_prefix. by rewrite take_app_length, bool_decide_eq_true_2. Qed.

(** [strings.TrimPrefix]. *)
Definition TrimPrefix (s p : bytes) : bytes := if has_prefix p s then drop (length p) s else s.

(** * Splitting and joining *)

(** [strings.Split(s, sep)] for a separator that is not empty: [cur] is the part
    being collected, [skip] how many bytes of a separator are still to be passed. *)
Fixpoint split_go (sep : bytes) (skip : nat) (cur s : bytes) : list bytes :=
  match s with
  | [] => [cur]
  | b :: s' =>
      match skip with
      | S skip => split_go sep skip cur s'
      | O =>
          if has_prefix sep s then cur :: split_go sep (length sep - 1) [] s'
          else split_go sep 0 (cur ++ [b]) s'
      end
  end.

Definition Split (s sep : bytes) : list bytes := split_go sep 0 [] s.

(** [strings.Join(elems, sep)]. *)
Fixpoint Join (elems : list bytes) (sep : bytes) : bytes :=
  match elems with
  | [] => []
  | [e] => e
  | e :: elems => e ++ sep ++ Join elems sep
  end.

Lemma split_go_nonempty sep skip cur s : split_go sep skip cur s <> [].
Proof.
  revert skip cur. induction s as [|b s IH]; intros skip cur; [done|].
  simpl. destruct skip; [|apply IH]. by destruct (has_prefix sep (b :: s)); [|apply IH].
Qed.

Lemma split_go_skip sep n cur s t :
  length s = n -> split_go sep n cur (s ++ t) = split_go sep 0 cur t.
Proof. intros <-. induction s as [|b s IH]; [done|]. simpl. apply IH. Qed.

Lemma has_prefix_head c sep b s : c <> b -> has_prefix (c :: sep) (b :: s) = false.
Proof. intros Hne. unfold has_prefix. apply bool_decide_eq_false_2. simpl. congruence. Qed.

(** A part without the first byte of the separator is passed over. *)
Lemma split_go_part c sep cur p t :
  c ∉ p -> split_go (c :: sep) 0 cur (p ++ t) = split_go (c :: sep) 0 (cur ++ p) t.
Proof.
  revert cur. induction p as [|b p IH]; intros cur Hp.
  { by rewrite app_nil_r. }
  apply not_elem_of_cons in Hp as [Hb Hp]. cbn [app split_go].
  rewrite has_prefix_head by done. rewrite IH by done. by rewrite <- app_assoc.
Qed.

Lemma split_go_sep c sep cur t :
  split_go (c :: sep) 0 cur ((c :: sep) ++ t) = cur :: split_go (c :: sep) 0 [] t.
Proof.
  cbn [app split_go]. change (c :: sep ++ t) with ((c :: sep) ++ t).
  rewrite has_prefix_app. f_equal. simpl. rewrite Nat.sub_0_r. by apply split_go_skip.
Qed.

(** Splitting undoes joining. *)
Lemma Split_Join c sep ps :
  ps <> [] -> Forall (fun p => c ∉ p) ps -> Split (Join ps (c :: sep)) (c :: sep) = ps.
Proof.
  unfold Split. intros Hne Hps. induction Hps as [|p ps Hp Hps IH]; [done|].
  destruct ps as [|q ps].
  - simpl Join. rewrite <- (app_nil_r p) at 1. by rewrite split_go_part.
  - cbn [Join]. rewrite split_go_part by done. rewrite split_go_sep, app_nil_l.
    f_equal. by apply IH.
Qed.

(** And joining undoes splitting, whatever the text. *)
Lemma Join_cons e elems sep : elems <> [] -> Join (e :: elems) sep = e ++ sep ++ Join elems sep.
Proof. by destruct elems. Qed.

Lemma Join_split_go sep n cur s :
  length s <= n -> 0 < length sep -> Join (split_go sep 0 cur s) sep = cur ++ s.
Proof.
  intros Hn Hsep. revert cur s Hn. induction n as [|n IH]; intros cur s Hn.
  { destruct s; [by rewrite app_nil_r|simpl in Hn; lia]. }
  destruct s as [|b s]; [by rewrite app_nil_r|]. cbn [split_go].
  destruct (has_prefix sep (b :: s)) eqn:Hp.
  - unfold has_prefix in Hp. apply bool_decide_eq_true in Hp.
    rewrite Join_cons by apply split_go_nonempty.
    assert (b :: s = sep ++ drop (length sep) (b :: s)) as E.
    { rewrite <- Hp at 1. by rewrite take_drop. }
    destruct sep as [|c sep]; [simpl in Hsep; lia|]. injection E as <- E.
    rewrite E at 1. rewrite split_go_skip by (simpl; lia).
    simpl in Hn. rewrite IH by (rewrite length_drop; lia).
    change (drop (length (b :: sep)) (b :: s)) with (drop (length sep) s).
    simpl in E. by rewrite app_nil_l, <- app_comm_cons, <- E.
  - rewrite IH by (simpl in Hn; lia). by rewrite <- app_assoc.
Qed.

Lemma Join_Split s sep : sep <> [] -> Join (Split s sep) sep = s.
Proof. intros. apply (Join_split_go sep (length s)); [done|]. destruct sep; [done|simpl; lia]. Qed.

(** * Network addresses *)

Fixpoint index_byte (c : byte) (s : bytes) : option nat :=
  match s with
  | [] => None
  | b :: s => if decide (b = c) then Some 0 else S <$> index_byte c s
  end.

Definition last_index_byte (c : byte) (s : bytes) : option nat :=
  (fun i => length s - 1 - i) <$> index_byte c (reverse s).

Definition has_byte (c : byte) (s : bytes) : bool := bool_decide (c ∈ s).

Definition addr_error (why : string) : (bytes * bytes) + error := inr (Sentinel why).

(** [net.SplitHostPort]: the host and the port, or an address error. *)
Definition SplitHostPort (hostport : bytes) : (bytes * bytes) + error :=
  let colon := ":"%byte in
  let missingPort := addr_error "missing port in address" in
  let tooManyColons := addr_error "too many colons in address" in
  (** the rest of the function, from where the brackets are checked *)
  let finish (host : bytes) (i j k : nat) :=
    if has_byte "["%byte (drop j hostport) then addr_error "unexpected '[' in address"
    else if has_byte "]"%byte (drop k hostport) then addr_error "unexpected ']' in address"
    else inl (host, drop (S i) hostport) in
  match last_index_byte colon hostport with
  | None => missingPort
  | Some i =>
      if bool_decide (head hostport = Some "["%byte) then
        match index_byte "]"%byte hostport with
        | None => addr_error "missing ']' in address"
        | Some e =>
            if (S e =? length hostport)%nat then missingPort
            else if (S e =? i)%nat then finish (take (e - 1) (drop 1 hostport)) i 1 (S e)
            else if bool_decide (hostport !! S e = Some colon) then tooManyColons
            else missingPort
        end
      else
        let host := take i hostport in
        if has_byte colon host then tooManyColons else finish host i 0 0
  end.

Lemma index_byte_app c s t : c ∉ s -> index_byte c (s ++ c :: t) = Some (length s).
Proof.
  induction s as [|b s IH]; intros Hs; simpl.
  { by rewrite decide_True. }
  apply not_elem_of_cons in Hs as [Hb Hs]. rewrite decide_False by done. by rewrite IH.
Qed.

Lemma last_index_byte_app c s t : c ∉ t -> last_index_byte c (s ++ c :: t) = Some (length s).
Proof.
  intros Ht. unfold last_index_byte. rewrite reverse_app, reverse_cons, <- app_assoc. simpl app.
  rewrite index_byte_app by by rewrite elem_of_reverse. simpl.
  rewrite length_app, length_reverse. simpl. f_equal. lia.
Qed.

(** A host and a port without colons and brackets are found. *)
Lemma SplitHostPort_plain host port :
  Forall (fun b => b ∉ [":"; "["; "]"]%byte) (host ++ port) ->
  SplitHostPort (host ++ ":"%byte :: port) = inl (host, port).
Proof.
  intros Hb. unfold SplitHostPort.
  assert (forall c, c ∈ [":"; "["; "]"]%byte -> (c ∉ host) /\ (c ∉ port)) as Hc.
  { intros c Hc. rewrite Forall_forall in Hb.
    split; intros Hin; apply (Hb c); try done; apply elem_of_app; auto. }
  rewrite last_index_byte_app by (apply Hc; left).
  rewrite bool_decide_eq_false_2.
  2:{ destruct host as [|b host]; [done|]. intros [= ->].
      destruct (Hc "["%byte) as [Hh _]; [right; left|]. apply Hh. left. }
  rewrite take_app_length. unfold has_byte.
  rewrite bool_decide_eq_false_2 by (apply Hc; left). rewrite !drop_0.
  assert (forall c, c ∈ ["["; "]"]%byte -> c ∉ host ++ ":"%byte :: port) as Hn.
  { intros c Hin. rewrite not_elem_of_app, not_elem_of_cons.
    destruct (Hc c) as [? ?]; [by right|]. split_and!; [done| |done].
    intros ->. by repeat (apply elem_of_cons in Hin as [?|Hin]; [done|]); apply elem_of_nil in Hin. }
  rewrite !bool_decide_eq_false_2 by (apply Hn; repeat constructor).
  f_equal. f_equal. by rewrite drop_app_ge, Nat.sub_succ_l, Nat.sub_diag by lia.
Qed.
