(* ===== verification/GoStrconv.v ===== *)
(** The conversions of the Go standard library the codec relies on:
    [strconv.FormatInt], [strconv.ParseInt] (base 10, 64 bits),
    [strconv.ParseBool], [fmt]'s [%t], [big.Int.String] and
    [big.Int.SetString] (base 0), with the round trips between them. *)

From S2P Require Import Prelude GoBase.
From Stdlib Require Import SpecFloat.

Local Open Scope Z_scope.

(** * Decimal digits *)

Definition digit (d : Z) : byte := to_byte (48 + d).

Definition digit_val (c : byte) : option Z :=
  let v := byte_val c in
  if (48 <=? v) && (v <=? 57) then Some (v - 48) else None.

Fixpoint digits_loop (fuel : nat) (n : Z) (acc : bytes) : bytes :=
  match fuel with
  | O => acc
  | S fuel =>
      let acc := digit (n mod 10) :: acc in
      if n <? 10 then acc else digits_loop fuel (n / 10) acc
  end.

(** The decimal digits of a non-negative number; [Z.log2 n + 1] is the number of
    its binary digits, so more than that of its decimal ones. *)
Definition digits (n : Z) : bytes := digits_loop (S (Z.to_nat (Z.log2 n))) n [].

Definition minus : byte := "-"%byte.
Definition plus : byte := "+"%byte.

(** [strconv.FormatInt(i, 10)], and [big.Int.String] of a non-nil number. *)
Definition FormatInt (i : Z) : bytes :=
  if i <? 0 then minus :: digits (- i) else digits i.

(** * Reading integers *)

Inductive num_fail := FailSyntax | FailRange.

(** The loop of [strconv.ParseUint] for base 10 and 64 bits. *)
Fixpoint parse_uint_loop (acc : Z) (s : bytes) : Z + num_fail :=
  match s with
  | [] => inl acc
  | c :: s =>
      match digit_val c with
      | None => inr FailSyntax
      | Some d =>
          if max_uint64 <? acc * 10 + d then inr FailRange
          else parse_uint_loop (acc * 10 + d) s
      end
  end.

Definition parse_uint (s : bytes) : Z + num_fail :=
  match s with [] => inr FailSyntax | _ => parse_uint_loop 0 s end.

Definition num_error (fn : string) (s : bytes) (f : num_fail) : error :=
  NumError fn s (match f with FailSyntax => ErrSyntax | FailRange => ErrRange end).

(** The sign of a number literal and what follows it. *)
Definition split_sign (s : bytes) : bool * bytes :=
  match s with
  | c :: s' =>
      if decide (c = plus) then (false, s')
      else if decide (c = minus) then (true, s') else (false, s)
  | [] => (false, [])
  end.

(** [strconv.ParseInt(s, 10, 64)]. *)
Definition ParseInt (s : bytes) : Z + error :=
  let fail f := inr (num_error "ParseInt" s f) in
  match s with
  | [] => fail FailSyntax
  | _ =>
      let '(neg, u) := split_sign s in
      match parse_uint u with
      | inr f => fail f
      | inl un =>
          if negb neg && (2 ^ 63 <=? un) then fail FailRange
          else if neg && (2 ^ 63 <? un) then fail FailRange
          else inl (if neg then - un else un)
      end
  end.

(** [strconv.ParseBool]. *)
Definition ParseBool (s : bytes) : bool + error :=
  if decide (s ∈ [str "1"; str "t"; str "T"; str "true"; str "TRUE"; str "True"])
  then inl true
  else if decide (s ∈ [str "0"; str "f"; str "F"; str "false"; str "FALSE"; str "False"])
  then inl false
  else inr (num_error "ParseBool" s FailSyntax).

(** [fmt.Sprintf("%t", b)]. *)
Definition FormatBool (b : bool) : bytes := if b then str "true" else str "false".

(** * Big integers

    [big.Int.SetString(s, 0)]: an optional sign, then a number whose base is
    given by its prefix, with underscores allowed between digits.  [scan_prev] is
    the class of the previous character, as in [nat.scan] of math/big. *)

Inductive scan_prev := PrevSep | PrevDigit | PrevOther.

Definition big_digit (c : byte) : Z :=
  let v := byte_val c in
  if (48 <=? v) && (v <=? 57) then v - 48
  else if (97 <=? v) && (v <=? 122) then v - 97 + 10
  else if (65 <=? v) && (v <=? 90) then v - 65 + 10
  else 63.

Record scan_state := ScanState {
  sc_val : Z; sc_count : Z; sc_prev : scan_prev; sc_inval : bool }.

(** The digit loop of [nat.scan] with base argument 0; returns the state at its
    end and the bytes it did not consume. *)
Fixpoint big_scan_loop (b : Z) (s : bytes) (st : scan_state) : scan_state * bytes :=
  match s with
  | [] => (st, [])
  | c :: s' =>
      if decide (c = "_"%byte) then
        big_scan_loop b s'
          (ScanState (sc_val st) (sc_count st) PrevSep
             (sc_inval st || match sc_prev st with PrevDigit => false | _ => true end))
      else
        let d := big_digit c in
        if b <=? d then (st, s)
        else big_scan_loop b s'
               (ScanState (sc_val st * b + d) (sc_count st + 1) PrevDigit (sc_inval st))
  end.

(** The base and prefix kind of a literal: [octal] says the prefix is a bare 0. *)
Record big_prefix := BigPrefix {
  bp_base : Z; bp_octal : bool; bp_count : Z; bp_prev : scan_prev; bp_rest : bytes }.

Definition big_scan_prefix (s : bytes) : big_prefix :=
  match s with
  | c :: s1 =>
      if decide (c = "0"%byte) then
        match s1 with
        | [] => BigPrefix 10 false 1 PrevDigit []
        | p :: s2 =>
            if decide (p = "b"%byte \/ p = "B"%byte) then BigPrefix 2 false 0 PrevDigit s2
            else if decide (p = "o"%byte \/ p = "O"%byte) then BigPrefix 8 false 0 PrevDigit s2
            else if decide (p = "x"%byte \/ p = "X"%byte) then BigPrefix 16 false 0 PrevDigit s2
            else BigPrefix 8 true 0 PrevDigit s1
        end
      else BigPrefix 10 false 0 PrevOther s
  | [] => BigPrefix 10 false 0 PrevOther []
  end.

Definition big_scan (s : bytes) : option Z :=
  let p := big_scan_prefix s in
  let '(st, rest) :=
    big_scan_loop (bp_base p) (bp_rest p) (ScanState 0 (bp_count p) (bp_prev p) false) in
  let bad_sep :=
    sc_inval st || match sc_prev st with PrevSep => true | _ => false end in
  if bad_sep then None
  else if (sc_count st =? 0) && negb (bp_octal p) then None
  else match rest with [] => Some (sc_val st) | _ => None end.

Definition SetString (s : bytes) : option Z :=
  let '(neg, u) := split_sign s in
  (if neg then Z.opp else id) <$> big_scan u.

(** * Floating point

    A float64 is an IEEE 754 binary64 datum.  The text conversions
    [strconv.ParseFloat(s, 64)] and [strconv.FormatFloat(f, 'f', -1, 64)] are
    operations of a class: the codec's theorems hold whatever they do. *)

Abbreviation float64 := spec_float.

Class FloatConv := {
  ParseFloat : bytes -> float64 + error;
  FormatFloat : float64 -> bytes;
}.

(** A conversion that knows the text "0" only, for concrete runs. *)
Definition zero_floats : FloatConv := {|
  ParseFloat s := if bool_decide (s = str "0") then inl (S754_zero false)
                  else inr (NumError "ParseFloat" s ErrSyntax);
  FormatFloat _ := str "0";
|}.

(** * Properties of the decimal digits *)

Lemma digit_val_digit d : 0 <= d < 10 -> digit_val (digit d) = Some d.
Proof.
  intros. unfold digit_val, digit. rewrite byte_val_to_byte.
  rewrite Z.mod_small by lia.
  rewrite (proj2 (andb_true_iff _ _)) by lia. f_equal. lia.
Qed.

Lemma digit_val_is_digit c d : digit_val c = Some d -> c = digit d /\ 0 <= d < 10.
Proof.
  unfold digit_val, digit. destruct (_ && _) eqn:E; [|done].
  intros [= <-]. split; [|lia].
  rewrite <- (to_byte_val c) at 1. f_equal. lia.
Qed.

(** The number a string of digits denotes, read after [acc]. *)
Fixpoint dec_val (acc : Z) (s : bytes) : Z :=
  match s with
  | [] => acc
  | c :: s => dec_val (acc * 10 + default 0 (digit_val c)) s
  end.

Definition is_digit (c : byte) : Prop := is_Some (digit_val c).

Lemma dec_val_app acc s t : dec_val acc (s ++ t) = dec_val (dec_val acc s) t.
Proof. revert acc. by induction s; simpl. Qed.

Lemma dec_val_mono acc s : 0 <= acc -> acc <= dec_val acc s.
Proof.
  revert acc. induction s as [|c s IH]; simpl; intros acc H; [lia|].
  assert (0 <= default 0 (digit_val c)).
  { destruct (digit_val c) eqn:E; simpl; [|lia].
    apply digit_val_is_digit in E. lia. }
  etrans; [|apply IH; lia]. lia.
Qed.

Lemma digits_loop_spec fuel n acc :
  0 <= n < 2 ^ Z.of_nat fuel -> fuel <> O ->
  exists ds, digits_loop fuel n acc = ds ++ acc /\ Forall is_digit ds /\
    ds <> [] /\ dec_val 0 ds = n /\
    (n <> 0 -> forall ds', ds <> digit 0 :: ds').
Proof.
  revert n acc. induction fuel as [|fuel IH]; intros n acc Hn Hf; [done|].
  pose proof (Z.mod_pos_bound n 10 ltac:(lia)) as Hm.
  assert (Forall is_digit [digit (n mod 10)]) as Hd.
  { constructor; [|done]. eexists. by apply digit_val_digit. }
  simpl. destruct (n <? 10) eqn:E.
  - exists [digit (n mod 10)].
    assert (n mod 10 = n) as Hs by (apply Z.mod_small; lia).
    split_and!; try done.
    + simpl. rewrite digit_val_digit by done. simpl. lia.
    + intros Hz ds' [= Hdd _]. rewrite Hs in *.
      apply (f_equal digit_val) in Hdd.
      rewrite !digit_val_digit in Hdd by lia. by simplify_eq.
  - rewrite Nat2Z.inj_succ, Z.pow_succ_r in Hn by lia.
    destruct (IH (n / 10) (digit (n mod 10) :: acc)) as (ds & -> & H1 & H2 & H3 & H4).
    { split; [apply Z.div_pos; lia|].
      apply Z.div_lt_upper_bound; lia. }
    { intros ->. simpl in Hn. lia. }
    exists (ds ++ [digit (n mod 10)]).
    split_and!.
    + by rewrite <- app_assoc.
    + by apply Forall_app.
    + by destruct ds.
    + rewrite dec_val_app, H3. simpl. rewrite digit_val_digit by done. simpl.
      pose proof (Z.div_mod n 10 ltac:(lia)). lia.
    + intros _ ds' Happ. destruct ds as [|c ds]; [done|].
      injection Happ as -> _. apply (H4 ltac:(pose proof (Z.div_mod n 10 ltac:(lia)); lia) ds). done.
Qed.

Lemma digits_spec n :
  0 <= n ->
  Forall is_digit (digits n) /\ digits n <> [] /\ dec_val 0 (digits n) = n /\
  (n <> 0 -> forall ds, digits n <> digit 0 :: ds).
Proof.
  intros Hn. unfold digits.
  destruct (digits_loop_spec (S (Z.to_nat (Z.log2 n))) n []) as (ds & -> & H).
  { split; [done|]. destruct (decide (n = 0)) as [->|]; [done|].
    rewrite Nat2Z.inj_succ, Z2Nat.id by apply Z.log2_nonneg.
    apply Z.log2_spec. lia. }
  { done. }
  by rewrite app_nil_r.
Qed.

Lemma parse_uint_loop_digits s acc :
  0 <= acc -> Forall is_digit s ->
  parse_uint_loop acc s =
    if decide (dec_val acc s <= max_uint64) then inl (dec_val acc s)
    else match s with [] => inl acc | _ => inr FailRange end.
Proof.
  intros Ha Hs. revert acc Ha. induction Hs as [|c s [d Hd] Hs IH]; intros acc Ha.
  { simpl. by case_decide. }
  simpl. rewrite Hd. simpl. pose proof (digit_val_is_digit _ _ Hd) as [_ ?].
  destruct (max_uint64 <? acc * 10 + d) eqn:E.
  - rewrite decide_False; [done|].
    pose proof (dec_val_mono (acc * 10 + d) s ltac:(lia)). lia.
  - rewrite IH by lia. case_decide; [done|].
    destruct s; [simpl in *; lia|done].
Qed.

Lemma digits_not_sign n ds c :
  0 <= n -> digits n = c :: ds -> c <> plus /\ c <> minus.
Proof.
  intros Hn E. destruct (digits_spec n Hn) as (H & _). rewrite E in H.
  apply Forall_cons in H as [[d Hd] _].
  split; intros ->; vm_compute in Hd; discriminate.
Qed.

(** Decimal text does not contain the bytes of a line end. *)
Lemma FormatInt_bytes i c :
  c ∈ FormatInt i -> c = minus \/ is_digit c.
Proof.
  unfold FormatInt. destruct (i <? 0) eqn:E; intros Hc.
  - apply elem_of_cons in Hc as [->|Hc]; [by left|right].
    destruct (digits_spec (- i)) as [H _]; [lia|]. rewrite Forall_forall in H. auto.
  - right. destruct (digits_spec i) as [H _]; [lia|]. rewrite Forall_forall in H. auto.
Qed.

Lemma FormatInt_nonempty i : FormatInt i <> [].
Proof.
  unfold FormatInt. destruct (i <? 0) eqn:E; [done|].
  apply (digits_spec i). lia.
Qed.

(** A sign does not change how the digits of a number are split off. *)
Lemma split_sign_FormatInt i :
  split_sign (FormatInt i) = (i <? 0, digits (Z.abs i)).
Proof.
  unfold FormatInt. destruct (i <? 0) eqn:E.
  - simpl. rewrite Z.abs_neq by lia. done.
  - rewrite Z.abs_eq by lia. destruct (digits i) as [|c ds] eqn:Ed; [done|].
    destruct (digits_not_sign i ds c) as [? ?]; [lia|done|].
    unfold split_sign. by rewrite !decide_False.
Qed.

(** Reading back what was printed gives the number, for every int64. *)
Lemma ParseInt_FormatInt i : int64_range i -> ParseInt (FormatInt i) = inl i.
Proof.
  intros Hi. autounfold with anarcho in Hi.
  unfold ParseInt.
  destruct (FormatInt i) as [|c s] eqn:E; [by apply FormatInt_nonempty in E|].
  rewrite <- E, split_sign_FormatInt.
  destruct (digits_spec (Z.abs i)) as (H1 & H2 & H3 & _); [lia|].
  unfold parse_uint. destruct (digits (Z.abs i)) as [|c' s'] eqn:Ed; [done|].
  rewrite parse_uint_loop_digits, H3 by (done || lia).
  rewrite decide_True by (autounfold with anarcho; lia).
  destruct (i <? 0) eqn:En; simpl.
  - rewrite (proj2 (Z.ltb_ge _ _)) by lia. f_equal. lia.
  - rewrite (proj2 (Z.leb_gt _ _)) by lia. f_equal. lia.
Qed.

(** What [ParseInt] accepts is an int64. *)
Lemma parse_uint_loop_nonneg s acc n :
  0 <= acc -> parse_uint_loop acc s = inl n -> 0 <= n.
Proof.
  revert acc. induction s as [|c s IH]; simpl; intros acc Ha H; [by simplify_eq|].
  destruct (digit_val c) as [d|] eqn:Hd; [|done].
  apply digit_val_is_digit in Hd as [_ ?].
  destruct (_ <? _); [done|]. eapply IH; [|done]. lia.
Qed.

Lemma ParseInt_range s i : ParseInt s = inl i -> int64_range i.
Proof.
  unfold ParseInt. destruct s as [|c s]; [done|].
  destruct (split_sign (c :: s)) as [neg u].
  unfold parse_uint. destruct u as [|c' u]; [done|].
  destruct (parse_uint_loop 0 (c' :: u)) as [un|] eqn:E; [|done].
  apply parse_uint_loop_nonneg in E; [|lia].
  autounfold with anarcho.
  destruct neg; simpl; intros H; repeat case_match; simplify_eq; lia.
Qed.

Lemma ParseBool_FormatBool b : ParseBool (FormatBool b) = inl b.
Proof. by destruct b. Qed.

(** * Big integers: printing then scanning *)

Lemma big_scan_loop_digits s st :
  Forall is_digit s -> s <> [] ->
  exists n,
  big_scan_loop 10 s st =
    (ScanState (dec_val (sc_val st) s) n PrevDigit (sc_inval st), []) /\
  sc_count st < n.
Proof.
  intros Hs Hne. revert st. induction Hs as [|c s [d Hd] Hs IH]; intros st; [done|].
  pose proof (digit_val_is_digit _ _ Hd) as [Hc ?].
  assert (c <> "_"%byte) as Hu by (intros ->; vm_compute in Hd; discriminate).
  assert (big_digit c = d) as Hb.
  { unfold digit_val in Hd. unfold big_digit. by destruct (_ && _); simplify_eq. }
  cbn [big_scan_loop]. rewrite decide_False by done. rewrite Hb.
  rewrite (proj2 (Z.leb_gt 10 d)) by lia.
  simpl dec_val. rewrite Hd. simpl default.
  destruct s as [|c' s].
  { eexists. split; [done|]. simpl. lia. }
  destruct (IH ltac:(done)
    (ScanState (sc_val st * 10 + d) (sc_count st + 1) PrevDigit (sc_inval st)))
    as (n & -> & Hn).
  eexists. split; [done|]. simpl in Hn. lia.
Qed.

Lemma SetString_FormatInt i : SetString (FormatInt i) = Some i.
Proof.
  unfold SetString. rewrite split_sign_FormatInt.
  assert (big_scan (digits (Z.abs i)) = Some (Z.abs i)) as ->.
  { destruct (decide (i = 0)) as [->|Hnz]; [done|].
    destruct (digits_spec (Z.abs i)) as (H1 & H2 & H3 & H4); [lia|].
    unfold big_scan, big_scan_prefix.
    destruct (digits (Z.abs i)) as [|c s] eqn:E; [done|].
    rewrite decide_False.
    2: { intros ->. apply (H4 ltac:(lia) s). done. }
    cbn [bp_base bp_rest bp_count bp_prev bp_octal].
    destruct (big_scan_loop_digits (c :: s) (ScanState 0 0 PrevOther false))
      as (n & -> & Hn); [done..|]. simpl in *.
    rewrite (proj2 (Z.eqb_neq n 0)) by lia. simpl. f_equal. exact H3. }
  destruct (i <? 0) eqn:E; simpl; f_equal; lia.
Qed.
