(* ===== verification/GoIO.v ===== *)
(** Readers and writers of the Go standard library: [io.Reader] values over a
    shared heap ([bytes.Buffer], [strings.Reader], [bufio.Reader] and
    [io.LimitReader]), whose sources end with an error or stay open and silent,
    [io.ReadFull], the [io.Writer] contract as a type class, and its implementation
    [bytes.Buffer]. *)

From S2P Require Import Prelude GoBase.

(** * Readers

    A source delivers its data in chunks, at most one chunk per call of [Read];
    an empty chunk is a call that returns [0, nil].  What comes after the chunks is
    [s_end]: an error, reported on every further call, or, for a stream that is still
    open, nothing yet, and a further call waits.  A [bytes.Buffer] or
    [strings.Reader] over [d] is the source with the single chunk [d] that ends in
    [io.EOF]; a [bufio.Reader] over a connection is a source whose chunks are what
    the network has delivered, [Open] until the peer closes it or it fails. *)

Inductive stop := Ended (e : error) | Open.

Record source := Source { s_chunks : list bytes; s_end : stop }.

(** Sources and the remaining counts of [io.LimitedReader]s live in a heap, so
    that two messages holding the same reader consume the same bytes. *)
Record heap := Heap { h_srcs : list source; h_limits : list Z }.

Inductive reader :=
| RSrc (l : nat)                   (** a source *)
| RLimit (l : nat) (r : reader).   (** [&io.LimitedReader{R: r, N: h_limits[l]}] *)

Definition src_at (h : heap) (l : nat) : source :=
  default (Source [] (Ended EOF)) (h_srcs h !! l).

(** One [Read] of a source into a buffer of [k] bytes: what it delivers, or that
    there is nothing more. *)
Definition read_source (s : source) (k : nat) : (bytes * option stop) * source :=
  match s_chunks s with
  | [] => (([], Some (s_end s)), s)
  | c :: cs =>
      if length c <=? k then ((c, None), Source cs (s_end s))
      else ((take k c, None), Source (drop k c :: cs) (s_end s))
  end.

Definition set_src (l : nat) (s : source) (h : heap) : heap :=
  Heap (<[l := s]> (h_srcs h)) (h_limits h).
Definition set_limit (l : nat) (n : Z) (h : heap) : heap :=
  Heap (h_srcs h) (<[l := n]> (h_limits h)).

(** The same for a reader; an [io.LimitedReader] that is used up reports [io.EOF]. *)
Fixpoint read (r : reader) (k : nat) (h : heap) : (bytes * option stop) * heap :=
  match r with
  | RSrc l =>
      let '(res, s) := read_source (src_at h l) k in (res, set_src l s h)
  | RLimit l r =>
      let n := default 0%Z (h_limits h !! l) in
      if (n <=? 0)%Z then (([], Some (Ended EOF)), h)
      else
        let k := if (n <? Z.of_nat k)%Z then Z.to_nat n else k in
        let '((p, err), h) := read r k h in
        ((p, err), set_limit l (n - zlen p) h)
  end.

(** [r.Read(p)] with [len(p) = k]: the bytes put at the front of [p], and the error;
    on an open stream that has delivered everything the call waits. *)
Definition reader_Read (r : reader) (k : nat) : M heap (bytes * option error) := fun h =>
  let '((p, end_), h) := read r k h in
  match end_ with
  | None => (Ret (p, None), h)
  | Some (Ended e) => (Ret (p, Some e), h)
  | Some Open => (Block, h)
  end.

(** The source [l] is open and has delivered everything: a read of it waits. *)
Definition starved (l : nat) (h : heap) : Prop := src_at h l = Source [] Open.

(** [bytes.NewBufferString(s)] and [io.LimitReader(r, n)] allocate. *)
Definition new_source (s : source) (h : heap) : reader * heap :=
  (RSrc (length (h_srcs h)), Heap (h_srcs h ++ [s]) (h_limits h)).

Definition buffer_source (d : bytes) : source :=
  Source (match d with [] => [] | _ => [d] end) (Ended EOF).

Definition NewBufferString (d : bytes) (h : heap) : reader * heap :=
  new_source (buffer_source d) h.

Definition LimitReader (r : reader) (n : Z) (h : heap) : reader * heap :=
  (RLimit (length (h_limits h)) r, Heap (h_srcs h) (h_limits h ++ [n])).

(** The source a reader draws from, and how many calls of [Read] with a
    non-empty buffer it can still answer without an error. *)
Fixpoint reader_src (r : reader) : nat :=
  match r with RSrc l => l | RLimit _ r => reader_src r end.

Definition source_size (s : source) : nat :=
  sum_list_with (fun c => S (length c)) (s_chunks s).

Definition reader_size (h : heap) (r : reader) : nat :=
  source_size (src_at h (reader_src r)).

(** The data a source has left. *)
Definition source_data (s : source) : bytes := concat (s_chunks s).

(** [io.ReadFull(r, buf)] with [len(buf) = k]: read until [k] bytes arrived. *)
Fixpoint read_full_loop (fuel k : nat) (r : reader) (got : bytes)
  : M heap (bytes * option error) :=
  if k =? 0 then mret (got, None)
  else
    match fuel with
    | O => out_of_fuel
    | S fuel =>
        '(p, err) ← reader_Read r k;
        let got := got ++ p in
        match err with
        | None => read_full_loop fuel (k - length p) r got
        | Some e =>
            let e := match got, e with
                     | _ :: _, Sentinel "io.EOF" => ErrUnexpectedEOF
                     | _, _ => e
                     end in
            mret (got, if length p <? k then Some e else None)
        end
    end.

Definition ReadFull (r : reader) (k : nat) : M heap (bytes * option error) :=
  fun h => read_full_loop (S (reader_size h r)) k r [] h.

(** ** Facts about reading *)

Lemma read_source_spec s k p err s' :
  read_source s k = ((p, err), s') ->
  (err = None /\ (length p <= k)%nat /\ source_data s = p ++ source_data s' /\
   s_end s' = s_end s /\ (0 < k -> source_size s' < source_size s)%nat) \/
  (err = Some (s_end s) /\ p = [] /\ s' = s /\ s_chunks s = []).
Proof.
  unfold read_source, source_data, source_size. destruct s as [[|c cs] e]; simpl.
  { intros [= <- <- <-]. by right. }
  destruct (Nat.leb_spec (length c) k); intros [= <- <- <-]; left; simpl.
  - split_and!; auto with lia.
  - split_and!; try done.
    + rewrite length_take. lia.
    + by rewrite app_assoc, take_drop.
    + rewrite length_drop. lia.
Qed.

Lemma read_length r k h p err h' :
  read r k h = ((p, err), h') -> (length p <= k)%nat.
Proof.
  revert k h p err h'. induction r as [l|l r IH]; simpl; intros k h p err h'.
  - destruct (read_source _ k) as [[p' e'] s'] eqn:E. intros [= <- <- <-].
    apply read_source_spec in E as [(_&?&_)|(_&->&_)]; simpl; lia.
  - destruct (_ <=? 0)%Z; [intros [= <- <- <-]; simpl; lia|].
    set (k' := if (_ <? _)%Z then _ else k).
    destruct (read r k' h) as [[p' e'] s'] eqn:E. intros [= <- <- <-].
    apply IH in E. unfold k' in E. case_match; lia.
Qed.

(** A read that succeeds makes progress on its source, and on no other. *)
Lemma src_at_set_src l s h :
  src_at (set_src l s h) l = if decide (l < length (h_srcs h)) then s else Source [] (Ended EOF).
Proof.
  unfold src_at, set_src; simpl. case_decide.
  - by rewrite list_lookup_insert_eq.
  - by rewrite lookup_ge_None_2 by (rewrite length_insert; lia).
Qed.

Lemma src_at_set_src_ne l l' s h : l <> l' -> src_at (set_src l s h) l' = src_at h l'.
Proof. intros. unfold src_at, set_src; simpl. by rewrite list_lookup_insert_ne. Qed.

Lemma src_at_set_limit l n h l' : src_at (set_limit l n h) l' = src_at h l'.
Proof. done. Qed.

Lemma src_at_ge h l : length (h_srcs h) <= l -> src_at h l = Source [] (Ended EOF).
Proof. intros. unfold src_at. by rewrite lookup_ge_None_2. Qed.

Lemma read_other r k h l :
  l <> reader_src r -> src_at (read r k h).2 l = src_at h l.
Proof.
  revert k h. induction r as [l0|l0 r IH]; simpl; intros k h Hl.
  - destruct (read_source _ k) as [[p e] s]; simpl. by rewrite src_at_set_src_ne.
  - destruct (_ <=? 0)%Z; [done|].
    set (k' := if (_ <? _)%Z then _ else k).
    pose proof (IH k' h Hl). by destruct (read r k' h) as [[p e] h'].
Qed.

Lemma read_shape r k h :
  length (h_srcs (read r k h).2) = length (h_srcs h).
Proof.
  revert k h. induction r as [l0|l0 r IH]; simpl; intros k h.
  - destruct (read_source _ k) as [[p e] s]; simpl. by rewrite length_insert.
  - destruct (_ <=? 0)%Z; [done|].
    set (k' := if (_ <? _)%Z then _ else k).
    pose proof (IH k' h). by destruct (read r k' h) as [[p e] h'].
Qed.

Lemma read_progress r k h p h' :
  0 < k -> read r k h = ((p, None), h') -> reader_size h' r < reader_size h r.
Proof.
  unfold reader_size. revert k h p h'.
  induction r as [l|l r IH]; simpl; intros k h p h' Hk.
  - destruct (read_source (src_at h l) k) as [[p' e'] s'] eqn:E. intros [= <- -> <-].
    rewrite src_at_set_src. case_decide as Hl.
    + apply read_source_spec in E as [(_&_&_&_&?)|(?&_)]; [auto|done].
    + rewrite src_at_ge in E by lia. by vm_compute in E.
  - destruct (_ <=? 0)%Z eqn:En; [done|].
    set (k' := if (_ <? _)%Z then _ else k).
    destruct (read r k' h) as [[p' e'] h1] eqn:E. intros [= <- -> <-].
    rewrite src_at_set_limit. eapply IH; [|done]. unfold k'. case_match; lia.
Qed.

Lemma read_size_le r k h : reader_size (read r k h).2 r <= reader_size h r.
Proof.
  unfold reader_size. revert k h. induction r as [l|l r IH]; simpl; intros k h.
  - destruct (read_source (src_at h l) k) as [[p e] s'] eqn:E. simpl.
    rewrite src_at_set_src. case_decide; [|vm_compute; lia].
    unfold read_source in E. destruct (s_chunks (src_at h l)) as [|c cs] eqn:Ec.
    { by simplify_eq. }
    unfold source_size. rewrite Ec. destruct (_ <=? _); simplify_eq; simpl; [lia|].
    rewrite length_drop. lia.
  - destruct (_ <=? 0)%Z; [done|].
    set (k' := if (_ <? _)%Z then _ else k).
    pose proof (IH k' h). by destruct (read r k' h) as [[p e] h'].
Qed.

(** A reader stops to wait only when its source is starved. *)
Lemma read_open r k h p h' : read r k h = ((p, Some Open), h') -> starved (reader_src r) h'.
Proof.
  unfold starved. revert k h p h'. induction r as [l|l r IH]; simpl; intros k h p h'.
  - destruct (read_source (src_at h l) k) as [[p' e'] s'] eqn:E. intros [= <- -> <-].
    rewrite src_at_set_src. case_decide as Hl.
    + apply read_source_spec in E as [(?&_)|(He&_&->&Hc)]; [done|].
      destruct (src_at h l). simpl in *. by simplify_eq.
    + rewrite src_at_ge in E by lia. by vm_compute in E.
  - destruct (_ <=? 0)%Z; [done|]. set (k' := if (_ <? _)%Z then _ else k).
    destruct (read r k' h) as [[p' e'] h1] eqn:E. intros [= <- -> <-].
    rewrite src_at_set_limit. by eapply IH.
Qed.

(** What a call of [Read] does: it returns, or waits for its source. *)
Lemma reader_Read_returns r k h :
  returns (starved (reader_src r)) (reader_Read r k) h (fun '(p, err) h' =>
    length p <= k /\ reader_size h' r <= reader_size h r /\
    (err = None -> 0 < k -> reader_size h' r < reader_size h r)).
Proof.
  unfold returns, reader_Read. pose proof (read_size_le r k h) as Hle.
  destruct (read r k h) as [[p err] h'] eqn:E. simpl in Hle.
  pose proof (read_length _ _ _ _ _ _ E) as Hp.
  destruct err as [[e|]|]; [done|by eapply read_open|].
  split_and!; [done..|]. intros _ Hk. by eapply read_progress.
Qed.

Lemma reader_Read_ok r k h p h' :
  read r k h = ((p, None), h') -> reader_Read r k h = (Ret (p, None), h').
Proof. unfold reader_Read. by intros ->. Qed.

(** [ReadFull] ends or waits for its source: its fuel, the number of reads the source
    can still answer, is never used up. *)
Lemma read_full_loop_returns fuel k r got h :
  reader_size h r < fuel ->
  returns (starved (reader_src r)) (read_full_loop fuel k r got) h (fun _ _ => True).
Proof.
  revert k got h. induction fuel as [|fuel IH]; intros k got h Hf; [lia|].
  cbn [read_full_loop]. destruct (Nat.eqb_spec k 0); [by apply returns_ret|].
  apply returns_bind. eapply returns_mono; [apply reader_Read_returns|].
  intros [p [e|]] h' (_ & _ & Hp); [by apply returns_ret|]. apply IH. specialize (Hp eq_refl). lia.
Qed.

(** Without an error the buffer is full. *)
Lemma read_full_loop_length fuel k r got h b h' :
  read_full_loop fuel k r got h = (Ret (b, None), h') -> length b = length got + k.
Proof.
  revert k got h. induction fuel as [|fuel IH]; intros k got h; cbn [read_full_loop];
    destruct (Nat.eqb_spec k 0) as [->|Hk]; try done; try (intros [= <- <-]; lia).
  intros ([p [e|]] & h1 & Er & E)%bind_ret_inv; revert E;
    pose proof (reader_Read_returns r k h) as Hp; unfold returns in Hp; rewrite Er in Hp;
    destruct Hp as [Hp _].
  - destruct (Nat.ltb_spec (length p) k); [done|]. intros [= <- <-]. rewrite length_app. lia.
  - intros E%IH. rewrite length_app in E. lia.
Qed.

Lemma ReadFull_safe r k h : safe (starved (reader_src r)) (ReadFull r k) h (fun _ _ => True).
Proof. apply returns_safe, read_full_loop_returns. lia. Qed.

(** [advanced l rest h h']: [h'] is [h] after reads of source [l] only, which has
    [rest] left. *)
Record advanced (l : nat) (rest : bytes) (h h' : heap) : Prop := Advanced {
  adv_data : source_data (src_at h' l) = rest;
  adv_end : s_end (src_at h' l) = s_end (src_at h l);
  adv_len : length (h_srcs h') = length (h_srcs h);
  adv_limits : h_limits h' = h_limits h;
  adv_other : forall l', l' <> l -> src_at h' l' = src_at h l';
}.

Lemma advanced_refl l h : advanced l (source_data (src_at h l)) h h.
Proof. by constructor. Qed.

Lemma advanced_trans l d1 d2 h1 h2 h3 :
  advanced l d1 h1 h2 -> advanced l d2 h2 h3 -> advanced l d2 h1 h3.
Proof.
  intros [? E1 L1 M1 O1] [? E2 L2 M2 O2]. constructor; try congruence.
  intros l' Hl'. by rewrite O2, O1.
Qed.

Lemma advanced_set_src l s h :
  l < length (h_srcs h) -> s_end s = s_end (src_at h l) ->
  advanced l (source_data s) h (set_src l s h).
Proof.
  intros Hl He. constructor; try (rewrite src_at_set_src, decide_True by done); try done.
  - simpl. by rewrite length_insert.
  - intros l' Hl'. by apply src_at_set_src_ne.
Qed.

(** One read of a source: some of its data, or nothing more. *)
Lemma read_src_cases l k h :
  l < length (h_srcs h) -> 0 < k ->
  (exists p rest h', read (RSrc l) k h = ((p, None), h') /\ length p <= k /\
     source_data (src_at h l) = p ++ rest /\ advanced l rest h h' /\
     source_size (src_at h' l) < source_size (src_at h l)) \/
  (exists h', read (RSrc l) k h = (([], Some (s_end (src_at h l))), h') /\
     source_data (src_at h l) = [] /\ advanced l [] h h').
Proof.
  intros Hl Hk. simpl.
  destruct (read_source (src_at h l) k) as [[p err] s] eqn:E.
  apply read_source_spec in E as [(-> & Hp & Hs & He & Hsz)|(-> & -> & -> & Hc)].
  - left. exists p, (source_data s), (set_src l s h). split_and!; auto.
    + by apply advanced_set_src.
    + rewrite src_at_set_src, decide_True by done. auto.
  - right. assert (source_data (src_at h l) = []) as Hd
      by (unfold source_data; by rewrite Hc).
    eexists. split_and!; [done..|]. rewrite <- Hd. by apply advanced_set_src.
Qed.

(** Reading a prefix of a source's data, however it is chunked. *)
Lemma read_full_loop_src fuel l k got h d rest :
  l < length (h_srcs h) ->
  source_data (src_at h l) = d ++ rest -> k = length d ->
  source_size (src_at h l) < fuel ->
  exists h', read_full_loop fuel k (RSrc l) got h = (Ret (got ++ d, None), h') /\
    advanced l rest h h'.
Proof.
  revert k got h d. induction fuel as [|fuel IH]; intros k got h d Hl Hd -> Hf; [lia|].
  cbn [read_full_loop]. destruct (Nat.eqb_spec (length d) 0) as [E|E].
  { apply nil_length_inv in E as ->. exists h. rewrite app_nil_r. split; [done|].
    rewrite app_nil_l in Hd. rewrite <- Hd. apply advanced_refl. }
  destruct (read_src_cases l (length d) h)
    as [(p & d' & h1 & Er & Hp & Hs & Ha & Hsz)|(h1 & _ & Hs & _)]; [done|lia| |].
  2: { rewrite Hs in Hd. by destruct d. }
  rewrite (bind_ret _ _ _ _ _ (reader_Read_ok _ _ _ _ _ Er)).
  rewrite Hd in Hs. apply app_eq_inv in Hs as [(k' & -> & ->)|(k' & -> & Hr)].
  2: { rewrite length_app in Hp. assert (k' = []) as -> by (destruct k'; simpl in *; auto; lia).
       rewrite app_nil_l in Hr. subst d'.
       rewrite app_nil_r in *. destruct (IH 0 (got ++ d) h1 []) as (h' & E' & Ha').
       - by rewrite (adv_len _ _ _ _ Ha).
       - by rewrite (adv_data _ _ _ _ Ha).
       - done.
       - lia.
       - exists h'. rewrite app_nil_r in E'. rewrite Nat.sub_diag.
         split; [done | by eapply advanced_trans]. }
  destruct (IH (length k') (got ++ p) h1 k') as (h' & E' & Ha').
  - by rewrite (adv_len _ _ _ _ Ha).
  - by rewrite (adv_data _ _ _ _ Ha).
  - done.
  - lia.
  - exists h'. rewrite length_app, Nat.add_sub_swap, Nat.sub_diag by lia. simpl.
    rewrite E', <- app_assoc. split; [done | by eapply advanced_trans].
Qed.

(** When the source has too little data, [ReadFull] consumes all of it and returns an
    error, or waits for more when the source is open. *)
Lemma read_full_loop_short fuel l k got h :
  l < length (h_srcs h) ->
  length (source_data (src_at h l)) < k ->
  source_size (src_at h l) < fuel ->
  exists o h', read_full_loop fuel k (RSrc l) got h = (o, h') /\ advanced l [] h h' /\
    match s_end (src_at h l) with
    | Ended _ => exists b e, o = Ret (b, Some e)
    | Open => o = Block
    end.
Proof.
  revert k got h. induction fuel as [|fuel IH]; intros k got h Hl Hd Hf; [lia|].
  cbn [read_full_loop]. destruct (Nat.eqb_spec k 0) as [|Hk]; [lia|].
  destruct (read_src_cases l k h)
    as [(p & d' & h1 & Er & Hp & Hs & Ha & Hsz)|(h1 & Er & Hs & Ha)]; [done|lia| |].
  - rewrite (bind_ret _ _ _ _ _ (reader_Read_ok _ _ _ _ _ Er)).
    destruct (IH (k - length p) (got ++ p) h1) as (o & h' & -> & Ha' & Ho).
    + by rewrite (adv_len _ _ _ _ Ha).
    + rewrite (adv_data _ _ _ _ Ha). rewrite Hs, length_app in Hd. lia.
    + lia.
    + exists o, h'. rewrite (adv_end _ _ _ _ Ha) in Ho.
      split_and!; [done|by eapply advanced_trans|done].
  - unfold mbind, M_bind, reader_Read. rewrite Er.
    destruct (s_end (src_at h l)) as [e|]; [|by do 2 eexists].
    do 2 eexists. split_and!; [reflexivity|done|].
    rewrite (proj2 (Nat.ltb_lt _ _)) by (simpl; lia). by do 2 eexists.
Qed.

(** * Writers

    The contract of [io.Writer]: [Write(p)] accepts the first [n] bytes of [p]
    and returns an error when that is not all of them.  [accepted] is the
    sequence of bytes the writer has taken so far. *)

Class IoWriter (W : Type) := {
  write : bytes -> W -> (Z * option error) * W;
  accepted : W -> bytes;
}.

Class IoWriterSpec (W : Type) `{!IoWriter W} : Prop := {
  write_spec p w n err w' :
    write p w = ((n, err), w') ->
    (0 <= n <= zlen p)%Z /\
    accepted w' = accepted w ++ take (Z.to_nat n) p /\
    (err = None -> n = zlen p);
}.

(** ** [bytes.Buffer] as a writer *)

Record Buffer := MkBuffer { buf_bytes : bytes }.

#[export] Instance Buffer_writer : IoWriter Buffer := {
  write p b := ((zlen p, None), MkBuffer (buf_bytes b ++ p));
  accepted := buf_bytes;
}.

#[export] Instance Buffer_writer_spec : IoWriterSpec Buffer.
Proof.
  split. intros p w n err w'. simpl. intros [= <- <- <-]. simpl.
  pose proof (zlen_nonneg p).
  split_and!; try (done || lia).
  by rewrite take_ge by (unfold zlen; lia).
Qed.
