(* ===== verification/Bufio.v ===== *)
(** [bufio.Writer] of the Go standard library: a buffer in front of a writer, with
    the first error of the writer kept.  It satisfies the contract of [io.Writer]
    when the writer behind it does. *)

From S2P Require Import Prelude GoBase GoIO.

Record BufWriter (W : Type) := MkBufWriter {
  bw_buf : bytes;
  bw_err : option error;
  bw_wr : W;
}.
Arguments MkBufWriter {W}.
Arguments bw_buf {W}.
Arguments bw_err {W}.
Arguments bw_wr {W}.

(** The default size of the buffer. *)
Definition bufio_size : nat := 4096.

Section bufio.
Context {W : Type} `{!IoWriter W}.
Implicit Types b : BufWriter W.

(** [NewWriter(w)]. *)
Definition NewWriter (w : W) : BufWriter W := MkBufWriter [] None w.

Definition Available b : nat := bufio_size - length (bw_buf b).

(** [Writer.Flush]. *)
Definition bufio_flush b : option error * BufWriter W :=
  match bw_err b with
  | Some e => (Some e, b)
  | None =>
      match bw_buf b with
      | [] => (None, b)
      | buf =>
          let '((n, err), w) := write buf (bw_wr b) in
          let err := match err with
                     | None => if (n <? zlen buf)%Z then Some ErrShortWrite else None
                     | Some e => Some e
                     end in
          match err with
          | Some e => (Some e, MkBufWriter (drop (Z.to_nat n) buf) (Some e) w)
          | None => (None, MkBufWriter [] None w)
          end
      end
  end.

(** [Writer.Write].  The loop sends full buffers; behind a writer that keeps its
    contract it turns at most twice, so [rounds] is not used up. *)
Fixpoint bufio_write (rounds : nat) (p : bytes) (nn : Z) b : (Z * option error) * BufWriter W :=
  if (Available b <? length p) && bool_decide (bw_err b = None) then
    match rounds with
    | O => ((nn, Some ErrShortWrite), b)
    | S rounds =>
        match bw_buf b with
        | [] =>
            let '((n, err), w) := write p (bw_wr b) in
            bufio_write rounds (drop (Z.to_nat n) p) (nn + n) (MkBufWriter [] err w)
        | buf =>
            let n := Available b in
            let b := MkBufWriter (buf ++ take n p) None (bw_wr b) in
            bufio_write rounds (drop n p) (nn + Z.of_nat n) (bufio_flush b).2
        end
    end
  else
    match bw_err b with
    | Some e => ((nn, Some e), b)
    | None => ((nn + zlen p, None)%Z, MkBufWriter (bw_buf b ++ p) None (bw_wr b))
    end.

#[export] Instance BufWriter_writer : IoWriter (BufWriter W) := {
  write p b := bufio_write 3 p 0 b;
  accepted b := accepted (bw_wr b) ++ bw_buf b;
}.

Context `{!IoWriterSpec W}.

(** Flushing passes bytes on and loses none. *)
Lemma bufio_flush_spec b err b' :
  bufio_flush b = (err, b') ->
  accepted b' = accepted b /\ bw_err b' = err /\ (err = None -> bw_buf b' = []).
Proof.
  unfold bufio_flush. destruct b as [buf er w]. simpl. destruct er as [e|]; [by intros [= <- <-]|].
  destruct buf as [|x buf]; [by intros [= <- <-]|].
  destruct (write (x :: buf) w) as [[n werr] w'] eqn:E.
  apply write_spec in E as (Hn & Ha & Hok). destruct werr as [e|].
  - intros [= <- <-]. simpl. by rewrite Ha, <- app_assoc, take_drop.
  - rewrite Hok, Z.ltb_irrefl by done. intros [= <- <-]. simpl.
    rewrite Ha, Hok, app_nil_r, take_ge by (done || unfold zlen; lia). done.
Qed.

(** How many turns the loop of [Write] still takes at most. *)
Definition turns (p : bytes) b : nat :=
  if (Available b <? length p) && bool_decide (bw_err b = None)
  then match bw_buf b with [] => 1 | _ => 2 end else 0.

Lemma turns_err p b : bw_err b <> None -> turns p b = 0.
Proof. intros He. unfold turns. by rewrite bool_decide_eq_false_2, andb_false_r. Qed.

Lemma turns_nil b : turns [] b = 0.
Proof. unfold turns. by destruct (Available b). Qed.

Lemma turns_empty p b : bw_buf b = [] -> turns p b <= 1.
Proof. intros Hb. unfold turns. rewrite Hb. destruct (_ && _); lia. Qed.

(** [wrote p b n err b']: the call took the first [n] bytes of [p]. *)
Definition wrote (p : bytes) b (k : Z) (err : option error) b' : Prop :=
  (0 <= k <= zlen p)%Z /\ accepted b' = accepted b ++ take (Z.to_nat k) p /\
  (err = None -> k = zlen p).

(** A turn that took the first [n] bytes, and the rest of the loop. *)
Lemma wrote_app p b (n : nat) b1 k err b' :
  n <= length p -> accepted b1 = accepted b ++ take n p ->
  wrote (drop n p) b1 k err b' -> wrote p b (Z.of_nat n + k) err b'.
Proof.
  intros Hn Ha (Hk & Ha' & Hok). unfold wrote, zlen in *. rewrite length_drop in *.
  split_and!; [lia..| |intros He; specialize (Hok He); lia].
  rewrite Ha', Ha, <- app_assoc, take_take_drop. do 2 f_equal. lia.
Qed.

(** The loop is left: what is left of [p] goes to the buffer. *)
Lemma wrote_exit p nn b n err b' :
  match bw_err b with
  | Some e => ((nn, Some e), b)
  | None => ((nn + zlen p, None)%Z, MkBufWriter (bw_buf b ++ p) None (bw_wr b))
  end = ((n, err), b') ->
  exists k, n = (nn + k)%Z /\ wrote p b k err b'.
Proof.
  pose proof (zlen_nonneg p). unfold wrote.
  destruct b as [buf [e|] w]; simpl; intros [= <- <- <-]; simpl.
  - exists 0%Z. rewrite app_nil_r. split_and!; [lia..|done|done].
  - exists (zlen p). rewrite take_ge by (unfold zlen; lia).
    split_and!; [lia..| |done]. apply app_assoc.
Qed.

Lemma bufio_write_spec rounds p nn b n err b' :
  turns p b <= rounds -> bufio_write rounds p nn b = ((n, err), b') ->
  exists k, n = (nn + k)%Z /\ wrote p b k err b'.
Proof.
  revert p nn b. induction rounds as [|rounds IH]; intros p nn b Ht; cbn [bufio_write];
    unfold turns in Ht; destruct ((Available b <? length p) && _) eqn:Hc.
  1: destruct (bw_buf b); lia.
  1, 3: by apply wrote_exit.
  apply andb_true_iff in Hc as [Hav Herr]. apply Nat.ltb_lt in Hav.
  apply bool_decide_eq_true in Herr. destruct b as [buf er w].
  cbn [bw_err bw_buf bw_wr] in *. subst er.
  destruct buf as [|x buf].
  - destruct (write p w) as [[n1 e1] w1] eqn:E. apply write_spec in E as (Hn & Ha & Hok).
    unfold zlen in *. intros (k & -> & Hw)%IH.
    + exists (n1 + k)%Z. split; [lia|]. rewrite <- (Z2Nat.id n1) by lia.
      eapply wrote_app; [lia| |done]. simpl. by rewrite !app_nil_r.
    + destruct e1 as [e|]; [rewrite turns_err by done; lia|].
      rewrite Hok, Nat2Z.id, drop_all by done. rewrite turns_nil. lia.
  - set (av := Available _) in *.
    destruct (bufio_flush (MkBufWriter ((x :: buf) ++ take av p) None w)) as [e1 b2] eqn:Ef.
    apply bufio_flush_spec in Ef as (Ha & He & Hb). intros (k & -> & Hw)%IH.
    + exists (Z.of_nat av + k)%Z. split; [lia|].
      eapply wrote_app; [lia| |done]. simpl snd. rewrite Ha. simpl accepted. by rewrite <- app_assoc.
    + cbn [snd]. destruct e1 as [e|]; [rewrite turns_err by (by rewrite He); lia|].
      pose proof (turns_empty (drop av p) b2 (Hb eq_refl)). lia.
Qed.

#[export] Instance BufWriter_writer_spec : IoWriterSpec (BufWriter W).
Proof.
  split. intros p b n err b' E.
  change (bufio_write 3 p 0 b = ((n, err), b')) in E.
  apply bufio_write_spec in E as (k & -> & Hk & Ha & Hok); [by rewrite Z.add_0_l|].
  unfold turns. repeat case_match; lia.
Qed.

(** What has reached the writer behind the buffer only grows, and a writer that has
    failed takes nothing more. *)
Lemma write_grows p (w : W) : accepted w `prefix_of` accepted (write p w).2.
Proof.
  destruct (write p w) as [[n err] w'] eqn:E. apply write_spec in E as (_ & Ha & _).
  simpl. rewrite Ha. by apply prefix_app_r.
Qed.

Lemma bufio_flush_grows b : accepted (bw_wr b) `prefix_of` accepted (bw_wr (bufio_flush b).2).
Proof.
  unfold bufio_flush. destruct b as [buf [e|] w]; simpl; [done|]. destruct buf as [|x buf]; [done|].
  pose proof (write_grows (x :: buf) w) as Hg. destruct (write (x :: buf) w) as [[n [e|]] w']; [done|].
  by destruct (n <? _)%Z.
Qed.

Lemma bufio_write_grows rounds p nn b :
  accepted (bw_wr b) `prefix_of` accepted (bw_wr (bufio_write rounds p nn b).2).
Proof.
  revert p nn b. induction rounds as [|rounds IH]; intros p nn b; cbn [bufio_write];
    destruct ((Available b <? length p) && _); try done; try by destruct (bw_err b).
  destruct (bw_buf b) as [|x buf].
  - pose proof (write_grows p (bw_wr b)) as Hg. destruct (write p (bw_wr b)) as [[n err] w].
    etrans; [exact Hg|]. apply (IH _ _ (MkBufWriter [] err w)).
  - etrans; [|apply IH]. apply (bufio_flush_grows (MkBufWriter ((x :: buf) ++ _) None (bw_wr b))).
Qed.

Lemma bufio_write_failed rounds p nn b e :
  bw_err b = Some e -> bufio_write rounds p nn b = ((nn, Some e), b).
Proof.
  intros He. destruct rounds; cbn [bufio_write];
    rewrite bool_decide_eq_false_2, andb_false_r by (by rewrite He); by rewrite He.
Qed.

End bufio.
