(* ===== verification/Kind.v ===== *)
(** Package kind (src/protocol/kind/kind.go): the first byte of every RESP
    message, the category it belongs to and its human-readable name. *)

From S2P Require Import Prelude.

(** [type Kind byte]. *)
Abbreviation Kind := byte (only parsing).

Module kind.

(** [kind.EOL]. *)
Definition EOL : bytes := [x0d; x0a].

Definition SimpleString : Kind := "+"%byte.
Definition Error : Kind := "-"%byte.
Definition Int : Kind := ":"%byte.
Definition BulkString : Kind := "$"%byte.
Definition Array : Kind := "*"%byte.
Definition Null : Kind := "_"%byte.
Definition Bool : Kind := "#"%byte.
Definition Double : Kind := ","%byte.
Definition BigNumber : Kind := "("%byte.
Definition BulkError : Kind := "!"%byte.
Definition VerbatimString : Kind := "="%byte.
Definition Map : Kind := "%"%byte.
Definition Attribute : Kind := "`"%byte.
Definition Set_ : Kind := "~"%byte.
Definition Push : Kind := ">"%byte.

Definition CategorySimple : Z := 0.
Definition CategoryAggregate : Z := 1.

(** The kinds of the constant block, in its order. *)
Definition all_kinds : list Kind :=
  [SimpleString; Error; Int; BulkString; Array; Null; Bool; Double; BigNumber;
   BulkError; VerbatimString; Map; Attribute; Set_; Push].

(** The switch of [Category]. *)
Definition Category (i : Kind) : Z :=
  if decide (i ∈ [SimpleString; Error; Int; Null; Bool; Double; BigNumber]) then CategorySimple
  else if decide (i ∈ [Array; Set_; Push; BulkString; BulkError; VerbatimString; Map; Attribute])
  then CategoryAggregate
  else (-1)%Z.

(** [Humanize]: the switch, case by case; [BulkError] has no case. *)
Definition Humanize (indicator : byte) : bytes :=
  if decide (indicator = SimpleString) then str "SimpleString"
  else if decide (indicator = Error) then str "Error"
  else if decide (indicator = Int) then str "Int"
  else if decide (indicator = BulkString) then str "Bulk"
  else if decide (indicator = Array) then str "Seq"
  else if decide (indicator = Null) then str "Null"
  else if decide (indicator = Bool) then str "Bool"
  else if decide (indicator = Double) then str "Double"
  else if decide (indicator = BigNumber) then str "BigNumber"
  else if decide (indicator = VerbatimString) then str "VerbatimString"
  else if decide (indicator = Map) then str "Assoc"
  else if decide (indicator = Attribute) then str "Attribute"
  else if decide (indicator = Set_) then str "Set"
  else if decide (indicator = Push) then str "Push"
  else str "Unknown".

(** [Kind.String]. *)
Definition String_ (i : Kind) : bytes := Humanize i.

(** The groups of kinds the switches over aggregates distinguish. *)
Lemma bulk_kinds k :
  k ∈ [BulkString; BulkError] ->
  k ∈ [BulkString; BulkError; VerbatimString] /\ Category k = CategoryAggregate /\
  k <> VerbatimString.
Proof. revert k. refine (byte_decide _ _). by vm_compute. Qed.

Lemma verbatim_kind : VerbatimString ∈ [BulkString; BulkError; VerbatimString].
Proof. right; right; left. Qed.

Lemma seq_kinds k :
  k ∈ [Array; Push; Set_] ->
  (k ∉ [BulkString; BulkError; VerbatimString]) /\ Category k = CategoryAggregate /\
  k <> VerbatimString.
Proof. revert k. refine (byte_decide _ _). by vm_compute. Qed.

Lemma map_kinds k :
  k ∈ [Map; Attribute] ->
  (k ∉ [BulkString; BulkError; VerbatimString]) /\ (k ∉ [Array; Push; Set_]) /\
  Category k = CategoryAggregate /\ k <> VerbatimString.
Proof. revert k. refine (byte_decide _ _). by vm_compute. Qed.

(** The types of the protocol RESP3, by the byte a value of the type starts with, as
    its specification lists them: simple values end with their line, aggregates
    announce a length. *)
Definition resp3_simple : bytes := str "+-:_#,(".
Definition resp3_aggregate : bytes := str "*$!=%~>|".

Definition resp3_category (b : byte) : Z :=
  if decide (b ∈ resp3_simple) then 0%Z
  else if decide (b ∈ resp3_aggregate) then 1%Z else (-1)%Z.

(** C40: the categories are those of RESP3 for every byte but two: the attribute
    type, [|] in the protocol, is unknown to the program, which declares it as a
    backquote, a byte the protocol does not use. *)
Theorem Category_resp3 (k : Kind) :
  Category k = if decide (k = "|"%byte) then (-1)%Z
               else if decide (k = "`"%byte) then 1%Z
               else resp3_category k.
Proof. revert k. refine (byte_decide _ _). by vm_compute. Qed.

(** The declared kinds that [Humanize] names are all of them except
    [BulkError], which is printed as "Unknown", and the names tell the named
    kinds apart. *)
Theorem Humanize_names k :
  (Humanize k <> str "Unknown" <-> k ∈ all_kinds /\ k <> BulkError) /\
  (Humanize k <> str "Unknown" -> forall k', Humanize k' = Humanize k -> k' = k).
Proof.
  split.
  - revert k. refine (byte_decide _ _). by vm_compute.
  - assert (forallb (fun a => forallb (fun b => bool_decide
      (Humanize a <> str "Unknown" -> Humanize b = Humanize a -> b = a))
      all_bytes) all_bytes = true) as H by by vm_compute.
    intros Hk k' E. rewrite forallb_forall in H.
    specialize (H k (proj1 (list_elem_of_In _ _) (all_bytes_complete k))).
    rewrite forallb_forall in H.
    specialize (H k' (proj1 (list_elem_of_In _ _) (all_bytes_complete k'))).
    apply bool_decide_eq_true in H. auto.
Qed.

End kind.
