(* ===== verification/Indicator.v ===== *)
(** The constants of src/protocol/message.go: package protocol gives the kinds of
    messages under names of its own. *)

From S2P Require Import Prelude Kind.

Module Indicator.

Definition End_ : bytes := [x0d; x0a].

Definition SimpleString : byte := kind.SimpleString.
Definition Error : byte := kind.Error.
Definition Int : byte := kind.Int.
Definition BulkString : byte := kind.BulkString.
Definition Array : byte := kind.Array.
Definition Null : byte := kind.Null.
Definition Bool : byte := kind.Bool.
Definition Double : byte := kind.Double.
Definition BigNumber : byte := kind.BigNumber.
Definition BulkError : byte := kind.BulkError.
Definition VerbatimString : byte := kind.VerbatimString.
Definition Map : byte := kind.Map.
Definition Attribute : byte := kind.Attribute.
Definition Sets : byte := kind.Set_.
Definition Push : byte := kind.Push.

(** The constants in the order of their declaration. *)
Definition indicators : list byte :=
  [SimpleString; Error; Int; BulkString; Array; Null; Bool; Double; BigNumber; BulkError;
   VerbatimString; Map; Attribute; Sets; Push].

End Indicator.

(** They name every declared kind, each once, and the line end is that of the kinds. *)
Lemma indicators_complete :
  Indicator.End_ = kind.EOL /\ NoDup Indicator.indicators /\
  forall k, kind.Category k <> (-1)%Z <-> k ∈ Indicator.indicators.
Proof.
  split_and!; [done|by apply (bool_decide_unpack _); vm_compute|].
  refine (byte_decide _ _). by vm_compute.
Qed.
