(* ===== verification/Message.v ===== *)
(** Package message (src/protocol/message/message.go) and the constructors of
    package protocol built on it (src/protocol/new.go, src/protocol/error.go):
    the composite message type, its constructors, and [ReadAll]. *)

From S2P Require Import Prelude GoBase GoStrconv GoIO Kind.
From Stdlib Require Import SpecFloat.

(** * The message type

    An [iter.Seq2[Message, error]] is a closure; the program makes two of them,
    the one [Array] and [Set] return over their arguments and the one
    [Encoder.Iterate] returns over a reader.  Likewise an
    [iter.Seq2[[2]Message, error]] comes from [Map] or from [chunk].  A value of
    [iter] is such a closure, named by what made it and what it captured. *)

Inductive iter (A : Type) :=
| IterList (arrs : list A)       (** the closure of [Array(arrs...)] and [Set] *)
| IterDecode (r : reader).       (** [e.Iterate(r)] *)
Arguments IterList {A} arrs.
Arguments IterDecode {A} r.

Inductive assoc (A : Type) :=
| AssocList (kvs : list A)       (** the closure of [Map(kvs...)] *)
| AssocChunk (s : iter A).       (** [chunk(s)] *)
Arguments AssocList {A} kvs.
Arguments AssocChunk {A} s.

Inductive Message := MkMessage {
  m_Kind : byte;
  m_SimpleString : bytes;
  m_Error : option error;
  m_Int : Z;
  m_Bool : bool;
  m_Double : float64;
  m_BigNumber : option Z;
  m_TotalMessageSize : Z;
  m_RunLength : Z;
  m_Reader : option reader;
  m_Encoding : bytes;
  m_Seq : option (iter Message);
  m_Assoc : option (assoc Message);
}.

Module message.

(** [Message{}]. *)
Definition zero : Message :=
  MkMessage x00 [] None 0 false (S754_zero false) None 0 0 None [x00; x00; x00]
    None None.

(** A composite literal that sets the kind and the fields of one simple type. *)
Definition SimpleString (s : bytes) : Message :=
  MkMessage kind.SimpleString s None 0 false (S754_zero false) None 0 0 None
    [x00; x00; x00] None None.

Definition Error (s : bytes) : Message :=
  MkMessage kind.Error [] (Some (ErrorsNew s)) 0 false (S754_zero false) None 0 0
    None [x00; x00; x00] None None.

Definition Null : Message :=
  MkMessage kind.Null [] None 0 false (S754_zero false) None 0 0 None
    [x00; x00; x00] None None.

Definition Int (i : Z) : Message :=
  MkMessage kind.Int [] None i false (S754_zero false) None 0 0 None
    [x00; x00; x00] None None.

Definition Bool (b : bool) : Message :=
  MkMessage kind.Bool [] None 0 b (S754_zero false) None 0 0 None
    [x00; x00; x00] None None.

Definition Double (f : float64) : Message :=
  MkMessage kind.Double [] None 0 false f None 0 0 None [x00; x00; x00] None None.

Definition BigNumber (b : option Z) : Message :=
  MkMessage kind.BigNumber [] None 0 false (S754_zero false) b 0 0 None
    [x00; x00; x00] None None.

Definition bulk (k : byte) (s : option reader) (runLength : Z) (encoding : bytes)
  : Message :=
  MkMessage k [] None 0 false (S754_zero false) None 0 runLength s encoding
    None None.

Definition BulkString (s : option reader) (runLength : Z) : Message :=
  bulk kind.BulkString s runLength [x00; x00; x00].

Definition BulkError (s : option reader) (runlength : Z) : Message :=
  bulk kind.BulkError s runlength [x00; x00; x00].

Definition VerbatimString (s : option reader) (runlength : Z) (encoding : bytes)
  : Message := bulk kind.VerbatimString s runlength encoding.

Definition sequence (k : byte) (arrs : list Message) : Message :=
  MkMessage k [] None 0 false (S754_zero false) None 0 (zlen arrs) None
    [x00; x00; x00] (Some (IterList arrs)) None.

Definition Array (arrs : list Message) : Message := sequence kind.Array arrs.

Definition Set_ (arrs : list Message) : Message := sequence kind.Set_ arrs.

(** [Map] panics on an odd number of arguments. *)
Definition Map {S} (kvs : list Message) : M S Message :=
  if negb (zlen kvs mod 2 =? 0)%Z
  then panic "must have even number of key/value pairs"
  else mret (MkMessage kind.Map [] None 0 false (S754_zero false) None 0
               (zlen kvs / 2) None [x00; x00; x00] None (Some (AssocList kvs))).

(** [Message.ReadAll]: an error of the reader is reported as success with the
    empty string. *)
Definition ReadAll (m : Message) : M heap (bytes * option error) :=
  if (m_RunLength m <? 0)%Z then panic "makeslice: len out of range"
  else
    match m_Reader m with
    | None =>
        if (m_RunLength m =? 0)%Z then mret ([], None) else panic nil_deref
    | Some r =>
        '(b, err) ← ReadFull r (Z.to_nat (m_RunLength m));
        match err with
        | Some _ => mret ([], None)
        | None => mret (b, None)
        end
    end.

(** How deeply messages nest. *)
Fixpoint depth (m : Message) : nat :=
  let deepest := fold_right (fun x n => depth x `max` n) 0 in
  let of_iter s := match s with IterList l => deepest l | IterDecode _ => 1 end in
  match m with
  | MkMessage _ _ _ _ _ _ _ _ _ _ _ seq asc =>
      S (match seq with Some s => of_iter s | None => 0 end `max`
         match asc with
         | Some (AssocList l) => deepest l
         | Some (AssocChunk s) => S (of_iter s)
         | None => 0
         end)
  end.

(** The sources a message draws from: that of its own reader, those of its elements,
    and the stream its elements are decoded from. *)
Fixpoint srcs (m : Message) : list nat :=
  let of_list := fold_right (fun x ls => srcs x ++ ls) [] in
  let of_iter s := match s with IterList l => of_list l | IterDecode r => [reader_src r] end in
  match m with
  | MkMessage _ _ _ _ _ _ _ _ _ rd _ seq asc =>
      match rd with Some r => [reader_src r] | None => [] end ++
      match seq with Some s => of_iter s | None => [] end ++
      match asc with
      | Some (AssocList l) => of_list l
      | Some (AssocChunk s) => of_iter s
      | None => []
      end
  end.

(** A call with the message waits: one of its sources is starved. *)
Definition waits_for (ls : list nat) (h : heap) : Prop := exists l, l ∈ ls /\ starved l h.

End message.

(** * Package protocol's constructors *)

Module protocol.

Definition NewError (err : option error) : Message :=
  MkMessage kind.Error [] err 0 false (S754_zero false) None 0 0 None
    [x00; x00; x00] None None.

Definition NewArray (messages : list Message) : Message := message.Array messages.

Definition NewBulkString (s : bytes) : M heap Message := fun h =>
  let '(r, h) := NewBufferString s h in
  (Ret (message.BulkString (Some r) (zlen s)), h).

Fixpoint new_bulk_strings (args : list bytes) : M heap (list Message) :=
  match args with
  | [] => mret []
  | a :: args =>
      m ← NewBulkString a;
      ms ← new_bulk_strings args;
      mret (m :: ms)
  end.

Definition NewOutgoingCommand (args : list bytes) : M heap Message :=
  ms ← new_bulk_strings args;
  mret (NewArray ms).

End protocol.

(** * Properties *)

Lemma srcs_reader m r : m_Reader m = Some r -> reader_src r ∈ message.srcs m.
Proof. destruct m. simpl. intros ->. left. Qed.

(** [ReadAll] returns, panics, or waits for the source of the message's reader. *)
Lemma ReadAll_safe m h :
  safe (message.waits_for (message.srcs m)) (message.ReadAll m) h (fun _ _ => True).
Proof.
  unfold message.ReadAll. case_match; [auto with anarcho|].
  destruct (m_Reader m) as [r|] eqn:Hr; [|case_match; auto with anarcho].
  unfold safe, mbind, M_bind. pose proof (ReadFull_safe r (Z.to_nat (m_RunLength m)) h) as Hs.
  unfold safe in Hs. destruct (ReadFull r _ h) as [[[b [e|]]| | |] h']; try done.
  exists (reader_src r). split; [by apply srcs_reader|done].
Qed.

(** [ReadAll] of a bulk message whose reader still has the announced bytes
    returns them and leaves the rest. *)
Lemma ReadAll_src m l h d rest :
  m_Reader m = Some (RSrc l) -> m_RunLength m = zlen d ->
  l < length (h_srcs h) -> source_data (src_at h l) = d ++ rest ->
  exists h', message.ReadAll m h = (Ret (d, None), h') /\ advanced l rest h h'.
Proof.
  intros Hr Hn Hl Hd. unfold message.ReadAll. rewrite Hr, Hn.
  rewrite (proj2 (Z.ltb_ge _ _)) by apply zlen_nonneg.
  destruct (read_full_loop_src (S (source_size (src_at h l))) l (length d) [] h d rest)
    as (h' & E & Ha); [auto with lia..|].
  exists h'. split; [|done]. unfold zlen. rewrite Nat2Z.id.
  by erewrite bind_ret by exact E.
Qed.

Lemma ReadAll_short m l h :
  m_Reader m = Some (RSrc l) -> (zlen (source_data (src_at h l)) < m_RunLength m)%Z ->
  l < length (h_srcs h) ->
  exists h', message.ReadAll m h =
      (match s_end (src_at h l) with Ended _ => Ret ([], None) | Open => Block end, h') /\
    advanced l [] h h'.
Proof.
  intros Hr Hn Hl. unfold message.ReadAll. rewrite Hr.
  rewrite (proj2 (Z.ltb_ge _ _)) by zlen_solve.
  destruct (read_full_loop_short (S (source_size (src_at h l))) l
              (Z.to_nat (m_RunLength m)) [] h) as (o & h' & E & Ha & Ho);
    [done|zlen_solve|lia|].
  exists h'. split; [|done]. unfold mbind, M_bind, ReadFull, reader_size. simpl reader_src. rewrite E.
  destruct (s_end (src_at h l)) as [e0|]; [destruct Ho as (b & e & ->)|subst]; done.
Qed.

(** [ReadAll] returns, panics or waits, and never reports an error: the string it returns has the
    announced length, or it is empty, which is also what a reader that fails or
    ends early gives. *)
Theorem ReadAll_never_fails m h :
  fuel_ok (message.ReadAll m) h /\
  forall b err h', message.ReadAll m h = (Ret (b, err), h') ->
  err = None /\ (b = [] \/ zlen b = m_RunLength m).
Proof.
  split; [eapply safe_fuel_ok, ReadAll_safe|]. intros b err h'. unfold message.ReadAll.
  destruct (Z.ltb_spec (m_RunLength m) 0); [done|].
  destruct (m_Reader m) as [r|]; [|destruct (_ =? 0)%Z; [intros E; inv_bind; auto|done]].
  intros E. apply bind_ret_inv in E as ([p [e|]] & h1 & E1 & E); inv_bind; [by auto|].
  split; [done|right]. apply read_full_loop_length in E1. unfold zlen. simpl in E1. lia.
Qed.
