(* ===== verification/Decoder.v ===== *)
(** The reading half of the codec (src/protocol/message/coder.go):
    [simpleUnmarshal], [Encoder.Iterate], [chunk] and [Encoder.Decode]. *)

From S2P Require Import Prelude GoBase GoStrconv GoIO Kind Message.
From Stdlib Require Import SpecFloat Wf_nat.

(** * [simpleUnmarshal] *)

Definition ends_line (buf : bytes) : bool :=
  (length kind.EOL <? length buf) &&
  bool_decide (drop (length buf - length kind.EOL) buf = kind.EOL).

(** The loop reads one byte at a time; its fuel is the number of reads the source
    can still answer. *)
Fixpoint simple_unmarshal_loop (fuel : nat) (r : reader) (buf : bytes)
  : M heap (bytes * Z * option error) :=
  match fuel with
  | O => out_of_fuel
  | S fuel =>
      '(p, err) ← reader_Read r 1;
      match err with
      | Some e => mret ([], zlen buf, Some e)
      | None =>
          let buf := buf ++ p in
          if ends_line buf
          then mret (take (length buf - length kind.EOL) buf, zlen buf, None)
          else simple_unmarshal_loop fuel r buf
      end
  end.

Definition simpleUnmarshal (r : reader) : M heap (bytes * Z * option error) :=
  fun h => simple_unmarshal_loop (S (reader_size h r)) r [] h.

(** * One turn of the loop of [Iterate]

    A turn either yields a pair and ends the iteration ([FrameYield]) or reaches
    the end of the loop body with the message [m] it built ([FrameBuilt]). *)

Inductive frame :=
| FrameYield (m : Message) (err : option error)
| FrameBuilt (m : Message).

Definition set_TotalMessageSize (n : Z) (m : Message) : Message :=
  MkMessage (m_Kind m) (m_SimpleString m) (m_Error m) (m_Int m) (m_Bool m)
    (m_Double m) (m_BigNumber m) n (m_RunLength m) (m_Reader m) (m_Encoding m)
    (m_Seq m) (m_Assoc m).

(** The variables of [chunk]: the pair being filled, the counter, and the state of
    the loop that consumes the pairs. *)
Record chunk_state (Acc R : Type) := ChunkState {
  ck_kv : Message * Message; ck_i : Z; ck_st : Acc + R }.
Arguments ChunkState {Acc R}.
Arguments ck_kv {Acc R}.
Arguments ck_i {Acc R}.
Arguments ck_st {Acc R}.

Section decode.
Context `{!FloatConv}.

(** The inner switch of the simple category; [inr] is the pair it yields. *)
Definition simple_message (k : byte) (s : bytes) : Message + (Message * option error) :=
  if decide (k = kind.SimpleString) then inl (message.SimpleString s)
  else if decide (k = kind.Error) then inl (message.Error s)
  else if decide (k = kind.Int) then
    match ParseInt s with
    | inr e => inr (message.zero, Some e)
    | inl i => inl (message.Int i)
    end
  else if decide (k = kind.Null) then inl message.Null
  else if decide (k = kind.Bool) then
    match ParseBool s with
    | inr e => inr (message.zero, Some e)
    | inl b => inl (message.Bool b)
    end
  else if decide (k = kind.Double) then
    match ParseFloat s with
    | inr e => inr (message.zero, Some e)
    | inl f => inl (message.Double f)
    end
  else if decide (k = kind.BigNumber) then
    match SetString s with
    | None => inr (message.zero, None)   (* [err] is the nil of simpleUnmarshal *)
    | Some i => inl (message.BigNumber (Some i))
    end
  else inl message.zero.

(** The body of [case kind.CategoryAggregate] after the run length was read.  The
    two counting loops assign the same closure [runlength] times. *)
Definition aggregate_message (r : reader) (k : byte) (size runlength : Z)
    (encoding : bytes) (extra : Z) : M heap frame := fun h =>
  let build rd seq asc :=
    MkMessage x00 [] None 0 false (S754_zero false) None
      (wrap64 (1 + size + runlength + extra)) runlength rd encoding seq asc in
  if decide (k ∈ [kind.VerbatimString; kind.BulkString; kind.BulkError]) then
    let '(lr, h) := LimitReader r runlength h in
    (Ret (FrameBuilt (build (Some lr) None None)), h)
  else if decide (k ∈ [kind.Array; kind.Set_; kind.Push]) then
    (Ret (FrameBuilt (build None
       (if (0 <? runlength)%Z then Some (IterDecode r) else None) None)), h)
  else if decide (k ∈ [kind.Map; kind.Attribute]) then
    (Ret (FrameBuilt (build None None
       (if (0 <? runlength)%Z then Some (AssocChunk (IterDecode r)) else None))), h)
  else (Ret (FrameBuilt (build None None None)), h).

(** The loop body after the kind byte was read. *)
Definition decode_kind (r : reader) (k : byte) : M heap frame :=
  if decide (kind.Category k = kind.CategorySimple) then
    '(s, size, err) ← simpleUnmarshal r;
    match err with
    | Some e => mret (FrameYield message.zero (Some e))
    | None =>
        match simple_message k s with
        | inr (m, err) => mret (FrameYield m err)
        | inl m => mret (FrameBuilt (set_TotalMessageSize (wrap64 (1 + size)) m))
        end
    end
  else if decide (kind.Category k = kind.CategoryAggregate) then
    '(s, size, err) ← simpleUnmarshal r;
    match err with
    | Some e => mret (FrameYield message.zero (Some e))
    | None =>
        match ParseInt s with
        | inr e => mret (FrameYield message.zero (Some e))
        | inl runlength =>
            if decide (k = kind.VerbatimString) then
              '(enc, size', err) ← simpleUnmarshal r;
              match err with
              | Some e => mret (FrameYield message.zero (Some e))
              | None =>
                  if negb (zlen enc =? 3)%Z then
                    mret (FrameYield message.zero
                            (Some (Errorf "invalid string size: %d" [])))
                  else aggregate_message r k size runlength enc 3
              end
            else aggregate_message r k size runlength [x00; x00; x00] 0
        end
    end
  else mret (FrameBuilt message.zero).

Definition decode_frame (r : reader) : M heap frame :=
  '(kindSlice, err) ← reader_Read r 1;
  match err with
  | Some e => mret (FrameYield message.zero (Some e))
  | None => decode_kind r (default x00 (head kindSlice))
  end.

(** * [Iterate], [chunk] and [Decode]

    The loop of [Iterate] drops the message a turn built: the only calls of
    [yield] are the ones of [FrameYield], each followed by a return.  So the
    iteration consists of finding the one pair it yields. *)

Fixpoint iterate_loop (fuel : nat) (r : reader) : M heap (Message * option error) :=
  fun h =>
  match fuel with
  | O => (OutOfFuel, h)
  | S fuel =>
      mbind (fun f => match f with
                      | FrameYield m err => mret (m, err)
                      | FrameBuilt _ => iterate_loop fuel r
                      end) (decode_frame r) h
  end.

Definition Iterate (r : reader) : M heap (Message * option error) :=
  fun h => iterate_loop (S (reader_size h r)) r h.

(** Running a computation on the heap when the state has more parts. *)
Definition on_heap {X A} (m : M heap A) : M (heap * X) A :=
  fun '(h, x) => let '(o, h) := m h in (o, (h, x)).

(** [for m, err := range s { body }]: [inl] is the loop variable state at the end
    of the loop, [inr] the value a [return] in the body returns. *)
Fixpoint range_list {X Acc R}
    (body : Acc -> Message -> option error -> M (heap * X) (Acc + R))
    (l : list Message) (acc : Acc) : M (heap * X) (Acc + R) :=
  match l with
  | [] => mret (inl acc)
  | m :: l =>
      res ← body acc m None;
      match res with
      | inl acc => range_list body l acc
      | inr r => mret (inr r)
      end
  end.

Definition range_iter {X Acc R} (s : iter Message)
    (body : Acc -> Message -> option error -> M (heap * X) (Acc + R)) (acc : Acc)
  : M (heap * X) (Acc + R) :=
  match s with
  | IterList l => range_list body l acc
  | IterDecode r => '(m, err) ← on_heap (Iterate r); body acc m err
  end.

(** The closure of [Map]: pairs of consecutive arguments. *)
Fixpoint range_pairs {X Acc R}
    (body : Acc -> Message * Message -> option error -> M (heap * X) (Acc + R))
    (l : list Message) (acc : Acc) : M (heap * X) (Acc + R) :=
  match l with
  | k :: v :: l =>
      res ← body acc (k, v) None;
      match res with
      | inl acc => range_pairs body l acc
      | inr r => mret (inr r)
      end
  | _ => mret (inl acc)
  end.

(** [yield] of a range-over-func loop: calling it after the body returned is a
    run-time panic. *)
Definition yield_to {X Acc R P}
    (body : Acc -> P -> option error -> M (heap * X) (Acc + R))
    (st : Acc + R) (p : P) (err : option error) : M (heap * X) (Acc + R) :=
  match st with
  | inl acc => body acc p err
  | inr _ => panic "range function continued iteration after function for loop body returned false"
  end.

(** [chunk]: it ignores what [yield] returns and goes on after an error. *)
Definition chunk_step {X Acc R}
    (body : Acc -> Message * Message -> option error -> M (heap * X) (Acc + R))
    (c : chunk_state Acc R) (msg : Message) (err : option error)
  : M (heap * X) (chunk_state Acc R + Empty_set) :=
  st ← match err with
       | Some e => yield_to body (ck_st c) (ck_kv c) (Some e)
       | None => mret (ck_st c)
       end;
  let kv := if (ck_i c mod 2 =? 0)%Z then (msg, (ck_kv c).2) else ((ck_kv c).1, msg) in
  let i := (ck_i c + 1)%Z in
  st ← (if (i mod 2 =? 0)%Z then yield_to body st kv None else mret st);
  mret (inl (ChunkState kv i st)).

Definition range_assoc {X Acc R} (a : assoc Message)
    (body : Acc -> Message * Message -> option error -> M (heap * X) (Acc + R))
    (acc : Acc) : M (heap * X) (Acc + R) :=
  match a with
  | AssocList kvs => range_pairs body kvs acc
  | AssocChunk s =>
      res ← range_iter s (chunk_step body)
              (ChunkState (message.zero, message.zero) 0 (inl acc));
      match res with
      | inl c => mret (ck_st c)
      | inr e => match e : Empty_set with end
      end
  end.

(** [Encoder.Decode]: the first pair of the iteration. *)
Definition Decode (r : reader) : M heap (Message * option error) := fun h =>
  let '(o, (h', _)) :=
    mbind (M := M (heap * unit))
      (fun res : unit + Message * option error =>
         match res with
         | inr p => mret p
         | inl _ => mret (message.zero,
             Some (Errorf "reader closed before message could be read" []))
         end)
      (range_iter (IterDecode r) (fun _ m err => mret (inr (m, err))) tt) (h, tt) in
  (o, h').

End decode.

(** * Lines *)

Lemma ends_line_last buf : ends_line buf = true -> last buf = Some x0a.
Proof.
  unfold ends_line. intros [_ H]%andb_true_iff.
  apply bool_decide_eq_true in H.
  rewrite <- (take_drop (length buf - length kind.EOL) buf), H, last_app. done.
Qed.

Lemma ends_line_app s : s <> [] -> ends_line (s ++ kind.EOL) = true.
Proof.
  intros Hs. unfold ends_line. rewrite length_app, Nat.add_sub, drop_app_length.
  rewrite bool_decide_eq_true_2 by done.
  destruct s; [done|]. simpl. by rewrite Nat.add_comm.
Qed.

(** A proper prefix of a line does not end in a line feed, when the text has
    none. *)
Lemma line_prefix_last s n :
  x0a ∉ s -> n < length (s ++ kind.EOL) ->
  last (take n (s ++ kind.EOL)) <> Some x0a.
Proof.
  intros Hs Hn H. rewrite length_app in Hn. simpl in Hn.
  assert (take n (s ++ kind.EOL) = take n (s ++ [x0d])) as E.
  { change kind.EOL with ([x0d] ++ [x0a]). rewrite app_assoc, take_app_le; [done|].
    rewrite length_app. simpl. lia. }
  rewrite E in H. apply last_Some_elem_of in H.
  apply elem_of_take in H as (i & H & _). apply list_elem_of_lookup_2 in H.
  apply elem_of_app in H as [H|H]; [done|].
  apply elem_of_cons in H as [H|H]; [done|]. by apply elem_of_nil in H.
Qed.

(** The loop of [simpleUnmarshal] stops at the first prefix of the data that ends
    a line, however the data is chunked. *)
Lemma simple_unmarshal_loop_src fuel l buf h d rest :
  l < length (h_srcs h) ->
  source_data (src_at h l) = d ++ rest -> d <> [] ->
  source_size (src_at h l) < fuel ->
  ends_line (buf ++ d) = true ->
  (forall n, n < length d -> ends_line (buf ++ take n d) = false) ->
  exists h', simple_unmarshal_loop fuel (RSrc l) buf h =
      (Ret (take (length (buf ++ d) - length kind.EOL) (buf ++ d), zlen (buf ++ d), None), h')
    /\ advanced l rest h h'.
Proof.
  revert buf h d. induction fuel as [|fuel IH]; intros buf h d Hl Hd Hne Hf He Hn; [lia|].
  destruct d as [|x d]; [done|].
  cbn [simple_unmarshal_loop].
  destruct (read_src_cases l 1 h)
    as [(p & d' & h1 & Er & Hp & Hs & Ha & Hsz)|(h1 & _ & Hs & _)]; [done|lia| |].
  2: { by rewrite Hs in Hd. }
  rewrite (bind_ret _ _ _ _ _ (reader_Read_ok _ _ _ _ _ Er)).
  assert (l < length (h_srcs h1)) as Hl1 by by rewrite (adv_len _ _ _ _ Ha).
  rewrite Hd in Hs. destruct p as [|y [|]]; [| |simpl in Hp; lia].
  - pose proof (Hn 0 ltac:(simpl; lia)) as H0. simpl in H0. rewrite H0.
    destruct (IH (buf ++ []) h1 (x :: d)) as (h' & E & Ha').
    + done.
    + rewrite (adv_data _ _ _ _ Ha). simpl in Hs. by simplify_eq.
    + done.
    + lia.
    + by rewrite app_nil_r.
    + by rewrite app_nil_r.
    + exists h'. rewrite E, !app_nil_r. split; [done | by eapply advanced_trans].
  - simpl in Hs. injection Hs as <- <-. destruct d as [|z d].
    + rewrite He. exists h1. done.
    + pose proof (Hn 1 ltac:(simpl; lia)) as H1. simpl in H1. rewrite H1.
      destruct (IH (buf ++ [x]) h1 (z :: d)) as (h' & E & Ha').
      * done.
      * by rewrite (adv_data _ _ _ _ Ha).
      * done.
      * lia.
      * by rewrite <- app_assoc.
      * intros n Hlt. rewrite <- app_assoc. apply (Hn (S n)). simpl in *. lia.
      * exists h'. rewrite E, <- !app_assoc. simpl.
        split; [done | by eapply advanced_trans].
Qed.

(** A non-empty line without a line feed inside is read as it was written. *)
Lemma simpleUnmarshal_line l h s rest :
  l < length (h_srcs h) ->
  source_data (src_at h l) = s ++ kind.EOL ++ rest -> s <> [] -> x0a ∉ s ->
  exists h', simpleUnmarshal (RSrc l) h = (Ret (s, (zlen s + 2)%Z, None), h') /\
    advanced l rest h h'.
Proof.
  intros Hl Hd Hne Hs.
  destruct (simple_unmarshal_loop_src (S (source_size (src_at h l))) l [] h
              (s ++ kind.EOL) rest) as (h' & E & Ha).
  - done.
  - by rewrite <- app_assoc.
  - by destruct s.
  - lia.
  - by apply ends_line_app.
  - intros n Hn. apply not_true_is_false. intros H%ends_line_last.
    by apply line_prefix_last in H.
  - exists h'. split; [|done]. unfold simpleUnmarshal, reader_size. simpl reader_src.
    rewrite E. simpl app. rewrite length_app, Nat.add_sub, take_app_length, zlen_app.
    done.
Qed.

(** An empty line is not recognised: the text read goes on to the end of the line
    after it. *)
Lemma simpleUnmarshal_empty_line l h s rest :
  l < length (h_srcs h) ->
  source_data (src_at h l) = kind.EOL ++ s ++ kind.EOL ++ rest -> x0a ∉ s ->
  exists h', simpleUnmarshal (RSrc l) h =
      (Ret (kind.EOL ++ s, (zlen s + 4)%Z, None), h') /\
    advanced l rest h h'.
Proof.
  intros Hl Hd Hs.
  destruct (simple_unmarshal_loop_src (S (source_size (src_at h l))) l [] h
              (kind.EOL ++ s ++ kind.EOL) rest) as (h' & E & Ha).
  - done.
  - rewrite Hd. by rewrite <- !app_assoc.
  - done.
  - lia.
  - rewrite app_nil_l, app_assoc. by apply ends_line_app.
  - intros n Hn. rewrite app_nil_l.
    destruct (decide (n <= 2)) as [Hle|Hgt].
    + unfold ends_line. rewrite (proj2 (Nat.ltb_ge _ _)); [done|].
      rewrite length_take. simpl. lia.
    + destruct n as [|[|n]]; [lia..|]. simpl.
      apply not_true_is_false. intros H%ends_line_last.
      destruct n as [|n]; [lia|].
      apply (line_prefix_last s (S n) Hs); [simpl in Hn; lia|].
      rewrite <- H. destruct (s ++ kind.EOL) as [|y k] eqn:Ek; [by destruct s|].
      cbn [take firstn]. by destruct (take n k).
  - exists h'. split; [|done]. unfold simpleUnmarshal, reader_size. simpl reader_src.
    rewrite E, app_nil_l, app_assoc, length_app, Nat.add_sub, take_app_length.
    rewrite !zlen_app. replace (zlen kind.EOL) with 2%Z by done.
    by replace (2 + zlen s + 2)%Z with (zlen s + 4)%Z by lia.
Qed.

(** * The loops end, or wait *)

(** Reading a line returns without giving the reader data back, or waits for its
    source. *)
Lemma simpleUnmarshal_returns r h :
  returns (starved (reader_src r)) (simpleUnmarshal r) h
    (fun _ h' => reader_size h' r <= reader_size h r).
Proof.
  change (returns (starved (reader_src r)) (simple_unmarshal_loop (S (reader_size h r)) r []) h
    (fun _ h' => reader_size h' r <= reader_size h r)).
  generalize (@nil byte) as buf. assert (reader_size h r < S (reader_size h r)) as Hf by lia.
  revert Hf. generalize (S (reader_size h r)) as fuel. intros fuel. revert h.
  induction fuel as [|fuel IH]; intros h Hf buf; [lia|].
  cbn [simple_unmarshal_loop]. apply returns_bind. eapply returns_mono; [apply reader_Read_returns|].
  intros [p [e|]] h1 (_ & Hle & Hp); [by apply returns_ret|]. specialize (Hp eq_refl ltac:(lia)).
  cbn zeta. destruct (ends_line _); [by apply returns_ret|].
  eapply returns_mono; [apply IH; lia|]. simpl. lia.
Qed.

Section decode_proofs.
Context `{!FloatConv}.

(** A turn of the loop, by what the read of the kind byte returned. *)
Lemma decode_frame_read r h p err h1 :
  reader_Read r 1 h = (Ret (p, err), h1) ->
  decode_frame r h =
    match err with
    | Some e => (Ret (FrameYield message.zero (Some e)), h1)
    | None => decode_kind r (default x00 (head p)) h1
    end.
Proof. intros E. unfold decode_frame. rewrite (bind_ret _ _ _ _ _ E). by destruct err. Qed.

(** What a turn of the loop does: it returns, or waits for its source; what it yields
    is the zero message; and when it goes on, the reader has less to give. *)
Lemma aggregate_message_built r k size n enc extra h :
  exists m h', aggregate_message r k size n enc extra h = (Ret (FrameBuilt m), h') /\
    forall l, src_at h' l = src_at h l.
Proof. unfold aggregate_message. repeat case_decide; simpl; eauto. Qed.

Lemma reader_size_src h h' r :
  (forall l, src_at h' l = src_at h l) -> reader_size h' r = reader_size h r.
Proof. intros Hs. unfold reader_size. by rewrite Hs. Qed.

Lemma simple_message_yield k s m err :
  simple_message k s = inr (m, err) -> m = message.zero.
Proof. unfold simple_message. intros Hm. repeat case_match; by simplify_eq. Qed.

Definition frame_ok (r : reader) (size : nat) (f : frame) (h : heap) : Prop :=
  match f with
  | FrameYield m _ => m = message.zero
  | FrameBuilt _ => reader_size h r < size
  end.

(** A line, and what is made of it. *)
Lemma returns_line {A} r (f : bytes * Z * option error -> M heap A) h Q :
  (forall s n err h', reader_size h' r <= reader_size h r ->
     returns (starved (reader_src r)) (f (s, n, err)) h' Q) ->
  returns (starved (reader_src r)) (mbind f (simpleUnmarshal r)) h Q.
Proof.
  intros Hf. apply returns_bind. eapply returns_mono; [apply simpleUnmarshal_returns|].
  intros [[s n] err] h' Hle. by apply Hf.
Qed.

Lemma returns_aggregate r k size n enc extra h bound :
  reader_size h r < bound ->
  returns (starved (reader_src r)) (aggregate_message r k size n enc extra) h (frame_ok r bound).
Proof.
  intros Hb. unfold returns.
  destruct (aggregate_message_built r k size n enc extra h) as (m & h' & -> & Hs).
  simpl. by rewrite (reader_size_src h h' r Hs).
Qed.

Lemma decode_frame_returns r h :
  returns (starved (reader_src r)) (decode_frame r) h (frame_ok r (reader_size h r)).
Proof.
  unfold decode_frame. apply returns_bind. eapply returns_mono; [apply reader_Read_returns|].
  intros [p [e|]] h1 (_ & _ & Hp); [done|]. specialize (Hp eq_refl ltac:(lia)).
  unfold decode_kind. case_decide; [|case_decide; [|done]].
  - apply returns_line. intros s n [e|] h2 Hle; [done|].
    destruct (simple_message _ s) as [m|[m err]] eqn:E2; apply returns_ret; simpl; [lia|].
    by eapply simple_message_yield.
  - apply returns_line. intros s n [e|] h2 Hle; [done|].
    destruct (ParseInt s) as [rl|e]; [|done].
    case_decide; [|apply returns_aggregate; lia].
    apply returns_line. intros enc n' [e|] h3 Hle'; [done|].
    destruct (negb _); [done|]. apply returns_aggregate. lia.
Qed.

(** The iteration yields the zero message, or waits for its source. *)
Lemma iterate_loop_returns fuel r h :
  reader_size h r < fuel ->
  returns (starved (reader_src r)) (iterate_loop fuel r) h (fun '(m, _) _ => m = message.zero).
Proof.
  revert h. induction fuel as [|fuel IH]; intros h Hf; [lia|].
  apply (returns_bind _ (decode_frame r)). eapply returns_mono; [apply decode_frame_returns|].
  intros [m err|m] h' Hfr; simpl in Hfr; [by apply returns_ret|]. apply IH. lia.
Qed.

Lemma Iterate_returns r h :
  returns (starved (reader_src r)) (Iterate r) h (fun '(m, _) _ => m = message.zero).
Proof. apply (iterate_loop_returns (S (reader_size h r)) r h). lia. Qed.

Lemma Iterate_cases r h :
  (exists err h', Iterate r h = (Ret (message.zero, err), h')) \/
  (exists h', Iterate r h = (Block, h') /\ starved (reader_src r) h').
Proof.
  destruct (returns_cases _ _ _ _ (Iterate_returns r h)) as [([m err] & h' & E & ->)|?]; eauto.
Qed.

Lemma Decode_Iterate r h : Decode r h = Iterate r h.
Proof.
  unfold Decode, range_iter, on_heap, mbind, M_bind, mret, M_ret.
  by destruct (Iterate r h) as [[[m err]| | |] h'].
Qed.

(** A turn that builds a message does not hand it out: the iteration goes on with
    what follows. *)
Lemma iterate_loop_mono fuel fuel' r h :
  reader_size h r < fuel -> fuel <= fuel' -> iterate_loop fuel r h = iterate_loop fuel' r h.
Proof.
  revert fuel' h. induction fuel as [|fuel IH]; intros fuel' h Hf Hle; [lia|].
  destruct fuel' as [|fuel']; [lia|]. cbn [iterate_loop]. unfold mbind, M_bind.
  destruct (returns_cases _ _ _ _ (decode_frame_returns r h)) as [(f & h' & -> & Hfr)|(h' & -> & _)];
    [|done].
  destruct f as [m err|m]; simpl in Hfr; [done|]. apply IH; lia.
Qed.

Lemma Iterate_built r h m h' :
  decode_frame r h = (Ret (FrameBuilt m), h') -> Iterate r h = Iterate r h'.
Proof.
  intros E. unfold Iterate at 1. cbn [iterate_loop]. rewrite (bind_ret _ _ _ _ _ E).
  pose proof (decode_frame_returns r h) as Hs. unfold returns in Hs. rewrite E in Hs. simpl in Hs.
  symmetry. apply iterate_loop_mono; lia.
Qed.

(** * Invariants of the range loops

    [I] holds of the loop state and the part of the program state beyond the heap
    before every turn, [J] of the value a return in the body gives; [P] is what is
    known of the messages, and [L] are the sources the loop may wait for. *)

Section ranges.
Context {X Acc R : Type} (P : Message -> Prop) (L : list nat).
Context (I : Acc -> X -> Prop) (J : R -> X -> Prop).

Definition loop_post (res : Acc + R) (st : heap * X) : Prop :=
  match res with inl acc => I acc st.2 | inr r => J r st.2 end.

Definition iter_all (s : iter Message) : Prop :=
  match s with
  | IterList l => Forall P l
  | IterDecode r => P message.zero /\ reader_src r ∈ L
  end.

(** The loop waits for a source of [L]. *)
Definition waiting (st : heap * X) : Prop := message.waits_for L st.1.

Lemma safe_on_heap_Iterate r (st : heap * X) :
  reader_src r ∈ L ->
  safe waiting (on_heap (Iterate r)) st (fun '(m, _) st' => m = message.zero /\ st'.2 = st.2).
Proof.
  intros Hr. destruct st as [h x]. unfold safe, on_heap.
  destruct (Iterate_cases r h) as [(err & h' & ->)|(h' & -> & Hs)]; [done|].
  by exists (reader_src r).
Qed.

Lemma range_iter_safe s body acc st :
  (forall acc m err st, I acc st.2 -> P m -> safe waiting (body acc m err) st loop_post) ->
  iter_all s -> I acc st.2 ->
  safe waiting (range_iter s body acc) st loop_post.
Proof.
  intros Hb Hs HI. destruct s as [l|r]; simpl in *.
  - revert acc st HI. induction Hs as [|m l Hm Hs IH]; intros acc st HI; simpl.
    { by apply safe_ret. }
    apply safe_bind. eapply safe_mono; [by apply Hb|].
    intros [acc'|r] st' HI'; [by apply IH|]. by apply safe_ret.
  - apply safe_bind. eapply safe_mono; [apply safe_on_heap_Iterate, Hs|].
    intros [m err] st' [-> E]. apply Hb; [by rewrite E|apply Hs].
Qed.

Lemma range_pairs_safe body l acc st :
  (forall acc k v err st, I acc st.2 -> P k -> P v -> safe waiting (body acc (k, v) err) st loop_post) ->
  Forall P l -> I acc st.2 ->
  safe waiting (range_pairs body l acc) st loop_post.
Proof.
  intros Hb. revert acc st. induction l as [l IH] using (induction_ltof1 _ (@length Message)).
  unfold ltof in IH. intros acc st Hl HI.
  destruct l as [|k [|v l]]; [by apply safe_ret..|]. simpl.
  apply Forall_cons in Hl as [Hk Hl]. apply Forall_cons in Hl as [Hv Hl].
  apply safe_bind. eapply safe_mono; [by apply Hb|].
  intros [acc'|r] st' HI'; [|by apply safe_ret].
  apply IH; [simpl; lia|done..].
Qed.

End ranges.

Section assoc_range.
Context {X Acc R : Type} (P : Message -> Prop) (L : list nat).
Context (I : Acc -> X -> Prop) (J : R -> X -> Prop).

Definition assoc_all (a : assoc Message) : Prop :=
  match a with
  | AssocList l => Forall P l
  | AssocChunk s => iter_all P L s
  end.

Lemma range_assoc_safe a body acc st :
  (forall acc k v err st, I acc st.2 -> P k -> P v ->
     safe (waiting L) (body acc (k, v) err) st (loop_post I J)) ->
  P message.zero -> assoc_all a -> I acc st.2 ->
  safe (waiting L) (range_assoc a body acc) st (loop_post I J).
Proof.
  intros Hb Hz Ha HI. destruct a as [l|s]; [by eapply range_pairs_safe|].
  simpl in *. apply safe_bind.
  pose (IC := fun (c : chunk_state Acc R) (x : X) =>
    P (ck_kv c).1 /\ P (ck_kv c).2 /\
    match ck_st c with inl acc => I acc x | inr r => J r x end).
  eapply safe_mono; [apply (range_iter_safe P L IC (fun _ _ => True))|].
  - intros [[k v] i cs] m err st0 (Hk & Hv & HS) Hm. simpl in *.
    assert (forall cs kv err st1,
        match cs with inl acc => I acc st1.2 | inr r => J r st1.2 end ->
        P kv.1 -> P kv.2 ->
        safe (waiting L) (yield_to body cs kv err) st1 (loop_post I J)) as Hy.
    { intros [acc1|r1] [k1 v1] err1 st1 H1 H2 H3; simpl in *; [by apply Hb|].
      by apply safe_panic. }
    apply safe_bind. eapply (safe_mono _ _ _ (loop_post I J)).
    { destruct err as [e|]; simpl; [by apply Hy|by apply safe_ret]. }
    intros cs1 st1 H1. apply safe_bind.
    set (kv := if (_ =? 0)%Z then (m, _) else _).
    assert (P kv.1 /\ P kv.2) as [Hkv1 Hkv2].
    { unfold kv. by destruct (_ =? 0)%Z. }
    clearbody kv.
    eapply (safe_mono _ _ _ (loop_post I J)).
    { destruct (_ =? 0)%Z; [by apply Hy|by apply safe_ret]. }
    intros cs2 st2 H2. apply safe_ret. by split_and!.
  - done.
  - by split_and!.
  - intros [c|[]] st' Hc. apply safe_ret. apply Hc.
Qed.

End assoc_range.

End decode_proofs.
