(* ===== verification/Encoder.v ===== *)
(** The writing half of the codec (src/protocol/message/coder.go):
    [Encoder.Encode], [writeBulk], [simpleToByte] and [emptyBuffer]. *)

From S2P Require Import Prelude GoBase GoStrconv GoIO Kind Message Decoder.

(** [type Encoder struct]. *)
Record Encoder := MkEncoder { ChunkSize : Z; BufferSize : Z }.

(** [emptyBuffer]: the length of the slice it makes. *)
Definition emptyBuffer (chunkSize runLength : Z) : Z :=
  let bufferSize := if (chunkSize <? 1)%Z then 409%Z else chunkSize in
  if (bufferSize <? runLength)%Z then bufferSize else runLength.

Section encode.
Context `{!FloatConv} {W : Type} `{!IoWriter W}.

(** [simpleToByte]: the bytes of a simple message, or the error it returns.  For
    an error message it returns an error when the [Error] field is set and
    dereferences nil when it is not. *)
Definition simpleToByte {S} (m : Message) : M S (bytes + error) :=
  let k := m_Kind m in
  let ok body := mret (inl (body ++ kind.EOL)) in
  if decide (k = kind.SimpleString) then ok (m_SimpleString m)
  else if decide (k = kind.Int) then ok (FormatInt (m_Int m))
  else if decide (k = kind.Bool) then ok (FormatBool (m_Bool m))
  else if decide (k = kind.Error) then
    match m_Error m with
    | Some _ => mret (inr (Errorf "empty Error field for Error type message %s" []))
    | None => panic nil_deref
    end
  else if decide (k = kind.Double) then ok (FormatFloat (m_Double m))
  else if decide (k = kind.BigNumber) then
    ok (match m_BigNumber m with Some i => FormatInt i | None => str "<nil>" end)
  else ok [].

(** [n, err = w.Write(p); total += n; if err != nil { return }], and what comes
    after it. *)
Definition Write (p : bytes) : M (heap * W) (Z * option error) :=
  fun '(h, w) => let '(res, w) := write p w in (Ret res, (h, w)).

Definition put (p : bytes) (total : Z) (k : Z -> M (heap * W) (Z * option error))
  : M (heap * W) (Z * option error) :=
  '(n, err) ← Write p;
  let total := (total + n)%Z in
  match err with
  | Some e => mret (total, Some e)
  | None => k total
  end.

(** The loop of [writeBulk]; [left] bytes are still to be copied. *)
Fixpoint write_bulk_loop (fuel : nat) (e : Encoder) (rd : option reader)
    (left total : Z) : M (heap * W) (Z * option error) :=
  if (left <=? 0)%Z then
    '(n, err) ← Write kind.EOL;
    mret ((total + n)%Z, err)
  else
    match fuel with
    | O => out_of_fuel
    | S fuel =>
        match rd with
        | None => panic nil_deref
        | Some r =>
            '(b, err) ← on_heap (reader_Read r (Z.to_nat (emptyBuffer (ChunkSize e) left)));
            match err with
            | Some e => mret (total, Some e)
            | None =>
                '(n, err) ← Write b;
                let total := (total + n)%Z in
                match err with
                | Some e => mret (total, Some e)
                | None => write_bulk_loop fuel e rd (left - n) total
                end
            end
        end
    end.

Definition writeBulk (e : Encoder) (m : Message) : M (heap * W) (Z * option error) :=
  fun st =>
  let fuel := match m_Reader m with Some r => reader_size st.1 r | None => 0 end in
  write_bulk_loop (S fuel) e (m_Reader m) (m_RunLength m) 0 st.

(** The bodies of the loops over [m.Seq] and [m.Assoc], given the recursive call;
    the second one overwrites the error of the iteration. *)
Definition encode_elem (enc : Message -> M (heap * W) (Z * option error))
    (total : Z) (msg : Message) (err : option error)
  : M (heap * W) (Z + (Z * option error)) :=
  match err with
  | Some err => mret (inr (total, Some err))
  | None =>
      '(n, err) ← enc msg;
      let total := (total + n)%Z in
      match err with
      | Some err => mret (inr (total, Some err))
      | None => mret (inl total)
      end
  end.

Definition encode_pair (enc : Message -> M (heap * W) (Z * option error))
    (total : Z) (kv : Message * Message) (_ : option error)
  : M (heap * W) (Z + (Z * option error)) :=
  '(n, err) ← enc kv.1;
  let total := (total + n)%Z in
  match err with
  | Some err => mret (inr (total, Some err))
  | None =>
      '(n, err) ← enc kv.2;
      let total := (total + n)%Z in
      match err with
      | Some err => mret (inr (total, Some err))
      | None => mret (inl total)
      end
  end.

(** The last part of [Encode] for an aggregate: the payload. *)
Definition encode_payload (enc : Message -> M (heap * W) (Z * option error))
    (e : Encoder) (m : Message) (total : Z) : M (heap * W) (Z * option error) :=
  let finish res := mret (match res with inl total => (total, None) | inr r => r end) in
  if decide (m_Kind m ∈ [kind.BulkString; kind.BulkError; kind.VerbatimString]) then
    '(n, err) ← writeBulk e m;
    mret ((total + n)%Z, err)
  else if decide (m_Kind m ∈ [kind.Array; kind.Push; kind.Set_]) then
    match m_Seq m with
    | None => panic nil_deref
    | Some s => res ← range_iter s (encode_elem enc) total; finish res
    end
  else if decide (m_Kind m ∈ [kind.Map; kind.Attribute]) then
    match m_Assoc m with
    | None => panic nil_deref
    | Some a => res ← range_assoc a (encode_pair enc) total; finish res
    end
  else mret (total, None).

(** [Encode]; [fuel] bounds the nesting of messages. *)
Fixpoint encode (fuel : nat) (e : Encoder) (m : Message)
  : M (heap * W) (Z * option error) :=
  match fuel with
  | O => out_of_fuel
  | S fuel =>
      put [m_Kind m] 0 (fun total =>
      if decide (kind.Category (m_Kind m) = kind.CategorySimple) then
        body ← simpleToByte m;
        match body with
        | inr err => mret (total, Some err)
        | inl body => put body total (fun total => mret (total, None))
        end
      else if decide (kind.Category (m_Kind m) = kind.CategoryAggregate) then
        put (FormatInt (m_RunLength m)) total (fun total =>
        put kind.EOL total (fun total =>
        if decide (m_Kind m = kind.VerbatimString) then
          put (m_Encoding m) total (fun total =>
          put kind.EOL total (fun total => encode_payload (encode fuel e) e m total))
        else encode_payload (encode fuel e) e m total))
      else mret (total, None))
  end.

(** A message nests no deeper than [message.depth] says. *)
Definition Encode (e : Encoder) (m : Message) : M (heap * W) (Z * option error) :=
  encode (message.depth m) e m.

End encode.

(** The buffer [writeBulk] reads into is never empty while bytes are left, and
    never larger than the chunk size (409 when none is set) nor than what is
    left. *)
Lemma buffer_bounds chunkSize left :
  (0 < left -> 1 <= emptyBuffer chunkSize left <= left)%Z /\
  (emptyBuffer chunkSize left <= if chunkSize <? 1 then 409 else chunkSize)%Z.
Proof. unfold emptyBuffer. repeat case_match; lia. Qed.

(** * Every write is counted

    [counted w0 n w]: from [w0] to [w] the writer accepted exactly [n] bytes. *)

Section encode_proofs.
Context `{!FloatConv} {W : Type} `{!IoWriter W, !IoWriterSpec W}.

Definition counted (w0 : W) (n : Z) (w : W) : Prop :=
  exists bs, accepted w = accepted w0 ++ bs /\ n = zlen bs.

Lemma counted_refl w : counted w 0 w.
Proof. exists []. by rewrite app_nil_r. Qed.

Lemma counted_trans w0 w1 w2 n1 n2 :
  counted w0 n1 w1 -> counted w1 n2 w2 -> counted w0 (n1 + n2) w2.
Proof.
  intros (b1 & E1 & ->) (b2 & E2 & ->). exists (b1 ++ b2).
  by rewrite E2, E1, app_assoc, zlen_app.
Qed.

(** The sources a call of the encoder may wait for. *)
Implicit Types L : list nat.

Lemma Write_safe L p st :
  safe (waiting L) (Write p) st (fun '(n, _) st' => st'.1 = st.1 /\ counted st.2 n st'.2).
Proof.
  destruct st as [h w]. unfold safe, Write.
  destruct (write p w) as [[n err] w'] eqn:E. simpl.
  apply write_spec in E as (Hn & Ha & _). split; [done|].
  eexists. split; [exact Ha|]. unfold zlen in *. rewrite length_take. lia.
Qed.

Definition counts (w0 : W) (r : Z * option error) (st : heap * W) : Prop :=
  counted w0 r.1 st.2.

Lemma put_safe L p total k w0 st :
  counted w0 total st.2 ->
  (forall total st', counted w0 total st'.2 -> st'.1 = st.1 ->
     safe (waiting L) (k total) st' (counts w0)) ->
  safe (waiting L) (put p total k) st (counts w0).
Proof.
  intros Hc Hk. unfold put. apply safe_bind. eapply safe_mono; [apply Write_safe|].
  intros [n err] st' [Hh Hn]. pose proof (counted_trans _ _ _ _ _ Hc Hn) as Hc'.
  destruct err; [by apply safe_ret|]. by apply Hk.
Qed.

Lemma write_bulk_loop_safe L fuel e rd left total w0 st :
  (forall r, rd = Some r -> reader_size st.1 r < fuel /\ reader_src r ∈ L) -> 0 < fuel ->
  counted w0 total st.2 ->
  safe (waiting L) (write_bulk_loop fuel e rd left total) st (counts w0).
Proof.
  revert left total st. induction fuel as [|fuel IH]; intros left total st Hf H0 Hc; [lia|].
  cbn [write_bulk_loop]. destruct (left <=? 0)%Z eqn:El.
  { apply safe_bind. eapply safe_mono; [apply Write_safe|].
    intros [n err] st' [_ Hn]. apply safe_ret. by eapply counted_trans. }
  destruct rd as [r|]; [|by apply safe_panic].
  destruct (Hf r eq_refl) as [Hr HL]. destruct st as [h w]. simpl in Hr, Hc.
  apply safe_bind. unfold safe at 1, on_heap.
  destruct (returns_cases _ _ _ _ (reader_Read_returns r (Z.to_nat (emptyBuffer (ChunkSize e) left)) h))
    as [([b err] & h1 & -> & _ & _ & Hp)|(h1 & -> & Hs)]; [|by exists (reader_src r)].
  destruct err as [er|]; [by apply safe_ret|].
  specialize (Hp eq_refl ltac:(unfold emptyBuffer; repeat case_match; lia)).
  apply safe_bind. eapply safe_mono; [apply Write_safe|].
  intros [n err] [h2 w2] [Hh Hn]. simpl in *. subst h2.
  pose proof (counted_trans _ _ _ _ _ Hc Hn) as Hc'.
  destruct err; [by apply safe_ret|].
  apply IH; [|lia|done]. intros r' [= <-]. simpl. split; [lia|done].
Qed.

Lemma writeBulk_safe L e m st :
  message.srcs m ⊆ L -> safe (waiting L) (writeBulk e m) st (counts st.2).
Proof.
  intros HL. unfold safe, writeBulk. apply write_bulk_loop_safe; [|lia|apply counted_refl].
  intros r Hr. rewrite Hr. split; [lia|]. by apply HL, srcs_reader.
Qed.

Lemma simpleToByte_safe {S} B (m : Message) (st : S) :
  safe B (simpleToByte m) st (fun _ st' => st' = st).
Proof. unfold simpleToByte. repeat case_decide; try done. by destruct (m_Error m). Qed.

(** ** The elements of a message

    [within n L x]: [x] nests no deeper than [n] and draws from sources of [L]. *)

Definition within (n : nat) L (x : Message) : Prop := message.depth x <= n /\ message.srcs x ⊆ L.

Lemma within_list l n L :
  fold_right (fun x n => message.depth x `max` n) 0 l <= n ->
  fold_right (fun x ls => message.srcs x ++ ls) [] l ⊆ L ->
  Forall (within n L) l.
Proof.
  induction l as [|x l IH]; simpl; intros Hn HL; constructor.
  - split; [lia|set_solver].
  - apply IH; [lia|set_solver].
Qed.

Lemma within_seq m s n L :
  m_Seq m = Some s -> within (S n) L m -> iter_all (within n L) L s.
Proof.
  destruct m as [? ? ? ? ? ? ? ? ? rd ? sq asc]. unfold within. simpl. intros -> [Hn HL].
  destruct s as [l|r]; simpl in *; [apply within_list; [lia|set_solver]|].
  split_and!; [simpl; lia|apply list_subseteq_nil|set_solver].
Qed.

Lemma within_assoc m a n L :
  m_Assoc m = Some a -> within (S n) L m -> assoc_all (within n L) L a.
Proof.
  destruct m as [? ? ? ? ? ? ? ? ? rd ? sq asc]. unfold within. simpl. intros -> [Hn HL].
  destruct a as [l|[l|r]]; simpl in *; [apply within_list; [lia|set_solver]..|].
  split_and!; [simpl; lia|apply list_subseteq_nil|set_solver].
Qed.

(** A call of the encoder that counts, used under a running total. *)
Definition enc_ok L (enc : Message -> M (heap * W) (Z * option error)) (n : nat) : Prop :=
  forall m st, within n L m -> safe (waiting L) (enc m) st (counts st.2).

Lemma encode_elem_safe L enc n w0 total m err st :
  enc_ok L enc n -> counted w0 total st.2 -> within n L m ->
  safe (waiting L) (encode_elem enc total m err) st (loop_post (counted w0) (fun r => counted w0 r.1)).
Proof.
  intros He Hc Hm. unfold encode_elem. destruct err; [by apply safe_ret|].
  apply safe_bind. eapply safe_mono; [by apply He|].
  intros [k err] st' Hk. pose proof (counted_trans _ _ _ _ _ Hc Hk) as Hc'.
  destruct err; by apply safe_ret.
Qed.

Lemma encode_pair_safe L enc n w0 total k v err st :
  enc_ok L enc n -> counted w0 total st.2 -> within n L k -> within n L v ->
  safe (waiting L) (encode_pair enc total (k, v) err) st (loop_post (counted w0) (fun r => counted w0 r.1)).
Proof.
  intros He Hc Hk Hv. unfold encode_pair.
  apply safe_bind. eapply safe_mono; [by apply He|].
  intros [n1 err1] st1 H1. pose proof (counted_trans _ _ _ _ _ Hc H1) as Hc1.
  destruct err1; [by apply safe_ret|].
  apply safe_bind. eapply safe_mono; [by apply He|].
  intros [n2 err2] st2 H2. pose proof (counted_trans _ _ _ _ _ Hc1 H2) as Hc2.
  destruct err2; by apply safe_ret.
Qed.

Lemma range_finish_safe L {A} w0 (m : M (heap * W) A) (f : A -> Z + Z * option error) st :
  safe (waiting L) m st (fun a st' => loop_post (counted w0) (fun r : Z * option error => counted w0 r.1)
                            (f a) st') ->
  safe (waiting L) (res ← m; mret (match f res with inl total => (total, None) | inr r => r end)) st
    (counts w0).
Proof.
  intros Hm. apply safe_bind. eapply safe_mono; [exact Hm|].
  intros a st' Ha. apply safe_ret. revert Ha. unfold counts, loop_post. destruct (f a) as [t|[t er]]; simpl; intros Ha; exact Ha.
Qed.

Lemma encode_payload_safe L enc e m total w0 n st :
  enc_ok L enc n -> within (S n) L m -> counted w0 total st.2 ->
  safe (waiting L) (encode_payload enc e m total) st (counts w0).
Proof.
  intros He Hd Hc. unfold encode_payload.
  case_decide; [|case_decide; [|case_decide]].
  - apply safe_bind. eapply safe_mono; [apply writeBulk_safe, Hd|].
    intros [k err] st' Hk. apply safe_ret. by eapply counted_trans.
  - destruct (m_Seq m) as [s|] eqn:Es; [|by apply safe_panic].
    apply (range_finish_safe L w0 _ id).
    apply (range_iter_safe (within n L)); [|by eapply within_seq|done].
    intros. by eapply encode_elem_safe.
  - destruct (m_Assoc m) as [a|] eqn:Ea; [|by apply safe_panic].
    apply (range_finish_safe L w0 _ id).
    destruct (decide (n = 0)) as [->|Hn].
    { destruct Hd as [Hd _]. destruct m as [? ? ? ? ? ? ? ? ? ? ? sq asc]; simpl in *; subst.
      destruct a as [[|x l]|s]; simpl in *; [by apply safe_ret| |lia].
      destruct x; simpl in *; lia. }
    apply (range_assoc_safe (within n L));
      [|split; [simpl; lia|apply list_subseteq_nil]|by eapply within_assoc|done].
    intros. by eapply encode_pair_safe.
  - by apply safe_ret.
Qed.

Lemma encode_safe L fuel e m st :
  within fuel L m -> safe (waiting L) (encode fuel e m) st (counts st.2).
Proof.
  revert m st. induction fuel as [|fuel IH]; intros m st Hd.
  { destruct Hd as [Hd _]. destruct m; simpl in Hd; lia. }
  cbn [encode]. apply put_safe; [apply counted_refl|]. intros t1 st1 K1 _.
  case_decide; [|case_decide; [|by apply safe_ret]].
  - apply safe_bind. eapply safe_mono; [apply simpleToByte_safe|].
    intros [body|err] st' ->; [|by apply safe_ret].
    apply put_safe; [done|]. intros t2 st2 K2 _. by apply safe_ret.
  - apply put_safe; [done|]. intros t2 st2 K2 _.
    apply put_safe; [done|]. intros t3 st3 K3 _.
    assert (forall t st', counted st.2 t st'.2 ->
              safe (waiting L) (encode_payload (encode fuel e) e m t) st' (counts st.2)) as Hp.
    { intros. by apply encode_payload_safe with (n := fuel). }
    case_decide; [|by apply Hp].
    apply put_safe; [done|]. intros t4 st4 K4 _.
    apply put_safe; [done|]. intros t5 st5 K5 _. by apply Hp.
Qed.

(** [Encode] returns, panics, or waits for a source of the message. *)
Lemma Encode_safe e m st : safe (waiting (message.srcs m)) (Encode e m) st (counts st.2).
Proof. by apply encode_safe. Qed.

End encode_proofs.

(** * Properties of the encoder *)

(** C14: [Encode] does not run for ever on any message, whatever its readers and
    iterators hold: it returns, panics, or waits, and waits only for an open source
    the message draws from.  The count it returns, with or without an error, is the
    number of bytes the writer accepted. *)
Theorem Encode_counts `{!FloatConv} {W} `{!IoWriter W, !IoWriterSpec W}
    (e : Encoder) (m : Message) (h : heap) (w : W) :
  (Encode e m (h, w)).1 <> OutOfFuel /\
  (forall st, Encode e m (h, w) = (Block, st) -> message.waits_for (message.srcs m) st.1) /\
  forall n err h' w', Encode e m (h, w) = (Ret (n, err), (h', w')) ->
  exists bs, accepted w' = accepted w ++ bs /\ n = zlen bs.
Proof.
  pose proof (Encode_safe e m (h, w)) as Hs.
  split_and!; [by eapply safe_fuel_ok|by intros st; apply (safe_waits _ _ _ _ _ Hs)|].
  intros n err h' w' E. exact (safe_elim _ _ _ _ _ _ Hs E).
Qed.

(** A message of two integers on a buffer. *)
Lemma Encode_counts_witness :
  (@Encode zero_floats Buffer _ (MkEncoder 0 0) (message.Array [message.Int 1; message.Int (-2)])
     (Heap [] [], MkBuffer [])).1 <> OutOfFuel /\
  (forall st, @Encode zero_floats Buffer _ (MkEncoder 0 0)
     (message.Array [message.Int 1; message.Int (-2)]) (Heap [] [], MkBuffer []) = (Block, st) ->
     message.waits_for (message.srcs (message.Array [message.Int 1; message.Int (-2)])) st.1) /\
  forall n err h' w',
    @Encode zero_floats Buffer _ (MkEncoder 0 0) (message.Array [message.Int 1; message.Int (-2)])
      (Heap [] [], MkBuffer []) = (Ret (n, err), (h', w')) ->
  exists bs, accepted w' = accepted (MkBuffer []) ++ bs /\ n = zlen bs.
Proof.
  apply (@Encode_counts zero_floats Buffer _ _ (MkEncoder 0 0)
    (message.Array [message.Int 1; message.Int (-2)]) (Heap [] []) (MkBuffer [])).
Defined.
