(* ===== verification/Wire.v ===== *)
(** The RESP wire format as a reference: abstract values, the bytes that denote
    them, what it means for a message with its readers to represent a value, and
    the refinement theorem that [Encode] writes exactly those bytes. *)

From S2P Require Import Prelude GoBase GoStrconv GoIO Kind Message Decoder Encoder.
From Stdlib Require Import Wf_nat.

(** * Values and their wire format *)

Inductive resp :=
| VSimple (s : bytes)
| VInt (i : Z)
| VNull
| VBool (b : bool)
| VDouble (f : float64)
| VBig (i : Z)
| VBulk (k : byte) (d : bytes)              (** bulk string or bulk error *)
| VVerbatim (enc d : bytes)
| VSeq (k : byte) (vs : list resp)          (** array, set or push *)
| VMap (k : byte) (kvs : list resp).        (** map or attribute, flattened *)

Definition simple_text `{!FloatConv} (v : resp) : option (byte * bytes) :=
  match v with
  | VSimple s => Some (kind.SimpleString, s)
  | VInt i => Some (kind.Int, FormatInt i)
  | VNull => Some (kind.Null, [])
  | VBool b => Some (kind.Bool, FormatBool b)
  | VDouble f => Some (kind.Double, FormatFloat f)
  | VBig i => Some (kind.BigNumber, FormatInt i)
  | _ => None
  end.

Fixpoint wire `{!FloatConv} (v : resp) : bytes :=
  match v with
  | VBulk k d => [k] ++ FormatInt (zlen d) ++ kind.EOL ++ d ++ kind.EOL
  | VVerbatim enc d =>
      [kind.VerbatimString] ++ FormatInt (zlen d) ++ kind.EOL ++ enc ++ kind.EOL
        ++ d ++ kind.EOL
  | VSeq k vs => [k] ++ FormatInt (zlen vs) ++ kind.EOL ++ concat (wire <$> vs)
  | VMap k kvs => [k] ++ FormatInt (zlen kvs / 2) ++ kind.EOL ++ concat (wire <$> kvs)
  | v => match simple_text v with Some (k, t) => [k] ++ t ++ kind.EOL | None => [] end
  end.

(** * Messages that represent a value

    [rep h v m fp]: in heap [h] the message [m] represents [v], and the sources it
    reads are those of [fp].  The sources of different elements are distinct, as
    they are when the messages come from [NewBulkString]. *)

Inductive rep (h : heap) : resp -> Message -> list nat -> Prop :=
| rep_simple m s :
    m_Kind m = kind.SimpleString -> m_SimpleString m = s -> rep h (VSimple s) m []
| rep_int m i : m_Kind m = kind.Int -> m_Int m = i -> rep h (VInt i) m []
| rep_null m : m_Kind m = kind.Null -> rep h VNull m []
| rep_bool m b : m_Kind m = kind.Bool -> m_Bool m = b -> rep h (VBool b) m []
| rep_double m f : m_Kind m = kind.Double -> m_Double m = f -> rep h (VDouble f) m []
| rep_big m i : m_Kind m = kind.BigNumber -> m_BigNumber m = Some i -> rep h (VBig i) m []
| rep_bulk m k d rest l :
    m_Kind m = k -> k ∈ [kind.BulkString; kind.BulkError] ->
    m_RunLength m = zlen d -> m_Reader m = Some (RSrc l) ->
    l < length (h_srcs h) -> source_data (src_at h l) = d ++ rest ->
    rep h (VBulk k d) m [l]
| rep_verbatim m enc d rest l :
    m_Kind m = kind.VerbatimString -> m_Encoding m = enc ->
    m_RunLength m = zlen d -> m_Reader m = Some (RSrc l) ->
    l < length (h_srcs h) -> source_data (src_at h l) = d ++ rest ->
    rep h (VVerbatim enc d) m [l]
| rep_seq m k vs ms fp :
    m_Kind m = k -> k ∈ [kind.Array; kind.Push; kind.Set_] ->
    m_RunLength m = zlen ms -> m_Seq m = Some (IterList ms) ->
    reps h vs ms fp -> rep h (VSeq k vs) m fp
| rep_map m k vs ms fp :
    m_Kind m = k -> k ∈ [kind.Map; kind.Attribute] ->
    (zlen ms mod 2 = 0)%Z -> m_RunLength m = (zlen ms / 2)%Z ->
    m_Assoc m = Some (AssocList ms) ->
    reps h vs ms fp -> rep h (VMap k vs) m fp
with reps (h : heap) : list resp -> list Message -> list nat -> Prop :=
| reps_nil : reps h [] [] []
| reps_cons v m fp vs ms fps :
    rep h v m fp -> reps h vs ms fps -> (forall l, l ∈ fp -> l ∉ fps) ->
    reps h (v :: vs) (m :: ms) (fp ++ fps).

Scheme rep_mut := Minimality for rep Sort Prop
with reps_mut := Minimality for reps Sort Prop.

Lemma reps_length h vs ms fp : reps h vs ms fp -> length vs = length ms.
Proof.
  revert vs fp. induction ms as [|m ms IH]; intros vs fp Hr; inversion Hr; subst; [done|].
  simpl. f_equal. by eapply IH.
Qed.

(** Reads outside its sources do not change what a message represents. *)
Definition agree (fp : list nat) (h h' : heap) : Prop :=
  length (h_srcs h) <= length (h_srcs h') /\
  forall l, l ∈ fp -> src_at h' l = src_at h l.

Definition untouched (fp : list nat) (h h' : heap) : Prop :=
  length (h_srcs h') = length (h_srcs h) /\
  forall l, l ∉ fp -> src_at h' l = src_at h l.

Lemma reps_agree h h' vs ms fp : reps h vs ms fp -> agree fp h h' -> reps h' vs ms fp.
Proof.
  intros Hr. revert Hr.
  apply (reps_mut h
    (fun v m fp => agree fp h h' -> rep h' v m fp)
    (fun vs ms fp => agree fp h h' -> reps h' vs ms fp)).
  1-6: by constructor.
  - intros m k d rest l ? ? ? ? ? ? [Hl Ha]. econstructor; try done; [lia|].
    rewrite Ha; [done|]. by left.
  - intros m enc d rest l ? ? ? ? ? ? [Hl Ha]. econstructor; try done; [lia|].
    rewrite Ha; [done|]. by left.
  - intros. econstructor; eauto.
  - intros. econstructor; eauto.
  - constructor.
  - intros v m fp1 vs1 ms1 fps _ IH1 _ IH2 Hd [Hl Ha]. constructor; [| |done].
    + apply IH1. split; [done|]. intros. apply Ha, elem_of_app. by left.
    + apply IH2. split; [done|]. intros. apply Ha, elem_of_app. by right.
Qed.

Lemma rep_agree h h' v m fp : rep h v m fp -> agree fp h h' -> rep h' v m fp.
Proof.
  intros Hr Ha. assert (reps h' [v] [m] (fp ++ [])) as Hs.
  { eapply reps_agree; [constructor; [done|constructor|set_solver]|].
    by rewrite app_nil_r. }
  inversion Hs; subst. inversion H5; subst. rewrite !app_nil_r in *. by subst.
Qed.

(** The sources of a message exist. *)
Lemma reps_bound h vs ms fp : reps h vs ms fp -> forall l, l ∈ fp -> l < length (h_srcs h).
Proof.
  intros Hr. revert Hr.
  apply (reps_mut h (fun _ _ fp => forall l, l ∈ fp -> l < length (h_srcs h))
    (fun _ _ fp => forall l, l ∈ fp -> l < length (h_srcs h))).
  1-6: by intros; match goal with H : _ ∈ [] |- _ => apply elem_of_nil in H end.
  - intros m k d rest l ? ? ? ? ? ? l' ->%list_elem_of_singleton. done.
  - intros m enc d rest l ? ? ? ? ? ? l' ->%list_elem_of_singleton. done.
  - done.
  - done.
  - by intros l Hl%elem_of_nil.
  - intros v m fp1 vs1 ms1 fps _ IH1 _ IH2 _ l [Hl|Hl]%elem_of_app; auto.
Qed.

Lemma rep_reps h v m fp : rep h v m fp -> reps h [v] [m] fp.
Proof.
  intros Hr. rewrite <- (app_nil_r fp). constructor; [done|constructor|].
  by intros l _ Hl%elem_of_nil.
Qed.

Lemma untouched_trans fp1 fp2 h1 h2 h3 :
  untouched fp1 h1 h2 -> untouched fp2 h2 h3 -> untouched (fp1 ++ fp2) h1 h3.
Proof.
  intros [L1 A1] [L2 A2]. split; [congruence|]. intros l Hl.
  rewrite not_elem_of_app in Hl. destruct Hl. by rewrite A2, A1.
Qed.

Lemma untouched_agree fp fps h h' :
  untouched fp h h' -> (forall l, l ∈ fp -> l ∉ fps) -> agree fps h h'.
Proof. intros [L A] Hd. split; [lia|]. intros l Hl. apply A. intros ?. by eapply Hd. Qed.

Lemma advanced_untouched l rest h h' : advanced l rest h h' -> untouched [l] h h'.
Proof.
  intros [_ _ L _ O]. split; [done|]. intros l' Hl'. apply O.
  intros ->. apply Hl'. by left.
Qed.

(** * Sending bytes through a writer that may fail

    [sends w bs n err w']: of the bytes [bs] the writer took the first [n], all of
    them when there is no error; an error is one of the writer's; and the writer was
    used by its [Write] only. *)

Definition write_step {W} `{!IoWriter W} (w w' : W) : Prop := exists p, (write p w).2 = w'.

Definition fails_with {W} `{!IoWriter W} (e : error) : Prop :=
  exists p (w : W) n w', write p w = ((n, Some e), w').
Arguments fails_with W {_} e.

Record sends {W} `{!IoWriter W} (w : W) (bs : bytes) (n : Z) (err : option error) (w' : W) : Prop := {
  sn_range : (0 <= n <= zlen bs)%Z;
  sn_accepted : accepted w' = accepted w ++ take (Z.to_nat n) bs;
  sn_all : err = None -> n = zlen bs;
  sn_error : forall e, err = Some e -> fails_with W e;
  sn_writes : rtc write_step w w';
}.

Section sends.
Context {W : Type} `{!IoWriter W, !IoWriterSpec W}.
Implicit Types (w : W) (bs : bytes).

Lemma sends_nil w : sends w [] 0 None w.
Proof. split; simpl; [zlen_solve|by rewrite app_nil_r|done|done|done]. Qed.

Lemma sends_write p w n err w' : write p w = ((n, err), w') -> sends w p n err w'.
Proof.
  intros E. pose proof (write_spec _ _ _ _ _ E) as (Hn & Ha & Hok).
  split; [done..| |].
  - intros e ->. by exists p, w, n, w'.
  - apply rtc_once. exists p. by rewrite E.
Qed.

Lemma sends_full w bs n w' : sends w bs n None w' -> n = zlen bs /\ accepted w' = accepted w ++ bs.
Proof.
  intros [_ Ha Hok _ _]. rewrite Hok in * by done. split; [done|].
  rewrite Ha, take_ge; [done|]. unfold zlen. lia.
Qed.

Lemma sends_app w bs1 n1 w1 bs2 n2 err w2 :
  sends w bs1 n1 None w1 -> sends w1 bs2 n2 err w2 -> sends w (bs1 ++ bs2) (n1 + n2) err w2.
Proof.
  intros S1 [Hn Ha Hok He Hw]. pose proof (sn_writes _ _ _ _ _ S1) as Hw1.
  apply sends_full in S1 as [-> Ha1]. pose proof (zlen_nonneg bs1).
  split; [rewrite zlen_app; lia| |rewrite zlen_app; intros; by rewrite Hok|done|by etrans].
  rewrite Ha, Ha1, <- app_assoc. f_equal. unfold zlen in *.
  rewrite Z2Nat.inj_add, Nat2Z.id by lia. by rewrite take_app_add.
Qed.

Lemma sends_stop w bs1 n e w1 bs2 :
  sends w bs1 n (Some e) w1 -> sends w (bs1 ++ bs2) n (Some e) w1.
Proof.
  intros [Hn Ha Hok He Hw]. pose proof (zlen_nonneg bs2).
  split; [rewrite zlen_app; lia| |done|done|done].
  rewrite Ha, take_app_le; [done|]. unfold zlen in *. lia.
Qed.

(** [emits m h w total bs fp]: run from heap [h] and writer [w] with [total] bytes
    counted so far, [m] returns, it sends [bs], and touches the sources [fp] only.
    [emits_loop] is the same for the body of a loop. *)
Definition emits (m : M (heap * W) (Z * option error)) (h : heap) w (total : Z) bs (fp : list nat) :=
  exists n err h' w', m (h, w) = (Ret ((total + n)%Z, err), (h', w')) /\
    sends w bs n err w' /\ untouched fp h h'.

Definition loop_result (total : Z) (err : option error) : Z + (Z * option error) :=
  match err with None => inl total | Some e => inr (total, Some e) end.

Definition emits_loop (m : M (heap * W) (Z + (Z * option error))) (h : heap) w (total : Z) bs fp :=
  exists n err h' w', m (h, w) = (Ret (loop_result (total + n) err), (h', w')) /\
    sends w bs n err w' /\ untouched fp h h'.

Lemma emits_ret h w total fp : emits (mret (total, None)) h w total [] fp.
Proof. exists 0%Z, None, h, w. rewrite Z.add_0_r. split_and!; [done|apply sends_nil|by split]. Qed.

(** A counted write and what follows it. *)
Lemma emits_put p total k h w bs fp :
  (forall w', emits (k (total + zlen p)%Z) h w' (total + zlen p) bs fp) ->
  emits (put p total k) h w total (p ++ bs) fp.
Proof.
  intros Hk. destruct (write p w) as [[n err] w1] eqn:E. apply sends_write in E as Hs.
  assert (Write p (h, w) = (Ret (n, err), (h, w1))) as Ew by (unfold Write; by rewrite E).
  unfold emits, put. rewrite (bind_ret _ _ _ _ _ Ew). destruct err as [e|].
  - exists n, (Some e), h, w1. split_and!; [done|by apply sends_stop|by split].
  - apply sends_full in Hs as Hn. destruct Hn as [-> _].
    destruct (Hk w1) as (n2 & err & h' & w2 & -> & Hs2 & U).
    exists (zlen p + n2)%Z, err, h', w2. rewrite Z.add_assoc.
    split_and!; [done|by eapply sends_app|done].
Qed.

(** A call whose count is added to the total. *)
Lemma emits_add (m : M (heap * W) (Z * option error)) h w total bs fp :
  emits m h w 0 bs fp ->
  emits ('(n, err) ← m; mret ((total + n)%Z, err)) h w total bs fp.
Proof.
  intros (n & err & h' & w' & E & Hs & U). exists n, err, h', w'.
  rewrite (bind_ret _ _ _ _ _ E). by split_and!.
Qed.

(** One turn of a loop and the rest of it. *)
Lemma emits_turn (m : M (heap * W) (Z + (Z * option error)))
    (k : Z -> M (heap * W) (Z + (Z * option error))) h w total bs1 bs2 fp1 fp2 :
  emits_loop m h w total bs1 fp1 ->
  (forall h' w' n, untouched fp1 h h' -> emits_loop (k (total + n)%Z) h' w' (total + n) bs2 fp2) ->
  emits_loop (res ← m; match res with inl total => k total | inr r => mret (inr r) end)
    h w total (bs1 ++ bs2) (fp1 ++ fp2).
Proof.
  intros (n & err & h1 & w1 & E & Hs & U) Hk. unfold emits_loop.
  rewrite (bind_ret _ _ _ _ _ E). destruct err as [e|]; simpl.
  - exists n, (Some e), h1, w1. split_and!; [done|by apply sends_stop|].
    by eapply untouched_trans; [|split].
  - destruct (Hk h1 w1 n U) as (n2 & err & h2 & w2 & -> & Hs2 & U2).
    exists (n + n2)%Z, err, h2, w2. rewrite Z.add_assoc.
    split_and!; [done|by eapply sends_app|by eapply untouched_trans].
Qed.

Lemma emits_loop_ret h w total fp : emits_loop (mret (inl total)) h w total [] fp.
Proof. exists 0%Z, None, h, w. rewrite Z.add_0_r. split_and!; [done|apply sends_nil|by split]. Qed.

Lemma emits_finish (m : M (heap * W) (Z + (Z * option error))) h w total bs fp :
  emits_loop m h w total bs fp ->
  emits (res ← m; mret (match res with inl total => (total, None) | inr r => r end)) h w total bs fp.
Proof.
  intros (n & err & h' & w' & E & Hs & U). exists n, err, h', w'.
  rewrite (bind_ret _ _ _ _ _ E). split_and!; [|done..]. by destruct err.
Qed.

End sends.

Section wire.
Context `{!FloatConv} {W : Type} `{!IoWriter W, !IoWriterSpec W}.
Implicit Types w : W.

(** [writeBulk] copies the announced bytes and ends them with a line end, whatever
    the chunk size and however the reader delivers them. *)
Lemma write_bulk_loop_wire fuel e l d rest total h w :
  l < length (h_srcs h) -> source_data (src_at h l) = d ++ rest ->
  source_size (src_at h l) < fuel ->
  emits (write_bulk_loop fuel e (Some (RSrc l)) (zlen d) total) h w total (d ++ kind.EOL) [l].
Proof.
  revert d total h w. induction fuel as [|fuel IH]; intros d total h w Hl Hd Hf; [lia|].
  cbn [write_bulk_loop]. destruct (zlen d <=? 0)%Z eqn:El.
  { assert (d = []) as -> by (destruct d as [|x d]; [done|]; rewrite zlen_cons in El;
      pose proof (zlen_nonneg d); lia).
    apply emits_add. destruct (write kind.EOL w) as [[n err] w'] eqn:E.
    exists n, err, h, w'. unfold Write. rewrite E.
    split_and!; [done|by apply sends_write|by split]. }
  set (k := Z.to_nat (emptyBuffer (ChunkSize e) (zlen d))).
  pose proof (buffer_bounds (ChunkSize e) (zlen d)) as [Hk _].
  specialize (Hk ltac:(lia)).
  destruct (read_src_cases l k h)
    as [(p & d' & h1 & Er & Hp & Hs & Ha & Hsz)|(h1 & _ & Hs & _)]; [done|lia| |].
  2: { rewrite Hs in Hd. destruct d; [done|discriminate]. }
  assert (exists k', d = p ++ k' /\ d' = k' ++ rest) as (k' & -> & ->).
  { rewrite Hd in Hs. apply app_eq_inv in Hs as [(k' & -> & ->)|(k' & -> & Hr)]; [by eauto|].
    assert (k' = []) as -> by (unfold zlen in *; rewrite length_app in *; destruct k'; simpl in *; auto; lia).
    exists []. rewrite !app_nil_r. simpl in *. by subst. }
  unfold emits. erewrite bind_ret by (unfold on_heap; rewrite (reader_Read_ok _ _ _ _ _ Er); done).
  destruct (write p w) as [[n err] w1] eqn:E. apply sends_write in E as Hsw.
  assert (Write p (h1, w) = (Ret (n, err), (h1, w1))) as Ew by (unfold Write; by rewrite E).
  rewrite (bind_ret _ _ _ _ _ Ew), <- app_assoc. apply advanced_untouched in Ha as U1.
  destruct err as [er|].
  { exists n, (Some er), h1, w1. split_and!; [done|by apply sends_stop|done]. }
  apply sends_full in Hsw as Hn. destruct Hn as [-> _].
  destruct (IH k' (total + zlen p)%Z h1 w1) as (n2 & err & h2 & w2 & E2 & Hs2 & U2).
  - by rewrite (adv_len _ _ _ _ Ha).
  - by rewrite (adv_data _ _ _ _ Ha).
  - lia.
  - exists (zlen p + n2)%Z, err, h2, w2.
    rewrite zlen_app. replace (zlen p + zlen k' - zlen p)%Z with (zlen k') by lia.
    rewrite E2, Z.add_assoc. split_and!; [done|by eapply sends_app|].
    pose proof (untouched_trans _ _ _ _ _ U1 U2) as [L U]. split; [done|].
    intros l' Hl'. apply U. by rewrite not_elem_of_app.
Qed.

Lemma writeBulk_wire e m l d rest h w :
  m_RunLength m = zlen d -> m_Reader m = Some (RSrc l) ->
  l < length (h_srcs h) -> source_data (src_at h l) = d ++ rest ->
  emits (writeBulk e m) h w 0 (d ++ kind.EOL) [l].
Proof.
  intros Hn Hr Hl Hd. unfold emits, writeBulk. rewrite Hn, Hr.
  apply (write_bulk_loop_wire _ e l d rest 0); [done..|].
  unfold reader_size. simpl. lia.
Qed.

(** * [Encode] writes the wire format *)

Definition writes_wire (enc : Message -> M (heap * W) (Z * option error)) (n : nat) : Prop :=
  forall h v m fp w, rep h v m fp -> message.depth m <= n -> emits (enc m) h w 0 (wire v) fp.

Lemma encode_elem_wire enc n total h v m fp w :
  writes_wire enc n -> rep h v m fp -> message.depth m <= n ->
  emits_loop (encode_elem enc total m None) h w total (wire v) fp.
Proof.
  intros He Hr Hm. destruct (He h v m fp w Hr Hm) as (k & err & h' & w' & E & Hs & U).
  exists k, err, h', w'. split_and!; [|done..]. unfold encode_elem.
  rewrite (bind_ret _ _ _ _ _ E). by destruct err.
Qed.

Lemma range_list_wire enc n vs ms fp total h w :
  writes_wire enc n -> reps h vs ms fp -> Forall (fun m => message.depth m <= n) ms ->
  emits_loop (range_list (encode_elem enc) ms total) h w total (concat (wire <$> vs)) fp.
Proof.
  intros He. revert vs fp total h w.
  induction ms as [|m ms IH]; intros vs fp total h w Hr Hd; inversion Hr; subst.
  { apply emits_loop_ret. }
  apply Forall_cons in Hd as [Hm Hd]. cbn [range_list fmap list_fmap concat].
  apply emits_turn; [by eapply encode_elem_wire|].
  intros h1 w1 k U1. apply IH; [|done].
  eapply reps_agree; [done|]. by eapply untouched_agree.
Qed.

Lemma encode_pair_wire enc n total h v1 m1 fp1 v2 m2 fp2 w :
  writes_wire enc n -> rep h v1 m1 fp1 -> rep h v2 m2 fp2 ->
  (forall l, l ∈ fp1 -> l ∉ fp2) ->
  message.depth m1 <= n -> message.depth m2 <= n ->
  emits_loop (encode_pair enc total (m1, m2) None) h w total (wire v1 ++ wire v2) (fp1 ++ fp2).
Proof.
  intros He R1 R2 Hd D1 D2.
  destruct (He h v1 m1 fp1 w R1 D1) as (n1 & err1 & h1 & w1 & E1 & S1 & U1).
  unfold emits_loop, encode_pair. rewrite (bind_ret _ _ _ _ _ E1). destruct err1 as [e|].
  { exists n1, (Some e), h1, w1. split_and!; [done|by apply sends_stop|].
    by eapply untouched_trans; [|split]. }
  destruct (He h1 v2 m2 fp2 w1) as (n2 & err2 & h2 & w2 & E2 & S2 & U2); [|done|].
  { eapply rep_agree; [done|]. by eapply untouched_agree. }
  rewrite (bind_ret _ _ _ _ _ E2). exists (n1 + n2)%Z, err2, h2, w2.
  split_and!; [|by eapply sends_app|by eapply untouched_trans].
  replace (total + (n1 + n2))%Z with (total + (0 + n1) + (0 + n2))%Z by lia. by destruct err2.
Qed.

Lemma range_pairs_wire enc n vs ms fp total h w :
  writes_wire enc n -> (zlen ms mod 2 = 0)%Z ->
  reps h vs ms fp -> Forall (fun m => message.depth m <= n) ms ->
  emits_loop (range_pairs (encode_pair enc) ms total) h w total (concat (wire <$> vs)) fp.
Proof.
  intros He. revert vs fp total h w.
  induction ms as [ms IH] using (induction_ltof1 _ (@length Message)). unfold ltof in IH.
  intros vs fp total h w Hev Hr Hd. destruct ms as [|m1 [|m2 ms]].
  { inversion Hr; subst. apply emits_loop_ret. }
  { by vm_compute in Hev. }
  inversion Hr as [|v1 ? fp1 vs1 ? fps1 R1 Hr1 D1]; subst.
  inversion Hr1 as [|v2 ? fp2 vs2 ? fps2 R2 Hr2 D2]; subst.
  apply Forall_cons in Hd as [Hm1 Hd]. apply Forall_cons in Hd as [Hm2 Hd].
  cbn [range_pairs fmap list_fmap concat]. rewrite (app_assoc (wire v1)), (app_assoc fp1).
  apply emits_turn.
  { eapply encode_pair_wire; [done..| |done|done].
    intros l Hl Hl2. apply (D1 l Hl), elem_of_app. by left. }
  intros h1 w1 k U1. apply IH; [simpl; lia| | |done].
  - rewrite !zlen_cons in Hev. rewrite Z.add_assoc in Hev.
    by rewrite <- (Z.mod_add (zlen ms) 1 2), Z.add_comm by lia.
  - eapply reps_agree; [done|]. eapply untouched_agree; [done|].
    intros l [Hl|Hl]%elem_of_app Hf; [|by eapply D2].
    apply (D1 l Hl), elem_of_app. by right.
Qed.

Lemma depth_list m n :
  message.depth m <= S n ->
  (forall ms, m_Seq m = Some (IterList ms) -> Forall (fun x => message.depth x <= n) ms) /\
  (forall ms, m_Assoc m = Some (AssocList ms) -> Forall (fun x => message.depth x <= n) ms).
Proof.
  intros Hd. assert (within (S n) (message.srcs m) m) as Hw by done. split; intros ms E.
  - eapply Forall_impl; [exact (within_seq m (IterList ms) n _ E Hw)|by intros x []].
  - eapply Forall_impl; [exact (within_assoc m (AssocList ms) n _ E Hw)|by intros x []].
Qed.

(** The kind and the text of a simple message. *)
Lemma simpleToByte_rep {S} h v m fp k t (st : S) :
  rep h v m fp -> simple_text v = Some (k, t) ->
  simpleToByte m st = (Ret (inl (t ++ kind.EOL)), st) /\ m_Kind m = k /\
  kind.Category k = kind.CategorySimple /\ fp = [] /\ wire v = [k] ++ t ++ kind.EOL.
Proof.
  intros Hr Ht. destruct Hr; simpl in Ht; simplify_eq;
    unfold simpleToByte; match goal with E : m_Kind m = _ |- _ => rewrite E end;
    repeat (rewrite decide_True by done || rewrite decide_False by done).
  all: split_and!; try done.
  by match goal with E : m_BigNumber m = _ |- _ => rewrite E end.
Qed.

Lemma encode_simple_wire fuel e h v m fp w k t :
  rep h v m fp -> simple_text v = Some (k, t) ->
  emits (encode (S fuel) e m) h w 0 (wire v) fp.
Proof.
  intros Hr Ht. destruct (simpleToByte_rep h v m fp k t (h, w) Hr Ht)
    as (_ & Hk & Hc & -> & ->).
  cbn [encode]. rewrite Hk. apply emits_put. intros w1. rewrite decide_True by done.
  destruct (simpleToByte_rep h v m [] k t (h, w1) Hr Ht) as (Es & _).
  unfold emits. rewrite (bind_ret _ _ _ _ _ Es).
  pose proof (emits_put (t ++ kind.EOL) (0 + zlen [k]) (fun total => mret (total, None)) h w1 [] []
    (fun w2 => emits_ret _ _ _ _)) as Hp. by rewrite app_nil_r in Hp.
Qed.

(** What an aggregate holds after its length line. *)
Definition payload (v : resp) : bytes :=
  match v with
  | VBulk _ d | VVerbatim _ d => d ++ kind.EOL
  | VSeq _ vs | VMap _ vs => concat (wire <$> vs)
  | _ => []
  end.

Lemma payload_bulk_wire enc e m l d rest total h w :
  m_Kind m ∈ [kind.BulkString; kind.BulkError; kind.VerbatimString] ->
  m_RunLength m = zlen d -> m_Reader m = Some (RSrc l) ->
  l < length (h_srcs h) -> source_data (src_at h l) = d ++ rest ->
  emits (encode_payload enc e m total) h w total (d ++ kind.EOL) [l].
Proof.
  intros Hk Hn Hrd Hl Hd. unfold encode_payload. rewrite decide_True by done.
  apply emits_add. by eapply writeBulk_wire.
Qed.

Lemma encode_payload_wire enc n e h v m fp total w :
  writes_wire enc n -> rep h v m fp -> message.depth m <= S n -> simple_text v = None ->
  emits (encode_payload enc e m total) h w total (payload v) fp.
Proof.
  intros He Hr Hd Hs. apply depth_list in Hd as [Dseq Dmap].
  destruct Hr as [| | | | | |m k d rest l Hk Hin Hn Hrd Hl Hdata
    |m enc' d rest l Hk Henc Hn Hrd Hl Hdata
    |m k vs ms fp Hk Hin Hn Hsq Hrs|m k vs ms fp Hk Hin Hev Hn Hsq Hrs]; try done.
  - apply (payload_bulk_wire enc e m l d rest); try done.
    rewrite Hk. by apply kind.bulk_kinds in Hin as (?&_).
  - apply (payload_bulk_wire enc e m l d rest); try done.
    rewrite Hk. apply kind.verbatim_kind.
  - unfold encode_payload. rewrite decide_False, decide_True
      by (rewrite Hk; done || by apply kind.seq_kinds in Hin as (?&_)). rewrite Hsq.
    apply emits_finish. cbn [range_iter]. eapply range_list_wire; eauto.
  - unfold encode_payload. rewrite 2 decide_False, decide_True
      by (rewrite Hk; done || by apply kind.map_kinds in Hin as (?&?&_)). rewrite Hsq.
    apply emits_finish. cbn [range_assoc]. eapply range_pairs_wire; eauto.
Qed.

Lemma rep_aggregate h v m fp :
  rep h v m fp -> simple_text v = None ->
  kind.Category (m_Kind m) = kind.CategoryAggregate /\
  wire v = [m_Kind m] ++ FormatInt (m_RunLength m) ++ kind.EOL ++
    (if decide (m_Kind m = kind.VerbatimString) then m_Encoding m ++ kind.EOL else []) ++
    payload v.
Proof.
  intros Hr Hs.
  destruct Hr as [| | | | | |m k d rest l Hk Hin Hn Hrd Hl Hdata
    |m enc' d rest l Hk Henc Hn Hrd Hl Hdata
    |m k vs ms fp Hk Hin Hn Hsq Hrs|m k vs ms fp Hk Hin Hev Hn Hsq Hrs]; try done;
    rewrite Hk.
  2: by rewrite decide_True, Hn, Henc, <- !app_assoc.
  all: rewrite Hn.
  - apply kind.bulk_kinds in Hin as (_ & Hc & Hv). by rewrite decide_False.
  - apply kind.seq_kinds in Hin as (_ & Hc & Hv). rewrite decide_False by done.
    apply reps_length in Hrs. unfold zlen. by rewrite <- Hrs.
  - apply kind.map_kinds in Hin as (_ & _ & Hc & Hv). rewrite decide_False by done.
    apply reps_length in Hrs. unfold zlen. by rewrite <- Hrs.
Qed.

Lemma encode_writes_wire fuel e : writes_wire (encode fuel e) fuel.
Proof.
  induction fuel as [|fuel IH]; intros h v m fp w Hr Hd.
  { destruct m; simpl in Hd; lia. }
  destruct (simple_text v) as [[k t]|] eqn:Hs; [by eapply encode_simple_wire|].
  destruct (rep_aggregate h v m fp Hr Hs) as [Hc ->].
  cbn [encode]. apply emits_put. intros w1.
  rewrite decide_False by (rewrite Hc; done). rewrite decide_True by done.
  apply emits_put. intros w2. apply emits_put. intros w3.
  destruct (decide (m_Kind m = kind.VerbatimString)) as [Hv|Hv].
  - rewrite <- app_assoc. apply emits_put. intros w4. apply emits_put. intros w5.
    by apply (encode_payload_wire _ fuel).
  - by apply (encode_payload_wire _ fuel).
Qed.

End wire.

(** * Outgoing commands *)

Lemma NewBulkString_rep a h :
  exists m h', protocol.NewBulkString a h = (Ret m, h') /\
    rep h' (VBulk kind.BulkString a) m [length (h_srcs h)] /\
    m_Kind m = kind.BulkString /\ m_RunLength m = zlen a /\
    length (h_srcs h') = S (length (h_srcs h)) /\
    forall l, l < length (h_srcs h) -> src_at h' l = src_at h l.
Proof.
  do 2 eexists. split; [reflexivity|].
  split_and!; [|done|done|simpl; rewrite length_app; simpl; lia|].
  - apply (rep_bulk _ _ kind.BulkString a []); try done.
    + left.
    + simpl. rewrite length_app. simpl. lia.
    + unfold src_at. simpl. rewrite lookup_app_r, Nat.sub_diag by lia. simpl.
      unfold buffer_source, source_data. rewrite app_nil_r.
      destruct a; simpl; by rewrite ?app_nil_r.
  - intros l Hl. unfold src_at. simpl. by rewrite lookup_app_l.
Qed.

Lemma new_bulk_strings_rep args h :
  exists ms h', protocol.new_bulk_strings args h = (Ret ms, h') /\
    reps h' (VBulk kind.BulkString <$> args) ms (seq (length (h_srcs h)) (length args)) /\
    length (h_srcs h') = length (h_srcs h) + length args /\
    forall l, l < length (h_srcs h) -> src_at h' l = src_at h l.
Proof.
  revert h. induction args as [|a args IH]; intros h.
  { exists [], h. split_and!; [done|constructor|simpl; lia|done]. }
  destruct (NewBulkString_rep a h) as (m & h1 & E1 & R1 & _ & _ & L1 & S1).
  destruct (IH h1) as (ms & h2 & E2 & R2 & L2 & S2).
  exists (m :: ms), h2. cbn [protocol.new_bulk_strings].
  rewrite (bind_ret _ _ _ _ _ E1), (bind_ret _ _ _ _ _ E2).
  split_and!; [done| |simpl; lia|].
  - rewrite fmap_cons. change (seq (length (h_srcs h)) (length (a :: args)))
      with ([length (h_srcs h)] ++ seq (S (length (h_srcs h))) (length args)).
    rewrite <- L1. constructor; [|done|].
    + inversion R1 as [| | | | | |? ? d rest l Hk Hin Hn Hrd Hl Hdata| | |]; subst.
      apply (rep_bulk _ _ _ _ rest); try done; [lia|]. by rewrite S2 by lia.
    + intros l Hl Hf. apply list_elem_of_singleton in Hl as ->.
      apply elem_of_seq in Hf. lia.
  - intros l Hl. rewrite S2, S1 by lia. done.
Qed.

(** The value a command denotes: an array of bulk strings. *)
Definition command (args : list bytes) : resp :=
  VSeq kind.Array (VBulk kind.BulkString <$> args).

Lemma NewOutgoingCommand_rep args h :
  exists m h' fp, protocol.NewOutgoingCommand args h = (Ret m, h') /\
    rep h' (command args) m fp /\ length (h_srcs h) <= length (h_srcs h') /\
    (forall l, l < length (h_srcs h) -> (l ∉ fp) /\ src_at h' l = src_at h l).
Proof.
  destruct (new_bulk_strings_rep args h) as (ms & h' & E & R & L & S).
  exists (message.Array ms), h'. eexists.
  unfold protocol.NewOutgoingCommand. rewrite (bind_ret _ _ _ _ _ E).
  split_and!; [done| |lia|].
  - apply (rep_seq _ _ kind.Array _ ms); try done. left.
  - intros l Hl. split; [|by apply S]. rewrite elem_of_seq. lia.
Qed.

(** An error message on a writer. *)
Lemma Encode_error_message `{!FloatConv} {W} `{!IoWriter W}
    (e : Encoder) (m : Message) (h : heap) (w : W) :
  m_Kind m = kind.Error ->
  Encode e m (h, w) =
    let '((n, err), w') := write [kind.Error] w in
    (match err, m_Error m with
     | Some er, _ => Ret (n, Some er)
     | None, Some _ => Ret (n, Some (Errorf "empty Error field for Error type message %s" []))
     | None, None => Panic nil_deref
     end, (h, w')).
Proof.
  intros Hk. unfold Encode.
  destruct (message.depth m) as [|d] eqn:Hd; [destruct m; by simpl in Hd|].
  cbn [encode]. rewrite Hk. unfold put, mbind, M_bind, Write.
  destruct (write [kind.Error] w) as [[n [er|]] w']; [done|].
  rewrite decide_True by done. unfold simpleToByte. rewrite Hk.
  rewrite 3 decide_False, decide_True by done. by destruct (m_Error m).
Qed.

(** Of a message of no known kind only the kind is written. *)
Lemma Encode_unknown_kind `{!FloatConv} {W} `{!IoWriter W} (e : Encoder) (m : Message) (h : heap) (w : W) :
  kind.Category (m_Kind m) = (-1)%Z ->
  Encode e m (h, w) = let '((n, err), w') := write [m_Kind m] w in (Ret (n, err), (h, w')).
Proof.
  intros Hk. unfold Encode.
  destruct (message.depth m) as [|d] eqn:Hd; [destruct m; by simpl in Hd|].
  cbn [encode]. rewrite Hk. unfold put, mbind, M_bind, Write.
  destruct (write [m_Kind m] w) as [[n [er|]] w']; done.
Qed.

(** * Properties *)

(** C1: [Encode] implements the wire format: of a message that represents a value
    it writes the bytes of that value, all of them with their number and a nil
    error, unless the writer fails, and then exactly the bytes in front of the
    failure with their number and the writer's error; no reader but the message's
    own is touched. *)
Theorem Encode_wire `{!FloatConv} {W} `{!IoWriter W, !IoWriterSpec W}
    (e : Encoder) (h : heap) (v : resp) (m : Message) (fp : list nat) (w : W) :
  rep h v m fp ->
  exists n err h' w', Encode e m (h, w) = (Ret (n, err), (h', w')) /\
    sends w (wire v) n err w' /\ untouched fp h h'.
Proof. intros Hr. by apply encode_writes_wire. Qed.

(** An outgoing command is sent as the array of its words: what
    [NewOutgoingCommand] builds, [Encode] writes as the array of bulk strings of
    its arguments, in their order, without touching any existing reader. *)
Theorem NewOutgoingCommand_wire `{!FloatConv} {W} `{!IoWriter W, !IoWriterSpec W}
    (e : Encoder) (args : list bytes) (h : heap) (w : W) :
  exists m h1 n err h2 w', protocol.NewOutgoingCommand args h = (Ret m, h1) /\
    Encode e m (h1, w) = (Ret (n, err), (h2, w')) /\
    sends w (wire (command args)) n err w' /\
    forall l, l < length (h_srcs h) -> src_at h2 l = src_at h l.
Proof.
  destruct (NewOutgoingCommand_rep args h) as (m & h1 & fp & E & R & L & S).
  destruct (encode_writes_wire (message.depth m) e h1 _ m fp w R ltac:(lia))
    as (n & err & h2 & w' & E2 & A & [_ U]).
  exists m, h1, n, err, h2, w'. split_and!; [done..|].
  intros l Hl. destruct (S l Hl) as [Hf Hs]. by rewrite U.
Qed.

(** An error message is never encoded: once its kind byte is written, [Encode]
    returns an error when the error of the message is set and panics when it is
    nil. *)
Theorem error_message_not_encodable `{!FloatConv} {W} `{!IoWriter W}
    (e : Encoder) (m : Message) (h : heap) (w : W) :
  m_Kind m = kind.Error ->
  Encode e m (h, w) =
    let '((n, err), w') := write [kind.Error] w in
    (match err, m_Error m with
     | Some er, _ => Ret (n, Some er)
     | None, Some _ => Ret (n, Some (Errorf "empty Error field for Error type message %s" []))
     | None, None => Panic nil_deref
     end, (h, w')).
Proof. apply Encode_error_message. Qed.

(** * Concrete runs *)

#[local] Existing Instance zero_floats.

(** The reply [*2 :7 $3 foo]: an integer and a bulk string read from source 0. *)
Definition sample_heap : heap := Heap [buffer_source (str "foo")] [].
Definition sample_message : Message :=
  message.Array [message.Int 7; message.BulkString (Some (RSrc 0)) 3].
Definition sample_value : resp := VSeq kind.Array [VInt 7; VBulk kind.BulkString (str "foo")].

Lemma sample_rep : rep sample_heap sample_value sample_message [0].
Proof.
  apply (rep_seq _ _ kind.Array _ [message.Int 7; message.BulkString (Some (RSrc 0)) 3]); try done.
  { left. }
  apply (reps_cons _ _ _ []); [by constructor| |by intros ? ?%elem_of_nil].
  apply (reps_cons _ _ _ [0] _ _ []); [|constructor|by intros ? _ ?%elem_of_nil].
  apply (rep_bulk _ _ _ _ [] 0); try done; [left|simpl; lia].
Qed.

Lemma Encode_wire_witness :
  exists n err h' w', Encode (MkEncoder 2 0) sample_message (sample_heap, MkBuffer []) =
      (Ret (n, err), (h', w')) /\
    sends (MkBuffer []) (wire sample_value) n err w' /\ untouched [0] sample_heap h'.
Proof. apply (Encode_wire (MkEncoder 2 0)). apply sample_rep. Defined.

(** The same message, evaluated. *)
Lemma sample_encoded :
  (Encode (MkEncoder 2 0) sample_message (sample_heap, MkBuffer [])).1 = Ret (17%Z, None) /\
  buf_bytes (Encode (MkEncoder 2 0) sample_message (sample_heap, MkBuffer [])).2.2 =
    str "*2" ++ kind.EOL ++ str ":7" ++ kind.EOL ++ str "$3" ++ kind.EOL ++ str "foo" ++ kind.EOL.
Proof. split; by vm_compute. Qed.

Lemma NewOutgoingCommand_wire_witness :
  exists m h1 n err h2 w',
    protocol.NewOutgoingCommand [str "SET"; str "k"; str "v"] sample_heap = (Ret m, h1) /\
    Encode (MkEncoder 0 0) m (h1, MkBuffer []) = (Ret (n, err), (h2, w')) /\
    sends (MkBuffer []) (wire (command [str "SET"; str "k"; str "v"])) n err w' /\
    forall l, l < length (h_srcs sample_heap) -> src_at h2 l = src_at sample_heap l.
Proof.
  apply (NewOutgoingCommand_wire (MkEncoder 0 0) [str "SET"; str "k"; str "v"] sample_heap (MkBuffer [])).
Defined.

Lemma error_message_not_encodable_witness :
  Encode (MkEncoder 0 0) (message.Error (str "ERR")) (sample_heap, MkBuffer []) =
    (Ret (1%Z, Some (Errorf "empty Error field for Error type message %s" [])),
     (sample_heap, MkBuffer [kind.Error])).
Proof.
  rewrite (error_message_not_encodable (MkEncoder 0 0) (message.Error (str "ERR")) sample_heap (MkBuffer []))
    by reflexivity. reflexivity.
Defined.
