(* ===== verification/Codec.v ===== *)
(** The two halves of the codec against each other: what a turn of [Iterate]
    builds from the bytes [Encode] writes, and what [Decode] makes of it. *)

From S2P Require Import Prelude GoBase GoStrconv GoIO Kind Message Decoder Encoder Wire.
From Stdlib Require Import Wf_nat.

Section codec.
Context `{!FloatConv}.

(** The simple values whose text can be read back: text that is not empty and
    has no line feed, and, for a double, whose decimal text denotes it. *)
Definition decodable (v : resp) : Prop :=
  match v with
  | VSimple s => s <> [] /\ x0a ∉ s
  | VInt i => int64_range i
  | VBool _ | VBig _ => True
  | VDouble f =>
      FormatFloat f <> [] /\ (x0a ∉ FormatFloat f) /\ ParseFloat (FormatFloat f) = inl f
  | _ => False
  end.

Lemma FormatInt_no_lf i : x0a ∉ FormatInt i.
Proof. intros [E|[d E]]%FormatInt_bytes; by vm_compute in E. Qed.

Lemma decodable_text v :
  decodable v -> exists k t, simple_text v = Some (k, t) /\ t <> [] /\ (x0a ∉ t) /\
    kind.Category k = kind.CategorySimple /\ wire v = [k] ++ t ++ kind.EOL.
Proof.
  destruct v; simpl; intros Hd; try done; do 2 eexists; (split; [done|]); split_and!;
    try (done || apply FormatInt_nonempty || apply FormatInt_no_lf || apply Hd).
  - by destruct b.
  - destruct b; refine (bool_decide_unpack _ _); by vm_compute.
Qed.

(** The message the loop body builds for a decodable value. *)
Lemma simple_message_rep h v k t :
  decodable v -> simple_text v = Some (k, t) ->
  exists m, simple_message k t = inl m /\
    forall n, rep h v (set_TotalMessageSize n m) [].
Proof.
  intros Hd Ht. destruct v; simpl in *; simplify_eq; unfold simple_message;
    repeat (rewrite decide_True by done || rewrite decide_False by done).
  - eexists. split; [done|]. by constructor.
  - rewrite ParseInt_FormatInt by done. eexists. split; [done|]. by constructor.
  - done.
  - rewrite ParseBool_FormatBool. eexists. split; [done|]. by constructor.
  - destruct Hd as (_ & _ & ->). eexists. split; [done|]. by constructor.
  - rewrite SetString_FormatInt. eexists. split; [done|]. by constructor.
Qed.

(** Reading the kind byte.  A source is ready when its next read returns data; a
    read that returns none is taken for the kind 0 and skipped by the loop. *)
Definition ready (h : heap) (l : nat) : Prop :=
  exists c cs, s_chunks (src_at h l) = c :: cs /\ c <> [].

Lemma read_kind l h k rest :
  l < length (h_srcs h) -> ready h l -> source_data (src_at h l) = k :: rest ->
  exists h1, reader_Read (RSrc l) 1 h = (Ret ([k], None), h1) /\ advanced l rest h h1.
Proof.
  intros Hl (c & cs & Hc & Hne) Hd.
  destruct (read_src_cases l 1 h)
    as [(p & d' & h1 & Er & Hp & Hs & Ha & Hsz)|(h1 & _ & Hs & _)]; [done|lia| |].
  2: { by rewrite Hs in Hd. }
  assert (p <> []) as Hpne.
  { simpl in Er. unfold read_source in Er. rewrite Hc in Er.
    destruct c as [|x c]; [done|]. destruct (_ <=? 1); by simplify_eq. }
  rewrite Hd in Hs. destruct p as [|y [|]]; [done| |simpl in Hp; lia].
  injection Hs as <- <-. apply reader_Read_ok in Er. eauto.
Qed.

Lemma Iterate_ready l h k rest :
  l < length (h_srcs h) -> source_data (src_at h l) = k :: rest ->
  exists h1, Iterate (RSrc l) h = Iterate (RSrc l) h1 /\ ready h1 l /\
    advanced l (k :: rest) h h1.
Proof.
  remember (source_size (src_at h l)) as n eqn:Hn. revert h Hn.
  induction n as [n IH] using lt_wf_ind. intros h -> Hl Hd.
  destruct (s_chunks (src_at h l)) as [|c cs] eqn:Hc.
  { unfold source_data in Hd. by rewrite Hc in Hd. }
  destruct c as [|x c].
  2: { exists h. split_and!; [done|by exists (x :: c), cs|].
       rewrite <- Hd. apply advanced_refl. }
  destruct (read_src_cases l 1 h)
    as [(p & d' & h1 & Er & Hp & Hs & Ha & Hsz)|(h1 & _ & Hs & _)]; [done|lia| |].
  2: { by rewrite Hs in Hd. }
  assert (p = []) as ->.
  { simpl in Er. unfold read_source in Er. rewrite Hc in Er. simpl in Er. by simplify_eq. }
  rewrite Hd, app_nil_l in Hs. subst d'.
  destruct (IH _ Hsz h1 eq_refl) as (h2 & E & Hr & Ha2).
  - by rewrite (adv_len _ _ _ _ Ha).
  - by rewrite (adv_data _ _ _ _ Ha).
  - exists h2. split_and!; [|done|by eapply advanced_trans].
    rewrite <- E. apply Iterate_built with (m := message.zero).
    by rewrite (decode_frame_read _ _ _ _ _ (reader_Read_ok _ _ _ _ _ Er)).
Qed.

(** A turn of the loop on a simple frame: from the bytes of a decodable value it
    builds a message that represents the value. *)
Lemma decode_frame_simple l h v rest :
  l < length (h_srcs h) -> ready h l -> decodable v ->
  source_data (src_at h l) = wire v ++ rest ->
  exists m h', decode_frame (RSrc l) h = (Ret (FrameBuilt m), h') /\
    rep h' v m [] /\ m_TotalMessageSize m = wrap64 (zlen (wire v)) /\ advanced l rest h h'.
Proof.
  intros Hl Hr Hv Hd. destruct (decodable_text v Hv) as (k & t & Ht & Hne & Hlf & Hc & Hw).
  rewrite Hw in Hd. simpl in Hd.
  destruct (read_kind l h k ((t ++ kind.EOL) ++ rest)) as (h1 & E1 & A1); [done..|].
  destruct (simpleUnmarshal_line l h1 t rest) as (h2 & E2 & A2); [| |done..|].
  { by rewrite (adv_len _ _ _ _ A1). }
  { by rewrite (adv_data _ _ _ _ A1), <- app_assoc. }
  destruct (simple_message_rep h2 v k t Hv Ht) as (m & Em & Hrep).
  exists (set_TotalMessageSize (wrap64 (1 + (zlen t + 2))) m), h2.
  split_and!; [|done| |by eapply advanced_trans].
  - rewrite (decode_frame_read _ _ _ _ _ E1). simpl. unfold decode_kind.
    rewrite decide_True by done. rewrite (bind_ret _ _ _ _ _ E2). by rewrite Em.
  - simpl. f_equal. rewrite Hw, !zlen_app. replace (zlen kind.EOL) with 2%Z by done.
    by replace (zlen [k]) with 1%Z by done.
Qed.

(** The iteration runs past a simple frame. *)
Lemma Iterate_skips l h v rest :
  l < length (h_srcs h) -> decodable v -> source_data (src_at h l) = wire v ++ rest ->
  exists h', Iterate (RSrc l) h = Iterate (RSrc l) h' /\ advanced l rest h h'.
Proof.
  intros Hl Hv Hd. pose proof (decodable_text v Hv) as (k & t & _ & _ & _ & _ & Hw).
  destruct (Iterate_ready l h k ((t ++ kind.EOL) ++ rest)) as (h1 & E1 & Hr & A1); [done| |].
  { by rewrite Hd, Hw. }
  destruct (decode_frame_simple l h1 v rest) as (m & h2 & E2 & _ & _ & A2); [|done..| |].
  { by rewrite (adv_len _ _ _ _ A1). }
  { by rewrite (adv_data _ _ _ _ A1), Hw. }
  exists h2. split; [|by eapply advanced_trans].
  rewrite E1. by eapply Iterate_built.
Qed.

(** What the loop does when nothing is left: it yields the error the source ended
    with, or waits for an open source. *)
Definition stopped (s : stop) : outcome (Message * option error) :=
  match s with Ended e => Ret (message.zero, Some e) | Open => Block end.

Lemma Iterate_end l h :
  l < length (h_srcs h) -> source_data (src_at h l) = [] ->
  exists h', Iterate (RSrc l) h = (stopped (s_end (src_at h l)), h') /\ advanced l [] h h'.
Proof.
  remember (source_size (src_at h l)) as n eqn:Hn. revert h Hn.
  induction n as [n IH] using lt_wf_ind. intros h -> Hl Hd.
  destruct (read_src_cases l 1 h)
    as [(p & d' & h1 & Er & Hp & Hs & Ha & Hsz)|(h1 & Er & Hs & Ha)]; [done|lia| |].
  - rewrite Hd in Hs. symmetry in Hs. apply app_eq_nil in Hs as [-> ->].
    destruct (IH _ Hsz h1 eq_refl) as (h2 & E & Ha2).
    { by rewrite (adv_len _ _ _ _ Ha). }
    { by rewrite (adv_data _ _ _ _ Ha). }
    exists h2. split; [|by eapply advanced_trans]. rewrite (adv_end _ _ _ _ Ha) in E. rewrite <- E.
    apply Iterate_built with (m := message.zero).
    by rewrite (decode_frame_read _ _ _ _ _ (reader_Read_ok _ _ _ _ _ Er)).
  - exists h1. split; [|done]. unfold Iterate. cbn [iterate_loop].
    unfold decode_frame, mbind, M_bind, reader_Read. rewrite Er.
    by destruct (s_end (src_at h l)).
Qed.

(** ** Bulk frames *)

(** Reading through an [io.LimitReader] that allows at least [length d] bytes. *)
Lemma read_full_loop_limit fuel j l k n got h d rest :
  l < length (h_srcs h) -> h_limits h !! j = Some n ->
  source_data (src_at h l) = d ++ rest -> k = length d -> (zlen d <= n)%Z ->
  source_size (src_at h l) < fuel ->
  exists h', read_full_loop fuel k (RLimit j (RSrc l)) got h = (Ret (got ++ d, None), h') /\
    source_data (src_at h' l) = rest /\ length (h_srcs h') = length (h_srcs h).
Proof.
  revert k n got h d.
  induction fuel as [|fuel IH]; intros k n got h d Hl Hj Hd -> Hn Hf; [lia|].
  cbn [read_full_loop]. destruct (Nat.eqb_spec (length d) 0) as [E|E].
  { apply nil_length_inv in E as ->. exists h. by rewrite app_nil_r. }
  unfold zlen in Hn.
  unfold mbind, M_bind, reader_Read. cbn [read]. rewrite Hj. simpl default.
  rewrite (proj2 (Z.leb_gt _ _)), (proj2 (Z.ltb_ge _ _)) by lia.
  destruct (read_src_cases l (length d) h)
    as [(p & d' & h1 & Er & Hp & Hs & Ha & Hsz)|(h1 & _ & Hs & _)]; [done|lia| |].
  2: { rewrite Hs in Hd. by destruct d. }
  cbn [read] in Er. rewrite Er.
  assert (exists k', d = p ++ k' /\ d' = k' ++ rest) as (k' & -> & ->).
  { rewrite Hd in Hs. apply app_eq_inv in Hs as [(k' & -> & ->)|(k' & -> & Hr)]; [by eauto|].
    rewrite length_app in Hp. destruct k'; [|simpl in Hp; lia].
    exists []. rewrite !app_nil_r. simpl in *. by subst. }
  assert (j < length (h_limits h1)) as Hjl.
  { rewrite (adv_limits _ _ _ _ Ha). by apply lookup_lt_Some in Hj. }
  rewrite length_app in *.
  destruct (IH (length k') (n - zlen p)%Z (got ++ p) (set_limit j (n - zlen p) h1) k')
    as (h' & E' & Hd' & Hl').
  - simpl. by rewrite (adv_len _ _ _ _ Ha).
  - simpl. by rewrite list_lookup_insert_eq.
  - rewrite src_at_set_limit. apply (adv_data _ _ _ _ Ha).
  - done.
  - unfold zlen. lia.
  - rewrite src_at_set_limit. lia.
  - exists h'. rewrite Nat.add_comm, Nat.add_sub, E', <- app_assoc.
    split_and!; [done..|]. rewrite Hl'. simpl. apply (adv_len _ _ _ _ Ha).
Qed.

Lemma ReadAll_limit m j l h d rest :
  m_Reader m = Some (RLimit j (RSrc l)) -> m_RunLength m = zlen d ->
  l < length (h_srcs h) -> h_limits h !! j = Some (zlen d) ->
  source_data (src_at h l) = d ++ rest ->
  exists h', message.ReadAll m h = (Ret (d, None), h') /\ source_data (src_at h' l) = rest.
Proof.
  intros Hr Hn Hl Hj Hd. unfold message.ReadAll. rewrite Hr, Hn.
  rewrite (proj2 (Z.ltb_ge _ _)) by apply zlen_nonneg.
  destruct (read_full_loop_limit (S (source_size (src_at h l))) j l (length d) (zlen d) [] h d rest)
    as (h' & E & Hd' & _); [auto with lia..|].
  exists h'. split; [|done]. unfold zlen. rewrite Nat2Z.id.
  by erewrite bind_ret by exact E.
Qed.

(** The kind and the run length of an aggregate. *)
Lemma decode_header l h k n rest :
  l < length (h_srcs h) -> ready h l -> kind.Category k = kind.CategoryAggregate -> int64_range n ->
  source_data (src_at h l) = [k] ++ FormatInt n ++ kind.EOL ++ rest ->
  exists h', advanced l rest h h' /\
    decode_frame (RSrc l) h =
      (if decide (k = kind.VerbatimString) then
         '(enc, size', err) ← simpleUnmarshal (RSrc l);
         match err with
         | Some e => mret (FrameYield message.zero (Some e))
         | None =>
             if negb (zlen enc =? 3)%Z then
               mret (FrameYield message.zero (Some (Errorf "invalid string size: %d" [])))
             else aggregate_message (RSrc l) k (zlen (FormatInt n) + 2) n enc 3
         end
       else aggregate_message (RSrc l) k (zlen (FormatInt n) + 2) n [x00; x00; x00] 0) h'.
Proof.
  intros Hl Hr Hc Hn Hd.
  destruct (read_kind l h k (FormatInt n ++ kind.EOL ++ rest)) as (h1 & E1 & A1); [done..|].
  destruct (simpleUnmarshal_line l h1 (FormatInt n) rest) as (h2 & E2 & A2).
  { by rewrite (adv_len _ _ _ _ A1). }
  { by rewrite (adv_data _ _ _ _ A1). }
  { apply FormatInt_nonempty. }
  { apply FormatInt_no_lf. }
  exists h2. split; [by eapply advanced_trans|].
  rewrite (decode_frame_read _ _ _ _ _ E1). cbn [default head]. unfold decode_kind.
  rewrite (decide_False (P := kind.Category k = kind.CategorySimple)) by (rewrite Hc; done).
  rewrite (decide_True (P := kind.Category k = kind.CategoryAggregate)) by done.
  rewrite (bind_ret _ _ _ _ _ E2), ParseInt_FormatInt by done. done.
Qed.

(** The message of an aggregate that has a reader. *)
Lemma aggregate_payload l h k size d rest enc extra :
  k ∈ [kind.VerbatimString; kind.BulkString; kind.BulkError] -> l < length (h_srcs h) ->
  source_data (src_at h l) = d ++ rest ->
  exists m h', aggregate_message (RSrc l) k size (zlen d) enc extra h = (Ret (FrameBuilt m), h') /\
    m_RunLength m = zlen d /\ m_Kind m = x00 /\ m_Encoding m = enc /\
    m_TotalMessageSize m = wrap64 (1 + size + zlen d + extra) /\
    exists h'', message.ReadAll m h' = (Ret (d, None), h'') /\ source_data (src_at h'' l) = rest.
Proof.
  intros Hk Hl Hd. unfold aggregate_message. rewrite decide_True by done. do 2 eexists. split_and!; try done.
  apply (ReadAll_limit _ (length (h_limits h)) l); try done; simpl.
  by rewrite lookup_app_r, Nat.sub_diag by lia.
Qed.

Lemma decode_frame_bulk l h k d rest :
  l < length (h_srcs h) -> ready h l -> k ∈ [kind.BulkString; kind.BulkError] ->
  int64_range (zlen d) ->
  source_data (src_at h l) = wire (VBulk k d) ++ rest ->
  exists m h', decode_frame (RSrc l) h = (Ret (FrameBuilt m), h') /\
    m_RunLength m = zlen d /\ m_Encoding m = [x00; x00; x00] /\ m_Kind m = x00 /\
    m_TotalMessageSize m = wrap64 (zlen (wire (VBulk k d)) - 2) /\
    exists h'', message.ReadAll m h' = (Ret (d, None), h'') /\
      source_data (src_at h'' l) = kind.EOL ++ rest.
Proof.
  intros Hl Hr Hk Hn Hd. pose proof (kind.bulk_kinds k Hk) as (Hin & Hc & Hv).
  destruct (decode_header l h k (zlen d) (d ++ kind.EOL ++ rest)) as (h1 & A1 & ->); [done..| |].
  { rewrite Hd. cbn [wire]. by rewrite <- !app_assoc. }
  rewrite decide_False by done.
  destruct (aggregate_payload l h1 k (zlen (FormatInt (zlen d)) + 2) d (kind.EOL ++ rest) [x00; x00; x00] 0)
    as (m & h2 & E & Hm & Hmk & Hen & Ht & Hread).
  - clear -Hin. revert k Hin. refine (byte_decide _ _). by vm_compute.
  - by rewrite (adv_len _ _ _ _ A1).
  - apply (adv_data _ _ _ _ A1).
  - exists m, h2. split_and!; try done. rewrite Ht. cbn [wire]. f_equal. rewrite !zlen_app.
    replace (zlen kind.EOL) with 2%Z by done. replace (zlen [k]) with 1%Z by done. lia.
Qed.

(** ** Verbatim strings *)

Lemma decode_frame_verbatim l h enc d rest :
  l < length (h_srcs h) -> ready h l -> zlen enc = 3%Z -> x0a ∉ enc -> int64_range (zlen d) ->
  source_data (src_at h l) = wire (VVerbatim enc d) ++ rest ->
  exists m h', decode_frame (RSrc l) h = (Ret (FrameBuilt m), h') /\
    m_RunLength m = zlen d /\ m_Encoding m = enc /\ m_Kind m = x00 /\
    m_TotalMessageSize m = wrap64 (zlen (wire (VVerbatim enc d)) - 4) /\
    exists h'', message.ReadAll m h' = (Ret (d, None), h'') /\
      source_data (src_at h'' l) = kind.EOL ++ rest.
Proof.
  intros Hl Hr He Hne Hn Hd.
  destruct (decode_header l h kind.VerbatimString (zlen d) (enc ++ kind.EOL ++ d ++ kind.EOL ++ rest))
    as (h1 & A1 & ->); [done..| |].
  { rewrite Hd. cbn [wire]. by rewrite <- !app_assoc. }
  rewrite decide_True by done.
  destruct (simpleUnmarshal_line l h1 enc (d ++ kind.EOL ++ rest)) as (h2 & E2 & A2).
  { by rewrite (adv_len _ _ _ _ A1). }
  { by rewrite (adv_data _ _ _ _ A1). }
  { by intros ->. }
  { done. }
  rewrite (bind_ret _ _ _ _ _ E2), He. cbn [negb Z.eqb Pos.eqb].
  destruct (aggregate_payload l h2 kind.VerbatimString (zlen (FormatInt (zlen d)) + 2) d (kind.EOL ++ rest) enc 3)
    as (m & h3 & E & Hm & Hmk & Hen & Ht & Hread).
  - left.
  - by rewrite (adv_len _ _ _ _ A2), (adv_len _ _ _ _ A1).
  - apply (adv_data _ _ _ _ A2).
  - exists m, h3. split_and!; try done. rewrite Ht. cbn [wire]. f_equal. rewrite !zlen_app, He.
    replace (zlen kind.EOL) with 2%Z by done. replace (zlen [kind.VerbatimString]) with 1%Z by done. lia.
Qed.

(** ** Sequences and maps *)

(** The message of a sequence or a map refers to the reader it was read from. *)
Lemma decode_frame_open l h k n rest :
  l < length (h_srcs h) -> ready h l ->
  k ∈ [kind.Array; kind.Set_; kind.Push; kind.Map; kind.Attribute] -> int64_range n ->
  source_data (src_at h l) = [k] ++ FormatInt n ++ kind.EOL ++ rest ->
  let seq := if (0 <? n)%Z then Some (IterDecode (RSrc l)) else None in
  exists m h', decode_frame (RSrc l) h = (Ret (FrameBuilt m), h') /\ advanced l rest h h' /\
    m_RunLength m = n /\ m_Kind m = x00 /\
    (m_Seq m, m_Assoc m) =
      (if decide (k ∈ [kind.Map; kind.Attribute]) then (None, AssocChunk <$> seq) else (seq, None)).
Proof.
  intros Hl Hr Hk Hn Hd seq.
  assert (kind.Category k = kind.CategoryAggregate /\ k <> kind.VerbatimString /\
    (k ∉ [kind.VerbatimString; kind.BulkString; kind.BulkError]) /\
    (k ∈ [kind.Array; kind.Set_; kind.Push] <-> k ∉ [kind.Map; kind.Attribute])) as (Hc & Hv & Hb & Hsm).
  { clear -Hk. revert k Hk. refine (byte_decide _ _). by vm_compute. }
  destruct (decode_header l h k n rest) as (h1 & A1 & ->); [done..|].
  rewrite decide_False by done. unfold aggregate_message. rewrite decide_False by done.
  destruct (decide (k ∈ [kind.Map; kind.Attribute])) as [Hm|Hm].
  - rewrite decide_False by (by rewrite Hsm; intros []). do 2 eexists. split_and!; [reflexivity|done..|].
    cbn [m_Seq m_Assoc]. subst seq. by destruct (0 <? n)%Z.
  - rewrite decide_True by by apply Hsm. do 2 eexists. by split_and!.
Qed.

End codec.

(** * Properties *)

(** C7: round trip of the simple types, one frame at a time: from the bytes
    [Encode] writes for an int64, a bool, a big number, a non-empty simple string
    without a line feed, or a double whose text denotes it, a turn of [Iterate]
    builds a message that represents the same value, records the length of the
    frame (as an int64) and consumes exactly the frame. *)
Theorem simple_frame_roundtrip `{!FloatConv} l h v rest :
  l < length (h_srcs h) -> ready h l -> decodable v ->
  source_data (src_at h l) = wire v ++ rest ->
  exists m h', decode_frame (RSrc l) h = (Ret (FrameBuilt m), h') /\
    rep h' v m [] /\ m_TotalMessageSize m = wrap64 (zlen (wire v)) /\ advanced l rest h h'.
Proof. apply decode_frame_simple. Qed.

(** The values with a payload: the encoding a reader finds in the message, the
    payload, and by how much the recorded size falls short of the frame. *)
Definition payload_of (v : resp) : option (bytes * bytes * Z) :=
  match v with
  | VBulk k d =>
      if decide (k ∈ [kind.BulkString; kind.BulkError]) then Some ([x00; x00; x00], d, 2%Z) else None
  | VVerbatim enc d => if decide (zlen enc = 3%Z /\ x0a ∉ enc) then Some (enc, d, 4%Z) else None
  | _ => None
  end.

(** C13: round trip of a bulk string, a bulk error or a verbatim string with an
    encoding of three bytes: the turn of [Iterate] that reads the frame builds a
    message with that encoding whose [ReadAll] returns the payload that was encoded,
    leaving the line end after it unread.  The message carries no kind, and its
    [TotalMessageSize] is two short of the length of the frame, four short for a
    verbatim string. *)
Theorem payload_frame_roundtrip `{!FloatConv} l h v enc d short rest :
  l < length (h_srcs h) -> ready h l -> payload_of v = Some (enc, d, short) ->
  int64_range (zlen d) ->
  source_data (src_at h l) = wire v ++ rest ->
  exists m h', decode_frame (RSrc l) h = (Ret (FrameBuilt m), h') /\
    m_RunLength m = zlen d /\ m_Encoding m = enc /\ m_Kind m = x00 /\
    m_TotalMessageSize m = wrap64 (zlen (wire v) - short) /\
    exists h'', message.ReadAll m h' = (Ret (d, None), h'') /\
      source_data (src_at h'' l) = kind.EOL ++ rest.
Proof.
  intros Hl Hr Hv Hn Hd. destruct v; try discriminate Hv; cbn [payload_of] in Hv;
    case_decide; try discriminate Hv; injection Hv as <- <- <-.
  - by apply decode_frame_bulk.
  - destruct_and!. by apply decode_frame_verbatim.
Qed.

(** The frame of an array, set, push, map or attribute is opened, not read: the
    turn of [Iterate] consumes the kind and the number of elements, and the message
    it builds refers to the reader for its elements.  Ranging over them calls
    the body once, with the zero message, or waits for the stream. *)
Theorem sequence_frame_opens `{!FloatConv} l h v k n vs rest :
  l < length (h_srcs h) -> ready h l ->
  (k ∈ [kind.Array; kind.Set_; kind.Push] /\ v = VSeq k vs /\ n = zlen vs \/
   k ∈ [kind.Map; kind.Attribute] /\ v = VMap k vs /\ n = (zlen vs / 2)%Z) ->
  (0 < n)%Z -> int64_range n ->
  source_data (src_at h l) = wire v ++ rest ->
  exists m h', decode_frame (RSrc l) h = (Ret (FrameBuilt m), h') /\
    advanced l (concat (wire <$> vs) ++ rest) h h' /\
    m_RunLength m = n /\ m_Kind m = x00 /\
    (m_Seq m = Some (IterDecode (RSrc l)) \/ m_Assoc m = Some (AssocChunk (IterDecode (RSrc l)))) /\
    ((exists err h'', Iterate (RSrc l) h' = (Ret (message.zero, err), h'')) \/
     (exists h'', Iterate (RSrc l) h' = (Block, h'') /\ starved l h'')).
Proof.
  intros Hl Hr Hv H0 Hn Hd.
  assert (k ∈ [kind.Array; kind.Set_; kind.Push; kind.Map; kind.Attribute] /\
    source_data (src_at h l) = [k] ++ FormatInt n ++ kind.EOL ++ concat (wire <$> vs) ++ rest)
    as [Hk Hd'].
  { rewrite Hd. destruct Hv as [(Hk & -> & ->)|(Hk & -> & ->)]; cbn [wire]; rewrite <- !app_assoc;
      split; try done; apply (elem_of_app [kind.Array; kind.Set_; kind.Push]); auto. }
  destruct (decode_frame_open l h k n (concat (wire <$> vs) ++ rest))
    as (m & h1 & E & A & Hrl & Hmk & Hs); [done..|].
  exists m, h1. split_and!; try done; [|apply Iterate_cases].
  rewrite (proj2 (Z.ltb_lt 0 n)) in Hs by done. case_decide; simplify_eq/=; auto.
Qed.

(** A stream of any number of well-formed simple messages is read to its end. *)
Lemma Decode_drops_stream `{!FloatConv} l h vs :
  l < length (h_srcs h) -> Forall decodable vs ->
  source_data (src_at h l) = concat (wire <$> vs) ->
  exists h', Decode (RSrc l) h = (stopped (s_end (src_at h l)), h') /\ advanced l [] h h'.
Proof.
  rewrite Decode_Iterate. intros Hl Hvs. revert h Hl.
  induction Hvs as [|v vs Hv Hvs IH]; intros h Hl Hd; [by apply Iterate_end|].
  destruct (Iterate_skips l h v (concat (wire <$> vs))) as (h1 & -> & A1); [done..|].
  rewrite <- (adv_end _ _ _ _ A1).
  destruct (IH h1) as (h2 & E & A2).
  - by rewrite (adv_len _ _ _ _ A1).
  - apply (adv_data _ _ _ _ A1).
  - exists h2. split; [done|by eapply advanced_trans].
Qed.

(** C38: [Decode] never delivers a message.  On every reader it returns the zero
    message, with or without an error, or it waits for more, with everything its
    source has delivered consumed.  On a stream of well-formed simple messages,
    however many, it reads all of them and returns none: it returns the error the
    stream ended with, and while the stream is open it does not return. *)
Theorem Decode_delivers_nothing `{!FloatConv} h :
  (forall r, (exists err h', Decode r h = (Ret (message.zero, err), h')) \/
             (exists h', Decode r h = (Block, h') /\ starved (reader_src r) h')) /\
  (forall l vs, l < length (h_srcs h) -> Forall decodable vs ->
     source_data (src_at h l) = concat (wire <$> vs) ->
     exists h', advanced l [] h h' /\
       Decode (RSrc l) h =
         (match s_end (src_at h l) with
          | Ended e => Ret (message.zero, Some e)
          | Open => Block
          end, h')).
Proof.
  split.
  - intros r. rewrite Decode_Iterate. apply Iterate_cases.
  - intros l vs Hl Hv Hd. destruct (Decode_drops_stream l h vs Hl Hv Hd) as (h' & E & A). eauto.
Qed.

(** The null message as [Encode] writes it cannot be read back on its own: the
    turn of [Iterate] that reads it also consumes the whole line that follows. *)
Theorem null_frame_swallows_line `{!FloatConv} l h s rest :
  l < length (h_srcs h) -> ready h l -> x0a ∉ s ->
  source_data (src_at h l) = wire VNull ++ s ++ kind.EOL ++ rest ->
  exists m h', decode_frame (RSrc l) h = (Ret (FrameBuilt m), h') /\
    m_Kind m = kind.Null /\ advanced l rest h h'.
Proof.
  intros Hl Hr Hs Hd.
  destruct (read_kind l h kind.Null (kind.EOL ++ s ++ kind.EOL ++ rest)) as (h1 & E1 & A1);
    [done..|].
  destruct (simpleUnmarshal_empty_line l h1 s rest) as (h2 & E2 & A2); [| |done|].
  { by rewrite (adv_len _ _ _ _ A1). }
  { apply (adv_data _ _ _ _ A1). }
  do 2 eexists. rewrite (decode_frame_read _ _ _ _ _ E1). cbn [default head].
  unfold decode_kind. rewrite decide_True by done.
  rewrite (bind_ret _ _ _ _ _ E2).
  split_and!; [reflexivity|done|by eapply advanced_trans].
Qed.

(** A big number whose text is not a number makes [Decode] return a nil error
    with the zero message. *)
Theorem bad_bignumber_decodes_without_error `{!FloatConv} l h s rest :
  l < length (h_srcs h) -> s <> [] -> x0a ∉ s -> SetString s = None ->
  source_data (src_at h l) = [kind.BigNumber] ++ s ++ kind.EOL ++ rest ->
  exists h', Decode (RSrc l) h = (Ret (message.zero, None), h') /\ advanced l rest h h'.
Proof.
  rewrite Decode_Iterate. intros Hl Hne Hlf Hbad Hd.
  destruct (Iterate_ready l h kind.BigNumber (s ++ kind.EOL ++ rest)) as (h0 & -> & Hr & A0);
    [done..|].
  destruct (read_kind l h0 kind.BigNumber (s ++ kind.EOL ++ rest)) as (h1 & E1 & A1).
  { by rewrite (adv_len _ _ _ _ A0). }
  { done. }
  { apply (adv_data _ _ _ _ A0). }
  destruct (simpleUnmarshal_line l h1 s rest) as (h2 & E2 & A2); [| |done..|].
  { by rewrite (adv_len _ _ _ _ A1), (adv_len _ _ _ _ A0). }
  { apply (adv_data _ _ _ _ A1). }
  exists h2. split; [|by eapply advanced_trans; [|eapply advanced_trans]].
  unfold Iterate. cbn [iterate_loop].
  erewrite bind_ret; [|rewrite (decode_frame_read _ _ _ _ _ E1); cbn [default head];
    unfold decode_kind; rewrite decide_True by done; rewrite (bind_ret _ _ _ _ _ E2);
    unfold simple_message; rewrite 6 decide_False, decide_True, Hbad by done; reflexivity].
  done.
Qed.

(** * Concrete frames *)

#[local] Existing Instance zero_floats.

(** A heap whose source 0 delivers the given bytes, the first one on its own. *)
Definition stream_until (e : stop) (d : bytes) : heap := Heap [Source [take 1 d; drop 1 d] e] [].
Definition stream (d : bytes) : heap := stream_until (Ended EOF) d.

Lemma stream_ready b d : ready (stream (b :: d)) 0.
Proof. by exists [b], [d]. Qed.

Lemma simple_frame_roundtrip_witness :
  exists m h', decode_frame (RSrc 0) (stream (wire (VInt (-42)) ++ str "+OK")) = (Ret (FrameBuilt m), h') /\
    rep h' (VInt (-42)) m [] /\ m_TotalMessageSize m = wrap64 (zlen (wire (VInt (-42)))) /\
    advanced 0 (str "+OK") (stream (wire (VInt (-42)) ++ str "+OK")) h'.
Proof.
  apply (simple_frame_roundtrip 0 (stream (wire (VInt (-42)) ++ str "+OK")) (VInt (-42)) (str "+OK")).
  - simpl. lia.
  - apply stream_ready.
  - by vm_compute.
  - by vm_compute.
Defined.

Definition verbatim_frame : resp := VVerbatim (str "txt") (str "foo").

Lemma payload_frame_roundtrip_witness :
  exists m h', decode_frame (RSrc 0) (stream (wire verbatim_frame ++ str ":1")) = (Ret (FrameBuilt m), h') /\
    m_RunLength m = zlen (str "foo") /\ m_Encoding m = str "txt" /\ m_Kind m = x00 /\
    m_TotalMessageSize m = wrap64 (zlen (wire verbatim_frame) - 4) /\
    exists h'', message.ReadAll m h' = (Ret (str "foo", None), h'') /\
      source_data (src_at h'' 0) = kind.EOL ++ str ":1".
Proof.
  apply (payload_frame_roundtrip 0 (stream (wire verbatim_frame ++ str ":1")) verbatim_frame
           (str "txt") (str "foo") 4 (str ":1")).
  - simpl. lia.
  - apply stream_ready.
  - by vm_compute.
  - by vm_compute.
  - by vm_compute.
Defined.

Example bulk_has_payload :
  payload_of (VBulk kind.BulkString (str "foo")) = Some ([x00; x00; x00], str "foo", 2%Z).
Proof. by vm_compute. Qed.

Definition map_frame : resp := VMap kind.Map [VSimple (str "k"); VInt 1].

Lemma sequence_frame_opens_witness :
  exists m h', decode_frame (RSrc 0) (stream (wire map_frame ++ str "+OK")) = (Ret (FrameBuilt m), h') /\
    advanced 0 (concat (wire <$> [VSimple (str "k"); VInt 1]) ++ str "+OK")
      (stream (wire map_frame ++ str "+OK")) h' /\
    m_RunLength m = 1%Z /\ m_Kind m = x00 /\
    (m_Seq m = Some (IterDecode (RSrc 0)) \/ m_Assoc m = Some (AssocChunk (IterDecode (RSrc 0)))) /\
    ((exists err h'', Iterate (RSrc 0) h' = (Ret (message.zero, err), h'')) \/
     (exists h'', Iterate (RSrc 0) h' = (Block, h'') /\ starved 0 h'')).
Proof.
  apply (sequence_frame_opens 0 (stream (wire map_frame ++ str "+OK")) map_frame kind.Map 1
           [VSimple (str "k"); VInt 1] (str "+OK")); [simpl; lia|apply stream_ready| |done|done|].
  - right. split_and!; [left|done..].
  - by vm_compute.
Defined.

Definition three_values : list resp := [VInt 1; VBool true; VSimple (str "OK")].

(** Three messages on a connection that stays open: [Decode] takes them and waits. *)
Lemma Decode_delivers_nothing_witness :
  exists h', advanced 0 [] (stream_until Open (concat (wire <$> three_values))) h' /\
    Decode (RSrc 0) (stream_until Open (concat (wire <$> three_values))) = (Block, h').
Proof.
  apply (proj2 (Decode_delivers_nothing (stream_until Open (concat (wire <$> three_values)))) 0 three_values).
  - simpl. lia.
  - repeat constructor; try done. refine (bool_decide_unpack _ _). by vm_compute.
  - by vm_compute.
Defined.

Definition null_stream : heap := stream (wire VNull ++ str "+PONG" ++ kind.EOL ++ str ":1").

Lemma null_frame_swallows_line_witness :
  exists m h', decode_frame (RSrc 0) null_stream = (Ret (FrameBuilt m), h') /\
    m_Kind m = kind.Null /\ advanced 0 (str ":1") null_stream h'.
Proof.
  apply (null_frame_swallows_line 0 null_stream (str "+PONG") (str ":1")).
  - simpl. lia.
  - apply stream_ready.
  - refine (bool_decide_unpack _ _). by vm_compute.
  - by vm_compute.
Defined.

Definition bad_stream : heap := stream ([kind.BigNumber] ++ str "12x" ++ kind.EOL ++ str ":1").

Lemma bad_bignumber_decodes_without_error_witness :
  exists h', Decode (RSrc 0) bad_stream = (Ret (message.zero, None), h') /\
    advanced 0 (str ":1") bad_stream h'.
Proof.
  apply (bad_bignumber_decodes_without_error 0 bad_stream (str "12x") (str ":1")).
  - simpl. lia.
  - done.
  - refine (bool_decide_unpack _ _). by vm_compute.
  - by vm_compute.
  - by vm_compute.
Defined.
