(* ===== verification/MessageString.v ===== *)
(** The text of a message for logs (src/protocol/message/message.go): [String] and
    [string], against a reference text of the values of [Wire].  Ranging over a
    sequence runs its iterator, so that printing is a computation on the heap of
    readers and not a pure function. *)

From S2P Require Import Prelude GoBase GoStrings GoStrconv GoIO Kind Message Decoder Encoder Wire.
From Stdlib Require Import Wf_nat SpecFloat.

(** What [fmt] and the error types of the libraries print: the text of an [error],
    and [%v] of a float64. *)
Class Texts := {
  error_text : error -> bytes;     (** [err.Error()] *)
  float_text : float64 -> bytes;   (** [fmt.Sprintf("%v", f)] *)
}.

(** [string(m.Kind)]: an integer converted to a string is the rune of that number
    in UTF-8, two bytes from 128 on. *)
Definition string_of_kind (k : byte) : bytes :=
  let n := byte_val k in
  if (n <? 128)%Z then [k]
  else [to_byte (192 + Z.shiftr n 6); to_byte (128 + Z.land n 63)].

Section string.
Context `{!FloatConv, !Texts}.

(** [String], given [string]. *)
Definition String_with (string_ : Message -> M (heap * unit) bytes) (m : Message) : M (heap * unit) bytes :=
  s ← string_ m;
  mret (string_of_kind (m_Kind m) ++ s).

(** The bodies of the loops over [m.Seq] and [m.Assoc]. *)
Definition string_elem (String_ : Message -> M (heap * unit) bytes)
    (s : list bytes) (msg : Message) (err : option error) : M (heap * unit) (list bytes + Empty_set) :=
  match err with
  | None => t ← String_ msg; mret (inl (s ++ [t]))
  | Some e => mret (inl (s ++ [str "!ERR:" ++ error_text e]))
  end.

Definition string_pair (String_ : Message -> M (heap * unit) bytes)
    (s : list bytes) (pair : Message * Message) (err : option error) : M (heap * unit) (list bytes + Empty_set) :=
  match err with
  | None =>
      k ← String_ pair.1;
      v ← String_ pair.2;
      mret (inl (s ++ [k ++ str ": " ++ v]))
  | Some e => mret (inl (s ++ [str "!ERR:" ++ error_text e]))
  end.

Definition collected (res : list bytes + Empty_set) : list bytes :=
  match res with inl s => s | inr e => match e with end end.

(** [string]; the fuel bounds the nesting of messages. *)
Fixpoint string_ (fuel : nat) (m : Message) : M (heap * unit) bytes :=
  match fuel with
  | O => out_of_fuel
  | S fuel =>
      let k := m_Kind m in
      if decide (k = kind.SimpleString) then mret (m_SimpleString m)
      else if decide (k = kind.Error) then
        match m_Error m with
        | Some e => mret (error_text e)
        | None => panic nil_deref
        end
      else if decide (k = kind.Int) then mret (FormatInt (m_Int m))
      else if decide (k = kind.Array) then
        match m_Seq m with
        | None => panic nil_deref
        | Some sq =>
            s ← range_iter sq (string_elem (String_with (string_ fuel))) [];
            mret (Join (collected s) (str " "))
        end
      else if decide (k = kind.Map) then
        match m_Assoc m with
        | None => panic nil_deref
        | Some a =>
            s ← range_assoc a (string_pair (String_with (string_ fuel))) [];
            mret (str "{" ++ Join (collected s) (str " ") ++ str "}")
        end
      else if decide (k = kind.Bool) then mret (FormatBool (m_Bool m))
      else if decide (k = kind.Double) then mret (float_text (m_Double m))
      else if decide (k = kind.BigNumber) then
        mret (match m_BigNumber m with Some i => FormatInt i | None => str "<nil>" end)
      else if decide (k = kind.VerbatimString) then mret (m_SimpleString m)
      else mret (str "Unknown " ++ kind.String_ k)
  end.

Definition String_ (m : Message) : M heap bytes := fun h =>
  let '(o, (h', _)) := String_with (string_ (message.depth m)) m (h, tt) in (o, h').

(** * Printing ends, or waits for a stream the message draws from *)

Definition prints (L : list nat) (n : nat) (f : Message -> M (heap * unit) bytes) : Prop :=
  forall m st, within n L m -> safe (waiting L) (f m) st (fun _ _ => True).

Lemma String_with_prints L n f : prints L n f -> prints L n (String_with f).
Proof.
  intros Hf m st Hm. unfold String_with. apply safe_bind.
  eapply safe_mono; [by apply Hf|]. intros t st' _. by apply safe_ret.
Qed.

Definition any_text : list bytes -> unit -> Prop := fun _ _ => True.
Definition no_return : Empty_set -> unit -> Prop := fun _ _ => True.

Lemma string_elem_safe L n f s m err st :
  prints L n f -> within n L m ->
  safe (waiting L) (string_elem f s m err) st (loop_post any_text no_return).
Proof.
  intros Hf Hm. unfold string_elem. destruct err as [e|]; [by apply safe_ret|].
  apply safe_bind. eapply safe_mono; [by apply Hf|]. intros t st' _. by apply safe_ret.
Qed.

Lemma string_pair_safe L n f s k v err st :
  prints L n f -> within n L k -> within n L v ->
  safe (waiting L) (string_pair f s (k, v) err) st (loop_post any_text no_return).
Proof.
  intros Hf Hk Hv. unfold string_pair. destruct err as [e|]; [by apply safe_ret|].
  apply safe_bind. eapply safe_mono; [by apply Hf|]. intros t st' _.
  apply safe_bind. eapply safe_mono; [by apply Hf|]. intros t' st'' _. by apply safe_ret.
Qed.

Lemma range_string_safe L {A} (m : M (heap * unit) A) (g : A -> bytes) st Q :
  safe (waiting L) m st Q -> safe (waiting L) (s ← m; mret (g s)) st (fun _ _ => True).
Proof.
  intros Hm. apply safe_bind. eapply safe_mono; [exact Hm|]. intros a st' _. by apply safe_ret.
Qed.

Lemma string_prints L fuel : prints L fuel (string_ fuel).
Proof.
  induction fuel as [|fuel IH]; intros m st Hd.
  { destruct Hd as [Hd _]. destruct m; simpl in Hd; lia. }
  apply String_with_prints in IH. cbn [string_].
  repeat case_decide; try by apply safe_ret.
  - destruct (m_Error m); [by apply safe_ret|by apply safe_panic].
  - destruct (m_Seq m) as [sq|] eqn:Es; [|by apply safe_panic].
    eapply range_string_safe.
    apply (range_iter_safe (within fuel L) L any_text no_return);
      [|by eapply within_seq|done].
    intros. by eapply string_elem_safe.
  - destruct (m_Assoc m) as [a|] eqn:Ea; [|by apply safe_panic].
    destruct (decide (fuel = 0)) as [->|Hn].
    { destruct Hd as [Hd _]. destruct m as [? ? ? ? ? ? ? ? ? ? ? sq asc]; simpl in *; subst.
      destruct a as [[|x l]|s]; simpl in *; [by apply safe_ret| |lia].
      destruct x; simpl in *; lia. }
    eapply range_string_safe.
    apply (range_assoc_safe (within fuel L) L any_text no_return);
      [|split; [simpl; lia|apply list_subseteq_nil]|by eapply within_assoc|done].
    intros. by eapply string_pair_safe.
Qed.

(** * The reference text *)

Fixpoint pair_texts (l : list bytes) : list bytes :=
  match l with
  | k :: v :: l => (k ++ str ": " ++ v) :: pair_texts l
  | _ => []
  end.

Definition tagged (k : byte) (t : bytes) : bytes := string_of_kind k ++ t.

Definition unknown (k : byte) : bytes := tagged k (str "Unknown " ++ kind.Humanize k).

Fixpoint show (v : resp) : bytes :=
  match v with
  | VSimple s => tagged kind.SimpleString s
  | VInt i => tagged kind.Int (FormatInt i)
  | VNull => unknown kind.Null
  | VBool b => tagged kind.Bool (FormatBool b)
  | VDouble f => tagged kind.Double (float_text f)
  | VBig i => tagged kind.BigNumber (FormatInt i)
  | VBulk k _ => unknown k
  | VVerbatim _ _ => tagged kind.VerbatimString []
  | VSeq k vs =>
      if decide (k = kind.Array) then tagged k (Join (show <$> vs) (str " ")) else unknown k
  | VMap k kvs =>
      if decide (k = kind.Map)
      then tagged k (str "{" ++ Join (pair_texts (show <$> kvs)) (str " ") ++ str "}")
      else unknown k
  end.

(** A verbatim string prints the [SimpleString] field, which neither the constructor
    nor the decoder sets. *)
Fixpoint plain (m : Message) : Prop :=
  match m with
  | MkMessage k s _ _ _ _ _ _ _ _ _ sq asc =>
      (k = kind.VerbatimString -> s = []) /\
      match sq with
      | Some (IterList l) => fold_right (fun x P => plain x /\ P) True l
      | _ => True
      end /\
      match asc with
      | Some (AssocList l) => fold_right (fun x P => plain x /\ P) True l
      | _ => True
      end
  end.

Lemma plain_all l : fold_right (fun x P => plain x /\ P) True l <-> Forall plain l.
Proof.
  induction l as [|x l IH]; simpl; [done|]. by rewrite Forall_cons, IH.
Qed.

Lemma plain_inv m :
  plain m -> (m_Kind m = kind.VerbatimString -> m_SimpleString m = []) /\
  (forall ms, m_Seq m = Some (IterList ms) -> Forall plain ms) /\
  (forall ms, m_Assoc m = Some (AssocList ms) -> Forall plain ms).
Proof.
  destruct m as [? ? ? ? ? ? ? ? ? ? ? sq asc]. simpl. intros (Hk & Hs & Ha).
  split_and!; [done| |]; intros ms ->; by apply plain_all.
Qed.

(** [shows n f]: on messages nested at most [n] deep, [f] returns the reference text
    and leaves every reader alone. *)
Definition shows (n : nat) (f : Message -> M (heap * unit) bytes) : Prop :=
  forall h v m fp, rep h v m fp -> plain m -> message.depth m <= n ->
  f m (h, tt) = (Ret (show v), (h, tt)).

Lemma range_list_shows n f h vs ms fp acc :
  shows n f -> reps h vs ms fp -> Forall plain ms -> Forall (fun m => message.depth m <= n) ms ->
  range_list (string_elem f) ms acc (h, tt) = (Ret (inl (acc ++ (show <$> vs))), (h, tt)).
Proof.
  intros Hf. revert vs fp acc. induction ms as [|m ms IH]; intros vs fp acc Hr Hp Hd;
    inversion Hr as [|v ? fp1 vs1 ? fps R1 Rs]; subst.
  { simpl. by rewrite app_nil_r. }
  apply Forall_cons in Hp as [Hp Hps]. apply Forall_cons in Hd as [Hd Hds].
  cbn [range_list]. rewrite (bind_ret _ _ _ (h, tt) (inl (acc ++ [show v]))).
  2:{ unfold string_elem. by rewrite (bind_ret _ _ _ _ _ (Hf h v m fp1 R1 Hp Hd)). }
  rewrite (IH _ _ (acc ++ [show v]) Rs Hps Hds). cbn [fmap list_fmap]. by rewrite <- app_assoc.
Qed.

Lemma range_pairs_shows n f h vs ms fp acc :
  shows n f -> reps h vs ms fp -> Forall plain ms -> Forall (fun m => message.depth m <= n) ms ->
  range_pairs (string_pair f) ms acc (h, tt) =
    (Ret (inl (acc ++ pair_texts (show <$> vs))), (h, tt)).
Proof.
  intros Hf. revert vs fp acc.
  induction ms as [ms IH] using (induction_ltof1 _ (@length Message)). unfold ltof in IH.
  intros vs fp acc Hr Hp Hd.
  destruct ms as [|m1 [|m2 ms]]; inversion Hr as [|v1 ? fp1 vs1 ? fps1 R1 Rs1]; subst.
  { simpl. by rewrite app_nil_r. }
  { inversion Rs1; subst. simpl. by rewrite app_nil_r. }
  inversion Rs1 as [|v2 ? fp2 vs2 ? fps2 R2 Rs2]; subst.
  rewrite !Forall_cons in Hp, Hd. destruct Hp as (Hp1 & Hp2 & Hps), Hd as (Hd1 & Hd2 & Hds).
  cbn [range_pairs].
  rewrite (bind_ret _ _ _ (h, tt) (inl (acc ++ [show v1 ++ str ": " ++ show v2]))).
  2:{ unfold string_pair. cbn [fst snd]. rewrite (bind_ret _ _ _ _ _ (Hf h v1 m1 fp1 R1 Hp1 Hd1)).
      by rewrite (bind_ret _ _ _ _ _ (Hf h v2 m2 fp2 R2 Hp2 Hd2)). }
  rewrite (IH ms ltac:(simpl; lia) _ _ _ Rs2 Hps Hds). cbn [fmap list_fmap pair_texts].
  by rewrite <- app_assoc.
Qed.

(** The kinds that have no case of their own. *)
Definition uncased : list byte :=
  [kind.Null; kind.BulkString; kind.BulkError; kind.Push; kind.Set_; kind.Attribute].

Lemma uncased_kinds k :
  (k ∈ [kind.BulkString; kind.BulkError] -> k ∈ uncased) /\
  (k ∈ [kind.Array; kind.Push; kind.Set_] -> k <> kind.Array -> k ∈ uncased) /\
  (k ∈ [kind.Map; kind.Attribute] -> k <> kind.Map -> k ∈ uncased).
Proof. revert k. refine (byte_decide _ _). by vm_compute. Qed.

Lemma no_case k :
  k ∈ uncased ->
  k ∉ [kind.SimpleString; kind.Error; kind.Int; kind.Array; kind.Map; kind.Bool; kind.Double;
       kind.BigNumber; kind.VerbatimString].
Proof. revert k. refine (byte_decide _ _). by vm_compute. Qed.

Lemma string_unknown fuel m st :
  m_Kind m ∈ uncased ->
  String_with (string_ (S fuel)) m st = (Ret (unknown (m_Kind m)), st).
Proof.
  intros Hk%no_case. unfold String_with. cbn [string_].
  repeat (rewrite decide_False by (intros E; apply Hk; rewrite E;
    repeat (first [left | right]))).
  done.
Qed.

Lemma string_shows fuel : shows fuel (String_with (string_ fuel)).
Proof.
  induction fuel as [|fuel IH]; intros h v m fp Hr Hp Hd.
  { destruct m; simpl in Hd; lia. }
  destruct (plain_inv m Hp) as (Hv & Hps & Hpa). destruct (depth_list m fuel Hd) as [Ds Da].
  destruct Hr as [m s Hk Hs|m i Hk Hi|m Hk|m b Hk Hb|m f Hk Hf|m i Hk Hi
    |m k d rest l Hk Hin|m enc d rest l Hk|m k vs ms fp Hk Hin Hn Hs Hrs|m k vs ms fp Hk Hin He Hn Ha Hrs].
  1-2,4-6: unfold String_with; cbn [string_]; rewrite Hk; simpl; by simplify_eq/=;
    rewrite ?Hi.
  - rewrite string_unknown, Hk; [done|]. rewrite Hk. left.
  - rewrite string_unknown, Hk; [done|]. rewrite Hk. by apply (proj1 (uncased_kinds k)).
  - unfold String_with; cbn [string_]; rewrite Hk; simpl. by rewrite Hv.
  - subst k. destruct (decide (m_Kind m = kind.Array)) as [Ek|Ek].
    + cbn [show]. rewrite decide_True by done. unfold String_with. cbn [string_].
      rewrite Ek, Hs. cbn [range_iter].
      repeat (rewrite decide_False by done). rewrite decide_True by done.
      pose proof (range_list_shows fuel _ h vs ms fp [] IH Hrs ltac:(by apply Hps) ltac:(by apply Ds)) as E.
      unfold mbind, M_bind. by rewrite E.
    + cbn [show]. rewrite decide_False by done. apply string_unknown. by apply (proj1 (proj2 (uncased_kinds _))).
  - subst k. destruct (decide (m_Kind m = kind.Map)) as [Ek|Ek].
    + cbn [show]. rewrite decide_True by done. unfold String_with. cbn [string_].
      rewrite Ek, Ha. cbn [range_assoc].
      repeat (rewrite decide_False by done). rewrite decide_True by done.
      pose proof (range_pairs_shows fuel _ h vs ms fp [] IH Hrs ltac:(by apply Hpa) ltac:(by apply Da)) as E.
      unfold mbind, M_bind. by rewrite E.
    + cbn [show]. rewrite decide_False by done. apply string_unknown. by apply (proj2 (proj2 (uncased_kinds _))).
Qed.

End string.

(** * Properties *)

(** [String] ends on every message, whatever its fields hold, or waits for an open
    stream its elements are decoded from: its recursion, bounded by the nesting depth,
    does not run out. *)
Theorem String_ends `{!FloatConv, !Texts} (m : Message) (h : heap) :
  (String_ m h).1 <> OutOfFuel /\
  ((String_ m h).1 = Block -> message.waits_for (message.srcs m) (String_ m h).2).
Proof.
  pose proof (String_with_prints _ _ _ (string_prints (message.srcs m) (message.depth m)) m (h, tt)
    ltac:(done)) as Hs.
  unfold safe in Hs. unfold String_. destruct (String_with _ m (h, tt)) as [[] [h' u]]; done.
Qed.

(** C35: printing a message that represents a value returns the reference text of the
    value and does not read from the message's readers, so that a message can still
    be sent after it was logged.  Bulk strings, sets, pushes, attributes and nulls
    are printed as "Unknown" with the name of their kind, and a verbatim string
    without its text. *)
Theorem String_show `{!FloatConv, !Texts} (h : heap) (v : resp) (m : Message) (fp : list nat) :
  rep h v m fp -> plain m -> String_ m h = (Ret (show v), h).
Proof.
  intros Hr Hp. unfold String_.
  by rewrite (string_shows (message.depth m) h v m fp Hr Hp ltac:(lia)).
Qed.

(** Printing a decoded array is not free of effects: its sequence is the iterator
    over the connection, so printing reads on, and the text holds the one pair the
    iterator yields; while the connection is open and silent, printing waits for it. *)
Theorem String_reads_on `{!FloatConv, !Texts} (m : Message) (r : reader) (h : heap) :
  m_Kind m = kind.Array -> m_Seq m = Some (IterDecode r) ->
  (exists err h', Iterate r h = (Ret (message.zero, err), h') /\
    String_ m h = (Ret (tagged kind.Array
      match err with
      | Some e => str "!ERR:" ++ error_text e
      | None => unknown x00
      end), h')) \/
  (exists h', String_ m h = (Block, h') /\ starved (reader_src r) h').
Proof.
  intros Hk Hs. unfold String_, String_with.
  destruct m as [k ? ? ? ? ? ? ? ? ? ? sq asc]. simpl in Hk, Hs. subst k sq.
  cbn [message.depth]. rewrite Nat.max_comm. set (d := Nat.max _ 1).
  assert (d = S (d - 1)) as -> by lia. generalize (d - 1). clear d. intros n.
  cbn [string_ m_Kind m_Seq range_iter]. repeat (rewrite decide_False by done).
  rewrite decide_True by done. unfold mbind, M_bind, on_heap.
  destruct (Iterate_cases r h) as [(err & h' & E)|(h' & E & Hw)]; rewrite E; [left|by right; eauto].
  exists err, h'. split; [done|]. unfold string_elem. destruct err as [e|]; [done|].
  rewrite (bind_ret _ _ _ (h', tt) (unknown x00)); [done|].
  reflexivity.
Qed.

(** * Concrete messages *)

#[local] Existing Instance zero_floats.

Definition plain_texts : Texts := {|
  error_text e := match e with ErrorsNew t => t | _ => [] end;
  float_text _ := str "0" |}.

#[local] Existing Instance plain_texts.

(** A command over one source, and a map. *)
Definition show_heap : heap := Heap [buffer_source (str "GET")] [].
Definition show_message : Message :=
  message.Array [message.BulkString (Some (RSrc 0)) 3; message.Int (-2); message.SimpleString (str "OK")].
Definition show_value : resp := VSeq kind.Array [VBulk kind.BulkString (str "GET"); VInt (-2); VSimple (str "OK")].

Lemma show_rep : rep show_heap show_value show_message [0].
Proof.
  apply (rep_seq _ _ _ _ [message.BulkString (Some (RSrc 0)) 3; message.Int (-2); message.SimpleString (str "OK")]);
    try done; [left|].
  apply (reps_cons _ _ _ [0] _ _ []).
  - apply (rep_bulk _ _ _ _ [] 0); try done; [left|simpl; lia].
  - apply (reps_cons _ _ _ [] _ _ []); [by apply rep_int| |by intros ? []%elem_of_nil].
    apply (reps_cons _ _ _ [] _ _ []); [by apply rep_simple|constructor|by intros ? []%elem_of_nil].
  - by intros ? _ []%elem_of_nil.
Qed.

Lemma String_show_witness :
  String_ show_message show_heap = (Ret (str "*$Unknown Bulk :-2 +OK"), show_heap).
Proof.
  rewrite (String_show show_heap show_value show_message [0] show_rep); [reflexivity|].
  by vm_compute.
Defined.

Example String_decoded_array :
  String_ (MkMessage kind.Array [] None 0 false (S754_zero false) None 0 2 None [] (Some (IterDecode (RSrc 0))) None)
    (Heap [buffer_source (str ":1" ++ kind.EOL ++ str ":2" ++ kind.EOL)] []) =
  (Ret (str "*!ERR:"), Heap [Source [] (Ended EOF)] []).
Proof. reflexivity. Qed.
