(* ===== verification/CachedSeq.v ===== *)
(** Cached sequences (src/protocol/message/seq.go): [CachedSeq2] over any iterator.

    An [iter.Seq2] is a function that calls [yield] with one pair after the other
    until [yield] answers false.  Here it is exactly that: a function of its own
    state [S] (what the closure captured and mutates), of [yield], and of the state
    [X] the loop body works on. *)

From S2P Require Import Prelude GoBase GoStrconv GoIO Kind Message Decoder.

Definition Seq2 (S A : Type) : Type :=
  forall X : Type, (A -> X -> bool * X) -> S -> X -> S * X.

(** The variables [pairs] and [index] of the closure. *)
Record cache (A : Type) := Cache { ca_pairs : list A; ca_index : Z }.
Arguments Cache {A}.
Arguments ca_pairs {A}.
Arguments ca_index {A}.

(** [pairs := make([]pair, 0, 8); index := 0]. *)
Definition empty_cache {A} : cache A := Cache [] 0.

(** The body of [for k, v := range seq]: [return] in it makes the [yield] of the inner
    sequence answer false. *)
Definition cached_body {A X} (yield : A -> X -> bool * X) (kv : A) (st : cache A * X)
  : bool * (cache A * X) :=
  let '(c, x) := st in
  let index := wrap64 (ca_index c + 1) in
  let pairs := ca_pairs c ++ [kv] in
  let '(ok, x) := yield kv x in
  (ok, (Cache pairs index, x)).

Definition CachedSeq2 {S A} (seq : Seq2 S A) : Seq2 (S * cache A) A :=
  fun X yield '(s, c) x =>
    let '(s, (c, x)) := seq (cache A * X)%type (cached_body yield) s (c, x) in
    ((s, c), x).

(** * What a sequence yields

    [feed yield l x] offers the elements of [l] to [yield] until it answers false; it
    returns how many were taken. *)
Fixpoint feed {A X} (yield : A -> X -> bool * X) (l : list A) (x : X) : nat * X :=
  match l with
  | [] => (0, x)
  | a :: l =>
      let '(ok, x) := yield a x in
      if ok then let '(n, x) := feed yield l x in (S n, x) else (1, x)
  end.

(** [yields seq items after]: ranging over [seq] in state [s] offers [items s] in order,
    and leaves the state [after s n] when the loop took [n] of them. *)
Definition yields {S A} (seq : Seq2 S A) (items : S -> list A) (after : S -> nat -> S) : Prop :=
  forall X (yield : A -> X -> bool * X) s x,
    seq X yield s x = let '(n, x') := feed yield (items s) x in (after s n, x').

Lemma feed_cached {A X} (yield : A -> X -> bool * X) l c x :
  int64_range (ca_index c) ->
  feed (cached_body yield) l (c, x) =
    let '(n, x') := feed yield l x in
    (n, (Cache (ca_pairs c ++ take n l) (wrap64 (ca_index c + Z.of_nat n)), x')).
Proof.
  revert c x. induction l as [|a l IH]; intros c x Hc; cbn [feed].
  { rewrite app_nil_r, Z.add_0_r, wrap64_small by done. by destruct c. }
  unfold cached_body at 1. destruct (yield a x) as [ok x1]. destruct ok; [|done].
  rewrite IH by apply wrap64_range. cbn [ca_pairs ca_index].
  destruct (feed yield l x1) as [n x2]. rewrite <- app_assoc. simpl.
  rewrite wrap64_add. do 4 f_equal. lia.
Qed.

(** The two kinds of closure the program makes: over a list, which can be ranged over
    again, and over a reader, which cannot. *)
Definition list_seq {A} (l : list A) : Seq2 unit A :=
  fun X yield s x => (s, (feed yield l x).2).

Section decoded.
Context `{!FloatConv}.

(** [e.Iterate(r)] with the heap as its state. *)
Definition pair_of (r : reader) (h : heap) : list (Message * option error) :=
  match (Iterate r h).1 with Ret p => [p] | _ => [] end.

Definition iterate_seq (r : reader) : Seq2 heap (Message * option error) :=
  fun X yield h x =>
    match Iterate r h with
    | (Ret p, h) => (h, (yield p x).2)
    | (_, h) => (h, x)
    end.

Lemma iterate_seq_yields r : yields (iterate_seq r) (pair_of r) (fun h _ => (Iterate r h).2).
Proof.
  intros X yield h x. unfold iterate_seq, pair_of.
  destruct (Iterate r h) as [[p| | |] h']; try done. simpl.
  by destruct (yield p x) as [[] x'].
Qed.
End decoded.

(** * Properties *)

(** C33: wrapping a sequence in [CachedSeq2] changes nothing for who ranges over it: in
    every state, also after earlier loops, it offers what the wrapped sequence offers
    then, and stops where the loop stops.  The elements it has offered are collected,
    in order, but never offered again: what a second loop gets is what is left of the
    wrapped sequence, [items] of the state the first loop left. *)
Theorem CachedSeq2_transparent {S A} (seq : Seq2 S A) items after :
  yields seq items after ->
  forall X (yield : A -> X -> bool * X) s c x, int64_range (ca_index c) ->
  CachedSeq2 seq X yield (s, c) x =
    let '(n, x') := feed yield (items s) x in
    ((after s n, Cache (ca_pairs c ++ take n (items s)) (wrap64 (ca_index c + Z.of_nat n))), x').
Proof.
  intros Hy X yield s c x Hc. unfold CachedSeq2. rewrite Hy, feed_cached by done.
  by destruct (feed yield (items s) x).
Qed.

(** * A concrete run

    Two loops over a cached decoder of a source with a malformed number and nothing
    after it: the first loop gets the error of the number, the second one the end of
    the source and not the cached pair. *)

#[local] Existing Instance zero_floats.

Definition collect (p : Message * option error) (l : list (option error)) : bool * list (option error) :=
  (true, l ++ [p.2]).

Definition bad_number : heap := Heap [buffer_source (str ":x" ++ kind.EOL)] [].

Definition two_loops : list (option error) * list (option error) :=
  let seq := CachedSeq2 (iterate_seq (RSrc 0)) in
  let '(s, first) := seq _ collect (bad_number, empty_cache) [] in
  let '(_, second) := seq _ collect s [] in
  (first, second).

Example cached_not_replayed :
  two_loops = ([Some (NumError "ParseInt" (str "x") ErrSyntax)], [Some EOF]).
Proof. reflexivity. Qed.

Lemma CachedSeq2_transparent_witness :
  CachedSeq2 (iterate_seq (RSrc 0)) _ collect (bad_number, empty_cache) [] =
    ((Heap [Source [] (Ended EOF)] [], Cache [(message.zero, Some (NumError "ParseInt" (str "x") ErrSyntax))] 1),
     [Some (NumError "ParseInt" (str "x") ErrSyntax)]).
Proof.
  rewrite (CachedSeq2_transparent (iterate_seq (RSrc 0)) (pair_of (RSrc 0))
    (fun h _ => (Iterate (RSrc 0) h).2)); [reflexivity|apply iterate_seq_yields|by split].
Defined.
