(* ===== verification/Conn.v ===== *)
(** Connections (src/protocol/conn.go): a mutex, a buffered reader and a buffered
    writer around a stream, and the codec on top of them. *)

From S2P Require Import Prelude GoBase GoStrconv GoIO Bufio Kind Message Decoder Encoder Wire.

(** [type Conn struct]: the mutex, the two halves of [RW], and the encoder.  The
    buffered reader is a source of the heap. *)
Record Conn (W : Type) := MkConn {
  cn_locked : bool;
  cn_reader : reader;
  cn_writer : BufWriter W;
  cn_Encoder : Encoder;
}.
Arguments MkConn {W}.
Arguments cn_locked {W}.
Arguments cn_reader {W}.
Arguments cn_writer {W}.
Arguments cn_Encoder {W}.

Module conn.
Section conn.
Context `{!FloatConv} {W : Type} `{!IoWriter W}.

Definition set_locked (l : bool) (c : Conn W) : Conn W :=
  MkConn l (cn_reader c) (cn_writer c) (cn_Encoder c).
Definition set_writer (w : BufWriter W) (c : Conn W) : Conn W :=
  MkConn (cn_locked c) (cn_reader c) w (cn_Encoder c).

(** [NewConnection(conn)]; the encoder is the zero value. *)
Definition NewConnection (r : reader) (w : W) : Conn W :=
  MkConn false r (NewWriter w) (MkEncoder 0 0).

(** [conn.Lock(); defer conn.Unlock()] around a body.  The mutex is not
    re-entrant: locking it again waits forever.  The deferred call also runs when
    the body panics. *)
Definition with_lock {A} (body : M (heap * Conn W) A) : M (heap * Conn W) A := fun '(h, c) =>
  if cn_locked c then (Block, (h, c))
  else
    let '(o, (h, c)) := body (h, set_locked true c) in
    match o with
    | Ret _ | Panic _ => (o, (h, set_locked false c))
    | Block | OutOfFuel => (o, (h, c))
    end.

(** Running something on the writer. *)
Definition on_writer {A} (m : M (heap * BufWriter W) A) : M (heap * Conn W) A := fun '(h, c) =>
  let '(o, (h, w)) := m (h, cn_writer c) in (o, (h, set_writer w c)).

Definition flush_writer : M (heap * Conn W) (option error) :=
  on_writer (fun '(h, b) => let '(err, b) := bufio_flush b in (Ret err, (h, b))).

Definition Read : M (heap * Conn W) (Message * option error) :=
  with_lock (fun '(h, c) => on_heap (Decode (cn_reader c)) (h, c)).

Definition Write (m : Message) : M (heap * Conn W) (Z * option error) :=
  with_lock (fun st => on_writer (Encode (cn_Encoder st.2) m) st).

Definition Flush : M (heap * Conn W) (option error) := with_lock flush_writer.

Definition RawRoundtrip (data : bytes) : M (heap * Conn W) (Message * option error) :=
  with_lock (
    '(_, err) ← on_writer (Encoder.Write data);
    match err with
    | Some e => mret (message.zero, Some e)
    | None =>
        err ← flush_writer;
        match err with
        | Some e => mret (message.zero, Some e)
        | None =>
            '(msg, err) ← Read;
            match err with
            | Some e => mret (message.zero, Some e)
            | None => mret (msg, None)
            end
        end
    end).

(** The error of [Flush] is overwritten. *)
Definition RoundTrip (msg : Message) : M (heap * Conn W) (Message * option error) :=
  '(_, err) ← Write msg;
  match err with
  | Some e => mret (message.zero, Some e)
  | None => _ ← Flush; Read
  end.

(** * Lock discipline *)

(** A call that holds the lock while it runs, on a connection whose lock is free: when
    it returns or panics the lock is free again; when it waits, it waits for one of the
    sources [L], and holds the lock. *)
Definition disciplined {A} (L : Conn W -> list nat) (m : M (heap * Conn W) A) : Prop := forall h c,
  cn_locked c = false ->
  match m (h, c) with
  | (Ret _, st) => cn_locked st.2 = false /\ cn_reader st.2 = cn_reader c
  | (Panic _, st) => cn_locked st.2 = false
  | (Block, st) => cn_locked st.2 = true /\ message.waits_for (L c) st.1
  | (OutOfFuel, _) => False
  end.

(** A call on a connection whose lock is held waits for it and has no effect. *)
Definition excluded {A} (m : M (heap * Conn W) A) : Prop := forall h c,
  cn_locked c = true -> m (h, c) = (Block, (h, c)).

Lemma with_lock_excluded {A} (body : M (heap * Conn W) A) : excluded (with_lock body).
Proof. intros h c Hc. unfold with_lock. by rewrite Hc. Qed.

Lemma with_lock_disciplined {A} L (body : M (heap * Conn W) A) :
  (forall h c, match body (h, set_locked true c) with
     | (Ret _, st) => cn_reader st.2 = cn_reader c
     | (Panic _, _) => True
     | (Block, st) => cn_locked st.2 = true /\ message.waits_for (L c) st.1
     | (OutOfFuel, _) => False
     end) ->
  disciplined L (with_lock body).
Proof.
  intros Hb h c Hc. unfold with_lock. rewrite Hc. specialize (Hb h c).
  by destruct (body _) as [[] [h' c']].
Qed.

Lemma disciplined_ret {A} L (a : A) : disciplined L (mret a).
Proof. by intros h c Hc. Qed.

Lemma disciplined_bind {A B} L1 L2 L (m : M (heap * Conn W) A) (f : A -> M (heap * Conn W) B) :
  disciplined L1 m -> (forall a, disciplined L2 (f a)) ->
  (forall c, L1 c ⊆ L c) ->
  (forall c c', cn_reader c' = cn_reader c -> L2 c' ⊆ L c) ->
  disciplined L (mbind f m).
Proof.
  intros Hm Hf H1 H2 h c Hc. specialize (Hm h c Hc). unfold mbind, M_bind.
  destruct (m (h, c)) as [[a| | |] [h' c']]; try done.
  - simpl in Hm. destruct Hm as [Hl Hr]. specialize (Hf a h' c' Hl).
    destruct (f a (h', c')) as [[] [h2 c2]]; try done; simpl in *.
    + split; [apply Hf|]. destruct Hf. congruence.
    + destruct Hf as [? (l & ? & ?)]. split; [done|]. exists l. split; [by eapply H2|done].
  - destruct Hm as [? (l & ? & ?)]. split; [done|]. exists l. split; [by apply H1|done].
Qed.

(** The source a connection reads from. *)
Definition conn_src (c : Conn W) : list nat := [reader_src (cn_reader c)].

Lemma Read_disciplined : disciplined conn_src Read.
Proof.
  apply with_lock_disciplined. intros h c. unfold on_heap. rewrite Decode_Iterate. simpl.
  destruct (Iterate_cases (cn_reader c) h) as [(err & h' & ->)|(h' & -> & Hs)]; [done|].
  split; [done|]. exists (reader_src (cn_reader c)). split; [left|done].
Qed.

Lemma Flush_disciplined : disciplined (fun _ => []) Flush.
Proof.
  apply with_lock_disciplined. intros h c. unfold flush_writer, on_writer. simpl.
  by destruct (bufio_flush (cn_writer c)).
Qed.

Context `{!IoWriterSpec W}.

Lemma Write_disciplined m : disciplined (fun _ => message.srcs m) (Write m).
Proof.
  apply with_lock_disciplined. intros h c. unfold on_writer. simpl.
  pose proof (Encode_safe (cn_Encoder c) m (h, cn_writer c)) as Hs. unfold safe in Hs.
  by destruct (Encode _ _ _) as [[] [h' w']].
Qed.

Lemma RoundTrip_disciplined m : disciplined (fun c => message.srcs m ++ conn_src c) (RoundTrip m).
Proof.
  eapply disciplined_bind; [apply Write_disciplined| |set_solver|].
  - intros [n [e|]]; [apply disciplined_ret|].
    eapply (disciplined_bind _ _ conn_src); [apply Flush_disciplined|intros _; apply Read_disciplined|set_solver|].
    intros c c' E. unfold conn_src. by rewrite E.
  - intros c c' E. simpl. unfold conn_src. rewrite E. set_solver.
Qed.

(** [Read] gives the zero message. *)
Lemma Read_cases h c :
  cn_locked c = false ->
  (exists err h', Read (h, c) = (Ret (message.zero, err), (h', c)) /\
     Iterate (cn_reader c) h = (Ret (message.zero, err), h')) \/
  (exists h', Read (h, c) = (Block, (h', set_locked true c)) /\
     Iterate (cn_reader c) h = (Block, h') /\ starved (reader_src (cn_reader c)) h').
Proof.
  intros Hc. destruct c as [lk rd wr enc]. simpl in *. subst lk.
  unfold Read, with_lock, on_heap. simpl. rewrite Decode_Iterate.
  destruct (Iterate_cases rd h) as [(err & h' & ->)|(h' & -> & Hs)]; [left|right]; by eauto.
Qed.

Lemma Read_zero h c r st : Read (h, c) = (Ret r, st) -> r.1 = message.zero.
Proof.
  destruct (cn_locked c) eqn:Hc.
  - unfold Read, with_lock. by rewrite Hc.
  - destruct (Read_cases h c Hc) as [(err & h' & -> & _)|(h' & -> & _)]; [by intros [= <- <-]|done].
Qed.

(** What a call on the writer of a free connection does. *)
Lemma with_lock_writer {A} (m : Conn W -> M (heap * BufWriter W) A) h c a h' w' :
  cn_locked c = false -> m (set_locked true c) (h, cn_writer c) = (Ret a, (h', w')) ->
  with_lock (fun st => on_writer (m st.2) st) (h, c) = (Ret a, (h', set_writer w' c)).
Proof.
  intros Hc E. unfold with_lock. rewrite Hc. unfold on_writer. simpl. rewrite E.
  destruct c. simpl in *. by subst.
Qed.

Lemma RawRoundtrip_eq h c data :
  cn_locked c = false ->
  RawRoundtrip data (h, c) =
    let '((_, err), w1) := write data (cn_writer c) in
    match err with
    | Some e => (Ret (message.zero, Some e), (h, set_writer w1 c))
    | None =>
        let '(err, w2) := bufio_flush w1 in
        match err with
        | Some e => (Ret (message.zero, Some e), (h, set_writer w2 c))
        | None => (Block, (h, set_locked true (set_writer w2 c)))
        end
    end.
Proof.
  intros Hc. destruct c as [lk rd wr enc]. simpl in Hc. subst lk.
  unfold RawRoundtrip, with_lock, mbind, M_bind, flush_writer, on_writer, Encoder.Write.
  cbn [cn_locked cn_writer set_locked set_writer].
  destruct (write data wr) as [[n [e|]] w1]; [done|].
  cbn [cn_writer set_locked set_writer]. by destruct (bufio_flush w1) as [[e|] w2].
Qed.

End conn.

(** * Properties *)

(** C23: the mutex excludes and is given back.  On a connection whose lock is free,
    [Read], [Write], [Flush] and [RoundTrip] do not run for ever, and the lock is free
    again when they return or panic.  A call that has to wait, [Read] for its peer while
    the stream is open and silent, [Write] for an open source of its message, waits with
    the lock held; [Flush] never does.  As long as the lock is held, every call waits for
    it and changes nothing. *)
Theorem lock_discipline `{!FloatConv} {W} `{!IoWriter W, !IoWriterSpec W} (m : Message) :
  (disciplined (W := W) conn_src Read /\
   disciplined (W := W) (fun _ => message.srcs m) (Write m) /\
   disciplined (W := W) (fun _ => []) Flush /\
   disciplined (W := W) (fun c => message.srcs m ++ conn_src c) (RoundTrip m)) /\
  (excluded (W := W) Read /\ excluded (W := W) (Write m) /\ excluded (W := W) Flush /\
   excluded (W := W) (RoundTrip m)).
Proof.
  split; split_and!;
    [apply Read_disciplined|apply Write_disciplined|apply Flush_disciplined|apply RoundTrip_disciplined
    |apply with_lock_excluded..|].
  intros h c Hc. unfold RoundTrip, mbind, M_bind. unfold Write. by rewrite with_lock_excluded.
Qed.

(** C22: a message written and flushed without an error arrives: on a connection
    whose lock is free, [Write] of a message that represents a value returns, and
    when neither it nor the following [Flush] reports an error, the stream has
    received what was buffered before followed by exactly the bytes of the value,
    and the buffer is empty.  With an error of [Write], the bytes accepted are a
    front part of those. *)
Theorem Write_then_Flush `{!FloatConv} {W} `{!IoWriter W, !IoWriterSpec W}
    (h : heap) (c : Conn W) (v : resp) (m : Message) (fp : list nat) :
  cn_locked c = false -> rep h v m fp ->
  exists n err h1 w1, Write m (h, c) = (Ret (n, err), (h1, set_writer w1 c)) /\
    sends (cn_writer c) (wire v) n err w1 /\ untouched fp h h1 /\
    exists err' w2, Flush (h1, set_writer w1 c) = (Ret err', (h1, set_writer w2 c)) /\
      (err = None -> err' = None ->
       accepted (bw_wr w2) = accepted (cn_writer c) ++ wire v /\ bw_buf w2 = []).
Proof.
  intros Hc Hr.
  destruct (encode_writes_wire (message.depth m) (cn_Encoder c) h v m fp (cn_writer c) Hr ltac:(lia))
    as (n & err & h1 & w1 & E & Hs & U).
  exists n, err, h1, w1. split_and!; [|done..|].
  { apply (with_lock_writer (fun c => Encode (cn_Encoder c) m)); [done|exact E]. }
  destruct (bufio_flush w1) as [err' w2] eqn:Ef. exists err', w2. split.
  { change (set_writer w2 c) with (set_writer w2 (set_writer w1 c)).
    apply (with_lock_writer (fun _ '(h, b) => let '(err, b) := bufio_flush b in (Ret err, (h, b))));
      [done|]. simpl. by rewrite Ef. }
  intros -> ->. apply bufio_flush_spec in Ef as (Ha & _ & Hb). specialize (Hb eq_refl).
  apply sends_full in Hs as [_ Hs]. split; [|done].
  rewrite <- Hs, <- Ha. simpl. by rewrite Hb, app_nil_r.
Qed.

(** [RawRoundtrip] never returns a response: it takes the lock, and when the
    data was written and flushed it calls [Read], which waits for that lock
    forever; the data has been sent by then.  It returns only when the writer
    fails. *)
Theorem RawRoundtrip_blocks `{!FloatConv} {W} `{!IoWriter W, !IoWriterSpec W}
    (h : heap) (c : Conn W) (data : bytes) :
  cn_locked c = false ->
  (exists e c', RawRoundtrip data (h, c) = (Ret (message.zero, Some e), (h, c')) /\ cn_locked c' = false) \/
  (exists c', RawRoundtrip data (h, c) = (Block, (h, c')) /\ cn_locked c' = true /\
     accepted (bw_wr (cn_writer c')) = accepted (cn_writer c) ++ data).
Proof.
  intros Hc. rewrite (RawRoundtrip_eq h c data Hc).
  destruct (write data (cn_writer c)) as [[n err] w1] eqn:E. apply sends_write in E.
  destruct err as [e|]; [left; by do 2 eexists|].
  destruct (bufio_flush w1) as [[e|] w2] eqn:Ef; [left; by do 2 eexists|].
  right. eexists. split_and!; [reflexivity|done|]. cbn [cn_writer set_locked set_writer].
  apply sends_full in E as [_ E]. apply bufio_flush_spec in Ef as (Ha & _ & Hb).
  rewrite <- E, <- Ha. simpl. by rewrite (Hb eq_refl), app_nil_r.
Qed.

(** [RoundTrip] sends the message and never returns a response: whatever it
    returns, the message is the zero message. *)
Theorem RoundTrip_no_response `{!FloatConv} {W} `{!IoWriter W} (m : Message) (st : heap * Conn W) resp err st' :
  RoundTrip m st = (Ret (resp, err), st') -> resp = message.zero.
Proof.
  unfold RoundTrip. intros ([n [e|]] & st1 & _ & E)%bind_ret_inv; inv_bind; [done|].
  destruct s as [h c]. by apply Read_zero in E.
Qed.

End conn.

(** * A concrete connection

    Its peer answers with the bytes of source 0; the message to send reads source 1. *)

#[local] Existing Instance zero_floats.

Definition peer_heap : heap :=
  Heap [buffer_source (str ":1" ++ kind.EOL); buffer_source (str "foo")] [].
Definition free_conn : Conn Buffer := conn.NewConnection (RSrc 0) (MkBuffer []).
Definition foo_message : Message := message.BulkString (Some (RSrc 1)) 3.
Definition foo_value : resp := VBulk kind.BulkString (str "foo").

Lemma foo_rep : rep peer_heap foo_value foo_message [1].
Proof. apply (rep_bulk _ _ _ _ [] 1); try done; [left|simpl; lia]. Qed.

(** The same connection with a silent peer: [Read] waits with the lock held, and then so
    does [Write]. *)
Definition silent_heap : heap := Heap [Source [] Open; buffer_source (str "foo")] [].

Lemma lock_discipline_witness :
  conn.Read (silent_heap, free_conn) = (Block, (silent_heap, conn.set_locked true free_conn)) /\
  conn.Write foo_message (silent_heap, conn.set_locked true free_conn) =
    (Block, (silent_heap, conn.set_locked true free_conn)).
Proof.
  split; [reflexivity|].
  apply (proj2 (conn.lock_discipline (W := Buffer) foo_message)). reflexivity.
Defined.

Lemma Write_then_Flush_witness :
  exists n err h1 w1,
    conn.Write foo_message (peer_heap, free_conn) = (Ret (n, err), (h1, conn.set_writer w1 free_conn)) /\
    sends (cn_writer free_conn) (wire foo_value) n err w1 /\ untouched [1] peer_heap h1 /\
    exists err' w2, conn.Flush (h1, conn.set_writer w1 free_conn) =
        (Ret err', (h1, conn.set_writer w2 free_conn)) /\
      (err = None -> err' = None ->
       accepted (bw_wr w2) = accepted (cn_writer free_conn) ++ wire foo_value /\ bw_buf w2 = []).
Proof.
  apply (conn.Write_then_Flush peer_heap free_conn foo_value foo_message [1]); [reflexivity|apply foo_rep].
Defined.

Lemma RawRoundtrip_blocks_witness :
  (exists e c', conn.RawRoundtrip (str "PING") (peer_heap, free_conn) =
     (Ret (message.zero, Some e), (peer_heap, c')) /\ cn_locked c' = false) \/
  (exists c', conn.RawRoundtrip (str "PING") (peer_heap, free_conn) = (Block, (peer_heap, c')) /\
     cn_locked c' = true /\
     accepted (bw_wr (cn_writer c')) = accepted (cn_writer free_conn) ++ str "PING").
Proof. apply (conn.RawRoundtrip_blocks peer_heap free_conn (str "PING")). reflexivity. Defined.

(** The peer's answer [:1] is read and lost. *)
Lemma RoundTrip_no_response_witness :
  exists resp err st', conn.RoundTrip foo_message (peer_heap, free_conn) = (Ret (resp, err), st') /\
    resp = message.zero.
Proof.
  assert (exists p st', conn.RoundTrip foo_message (peer_heap, free_conn) = (Ret p, st')) as ([resp err] & st' & E).
  { do 2 eexists. by vm_compute. }
  exists resp, err, st'. split; [exact E|].
  exact (conn.RoundTrip_no_response foo_message (peer_heap, free_conn) resp err st' E).
Defined.
