(* ===== verification/Link.v ===== *)
(** The interface through which the replication subscriber and the transactor use a
    connection: reading, writing and flushing messages.  [Link] has the operations,
    [LinkSpec] what their clients rely on, against the wire format.  A connection of
    src/protocol/conn.go is an instance, whatever stream it is on; [script], a
    connection whose peer's messages are given in advance, is another. *)

From S2P Require Import Prelude GoBase GoStrconv GoIO Bufio Kind Message Decoder Encoder Wire Conn.

Class Link (C : Type) := {
  link_Read : M (heap * C) (Message * option error);
  link_Write : Message -> M (heap * C) (Z * option error);
  link_Flush : M (heap * C) (option error);
  sent : C -> bytes;            (** the bytes taken for the peer so far *)
  delivered : C -> bytes;       (** those of them that have left the process *)
  broken : C -> Prop;           (** the writing side has failed for good *)
  usable : C -> Prop;           (** the lock is free *)
  link_srcs : C -> list nat;    (** the sources it reads from *)
}.

(** [RoundTrip] in terms of the three. *)
Definition link_RoundTrip {C} `{!Link C} (msg : Message) : M (heap * C) (Message * option error) :=
  '(_, err) ← link_Write msg;
  match err with
  | Some e => mret (message.zero, Some e)
  | None => _ ← link_Flush; link_Read
  end.

(** [c'] is [c] after calls that took [bs] for the peer. *)
Record link_after {C} `{!Link C} (c : C) (bs : bytes) (c' : C) : Prop := LinkAfter {
  la_usable : usable c';
  la_sent : sent c' = sent c ++ bs;
  la_delivered : delivered c `prefix_of` delivered c';
  la_srcs : link_srcs c' = link_srcs c;
}.

(** [Write] takes the bytes of the message, and fails when the writing side has failed
    before; [Flush] passes on everything that was taken, or the writing side has failed;
    [Read] returns or waits for the peer, and does not write. *)
Class LinkSpec (C : Type) `{!FloatConv, !Link C} : Prop := {
  link_Write_spec h c v m fp :
    usable c -> rep h v m fp ->
    exists n err h' c', link_Write m (h, c) = (Ret (n, err), (h', c')) /\
      link_after c (take (Z.to_nat n) (wire v)) c' /\
      (err = None -> n = zlen (wire v) /\ ~ broken c) /\ untouched fp h h';
  link_Flush_spec h c :
    usable c -> exists err c', link_Flush (h, c) = (Ret err, (h, c')) /\ link_after c [] c' /\
      (broken c' \/ delivered c' = sent c');
  link_Read_spec h c :
    usable c ->
    returns (fun st => message.waits_for (link_srcs c) st.1) link_Read (h, c) (fun _ st =>
      link_after c [] st.2 /\ delivered st.2 = delivered c /\ (broken st.2 <-> broken c) /\
      untouched (link_srcs c) h st.1);
}.

Section link.
Context `{!FloatConv} {C : Type} `{!Link C, !LinkSpec C}.

Lemma link_after_refl c : usable c -> link_after c [] c.
Proof. intros Hu. by split; rewrite ?app_nil_r. Qed.

Lemma link_after_trans c1 b1 c2 b2 c3 :
  link_after c1 b1 c2 -> link_after c2 b2 c3 -> link_after c1 (b1 ++ b2) c3.
Proof.
  intros [U1 S1 D1 R1] [U2 S2 D2 R2]. split; [done| |by etrans|congruence].
  by rewrite S2, S1, app_assoc.
Qed.

Lemma link_after_nil c1 b1 c2 c3 : link_after c1 b1 c2 -> link_after c2 [] c3 -> link_after c1 b1 c3.
Proof. intros H1 H2. rewrite <- (app_nil_r b1). by eapply link_after_trans. Qed.

(** A round trip that reported no error took all of the value for the peer, and the
    value has left the process unless the writing side has failed: the error of the
    flush is not reported.  The connection it started on had not failed. *)
Definition round_ok (c : C) (bs : bytes) (c' : C) : Prop :=
  link_after c bs c' /\ ~ broken c /\ (broken c' \/ delivered c' = sent c').

(** A round trip returns, or waits for the peer's answer. *)
Lemma RoundTrip_spec h c v m fp :
  usable c -> rep h v m fp ->
  returns (fun st => message.waits_for (link_srcs c) st.1) (link_RoundTrip m) (h, c) (fun r st =>
    untouched (fp ++ link_srcs c) h st.1 /\ (r.2 = None -> round_ok c (wire v) st.2)).
Proof.
  intros Hu Hr. unfold link_RoundTrip. apply returns_bind.
  destruct (link_Write_spec h c v m fp Hu Hr) as (n & err & h1 & c1 & E1 & A1 & Hn & U1).
  unfold returns at 1. rewrite E1. destruct err as [e|].
  { apply returns_ret. split; [|done]. destruct U1 as [L1 U1]. split; [done|]. intros l Hl. apply U1.
    intros Hf. apply Hl, elem_of_app. by left. }
  destruct (Hn eq_refl) as [-> Hb]. unfold zlen in A1. rewrite Nat2Z.id, firstn_all in A1.
  apply returns_bind.
  destruct (link_Flush_spec h1 c1 (la_usable _ _ _ A1)) as (ef & c2 & E2 & A2 & Hd).
  unfold returns at 1. rewrite E2.
  pose proof (link_Read_spec h1 c2 (la_usable _ _ _ A2)) as Hrd.
  rewrite (la_srcs _ _ _ A2), (la_srcs _ _ _ A1) in Hrd.
  eapply returns_mono; [exact Hrd|]. intros r [h3 c3] (A3 & D3 & B3 & U3). simpl in *.
  split; [by eapply untouched_trans|]. intros _. split_and!; [|done|].
  - eapply link_after_nil; [|exact A3]. by eapply link_after_nil.
  - rewrite D3, B3, (la_sent _ _ _ A3), app_nil_r. done.
Qed.

End link.

(** * Reading touches one source *)

Definition touches {A} (l : nat) (m : M heap A) : Prop := forall h, untouched [l] h (m h).2.

Lemma touches_ret {A} l (a : A) : touches l (mret a).
Proof. intros h. by split. Qed.

Lemma untouched_trans1 l h1 h2 h3 : untouched [l] h1 h2 -> untouched [l] h2 h3 -> untouched [l] h1 h3.
Proof.
  intros [L1 U1] [L2 U2]. split; [congruence|]. intros l' Hl'. by rewrite U2, U1.
Qed.

Lemma touches_bind {A B} l (m : M heap A) (f : A -> M heap B) :
  touches l m -> (forall a, touches l (f a)) -> touches l (mbind f m).
Proof.
  intros Hm Hf h. specialize (Hm h). unfold mbind, M_bind.
  destruct (m h) as [[a| | |] h1]; try exact Hm.
  eapply untouched_trans1; [done|apply Hf].
Qed.

Lemma touches_read r k : touches (reader_src r) (reader_Read r k).
Proof.
  intros h. pose proof (read_shape r k h) as Hs. pose proof (read_other r k h) as Ho.
  assert ((reader_Read r k h).2 = (read r k h).2) as ->.
  { unfold reader_Read. by destruct (read r k h) as [[p [[e|]|]] h']. }
  split; [done|]. intros l Hl. apply Ho. intros ->. apply Hl. left.
Qed.

Lemma touches_line r : touches (reader_src r) (simpleUnmarshal r).
Proof.
  intros h. unfold simpleUnmarshal. generalize (S (reader_size h r)), (@nil byte).
  intros fuel. revert h. induction fuel as [|fuel IH]; intros h buf; [by split|].
  cbn [simple_unmarshal_loop].
  apply (touches_bind (reader_src r) (reader_Read r 1)); [apply touches_read|].
  intros [p [e|]]; [by split|]. cbn zeta. destruct (ends_line _); [by split|]. intros h'. apply IH.
Qed.

Lemma touches_aggregate r k size n enc extra l : touches l (aggregate_message r k size n enc extra).
Proof. intros h. unfold aggregate_message. repeat case_decide; by split. Qed.

Create HintDb touches.
#[local] Hint Resolve touches_ret touches_read touches_line touches_aggregate : touches.

Section reads.
Context `{!FloatConv}.

Lemma touches_frame r : touches (reader_src r) (decode_frame r).
Proof.
  apply touches_bind; [apply touches_read|]. intros [p [e|]]; [auto with touches|].
  unfold decode_kind. repeat case_decide; auto with touches.
  - apply touches_bind; [auto with touches|]. intros [[s n] [e|]]; [auto with touches|].
    destruct (simple_message _ s) as [m|[m err]]; auto with touches.
  - apply touches_bind; [auto with touches|]. intros [[s n] [e|]]; [auto with touches|].
    destruct (ParseInt s); [|auto with touches].
    apply touches_bind; [auto with touches|]. intros [[s' n'] [e|]]; [auto with touches|].
    destruct (negb _); auto with touches.
  - apply touches_bind; [auto with touches|]. intros [[s n] [e|]]; [auto with touches|].
    destruct (ParseInt s); auto with touches.
Qed.

Lemma touches_Decode r : touches (reader_src r) (Decode r).
Proof.
  intros h. rewrite Decode_Iterate. unfold Iterate. generalize (S (reader_size h r)).
  intros fuel. revert h. induction fuel as [|fuel IH]; intros h; [by split|].
  cbn [iterate_loop]. apply (touches_bind (reader_src r) (decode_frame r)); [apply touches_frame|].
  intros [m err|m]; [by split|]. intros h'. apply IH.
Qed.
End reads.

(** * Connections are links *)

#[export] Instance conn_link `{!FloatConv} {W} `{!IoWriter W} : Link (Conn W) := {
  link_Read := conn.Read;
  link_Write := conn.Write;
  link_Flush := conn.Flush;
  sent c := accepted (cn_writer c);
  delivered c := accepted (bw_wr (cn_writer c));
  broken c := bw_err (cn_writer c) <> None;
  usable c := cn_locked c = false;
  link_srcs c := [reader_src (cn_reader c)];
}.

Lemma conn_RoundTrip `{!FloatConv} {W} `{!IoWriter W} (m : Message) :
  conn.RoundTrip (W := W) m = link_RoundTrip m.
Proof. done. Qed.

(** Writing to a connection: what has left the process grows, and after a failure of
    the stream nothing is taken. *)
Lemma writes_grow {W} `{!IoWriter W, !IoWriterSpec W} (b b' : BufWriter W) :
  rtc write_step b b' -> accepted (bw_wr b) `prefix_of` accepted (bw_wr b').
Proof.
  intros Hw. induction Hw as [b|b b1 b' [p <-] _ IH]; [done|].
  etrans; [apply (bufio_write_grows 3 p 0 b)|exact IH].
Qed.

Lemma writes_failed {W} `{!IoWriter W, !IoWriterSpec W} (b b' : BufWriter W) :
  bw_err b <> None -> rtc write_step b b' -> b' = b.
Proof.
  intros Hb Hw. induction Hw as [b|b b1 b' [p <-] _ IH]; [done|].
  destruct (bw_err b) as [e|] eqn:He; [|done].
  assert ((write p b).2 = b) as E
    by (change (write p b) with (bufio_write 3 p 0 b); by rewrite (bufio_write_failed 3 p 0 b e He)).
  rewrite E in IH. apply IH. by rewrite He.
Qed.

Lemma wire_nonempty `{!FloatConv} v : wire v <> [].
Proof. by destruct v. Qed.

Lemma sends_not_failed `{!FloatConv} {W} `{!IoWriter W, !IoWriterSpec W} (b b' : BufWriter W) v n :
  sends b (wire v) n None b' -> bw_err b = None.
Proof.
  intros Hs. destruct (bw_err b) as [e|] eqn:He; [exfalso|done].
  pose proof (sn_writes _ _ _ _ _ Hs) as Hw. apply sends_full in Hs as [_ Ha].
  rewrite (writes_failed b b') in Ha by (done || by rewrite He).
  symmetry in Ha. rewrite <- (app_nil_r (accepted b)) in Ha at 2.
  by apply (wire_nonempty v), (app_inv_head (accepted b)).
Qed.

#[export] Instance conn_link_spec `{!FloatConv} {W} `{!IoWriter W, !IoWriterSpec W} : LinkSpec (Conn W).
Proof.
  split.
  - intros h c v m fp Hc Hr. simpl in Hc.
    destruct (encode_writes_wire (message.depth m) (cn_Encoder c) h v m fp (cn_writer c) Hr ltac:(lia))
      as (n & err & h' & w' & E & Hs & U).
    exists n, err, h', (conn.set_writer w' c). split_and!.
    + apply (conn.with_lock_writer (fun c => Encode (cn_Encoder c) m)); [done|exact E].
    + split; [done|apply Hs|by apply writes_grow, (sn_writes _ _ _ _ _ Hs)|done].
    + intros ->. split; [by apply (sn_all _ _ _ _ _ Hs)|]. intros Hb. apply Hb. by eapply sends_not_failed.
    + done.
  - intros h c Hc. simpl in Hc. pose proof (bufio_flush_grows (cn_writer c)) as Hg.
    destruct (bufio_flush (cn_writer c)) as [err w'] eqn:E.
    exists err, (conn.set_writer w' c). apply bufio_flush_spec in E as F. destruct F as (Ha & He & Hb).
    split_and!.
    + apply (conn.with_lock_writer (fun _ '(h, b) => let '(err, b) := bufio_flush b in (Ret err, (h, b))));
        [done|]. simpl. by rewrite E.
    + split; [done|by rewrite app_nil_r|done|done].
    + destruct err as [e|]; [left; simpl; by rewrite He|right]. simpl. by rewrite (Hb eq_refl), app_nil_r.
  - intros h c Hc. pose proof (touches_Decode (cn_reader c) h) as Ht. rewrite Decode_Iterate in Ht.
    unfold returns.
    destruct (conn.Read_cases h c Hc) as [(err & h' & E & Ei)|(h' & E & _ & Hs)];
      cbn [link_Read conn_link]; rewrite E.
    + rewrite Ei in Ht. split_and!; [by apply link_after_refl|done..].
    + exists (reader_src (cn_reader c)). split; [left|done].
Qed.

(** * A scripted connection

    Its peer's messages are [sc_in], after which reading fails with [sc_end]; what is
    written is encoded into [sc_out]. *)

Record script := Script { sc_in : list Message; sc_end : error; sc_out : bytes }.

Definition script_read : M (heap * script) (Message * option error) := fun '(h, c) =>
  match sc_in c with
  | [] => (Ret (message.zero, Some (sc_end c)), (h, c))
  | m :: ms => (Ret (m, None), (h, Script ms (sc_end c) (sc_out c)))
  end.

Definition script_write `{!FloatConv} (m : Message) : M (heap * script) (Z * option error) := fun '(h, c) =>
  let '(o, (h, b)) := Encode (MkEncoder 0 0) m (h, MkBuffer (sc_out c)) in
  (o, (h, Script (sc_in c) (sc_end c) (buf_bytes b))).

#[export] Instance script_link `{!FloatConv} : Link script := {
  link_Read := script_read;
  link_Write := script_write;
  link_Flush := mret None;
  sent := sc_out;
  delivered := sc_out;
  broken _ := False;
  usable _ := True;
  link_srcs _ := [];
}.

#[export] Instance script_link_spec `{!FloatConv} : LinkSpec script.
Proof.
  split.
  - intros h c v m fp _ Hr.
    destruct (encode_writes_wire (message.depth m) (MkEncoder 0 0) h v m fp (MkBuffer (sc_out c)) Hr ltac:(lia))
      as (n & err & h' & [w'] & E & [_ Ha Hok _ _] & U).
    exists n, err, h', (Script (sc_in c) (sc_end c) w'). split_and!; [| |by intros; split; auto|done].
    + simpl. unfold script_write, Encode. by rewrite E.
    + simpl in Ha. split; [done|done|simpl; rewrite Ha; by apply prefix_app_r|done].
  - intros h c _. exists None, c. split_and!; [done|by apply link_after_refl|by right].
  - intros h c _. unfold returns.
    destruct c as [[|m ms] e out]; simpl; (split_and!; [|done..]); split; simpl; by rewrite ?app_nil_r.
Qed.
