(* ===== verification/Signal.v ===== *)
(** The one-time signal of the replication subscriber
    (src/anarchoredis/replication/replication.go: [signal], [Broadcast],
    [ReplicationStartedCh]), called from any number of goroutines at once.

    A goroutine is in the middle of one of the two methods, at one of the points
    between which other goroutines can run; [step t] moves goroutine [t] over one
    statement, and a run is any sequence of such steps. *)

From S2P Require Import Prelude GoBase.

(** [type signal struct].  A channel is a position in the list of channels made so
    far; [sg_once] is whether [once.Do] has run its function; [sg_mu] is the
    goroutine in the critical section, [None] when the mutex is free. *)
Record signal := Signal {
  sg_ch : option nat;
  sg_once : bool;
  sg_didSignal : bool;
  sg_mu : option nat;
}.

Definition zero_signal : signal := Signal None false false None.

(** Where a goroutine is: before a statement of [Broadcast] or of
    [ReplicationStartedCh], or after its return. *)
Inductive point :=
| BLock | BMake | BOnce | BStore | BUnlock | BDone
| CLock | CMake | CReturn | CUnlock (ch : nat) | CDone (ch : nat).

#[global] Instance point_eq_dec : EqDecision point.
Proof. solve_decision. Defined.

Record world := World {
  w_sig : signal;
  w_chans : list bool;          (** which channels are closed *)
  w_points : list point;
  w_panicked : bool;
}.

Section steps.
Variable (t : nat) (w : world).
Let s := w_sig w.

Definition goto (p : point) : list point := <[t := p]> (w_points w).

(** [s.mu.Lock()] waits while another goroutine holds the mutex. *)
Definition lock_then (p : point) : option world :=
  match sg_mu s with
  | Some _ => None
  | None => Some (World (Signal (sg_ch s) (sg_once s) (sg_didSignal s) (Some t))
                    (w_chans w) (goto p) false)
  end.

Definition unlock_then (p : point) : option world :=
  Some (World (Signal (sg_ch s) (sg_once s) (sg_didSignal s) None) (w_chans w) (goto p) false).

(** [if s.ch == nil { s.ch = make(chan struct{}) }]. *)
Definition make_then (p : point) : option world :=
  Some match sg_ch s with
  | Some _ => World s (w_chans w) (goto p) false
  | None => World (Signal (Some (length (w_chans w))) (sg_once s) (sg_didSignal s) (sg_mu s))
              (w_chans w ++ [false]) (goto p) false
  end.

(** [close(ch)]: closing a nil or a closed channel panics. *)
Definition close_then (p : point) : world :=
  match sg_ch s with
  | Some c =>
      match w_chans w !! c with
      | Some false => World s (<[c := true]> (w_chans w)) (goto p) false
      | _ => World s (w_chans w) (w_points w) true
      end
  | None => World s (w_chans w) (w_points w) true
  end.

Definition step_at (p : point) : option world :=
  match p with
  | BLock => lock_then BMake
  | BMake => make_then BOnce
  | BOnce =>
      Some (if sg_once s then World s (w_chans w) (goto BUnlock) false else close_then BStore)
  | BStore => Some (World (Signal (sg_ch s) true true (sg_mu s)) (w_chans w) (goto BUnlock) false)
  | BUnlock => unlock_then BDone
  | CLock => lock_then CMake
  | CMake => make_then CReturn
  | CReturn =>
      match sg_ch s with
      | Some c => Some (World s (w_chans w) (goto (CUnlock c)) false)
      | None => Some (World s (w_chans w) (w_points w) true)  (* not reached *)
      end
  | CUnlock c => unlock_then (CDone c)
  | BDone | CDone _ => None
  end.

Definition step : option world :=
  if w_panicked w then None else w_points w !! t ≫= step_at.
End steps.

(** [Broadcast] is what a goroutine does from [BLock] on, [ReplicationStartedCh] from
    [CLock] on. *)
Definition Broadcast : point := BLock.
Definition ReplicationStartedCh : point := CLock.

Definition start (ps : list point) : world := World zero_signal [] ps false.

(** A schedule names the goroutine that moves next; a goroutine that cannot move is
    skipped. *)
Definition run (sched : list nat) (w : world) : world :=
  foldl (fun w t => default w (step t w)) w sched.

Inductive reachable (w0 : world) : world -> Prop :=
| reach_start : reachable w0 w0
| reach_step t w w' : reachable w0 w -> step t w = Some w' -> reachable w0 w'.

Lemma run_reachable sched w0 w : reachable w0 w -> reachable w0 (run sched w).
Proof.
  revert w. induction sched as [|t sched IH]; intros w Hw; [done|]. simpl. apply IH.
  destruct (step t w) eqn:E; simpl; [by eapply reach_step|done].
Qed.

(** The flag is never taken back. *)
Lemma step_didSignal t w w' :
  step t w = Some w' -> sg_didSignal (w_sig w) = true -> sg_didSignal (w_sig w') = true.
Proof.
  intros E Hd. unfold step in E. destruct (w_panicked w); [done|].
  destruct (w_points w !! t) as [p|]; [|done]. simpl in E.
  destruct p; simpl in E; unfold lock_then, unlock_then, make_then, close_then in E;
    repeat case_match; simplify_eq/=; done.
Qed.

Lemma run_didSignal sched w :
  sg_didSignal (w_sig w) = true -> sg_didSignal (w_sig (run sched w)) = true.
Proof.
  revert w. induction sched as [|t sched IH]; intros w Hw; [done|]. simpl. apply IH.
  destruct (step t w) eqn:E; simpl; [by eapply step_didSignal|done].
Qed.

(** * The invariant *)

Definition critical (p : point) : bool :=
  match p with
  | BMake | BOnce | BStore | BUnlock | CMake | CReturn | CUnlock _ => true
  | _ => false
  end.

Definition point_ok (s : signal) (p : point) : Prop :=
  match p with
  | BOnce | CReturn => sg_ch s = Some 0
  | BStore => sg_ch s = Some 0
  | BUnlock | BDone => sg_ch s = Some 0 /\ sg_didSignal s = true
  | CUnlock c | CDone c => c = 0 /\ sg_ch s = Some 0
  | _ => True
  end.

Definition storing (w : world) : bool :=
  match sg_mu (w_sig w) with
  | Some t => bool_decide (w_points w !! t = Some BStore)
  | None => false
  end.

(** The flags and the channel agree, except between closing and storing. *)
Definition flags_ok (storing : bool) (s : signal) (chans : list bool) : Prop :=
  if storing then chans = [true] /\ sg_once s = false /\ sg_didSignal s = false
  else sg_once s = sg_didSignal s /\ (sg_didSignal s = true <-> chans = [true]).

Record inv (w : world) : Prop := Inv {
  inv_panic : w_panicked w = false;
  inv_ch : match sg_ch (w_sig w) with
           | None => w_chans w = []
           | Some c => c = 0 /\ exists b, w_chans w = [b]
           end;
  inv_flags : flags_ok (storing w) (w_sig w) (w_chans w);
  inv_points : forall t p, w_points w !! t = Some p ->
    (critical p = true <-> sg_mu (w_sig w) = Some t) /\ point_ok (w_sig w) p;
  inv_holder : forall t, sg_mu (w_sig w) = Some t -> t < length (w_points w);
}.

(** What a move does to the other goroutines. *)
Lemma points_step w s' t p p' :
  inv w -> w_points w !! t = Some p ->
  (critical p' = true <-> sg_mu s' = Some t) -> point_ok s' p' ->
  (sg_mu s' = sg_mu (w_sig w) \/ (sg_mu (w_sig w) = None /\ sg_mu s' = Some t) \/
   (sg_mu (w_sig w) = Some t /\ sg_mu s' = None)) ->
  (forall q, point_ok (w_sig w) q -> point_ok s' q) ->
  forall u q, goto t w p' !! u = Some q ->
  (critical q = true <-> sg_mu s' = Some u) /\ point_ok s' q.
Proof.
  intros Hi Hp Hc Hok Hmu Hmono u q Hq. unfold goto in Hq.
  destruct (decide (u = t)) as [->|Hne].
  { apply lookup_lt_Some in Hp. rewrite list_lookup_insert_eq in Hq by done.
    by simplify_eq. }
  rewrite list_lookup_insert_ne in Hq by done.
  destruct (inv_points w Hi u q Hq) as [Hcu Hoku]. split; [|by apply Hmono].
  rewrite Hcu. destruct Hmu as [->|[[-> ->]|[-> ->]]]; [done| |]; split; congruence.
Qed.

Lemma storing_goto w s' chans t p' :
  t < length (w_points w) -> (critical p' = true <-> sg_mu s' = Some t) ->
  (sg_mu s' = None \/ sg_mu s' = Some t) ->
  storing (World s' chans (goto t w p') false) = bool_decide (p' = BStore).
Proof.
  intros Ht Hc Hmu. unfold storing, goto. simpl. destruct Hmu as [Hmu|Hmu]; rewrite Hmu in *.
  - rewrite bool_decide_eq_false_2; [done|]. intros ->. by destruct Hc as [Hc _]; specialize (Hc eq_refl).
  - rewrite list_lookup_insert_eq by done. apply bool_decide_ext. split; [by intros [= ->]|by intros ->].
Qed.

(** A goroutine in the critical section is the one that can be storing. *)
Lemma storing_at w t p :
  inv w -> w_points w !! t = Some p -> critical p = true ->
  sg_mu (w_sig w) = Some t /\ storing w = bool_decide (p = BStore).
Proof.
  intros Hi Hp Hc. apply (inv_points w Hi t p Hp) in Hc. split; [done|].
  unfold storing. rewrite Hc, Hp. apply bool_decide_ext. split; [by intros [= ->]|by intros ->].
Qed.

Lemma storing_free w : sg_mu (w_sig w) = None -> storing w = false.
Proof. unfold storing. by intros ->. Qed.

Lemma lock_inv w t p p' w' :
  inv w -> w_points w !! t = Some p -> critical p' = true -> p' = BMake \/ p' = CMake ->
  lock_then t w p' = Some w' -> inv w'.
Proof.
  intros Hi Hp Hc Hp' E. unfold lock_then in E.
  destruct (sg_mu (w_sig w)) eqn:Hmu; [done|]. injection E as <-.
  pose proof (lookup_lt_Some _ _ _ Hp) as Hlt.
  split; [done|apply Hi| | |].
  - rewrite storing_goto by (done || by right). pose proof (inv_flags w Hi) as Hf.
    rewrite storing_free in Hf by done. by destruct Hp' as [-> | ->].
  - eapply points_step; [done..| | |]; simpl; [by destruct Hp' as [-> | ->]|auto|].
    by intros [].
  - simpl. intros ? [= <-]. unfold goto. by rewrite length_insert.
Qed.

Lemma unlock_inv w t p p' w' :
  inv w -> w_points w !! t = Some p -> critical p = true -> p <> BStore -> critical p' = false ->
  (point_ok (w_sig w) p -> point_ok (w_sig w) p') ->
  unlock_then t w p' = Some w' -> inv w'.
Proof.
  intros Hi Hp Hc Hne Hc' Hok E. unfold unlock_then in E. injection E as <-.
  pose proof (lookup_lt_Some _ _ _ Hp) as Hlt.
  destruct (storing_at w t p Hi Hp Hc) as [Hmu Hs]. rewrite bool_decide_eq_false_2 in Hs by done.
  split; [done|apply Hi| | |].
  - rewrite storing_goto by (done || (rewrite Hc'; done) || by left).
    pose proof (inv_flags w Hi) as Hf. rewrite Hs in Hf.
    rewrite bool_decide_eq_false_2 by (intros ->; done). done.
  - eapply points_step; [done..| | | |]; simpl; [by rewrite Hc'| |auto|by intros []].
    destruct (inv_points w Hi t p Hp) as [_ Hq]. by destruct p'; apply Hok in Hq.
  - done.
Qed.

(** A move inside the critical section. *)
Lemma move_inv w t p p' s' chans' :
  inv w -> w_points w !! t = Some p -> critical p = true -> critical p' = true ->
  sg_mu s' = sg_mu (w_sig w) ->
  match sg_ch s' with None => chans' = [] | Some c => c = 0 /\ exists b, chans' = [b] end ->
  flags_ok (bool_decide (p' = BStore)) s' chans' -> point_ok s' p' ->
  (forall q, point_ok (w_sig w) q -> point_ok s' q) ->
  inv (World s' chans' (goto t w p') false).
Proof.
  intros Hi Hp Hc Hc' Hmu Hch Hf Hok Hmono.
  pose proof (lookup_lt_Some _ _ _ Hp) as Hlt.
  destruct (storing_at w t p Hi Hp Hc) as [Hm _].
  split; [done|done| | |].
  - rewrite storing_goto; [done..| |]; rewrite Hmu, Hm; by auto.
  - eapply points_step; [done..| | | |]; simpl; [by rewrite Hc', Hmu, Hm|done|by left|done].
  - simpl. rewrite Hmu, Hm. intros ? [= <-]. unfold goto. by rewrite length_insert.
Qed.

Lemma make_inv w t p p' w' :
  inv w -> w_points w !! t = Some p -> critical p = true -> p <> BStore ->
  p' = BOnce \/ p' = CReturn -> make_then t w p' = Some w' -> inv w'.
Proof.
  intros Hi Hp Hc Hne Hp' E. unfold make_then in E. injection E as <-.
  destruct (storing_at w t p Hi Hp Hc) as [Hm Hs]. rewrite bool_decide_eq_false_2 in Hs by done.
  pose proof (inv_flags w Hi) as Hf. rewrite Hs in Hf. pose proof (inv_ch w Hi) as Hch.
  assert (bool_decide (p' = BStore) = false) as Hb by by destruct Hp' as [-> | ->].
  assert (critical p' = true) as Hc' by by destruct Hp' as [-> | ->].
  destruct (sg_ch (w_sig w)) as [c|] eqn:Ec.
  - destruct Hch as [-> Hch].
    eapply move_inv; [done..| | | |done]; [by rewrite Ec|by rewrite Hb|].
    by destruct Hp' as [-> | ->].
  - rewrite Hch in *. eapply move_inv; [done..| | | |]; simpl; [by eauto| | |].
    + rewrite Hb. destruct Hf as [Hf1 Hf2]. split; [done|]. simpl. rewrite Hf2. by split.
    + by destruct Hp' as [-> | ->].
    + intros [] Hq; simpl in *; intuition congruence.
Qed.

Lemma step_inv t w w' : inv w -> step t w = Some w' -> inv w'.
Proof.
  intros Hi E. unfold step in E. rewrite (inv_panic w Hi) in E.
  destruct (w_points w !! t) as [p|] eqn:Hp; [|done]. cbn [mbind option_bind] in E.
  destruct (inv_points w Hi t p Hp) as [_ Hok].
  destruct p as [| | | | | | | | |c|c]; cbn [step_at] in E; try done.
  - eapply (lock_inv _ _ _ BMake); eauto.
  - eapply (make_inv _ _ _ BOnce); eauto.
  - destruct (storing_at w t _ Hi Hp eq_refl) as [_ Hs]. simpl in Hok.
    pose proof (inv_flags w Hi) as Hf. rewrite Hs in Hf. destruct Hf as [Hf1 Hf2].
    pose proof (inv_ch w Hi) as Hch. rewrite Hok in Hch. destruct Hch as [_ [b Hb]].
    injection E as <-. destruct (sg_once (w_sig w)) eqn:Ho.
    + eapply move_inv; [done..| | | |done]; [by rewrite Hok, Hb; eauto| |].
      * rewrite bool_decide_eq_false_2 by done. split; [congruence|done].
      * split; congruence.
    + unfold close_then. rewrite Hok, Hb.
      destruct b; [by rewrite Hb in Hf2; destruct Hf2 as [_ Hf2]; rewrite Hf2 in Hf1|]. simpl.
      eapply move_inv; [done..| | | |done]; [by rewrite Hok; eauto| |done].
      rewrite bool_decide_eq_true_2 by done. by split_and!.
  - injection E as <-. destruct (storing_at w t _ Hi Hp eq_refl) as [_ Hs]. simpl in Hok.
    pose proof (inv_flags w Hi) as Hf. rewrite Hs in Hf. destruct Hf as (Hf & _ & _).
    eapply move_inv; [done..| | | |]; simpl; [by rewrite Hok; eauto|by rewrite Hf| |].
    + by rewrite Hok.
    + intros [] Hq; simpl in *; intuition auto.
  - eapply (unlock_inv _ _ _ BDone); eauto.
  - eapply (lock_inv _ _ _ CMake); eauto.
  - eapply (make_inv _ _ _ CReturn); eauto.
  - simpl in Hok. rewrite Hok in E. injection E as <-.
    destruct (storing_at w t _ Hi Hp eq_refl) as [_ Hs].
    pose proof (inv_flags w Hi) as Hf. rewrite Hs in Hf.
    pose proof (inv_ch w Hi) as Hch. rewrite Hok in Hch.
    eapply move_inv; [done..| | | |done]; [by rewrite Hok|done|done].
  - eapply (unlock_inv _ _ _ (CDone c)); eauto.
Qed.

Lemma start_inv ps : Forall (fun p => p = Broadcast \/ p = ReplicationStartedCh) ps -> inv (start ps).
Proof.
  intros Hps. split; [done|done|by split| |done]. simpl. intros t p Hp.
  rewrite Forall_lookup in Hps. by destruct (Hps t p Hp) as [-> | ->].
Qed.

Lemma reachable_inv ps w :
  Forall (fun p => p = Broadcast \/ p = ReplicationStartedCh) ps -> reachable (start ps) w -> inv w.
Proof.
  intros Hps Hr. induction Hr as [|t w w' Hr IH E]; [by apply start_inv|by eapply step_inv].
Qed.

(** * Progress *)

(** How many statements a goroutine still has to execute. *)
Definition left (p : point) : nat :=
  match p with
  | BLock => 5 | BMake => 4 | BOnce => 3 | BStore => 2 | BUnlock => 1 | BDone => 0
  | CLock => 4 | CMake => 3 | CReturn => 2 | CUnlock _ => 1 | CDone _ => 0
  end.

Definition work (w : world) : nat := sum_list_with left (w_points w).

Lemma sum_insert {A} (f : A -> nat) l i x y :
  l !! i = Some x -> sum_list_with f (<[i := y]> l) + f x = sum_list_with f l + f y.
Proof.
  revert i. induction l as [|z l IH]; intros [|i] Hi; simpl in *; simplify_eq; [lia|].
  specialize (IH i Hi). lia.
Qed.

Lemma sum_zero {A} (f : A -> nat) l : sum_list_with f l = 0 -> Forall (fun x => f x = 0) l.
Proof. induction l as [|x l IH]; simpl; intros H; constructor; [lia|apply IH; lia]. Qed.

Lemma step_work t w w' : inv w -> step t w = Some w' -> work w' < work w.
Proof.
  intros Hi E. pose proof (step_inv t w w' Hi E) as Hi'. unfold step in E.
  rewrite (inv_panic w Hi) in E.
  destruct (w_points w !! t) as [p|] eqn:Hp; [|done]. cbn [mbind option_bind] in E.
  assert (exists p', w_points w' = goto t w p' /\ left p' < left p) as (p' & Hw & Hlt).
  { pose proof (inv_panic w' Hi') as Hpa. clear Hi' Hi Hp.
    destruct p; cbn [step_at] in E; unfold lock_then, unlock_then, make_then, close_then in E;
      repeat case_match; simplify_eq/=; try done; by eexists; (split; [done|simpl; lia]). }
  unfold work. rewrite Hw. unfold goto.
  pose proof (sum_insert left (w_points w) t p p' Hp). lia.
Qed.

(** A goroutine in the critical section can always move. *)
Lemma critical_moves w t p :
  inv w -> w_points w !! t = Some p -> critical p = true -> is_Some (step t w).
Proof.
  intros Hi Hp Hc. unfold step. rewrite (inv_panic w Hi), Hp. cbn [mbind option_bind].
  destruct p; try done; cbn [step_at]; try by eexists. by case_match; eexists.
Qed.

Lemma unfinished_moves w : inv w -> 0 < work w -> exists t, is_Some (step t w).
Proof.
  intros Hi Hw. destruct (sg_mu (w_sig w)) as [t|] eqn:Hmu.
  - destruct (w_points w !! t) as [p|] eqn:Hp.
    + exists t. eapply critical_moves; [done|done|]. by apply (inv_points w Hi t p Hp).
    + apply lookup_ge_None in Hp. pose proof (inv_holder w Hi t Hmu). lia.
  - destruct (decide (Forall (fun p => left p = 0) (w_points w))) as [Hall|Hall].
    { exfalso. clear -Hw Hall. unfold work in Hw. induction Hall; simpl in *; lia. }
    apply not_Forall_Exists, Exists_exists in Hall as (p & Hin & Hp); [|apply _].
    apply list_elem_of_lookup in Hin as [t Ht]. exists t. unfold step.
    rewrite (inv_panic w Hi), Ht. cbn [mbind option_bind].
    assert (critical p = false) as Hc.
    { apply not_true_is_false. intros Hc. apply (inv_points w Hi t p Ht) in Hc. congruence. }
    destruct p; try done; cbn [step_at]; unfold lock_then; rewrite ?Hmu;
      first [by eexists | by destruct Hp].
Qed.

Lemma finishes n w0 w :
  inv w -> work w <= n -> reachable w0 w ->
  exists w', reachable w0 w' /\ Forall (fun p => left p = 0) (w_points w').
Proof.
  revert w. induction n as [|n IH]; intros w Hi Hn Hr.
  { exists w. split; [done|]. apply sum_zero. unfold work in Hn. lia. }
  destruct (decide (0 < work w)) as [Hw|Hw].
  2:{ exists w. split; [done|]. apply sum_zero. unfold work in Hw. lia. }
  destruct (unfinished_moves w Hi Hw) as (t & w' & E).
  apply (IH w'); [by eapply step_inv|apply step_work in E; [lia|done]|by eapply reach_step].
Qed.

(** * Properties *)

(** C12: however goroutines interleave in [Broadcast] and [ReplicationStartedCh], no
    channel is closed twice (nothing panics), every call of [ReplicationStartedCh] has
    returned the same channel, which is the one [Broadcast] closes, that channel is
    closed whenever the flag says that the signal was sent, and a [Broadcast] that has
    returned has closed it and set the flag. *)
Theorem signal_once (ps : list point) (w : world) :
  Forall (fun p => p = Broadcast \/ p = ReplicationStartedCh) ps ->
  reachable (start ps) w ->
  w_panicked w = false /\
  (forall t c, w_points w !! t = Some (CDone c) -> sg_ch (w_sig w) = Some c /\ c < length (w_chans w)) /\
  (sg_didSignal (w_sig w) = true -> exists c, sg_ch (w_sig w) = Some c /\ w_chans w !! c = Some true) /\
  (forall t, w_points w !! t = Some BDone -> sg_didSignal (w_sig w) = true).
Proof.
  intros Hps Hr. pose proof (reachable_inv ps w Hps Hr) as Hi.
  pose proof (inv_ch w Hi) as Hch. split_and!.
  - apply Hi.
  - intros t c Hp. apply (inv_points w Hi) in Hp as [_ [-> Hc]]. rewrite Hc in Hch.
    destruct Hch as [_ [b ->]]. split; [done|simpl; lia].
  - intros Hd. pose proof (inv_flags w Hi) as Hf. unfold flags_ok in Hf.
    destruct (storing w); [by destruct Hf as (_ & _ & Hf); rewrite Hd in Hf|].
    apply Hf in Hd. rewrite Hd in *. destruct (sg_ch (w_sig w)) as [c|]; [|done].
    destruct Hch as [-> _]. by exists 0.
  - intros t Hp. by apply (inv_points w Hi) in Hp as [_ [_ Hp]].
Qed.

(** C29: the two methods do not deadlock: as long as a call has not returned some
    goroutine can move, every move brings the calls closer to their ends, and from
    every state the calls can reach, all of them can be brought to return. *)
Theorem signal_ends (ps : list point) (w : world) :
  Forall (fun p => p = Broadcast \/ p = ReplicationStartedCh) ps ->
  reachable (start ps) w ->
  (0 < work w -> exists t, is_Some (step t w)) /\
  (forall t w', step t w = Some w' -> work w' < work w) /\
  exists w', reachable (start ps) w' /\ Forall (fun p => left p = 0) (w_points w').
Proof.
  intros Hps Hr. pose proof (reachable_inv ps w Hps Hr) as Hi. split_and!.
  - by apply unfinished_moves.
  - intros t w' E. by eapply step_work.
  - by eapply (finishes (work w) _ w).
Qed.

(** Two broadcasts and a waiting caller, interleaved: the caller gets its channel
    before anybody has signalled, and both broadcasts return. *)
Definition race : list point := [Broadcast; ReplicationStartedCh; Broadcast].
Definition race_schedule : list nat := [1; 0; 1; 2; 1; 1; 0; 0; 2; 0; 0; 0; 2; 2; 2; 2; 2].

Example race_end :
  w_points (run race_schedule (start race)) = [BDone; CDone 0; BDone] /\
  w_chans (run race_schedule (start race)) = [true].
Proof. by vm_compute. Qed.

Lemma race_fresh : Forall (fun p => p = Broadcast \/ p = ReplicationStartedCh) race.
Proof. unfold race. rewrite !Forall_cons. split_and!; auto. Qed.

Lemma race_reached : reachable (start race) (run race_schedule (start race)).
Proof. apply run_reachable, reach_start. Qed.

Lemma signal_once_witness :
  sg_didSignal (w_sig (run race_schedule (start race))) = true /\
  w_panicked (run race_schedule (start race)) = false.
Proof.
  destruct (signal_once race (run race_schedule (start race)) race_fresh race_reached)
    as (Hp & _ & _ & Hb).
  split; [|exact Hp]. apply (Hb 0). by vm_compute.
Defined.

Lemma signal_ends_witness :
  exists t, is_Some (step t (run [1; 0; 1] (start race))).
Proof.
  apply (signal_ends race (run [1; 0; 1] (start race)) race_fresh); [|vm_compute; lia].
  apply run_reachable, reach_start.
Defined.
