(* ===== verification/Commands.v ===== *)
(** Commands (src/protocol/commands.go): parsing a command out of a message, the
    table of command specifications, and which keys a command touches. *)

From S2P Require Import Prelude GoBase GoStrconv GoIO Kind Message Decoder Encoder Wire.

(** [type Command struct]. *)
Record Command := MkCommand {
  c_Name : bytes;
  c_Args : option (iter Message);
  c_Database : bytes;
  c_Message : Message;
}.

Definition commandsWithoutKey : list bytes :=
  str <$> ["FLUSHALL"; "FLUSHDB"; "SELECT"; "FUNCTION"; "CLIENT"; "CLUSTER"; "ACL";
           "COMMAND"; "CONFIG"; "PING"].

Definition commandsWithSubOp : list bytes :=
  str <$> ["BITOP"; "FUNCTION"; "SCRIPT"; "CLIENT"; "CLUSTER"; "ACL"; "COMMAND"; "CONFIG"].

Definition ErrInvalidCommand : error := Sentinel "invalid command".
Definition ErrNotImplemented : error := Sentinel "not implemented".

(** [strings.ToUpper]: byte-wise on ASCII; for other text the case mapping of
    Unicode, which is left open. *)
Class UnicodeCase := { upper_unicode : bytes -> bytes }.

Definition ascii_upper (b : byte) : byte :=
  if ((97 <=? byte_val b) && (byte_val b <=? 122))%Z
  then to_byte (byte_val b - 32) else b.

Definition ToUpper `{!UnicodeCase} (s : bytes) : bytes :=
  if forallb (fun b => (byte_val b <? 128)%Z) s then ascii_upper <$> s
  else upper_unicode s.

(** * [Cmd] *)

Section Cmd.
Context `{!FloatConv, !UnicodeCase} {X : Type}.

Definition invalid (format : string) : option Command * option error :=
  (None, Some (Errorf format [ErrInvalidCommand])).

Definition set_name (n : bytes) (c : Command) : Command :=
  MkCommand n (c_Args c) (c_Database c) (c_Message c).
Definition set_args (a : option (iter Message)) (c : Command) : Command :=
  MkCommand (c_Name c) a (c_Database c) (c_Message c).

(** The block under [if i == 0]: the name of the command, or the error returned. *)
Definition cmd_first (msg : Message) (all : bytes) (cmd : Command)
  : Command + option Command * option error :=
  let cmd := set_name (ToUpper all) cmd in
  if decide (c_Name cmd = []) then inr (invalid "%w; expected non-empty string for command name")
  else if bool_decide (c_Name cmd ∈ commandsWithoutKey) && (2 <? m_RunLength msg)%Z
  then inr (invalid "%w; expected at least two elements for command %s got %d")
  else inl (set_args (m_Seq msg) cmd).

(** The block under [if i == 1]. *)
Definition cmd_second (msg arg : Message) (cmd : Command)
  : M (heap * X) (Command + option Command * option error) :=
  if (m_RunLength msg <? 3)%Z
  then mret (inr (invalid "%w; expected at least three elements for command %s got %d"))
  else
    '(readAll, err) ← on_heap (message.ReadAll arg);
    match err with
    | Some e => mret (inr (None, Some e))
    | None =>
        mret (inl (set_args (m_Seq msg)
                     (set_name (c_Name cmd ++ str " " ++ ToUpper readAll) cmd)))
    end.

(** The body of the loop over the elements; the counter is incremented before it
    is tested. *)
Definition cmd_body (msg : Message) (st : Command * Z) (arg : Message)
    (err : option error)
  : M (heap * X) ((Command * Z) + option Command * option error) :=
  let '(cmd, i) := st in
  let i := (i + 1)%Z in
  match err with
  | Some e => mret (inr (None, Some e))
  | None =>
      if negb (bool_decide (m_Kind arg = kind.BulkString)) then
        mret (inr (invalid "%w; expected Bulk for %d-th element of message, string got %s"))
      else
        '(all, err) ← on_heap (message.ReadAll arg);
        match err with
        | Some e => mret (inr (None, Some e))
        | None =>
            match (if (i =? 0)%Z then cmd_first msg all cmd else inl cmd) with
            | inr r => mret (inr r)
            | inl cmd =>
                if negb (bool_decide (c_Name cmd ∈ commandsWithSubOp)) then
                  mret (inr (Some (set_args (m_Seq msg) cmd), None))
                else if (i =? 1)%Z then
                  res ← cmd_second msg arg cmd;
                  match res with
                  | inr r => mret (inr r)
                  | inl cmd => mret (inl (cmd, i))
                  end
                else mret (inl (cmd, i))
            end
        end
  end.

Definition Cmd (msg : Message) : M (heap * X) (option Command * option error) :=
  let cmd := MkCommand [] None [] msg in
  if negb (bool_decide (m_Kind msg = kind.Array)) then
    mret (invalid "%w; expected array got %s")
  else
    match m_Seq msg with
    | None => panic nil_deref
    | Some s =>
        res ← range_iter s (cmd_body msg) (cmd, 0%Z);
        mret (match res with inl (cmd, _) => (Some cmd, None) | inr r => r end)
    end.

(** * Keys *)

(** [firstN(n)]: the callback collects while [len(keys) <= n]. *)
Definition collect (stop : list bytes -> bool) (keys : list bytes) (m : Message)
    (_ : option error) : M (heap * X) (list bytes + list bytes) :=
  '(all, err) ← on_heap (message.ReadAll m);
  match err with
  | Some _ => mret (inr keys)
  | None =>
      let keys := keys ++ [all] in
      mret (if stop keys then inr keys else inl keys)
  end.

Definition run_args (args : option (iter Message)) (stop : list bytes -> bool)
  : M (heap * X) (list bytes) :=
  match args with
  | None => panic nil_deref
  | Some s =>
      res ← range_iter s (collect stop) [];
      mret (match res with inl keys => keys | inr keys => keys end)
  end.

Definition firstN (n : Z) (args : option (iter Message)) (size : Z)
  : M (heap * X) (list bytes * option error) :=
  if (size <? n)%Z
  then mret ([], Some (Errorf "%w; expected at least %d argument for firstArgKey"
                         [ErrInvalidCommand]))
  else
    keys ← run_args args (fun keys => negb (zlen keys <=? n)%Z);
    mret (keys, None).

Definition firstArgKeyFunc := firstN 1.

(** [allArgs]. *)
Definition allArgs (args : option (iter Message)) (_ : Z)
  : M (heap * X) (list bytes * option error) :=
  keys ← run_args args (fun _ => false);
  mret (keys, None).

(** [oddIndices]: its callback reads each element and has no return statement on
    the success path; [go_on] stands for what it would return there.  Nothing is
    ever added to [keys]. *)
Definition oddIndices (go_on : bool) (args : option (iter Message)) (size : Z)
  : M (heap * X) (list bytes * option error) :=
  if (Z.rem size 2 =? 1)%Z
  then mret ([], Some (Errorf "%w: expected an even number of arguments" [ErrInvalidCommand]))
  else
    _ ← run_args args (fun _ => negb go_on);
    mret ([], None).

Definition noKeysFunc (_ : option (iter Message)) (_ : Z)
  : M (heap * X) (list bytes * option error) := mret ([], None).

End Cmd.

(** The function literal of the LCS entry, which takes the arguments as strings. *)
Definition lcsKeys (args : list bytes) : list bytes * option error :=
  if (zlen args <? 2)%Z
  then ([], Some (Errorf "%w: expected at least two arguments" [ErrInvalidCommand]))
  else (take 2 args, None).

(** * The specification table *)

Inductive keys_fn := NoKeysFunc | AllArgs | FirstArgKeyFunc | OddIndices | LcsKeys.

Record CommandSpecification := MkSpec { sp_Keys : keys_fn; sp_Categories : list bytes }.

Definition spec (name : string) (k : keys_fn) (cats : list string)
  : bytes * CommandSpecification := (str name, MkSpec k (str <$> cats)).

Definition cmdSpec_list : list (bytes * CommandSpecification) :=
  [ spec "SELECT" NoKeysFunc ["fast"; "connection"];
    spec "UNLINK" AllArgs ["keyspace"; "write"; "fast"];
    spec "FLUSHALL" NoKeysFunc ["keyspace"; "write"; "slow"; "dangerous"];
    spec "APPEND" FirstArgKeyFunc ["write"; "string"; "fast"];
    spec "DECR" FirstArgKeyFunc ["write"; "string"; "fast"];
    spec "DECRBY" FirstArgKeyFunc ["write"; "string"; "fast"];
    spec "GET" FirstArgKeyFunc ["read"; "string"; "fast"];
    spec "GETDEL" FirstArgKeyFunc ["write"; "string"; "fast"];
    spec "GETEX" FirstArgKeyFunc ["write"; "string"; "fast"];
    spec "GETRANGE" FirstArgKeyFunc ["read"; "string"; "slow"];
    spec "GETSET" FirstArgKeyFunc ["write"; "string"; "fast"];
    spec "INCR" FirstArgKeyFunc ["write"; "string"; "fast"];
    spec "INCRBY" FirstArgKeyFunc ["write"; "string"; "fast"];
    spec "INCRBYFLOAT" FirstArgKeyFunc ["write"; "string"; "fast"];
    spec "LCS" LcsKeys ["read"; "string"; "slow"];
    spec "MGET" AllArgs ["read"; "string"; "fast"];
    spec "MSET" OddIndices ["write"; "string"; "fast"];
    spec "MSETNX" OddIndices ["write"; "string"; "fast"];
    spec "SET" FirstArgKeyFunc ["write"; "string"; "fast"];
    spec "SETRANGE" FirstArgKeyFunc ["write"; "string"; "fast"];
    spec "STRLEN" FirstArgKeyFunc ["read"; "string"; "fast"];
    spec "SADD" FirstArgKeyFunc ["write"; "set"; "fast"];
    spec "SREM" FirstArgKeyFunc ["write"; "set"; "fast"];
    spec "ZADD" FirstArgKeyFunc ["write"; "sortedset"; "fast"] ].

Definition cmdSpec : gmap bytes CommandSpecification := list_to_map cmdSpec_list.

(** The dispatch through the table.  Two of its entries do not have the type of the
    field: the missing return of [oddIndices] is [go_on], and the conversion the
    LCS entry would need from a sequence to strings is [strings_of]. *)
Section Keys.
Context `{!FloatConv} {X : Type}.
Context (go_on : bool) (strings_of : option (iter Message) -> M (heap * X) (list bytes)).

Definition run_keys (f : keys_fn) (args : option (iter Message)) (size : Z)
  : M (heap * X) (list bytes * option error) :=
  match f with
  | NoKeysFunc => noKeysFunc args size
  | AllArgs => allArgs args size
  | FirstArgKeyFunc => firstArgKeyFunc args size
  | OddIndices => oddIndices go_on args size
  | LcsKeys => l ← strings_of args; mret (lcsKeys l)
  end.

(** [Command.Keys]. *)
Definition Keys (cmd : Command) : M (heap * X) (list bytes * option error) :=
  match cmdSpec !! c_Name cmd with
  | None => mret ([], Some (Errorf "%w: %s %w" [ErrInvalidCommand; ErrNotImplemented]))
  | Some sp => run_keys (sp_Keys sp) (c_Args cmd) (m_RunLength (c_Message cmd))
  end.

End Keys.

(** [Command.IsWrite]. *)
Definition IsWrite (cmd : Command) : bool :=
  match cmdSpec !! c_Name cmd with
  | None => false
  | Some sp => bool_decide (str "write" ∈ sp_Categories sp)
  end.

(** * Reading arguments

    [args_in h ms ls ds]: the messages [ms] read the distinct sources [ls], and
    [ReadAll] of the i-th of them gives the i-th string of [ds]: what its source
    holds when that is what the message announces, the empty string when the
    source holds less and ends there. *)

Inductive args_in (h : heap) : list Message -> list nat -> list bytes -> Prop :=
| args_nil : args_in h [] [] []
| args_cons m l d ms ls ds :
    m_Reader m = Some (RSrc l) -> l < length (h_srcs h) ->
    (m_RunLength m = zlen (source_data (src_at h l)) /\ d = source_data (src_at h l)) \/
    ((zlen (source_data (src_at h l)) < m_RunLength m)%Z /\ d = []) ->
    s_end (src_at h l) <> Open -> l ∉ ls -> args_in h ms ls ds -> args_in h (m :: ms) (l :: ls) (d :: ds).

Lemma args_in_agree h h' ms ls ds :
  args_in h ms ls ds -> agree ls h h' -> args_in h' ms ls ds.
Proof.
  induction 1 as [|m l d ms ls ds Hr Hl Hd He Hni Ha IH]; intros [L A]; constructor; try done.
  - lia.
  - by rewrite A by left.
  - by rewrite A by left.
  - apply IH. split; [done|]. intros. apply A. by right.
Qed.

Lemma ReadAll_arg m l d h :
  m_Reader m = Some (RSrc l) -> l < length (h_srcs h) ->
  (m_RunLength m = zlen (source_data (src_at h l)) /\ d = source_data (src_at h l)) \/
  ((zlen (source_data (src_at h l)) < m_RunLength m)%Z /\ d = []) ->
  s_end (src_at h l) <> Open ->
  exists h', message.ReadAll m h = (Ret (d, None), h') /\ advanced l [] h h'.
Proof.
  intros Hr Hl [[Hn ->]|[Hn ->]] He.
  - apply ReadAll_src; try done. by rewrite app_nil_r.
  - destruct (ReadAll_short m l h Hr Hn Hl) as (h' & E & A). exists h'. split; [|done].
    rewrite E. by destruct (s_end (src_at h l)).
Qed.

(** What the callbacks collect from a list of strings. *)
Fixpoint collected (stop : list bytes -> bool) (keys ds : list bytes)
  : list bytes + list bytes :=
  match ds with
  | [] => inl keys
  | d :: ds =>
      let keys := keys ++ [d] in
      if stop keys then inr keys else collected stop keys ds
  end.

Lemma collect_arg {X} stop keys m err h (x : X) d h' :
  message.ReadAll m h = (Ret (d, None), h') ->
  collect stop keys m err (h, x) =
    (Ret (if stop (keys ++ [d]) then inr (keys ++ [d]) else inl (keys ++ [d])), (h', x)).
Proof.
  intros E. unfold collect. by erewrite bind_ret by (unfold on_heap; by rewrite E).
Qed.

Lemma range_collect {X} stop ms ls ds keys h (x : X) :
  args_in h ms ls ds ->
  exists h', range_list (collect stop) ms keys (h, x) =
      (Ret (collected stop keys ds), (h', x)) /\ untouched ls h h'.
Proof.
  intros Ha. revert keys h Ha. revert ls ds. induction ms as [|m ms IH];
    intros ls ds keys h Ha; inversion Ha as [|? l d ? ls' ds' Hr Hl Hd He Hni Ha']; subst.
  { exists h. by split. }
  destruct (ReadAll_arg m l d h) as (h1 & E1 & A1); [done..|].
  apply advanced_untouched in A1 as U1.
  destruct (IH ls' ds' (keys ++ [d]) h1) as (h2 & E2 & U2).
  { eapply args_in_agree; [done|]. eapply untouched_agree; [done|].
    intros l' ->%list_elem_of_singleton. done. }
  cbn [range_list collected].
  rewrite (bind_ret _ _ _ _ _ (collect_arg stop keys m None h x d h1 E1)).
  destruct (stop (keys ++ [d])).
  - exists h1. split; [done|]. destruct U1 as [L U]. split; [done|].
    intros l' Hl'. apply U. intros ->%list_elem_of_singleton. apply Hl'. by left.
  - exists h2. split; [done|]. by apply (untouched_trans [l] ls' h h1 h2).
Qed.

Lemma collected_firstN n keys ds :
  length keys <= n ->
  collected (fun keys => negb (zlen keys <=? Z.of_nat n)%Z) keys ds =
    (if decide (S n <= length keys + length ds) then inr else inl)
      (keys ++ take (S n - length keys) ds).
Proof.
  revert keys. induction ds as [|d ds IH]; intros keys Hk; simpl.
  { rewrite decide_False by lia. by rewrite take_nil, app_nil_r. }
  rewrite zlen_app. replace (zlen [d]) with 1%Z by done. unfold zlen at 1.
  destruct (decide (length keys = n)) as [<-|Hn].
  - rewrite (proj2 (Z.leb_gt _ _)) by lia. simpl. rewrite decide_True by lia.
    rewrite Nat.sub_succ_l, Nat.sub_diag by lia. by rewrite firstn_cons, take_0.
  - rewrite (proj2 (Z.leb_le _ _)) by lia. simpl.
    rewrite IH by (rewrite length_app; simpl; lia).
    rewrite length_app. simpl.
    replace (S n - (length keys + 1)) with (n - length keys) by lia.
    replace (S n - length keys) with (S (n - length keys)) by lia.
    rewrite firstn_cons, <- app_assoc. simpl.
    repeat case_decide; done || lia.
Qed.

(** After every argument was read, reading them again gives empty strings. *)
Lemma range_collect_drains {X} ms ls ds keys h (x : X) :
  args_in h ms ls ds ->
  exists h', range_list (collect (fun _ => false)) ms keys (h, x) =
      (Ret (inl (keys ++ ds)), (h', x)) /\ untouched ls h h' /\
    args_in h' ms ls (replicate (length ms) []).
Proof.
  intros Ha. revert keys h Ha. revert ls ds. induction ms as [|m ms IH];
    intros ls ds keys h Ha; inversion Ha as [|? l d ? ls' ds' Hr Hl Hd He Hni Ha']; subst.
  { exists h. rewrite app_nil_r. split_and!; [done|by split|constructor]. }
  destruct (ReadAll_arg m l d h) as (h1 & E1 & A1); [done..|].
  apply advanced_untouched in A1 as U1.
  destruct (IH ls' ds' (keys ++ [d]) h1) as (h2 & E2 & U2 & D2).
  { eapply args_in_agree; [done|]. eapply untouched_agree; [done|].
    intros l' ->%list_elem_of_singleton. done. }
  exists h2. cbn [range_list].
  rewrite (bind_ret _ _ _ _ _ (collect_arg _ keys m None h x d h1 E1)), E2, <- app_assoc.
  split_and!; [done|by apply (untouched_trans [l] ls' h h1 h2)|].
  simpl. constructor; [done| | | |done|done].
  - rewrite (proj1 U2), (adv_len _ _ _ _ A1). done.
  - rewrite (proj2 U2) by done. rewrite (adv_data _ _ _ _ A1), zlen_nil.
    pose proof (zlen_nonneg (source_data (src_at h l))).
    destruct (decide (m_RunLength m = 0%Z)); [by left|right].
    split; [destruct Hd as [[? _]|[? _]]; lia|done].
  - rewrite (proj2 U2) by done. by rewrite (adv_end _ _ _ _ A1).
Qed.

(** * Properties *)

Section cmd_proofs.
Context `{!FloatConv, !UnicodeCase} {X : Type}.

Lemma safe_ReadAll L m (st : heap * X) :
  message.srcs m ⊆ L ->
  safe (waiting L) (on_heap (message.ReadAll m)) st (fun _ st' => st'.2 = st.2).
Proof.
  intros HL. destruct st as [h x]. pose proof (ReadAll_safe m h) as Hf.
  unfold safe, on_heap in *. destruct (message.ReadAll m h) as [[] ?]; try done.
  destruct Hf as (l & Hl & Hs). exists l. split; [by apply HL|done].
Qed.

(** The first turn of the loop of [Cmd] ends it, with an error or with a command
    that has no name. *)
Lemma cmd_body_first msg cmd arg err (st : heap * X) :
  c_Name cmd = [] ->
  safe anywhere (cmd_body msg (cmd, 0%Z) arg err) st
    (fun res _ => exists r, res = inr r /\ forall c, r.1 = Some c -> c_Name c = []).
Proof.
  intros Hn. unfold cmd_body. destruct err; [by apply safe_ret; eexists|].
  destruct (negb _); [by apply safe_ret; eexists|].
  apply safe_bind. eapply safe_mono; [by eapply safe_anywhere, safe_ReadAll|].
  intros [all [e|]] st' _; [by apply safe_ret; eexists|].
  simpl. rewrite Hn.
  replace (bool_decide ([] ∈ commandsWithSubOp)) with false by by vm_compute.
  apply safe_ret. eexists. split; [done|]. by intros c [= <-].
Qed.

Lemma Cmd_unnamed msg (st : heap * X) :
  safe anywhere (Cmd msg) st (fun r _ => forall c, r.1 = Some c -> c_Name c = []).
Proof.
  unfold Cmd. destruct (negb _); [by apply safe_ret|].
  destruct (m_Seq msg) as [[[|m l]|r]|]; [| | |by apply safe_panic].
  - apply safe_ret. by intros c [= <-].
  - apply safe_bind. cbn [range_iter range_list]. apply safe_bind.
    eapply safe_mono; [by apply cmd_body_first|]. intros res st' (r & -> & Hr).
    by apply safe_ret.
  - apply safe_bind. cbn [range_iter]. apply safe_bind.
    eapply safe_mono; [apply (safe_anywhere (waiting [reader_src r])), safe_on_heap_Iterate; left|].
    intros [m err] st' _.
    eapply safe_mono; [by apply cmd_body_first|]. intros res st'' (r' & -> & Hr).
    by apply safe_ret.
Qed.

Lemma iter_within s : exists n L, iter_all (within n L) L s.
Proof.
  destruct s as [l|r]; simpl.
  - do 2 eexists. by apply within_list.
  - exists 1, [reader_src r]. split_and!; [split; [done|apply list_subseteq_nil]|left].
Qed.

Lemma run_args_safe args stop (st : heap * X) :
  safe anywhere (run_args args stop) st (fun _ st' => st'.2 = st.2).
Proof.
  unfold run_args. destruct args as [s|]; [|by apply safe_panic].
  destruct (iter_within s) as (n & L & Hs). eapply (safe_anywhere (waiting L)), safe_bind.
  eapply safe_mono; [apply (range_iter_safe (within n L) L
    (fun _ x => x = st.2) (fun _ x => x = st.2))|].
  - intros acc m err st0 Hx0 [_ HL]. unfold collect. apply safe_bind.
    eapply safe_mono; [by apply safe_ReadAll|]. intros [all [e|]] st1 Hx1; apply safe_ret.
    + simpl. congruence.
    + unfold loop_post. destruct (stop _); congruence.
  - done.
  - done.
  - intros [k|k] st' Hp; apply safe_ret; exact Hp.
Qed.

(** A command without a name is not in the table. *)
Lemma Keys_unnamed go_on strings_of c (st : heap * X) :
  c_Name c = [] -> Keys go_on strings_of c st =
    (Ret ([], Some (Errorf "%w: %s %w" [ErrInvalidCommand; ErrNotImplemented])), st).
Proof.
  intros Hn. unfold Keys. rewrite Hn.
  by replace (cmdSpec !! []) with (@None CommandSpecification) by by vm_compute.
Qed.

End cmd_proofs.

(** C37: [Cmd] does not run for ever on any message, and the command it returns never has a name:
    the loop counter is incremented before it is compared with 0.  So no command
    it returns is a write, and asking one for its keys always gives the
    not-implemented error. *)
Theorem Cmd_never_names `{!FloatConv, !UnicodeCase} {X} msg (st : heap * X) :
  (Cmd msg st).1 <> OutOfFuel /\
  forall c err st', Cmd msg st = (Ret (Some c, err), st') ->
  c_Name c = [] /\ IsWrite c = false /\
  forall go_on strings_of (st1 : heap * X), Keys go_on strings_of c st1 =
    (Ret ([], Some (Errorf "%w: %s %w" [ErrInvalidCommand; ErrNotImplemented])), st1).
Proof.
  pose proof (Cmd_unnamed msg st) as Hs. split; [by eapply safe_fuel_ok|].
  intros c err st' E. pose proof (safe_elim _ _ _ _ _ _ Hs E c eq_refl) as Hn.
  split_and!; [done| |intros; by apply Keys_unnamed].
  unfold IsWrite. rewrite Hn.
  by replace (cmdSpec !! []) with (@None CommandSpecification) by by vm_compute.
Qed.

(** [firstN n] returns one argument more than its name says: the first [n + 1]
    strings of the sequence (all of them when there are fewer), and its error is
    nil; with a size below [n] it returns no keys and an error. *)
Theorem firstN_keys {X} `{!FloatConv} n ms ls ds size h (x : X) :
  args_in h ms ls ds ->
  exists h', firstN (Z.of_nat n) (Some (IterList ms)) size (h, x) =
    (Ret (if (size <? Z.of_nat n)%Z
          then ([], Some (Errorf "%w; expected at least %d argument for firstArgKey"
                            [ErrInvalidCommand]))
          else (take (S n) ds, None)), (h', x)) /\ untouched ls h h'.
Proof.
  intros Ha. unfold firstN. destruct (size <? Z.of_nat n)%Z; [by exists h|].
  destruct (range_collect (fun keys => negb (zlen keys <=? Z.of_nat n)%Z) ms ls ds [] h x Ha)
    as (h' & E & U).
  exists h'. split; [|done].
  erewrite bind_ret by (unfold run_args, range_iter; erewrite bind_ret by exact E; done).
  rewrite collected_firstN by (simpl; lia). simpl app. simpl length.
  by case_decide.
Qed.

(** [allArgs] returns every string of the sequence the first time; since the
    readers are shared with the message and were consumed, a second call returns
    as many empty strings, with a nil error. *)
Theorem allArgs_once {X} `{!FloatConv} ms ls ds size h (x : X) :
  args_in h ms ls ds ->
  exists h1 h2,
    allArgs (Some (IterList ms)) size (h, x) = (Ret (ds, None), (h1, x)) /\
    allArgs (Some (IterList ms)) size (h1, x) =
      (Ret (replicate (length ms) [], None), (h2, x)).
Proof.
  intros Ha.
  destruct (range_collect_drains ms ls ds [] h x Ha) as (h1 & E1 & _ & D1).
  destruct (range_collect_drains ms ls _ [] h1 x D1) as (h2 & E2 & _ & _).
  exists h1, h2. unfold allArgs, run_args. split.
  - erewrite bind_ret by (unfold range_iter; erewrite bind_ret by exact E1; done). done.
  - erewrite bind_ret by (unfold range_iter; erewrite bind_ret by exact E2; done). done.
Qed.

(** The names of the commands that modify keys. *)
Definition write_names : list bytes :=
  str <$> ["UNLINK"; "FLUSHALL"; "APPEND"; "DECR"; "DECRBY"; "GETDEL"; "GETEX";
    "GETSET"; "INCR"; "INCRBY"; "INCRBYFLOAT"; "MSET"; "MSETNX"; "SET"; "SETRANGE";
    "SADD"; "SREM"; "ZADD"].

(** The commands that write: exactly these eighteen names make [IsWrite]
    true. *)
Theorem IsWrite_iff cmd :
  IsWrite cmd = true <->
  c_Name cmd ∈ write_names.
Proof.
  split.
  - unfold IsWrite. destruct (cmdSpec !! c_Name cmd) as [sp|] eqn:E; [|done].
    intros Hw. apply elem_of_list_to_map_2 in E.
    assert (Forall (fun p => bool_decide (str "write" ∈ sp_Categories p.2) = true ->
              p.1 ∈ write_names) cmdSpec_list) as Hall.
    { refine (bool_decide_unpack _ _). by vm_compute. }
    rewrite Forall_forall in Hall. by apply (Hall _ E).
  - intros Hn.
    assert (Forall (fun n => IsWrite (MkCommand n None [] message.zero) = true) write_names)
      as Hall by (refine (bool_decide_unpack _ _); by vm_compute).
    rewrite Forall_forall in Hall. apply (Hall _ Hn).
Qed.

(** [oddIndices], the key function of MSET and MSETNX, never returns a key,
    whatever its callback would return. *)
Theorem oddIndices_no_keys {X} `{!FloatConv} go_on args size (st : heap * X) :
  fuel_ok (oddIndices go_on args size) st /\
  forall ks err st', oddIndices go_on args size st = (Ret (ks, err), st') ->
  ks = [] /\ (err = None <-> Z.rem size 2 <> 1%Z).
Proof.
  assert (safe anywhere (oddIndices go_on args size) st (fun r _ =>
            r.1 = [] /\ (r.2 = None <-> Z.rem size 2 <> 1%Z))) as Hs.
  { unfold oddIndices. destruct (Z.eqb_spec (Z.rem size 2) 1).
    { apply safe_ret. simpl. naive_solver. }
    apply safe_bind. eapply safe_mono; [apply run_args_safe|].
    intros. apply safe_ret. simpl. naive_solver. }
  split; [by eapply safe_fuel_ok|]. intros ks err st' E.
  exact (safe_elim _ _ _ _ _ _ Hs E).
Qed.

(** * Concrete arguments *)

#[local] Existing Instance zero_floats.

Definition key_strings : list bytes := [str "k1"; str "k2"; str "k3"].
Definition key_heap : heap := Heap (buffer_source <$> key_strings) [].
Definition key_messages : list Message :=
  (fun l => message.BulkString (Some (RSrc l)) 2) <$> [0; 1; 2].

Lemma key_args : args_in key_heap key_messages [0; 1; 2] key_strings.
Proof.
  repeat (constructor; [done|simpl; lia|by left|done|refine (bool_decide_unpack _ _); by vm_compute|]).
  constructor.
Qed.

Lemma firstN_keys_witness :
  exists h', firstN 1 (Some (IterList key_messages)) 3 (key_heap, tt) =
    (Ret ([str "k1"; str "k2"], None), (h', tt)) /\ untouched [0; 1; 2] key_heap h'.
Proof. apply (firstN_keys 1 key_messages [0; 1; 2] key_strings 3 key_heap tt). apply key_args. Defined.

Lemma allArgs_once_witness :
  exists h1 h2,
    allArgs (Some (IterList key_messages)) 3 (key_heap, tt) = (Ret (key_strings, None), (h1, tt)) /\
    allArgs (Some (IterList key_messages)) 3 (h1, tt) = (Ret ([[]; []; []], None), (h2, tt)).
Proof. apply (allArgs_once key_messages [0; 1; 2] key_strings 3 key_heap tt). apply key_args. Defined.
