(* ===== verification/Replication.v ===== *)
(** The replication subscriber (src/anarchoredis/replication/replication.go): the
    handshake with the leader, the loop over the replication stream with the
    acknowledgements a second goroutine sends on the same connection, and the parser
    of the leader's replication information. *)

From S2P Require Import Prelude GoBase GoStrings GoStrconv GoIO Kind Message Decoder.
From S2P Require Import Encoder Wire Conn Link Signal Commands.

(** The file uses fields of a message that package message no longer has: [Str],
    [Array], [Indicator] and [Size].  What they hold is left open. *)
Class OldFields := {
  f_Str : Message -> bytes;
  f_Array : Message -> list Message;
  f_Indicator : Message -> byte;
  f_Size : Message -> Z;
}.

(** [type Subscriber struct]; [su_Logger] is whether the logger is set, [su_chans] the
    channel of the signal, as a list of at most one element. *)
Record Subscriber := MkSubscriber {
  su_LeaderAddr : bytes;
  su_MyAddr : bytes;
  su_Logger : bool;
  su_Offset : Z;
  su_ReplicationID : option bytes;
  su_signal : signal;
  su_chans : list bool;
}.

Definition set_Offset (o : Z) (s : Subscriber) : Subscriber :=
  MkSubscriber (su_LeaderAddr s) (su_MyAddr s) (su_Logger s) o (su_ReplicationID s) (su_signal s) (su_chans s).
Definition set_ReplicationID (id : bytes) (s : Subscriber) : Subscriber :=
  MkSubscriber (su_LeaderAddr s) (su_MyAddr s) (su_Logger s) (su_Offset s) (Some id) (su_signal s) (su_chans s).
Definition set_signal (w : world) (s : Subscriber) : Subscriber :=
  MkSubscriber (su_LeaderAddr s) (su_MyAddr s) (su_Logger s) (su_Offset s) (su_ReplicationID s) (w_sig w) (w_chans w).

(** [s.signal.Broadcast()] when no other goroutine is in the middle of a call. *)
Definition broadcast (s : Subscriber) : Subscriber :=
  set_signal (run [0; 0; 0; 0; 0] (World (su_signal s) (su_chans s) [Broadcast] false)) s.

(** * Messages on the connection *)

Section replication.
Context `{!FloatConv, !UnicodeCase, !OldFields} {C : Type} `{!Link C}.

Definition replconf_words (myHost myPort : bytes) (snapshotOnly : bool) : list bytes :=
  [str "REPLCONF"; str "listening-port"; myPort; str "ip-address"; myHost; str "capa"; str "psync2"]
    ++ if snapshotOnly then [str "snapshot-only"; str "1"] else [].

Definition psync_words (replicationID : bytes) (offset : Z) : list bytes :=
  [str "PSYNC"; replicationID; FormatInt offset].

(** Round trips one after the other, up to the first error; the answers are dropped. *)
Fixpoint round_trips (ms : list Message) : M (heap * C) (option error) :=
  match ms with
  | [] => mret None
  | m :: ms =>
      '(_, err) ← link_RoundTrip m;
      match err with
      | Some e => mret (Some e)
      | None => round_trips ms
      end
  end.

Definition shake (ms : list Message) (p : C) : M heap (C + error) := fun h =>
  match round_trips ms (h, p) with
  | (Ret (Some err), (h, _)) => (Ret (inr err), h)
  | (Ret None, (h, p)) => (Ret (inl p), h)
  | (Panic w, (h, _)) => (Panic w, h)
  | (Block, (h, _)) => (Block, h)
  | (OutOfFuel, (h, _)) => (OutOfFuel, h)
  end.

(** [startReplication]; [dial] is what dialling the leader and wrapping the connection
    gave.  The connection is not closed when it returns an error. *)
Definition startReplication (s : Subscriber) (dial : C + error) (replicationID : bytes)
    (offset : Z) (snapshotOnly : bool) : M heap (C + error) :=
  match dial with
  | inr err => mret (inr err)
  | inl p =>
      match SplitHostPort (su_MyAddr s) with
      | inr err => mret (inr err)
      | inl (myHost, myPort) =>
          ping ← protocol.NewOutgoingCommand [str "PING"];
          psync ← protocol.NewOutgoingCommand (psync_words replicationID offset);
          capa ← protocol.NewOutgoingCommand (replconf_words myHost myPort snapshotOnly);
          shake [ping; capa; psync] p
      end
  end.

(** The words of an acknowledgement. *)
Definition ack_words (offset : Z) : list bytes := [str "replconf"; str "ack"; FormatInt offset].

(** [replconfAck]: the answer it reads is the next message of the stream, whatever
    that is. *)
Definition replconfAck (s : Subscriber) (offset : Z) : M (heap * C) (option error) :=
  req ← on_heap (protocol.NewOutgoingCommand (ack_words offset));
  '(msg, err) ← link_RoundTrip req;
  match err with
  | Some e => mret (Some e)
  | None =>
      if bool_decide (ToUpper (f_Str msg) = str "PING") then
        if su_Logger s then
          pong ← on_heap (protocol.NewOutgoingCommand [str "PONG"]);
          '(_, err) ← link_Write pong;
          mret err
        else panic nil_deref
      else mret None
  end.

(** * [infoReplication] *)

(** The loop over the lines of the answer. *)
Fixpoint info_lines (lines : list bytes) (replids : list bytes) (offsets : list Z)
  : list bytes * list Z * option error :=
  match lines with
  | [] => (replids, offsets, None)
  | line :: lines =>
      match Split line (str ":") with
      | [k; v] =>
          let replids := if has_prefix (str "master_replid") k then replids ++ [v] else replids in
          if has_prefix (str "master_repl_offset") k then
            match ParseInt v with
            | inr err => ([], [], Some err)
            | inl offset => info_lines lines replids (offsets ++ [offset])
            end
          else info_lines lines replids offsets
      | _ => info_lines lines replids offsets
      end
  end.

Definition infoReplication (s : Subscriber) : M (heap * C) (list bytes * list Z * option error) :=
  i ← on_heap (protocol.NewBulkString (str "info"));
  r ← on_heap (protocol.NewBulkString (str "replication"));
  '(read, err) ← link_RoundTrip (protocol.NewArray [i; r]);
  match err with
  | Some e => mret ([], [], Some e)
  | None =>
      match info_lines (Split (f_Str read) kind.EOL) [] [] with
      | (replids, offsets, None) =>
          if su_Logger s then mret (replids, offsets, None) else panic nil_deref
      | r => mret r
      end
  end.

(** * [StreamUpdates] *)

Context {X : Type} (msgFunc : Message -> M (heap * X) (option error)).

(** Where the acknowledging goroutine is in its call of [replconfAck]: outside, after
    the [Write] of the round trip, after its [Flush], or after its [Read] when that gave
    a PING.  Each of these calls takes the connection's mutex on its own, so that the
    loop can run in between. *)
Inductive acking := AIdle | AWritten | AFlushed | APing.

#[global] Instance acking_eq_dec : EqDecision acking.
Proof. solve_decision. Defined.

(** What the loop works on: the subscriber, its connection, the state of the callback,
    and the acknowledging goroutine. *)
Record stream := Stream { st_sub : Subscriber; st_conn : C; st_x : X; st_ack : acking }.

Definition on_conn {A} (m : M (heap * C) A) : M (heap * stream) A := fun '(h, st) =>
  let '(o, (h, c)) := m (h, st_conn st) in (o, (h, Stream (st_sub st) c (st_x st) (st_ack st))).
Definition on_x {A} (m : M (heap * X) A) : M (heap * stream) A := fun '(h, st) =>
  let '(o, (h, x)) := m (h, st_x st) in (o, (h, Stream (st_sub st) (st_conn st) x (st_ack st))).
Definition modify_sub (f : Subscriber -> Subscriber) : M (heap * stream) unit := fun '(h, st) =>
  (Ret tt, (h, Stream (f (st_sub st)) (st_conn st) (st_x st) (st_ack st))).
Definition set_ack (a : acking) : M (heap * stream) unit := fun '(h, st) =>
  (Ret tt, (h, Stream (st_sub st) (st_conn st) (st_x st) a)).
Definition sub : M (heap * stream) Subscriber := fun st => (Ret (st_sub st.2), st).

(** [s.Logger.Info(...)]. *)
Definition log_info : M (heap * stream) unit :=
  s ← sub; if su_Logger s then mret tt else panic nil_deref.

Definition index_panic : string := "index out of range".

(** The block of [case "FULLRESYNC"]; the result is what the function returns, if it
    returns. *)
Definition full_resync (split : list bytes) : M (heap * stream) (option (option error)) :=
  match split !! 1 with
  | None => panic index_panic
  | Some id =>
      _ ← modify_sub (set_ReplicationID id);
      match split !! 2 with
      | None => panic index_panic
      | Some o =>
          match ParseInt o with
          | inr err => mret (Some (Some err))
          | inl offset =>
              _ ← modify_sub (set_Offset offset);
              _ ← modify_sub broadcast;
              mret None
          end
      end
  end.

(** The switch over the message that was read.  The second inner case of the array is
    taken by every message that starts with "PING". *)
Definition handle_update (read : Message) : M (heap * stream) (option (option error)) :=
  if bool_decide (m_Kind read = kind.SimpleString) then
    let split := Split (m_SimpleString read) (str " ") in
    if bool_decide (head split = Some (str "FULLRESYNC")) then full_resync split else mret None
  else if bool_decide (m_Kind read = kind.Array) then
    match f_Array read !! 0 with
    | None => panic index_panic
    | Some first =>
        if negb (bool_decide (f_Str first = str "PING")) then
          err ← on_x (msgFunc read);
          match err with
          | Some e => mret (Some (Some e))
          | None => mret None
          end
        else if negb (bool_decide (f_Str first = str "REPLCONF")) then
          _ ← log_info; mret None
        else mret None
    end
  else if bool_decide (f_Indicator read = kind.Error) then
    mret (Some (Some (Errorf "%s" [])))
  else if bool_decide (f_Indicator read = kind.BulkString) && has_prefix (str "REDIS0011") (f_Str read) then
    _ ← log_info; mret None
  else mret None.

(** The next part of the acknowledgement, up to the end of its next call on the
    connection; its errors are only logged. *)
Definition ack_turn : M (heap * stream) unit := fun st =>
  let s := st_sub st.2 in
  match st_ack st.2 with
  | AIdle =>
      req ← on_conn (on_heap (protocol.NewOutgoingCommand (ack_words (su_Offset s))));
      '(_, err) ← on_conn (link_Write req);
      set_ack (match err with Some _ => AIdle | None => AWritten end)
  | AWritten => _ ← on_conn link_Flush; set_ack AFlushed
  | AFlushed =>
      '(msg, err) ← on_conn link_Read;
      match err with
      | Some _ => set_ack AIdle
      | None =>
          if bool_decide (ToUpper (f_Str msg) = str "PING")
          then if su_Logger s then set_ack APing else panic nil_deref
          else set_ack AIdle
      end
  | APing =>
      pong ← on_conn (on_heap (protocol.NewOutgoingCommand [str "PONG"]));
      _ ← on_conn (link_Write pong);
      set_ack AIdle
  end st.

(** What happens next: a turn of the loop, the next part of the acknowledgement by the
    second goroutine, or the end of the context as the loop tests it. *)
Inductive turn := Loop | Ack | Cancel.

#[global] Instance turn_eq_dec : EqDecision turn.
Proof. solve_decision. Defined.

Fixpoint stream_loop (sched : list turn) : M (heap * stream) (option (option error)) :=
  match sched with
  | [] => mret None
  | Cancel :: _ => mret (Some None)
  | Ack :: sched =>
      _ ← ack_turn;
      stream_loop sched
  | Loop :: sched =>
      '(read, err) ← on_conn link_Read;
      match err with
      | Some e => mret (Some (Some (Errorf "%w reading message" [e])))
      | None =>
          ret ← handle_update read;
          match ret with
          | Some r => mret (Some r)
          | None =>
              _ ← modify_sub (fun s => set_Offset (wrap64 (su_Offset s + f_Size read)) s);
              stream_loop sched
          end
      end
  end.

(** [defer s.replconfAck(p, offset)]: it runs when the body returns and when it
    panics; its error is dropped. *)
Definition deferring {A} (final : M (heap * stream) (option error)) (returned : A -> bool)
    (body : M (heap * stream) A) : M (heap * stream) A := fun st =>
  match body st with
  | (Ret a, st) => if returned a then mbind (fun _ => mret a) final st else (Ret a, st)
  | (Panic w, st) => mbind (fun _ => panic w) final st
  | r => r
  end.

(** The part after the handshake.  The arguments of the deferred call are evaluated at
    the [defer] statement. *)
Definition stream_from (s : Subscriber) (p : C) (x : X) (sched : list turn)
  : M heap (option (option error) * Subscriber * X * option C) := fun h =>
  let offset := su_Offset s in
  let '(o, (h, st)) :=
    deferring (on_conn (replconfAck s offset)) (fun r => bool_decide (is_Some r))
      (stream_loop sched) (h, Stream s p x AIdle) in
  match o with
  | Ret r => (Ret (r, st_sub st, st_x st, Some (st_conn st)), h)
  | Panic w => (Panic w, h)
  | Block => (Block, h)
  | OutOfFuel => (OutOfFuel, h)
  end.

(** [StreamUpdates] under a schedule.  [None] as a result means that the loop is still running
    when the schedule ends. *)
Definition StreamUpdates (dial : C + error) (sched : list turn) (s : Subscriber) (x : X)
  : M heap (option (option error) * Subscriber * X * option C) :=
  let s := match su_ReplicationID s with None => set_ReplicationID [] s | Some _ => s end in
  if sg_didSignal (su_signal s) then
    mret (Some (Some (Errorf "attempting to reuse a subscriber, which is not allowed" [])), s, x, None)
  else
    started ← startReplication s dial (default [] (su_ReplicationID s)) (su_Offset s) false;
    match started with
    | inr err => mret (Some (Some err), s, x, None)
    | inl p => stream_from s p x sched
    end.

(** [Snapshot]: the messages are read and dropped.  The function has no return
    statement after the loop; [missing] stands for one. *)
Fixpoint snapshot_loop (missing : option reader * option error) (sched : list turn)
  : M (heap * C) (option (option reader * option error)) :=
  match sched with
  | [] | Ack :: _ => mret None
  | Cancel :: _ => mret (Some missing)
  | Loop :: sched =>
      '(_, err) ← link_Read;
      match err with
      | Some e => mret (Some (None, Some e))
      | None => snapshot_loop missing sched
      end
  end.

Definition snapshot_from (missing : option reader * option error) (p : C) (sched : list turn)
  : M heap (option (option reader * option error)) := fun h =>
  let '(o, (h, _)) := snapshot_loop missing sched (h, p) in (o, h).

Definition Snapshot (missing : option reader * option error) (dial : C + error)
    (sched : list turn) (s : Subscriber) : M heap (option (option reader * option error)) :=
  started ← startReplication s dial (str "?") 0 true;
  match started with
  | inr err => mret (Some (None, Some err))
  | inl p => snapshot_from missing p sched
  end.

End replication.
Arguments Stream {C X}.
Arguments stream : clear implicits.
Arguments st_sub {C X}.
Arguments st_conn {C X}.
Arguments st_x {C X}.
Arguments st_ack {C X}.
