(* ===== verification/ReplicationSpec.v ===== *)
(** What the replication subscriber does (src/anarchoredis/replication/replication.go):
    the bytes of the handshake over any connection, and on a scripted stream which
    messages reach the callback, what the offset becomes, and which messages the
    acknowledgements take away. *)

From S2P Require Import Prelude GoBase GoStrings GoStrconv GoIO Kind Message Decoder.
From S2P Require Import Encoder Wire Conn Link Signal Commands Replication.

(** * The handshake *)

Section handshake.
Context `{!FloatConv, !UnicodeCase, !OldFields} {C : Type} `{!Link C, !LinkSpec C}.




(** Three commands built one after the other have sources of their own. *)
Lemma commands_reps h a1 a2 a3 :
  exists m1 h1 m2 h2 m3 h3 fp,
    protocol.NewOutgoingCommand a1 h = (Ret m1, h1) /\
    protocol.NewOutgoingCommand a2 h1 = (Ret m2, h2) /\
    protocol.NewOutgoingCommand a3 h2 = (Ret m3, h3) /\
    reps h3 [command a1; command a3; command a2] [m1; m3; m2] fp /\
    (forall l, l ∈ fp -> length (h_srcs h) <= l).
Proof.
  destruct (NewOutgoingCommand_rep a1 h) as (m1 & h1 & fp1 & E1 & R1 & L1 & S1).
  destruct (NewOutgoingCommand_rep a2 h1) as (m2 & h2 & fp2 & E2 & R2 & L2 & S2).
  destruct (NewOutgoingCommand_rep a3 h2) as (m3 & h3 & fp3 & E3 & R3 & L3 & S3).
  pose proof (reps_bound _ _ _ _ (rep_reps _ _ _ _ R1)) as B1.
  pose proof (reps_bound _ _ _ _ (rep_reps _ _ _ _ R2)) as B2.
  assert (forall (fp : list nat) h0 h', (forall l, l < length (h_srcs h0) -> (l ∉ fp) /\ src_at h' l = src_at h0 l) ->
    forall l, l ∈ fp -> length (h_srcs h0) <= l) as Hge.
  { intros fp h0 h' Hs l Hl. destruct (decide (l < length (h_srcs h0))) as [Hlt|]; [|lia].
    by destruct (Hs l Hlt) as [Hn _]. }
  exists m1, h1, m2, h2, m3, h3, (fp1 ++ fp3 ++ fp2 ++ []). split_and!; [done..| |].
  - constructor; [eapply rep_agree; [exact R1|]|constructor; [done|constructor|]|].
    + split; [lia|]. intros l Hl. specialize (B1 l Hl).
      rewrite (proj2 (S3 l ltac:(lia))). apply S2. lia.
    + eapply rep_agree; [exact R2|]. split; [lia|]. intros l Hl. apply S3, B2, Hl.
    + constructor.
    + by intros l _ Hl%elem_of_nil.
    + rewrite app_nil_r. intros l Hl Hl'. specialize (B2 l Hl'). apply (Hge _ _ _ S3) in Hl. lia.
    + rewrite app_nil_r. intros l Hl [Hl'|Hl']%elem_of_app; specialize (B1 l Hl).
      * apply (Hge _ _ _ S3) in Hl'. lia.
      * apply (Hge _ _ _ S2) in Hl'. lia.
  - intros l. rewrite app_nil_r, !elem_of_app. intros [Hl|[Hl|Hl]].
    + by apply (Hge _ _ _ S1).
    + apply (Hge _ _ _ S3) in Hl. lia.
    + apply (Hge _ _ _ S2) in Hl. lia.
Qed.



End handshake.

(** * The information of the leader *)

(** The text of an INFO reply: lines, each ended by a line end, whose parts are separated
    by colons.  A field is a line of two parts, its name and its value; the title of a
    section is a line of one. *)
Definition info_text (lines : list (list bytes)) : bytes :=
  concat ((fun ps => Join ps (str ":") ++ kind.EOL) <$> lines).

Definition line_ok (ps : list bytes) : Prop :=
  ps <> [] /\ Forall (fun p => (":"%byte ∉ p) /\ (x0d ∉ p)) ps.

Definition fields_of (lines : list (list bytes)) : list (bytes * bytes) :=
  omap (fun ps => match ps with [k; v] => Some (k, v) | _ => None end) lines.

(** The values of the fields whose name starts with [master_replid], and with
    [master_repl_offset]. *)
Definition ids_of (fields : list (bytes * bytes)) : list bytes :=
  snd <$> filter (fun kv => has_prefix (str "master_replid") kv.1 = true) fields.
Definition offset_texts (fields : list (bytes * bytes)) : list bytes :=
  snd <$> filter (fun kv => has_prefix (str "master_repl_offset") kv.1 = true) fields.

Lemma Join_ends (xs : list bytes) sep : Join (xs ++ [[]]) sep = concat ((fun x => x ++ sep) <$> xs).
Proof.
  induction xs as [|x xs IH]; [done|]. cbn [app fmap list_fmap concat].
  rewrite Join_cons by by destruct xs. by rewrite IH, app_assoc.
Qed.

Lemma Join_not_elem c (ps : list bytes) sep : c ∉ sep -> Forall (fun p => c ∉ p) ps -> c ∉ Join ps sep.
Proof.
  intros Hs Hp. induction Hp as [|p ps Hp Hps IH]; [apply not_elem_of_nil|].
  destruct ps as [|q ps]; [done|]. cbn [Join]. rewrite !not_elem_of_app. by split_and!.
Qed.

(** The lines of the text, and what follows the last line end. *)
Lemma info_text_lines lines :
  Forall line_ok lines ->
  Split (info_text lines) kind.EOL = ((fun ps => Join ps (str ":")) <$> lines) ++ [[]].
Proof.
  intros Hl. unfold info_text.
  replace (concat ((fun ps => Join ps (str ":") ++ kind.EOL) <$> lines))
    with (Join (((fun ps => Join ps (str ":")) <$> lines) ++ [[]]) kind.EOL).
  2: { rewrite Join_ends, <- list_fmap_compose. done. }
  apply (Split_Join x0d [x0a]); [by destruct lines|]. apply Forall_app.
  split; [|repeat constructor; apply not_elem_of_nil].
  apply Forall_fmap. eapply Forall_impl; [exact Hl|]. intros ps [_ Hps]. simpl.
  apply Join_not_elem; [by apply (bool_decide_unpack _); vm_compute|].
  eapply Forall_impl; [exact Hps|]. by intros p [].
Qed.

Lemma Split_line ps : line_ok ps -> Split (Join ps (str ":")) (str ":") = ps.
Proof.
  intros [Hne Hps]. apply (Split_Join ":"%byte []); [done|].
  eapply Forall_impl; [exact Hps|]. by intros p [].
Qed.

(** The offsets as numbers, and the first of them that is none. *)
Definition numbers (ts : list bytes) : list Z :=
  omap (fun t => match ParseInt t with inl o => Some o | inr _ => None end) ts.
Definition first_bad (ts : list bytes) : option error :=
  head (omap (fun t => match ParseInt t with inl _ => None | inr e => Some e end) ts).

(** The loop over the lines. *)
Lemma info_lines_spec lines rest ids offs :
  Forall line_ok lines ->
  info_lines (((fun ps => Join ps (str ":")) <$> lines) ++ rest) ids offs =
    match first_bad (offset_texts (fields_of lines)) with
    | Some err => ([], [], Some err)
    | None => info_lines rest (ids ++ ids_of (fields_of lines)) (offs ++ numbers (offset_texts (fields_of lines)))
    end.
Proof.
  revert ids offs. induction lines as [|ps lines IH]; intros ids offs Hl.
  { cbn. by rewrite !app_nil_r. }
  apply Forall_cons in Hl as [Hps Hl]. cbn [fmap list_fmap app info_lines]. rewrite Split_line by done.
  destruct ps as [|k [|v [|]]]; try by apply IH.
  change (fields_of ([k; v] :: lines)) with ((k, v) :: fields_of lines).
  unfold ids_of, offset_texts, first_bad, numbers in *. rewrite !filter_cons. cbn [fst snd].
  destruct (has_prefix (str "master_repl_offset") k).
  - rewrite decide_True by done. cbn [fmap list_fmap snd omap list_omap].
    destruct (ParseInt v) as [o|er]; [|done]. rewrite IH by done.
    destruct (head _); [done|]. destruct (has_prefix (str "master_replid") k); cbn; by rewrite <- !app_assoc.
  - rewrite decide_False by done. rewrite IH by done.
    destruct (head _); [done|]. destruct (has_prefix (str "master_replid") k); cbn; by rewrite <- ?app_assoc.
Qed.

Lemma info_lines_text lines :
  Forall line_ok lines ->
  info_lines (((fun ps => Join ps (str ":")) <$> lines) ++ [[]]) [] [] =
    match first_bad (offset_texts (fields_of lines)) with
    | Some err => ([], [], Some err)
    | None => (ids_of (fields_of lines), numbers (offset_texts (fields_of lines)), None)
    end.
Proof.
  intros Hl. rewrite info_lines_spec by done. destruct (first_bad _); [done|]. cbn. done.
Qed.

(** * The stream, on a scripted connection *)

Definition sum_list_with_Z {A} (f : A -> Z) (l : list A) : Z := foldr (fun x n => (f x + n)%Z) 0%Z l.

Lemma Buffer_never_fails e : ~ fails_with Buffer e.
Proof. intros (p & w & n & w' & E). simpl in E. by simplify_eq. Qed.

Section stream.
Context `{!FloatConv, !UnicodeCase, !OldFields}.

(** The two bulk strings of the INFO request. *)
Lemma info_request h :
  exists i h1 r h2 fp, protocol.NewBulkString (str "info") h = (Ret i, h1) /\
    protocol.NewBulkString (str "replication") h1 = (Ret r, h2) /\
    rep h2 (command [str "info"; str "replication"]) (protocol.NewArray [i; r]) fp.
Proof.
  destruct (new_bulk_strings_rep [str "info"; str "replication"] h) as (ms & h' & E & R & _ & _).
  cbn [protocol.new_bulk_strings] in E.
  apply bind_ret_inv in E as (i & h1 & E1 & E). apply bind_ret_inv in E as (l & h2 & E2 & E).
  apply bind_ret_inv in E2 as (r & h3 & E2 & E3). unfold mbind, M_bind, mret, M_ret in E, E3. simplify_eq.
  exists i, h1, r, h'. eexists. split_and!; [done..|].
  apply (rep_seq _ _ kind.Array _ [i; r]); try done. left.
Qed.

Lemma script_write_rep h c v m fp :
  rep h v m fp ->
  exists n h', script_write m (h, c) = (Ret (n, None), (h', Script (sc_in c) (sc_end c) (sc_out c ++ wire v))) /\
    untouched fp h h'.
Proof.
  intros Hr.
  destruct (encode_writes_wire (message.depth m) (MkEncoder 0 0) h v m fp (MkBuffer (sc_out c)) Hr ltac:(lia))
    as (n & err & h' & [w'] & E & Hs & U).
  destruct err as [e|]; [exfalso; by apply (Buffer_never_fails e), (sn_error _ _ _ _ _ Hs)|].
  apply sends_full in Hs as [_ Ha]. simpl in Ha. subst w'.
  exists (0 + n)%Z, h'. split; [|done]. unfold script_write, Encode. by rewrite E.
Qed.

(** Round trips on a script: every one takes the next message as its answer. *)
Lemma round_trips_script h c vs ms fp :
  reps h vs ms fp -> length ms <= length (sc_in c) ->
  exists h', round_trips ms (h, c) =
    (Ret None, (h', Script (drop (length ms) (sc_in c)) (sc_end c) (sc_out c ++ concat (wire <$> vs)))).
Proof.
  revert h c vs fp. induction ms as [|m ms IH]; intros h c vs fp Hr Hlen;
    inversion Hr as [|v ? fp1 vs1 ? fps R1 Rs Hdis]; subst.
  { exists h. destruct c. simpl. by rewrite app_nil_r. }
  destruct (script_write_rep h c v m fp1 R1) as (n & h1 & E1 & U1).
  destruct c as [ins e out]. cbn [sc_in sc_end sc_out] in *. destruct ins as [|a ins]; simpl in Hlen; [lia|].
  assert (link_RoundTrip (C := script) m (h, Script (a :: ins) e out) =
    (Ret (a, None), (h1, Script ins e (out ++ wire v)))) as E.
  { unfold link_RoundTrip, mbind, M_bind. cbn [link_Write script_link]. by rewrite E1. }
  cbn [round_trips]. rewrite (bind_ret _ _ _ _ _ E).
  destruct (IH h1 (Script ins e (out ++ wire v)) vs1 fps) as [h2 E2].
  - eapply reps_agree; [done|]. eapply untouched_agree; [exact U1|]. intros l Hl Hf. by apply (Hdis l).
  - simpl. lia.
  - exists h2. rewrite E2. cbn [sc_in sc_end sc_out length drop fmap list_fmap concat]. by rewrite <- app_assoc.
Qed.

Lemma startReplication_script s c id offset snap h host port :
  SplitHostPort (su_MyAddr s) = inl (host, port) -> 3 <= length (sc_in c) ->
  exists h' c', startReplication s (inl c) id offset snap h = (Ret (inl c'), h') /\
    sc_in c' = drop 3 (sc_in c) /\ sc_end c' = sc_end c.
Proof.
  intros Ha Hlen. unfold startReplication. rewrite Ha.
  destruct (commands_reps h [str "PING"] (psync_words id offset) (replconf_words host port snap))
    as (m1 & h1 & m2 & h2 & m3 & h3 & fp & E1 & E2 & E3 & R & Hfp).
  rewrite (bind_ret _ _ _ _ _ E1), (bind_ret _ _ _ _ _ E2), (bind_ret _ _ _ _ _ E3).
  destruct (round_trips_script h3 c _ _ _ R Hlen) as [h4 E4].
  unfold shake. rewrite E4. by do 2 eexists.
Qed.

Definition pong : bytes := wire (command [str "PONG"]).

(** The callback that records the messages it is called with. *)
Definition record (m : Message) : M (heap * list Message) (option error) := fun '(h, l) =>
  (Ret None, (h, l ++ [m])).

(** An acknowledgement takes one message off the stream. *)
Lemma replconfAck_script s offset h c :
  exists o h' c', replconfAck s offset (h, c) = (o, (h', c')) /\
    sc_in c' = tail (sc_in c) /\ sc_end c' = sc_end c /\
    (su_Logger s = true -> exists err, o = Ret err) /\
    exists p, sc_out c' = sc_out c ++ wire (command (ack_words offset)) ++ p /\ (p = [] \/ p = pong).
Proof.
  destruct (NewOutgoingCommand_rep (ack_words offset) h) as (m & h1 & fp & E1 & R1 & _ & _).
  destruct (script_write_rep h1 c _ m fp R1) as (n & h2 & E2 & _).
  destruct c as [ins e out]. cbn [sc_in sc_end sc_out] in *.
  unfold replconfAck, mbind, M_bind, on_heap, link_RoundTrip. rewrite E1.
  unfold mbind, M_bind. cbn [link_Write script_link]. rewrite E2.
  cbn [link_Flush script_link link_Read]. unfold mret, M_ret, script_read. cbn [sc_in].
  destruct ins as [|r ins].
  { do 3 eexists. split; [reflexivity|]. split_and!; [done|done|by eauto|].
    exists []. rewrite app_nil_r. cbn [sc_out]. auto. }
  case_bool_decide.
  2:{ do 3 eexists. split; [reflexivity|]. split_and!; [done|done|by eauto|].
      exists []. rewrite app_nil_r. cbn [sc_out]. auto. }
  destruct (su_Logger s).
  2:{ do 3 eexists. split; [reflexivity|]. split_and!; [done|done|done|].
      exists []. rewrite app_nil_r. cbn [sc_out]. auto. }
  destruct (NewOutgoingCommand_rep [str "PONG"] h2) as (m' & h3 & fp' & E3 & R3 & _ & _).
  rewrite E3.
  destruct (script_write_rep h3 (Script ins e (out ++ wire (command (ack_words offset)))) _ m' fp' R3)
    as (n' & h4 & E4 & _).
  cbn [sc_in sc_end sc_out] in *. rewrite E4.
  do 3 eexists. split; [reflexivity|]. split_and!; [done|done|by eauto|].
  exists pong. cbn [sc_out]. rewrite <- app_assoc. auto.
Qed.

(** The parts of an acknowledgement on a script: where the goroutine is afterwards, and
    what is left of the stream.  The answer it waits for is the next message. *)
Definition is_ping (m : Message) : bool := bool_decide (ToUpper (f_Str m) = str "PING").

Definition ack_after (a : acking) (ms : list Message) : acking * list Message :=
  match a with
  | AIdle => (AWritten, ms)
  | AWritten => (AFlushed, ms)
  | AFlushed =>
      match ms with
      | [] => (AIdle, [])
      | m :: ms => (if is_ping m then APing else AIdle, ms)
      end
  | APing => (AIdle, ms)
  end.

Lemma ack_turn_script {X} s c a (x : X) h :
  su_Logger s = true ->
  exists h' c', ack_turn (h, Stream s c x a) =
      (Ret tt, (h', Stream s c' x (ack_after a (sc_in c)).1)) /\
    sc_in c' = (ack_after a (sc_in c)).2 /\ sc_end c' = sc_end c.
Proof.
  intros Hl. unfold ack_turn. cbn [snd st_sub st_ack]. destruct a; cbn [ack_after].
  - destruct (NewOutgoingCommand_rep (ack_words (su_Offset s)) h) as (m & h1 & fp & E1 & R1 & _ & _).
    destruct (script_write_rep h1 c _ m fp R1) as (n & h2 & E2 & _).
    unfold mbind, M_bind, on_conn, on_heap. cbn [st_conn st_sub st_x st_ack]. rewrite E1.
    cbn [st_conn st_sub st_x st_ack link_Write script_link]. rewrite E2. do 2 eexists. split; [reflexivity|done].
  - do 2 eexists. split; [reflexivity|done].
  - destruct c as [[|m ms] e out]; unfold mbind, M_bind, on_conn;
      cbn [st_conn st_sub st_x st_ack link_Read script_link script_read sc_in];
      [do 2 eexists; split; [reflexivity|done]|].
    fold (is_ping m). rewrite Hl. destruct (is_ping m); do 2 eexists; (split; [reflexivity|done]).
  - destruct (NewOutgoingCommand_rep [str "PONG"] h) as (m & h1 & fp & E1 & R1 & _ & _).
    destruct (script_write_rep h1 c _ m fp R1) as (n & h2 & E2 & _).
    unfold mbind, M_bind, on_conn, on_heap. cbn [st_conn st_sub st_x st_ack]. rewrite E1.
    cbn [st_conn st_sub st_x st_ack link_Write script_link]. rewrite E2. do 2 eexists. split; [reflexivity|done].
Qed.

(** ** What a message means *)

(** The identifier and the offset of a FULLRESYNC. *)
Definition resync (m : Message) : option (bytes * Z) :=
  if bool_decide (m_Kind m = kind.SimpleString) then
    match Split (m_SimpleString m) (str " ") with
    | w :: id :: o :: _ =>
        if bool_decide (w = str "FULLRESYNC") then
          match ParseInt o with inl off => Some (id, off) | inr _ => None end
        else None
    | _ => None
    end
  else None.

(** The messages passed to the callback: every array that does not start with PING. *)
Definition forwarded (m : Message) : bool :=
  bool_decide (m_Kind m = kind.Array) &&
  match f_Array m with a :: _ => negb (bool_decide (f_Str a = str "PING")) | [] => false end.

(** The messages that do not end the loop. *)
Definition regular (m : Message) : Prop :=
  if bool_decide (m_Kind m = kind.SimpleString)
  then head (Split (m_SimpleString m) (str " ")) = Some (str "FULLRESYNC") -> is_Some (resync m)
  else if bool_decide (m_Kind m = kind.Array) then f_Array m <> []
  else f_Indicator m <> kind.Error.

Definition resynced (m : Message) (s : Subscriber) : Subscriber :=
  match resync m with
  | Some (id, off) => broadcast (set_Offset off (set_ReplicationID id s))
  | None => s
  end.

Definition updated (s : Subscriber) (m : Message) : Subscriber :=
  let s := resynced m s in set_Offset (wrap64 (su_Offset s + f_Size m)) s.

(** ** The callback *)

Section callback.
Context {X : Type} (msgFunc : Message -> M (heap * X) (option error)).

(** The callback is called with the messages one after the other, each time in a heap
    that others have changed meanwhile, up to the first call that does not return
    nil. *)
Inductive calls : list Message -> X -> outcome (option error) -> X -> Prop :=
| calls_nil x : calls [] x (Ret None) x
| calls_next m ms h x h1 x1 o x' :
    msgFunc m (h, x) = (Ret None, (h1, x1)) -> calls ms x1 o x' -> calls (m :: ms) x o x'
| calls_stop m ms h x o h1 x1 :
    msgFunc m (h, x) = (o, (h1, x1)) -> o <> Ret None -> calls (m :: ms) x o x1.

(** What becomes of the loop. *)
Definition loop_result (o : outcome (option error)) : outcome (option (option error)) :=
  match o with
  | Ret None => Ret None
  | Ret (Some e) => Ret (Some (Some e))
  | Panic w => Panic w
  | Block => Block
  | OutOfFuel => OutOfFuel
  end.

Lemma log_info_set h (st : stream script X) :
  su_Logger (st_sub st) = true -> log_info (h, st) = (Ret tt, (h, st)).
Proof. intros Hl. unfold log_info, sub, mbind, M_bind. simpl. by rewrite Hl. Qed.

Lemma handle_regular m h (st : stream script X) :
  regular m -> su_Logger (st_sub st) = true ->
  handle_update msgFunc m (h, st) =
    if forwarded m then
      let '(o, (h', x)) := msgFunc m (h, st_x st) in
      (loop_result o, (h', Stream (resynced m (st_sub st)) (st_conn st) x (st_ack st)))
    else (Ret None, (h, Stream (resynced m (st_sub st)) (st_conn st) (st_x st) (st_ack st))).
Proof.
  destruct st as [s c x ak]. cbn [st_sub st_conn st_x st_ack]. unfold regular, handle_update, resynced, forwarded.
  intros Hr Hl. case_bool_decide as Hk.
  - assert (bool_decide (m_Kind m = kind.Array) = false) as ->.
    { apply bool_decide_eq_false_2. by rewrite Hk. }
    cbn [andb]. unfold resync in *. rewrite (bool_decide_eq_true_2 _ Hk) in *.
    case_bool_decide as Hh.
    + specialize (Hr Hh). unfold full_resync.
      destruct (Split (m_SimpleString m) (str " ")) as [|w [|id [|o rest]]]; try by destruct Hr.
      simpl in Hh. injection Hh as ->. rewrite bool_decide_eq_true_2 in * by done. cbn [lookup list_lookup].
      destruct (ParseInt o) as [off|e]; [done|by destruct Hr].
    + destruct (Split (m_SimpleString m) (str " ")) as [|w [|id [|o rest]]]; try done.
      rewrite bool_decide_eq_false_2; [done|]. by intros ->.
  - unfold resync. rewrite (bool_decide_eq_false_2 _ Hk).
    case_bool_decide as Ha; cbn [andb].
    + destruct (f_Array m) as [|a l]; [done|]. cbn [lookup list_lookup].
      case_bool_decide as Hp; cbn [negb].
      * rewrite (bool_decide_eq_false_2 (f_Str a = str "REPLCONF")) by by rewrite Hp.
        cbn [negb]. by rewrite (bind_ret _ _ _ _ _ (log_info_set h (Stream s c x ak) Hl)).
      * unfold mbind, M_bind, on_x. cbn [st_sub st_conn st_x st_ack].
        by destruct (msgFunc m (h, x)) as [[[e|]| | |] [h' x']].
    + rewrite (bool_decide_eq_false_2 _ Hr). destruct (_ && _); [|done].
      by rewrite (bind_ret _ _ _ _ _ (log_info_set h (Stream s c x ak) Hl)).
Qed.

End callback.

Lemma resynced_logger m s : su_Logger (resynced m s) = su_Logger s.
Proof. unfold resynced. by destruct (resync m) as [[id off]|]. Qed.

(** What becomes of a stream of messages under a schedule: the messages the loop reads,
    what is left, and where the acknowledging goroutine is.  A message that arrives when
    that goroutine reads is its answer, and gone for the loop. *)
Record arrival := Arrival { ar_loop : list Message; ar_rest : list Message; ar_ack : acking }.

Fixpoint arrivals (a : acking) (sched : list turn) (ms : list Message) : arrival :=
  match sched with
  | Loop :: sched =>
      match ms with
      | [] => Arrival [] [] a
      | m :: ms => let r := arrivals a sched ms in Arrival (m :: ar_loop r) (ar_rest r) (ar_ack r)
      end
  | Ack :: sched => let '(a, ms) := ack_after a ms in arrivals a sched ms
  | _ => Arrival [] ms a
  end.

(** The messages the loop reads, when the acknowledging goroutine starts outside. *)
Definition loop_msgs (sched : list turn) (ms : list Message) : list Message :=
  ar_loop (arrivals AIdle sched ms).

Lemma ack_after_suffix a ms : exists k, k <= 1 /\ (ack_after a ms).2 = drop k ms.
Proof. destruct a, ms; by (exists 0; split; [lia|done]) || by (exists 1; split; [lia|done]). Qed.

Lemma arrivals_Forall (P : Message -> Prop) a sched ms : Forall P ms -> Forall P (ar_loop (arrivals a sched ms)).
Proof.
  revert a ms. induction sched as [|[] sched IH]; intros a ms Hm; [constructor| | |constructor]; cbn [arrivals].
  - destruct ms as [|m ms]; [constructor|]. apply Forall_cons in Hm as [? ?]. simpl. constructor; auto.
  - destruct (ack_after_suffix a ms) as (k & _ & Hk). destruct (ack_after a ms) as [a' ms'].
    simpl in Hk. subst ms'. apply IH. by apply Forall_drop.
Qed.

Lemma loop_msgs_Forall (P : Message -> Prop) sched ms : Forall P ms -> Forall P (loop_msgs sched ms).
Proof. apply arrivals_Forall. Qed.

(** The turns, one after the other. *)
Lemma stream_loop_calls {X} (msgFunc : Message -> M (heap * X) (option error)) sched ms h s c x a :
  sc_in c = ms -> Cancel ∉ sched -> length sched <= length ms ->
  Forall regular ms -> su_Logger s = true ->
  exists o h' s' c' x' a', stream_loop msgFunc sched (h, Stream s c x a) = (loop_result o, (h', Stream s' c' x' a')) /\
    calls msgFunc (filter (fun m => forwarded m = true) (ar_loop (arrivals a sched ms))) x o x' /\
    (o = Ret None -> s' = foldl updated s (ar_loop (arrivals a sched ms)) /\
       sc_in c' = ar_rest (arrivals a sched ms) /\ a' = ar_ack (arrivals a sched ms)).
Proof.
  revert ms h s c x a. induction sched as [|t sched IH]; intros ms h s c x a Hc Hn Hlen Hr Hl.
  { exists (Ret None), h, s, c, x, a. split_and!; [done|constructor|done]. }
  apply not_elem_of_cons in Hn as [Ht Hn].
  destruct t; [| |done]; cbn [stream_loop arrivals].
  - destruct ms as [|m ms]; simpl in Hlen; [lia|]. apply Forall_cons in Hr as [Hm Hr].
    destruct c as [ins e out]. simpl in Hc. subst ins.
    assert (on_conn (X := X) link_Read (h, Stream s (Script (m :: ms) e out) x a) =
      (Ret (m, None), (h, Stream s (Script ms e out) x a))) as E by done.
    rewrite (bind_ret _ _ _ _ _ E).
    pose proof (handle_regular msgFunc m h (Stream s (Script ms e out) x a) Hm Hl) as Eh.
    cbn [st_sub st_conn st_x st_ack] in Eh. cbn [ar_loop ar_rest ar_ack foldl].
    pose proof (fun h1 x1 => IH ms h1 (updated s m) (Script ms e out) x1 a eq_refl Hn ltac:(lia) Hr
      ltac:(unfold updated; simpl; by rewrite resynced_logger)) as Hnext.
    rewrite filter_cons. destruct (forwarded m).
    + rewrite decide_True by done. destruct (msgFunc m (h, x)) as [o [h1 x1]] eqn:Ef.
      assert (o = Ret None \/ o <> Ret None) as [->|Ho] by (destruct o as [[]| | |]; auto).
      * rewrite (bind_ret _ _ _ _ _ Eh). destruct (Hnext h1 x1) as (o & h' & s' & c' & x' & a' & E' & Hcalls & Hend).
        exists o, h', s', c', x', a'. split_and!; [exact E'|by eapply calls_next|exact Hend].
      * exists o, h1, (resynced m s), (Script ms e out), x1, a. split_and!; [|by eapply calls_stop|done].
        unfold mbind, M_bind. rewrite Eh. by destruct o as [[]| | |].
    + rewrite decide_False by done. rewrite (bind_ret _ _ _ _ _ Eh). apply Hnext.
  - destruct (ack_turn_script s c a x h Hl) as (h1 & c1 & E1 & Hi & _).
    rewrite (bind_ret _ _ _ _ _ E1). rewrite Hc in Hi |- *.
    destruct (ack_after_suffix a ms) as (k & Hk & Hms). destruct (ack_after a ms) as [a' ms'].
    simpl in Hi, Hms, Hlen |- *. apply IH; [done|done| | |done]; rewrite Hms.
    + rewrite length_drop. lia.
    + by apply Forall_drop.
Qed.

(** The callback that records is never in the way. *)
Lemma calls_record ms x o x' : calls record ms x o x' -> o = Ret None /\ x' = x ++ ms.
Proof.
  intros Hc. induction Hc as [x|m ms h x h1 x1 o x' E _ [-> ->]|m ms h x o h1 x1 E Ho].
  - by rewrite app_nil_r.
  - simpl in E. injection E as <- <-. by rewrite <- app_assoc.
  - simpl in E. by injection E as <- _ _.
Qed.

(** The loop with the callback that records. *)
Lemma stream_loop_record sched h s c x :
  Cancel ∉ sched -> length sched <= length (sc_in c) ->
  Forall regular (sc_in c) -> su_Logger s = true ->
  exists h' c', stream_loop record sched (h, Stream s c x AIdle) =
    (Ret None, (h', Stream (foldl updated s (loop_msgs sched (sc_in c))) c'
       (x ++ filter (fun m => forwarded m = true) (loop_msgs sched (sc_in c)))
       (ar_ack (arrivals AIdle sched (sc_in c))))) /\
    sc_in c' = ar_rest (arrivals AIdle sched (sc_in c)).
Proof.
  intros Hn Hlen Hr Hl.
  destruct (stream_loop_calls record sched _ h s c x AIdle eq_refl Hn Hlen Hr Hl)
    as (o & h' & s' & c' & x' & a' & E & Hc & Hend).
  apply calls_record in Hc as [-> ->]. destruct (Hend eq_refl) as (-> & Hin & ->). by exists h', c'.
Qed.

(** Resynchronising does not touch the sum of the sizes that follow. *)
Lemma updated_offset ms s :
  int64_range (su_Offset s) -> Forall (fun m => resync m = None) ms ->
  su_Offset (foldl updated s ms) = wrap64 (su_Offset s + sum_list_with_Z f_Size ms) /\
  su_ReplicationID (foldl updated s ms) = su_ReplicationID s /\
  su_signal (foldl updated s ms) = su_signal s.
Proof.
  revert s. induction ms as [|m ms IH]; intros s Hs Hr.
  { simpl. by rewrite Z.add_0_r, wrap64_small. }
  apply Forall_cons in Hr as [Hm Hr]. cbn [foldl].
  assert (updated s m = set_Offset (wrap64 (su_Offset s + f_Size m)) s) as ->.
  { unfold updated, resynced. by rewrite Hm. }
  destruct (IH (set_Offset (wrap64 (su_Offset s + f_Size m)) s)) as (Ho & Hi & Hg);
    [apply wrap64_range|done|].
  rewrite Ho, Hi, Hg. split_and!; [|done..]. simpl. rewrite wrap64_add. f_equal. lia.
Qed.

(** Without an announcement the signal is as it was. *)
Lemma updated_quiet ms s :
  Forall (fun m => resync m = None) ms ->
  su_signal (foldl updated s ms) = su_signal s /\ su_chans (foldl updated s ms) = su_chans s.
Proof.
  revert s. induction ms as [|m ms IH]; intros s Hr; [done|]. apply Forall_cons in Hr as [Hm Hr].
  cbn [foldl]. destruct (IH (updated s m) Hr) as [-> ->]. unfold updated, resynced. by rewrite Hm.
Qed.

(** The text of an announcement. *)
Lemma resync_text m id off :
  m_Kind m = kind.SimpleString ->
  m_SimpleString m = str "FULLRESYNC " ++ id ++ str " " ++ FormatInt off ->
  " "%byte ∉ id -> int64_range off -> resync m = Some (id, off).
Proof.
  intros Hk Ht Hid Hoff. unfold resync. rewrite bool_decide_eq_true_2 by done.
  assert (m_SimpleString m = Join [str "FULLRESYNC"; id; FormatInt off] (str " ")) as -> by by rewrite Ht.
  rewrite (Split_Join " "%byte []); [|done|].
  - by rewrite bool_decide_eq_true_2, ParseInt_FormatInt by done.
  - rewrite !Forall_cons. split_and!; [by apply (bool_decide_unpack _); vm_compute|done| |done].
    intros [E|[d E]]%FormatInt_bytes; by vm_compute in E.
Qed.

Lemma broadcast_zero s :
  su_signal s = zero_signal -> su_chans s = [] ->
  sg_didSignal (su_signal (broadcast s)) = true /\ su_chans (broadcast s) = [true] /\
  su_Offset (broadcast s) = su_Offset s /\ su_ReplicationID (broadcast s) = su_ReplicationID s.
Proof. intros Hs Hc. unfold broadcast. by rewrite Hs, Hc. Qed.

(** The subscriber after an announcement and messages without one. *)
Lemma updated_resync s m ms id off :
  su_signal s = zero_signal -> su_chans s = [] ->
  resync m = Some (id, off) -> Forall (fun m => resync m = None) ms ->
  let s' := foldl updated s (m :: ms) in
  su_Offset s' = wrap64 (off + f_Size m + sum_list_with_Z f_Size ms) /\
  su_ReplicationID s' = Some id /\ sg_didSignal (su_signal s') = true.
Proof.
  intros Hs Hc Hm Hms. cbn [foldl].
  destruct (broadcast_zero (set_Offset off (set_ReplicationID id s)) Hs Hc) as (Hd & _ & Ho & Hi).
  assert (updated s m = set_Offset (wrap64 (off + f_Size m))
    (broadcast (set_Offset off (set_ReplicationID id s)))) as ->.
  { unfold updated, resynced. rewrite Hm. by rewrite Ho. }
  destruct (updated_offset ms (set_Offset (wrap64 (off + f_Size m))
    (broadcast (set_Offset off (set_ReplicationID id s))))) as (E1 & E2 & E3);
    [apply wrap64_range|done|].
  rewrite E1, E2, E3. simpl. rewrite wrap64_add. split_and!; [f_equal; lia|done|done].
Qed.

Lemma stream_from_acks {X} (msgFunc : Message -> M (heap * X) (option error)) s p x sched h r s' x' c' h' :
  stream_from (C := script) msgFunc s p x sched h = (Ret (Some r, s', x', Some c'), h') ->
  exists pre q, sc_out c' = pre ++ wire (command (ack_words (su_Offset s))) ++ q /\ (q = [] \/ q = pong).
Proof.
  unfold stream_from, deferring.
  destruct (stream_loop msgFunc sched _) as [o [h1 [s1 c1 x1 a1]]].
  destruct (replconfAck_script s (su_Offset s) h1 c1) as (o2 & h2 & c2 & E & _ & _ & _ & q & Hq & Hp).
  assert (on_conn (X := X) (replconfAck s (su_Offset s)) (h1, Stream s1 c1 x1 a1) =
    (o2, (h2, Stream s1 c2 x1 a1))) as Ea by (unfold on_conn; cbn [st_conn st_sub st_x st_ack]; by rewrite E).
  destruct o as [[r1|]| | |].
  - rewrite bool_decide_eq_true_2 by by eexists. unfold mbind, M_bind. rewrite Ea.
    destruct o2; intros [= <- <- <- <- <-]. by exists (sc_out c1), q.
  - rewrite bool_decide_eq_false_2 by by intros []. done.
  - unfold mbind, M_bind. rewrite Ea. by destruct o2.
  - done.
  - done.
Qed.

End stream.

(** * What the loop keeps of the subscriber

    Whatever the connection and the callback do, the loop changes the subscriber by
    three assignments only. *)

Section keeps.
Context `{!FloatConv, !UnicodeCase, !OldFields} {C X : Type} `{!Link C}.
Context (msgFunc : Message -> M (heap * X) (option error)).
Context (P : Subscriber -> Prop).

Definition keeps {A} (m : M (heap * stream C X) A) : Prop :=
  forall st, P (st_sub st.2) -> P (st_sub (m st).2.2).

Lemma keeps_bind {A B} (m : M (heap * stream C X) A) (f : A -> M (heap * stream C X) B) :
  keeps m -> (forall a, keeps (f a)) -> keeps (mbind f m).
Proof.
  intros Hm Hf st Hst. unfold mbind, M_bind. specialize (Hm st Hst).
  destruct (m st) as [[a| | |] st']; [by apply Hf|done..].
Qed.

Lemma keeps_here {A} (o : outcome A) : keeps (fun st => (o, st)).
Proof. by intros st. Qed.

Lemma keeps_on_conn {A} (m : M (heap * C) A) : keeps (on_conn m).
Proof. intros [h st] Hst. unfold on_conn. by destruct (m (h, st_conn st)) as [o [h' c]]. Qed.

Lemma keeps_on_x {A} (m : M (heap * X) A) : keeps (on_x m).
Proof. intros [h st] Hst. unfold on_x. by destruct (m (h, st_x st)) as [o [h' x]]. Qed.

Lemma keeps_log_info : keeps log_info.
Proof. intros st Hst. unfold log_info, sub, mbind, M_bind. simpl. by case_match. Qed.

Hypothesis (P_Offset : forall o s, P s -> P (set_Offset o s)).
Hypothesis (P_ReplicationID : forall id s, P s -> P (set_ReplicationID id s)).
Hypothesis (P_broadcast : forall s, P s -> P (broadcast s)).

Lemma keeps_modify f : (forall s, P s -> P (f s)) -> keeps (modify_sub f).
Proof. intros Hf [h st]. apply Hf. Qed.

#[local] Hint Resolve keeps_bind keeps_here keeps_on_conn keeps_on_x keeps_log_info keeps_modify : anarcho.

Lemma keeps_full_resync split : keeps (full_resync split).
Proof.
  unfold full_resync. destruct (split !! 1) as [id|]; [|by apply keeps_here].
  apply keeps_bind; [auto with anarcho|]. intros _. destruct (split !! 2) as [o|]; [|by apply keeps_here].
  destruct (ParseInt o) as [off|e]; [|by apply keeps_here].
  apply keeps_bind; [auto with anarcho|]. intros _. apply keeps_bind; [auto with anarcho|]. intros _. by apply keeps_here.
Qed.

Lemma keeps_handle_update m : keeps (handle_update msgFunc m).
Proof.
  assert (keeps (_ ← log_info; mret (None : option (option error)))) as Hlog.
  { apply keeps_bind; [auto with anarcho|]. intros _. by apply keeps_here. }
  unfold handle_update. case_bool_decide; [case_bool_decide; [apply keeps_full_resync|by apply keeps_here]|].
  case_bool_decide.
  - destruct (f_Array m !! 0) as [a|]; [|by apply keeps_here].
    destruct (negb _); [|destruct (negb _); [done|by apply keeps_here]].
    apply keeps_bind; [auto with anarcho|]. intros [e|]; by apply keeps_here.
  - case_bool_decide; [by apply keeps_here|]. destruct (_ && _); [done|by apply keeps_here].
Qed.

Lemma keeps_set_ack a : keeps (set_ack a).
Proof. by intros [h st]. Qed.

Lemma keeps_ack_turn : keeps ack_turn.
Proof.
  intros st Hst. unfold ack_turn. destruct (st_ack st.2).
  - refine (keeps_bind _ _ _ _ st Hst); [auto with anarcho|]. intros req.
    apply keeps_bind; [auto with anarcho|]. intros [n err]. apply keeps_set_ack.
  - refine (keeps_bind _ _ _ _ st Hst); [auto with anarcho|]. intros _. apply keeps_set_ack.
  - refine (keeps_bind _ _ _ _ st Hst); [auto with anarcho|]. intros [msg [e|]]; [apply keeps_set_ack|].
    case_bool_decide; [|apply keeps_set_ack]. destruct (su_Logger _); [apply keeps_set_ack|by apply keeps_here].
  - refine (keeps_bind _ _ _ _ st Hst); [auto with anarcho|]. intros pong.
    apply keeps_bind; [auto with anarcho|]. intros _. apply keeps_set_ack.
Qed.

Lemma keeps_stream_loop sched : keeps (stream_loop msgFunc sched).
Proof.
  induction sched as [|t sched IH]; [by apply keeps_here|]. destruct t; cbn [stream_loop].
  - apply keeps_bind; [auto with anarcho|]. intros [read [e|]]; [by apply keeps_here|].
    apply keeps_bind; [apply keeps_handle_update|]. intros [r|]; [by apply keeps_here|].
    apply keeps_bind; [auto with anarcho|done].
  - apply keeps_bind; [apply keeps_ack_turn|done].
  - by apply keeps_here.
Qed.

Lemma keeps_deferring {A} final ret (m : M (heap * stream C X) A) :
  keeps final -> keeps m -> keeps (deferring final ret m).
Proof.
  intros Hf Hm st Hst. unfold deferring. specialize (Hm st Hst).
  destruct (m st) as [[a|w| |] st']; try done.
  - destruct (ret a); [|done]. apply (keeps_bind final (fun _ => mret a)); [done|intros _; apply (keeps_here (Ret a))|done].
  - apply (keeps_bind final (fun _ => panic w)); [done|intros _; apply (keeps_here (Panic w))|done].
Qed.

End keeps.

(** It keeps, for one, that replication has started. *)
Lemma broadcast_started s :
  sg_didSignal (su_signal s) = true -> sg_didSignal (su_signal (broadcast s)) = true.
Proof.
  intros Hs. exact (run_didSignal [0; 0; 0; 0; 0] (World (su_signal s) (su_chans s) [Broadcast] false) Hs).
Qed.

(** Without the loop in between, the parts of an acknowledgement are a call of
    [replconfAck]. *)
Lemma ack_turns_replconfAck `{!FloatConv, !UnicodeCase, !OldFields} {C X} `{!Link C}
    (f : Message -> M (heap * X) (option error)) h s (c : C) (x : X) err h' c' :
  replconfAck s (su_Offset s) (h, c) = (Ret err, (h', c')) ->
  exists k, stream_loop f (replicate k Ack) (h, Stream s c x AIdle) =
    (Ret None, (h', Stream s c' x AIdle)) /\ 1 <= k <= 4.
Proof.
  unfold replconfAck, link_RoundTrip. intros (req & [h1 c1] & E1 & E)%bind_ret_inv.
  apply bind_ret_inv in E as ([msg e2] & [h2 c2] & E2 & E).
  apply bind_ret_inv in E2 as ([n e3] & [h3 c3] & E3 & E2).
  assert (ack_turn (h, Stream s c x AIdle) =
    (Ret tt, (h3, Stream s c3 x (match e3 with Some _ => AIdle | None => AWritten end)))) as T1.
  { unfold ack_turn, mbind, M_bind, on_conn. cbn [snd st_sub st_ack st_conn st_x]. rewrite E1.
    cbn [st_sub st_ack st_conn st_x]. by rewrite E3. }
  destruct e3 as [e|].
  { unfold mret, M_ret in E2. simplify_eq. unfold mret, M_ret in E. simplify_eq.
    exists 1. split; [|lia]. cbn [replicate stream_loop]. by rewrite (bind_ret _ _ _ _ _ T1). }
  apply bind_ret_inv in E2 as (e4 & [h4 c4] & E4 & E5).
  assert (ack_turn (h3, Stream s c3 x AWritten) = (Ret tt, (h4, Stream s c4 x AFlushed))) as T2.
  { unfold ack_turn, mbind, M_bind, on_conn. cbn [snd st_sub st_ack st_conn st_x]. by rewrite E4. }
  assert (forall a, (ack_turn (h4, Stream s c4 x AFlushed) = (Ret tt, (h2, Stream s c2 x a))) ->
    forall st, (exists k, stream_loop f (replicate k Ack) (h2, Stream s c2 x a) = (Ret None, st) /\ k <= 1) ->
    exists k, stream_loop f (replicate k Ack) (h, Stream s c x AIdle) = (Ret None, st) /\ 1 <= k <= 4) as Hrest.
  { intros a T3 st (k & Ek & Hk). exists (S (S (S k))). split; [|lia]. cbn [replicate stream_loop].
    by rewrite (bind_ret _ _ _ _ _ T1), (bind_ret _ _ _ _ _ T2), (bind_ret _ _ _ _ _ T3). }
  destruct e2 as [e|].
  { unfold mret, M_ret in E. simplify_eq. apply (Hrest AIdle); [|by exists 0; split; [|lia]].
    unfold ack_turn, mbind, M_bind, on_conn. cbn [snd st_sub st_ack st_conn st_x]. by rewrite E5. }
  case_bool_decide as Hp.
  2: { unfold mret, M_ret in E. simplify_eq. apply (Hrest AIdle); [|by exists 0; split; [|lia]].
       unfold ack_turn, mbind, M_bind, on_conn. cbn [snd st_sub st_ack st_conn st_x]. rewrite E5.
       by rewrite bool_decide_eq_false_2. }
  destruct (su_Logger s) eqn:Hl; [|done].
  apply bind_ret_inv in E as (pg & [h6 c6] & E6 & E). apply bind_ret_inv in E as ([n' e7] & [h7 c7] & E7 & E).
  unfold mret, M_ret in E. simplify_eq. apply (Hrest APing).
  - unfold ack_turn, mbind, M_bind, on_conn. cbn [snd st_sub st_ack st_conn st_x]. rewrite E5.
    by rewrite bool_decide_eq_true_2, Hl.
  - exists 1. split; [|lia]. cbn [replicate stream_loop].
    unfold ack_turn, mbind, M_bind, on_conn. cbn [snd st_sub st_ack st_conn st_x]. rewrite E6.
    cbn [st_sub st_ack st_conn st_x]. by rewrite E7.
Qed.

(** * Properties *)


(** C31: the parser of the leader's replication information inverts the format of INFO.
    On an answer made of lines, of which those with exactly one colon are fields (titles,
    empty lines and lines with more colons are not), [infoReplication] returns the values
    of the fields whose name starts with [master_replid] and, as numbers, those of the
    fields whose name starts with [master_repl_offset], in their order; when one of these
    is not a number it returns nothing but the error of the first such.  It has asked with
    INFO REPLICATION and has taken one message. *)
Theorem infoReplication_reads_fields `{!FloatConv, !UnicodeCase, !OldFields}
    (s : Subscriber) (h : heap) (answer : Message) (ms : list Message) (e : error) (out : bytes)
    (lines : list (list bytes)) :
  su_Logger s = true -> f_Str answer = info_text lines -> Forall line_ok lines ->
  exists h', infoReplication s (h, Script (answer :: ms) e out) =
    (Ret match first_bad (offset_texts (fields_of lines)) with
         | Some err => ([], [], Some err)
         | None => (ids_of (fields_of lines), numbers (offset_texts (fields_of lines)), None)
         end, (h', Script ms e (out ++ wire (command [str "info"; str "replication"])))).
Proof.
  intros Hl Ht Hok. destruct (info_request h) as (i & h1 & r & h2 & fp & E1 & E2 & R).
  destruct (script_write_rep h2 (Script (answer :: ms) e out) _ _ fp R) as (n & h3 & E3 & _).
  exists h3. unfold infoReplication, mbind, M_bind, on_heap, link_RoundTrip. rewrite E1, E2.
  unfold mbind, M_bind. cbn [link_Write link_Flush link_Read script_link]. rewrite E3.
  unfold mret, M_ret, script_read. cbn [sc_in sc_end sc_out]. rewrite Ht, info_text_lines by done.
  rewrite info_lines_text by done. destruct (first_bad _); [done|]. by rewrite Hl.
Qed.

(** C8: what reaches the callback: on a stream of regular messages, for any interleaving
    of the loop with the calls on the connection that the acknowledging goroutine makes,
    the callback is called with exactly the arrays that do not start with PING among the
    messages that arrive at the loop's turns, in their order, and the subscriber's offset,
    identifier and signal follow those messages.  A message that arrives when the
    acknowledging goroutine reads is lost: it is neither passed on nor counted. *)
Theorem stream_deliveries `{!FloatConv, !UnicodeCase, !OldFields}
    (sched : list turn) (h : heap) (s : Subscriber) (c : script) (x : list Message) :
  Cancel ∉ sched -> length sched <= length (sc_in c) ->
  Forall regular (sc_in c) -> su_Logger s = true ->
  exists h' c', stream_loop record sched (h, Stream s c x AIdle) =
    (Ret None, (h', Stream (foldl updated s (loop_msgs sched (sc_in c))) c'
       (x ++ filter (fun m => forwarded m = true) (loop_msgs sched (sc_in c)))
       (ar_ack (arrivals AIdle sched (sc_in c))))) /\
    sc_in c' = ar_rest (arrivals AIdle sched (sc_in c)).
Proof. apply stream_loop_record. Qed.

(** C30: the offset after a full resynchronisation: on a stream in which the loop reads one
    announcement FULLRESYNC with an identifier and an offset, whatever it read before, the
    subscriber's offset at the end of the schedule is the announced one plus the sizes,
    modulo 2^64, of the messages the loop has handled since, the announcement itself
    included; the identifier is the announced one and the signal has been sent. *)
Theorem resync_offset `{!FloatConv, !UnicodeCase, !OldFields}
    (sched : list turn) (h : heap) (s : Subscriber) (c : script) (x : list Message)
    (before after : list Message) (m : Message) (id : bytes) (off : Z) :
  Cancel ∉ sched -> length sched <= length (sc_in c) ->
  Forall regular (sc_in c) -> su_Logger s = true -> su_signal s = zero_signal -> su_chans s = [] ->
  loop_msgs sched (sc_in c) = before ++ m :: after ->
  Forall (fun m => resync m = None) (before ++ after) ->
  m_Kind m = kind.SimpleString ->
  m_SimpleString m = str "FULLRESYNC " ++ id ++ str " " ++ FormatInt off ->
  " "%byte ∉ id -> int64_range off ->
  exists h' st, stream_loop record sched (h, Stream s c x AIdle) = (Ret None, (h', st)) /\
    su_Offset (st_sub st) = wrap64 (off + f_Size m + sum_list_with_Z f_Size after) /\
    su_ReplicationID (st_sub st) = Some id /\ sg_didSignal (su_signal (st_sub st)) = true.
Proof.
  intros Hn Hlen Hr Hl Hs Hch Hmsgs Hno Hk Ht Hid Hoff. apply Forall_app in Hno as [Hb Ha].
  destruct (stream_loop_record sched h s c x Hn Hlen Hr Hl) as (h' & c' & E & _).
  do 2 eexists. split; [exact E|]. cbn [st_sub]. rewrite Hmsgs, foldl_app.
  destruct (updated_quiet before s Hb) as [Hs' Hc'].
  apply updated_resync; [by rewrite Hs'|by rewrite Hc'|by apply resync_text|done].
Qed.

(** C10: what the handshake takes away: the leader's answer to PSYNC, in which it announces
    the identifier and the offset of the replication, is the answer of a round trip and
    dropped.  A stream without further announcements, whatever was announced in the
    handshake and however its loop and the acknowledgements interleave, leaves the
    subscriber with the identifier it had, or the empty one, with its own offset plus
    the sizes of the messages its loop read, and with the signal not sent. *)
Theorem handshake_takes_announcement `{!FloatConv, !UnicodeCase, !OldFields}
    (s : Subscriber) (c : script) (sched : list turn) (x : list Message) (h : heap) (host port : bytes) :
  SplitHostPort (su_MyAddr s) = inl (host, port) -> su_Logger s = true ->
  int64_range (su_Offset s) -> sg_didSignal (su_signal s) = false ->
  Cancel ∉ sched -> 3 + length sched <= length (sc_in c) ->
  Forall regular (drop 3 (sc_in c)) -> Forall (fun m => resync m = None) (drop 3 (sc_in c)) ->
  exists s' x' c' h', StreamUpdates record (inl c) sched s x h = (Ret (None, s', x', Some c'), h') /\
    su_Offset s' = wrap64 (su_Offset s + sum_list_with_Z f_Size (loop_msgs sched (drop 3 (sc_in c)))) /\
    su_ReplicationID s' = Some (default [] (su_ReplicationID s)) /\
    su_signal s' = su_signal s.
Proof.
  intros Ha Hl Ho Hs Hn Hlen Hr Hm. unfold StreamUpdates.
  set (s0 := match su_ReplicationID s with None => set_ReplicationID [] s | Some _ => s end).
  assert (su_MyAddr s0 = su_MyAddr s /\ su_Logger s0 = true /\ su_signal s0 = su_signal s /\
    su_Offset s0 = su_Offset s /\ su_ReplicationID s0 = Some (default [] (su_ReplicationID s)))
    as (E1 & E2 & E3 & E4 & E5) by (unfold s0; by destruct (su_ReplicationID s) eqn:?).
  rewrite E3, Hs. rewrite <- E1 in Ha. rewrite <- E3, <- E4, <- E5. rewrite <- E4 in Ho.
  destruct (startReplication_script s0 c (default [] (su_ReplicationID s0)) (su_Offset s0) false h host port Ha)
    as (h1 & c1 & E & Hin & _); [lia|].
  rewrite (bind_ret _ _ _ _ _ E). rewrite <- Hin in Hr, Hm |- *.
  destruct (stream_loop_record sched h1 s0 c1 x Hn) as (h2 & c2 & Es & _); [|done..|].
  { rewrite Hin, length_drop. lia. }
  destruct (updated_offset (loop_msgs sched (sc_in c1)) s0 Ho) as (F1 & F2 & F3); [by apply loop_msgs_Forall|].
  unfold stream_from, deferring. rewrite Es, bool_decide_eq_false_2 by by intros [].
  do 4 eexists. split; [reflexivity|]. cbn [st_sub]. by rewrite F1, F2, F3.
Qed.

(** The last acknowledgement: when [StreamUpdates] has returned from its loop, the last
    thing sent (but for an answer to a PING) is an acknowledgement of the offset the
    subscriber had when the loop was entered, not of the last one it stored. *)
Theorem final_ack_is_stale `{!FloatConv, !UnicodeCase, !OldFields}
    {X} (msgFunc : Message -> M (heap * X) (option error))
    (c : script) (sched : list turn) (s : Subscriber) (x : X) (h : heap) r s' x' c' h' :
  StreamUpdates msgFunc (inl c) sched s x h = (Ret (Some r, s', x', Some c'), h') ->
  exists pre q, sc_out c' = pre ++ wire (command (ack_words (su_Offset s))) ++ q /\ (q = [] \/ q = pong).
Proof.
  unfold StreamUpdates.
  set (s0 := match su_ReplicationID s with None => set_ReplicationID [] s | Some _ => s end).
  assert (su_Offset s0 = su_Offset s) as <- by (unfold s0; by destruct (su_ReplicationID s)).
  destruct (sg_didSignal (su_signal s0)); [done|].
  intros ([p|e] & h1 & _ & E)%bind_ret_inv; [|done].
  by eapply stream_from_acks.
Qed.

(** A subscriber that has seen a full resynchronisation is not used again: nothing is
    dialled or sent. *)
Theorem StreamUpdates_once `{!FloatConv, !UnicodeCase, !OldFields} {C X} `{!Link C}
    (f : Message -> M (heap * X) (option error)) (dial : C + error) sched s x h :
  sg_didSignal (su_signal s) = true -> su_ReplicationID s <> None ->
  StreamUpdates f dial sched s x h =
    (Ret (Some (Some (Errorf "attempting to reuse a subscriber, which is not allowed" [])), s, x, None), h).
Proof.
  intros Hd Hi. unfold StreamUpdates. destruct (su_ReplicationID s); [|done]. by rewrite Hd.
Qed.

(** * A concrete stream *)

#[local] Existing Instance zero_floats.

#[local] Instance ascii_only : UnicodeCase := {| upper_unicode := id |}.

(** The old fields as the fields that replaced them. *)
#[local] Instance current_fields : OldFields := {|
  f_Str := m_SimpleString;
  f_Array m := match m_Seq m with Some (IterList l) => l | _ => [] end;
  f_Indicator := m_Kind;
  f_Size := m_TotalMessageSize;
|}.

Definition text (s : string) : Message := set_TotalMessageSize 10 (message.SimpleString (str s)).
Definition cmd (s : string) : Message := set_TotalMessageSize 7 (message.Array [text s]).

Definition updates : list Message :=
  [text "FULLRESYNC 8371b4 1000"; cmd "SET"; cmd "PING"; cmd "INCR"; cmd "REPLCONF"].

Definition subscriber : Subscriber :=
  MkSubscriber (str "leader:6379") (str "me:36379") true 0 None zero_signal [].

Lemma updates_regular : Forall regular updates.
Proof.
  unfold updates. rewrite !Forall_cons. split_and!; try by vm_compute.
  intros _. exists (str "8371b4", 1000%Z). by vm_compute.
Qed.

(** The handshake over a connection whose peer answers nothing but errors in the form
    of malformed big numbers, which the decoder reports without an error. *)
Definition shake_heap : heap :=
  Heap [buffer_source (concat (replicate 3 (str "(x" ++ kind.EOL)))] [].


Example handshake_succeeds :
  exists c h, startReplication subscriber (inl free_conn) (str "?") (-1) false shake_heap = (Ret (inl c), h).
Proof. do 2 eexists. by vm_compute. Qed.

(** A stream that fails once the first two messages have been written: the handshake
    succeeds although PSYNC has not left the process. *)
Record failing := Failing { fl_left : nat; fl_got : bytes }.

#[local] Instance failing_writer : IoWriter failing := {
  write p w :=
    let n := fl_left w `min` length p in
    ((Z.of_nat n, if n <? length p then Some EOF else None), Failing (fl_left w - n) (fl_got w ++ take n p));
  accepted := fl_got;
}.

Definition first_two : bytes :=
  wire (command [str "PING"]) ++ wire (command (replconf_words (str "me") (str "36379") false)).

Example handshake_loses_psync :
  match startReplication subscriber
    (inl (conn.NewConnection (RSrc 0) (Failing (length first_two) []))) (str "?") (-1) false shake_heap with
  | (Ret (inl c), _) => delivered c = first_two /\ broken c
  | _ => False
  end.
Proof. by vm_compute. Qed.

(** While the leader is silent, the handshake waits for the answer to PING. *)
Example handshake_waits :
  (startReplication subscriber (inl free_conn) (str "?") (-1) false (Heap [Source [] Open] [])).1 = Block.
Proof. by vm_compute. Qed.

Definition info_answer : Message := message.SimpleString (str "# Replication" ++ kind.EOL
  ++ str "role:master" ++ kind.EOL ++ str "slave0:ip=::1,port=6380" ++ kind.EOL
  ++ str "master_replid:8371b4" ++ kind.EOL ++ str "master_replid2:0000" ++ kind.EOL
  ++ str "master_repl_offset:1014" ++ kind.EOL ++ str "second_repl_offset:-1" ++ kind.EOL).

Definition info_answer_lines : list (list bytes) :=
  [[str "# Replication"]; [str "role"; str "master"]; [str "slave0"; str "ip="; []; str "1,port=6380"];
   [str "master_replid"; str "8371b4"]; [str "master_replid2"; str "0000"];
   [str "master_repl_offset"; str "1014"]; [str "second_repl_offset"; str "-1"]].

Lemma infoReplication_reads_fields_witness :
  exists h', infoReplication subscriber (Heap [] [], Script [info_answer] EOF []) =
    (Ret ([str "8371b4"; str "0000"], [1014%Z], None),
     (h', Script [] EOF (wire (command [str "info"; str "replication"])))).
Proof.
  destruct (infoReplication_reads_fields subscriber (Heap [] []) info_answer [] EOF [] info_answer_lines)
    as (h' & E).
  - reflexivity.
  - by vm_compute.
  - unfold info_answer_lines. rewrite !Forall_cons. split_and!; try done; (split; [done|]);
      rewrite !Forall_cons; split_and!; try done; by apply (bool_decide_unpack _); vm_compute.
  - exists h'. exact E.
Defined.

(** The INCR arrives when the acknowledging goroutine reads, and is lost, while the SET
    and the PING arrive between its calls; the REPLCONF of the leader is passed on as if
    it were a command. *)
Lemma stream_deliveries_witness :
  exists h' c', stream_loop record [Loop; Ack; Loop; Ack; Loop; Ack; Loop]
      (Heap [] [], Stream subscriber (Script (updates ++ [text "a"; text "b"]) EOF []) [] AIdle) =
    (Ret None, (h', Stream (foldl updated subscriber [text "FULLRESYNC 8371b4 1000"; cmd "SET"; cmd "PING"; cmd "REPLCONF"]) c'
       [cmd "SET"; cmd "REPLCONF"] AIdle)) /\ sc_in c' = [text "a"; text "b"].
Proof.
  destruct (stream_deliveries [Loop; Ack; Loop; Ack; Loop; Ack; Loop] (Heap [] []) subscriber
    (Script (updates ++ [text "a"; text "b"]) EOF []) []) as (h' & c' & E & Hc).
  - by apply (bool_decide_unpack _); vm_compute.
  - simpl. lia.
  - apply Forall_app. split; [apply updates_regular|]. by rewrite !Forall_cons.
  - done.
  - exists h', c'. split; [exact E|exact Hc].
Defined.

(** The leader announces the offset 1000 in the handshake; after a SET and a PING the
    subscriber is at 14. *)
Definition announcing : script :=
  Script [text "PONG"; text "OK"; text "FULLRESYNC 8371b4 1000"; cmd "SET"; cmd "PING"] EOF [].

Lemma handshake_takes_announcement_witness :
  exists s' x' c' h', StreamUpdates record (inl announcing) [Loop; Loop] subscriber [] (Heap [] []) =
      (Ret (None, s', x', Some c'), h') /\
    su_Offset s' = 14%Z /\ su_ReplicationID s' = Some [] /\ su_signal s' = zero_signal.
Proof.
  destruct (handshake_takes_announcement subscriber announcing [Loop; Loop] [] (Heap [] []) (str "me") (str "36379"))
    as (s' & x' & c' & h' & E & Ho & Hi & Hs).
  - by vm_compute.
  - reflexivity.
  - by vm_compute.
  - reflexivity.
  - by apply (bool_decide_unpack _); vm_compute.
  - simpl. lia.
  - unfold announcing. cbn [sc_in drop]. by rewrite !Forall_cons.
  - unfold announcing. cbn [sc_in drop]. by rewrite !Forall_cons.
  - exists s', x', c', h'. rewrite Ho, Hi, Hs. split; [exact E|]. vm_compute. split_and!; reflexivity.
Defined.

Lemma resync_offset_witness :
  exists h' st, stream_loop record [Loop; Loop; Loop]
      (Heap [] [], Stream subscriber (Script updates EOF []) [] AIdle) = (Ret None, (h', st)) /\
    su_Offset (st_sub st) = 1024%Z /\ su_ReplicationID (st_sub st) = Some (str "8371b4") /\
    sg_didSignal (su_signal (st_sub st)) = true.
Proof.
  destruct (resync_offset [Loop; Loop; Loop] (Heap [] []) subscriber (Script updates EOF []) []
    [] [cmd "SET"; cmd "PING"] (text "FULLRESYNC 8371b4 1000") (str "8371b4") 1000)
    as (h' & st & E & Ho & Hi & Hg); try reflexivity.
  - by apply (bool_decide_unpack _); vm_compute.
  - simpl. lia.
  - apply updates_regular.
  - cbn [app]. by rewrite !Forall_cons.
  - by apply (bool_decide_unpack _); vm_compute.
  - by vm_compute.
  - exists h', st. rewrite Ho. split_and!; [exact E|by vm_compute|exact Hi|exact Hg].
Defined.

(** The stream ends after three updates: the offset has become 1024, the last
    acknowledgement is of 0. *)
Example final_ack :
  match StreamUpdates record
    (inl (Script ([text "PONG"; text "OK"; text "CONTINUE"] ++ take 3 updates) EOF []))
    [Loop; Loop; Loop; Loop] subscriber [] (Heap [] []) with
  | (Ret (Some (Some e), s, x, Some c), _) =>
      e = Errorf "%w reading message" [EOF] /\ su_Offset s = 1024%Z /\
      drop (length (sc_out c) - length (wire (command (ack_words 0)))) (sc_out c) = wire (command (ack_words 0))
  | _ => False
  end.
Proof. by vm_compute. Qed.
