(* ===== verification/Badger.v ===== *)
(** The badger key-value store, as far as the program uses it: its operations are
    those of the class [Badger], its documented behaviour the laws of
    [BadgerSpec], and [MemDB] is an in-memory store that satisfies them. *)

From S2P Require Import Prelude GoBase GoStrings.

(** * Transactions *)

Definition ErrKeyNotFound : error := Sentinel "badger.ErrKeyNotFound".
Definition ErrTxnTooBig : error := Sentinel "badger.ErrTxnTooBig".
Definition ErrEmptyKey : error := Sentinel "badger.ErrEmptyKey".
Definition ErrDBClosed : error := Sentinel "badger.ErrDBClosed".

(** [err == badger.ErrTxnTooBig]. *)
Definition is_too_big (e : error) : bool :=
  match e with Sentinel n => String.eqb n "badger.ErrTxnTooBig" | _ => false end.

(** A pending write of a transaction; [WEntry] is an entry with a time to live. *)
Inductive wr :=
| WSet (k v : bytes)
| WDel (k : bytes)
| WEntry (k v : bytes) (ttl : Z).

Definition wr_key (w : wr) : bytes :=
  match w with WSet k _ => k | WDel k => k | WEntry k _ _ => k end.

Definition apply_write (m : gmap bytes bytes) (w : wr) : gmap bytes bytes :=
  match w with
  | WSet k v | WEntry k v _ => <[k := v]> m
  | WDel k => delete k m
  end.

(** A write that does not expire. *)
Definition plain (w : wr) : Prop := match w with WEntry _ _ _ => False | _ => True end.

Definition apply_writes (ws : list wr) (m : gmap bytes bytes) : gmap bytes bytes :=
  foldl apply_write m ws.

(** [snapshot db] is what a transaction that starts now reads; [fault db k] an
    error, other than a missing key, that reading [k] meets; [db_err db] the error
    of starting a transaction; [refuse db ws w] the error [txn.Set] or [txn.Delete]
    returns for [w] when the transaction already holds [ws]; [commit] is
    [txn.Commit]. *)
Class Badger (DB : Type) := {
  snapshot : DB -> gmap bytes bytes;
  fault : DB -> bytes -> option error;
  db_err : DB -> option error;
  refuse : DB -> list wr -> wr -> option error;
  commit : DB -> list wr -> option error * DB;
}.

(** A commit applies all writes of the transaction or none, except that an entry
    with a time to live may have expired already; a transaction takes at least one
    write before it is too big; reading reports a missing key as such, and no other
    fault so. *)
Class BadgerSpec (DB : Type) `{!Badger DB} : Prop := {
  commit_done db ws db' : commit db ws = (None, db') -> forall k,
    snapshot db' !! k = apply_writes ws (snapshot db) !! k \/
    ((exists v ttl, WEntry k v ttl ∈ ws) /\ snapshot db' !! k = None);
  commit_none db ws e db' : commit db ws = (Some e, db') -> snapshot db' = snapshot db;
  refuse_first db w e : refuse db [] w = Some e -> is_too_big e = false;
  fault_other db k e : fault db k = Some e -> errors_is e "badger.ErrKeyNotFound" = false;
}.

Section txn.
Context {DB : Type} `{!Badger DB}.

(** [txn.Set] and [txn.Delete]. *)
Definition txn_write (db : DB) (ws : list wr) (w : wr) : option error * list wr :=
  match refuse db ws w with
  | Some e => (Some e, ws)
  | None => (None, ws ++ [w])
  end.

(** [txn.Get] followed by [ValueCopy], in a read-only transaction. *)
Definition txn_get (db : DB) (k : bytes) : bytes + error :=
  match fault db k with
  | Some e => inr e
  | None => match snapshot db !! k with Some v => inl v | None => inr ErrKeyNotFound end
  end.

(** [DB.Update(fn)]. *)
Definition Update (db : DB) (fn : list wr -> option error * list wr) : option error * DB :=
  match db_err db with
  | Some e => (Some e, db)
  | None =>
      match fn [] with
      | (Some e, _) => (Some e, db)
      | (None, ws) => commit db ws
      end
  end.

End txn.

(** * Iterators

    An iterator visits the keys of the snapshot in byte-wise order; positioned by
    [Seek], it is the list of the keys still to visit. *)

Definition keys_of (m : gmap bytes bytes) : list bytes :=
  merge_sort bytes_le (map_to_list m).*1.

Definition seek (k : bytes) (m : gmap bytes bytes) : list bytes :=
  filter (bytes_le k) (keys_of m).

Definition seek_reverse (k : bytes) (m : gmap bytes bytes) : list bytes :=
  reverse (filter (fun x => bytes_le x k) (keys_of m)).

(** [it.ValidForPrefix(p)], with the key of the current item. *)
Definition item_with_prefix (p : bytes) (it : list bytes) : option bytes :=
  match it with
  | k :: _ => if has_prefix p k then Some k else None
  | [] => None
  end.

(** [item.KeyCopy(dst)] into a slice of length and capacity [n] that holds zeros:
    the contents of that slice afterwards.  A key that does not fit goes to a new
    slice and leaves it as it was. *)
Definition key_copy (n : nat) (k : bytes) : bytes :=
  if length k <=? n then k ++ replicate (n - length k) x00 else replicate n x00.

(** ** Facts about iteration *)

Lemma elem_of_keys m k : k ∈ keys_of m <-> is_Some (m !! k).
Proof.
  unfold keys_of. rewrite merge_sort_Permutation. rewrite list_elem_of_fmap. split.
  - intros ([k' v] & -> & Hin). apply elem_of_map_to_list in Hin. by exists v.
  - intros [v Hv]. exists (k, v). split; [done|]. by apply elem_of_map_to_list.
Qed.

Lemma keys_sorted m : StronglySorted bytes_le (keys_of m).
Proof. apply StronglySorted_merge_sort; apply _. Qed.

Lemma keys_NoDup m : NoDup (keys_of m).
Proof. unfold keys_of. rewrite merge_sort_Permutation. apply NoDup_fst_map_to_list. Qed.

Lemma elem_of_seek k m x : x ∈ seek k m <-> bytes_le k x /\ is_Some (m !! x).
Proof. unfold seek. by rewrite list_elem_of_filter, elem_of_keys. Qed.

Lemma elem_of_seek_reverse k m x :
  x ∈ seek_reverse k m <-> bytes_le x k /\ is_Some (m !! x).
Proof. unfold seek_reverse. by rewrite elem_of_reverse, list_elem_of_filter, elem_of_keys. Qed.

Lemma StronglySorted_filter {A} (R : relation A) (P : A -> Prop)
    `{!forall x, Decision (P x)} l : StronglySorted R l -> StronglySorted R (filter P l).
Proof.
  induction 1 as [|x l Hs IH Hx]; [constructor|].
  rewrite filter_cons. case_decide; [|done]. constructor; [done|].
  rewrite Forall_forall in *. intros y Hy. apply Hx.
  by apply list_elem_of_filter in Hy as [_ ?].
Qed.

Lemma seek_sorted k m : StronglySorted bytes_le (seek k m).
Proof. apply StronglySorted_filter, keys_sorted. Qed.

Lemma seek_NoDup k m : NoDup (seek k m).
Proof. apply NoDup_filter, keys_NoDup. Qed.

(** The first key of a forward iteration is the least one at or after the key
    sought, that of a reverse iteration the greatest at or before it. *)
Lemma seek_head k m :
  match seek k m with
  | [] => forall x, is_Some (m !! x) -> ~ bytes_le k x
  | y :: _ => is_Some (m !! y) /\ bytes_le k y /\
      forall x, is_Some (m !! x) -> bytes_le k x -> bytes_le y x
  end.
Proof.
  destruct (seek k m) as [|y l] eqn:E.
  - intros x Hx Hle. assert (x ∈ seek k m) as Hin by by apply elem_of_seek.
    rewrite E in Hin. by apply elem_of_nil in Hin.
  - assert (y ∈ seek k m) as Hy by (rewrite E; left).
    apply elem_of_seek in Hy as [Hle Hy]. split_and!; [done..|].
    intros x Hx Hkx. assert (x ∈ seek k m) as Hin by by apply elem_of_seek.
    rewrite E in Hin. apply elem_of_cons in Hin as [->|Hin]; [done|].
    pose proof (seek_sorted k m) as Hs. rewrite E in Hs.
    apply StronglySorted_inv in Hs as [_ Hs]. rewrite Forall_forall in Hs. auto.
Qed.

Lemma seek_reverse_head k m :
  match seek_reverse k m with
  | [] => forall x, is_Some (m !! x) -> ~ bytes_le x k
  | y :: _ => is_Some (m !! y) /\ bytes_le y k /\
      forall x, is_Some (m !! x) -> bytes_le x k -> bytes_le x y
  end.
Proof.
  destruct (seek_reverse k m) as [|y l] eqn:E.
  - intros x Hx Hle. assert (x ∈ seek_reverse k m) as Hin by by apply elem_of_seek_reverse.
    rewrite E in Hin. by apply elem_of_nil in Hin.
  - assert (y ∈ seek_reverse k m) as Hy by (rewrite E; left).
    apply elem_of_seek_reverse in Hy as [Hle Hy]. split_and!; [done..|].
    intros x Hx Hkx. assert (x ∈ seek_reverse k m) as Hin by by apply elem_of_seek_reverse.
    rewrite E in Hin. apply elem_of_cons in Hin as [->|Hin]; [done|].
    unfold seek_reverse in E. apply (f_equal reverse) in E. rewrite reverse_involutive in E.
    rewrite reverse_cons in E.
    assert (StronglySorted bytes_le (reverse l ++ [y])) as Hs.
    { rewrite <- E. apply StronglySorted_filter, keys_sorted. }
    apply elem_of_reverse in Hin. clear -Hs Hin.
    induction (reverse l) as [|z zs IH]; [by apply elem_of_nil in Hin|].
    simpl in Hs. apply StronglySorted_inv in Hs as [Hs Hz].
    apply elem_of_cons in Hin as [->|Hin]; [|auto].
    rewrite Forall_forall in Hz. apply Hz, elem_of_app. right. by left.
Qed.

Lemma apply_writes_app ws ws' m :
  apply_writes (ws ++ ws') m = apply_writes ws' (apply_writes ws m).
Proof. unfold apply_writes. by rewrite foldl_app. Qed.

(** ** Facts about transactions *)

Lemma lookup_apply_ne m w k : wr_key w <> k -> apply_write m w !! k = m !! k.
Proof.
  destruct w; simpl; intros; by rewrite ?lookup_insert_ne, ?lookup_delete_ne by done.
Qed.

Lemma plain_fmap {A} (f : A -> wr) l : (forall x, plain (f x)) -> Forall plain (f <$> l).
Proof. intros Hf. apply Forall_fmap, Forall_true. done. Qed.

Lemma apply_deletes l m k :
  apply_writes (WDel <$> l) m !! k = if decide (k ∈ l) then None else m !! k.
Proof.
  revert m. induction l as [|x l IH]; intros m.
  { by rewrite decide_False by apply not_elem_of_nil. }
  unfold apply_writes in *. cbn [fmap list_fmap foldl apply_write]. rewrite IH.
  destruct (decide (k = x)) as [->|Hne].
  - rewrite (decide_True (P := x ∈ x :: l)) by left. rewrite lookup_delete_eq. by case_decide.
  - rewrite lookup_delete_ne by done.
    destruct (decide (k ∈ l)); [by rewrite decide_True by by right|].
    rewrite decide_False; [done|]. by intros [?|?]%elem_of_cons.
Qed.

Section txn_proofs.
Context {DB : Type} `{!Badger DB} `{!BadgerSpec DB}.

Lemma commit_all (db db' : DB) ws :
  Forall plain ws -> commit db ws = (None, db') ->
  snapshot db' = apply_writes ws (snapshot db).
Proof.
  intros Hp Hc. apply map_eq. intros k.
  destruct (commit_done _ _ _ Hc k) as [?|[(v & ttl & Hin) _]]; [done|].
  rewrite Forall_forall in Hp. by destruct (Hp _ Hin).
Qed.

(** An update of one write does it or fails. *)
Lemma Update_one (db : DB) w err db' :
  plain w -> Update db (fun ws => txn_write db ws w) = (err, db') ->
  snapshot db' = match err with None => apply_write (snapshot db) w | Some _ => snapshot db end.
Proof.
  intros Hp. unfold Update, txn_write. destruct (db_err db); [by intros [= <- <-]|].
  destruct (refuse db [] w); [by intros [= <- <-]|]. simpl. destruct err.
  - intros Hc. by apply commit_none in Hc.
  - intros Hc. apply commit_all in Hc; [done|]. by constructor.
Qed.

(** A read gives the value, reports the key missing when it is, or a fault. *)
Lemma txn_get_cases (db : DB) k :
  match snapshot db !! k with Some v => txn_get db k = inl v | None => txn_get db k = inr ErrKeyNotFound end \/
  exists e, txn_get db k = inr e /\ fault db k = Some e /\ errors_is e "badger.ErrKeyNotFound" = false.
Proof.
  unfold txn_get. destruct (fault db k) as [e|] eqn:Hf.
  - right. exists e. split_and!; [done..|]. by eapply fault_other.
  - left. by destruct (snapshot db !! k).
Qed.

End txn_proofs.

(** * An in-memory store

    Transactions take at most [S (mem_limit db)] writes; empty keys are refused; an
    entry with no time to live has expired when it is committed. *)

Record MemDB := MkMemDB { mem_map : gmap bytes bytes; mem_limit : nat }.

Definition expire (w : wr) : wr :=
  match w with WEntry k v ttl => if (ttl <=? 0)%Z then WDel k else w | _ => w end.

#[export] Instance MemDB_badger : Badger MemDB := {
  snapshot := mem_map;
  fault _ _ := None;
  db_err _ := None;
  refuse db ws w :=
    if bool_decide (wr_key w = []) then Some ErrEmptyKey
    else if mem_limit db <? length ws then Some ErrTxnTooBig else None;
  commit db ws := (None, MkMemDB (apply_writes (expire <$> ws) (mem_map db)) (mem_limit db));
}.

Lemma apply_expired ws m k :
  apply_writes (expire <$> ws) m !! k = apply_writes ws m !! k \/
  ((exists v ttl, WEntry k v ttl ∈ ws) /\ apply_writes (expire <$> ws) m !! k = None).
Proof.
  induction ws as [|w ws IH] using rev_ind; [by left|].
  rewrite fmap_app, !apply_writes_app. simpl.
  destruct (decide (wr_key w = k)) as [<-|Hne].
  - destruct w as [k v|k|k v ttl]; simpl; [left..|].
    + by rewrite !lookup_insert_eq.
    + by rewrite !lookup_delete_eq.
    + case_match; [right|left]; simpl.
      * rewrite lookup_delete_eq. split; [|done]. exists v, ttl. apply elem_of_app. right. by left.
      * by rewrite !lookup_insert_eq.
  - rewrite !lookup_apply_ne by (by destruct w; simpl; try case_match). destruct IH as [?|[(v & ttl & ?) ?]]; [by left|].
    right. split; [|done]. exists v, ttl. apply elem_of_app. by left.
Qed.

#[export] Instance MemDB_spec : BadgerSpec MemDB.
Proof.
  split; simpl.
  - intros db ws db' [= <-] k. simpl. apply apply_expired.
  - done.
  - intros db w e. destruct (bool_decide _); [by intros [= <-]|].
    by destruct (mem_limit db).
  - done.
Qed.
