(* ===== verification/KeyLocker.v ===== *)
(** The local key locks (src/anarchoredis/localstate/keylocker.go): taking, releasing
    and awaiting locks kept in a badger store. *)

From S2P Require Import Prelude GoBase GoStrings GoStrconv GoIO Kind Message Decoder Commands Badger.

(** * Subscriptions

    [feed db ps] are the batches of changed keys and values a subscription to the
    prefixes [ps] that starts now passes to its callback, [feed_end db] the error
    with which it ends after them ([None]: it keeps waiting). *)

Class BadgerFeed (DB : Type) := {
  feed : DB -> list bytes -> list (list (bytes * bytes));
  feed_end : DB -> option error;
}.

(** A subscription passes on changes of keys with one of its prefixes; the error it ends
    with when its callback does not end it is the context's or the database's, and not one
    the caller has made for itself. *)
Class BadgerFeedSpec (DB : Type) `{!BadgerFeed DB} : Prop := {
  feed_matches db ps batch kv :
    batch ∈ feed db ps -> kv ∈ batch -> exists p, p ∈ ps /\ has_prefix p kv.1 = true;
  feed_end_other db e : feed_end db = Some e -> errors_is e "localstate.errDone" = false;
}.

Definition sentinel : bytes := str "OK".
Definition keyprefix : bytes := str "anarcho:key:".

(** [errors.New("done")], made afresh by each call. *)
Definition errDone : error := Sentinel "localstate.errDone".

(** * Operations *)

Section locker.
Context {DB : Type} `{!Badger DB}.

(** One write per key, up to the first error. *)
Fixpoint write_keys (db : DB) (entry : bytes -> wr) (keys : list bytes) (ws : list wr)
  : option error * list wr :=
  match keys with
  | [] => (None, ws)
  | key :: keys =>
      match txn_write db ws (entry key) with
      | (Some e, ws) => (Some e, ws)
      | (None, ws) => write_keys db entry keys ws
      end
  end.

Definition UnlockKeys (keys : list bytes) (db : DB) : option error * DB :=
  Update db (write_keys db (fun key => WDel (keyprefix ++ key)) keys).

(** The update of [LockKeys], for the keys of the command. *)
Definition lock_keys (LockTTL : Z) (keys : list bytes) (db : DB) : option error * DB :=
  Update db (write_keys db (fun key => WEntry key sentinel LockTTL) keys).

(** The view of [AwaitUnlocked]: the prefixes to subscribe to and the set of locked
    keys. *)
Fixpoint view_locked (db : DB) (keys : list bytes) (waitFor : list bytes) (waitForSet : gset bytes)
  : option error * list bytes * gset bytes :=
  match keys with
  | [] => (None, waitFor, waitForSet)
  | key :: keys =>
      match txn_get db (keyprefix ++ key) with
      | inr e =>
          if errors_is e "badger.ErrKeyNotFound" then view_locked db keys waitFor waitForSet
          else (Some e, waitFor, waitForSet)
      | inl _ => view_locked db keys (waitFor ++ [key]) (waitForSet ∪ {[key]})
      end
  end.

(** The callback of the subscription. *)
Definition notice (waitForSet : gset bytes) (kv : bytes * bytes) : gset bytes :=
  if bool_decide (kv.2 = sentinel) then waitForSet
  else waitForSet ∖ {[TrimPrefix kv.1 keyprefix]}.

Fixpoint deliver (batches : list (list (bytes * bytes))) (ending : option error)
    (waitForSet : gset bytes) : outcome (option error) :=
  match batches with
  | [] => match ending with Some e => Ret (Some e) | None => Block end
  | batch :: batches =>
      let waitForSet := foldl notice waitForSet batch in
      if (0 <? size waitForSet)%nat then deliver batches ending waitForSet
      else Ret (Some errDone)
  end.

Definition await_keys `{!BadgerFeed DB} (keys : list bytes) (db : DB) : outcome (option error) :=
  let '(err, waitFor, waitForSet) :=
    match db_err db with
    | Some e => (Some e, [], ∅)
    | None => view_locked db keys [] ∅
    end in
  match err with
  | Some _ => Ret None
  | None =>
      match waitFor with
      | [] => Ret None
      | _ =>
          match deliver (feed db waitFor) (feed_end db) waitForSet with
          | Ret (Some e) => if errors_is e "localstate.errDone" then Ret None else Ret (Some e)
          | r => r
          end
      end
  end.

(** [LockKeys] and [AwaitUnlocked] on a command. *)
Section commands.
Context `{!FloatConv} (go_on : bool).
Context (strings_of : option (iter Message) -> M (heap * DB) (list bytes)).

Definition LockKeys (LockTTL : Z) (cmd : Command) : M (heap * DB) (option error) :=
  '(keys, err) ← Keys go_on strings_of cmd;
  match err with
  | Some e => mret (Some e)
  | None => fun st => let '(e, db) := lock_keys LockTTL keys st.2 in (Ret e, (st.1, db))
  end.

Definition AwaitUnlocked `{!BadgerFeed DB} (cmd : Command) : M (heap * DB) (option error) :=
  '(keys, err) ← Keys go_on strings_of cmd;
  match err with
  | Some e => mret (Some e)
  | None => fun st => (await_keys keys st.2, st)
  end.

End commands.
End locker.

(** * Taking and releasing *)

Section locker_proofs.
Context {DB : Type} `{!Badger DB} `{!BadgerSpec DB}.

Lemma write_keys_spec (db : DB) entry keys ws ws' :
  write_keys db entry keys ws = (None, ws') -> ws' = ws ++ (entry <$> keys).
Proof.
  revert ws. induction keys as [|k keys IH]; intros ws; simpl.
  { intros [= ->]. by rewrite app_nil_r. }
  unfold txn_write. destruct (refuse db ws (entry k)); [done|].
  intros ->%IH. by rewrite <- app_assoc.
Qed.

Lemma Update_write_keys (db : DB) entry keys err db' :
  Update db (write_keys db entry keys) = (err, db') ->
  match err with
  | None => commit db (entry <$> keys) = (None, db')
  | Some _ => snapshot db' = snapshot db
  end.
Proof.
  unfold Update. destruct (db_err db); [by intros [= <- <-]|].
  destruct (write_keys db entry keys []) as [[e|] ws] eqn:Hw; [by intros [= <- <-]|].
  apply write_keys_spec in Hw as ->. simpl. destruct err; [apply commit_none|done].
Qed.

Lemma UnlockKeys_lookup keys (db : DB) db' k :
  UnlockKeys keys db = (None, db') ->
  snapshot db' !! k = if decide (k ∈ (app keyprefix) <$> keys) then None else snapshot db !! k.
Proof.
  intros Hc%Update_write_keys. apply commit_all in Hc as ->; [|by apply plain_fmap].
  rewrite <- apply_deletes, <- list_fmap_compose. done.
Qed.

(** Writes under other keys leave a key alone. *)
Lemma lookup_other ws m k :
  Forall (fun w => wr_key w <> k) ws -> apply_writes ws m !! k = m !! k.
Proof.
  revert m. induction ws as [|w ws IH]; intros m Hk; [done|].
  apply Forall_cons in Hk as [Hw Hk]. unfold apply_writes in *. simpl. rewrite IH by done.
  by apply lookup_apply_ne.
Qed.

Lemma lock_keys_other ttl keys (db : DB) err db' k :
  lock_keys ttl keys db = (err, db') -> k ∉ keys -> snapshot db' !! k = snapshot db !! k.
Proof.
  intros Hc%Update_write_keys Hk. destruct err; [by rewrite Hc|].
  assert (Forall (fun w => wr_key w <> k) ((fun key => WEntry key sentinel ttl) <$> keys)) as Hw.
  { apply Forall_fmap, Forall_forall. simpl. by intros x Hx ->. }
  destruct (commit_done _ _ _ Hc k) as [->|[(v & t & Hin) _]]; [by apply lookup_other|].
  rewrite Forall_forall in Hw. by destruct (Hw _ Hin).
Qed.

(** * Awaiting *)

Definition locked (db : DB) (key : bytes) : Prop := is_Some (snapshot db !! (keyprefix ++ key)).

#[export] Instance locked_dec db key : Decision (locked db key).
Proof. unfold locked. apply _. Defined.

(** The view of [AwaitUnlocked] fails: it cannot be started, or the read of an entry
    meets an error. *)
Definition view_fails (db : DB) (keys : list bytes) : Prop :=
  db_err db <> None \/ Exists (fun k => fault db (keyprefix ++ k) <> None) keys.

#[export] Instance view_fails_dec db keys : Decision (view_fails db keys).
Proof. unfold view_fails. apply _. Defined.

(** Without a fault the view collects the locked keys, in order. *)
Lemma view_locked_spec (db : DB) keys wf ws :
  ~ Exists (fun k => fault db (keyprefix ++ k) <> None) keys ->
  view_locked db keys wf ws =
    (None, wf ++ filter (locked db) keys, ws ∪ list_to_set (filter (locked db) keys)).
Proof.
  intros Hf%Forall_Exists_neg. revert wf ws. induction Hf as [|k keys Hk Hf IH]; intros wf ws.
  { simpl. by rewrite app_nil_r, union_empty_r_L. }
  cbn [view_locked]. unfold txn_get. rewrite filter_cons.
  destruct (fault db (keyprefix ++ k)); [by destruct Hk|].
  destruct (snapshot db !! (keyprefix ++ k)) as [v|] eqn:Hv.
  - assert (locked db k) as Hl by (by exists v). rewrite !decide_True by done.
    rewrite IH, <- app_assoc, <- union_assoc_L. done.
  - rewrite !decide_False by (unfold locked; rewrite Hv; by intros []). apply IH.
Qed.

(** With one it reports it. *)
Lemma view_locked_fails (db : DB) keys wf ws :
  Exists (fun k => fault db (keyprefix ++ k) <> None) keys ->
  exists e, (view_locked db keys wf ws).1.1 = Some e.
Proof.
  revert wf ws. induction keys as [|k keys IH]; intros wf ws; [by intros ?%Exists_nil|].
  intros Hk. cbn [view_locked]. unfold txn_get. destruct (fault db (keyprefix ++ k)) as [e|] eqn:E.
  - rewrite (fault_other _ _ _ E). by exists e.
  - apply Exists_cons in Hk as [?|Hk]; [done|].
    destruct (snapshot db !! (keyprefix ++ k)); by apply IH.
Qed.

Context `{!BadgerFeed DB}.

(** An error of the view is reported as success. *)
Lemma await_view_fails keys (db : DB) : view_fails db keys -> await_keys keys db = Ret None.
Proof.
  intros Hv. unfold await_keys. destruct (db_err db) as [e|] eqn:Hd; [done|].
  destruct Hv as [?|Hv]; [done|]. destruct (view_locked_fails db keys [] ∅ Hv) as [e E].
  destruct (view_locked db keys [] ∅) as [[er wf] ws]. simpl in E. by subst er.
Qed.

(** Otherwise the call subscribes to the locked keys, if there are any. *)
Lemma await_view keys (db : DB) :
  ~ view_fails db keys ->
  await_keys keys db =
    match filter (locked db) keys with
    | [] => Ret None
    | ks =>
        match deliver (feed db ks) (feed_end db) (list_to_set ks) with
        | Ret (Some e) => if errors_is e "localstate.errDone" then Ret None else Ret (Some e)
        | r => r
        end
    end.
Proof.
  intros Hv. unfold await_keys. destruct (db_err db) as [e|] eqn:Hd; [by destruct Hv; left; rewrite Hd|].
  rewrite view_locked_spec by (intros ?; apply Hv; by right).
  rewrite union_empty_l_L. by destruct (filter (locked db) keys).
Qed.

(** When no key is locked, the call returns at once. *)
Lemma await_unlocked keys (db : DB) :
  Forall (fun k => ~ locked db k) keys -> await_keys keys db = Ret None.
Proof.
  intros Hk. destruct (decide (view_fails db keys)); [by apply await_view_fails|].
  rewrite await_view by done. assert (filter (locked db) keys = []) as ->; [|done].
  induction Hk as [|k keys Hk _ IH]; [done|]. rewrite filter_cons, decide_False by done.
  apply IH. intros [?|?]; [by apply n; left|apply n; right; by apply Exists_cons_tl].
Qed.

(** The keys the batches report as released. *)
Definition released (batches : list (list (bytes * bytes))) : list bytes :=
  (fun kv => TrimPrefix kv.1 keyprefix) <$> filter (fun kv => kv.2 <> sentinel) (concat batches).

Lemma notice_all batch ws :
  foldl notice ws batch = ws ∖ list_to_set (released [batch]).
Proof.
  unfold released. simpl. rewrite app_nil_r.
  revert ws. induction batch as [|kv batch IH]; intros ws; simpl.
  { by rewrite difference_empty_L. }
  rewrite IH, filter_cons. unfold notice. case_bool_decide as Hv.
  - by rewrite decide_False by tauto.
  - rewrite decide_True by done. simpl. by rewrite difference_difference_l_L.
Qed.

Lemma released_app b1 b2 : released (b1 ++ b2) = released b1 ++ released b2.
Proof. unfold released. by rewrite concat_app, filter_app, fmap_app. Qed.

Lemma difference_subseteq (ws a b : gset bytes) : ws ∖ a ⊆ b <-> ws ⊆ a ∪ b.
Proof.
  split; intros Hs x Hx.
  - destruct (decide (x ∈ a)); [by apply elem_of_union_l|]. apply elem_of_union_r, Hs.
    by apply elem_of_difference.
  - apply elem_of_difference in Hx as [Hx Hn]. by apply Hs, elem_of_union in Hx as [?|?].
Qed.

Lemma subseteq_empty_L (ws : gset bytes) : ws ⊆ ∅ -> ws = ∅.
Proof. intros Hs. apply set_eq. intros x. split; [apply Hs|]. by intros ?%elem_of_empty. Qed.

(** The subscription ends with [errDone] exactly when some batches together
    release every key waited for. *)
Lemma deliver_spec batches ending ws :
  ending <> Some errDone -> ws <> ∅ ->
  deliver batches ending ws = Ret (Some errDone) <->
  exists n, ws ⊆ list_to_set (released (take n batches)).
Proof.
  intros He. revert ws. induction batches as [|b bs IH]; intros ws Hws.
  - simpl. split; [destruct ending; [intros [= ->]|]; done|].
    intros [n Hn]. rewrite take_nil in Hn. by apply subseteq_empty_L in Hn.
  - cbn [deliver]. rewrite notice_all.
    assert (forall n, ws ⊆ list_to_set (released (take (S n) (b :: bs))) <->
      ws ∖ list_to_set (released [b]) ⊆ list_to_set (released (take n bs))) as Hsplit.
    { intros n. change (take (S n) (b :: bs)) with ([b] ++ take n bs).
      by rewrite released_app, list_to_set_app_L, difference_subseteq. }
    destruct (Nat.ltb_spec 0 (size (ws ∖ list_to_set (released [b])))) as [Hs|Hs].
    + rewrite IH by (intros E; rewrite E, size_empty in Hs; lia). split.
      * intros [n Hn]. exists (S n). by apply Hsplit.
      * intros [[|n] Hn]; [by apply subseteq_empty_L in Hn|]. exists n. by apply Hsplit.
    + split; [intros _|done]. exists 1. apply Hsplit.
      assert (ws ∖ list_to_set (released [b]) ≡ ∅) as -> by (apply size_empty_iff; lia).
      apply empty_subseteq.
Qed.

Lemma deliver_cases batches ending ws :
  match deliver batches ending ws with
  | Ret (Some e) => e = errDone \/ ending = Some e
  | Ret None | Panic _ | OutOfFuel => False
  | Block => ending = None
  end.
Proof.
  revert ws. induction batches as [|b bs IH]; intros ws; simpl.
  - destruct ending; auto.
  - destruct (0 <? _); [apply IH|by left].
Qed.

Lemma released_nil batches :
  (forall batch kv, batch ∈ batches -> kv ∈ batch -> kv.2 = sentinel) -> released batches = [].
Proof.
  intros Hb. unfold released.
  assert (Forall (fun kv => kv.2 = sentinel) (concat batches)) as Hall.
  { apply Forall_concat, Forall_forall. intros b Hin. apply Forall_forall. eauto. }
  induction Hall as [|kv l Hkv _ IH]; [done|]. rewrite filter_cons, decide_False by tauto. done.
Qed.

Lemma deliver_silent batches ending ws :
  released batches = [] -> ws <> ∅ ->
  deliver batches ending ws = match ending with Some e => Ret (Some e) | None => Block end.
Proof.
  induction batches as [|b bs IH]; intros Hr Hws; [done|].
  change (b :: bs) with ([b] ++ bs) in Hr. rewrite released_app in Hr. apply app_nil in Hr as [Hb Hbs].
  cbn [deliver]. rewrite notice_all, Hb. cbn [list_to_set]. rewrite difference_empty_L.
  destruct (Nat.ltb_spec 0 (size ws)); [auto|].
  destruct Hws. apply leibniz_equiv, size_empty_iff. lia.
Qed.

(** [UnlockKeys] deletes the lock entries of exactly its keys, or, on an error,
    nothing; after a success a wait for those keys returns nil at once. *)
Theorem UnlockKeys_then_await keys (db : DB) err db' :
  UnlockKeys keys db = (err, db') ->
  match err with
  | None =>
      (forall k, snapshot db' !! k =
         if decide (k ∈ (app keyprefix) <$> keys) then None else snapshot db !! k) /\
      await_keys keys db' = Ret None
  | Some _ => snapshot db' = snapshot db
  end.
Proof.
  intros Hu. destruct err as [e|]; [by apply Update_write_keys in Hu|]. split.
  - intros k. by apply UnlockKeys_lookup.
  - apply await_unlocked, Forall_forall. intros k Hk.
    unfold locked. rewrite (UnlockKeys_lookup _ _ _ _ Hu), decide_True by (by apply list_elem_of_fmap_2).
    by intros [].
Qed.

(** What a wait comes to. *)
Lemma await_cases `{!BadgerFeedSpec DB} keys (db : DB) :
  (await_keys keys db = Ret None <->
   view_fails db keys \/
   exists n, list_to_set (filter (locked db) keys) ⊆@{gset bytes}
     list_to_set (released (take n (feed db (filter (locked db) keys))))) /\
  (await_keys keys db <> Ret None ->
   await_keys keys db = match feed_end db with Some e => Ret (Some e) | None => Block end).
Proof.
  destruct (decide (view_fails db keys)) as [Hv|Hv].
  { rewrite await_view_fails by done. split; [|done]. split; auto. }
  rewrite await_view by done. destruct (filter (locked db) keys) as [|k ks].
  { split; [|done]. split; [|done]. intros _. right. exists 0. apply empty_subseteq. }
  cbv zeta.
  assert (list_to_set (k :: ks) <> (∅ : gset bytes)) as Hks.
  { intros E. apply (not_elem_of_empty (C := gset bytes) k).
    rewrite <- E. apply elem_of_list_to_set. by left. }
  assert (feed_end db <> Some errDone) as Hne.
  { intros E. apply feed_end_other in E. by vm_compute in E. }
  rewrite <- (deliver_spec _ (feed_end db)) by done.
  pose proof (deliver_cases (feed db (k :: ks)) (feed_end db) (list_to_set (k :: ks))) as Hc.
  destruct (deliver _ _ _) as [[e|]| | |]; try done.
  - destruct Hc as [->|Hc].
    { change (errors_is errDone "localstate.errDone") with true. split; [split; auto|]. by intros []. }
    rewrite (feed_end_other _ _ Hc). split; [|by rewrite Hc]. split; [done|]. intros [?|[= ->]]; [done|].
    by apply feed_end_other in Hc.
  - rewrite Hc. split; [|done]. split; [done|]. by intros [|].
Qed.

(** C24: the exact outcomes of a wait for keys: it returns nil if its view of the locks
    fails, and otherwise exactly when batches the subscription delivers together report
    a change, to a value other than the lock's, of every one of the keys that are locked
    (at once, when there is none).  In all other cases it ends with the error of its
    subscription, or waits for ever. *)
Theorem await_released `{!BadgerFeedSpec DB} keys (db : DB) :
  (await_keys keys db = Ret None <->
   view_fails db keys \/
   exists n, list_to_set (filter (locked db) keys) ⊆@{gset bytes}
     list_to_set (released (take n (feed db (filter (locked db) keys))))) /\
  (await_keys keys db <> Ret None ->
   await_keys keys db = match feed_end db with Some e => Ret (Some e) | None => Block end).
Proof. apply await_cases. Qed.

(** [LockKeys] does not take the locks [AwaitUnlocked] and [UnlockKeys] are
    about: it writes the keys without the prefix of lock entries, so that with keys
    that do not themselves start with that prefix, the same keys are locked before
    and after it, and a wait right after it for keys that were free returns nil. *)
Theorem LockKeys_takes_no_lock ttl keys (db : DB) err db' :
  lock_keys ttl keys db = (err, db') ->
  Forall (fun k => has_prefix keyprefix k = false) keys ->
  (forall k, locked db' k <-> locked db k) /\
  (Forall (fun k => ~ locked db k) keys -> await_keys keys db' = Ret None).
Proof.
  intros Hl Hp.
  assert (forall k, locked db' k <-> locked db k) as Hsame.
  { intros k. unfold locked. rewrite (lock_keys_other ttl keys db err); [done..|].
    intros Hin. rewrite Forall_forall in Hp. specialize (Hp _ Hin). unfold has_prefix in Hp.
    by rewrite take_app_length, bool_decide_eq_true_2 in Hp. }
  split; [done|]. intros Hk. apply await_unlocked.
  eapply Forall_impl; [done|]. intros k Hn Hl'. by apply Hn, Hsame.
Qed.

(** C27: a wait is not woken by the store's own changes: the subscription watches the
    keys without the prefix of lock entries, under which only [LockKeys] writes, and the
    deletions by [UnlockKeys] of the entries waited for do not match it.  So a wait for
    keys none of which is the beginning of a lock entry (as "a" or "anarcho" is), when
    some are locked and its view does not fail, ends only with the error of its
    subscription, even when the locks are released. *)
Theorem await_not_woken `{!BadgerFeedSpec DB} keys (db : DB) :
  ~ view_fails db keys -> filter (locked db) keys <> [] ->
  (forall ps batch kv, batch ∈ feed db ps -> kv ∈ batch ->
     (exists k, kv = (keyprefix ++ k, [])) \/ (exists k, kv = (k, sentinel))) ->
  (forall w k, w ∈ keys -> has_prefix w (keyprefix ++ k) = false) ->
  await_keys keys db = match feed_end db with Some e => Ret (Some e) | None => Block end.
Proof.
  intros Hv Hk Hown Hpre.
  assert (released (feed db (filter (locked db) keys)) = []) as Hsilent.
  { apply released_nil. intros batch kv Hb Hkv.
    destruct (Hown _ _ _ Hb Hkv) as [[k ->]|[k ->]]; [|done].
    destruct (feed_matches _ _ _ _ Hb Hkv) as (p & Hp & Hm).
    apply list_elem_of_filter in Hp as [_ Hp].
    assert (has_prefix p (keyprefix ++ k) = true) as Hm' by exact Hm.
    by rewrite (Hpre p k Hp) in Hm'. }
  rewrite await_view by done. destruct (filter (locked db) keys) as [|k ks]; [done|].
  cbv zeta. rewrite deliver_silent; [|done|].
  - destruct (feed_end db) as [e|] eqn:E; [|done]. by rewrite (feed_end_other _ _ E).
  - intros E. apply (not_elem_of_empty (C := gset bytes) k). rewrite <- E.
    apply elem_of_list_to_set. by left.
Qed.

End locker_proofs.

(** * Concrete waits *)

(** The in-memory store with a subscription that passes on, of the given batches,
    the changes with a prefix asked for. *)
Definition mem_feed (batches : list (list (bytes * bytes))) (ending : option error)
  : BadgerFeed MemDB := {|
  feed _ ps := (fun b => filter (fun kv => existsb (fun p => has_prefix p kv.1) ps = true) b) <$> batches;
  feed_end _ := ending;
|}.

Lemma mem_feed_spec batches ending :
  (forall e, ending = Some e -> errors_is e "localstate.errDone" = false) ->
  @BadgerFeedSpec MemDB (mem_feed batches ending).
Proof.
  intros He. split; simpl; [|by intros _].
  intros db ps batch kv (b & -> & _)%list_elem_of_fmap Hkv.
  apply list_elem_of_filter in Hkv as [Hm _].
  apply existsb_exists in Hm as (p & Hp & Hm). exists p. split; [|done]. by apply list_elem_of_In.
Qed.

Definition canceled : error := Sentinel "context.Canceled".

#[local] Instance mem_feed_canceled batches : @BadgerFeedSpec MemDB (mem_feed batches (Some canceled)).
Proof. apply mem_feed_spec. by intros e [= <-]. Qed.

Lemma mem_view (db : MemDB) keys : ~ view_fails db keys.
Proof.
  intros [Hd|Hf]; [done|]. revert Hf. apply Forall_Exists_neg, Forall_true. intros k Hk. by apply Hk.
Qed.

(** Stores in which one key is locked, or none. *)
Definition locked_a : MemDB := MkMemDB {[ keyprefix ++ str "a" := sentinel ]} 8.
Definition locked_user : MemDB := MkMemDB {[ keyprefix ++ str "user" := sentinel ]} 8.
Definition no_locks : MemDB := MkMemDB ∅ 8.

Lemma UnlockKeys_then_await_witness :
  (forall k, snapshot no_locks !! k =
     if decide (k ∈ (app keyprefix) <$> [str "a"; str "b"]) then None else snapshot locked_a !! k) /\
  @await_keys MemDB _ (mem_feed [] None) [str "a"; str "b"] no_locks = Ret None.
Proof.
  apply (UnlockKeys_then_await (BadgerFeed0 := mem_feed [] None) [str "a"; str "b"] locked_a None no_locks).
  by vm_compute.
Defined.

(** The first batch releases "b" and re-locks "a", the second one releases "a". *)
Definition releases : list (list (bytes * bytes)) :=
  [[(str "b", []); (str "a", sentinel)]; [(str "a", [])]].

Lemma await_released_witness :
  @await_keys MemDB _ (mem_feed releases (Some canceled)) [str "c"; str "a"] locked_a = Ret None /\
  @await_keys MemDB _ (mem_feed (take 1 releases) (Some canceled)) [str "c"; str "a"] locked_a =
    Ret (Some canceled).
Proof.
  split.
  - apply (proj1 (await_released (BadgerFeed0 := mem_feed releases (Some canceled)) [str "c"; str "a"] locked_a)).
    right. exists 2. intros k Hk. apply elem_of_list_to_set in Hk. apply elem_of_list_to_set.
    revert k Hk. apply Forall_forall. by apply (bool_decide_unpack _); vm_compute.
  - apply (proj2 (await_released (BadgerFeed0 := mem_feed (take 1 releases) (Some canceled)) [str "c"; str "a"] locked_a)).
    by vm_compute.
Defined.

Lemma LockKeys_takes_no_lock_witness :
  (forall k, locked (lock_keys 60 [str "a"; str "b"] no_locks).2 k <-> locked no_locks k) /\
  (Forall (fun k => ~ locked no_locks k) [str "a"; str "b"] ->
   @await_keys MemDB _ (mem_feed [] None) [str "a"; str "b"]
     (lock_keys 60 [str "a"; str "b"] no_locks).2 = Ret None).
Proof.
  apply (LockKeys_takes_no_lock (BadgerFeed0 := mem_feed [] None) 60 [str "a"; str "b"] no_locks None).
  - by vm_compute.
  - by repeat constructor.
Defined.

(** The changes are the release of the lock on "user" and a new one: neither arrives. *)
Lemma await_not_woken_witness :
  @await_keys MemDB _ (mem_feed [[(keyprefix ++ str "user", [])]; [(str "user", sentinel)]] (Some canceled))
    [str "user"] locked_user = Ret (Some canceled).
Proof.
  apply (await_not_woken (BadgerFeed0 :=
    mem_feed [[(keyprefix ++ str "user", [])]; [(str "user", sentinel)]] (Some canceled)) [str "user"] locked_user).
  - apply mem_view.
  - by vm_compute.
  - intros ps batch kv (b & -> & Hb)%list_elem_of_fmap Hkv.
    apply list_elem_of_filter in Hkv as [_ Hkv].
    apply elem_of_cons in Hb as [->|Hb]; [|apply list_elem_of_singleton in Hb as ->];
      apply list_elem_of_singleton in Hkv as ->; [left|right]; by eexists.
  - intros w k ->%list_elem_of_singleton. done.
Defined.

(** The key "a" is the beginning of every lock entry, so the release of its lock does
    wake the wait. *)
Example short_key_woken :
  @await_keys MemDB _ (mem_feed [[(keyprefix ++ str "a", [])]] (Some canceled)) [str "a"] locked_a = Ret None.
Proof. by vm_compute. Qed.
