(* ===== verification/Transactor.v ===== *)
(** The transactor (src/anarchoredis/txn.go): its configuration, the proxy that
    forwards a client's commands and holds back the replies, and the handler of the
    replication stream that appends commands to the transaction log and releases
    their keys.

    The transactor works through interfaces: connections ([Link]), commands
    ([CommandOps]), key locks ([Locker]) and the transaction log ([TxnLog]).  The
    components of this repository are instances of the first three.  Its two functions
    are given statement by statement, because they run in different goroutines and
    meet in the locks and the log. *)

From S2P Require Import Prelude GoBase GoStrings GoStrconv GoIO Kind Message Decoder.
From S2P Require Import Encoder Bufio Wire Conn Link Signal Commands Replication Badger KeyLocker.

(** * Interfaces *)

(** [msg.Cmd()] and [cmd.Keys()], which read from the message's readers, and
    [cmd.Args[0]], of which a command no longer has a list of strings. *)
Class CommandOps := {
  op_Cmd : Message -> M heap (option Command * option error);
  op_Keys : Command -> M heap (list bytes * option error);
  op_arg0 : Command -> option bytes;
}.

(** The key locks, at the level of keys.  A wait returns, or has not ended yet in this
    state. *)
Class Locker (L : Type) := {
  lk_lock : list bytes -> L -> option error * L;
  lk_unlock : list bytes -> L -> option error * L;
  lk_await : list bytes -> L -> outcome (option error);
}.

(** [type TxnLog interface]. *)
Class TxnLog (G : Type) := {
  log_append : Message -> bytes -> G -> option error * G;
}.

(** The commands and the key locks of this repository. *)
Section real.
Context `{!FloatConv, !UnicodeCase} (go_on : bool).
Context (strings_of : option (iter Message) -> M (heap * unit) (list bytes)).
Context (arg0 : Command -> option bytes).

Definition on_unit {A} (m : M (heap * unit) A) : M heap A := fun h =>
  let '(o, (h, _)) := m (h, tt) in (o, h).

Definition commands : CommandOps := {|
  op_Cmd m := on_unit (Cmd m);
  op_Keys c := on_unit (Keys go_on strings_of c);
  op_arg0 := arg0;
|}.
End real.

Definition keylocker {DB} `{!Badger DB, !BadgerFeed DB} (LockTTL : Z) : Locker DB := {|
  lk_lock keys db := lock_keys LockTTL keys db;
  lk_unlock keys db := UnlockKeys keys db;
  lk_await keys db := await_keys keys db;
|}.

(** * Configuration *)

Record Conf := MkConf {
  cf_ListenAddress : bytes;
  cf_RedisAddress : bytes;
  cf_KafkaAddress : list bytes;
  cf_Topic : bytes;
  cf_ClientID : bytes;
  cf_GroupID : bytes;
  cf_LocalStateDir : bytes;
  cf_LockTTL : Z;
}.

(** [LoadEnv], for an environment; two of the fields are not loaded. *)
Definition LoadEnv (getenv : string -> bytes) (conf : Conf) : Conf :=
  MkConf (getenv "LISTEN_ADDRESS"%string) (getenv "REDIS_ADDRESS"%string)
    (Split (getenv "KAFKA_ADDRESS"%string) (str ",")) (getenv "TXN_TOPIC"%string)
    (getenv "CLIENT_ID"%string) (getenv "GROUP_ID"%string) (cf_LocalStateDir conf) (cf_LockTTL conf).

(** What the goroutines of the transactor share: the locks, the log and the current
    database. *)
Record shared (L G : Type) := Shared { sh_keys : L; sh_txnlog : G; sh_database : bytes }.
Arguments Shared {L G}.
Arguments sh_keys {L G}.
Arguments sh_txnlog {L G}.
Arguments sh_database {L G}.

(** [type Transactor struct]; [tr_LockTTL] is the field of its lock store. *)
Record Transactor (L G : Type) := MkTransactor {
  tr_conf : Conf;
  tr_LockTTL : Z;
  tr_subscriber : Subscriber;
  tr_shared : shared L G;
}.
Arguments MkTransactor {L G}.
Arguments tr_conf {L G}.
Arguments tr_LockTTL {L G}.
Arguments tr_subscriber {L G}.
Arguments tr_shared {L G}.

Definition NewSubscriber (conf : Conf) : Subscriber :=
  MkSubscriber (cf_RedisAddress conf) (cf_ListenAddress conf) true 0 None zero_signal [].

(** [NewTransactor]; [open dir inMemory] is [badger.Open].  The lock store gets no
    time to live: its [LockTTL] stays zero. *)
Definition NewTransactor {L G} (open : bytes -> bool -> L + error) (conf : Conf) (transactionLog : G)
  : Transactor L G + error :=
  match open (cf_LocalStateDir conf) (bool_decide (cf_LocalStateDir conf = [])) with
  | inr err => inr (Errorf "badgerdb.Open(): %w" [err])
  | inl db => inl (MkTransactor conf 0 (NewSubscriber conf) (Shared db transactionLog (str "0")))
  end.

(** * The proxy *)

(** Where a call of [proxy] is: before a statement, with the variables that are still
    used, or after its return. *)
Inductive pc :=
| PRead
| PWrite (req : Message)
| PFlush (req : Message)
| PResp (req : Message)
| PCmd (req resp : Message)
| PFail (req resp : Message) (cmd : option Command) (err : error)
| PSelect (req resp : Message) (cmd : option Command)
| PLock (req resp : Message) (cmd : Command)
| PAwait (req resp : Message) (cmd : Command)
| PReply (req resp : Message)
| PReplyFlush (req : Message)
| PReturn (err : option error).

Section transactor.
Context `{!CommandOps} {C U L G : Type} `{!Link C, !Link U, !Locker L, !TxnLog G}.

(** The state of a call: the client's connection, the one to redis, and what is
    shared. *)
Record proxy_state := ProxyState { px_client : C; px_upstream : U; px_shared : shared L G }.

Definition client {A} (m : M (heap * C) A) : M (heap * proxy_state) A := fun '(h, p) =>
  let '(o, (h, c)) := m (h, px_client p) in (o, (h, ProxyState c (px_upstream p) (px_shared p))).
Definition upstream {A} (m : M (heap * U) A) : M (heap * proxy_state) A := fun '(h, p) =>
  let '(o, (h, u)) := m (h, px_upstream p) in (o, (h, ProxyState (px_client p) u (px_shared p))).
Definition with_keys {A} (f : L -> outcome A * L) : M (heap * proxy_state) A := fun '(h, p) =>
  let sh := px_shared p in
  let '(o, l) := f (sh_keys sh) in
  (o, (h, ProxyState (px_client p) (px_upstream p) (Shared l (sh_txnlog sh) (sh_database sh)))).
Definition set_database (db : bytes) : M (heap * proxy_state) unit := fun '(h, p) =>
  let sh := px_shared p in
  (Ret tt, (h, ProxyState (px_client p) (px_upstream p) (Shared (sh_keys sh) (sh_txnlog sh) db))).

(** [if err != nil { return err }], and where the call goes on. *)
Definition or_return (err : option error) (next : pc) : pc :=
  match err with Some e => PReturn (Some e) | None => next end.

(** [t.keys.LockKeys(cmd)] and [t.keys.AwaitUnlocked(ctx, cmd)]: both start with the
    keys of the command. *)
Definition LockKeys_ (cmd : Command) : M (heap * proxy_state) (option error) :=
  '(keys, err) ← on_heap (op_Keys cmd);
  match err with
  | Some e => mret (Some e)
  | None => with_keys (fun l => let '(e, l) := lk_lock keys l in (Ret e, l))
  end.

Definition AwaitUnlocked_ (cmd : Command) : M (heap * proxy_state) (option error) :=
  '(keys, err) ← on_heap (op_Keys cmd);
  match err with
  | Some e => mret (Some e)
  | None => with_keys (fun l => (lk_await keys l, l))
  end.

(** One statement of [proxy].  When [Cmd] fails the client is sent the error and the
    call goes on with a nil command. *)
Definition proxy_step (p : pc) : M (heap * proxy_state) pc :=
  match p with
  | PRead =>
      '(req, err) ← client link_Read;
      mret (or_return err (PWrite req))
  | PWrite req =>
      '(_, err) ← upstream (link_Write req);
      mret (or_return err (PFlush req))
  | PFlush req =>
      err ← upstream link_Flush;
      mret (or_return err (PResp req))
  | PResp req =>
      '(resp, err) ← upstream link_Read;
      mret (or_return err (PCmd req resp))
  | PCmd req resp =>
      '(cmd, err) ← on_heap (op_Cmd req);
      mret (match err with
            | Some e => PFail req resp cmd e
            | None => PSelect req resp cmd
            end)
  | PFail req resp cmd e =>
      '(_, err) ← client (link_Write (protocol.NewError (Some e)));
      mret (or_return err (PSelect req resp cmd))
  | PSelect req resp cmd =>
      match cmd with
      | None => panic nil_deref
      | Some cmd =>
          if bool_decide (c_Name cmd = str "SELECT") then
            match op_arg0 cmd with
            | None => panic "index out of range"
            | Some db => _ ← set_database db; mret (PLock req resp cmd)
            end
          else mret (PLock req resp cmd)
      end
  | PLock req resp cmd =>
      if IsWrite cmd then
        err ← LockKeys_ cmd;
        mret (or_return err (PAwait req resp cmd))
      else mret (PAwait req resp cmd)
  | PAwait req resp cmd =>
      err ← AwaitUnlocked_ cmd;
      mret (or_return err (PReply req resp))
  | PReply req resp =>
      '(_, err) ← client (link_Write resp);
      mret (or_return err (PReplyFlush req))
  | PReplyFlush req =>
      err ← client link_Flush;
      mret (PReturn err)
  | PReturn err => mret (PReturn err)
  end.

(** How many statements are left at most. *)
Definition rank (p : pc) : nat :=
  match p with
  | PRead => 11 | PWrite _ => 10 | PFlush _ => 9 | PResp _ => 8 | PCmd _ _ => 7
  | PFail _ _ _ _ => 6 | PSelect _ _ _ => 5 | PLock _ _ _ => 4 | PAwait _ _ _ => 3
  | PReply _ _ => 2 | PReplyFlush _ => 1 | PReturn _ => 0
  end.

(** A call of [proxy] that no other goroutine interrupts. *)
Fixpoint run_proxy (fuel : nat) (p : pc) : M (heap * proxy_state) (option error) :=
  match p with
  | PReturn err => mret err
  | _ =>
      match fuel with
      | O => out_of_fuel
      | S fuel => p' ← proxy_step p; run_proxy fuel p'
      end
  end.

Definition proxy : M (heap * proxy_state) (option error) := run_proxy (rank PRead) PRead.

(** * The handler of the replication stream *)

Inductive hpc :=
| HCmd (msg : Message)
| HKeys (msg : Message) (cmd : option Command)
| HAppend (msg : Message) (keys : list bytes)
| HUnlock (msg : Message) (keys : list bytes)
| HCause (msg : Message)
| HReturn (err : option error).

Definition or_fail (err : option error) (next : hpc) : hpc :=
  match err with Some e => HReturn (Some e) | None => next end.

Definition with_log {A} (f : G -> outcome A * G) : M (heap * shared L G) A := fun '(h, sh) =>
  let '(o, g) := f (sh_txnlog sh) in (o, (h, Shared (sh_keys sh) g (sh_database sh))).
Definition with_locks {A} (f : L -> outcome A * L) : M (heap * shared L G) A := fun '(h, sh) =>
  let '(o, l) := f (sh_keys sh) in (o, (h, Shared l (sh_txnlog sh) (sh_database sh))).

(** One statement of [handleMessages]; [ctx] is what the context reports when it is
    executed, [None] while it is not done. *)
Definition handle_step (ctx : option error) (p : hpc) : M (heap * shared L G) hpc :=
  match p with
  | HCmd msg =>
      match ctx with
      | Some e => mret (HReturn (Some e))
      | None =>
          '(cmd, err) ← on_heap (op_Cmd msg);
          mret (or_fail err (HKeys msg cmd))
      end
  | HKeys msg cmd =>
      match cmd with
      | None => panic nil_deref
      | Some cmd =>
          '(keys, err) ← on_heap (op_Keys cmd);
          mret (or_fail err (HAppend msg keys))
      end
  | HAppend msg keys => fun '(h, sh) =>
      mbind (M := M (heap * shared L G)) (fun err => mret (or_fail err (HUnlock msg keys)))
        (with_log (fun g => let '(e, g) := log_append msg (sh_database sh) g in (Ret e, g))) (h, sh)
  | HUnlock msg keys =>
      err ← with_locks (fun l => let '(e, l) := lk_unlock keys l in (Ret e, l));
      mret (or_fail err (HCause msg))
  | HCause msg => mret (HReturn ctx)
  | HReturn err => mret (HReturn err)
  end.

(** The context is asked twice: [ctxErr] is [ctx.Err()] at the start, [cause] is
    [context.Cause(ctx)] at the end. *)
Fixpoint run_handle (fuel : nat) (ctxErr cause : option error) (p : hpc)
  : M (heap * shared L G) (option error) :=
  match p with
  | HReturn err => mret err
  | _ =>
      match fuel with
      | O => out_of_fuel
      | S fuel =>
          p' ← handle_step (match p with HCmd _ => ctxErr | _ => cause end) p;
          run_handle fuel ctxErr cause p'
      end
  end.

Definition handleMessages (ctxErr cause : option error) (msg : Message)
  : M (heap * shared L G) (option error) :=
  run_handle 5 ctxErr cause (HCmd msg).

End transactor.
Arguments ProxyState {C U L G}.
Arguments proxy_state : clear implicits.

(** * The proxy as a call *)

Section calls.
Context `{!CommandOps} {C U L G : Type} `{!Link C, !Link U, !Locker L}.
Implicit Types st : heap * proxy_state C U L G.

Lemma or_return_rank err next n : rank next < n -> rank (or_return err next) < n.
Proof. destruct err; simpl; lia. Qed.

(** Every statement brings the call closer to its return. *)
Lemma proxy_step_rank p st p' st' :
  proxy_step p st = (Ret p', st') -> 0 < rank p -> rank p' < rank p.
Proof.
  destruct p; cbn [proxy_step rank]; intros E Hr; try lia.
  all: repeat match goal with
    | E : context [match ?x with Some _ => _ | None => _ end] |- _ => destruct x; try done
    | E : context [if ?b then _ else _] |- _ => destruct b; try done
    | E : mbind _ _ _ = (Ret _, _) |- _ =>
        let a := fresh "a" in apply bind_ret_inv in E as (a & ? & _ & E);
        try match type of a with prod _ _ => destruct a end; cbn beta iota in E
    end; inv_bind; try (apply or_return_rank); simpl; try lia; case_match; simpl; lia.
Qed.

Lemma run_proxy_step f p st p' st' :
  proxy_step p st = (Ret p', st') -> 0 < rank p -> run_proxy (S f) p st = run_proxy f p' st'.
Proof.
  intros E Hr. rewrite <- (bind_ret (proxy_step p) (run_proxy f) st st' p' E).
  destruct p; [done..|]. simpl in Hr. lia.
Qed.

Lemma run_proxy_block f p st st' :
  proxy_step p st = (Block, st') -> 0 < rank p -> run_proxy (S f) p st = (Block, st').
Proof.
  intros E Hr. transitivity (mbind (run_proxy f) (proxy_step p) st).
  - destruct p; [done..|]. simpl in Hr. lia.
  - unfold mbind, M_bind. by rewrite E.
Qed.

Lemma run_proxy_return f err st : run_proxy f (PReturn err) st = (Ret err, st).
Proof. by destruct f. Qed.

(** The fuel of [proxy] is enough: with more of it the call does the same. *)
Lemma run_proxy_fuel fuel p st : rank p <= fuel -> run_proxy fuel p st = run_proxy (rank p) p st.
Proof.
  remember (rank p) as n eqn:Hn. assert (rank p <= n) as Hp by lia. clear Hn.
  revert fuel p st Hp. induction n as [|n IH]; intros fuel p st Hp Hf.
  { destruct p; simpl in Hp; try lia. by destruct fuel. }
  destruct fuel as [|fuel]; [lia|]. destruct (decide (rank p = 0)) as [E|E].
  { by destruct p; simpl in E. }
  assert (forall f, run_proxy (S f) p st = mbind (run_proxy f) (proxy_step p) st) as Hs by by destruct p.
  rewrite !Hs. unfold mbind, M_bind. destruct (proxy_step p st) as [[p'| | |] st'] eqn:Es; try done.
  apply IH; [|lia]. apply proxy_step_rank in Es; lia.
Qed.

End calls.

(** * The proxy over the connections and commands of this repository *)

Section real_proxy.
Context `{!FloatConv, !UnicodeCase} (go_on : bool).
Context (strings_of : option (iter Message) -> M (heap * unit) (list bytes)).
Context (arg0 : Command -> option bytes).
#[local] Instance real_ops : CommandOps := commands go_on strings_of arg0.
Context {W V : Type} `{!IoWriter W, !IoWriterSpec W, !IoWriter V, !IoWriterSpec V}.
Context {L G : Type} `{!Locker L}.

(** Writing the zero message, and an error message. *)
Lemma conn_Write_zero {W'} `{!IoWriter W'} h (c : Conn W') :
  cn_locked c = false ->
  exists n err w, link_Write message.zero (h, c) = (Ret (n, err), (h, conn.set_writer w c)).
Proof.
  intros Hc. destruct (write [x00] (cn_writer c)) as [[n err] w] eqn:E.
  exists n, err, w.
  apply (conn.with_lock_writer (fun c => Encode (cn_Encoder c) message.zero)); [done|].
  rewrite Encode_unknown_kind by done. change (m_Kind message.zero) with x00. by rewrite E.
Qed.

Lemma conn_Write_error {W'} `{!IoWriter W', !IoWriterSpec W'} h (c : Conn W') e :
  cn_locked c = false ->
  exists n err w, link_Write (protocol.NewError (Some e)) (h, c) =
      (Ret (n, Some err), (h, conn.set_writer w c)) /\
    (accepted w = accepted (cn_writer c) \/ accepted w = accepted (cn_writer c) ++ [kind.Error]).
Proof.
  intros Hc. destruct (write [kind.Error] (cn_writer c)) as [[n err] w] eqn:E.
  assert (exists e', Encode (cn_Encoder c) (protocol.NewError (Some e)) (h, cn_writer c) =
    (Ret (n, Some e'), (h, w))) as [e' He].
  { rewrite Encode_error_message, E by done. destruct err; by eexists. }
  exists n, e', w. split.
  - by apply (conn.with_lock_writer (fun c => Encode (cn_Encoder c) (protocol.NewError (Some e)))).
  - apply write_spec in E as (Hn & Ha & _). rewrite Ha.
    destruct (Z.to_nat n) as [|[|k]]; simpl; rewrite ?app_nil_r, ?take_nil; auto.
Qed.

Lemma Cmd_zero h : op_Cmd message.zero h =
  (Ret (None, Some (Errorf "%w; expected array got %s" [ErrInvalidCommand])), h).
Proof. done. Qed.

(** What a call comes to: an error, or a wait for one of the peers. *)
Definition serves_nobody (c : Conn W) (u : Conn V) (sh : shared L G)
    (res : outcome (option error) * (heap * proxy_state (Conn W) (Conn V) L G)) : Prop :=
  exists o h' c' u', res = (o, (h', ProxyState c' u' sh)) /\
    (sent c' = sent c \/ sent c' = sent c ++ [kind.Error]) /\
    ((exists e, o = Ret (Some e)) \/
     (o = Block /\ sent c' = sent c /\ message.waits_for (link_srcs c ++ link_srcs u) h')).

Lemma serves_nobody_error c c' u u' sh e h :
  sent c' = sent c \/ sent c' = sent c ++ [kind.Error] ->
  serves_nobody c u sh (Ret (Some e), (h, ProxyState c' u' sh)).
Proof. intros Hs. do 4 eexists. split; [reflexivity|]. eauto. Qed.

Lemma serves_nobody_waits c c' u u' sh h l :
  sent c' = sent c -> l ∈ link_srcs c ++ link_srcs u -> starved l h ->
  serves_nobody c u sh (Block, (h, ProxyState c' u' sh)).
Proof.
  intros Hs Hl Hw. do 4 eexists. split; [reflexivity|]. split; [by left|]. right.
  split_and!; [done..|by exists l].
Qed.

(** One statement of the call, given what the component it calls returned. *)
Ltac advance p' st' E :=
  erewrite (run_proxy_step _ _ _ p' st');
    [|unfold proxy_step, client, upstream, on_heap, mbind, M_bind; cbn [px_client px_upstream]; by rewrite E
     |simpl; lia].

(** A statement that waits. *)
Ltac stuck st' E :=
  erewrite (run_proxy_block _ _ _ st');
    [|unfold proxy_step, client, upstream, on_heap, mbind, M_bind; cbn [px_client px_upstream]; by rewrite E
     |simpl; lia].

Lemma proxy_errors (h : heap) (c : Conn W) (u : Conn V) (sh : shared L G) :
  cn_locked c = false -> cn_locked u = false ->
  serves_nobody c u sh (proxy (h, ProxyState c u sh)).
Proof.
  intros Hc Hu. unfold proxy. cbn [rank].
  destruct (conn.Read_cases h c Hc) as [(err & h1 & E1 & _)|(h1 & E1 & _ & Hs1)];
    change (conn.Read (h, c)) with (link_Read (h, c)) in E1.
  2: { stuck (h1, ProxyState (conn.set_locked true c) u sh) E1.
       by apply (serves_nobody_waits _ _ _ _ _ _ (reader_src (cn_reader c))); [|left|]. }
  advance (or_return err (PWrite message.zero)) (h1, ProxyState c u sh) E1.
  destruct err as [e|]; cbn [or_return]; [rewrite run_proxy_return; by apply serves_nobody_error; left|].
  destruct (conn_Write_zero h1 u Hu) as (n & err & w & E2).
  advance (or_return err (PFlush message.zero)) (h1, ProxyState c (conn.set_writer w u) sh) E2.
  destruct err as [e|]; cbn [or_return]; [rewrite run_proxy_return; by apply serves_nobody_error; left|].
  assert (usable (conn.set_writer w u)) as Hu2 by exact Hu.
  destruct (link_Flush_spec h1 (conn.set_writer w u) Hu2) as (err & u2 & E3 & A3 & _).
  advance (or_return err (PResp message.zero)) (h1, ProxyState c u2 sh) E3.
  destruct err as [e|]; cbn [or_return]; [rewrite run_proxy_return; by apply serves_nobody_error; left|].
  pose proof (la_srcs _ _ _ A3) as Hsrc.
  destruct (conn.Read_cases h1 u2 (la_usable _ _ _ A3)) as [(err & h2 & E4 & _)|(h2 & E4 & _ & Hs4)];
    change (conn.Read (h1, u2)) with (link_Read (h1, u2)) in E4.
  2: { stuck (h2, ProxyState c (conn.set_locked true u2) sh) E4.
       apply (serves_nobody_waits _ _ _ _ _ _ (reader_src (cn_reader u2))); [done| |done].
       apply elem_of_app. right. change (link_srcs u) with (link_srcs (conn.set_writer w u)).
       rewrite <- Hsrc. left. }
  advance (or_return err (PCmd message.zero message.zero)) (h2, ProxyState c u2 sh) E4.
  destruct err as [e|]; cbn [or_return]; [rewrite run_proxy_return; by apply serves_nobody_error; left|].
  set (e := Errorf "%w; expected array got %s" [ErrInvalidCommand]).
  advance (PFail message.zero message.zero None e) (h2, ProxyState c u2 sh) Cmd_zero.
  destruct (conn_Write_error h2 c e Hc) as (n' & e' & w' & E5 & Hw).
  advance (PReturn (Some e')) (h2, ProxyState (conn.set_writer w' c) u2 sh) E5.
  rewrite run_proxy_return. by apply serves_nobody_error.
Qed.

End real_proxy.

(** C25: over the connections and the command parser of this repository the proxy serves
    nobody: whatever arrives from the client and from redis, whatever the locks and the
    log are, a call of [proxy] returns an error, or waits for ever for an open stream of
    the client or of redis that says nothing more; the client has been sent nothing, or
    the single byte that starts an error message, and the locks, the log and the
    database are as before. *)
Theorem proxy_never_serves `{!FloatConv, !UnicodeCase} (go_on : bool)
    (strings_of : option (iter Message) -> M (heap * unit) (list bytes)) (arg0 : Command -> option bytes)
    {W V L G} `{!IoWriter W, !IoWriterSpec W, !IoWriter V, !IoWriterSpec V, !Locker L}
    (h : heap) (c : Conn W) (u : Conn V) (sh : shared L G) :
  cn_locked c = false -> cn_locked u = false ->
  exists o h' c' u', @proxy (commands go_on strings_of arg0) _ _ _ _ _ _ _ (h, ProxyState c u sh) =
      (o, (h', ProxyState c' u' sh)) /\
    (sent c' = sent c \/ sent c' = sent c ++ [kind.Error]) /\
    ((exists e, o = Ret (Some e)) \/
     (o = Block /\ sent c' = sent c /\ message.waits_for (link_srcs c ++ link_srcs u) h')).
Proof. intros Hc Hu. exact (proxy_errors go_on strings_of arg0 h c u sh Hc Hu). Qed.

(** The statements of [proxy] are executed at most once each: from any of its
    statements the call takes at most [rank] steps, so that the result does not depend
    on the fuel once that is reached; it ends unless a component it calls does not. *)
Theorem proxy_ends `{!CommandOps} {C U L G} `{!Link C, !Link U, !Locker L}
    (p : pc) (st : heap * proxy_state C U L G) :
  (forall p' st', proxy_step p st = (Ret p', st') -> p = p' \/ rank p' < rank p) /\
  (forall fuel, rank p <= fuel -> run_proxy fuel p st = run_proxy (rank p) p st).
Proof.
  split; [|intros fuel Hf; by apply run_proxy_fuel]. intros p' st' E.
  destruct (decide (0 < rank p)) as [Hr|Hr]; [right; exact (proxy_step_rank p st p' st' E Hr)|].
  destruct p; simpl in Hr; try lia. left. simpl in E. by injection E as ->.
Qed.

(** * A concrete call

    A client that sends an array of one bulk string, and redis, which answers OK. *)

#[local] Existing Instance zero_floats.

#[local] Instance no_unicode : UnicodeCase := {| upper_unicode := id |}.

(** No locks at all. *)
#[local] Instance unlocked : Locker unit := {|
  lk_lock _ l := (None, l);
  lk_unlock _ l := (None, l);
  lk_await _ _ := Ret None;
|}.

Definition two_peers : heap :=
  Heap [buffer_source (str "*1" ++ kind.EOL ++ str "$4" ++ kind.EOL ++ str "PING" ++ kind.EOL);
        buffer_source (str "+OK" ++ kind.EOL)] [].

Definition redis_conn : Conn Buffer := conn.NewConnection (RSrc 1) (MkBuffer []).

Lemma proxy_never_serves_witness :
  exists o h' c' u',
    @proxy (commands true (fun _ => mret []) (fun _ => None)) _ _ _ _ _ _ _
      (two_peers, ProxyState free_conn redis_conn (Shared tt tt (str "0"))) =
      (o, (h', ProxyState c' u' (Shared tt tt (str "0")))) /\
    (sent c' = sent free_conn \/ sent c' = sent free_conn ++ [kind.Error]) /\
    ((exists e, o = Ret (Some e)) \/
     (o = Block /\ sent c' = sent free_conn /\
      message.waits_for (link_srcs free_conn ++ link_srcs redis_conn) h')).
Proof.
  apply (proxy_never_serves true (fun _ => mret []) (fun _ => None) two_peers free_conn redis_conn
    (Shared tt tt (str "0"))); reflexivity.
Defined.

(** A client that keeps its connection open after its request is left waiting. *)
Example proxy_waits :
  (@proxy (commands true (fun _ => mret []) (fun _ => None)) _ _ _ _ _ _ _
     (Heap [Source [str "+PING" ++ kind.EOL] Open; buffer_source (str "+OK" ++ kind.EOL)] [],
      ProxyState free_conn redis_conn (Shared tt tt (str "0")))).1 = Block.
Proof. reflexivity. Qed.
