(* ===== verification/TransactorSystem.v ===== *)
(** The transactor as a system (src/anarchoredis/txn.go): any number of proxy sessions,
    the handler of the replication stream, and redis, which puts the commands it
    executes on that stream, interleaved statement by statement, in any order.

    One handler serves all sessions.  [Transact] starts [StreamUpdates] for every
    client on the one subscriber of the transactor, which refuses to be used again once
    replication has started ([StreamUpdates_once] in ReplicationSpec.v); programs in
    which several streams are followed are in TransactServer.v, where the promise shown
    for this system fails.

    The contracts of the commands, of the key locks and of the log are stated here,
    and instances of them with which the runs of the other files are evaluated. *)

From S2P Require Import Prelude GoBase GoStrconv GoIO Kind Message Decoder Encoder.
From S2P Require Import Wire Conn Link Commands Badger KeyLocker Transactor.

(** * Contracts *)

(** What a message means, however often it is parsed. *)
Class Meaning := {
  cmd_of : Message -> option Command;
  keys_of : Command -> option (list bytes);
}.

Class CommandSpec `{!CommandOps, !Meaning} : Prop := {
  Cmd_meaning m h cmd h' : op_Cmd m h = (Ret (cmd, None), h') -> cmd = cmd_of m;
  Cmd_error m h cmd e h' : op_Cmd m h = (Ret (cmd, Some e), h') -> cmd = None;
  Keys_meaning c h ks h' : op_Keys c h = (Ret (ks, None), h') -> keys_of c = Some ks;
}.

(** The keys that are locked.  A wait returns nil only when none of its keys is. *)
Class LockerView (L : Type) := { held : L -> gset bytes }.

Class LockerSpec (L : Type) `{!Locker L, !LockerView L} : Prop := {
  lock_spec ks l err l' : lk_lock ks l = (err, l') ->
    held l' = match err with None => held l ∪ list_to_set ks | Some _ => held l end;
  unlock_spec ks l err l' : lk_unlock ks l = (err, l') ->
    held l' = match err with None => held l ∖ list_to_set ks | Some _ => held l end;
  await_spec ks l : lk_await ks l = Ret None -> forall k, k ∈ ks -> k ∉ held l;
}.

(** The messages in the log. *)
Class LogView (G : Type) := { entries : G -> list Message }.

Class TxnLogSpec (G : Type) `{!TxnLog G, !LogView G} : Prop := {
  append_spec m db g err g' : log_append m db g = (err, g') ->
    entries g' = match err with None => entries g ++ [m] | Some _ => entries g end;
}.

(** * The system *)

Section system.
Context `{!CommandOps} {C U L G : Type} `{!Link C, !Link U, !Locker L, !TxnLog G}.

Record session := Session { se_client : C; se_upstream : U; se_pc : pc }.

(** [sy_handler] is where the handler is, [None] between two messages; [sy_stream] are
    the commands on the replication stream that it has not taken yet; [sy_replied]
    records the requests whose reply was written. *)
Record system := System {
  sy_heap : heap;
  sy_shared : shared L G;
  sy_sessions : list session;
  sy_handler : option hpc;
  sy_stream : list Message;
  sy_replied : list Message;
}.

(** What happens next: session [i] executes a statement (when that flushes a command to
    redis, [emitted] says whether redis puts it on the stream), or calls [proxy] again;
    the handler takes a message, or executes a statement, with what the context then
    reports; or the acknowledging goroutine of the subscriber takes a message off the
    stream, as the answer it waits for ([stream_deliveries] in ReplicationSpec.v). *)
Inductive event := Run (i : nat) (emitted : bool) | Again (i : nat) | Take | Lose | Handle (ctx : option error).

(** Redis puts on the stream only commands that [replicates] allows. *)
Context (replicates : Message -> bool).

Definition emits_now (p : pc) (emitted : bool) : list Message :=
  match p with
  | PFlush req => if emitted && replicates req then [req] else []
  | _ => []
  end.

Definition replies_now (p p' : pc) : list Message :=
  match p, p' with
  | PReply req _, PReplyFlush _ => [req]
  | _, _ => []
  end.

Definition run_session (i : nat) (emitted : bool) (s : system) : option system :=
  match sy_sessions s !! i with
  | Some (Session c u p) =>
      if bool_decide (rank p = 0) then None
      else
        match proxy_step p (sy_heap s, ProxyState c u (sy_shared s)) with
        | (Ret p', (h, ProxyState c u sh)) =>
            Some (System h sh (<[i := Session c u p']> (sy_sessions s)) (sy_handler s)
                    (sy_stream s ++ emits_now p emitted) (sy_replied s ++ replies_now p p'))
        | _ => None     (* waiting for a lock, or crashed *)
        end
  | None => None
  end.

Definition call_again (i : nat) (s : system) : option system :=
  match sy_sessions s !! i with
  | Some (Session c u (PReturn None)) =>
      Some (System (sy_heap s) (sy_shared s) (<[i := Session c u PRead]> (sy_sessions s))
              (sy_handler s) (sy_stream s) (sy_replied s))
  | _ => None
  end.

Definition take_message (s : system) : option system :=
  match sy_handler s, sy_stream s with
  | None, m :: ms =>
      Some (System (sy_heap s) (sy_shared s) (sy_sessions s) (Some (HCmd m)) ms (sy_replied s))
  | _, _ => None
  end.

Definition lose_message (s : system) : option system :=
  match sy_stream s with
  | _ :: ms =>
      Some (System (sy_heap s) (sy_shared s) (sy_sessions s) (sy_handler s) ms (sy_replied s))
  | [] => None
  end.

(** A handler that returns nil is ready for the next message; after an error the
    stream is not read any more. *)
Definition next_handler (p : hpc) : option hpc :=
  match p with HReturn None => None | _ => Some p end.

Definition run_handler (ctx : option error) (s : system) : option system :=
  match sy_handler s with
  | None | Some (HReturn _) => None
  | Some p =>
      match handle_step ctx p (sy_heap s, sy_shared s) with
      | (Ret p', (h, sh)) =>
          Some (System h sh (sy_sessions s) (next_handler p') (sy_stream s) (sy_replied s))
      | _ => None
      end
  end.

Definition sys_step (e : event) (s : system) : option system :=
  match e with
  | Run i emitted => run_session i emitted s
  | Again i => call_again i s
  | Take => take_message s
  | Lose => lose_message s
  | Handle ctx => run_handler ctx s
  end.

Inductive reaches (s0 : system) : system -> Prop :=
| reaches_start : reaches s0 s0
| reaches_step e s s' : reaches s0 s -> sys_step e s = Some s' -> reaches s0 s'.

(** A schedule; an event that is not possible is skipped. *)
Definition play (es : list event) (s : system) : system :=
  foldl (fun s e => default s (sys_step e s)) s es.

Lemma play_reaches es s0 s : reaches s0 s -> reaches s0 (play es s).
Proof.
  revert s. induction es as [|e es IH]; intros s Hs; [done|]. simpl. apply IH.
  destruct (sys_step e s) eqn:E; simpl; [by eapply reaches_step|done].
Qed.

Definition start (h : heap) (sh : shared L G) (sessions : list (C * U)) : system :=
  System h sh ((fun cu => Session cu.1 cu.2 PRead) <$> sessions) None [] [].

End system.
Arguments session : clear implicits.
Arguments system : clear implicits.
Arguments Session {C U}.
Arguments System {C U L G}.

(** * What the promise is about *)

Section writes.
Context `{!Meaning}.

(** The keys of a message. *)
Definition msg_keys (m : Message) : list bytes :=
  match cmd_of m with Some c => default [] (keys_of c) | None => [] end.

Definition is_write (m : Message) : bool :=
  match cmd_of m with Some c => IsWrite c | None => false end.

(** A write with at least one key. *)
Definition keyed (m : Message) : bool := is_write m && negb (bool_decide (msg_keys m = [])).

(** A write of the key [k]. *)
Definition writes (k : bytes) (m : Message) : bool := is_write m && bool_decide (k ∈ msg_keys m).

(** Redis replicates only writes; commands without keys do not matter. *)
Definition replicates_writes (replicates : Message -> bool) : Prop :=
  forall m, replicates m = true -> is_write m = true \/ msg_keys m = [].

End writes.

(** * Scripted clients

    Commands are arrays of simple strings, the locks a set of keys, the log a list. *)

Module scripted.
#[export] Existing Instance zero_floats.

Definition words (ws : list string) : Message :=
  message.Array ((fun w => message.SimpleString (str w)) <$> ws).

Definition words_of (m : Message) : list bytes :=
  match m_Seq m with Some (IterList l) => m_SimpleString <$> l | _ => [] end.

#[export] Instance word_meaning : Meaning := {|
  cmd_of m := match words_of m with
              | [] => None
              | name :: _ => Some (MkCommand name (m_Seq m) [] m)
              end;
  keys_of c := Some (if bool_decide (c_Name c ∈ commandsWithoutKey) then []
                     else take 1 (drop 1 (words_of (c_Message c))));
|}.

#[export] Instance word_ops : CommandOps := {|
  op_Cmd m h := (Ret (cmd_of m, if bool_decide (cmd_of m = None) then Some ErrInvalidCommand else None), h);
  op_Keys c h := (Ret (default [] (keys_of c), None), h);
  op_arg0 c := words_of (c_Message c) !! 1;
|}.

#[export] Instance word_spec : CommandSpec.
Proof.
  split.
  - intros m h cmd h'. simpl. by intros [= <- _ _].
  - intros m h cmd e h'. simpl. destruct (words_of m); by intros [= <- _ _].
  - intros c h ks h'. simpl. by intros [= <- _].
Qed.

#[export] Instance set_locker : Locker (gset bytes) := {|
  lk_lock ks l := (None, l ∪ list_to_set ks);
  lk_unlock ks l := (None, l ∖ list_to_set ks);
  lk_await ks l := if forallb (fun k => bool_decide (k ∉ l)) ks then Ret None else Block;
|}.

#[export] Instance set_view : LockerView (gset bytes) := {| held := id |}.

#[export] Instance set_locker_spec : LockerSpec (gset bytes).
Proof.
  split.
  - by intros ks l err l' [= <- <-].
  - by intros ks l err l' [= <- <-].
  - intros ks l. simpl. destruct (forallb _ ks) eqn:E; [|done]. intros _ k Hk.
    rewrite forallb_forall in E. eapply bool_decide_eq_true_1, E. by apply list_elem_of_In.
Qed.

#[export] Instance list_log : TxnLog (list Message) := {| log_append m _ g := (None, g ++ [m]) |}.
#[export] Instance list_view : LogView (list Message) := {| entries := id |}.
#[export] Instance list_log_spec : TxnLogSpec (list Message).
Proof. split. by intros m db g err g' [= <- <-]. Qed.

(** Redis replicates what the table of commands calls a write. *)
Lemma is_write_replicates : replicates_writes is_write.
Proof. intros m Hm. by left. Qed.

Definition ok_reply : Message := message.SimpleString (str "OK").

(** A client that sends the given commands, and its connection to redis. *)
Definition client_of (ms : list Message) : script * script :=
  (Script ms EOF [], Script ((fun _ => ok_reply) <$> ms) EOF []).

Definition begin (clients : list (list Message)) : system script script (gset bytes) (list Message) :=
  start (Heap [] []) (Shared ∅ [] (str "0")) (client_of <$> clients).

(** [n] statements of session [i]; what it flushes is replicated. *)
Definition go (i n : nat) : list event := replicate n (Run i true).
Definition handle_one : list event := Take :: replicate 5 (Handle None).

Definition set_k (v : string) : Message := words ["SET"; "k"; v]%string.

Definition run_on (clients : list (list Message)) (es : list event) : list Message * list Message :=
  let s := play is_write es (begin clients) in (sy_replied s, sh_txnlog (sy_shared s)).

End scripted.
