(* ===== verification/LockerContract.v ===== *)
(** The key locks of this repository (src/anarchoredis/localstate/keylocker.go) against
    the contract the transactor relies on ([LockerSpec]): releasing keeps it, waiting keeps
    it up to what the subscription reports meanwhile, taking a lock does not. *)

From S2P Require Import Prelude GoBase GoStrings GoStrconv GoIO Kind Message Decoder Commands.
From S2P Require Import Badger KeyLocker Transactor TransactorSystem.

Section contract.
Context {DB : Type} `{!Badger DB, !BadgerSpec DB, !BadgerFeed DB, !BadgerFeedSpec DB} (ttl : Z).

(** The locked keys are those with a lock entry. *)
Definition lock_of (key : bytes) : option bytes :=
  if has_prefix keyprefix key then Some (drop (length keyprefix) key) else None.

#[export] Instance store_view : LockerView DB := {|
  held db := list_to_set (omap lock_of (elements (dom (snapshot db))));
|}.

#[local] Instance store_locker : Locker DB := keylocker ttl.

Lemma lock_of_Some key k : lock_of key = Some k <-> key = keyprefix ++ k.
Proof.
  unfold lock_of, has_prefix. split.
  - case_bool_decide as Hp; [|done]. intros [= <-]. by rewrite <- (take_drop (length keyprefix) key), Hp at 1.
  - intros ->. by rewrite take_app_length, bool_decide_eq_true_2, drop_app_length.
Qed.

Lemma elem_of_held k db : k ∈ held db <-> locked db k.
Proof.
  unfold held, locked. simpl. rewrite elem_of_list_to_set, list_elem_of_omap.
  split.
  - intros (key & Hin & ->%lock_of_Some). by apply elem_of_dom, elem_of_elements.
  - intros Hk. exists (keyprefix ++ k). split; [by apply elem_of_elements, elem_of_dom|by apply lock_of_Some].
Qed.

(** The stores have the same locks when they have the same lock entries. *)
Lemma held_ext db db' :
  (forall k, snapshot db' !! (keyprefix ++ k) = snapshot db !! (keyprefix ++ k)) -> held db' = held db.
Proof. intros E. apply set_eq. intros k. rewrite !elem_of_held. unfold locked. by rewrite E. Qed.

Lemma unlock_contract ks db err db' :
  lk_unlock ks db = (err, db') ->
  held db' = match err with None => held db ∖ list_to_set ks | Some _ => held db end.
Proof.
  intros Hu. destruct err as [e|]; simpl in Hu.
  { apply Update_write_keys in Hu. apply held_ext. intros k. by rewrite Hu. }
  apply set_eq. intros k. rewrite elem_of_difference, !elem_of_held, elem_of_list_to_set.
  unfold locked. rewrite (UnlockKeys_lookup _ _ _ _ Hu). case_decide as Hk.
  - apply list_elem_of_fmap in Hk as (k' & E & Hin). apply (app_inv_head keyprefix) in E as <-.
    split; [by intros []|by intros [_ []]].
  - split; [|by intros []]. intros Hs. split; [done|]. intros Hin. apply Hk. by apply list_elem_of_fmap_2.
Qed.

(** Waiting: every key is free, or reported as released while the call waits. *)
Lemma await_contract ks db :
  ~ view_fails db ks ->
  lk_await ks db = Ret None <->
  exists n, forall k, k ∈ ks ->
    (k ∉ held db) \/ k ∈ released (take n (feed db (filter (locked db) ks))).
Proof.
  intros Hv. change (lk_await ks db) with (await_keys ks db).
  rewrite (proj1 (await_cases ks db)). split.
  - intros [?|[n Hn]]; [done|]. exists n. intros k Hk.
    destruct (decide (locked db k)) as [Hl|Hl]; [right|left; by rewrite elem_of_held].
    apply (elem_of_list_to_set (C := gset bytes)), Hn, elem_of_list_to_set. by apply list_elem_of_filter.
  - intros [n Hn]. right. exists n. intros k Hk. apply elem_of_list_to_set in Hk.
    apply list_elem_of_filter in Hk as [Hl Hk]. apply elem_of_list_to_set.
    destruct (Hn k Hk) as [Hh|?]; [|done]. by destruct Hh; apply elem_of_held.
Qed.

Lemma lock_contract ks db err db' :
  Forall (fun k => has_prefix keyprefix k = false) ks -> lk_lock ks db = (err, db') -> held db' = held db.
Proof.
  intros Hp Hl. apply held_ext. intros k. eapply lock_keys_other; [exact Hl|].
  intros Hin. rewrite Forall_forall in Hp. specialize (Hp _ Hin). by rewrite has_prefix_app in Hp.
Qed.

End contract.

(** C17: what the key locks of this repository keep of the contract of the transactor:
    [UnlockKeys] releases exactly its keys, or nothing when it fails; [AwaitUnlocked],
    when its view of the locks does not fail, returns nil exactly when each of its keys is
    free or is reported as released, by a change its subscription delivers, while it
    waits; but [LockKeys] locks nothing, so that for keys that do not themselves start
    with the prefix of lock entries it keeps its part only if they are locked already. *)
Theorem keylocker_contract {DB} `{!Badger DB, !BadgerSpec DB, !BadgerFeed DB, !BadgerFeedSpec DB}
    (ttl : Z) (ks : list bytes) (db : DB) :
  (forall err db', @lk_unlock DB (keylocker ttl) ks db = (err, db') ->
     held db' = match err with None => held db ∖ list_to_set ks | Some _ => held db end) /\
  (~ view_fails db ks ->
   @lk_await DB (keylocker ttl) ks db = Ret None <->
   exists n, forall k, k ∈ ks ->
     (k ∉ held db) \/ k ∈ released (take n (feed db (filter (locked db) ks)))) /\
  (Forall (fun k => has_prefix keyprefix k = false) ks ->
   forall db', @lk_lock DB (keylocker ttl) ks db = (None, db') ->
     held db' = held db ∪ list_to_set ks <-> list_to_set ks ⊆ held db).
Proof.
  split_and!.
  - intros err db'. by apply unlock_contract.
  - by apply await_contract.
  - intros Hp db' Hl. rewrite (lock_contract ttl ks db None db' Hp Hl). split.
    + intros E. rewrite E. apply union_subseteq_r.
    + intros Hs. rewrite union_comm_L. symmetry. by apply subseteq_union_1_L.
Qed.

(** * A concrete store *)

Lemma keylocker_contract_witness :
  elements (held locked_a) = [str "a"] /\
  @lk_await MemDB (@keylocker MemDB _ (mem_feed releases (Some canceled)) 60) [str "a"; str "b"] locked_a = Ret None.
Proof.
  split; [by vm_compute|].
  apply (proj1 (proj2 (@keylocker_contract MemDB _ _ (mem_feed releases (Some canceled))
    (mem_feed_spec releases (Some canceled) ltac:(by intros e [= <-])) 60 [str "a"; str "b"] locked_a))).
  - apply mem_view.
  - exists 2. intros k Hk. apply elem_of_cons in Hk as [->|Hk]; [right|left].
    + by apply (bool_decide_unpack _); vm_compute.
    + apply list_elem_of_singleton in Hk as ->. by apply (bool_decide_unpack _); vm_compute.
Defined.
