(* ===== verification/TransactorSafety.v ===== *)
(** The promise of the transactor (src/anarchoredis/txn.go): a reply to a write is sent
    only when the write is in the transaction log.

    The promise is proved for one session against the contracts of the commands, of
    the key locks and of the log; the invariant is stated for any set of watched keys,
    as TransactorMany.v needs it for several sessions.  Runs at the end show what
    happens with two sessions on one key, with writes that have no keys, and when the
    stream is faster than the proxy. *)

From S2P Require Import Prelude GoBase GoStrconv GoIO Kind Message Decoder Encoder.
From S2P Require Import Wire Conn Link Commands Badger KeyLocker Transactor TransactorSystem.

(** * The invariant of a session

    It is stated for the keys of a set [W], and about the writes of such keys: for one
    session all keys are watched, for several sessions one key at a time. *)

Section safety.
Context `{!CommandOps, !Meaning, !CommandSpec}.
Context {C U L G : Type} `{!Link C, !Link U, !Locker L, !LockerView L, !LockerSpec L,
  !TxnLog G, !LogView G, !TxnLogSpec G}.
Context (replicates : Message -> bool).

Context (W : bytes -> bool).

(** The keys of a message that are watched, and the writes of watched keys. *)
Definition wkeys (m : Message) : list bytes := filter (fun k => W k = true) (msg_keys m).
Definition watched (m : Message) : bool := is_write m && negb (bool_decide (wkeys m = [])).

Definition handler_before (p : option hpc) : list Message :=
  match p with Some (HCmd m) | Some (HKeys m _) | Some (HAppend m _) => [m] | _ => [] end.
Definition handler_after (p : option hpc) : list Message :=
  match p with Some (HUnlock m _) => [m] | _ => [] end.

(** What is left of the handler, given its message. *)
Definition handler_ok (p : option hpc) : Prop :=
  match p with
  | Some (HCmd m) => replicates m = true
  | Some (HKeys m cmd) => replicates m = true /\ cmd = cmd_of m
  | Some (HAppend m ks) | Some (HUnlock m ks) => replicates m = true /\ ks = msg_keys m
  | _ => True
  end.

(** The parts of the state the promise is about, restricted to watched writes: replied,
    logged, on their way to the log, logged but not yet released, and the locks. *)
Record view := View {
  v_replied : list Message;
  v_logged : list Message;
  v_todo : list Message;
  v_releasing : list Message;
  v_held : gset bytes;
}.

Definition watched_of (l : gset bytes) : gset bytes := filter (fun k => W k = true) l.

Definition kf (ms : list Message) : list Message := filter (fun m => watched m = true) ms.

Definition view_of (s : system C U L G) : view :=
  View (kf (sy_replied s)) (kf (entries (sh_txnlog (sy_shared s))))
    (kf (handler_before (sy_handler s) ++ sy_stream s)) (kf (handler_after (sy_handler s)))
    (watched_of (held (sh_keys (sy_shared s)))).

(** Nothing is on its way. *)
Definition quiet (v : view) : Prop :=
  v_logged v = v_replied v /\ v_todo v = [] /\ v_releasing v = [].

(** The command [m] has been logged and released. *)
Definition finished (m : Message) (v : view) : Prop :=
  v_logged v = v_replied v ++ [m] /\ v_todo v = [] /\ v_releasing v = [].

(** The command [m] is on its way: redis did not replicate it (yet), it waits for the
    handler, it has been logged, or it is finished. *)
Definition on_its_way (m : Message) (v : view) : Prop :=
  quiet v \/
  (v_logged v = v_replied v /\ v_todo v = [m] /\ v_releasing v = []) \/
  (v_logged v = v_replied v ++ [m] /\ v_todo v = [] /\ v_releasing v = [m]) \/
  finished m v.

Definition in_flight (m : Message) (v : view) : Prop :=
  if watched m then on_its_way m v else quiet v.

Definition guarded (m : Message) (v : view) : Prop :=
  watched m = true -> finished m v \/ list_to_set (wkeys m) ⊆ v_held v.

Definition pc_ok (p : pc) (v : view) : Prop :=
  match p with
  | PRead | PWrite _ | PFlush _ | PReplyFlush _ | PReturn None => quiet v
  | PResp m | PCmd m _ => in_flight m v
  | PFail m _ cmd _ => in_flight m v /\ cmd = None
  | PSelect m _ cmd => in_flight m v /\ (cmd = None \/ cmd = cmd_of m)
  | PLock m _ cmd => in_flight m v /\ cmd_of m = Some cmd
  | PAwait m _ cmd => in_flight m v /\ cmd_of m = Some cmd /\ guarded m v
  | PReply m _ => if watched m then finished m v else quiet v
  | PReturn (Some _) => v_replied v `prefix_of` v_logged v
  end.

Lemma quiet_prefix v : quiet v -> v_replied v `prefix_of` v_logged v.
Proof. by intros (-> & _). Qed.

Lemma finished_prefix m v : finished m v -> v_replied v `prefix_of` v_logged v.
Proof. intros (-> & _). by eexists. Qed.

Lemma in_flight_prefix m v : in_flight m v -> v_replied v `prefix_of` v_logged v.
Proof.
  unfold in_flight. destruct (watched m); [|apply quiet_prefix].
  intros [Hq|[(E & _)|[(E & _)|Hf]]];
    [by apply quiet_prefix|by rewrite E|rewrite E; by eexists|by eapply finished_prefix].
Qed.

Lemma pc_ok_prefix p v : pc_ok p v -> v_replied v `prefix_of` v_logged v.
Proof.
  destruct p as [| | | | | | | | | | |[e|]]; simpl; try apply quiet_prefix; try apply in_flight_prefix; try done;
    try (intros [Hf _]; by eapply in_flight_prefix).
  destruct (watched req); [apply finished_prefix|apply quiet_prefix].
Qed.

(** ** The handler *)

(** What the handler can do to the view. *)
Inductive hmove : view -> view -> Prop :=
| hm_none v : hmove v v
| hm_drop r g a m t rel l : hmove (View r g (a ++ m :: t) rel l) (View r g (a ++ t) rel l)
| hm_append r g m t l : hmove (View r g (m :: t) [] l) (View r (g ++ [m]) t [m] l)
| hm_release r g t m l :
    hmove (View r g t [m] l) (View r g t [] (l ∖ list_to_set (wkeys m)))
| hm_keep r g t m l : hmove (View r g t [m] l) (View r g t [] l).

(** When nothing is on its way it does nothing. *)
Lemma hmove_still v v' : v_todo v = [] -> v_releasing v = [] -> hmove v v' -> v' = v.
Proof. intros Ht Hr Hm. destruct Hm; try done. by destruct a. Qed.

Lemma quiet_hmove v v' : hmove v v' -> quiet v -> quiet v'.
Proof. intros Hm Hq. destruct Hq as (E & Ht & Hr). by rewrite (hmove_still v v'). Qed.

Lemma finished_hmove m v v' : hmove v v' -> finished m v -> finished m v'.
Proof. intros Hm Hf. destruct Hf as (E & Ht & Hr). by rewrite (hmove_still v v'). Qed.

(** The keys of a command on its way stay locked until it is finished. *)
Lemma in_flight_hmove m v v' :
  hmove v v' -> in_flight m v -> in_flight m v' /\ (guarded m v -> guarded m v').
Proof.
  intros Hm. unfold in_flight, guarded. destruct (watched m); [|by split; [eapply quiet_hmove|]].
  intros [Hq|[(E & Ht & Hr)|[(E & Ht & Hr)|Hf]]].
  - destruct Hq as (E & Ht & Hr). rewrite (hmove_still v v') by done. split; [|done]. by left.
  - destruct Hm as [v|r g a m' t rel l|r g m' t l|r g t m' l|r g t m' l]; simpl in *; simplify_eq.
    + split; [right; left; by split_and!|done].
    + apply app_singleton in Ht as [[-> [= -> ->]]|[_ Hn]]; [|done].
      split; [left; by split_and!|]. intros Hg Hk. destruct (Hg Hk) as [(_ & Hf & _)|Hs]; [done|by right].
    + split; [right; right; left; by split_and!|].
      intros Hg Hk. destruct (Hg Hk) as [(_ & Hf & _)|Hs]; [done|by right].
  - destruct Hm as [v|r g a m' t rel l|r g m' t l|r g t m' l|r g t m' l]; simpl in *; simplify_eq.
    + split; [right; right; left; by split_and!|done].
    + by destruct a.
    + assert (finished m (View r (r ++ [m]) [] [] (l ∖ list_to_set (wkeys m)))) by by split_and!.
      split; [by right; right; right|]. intros _ _. by left.
    + assert (finished m (View r (r ++ [m]) [] [] l)) by by split_and!.
      split; [by right; right; right|]. intros _ _. by left.
  - apply (finished_hmove m v v' Hm) in Hf. split; [by right; right; right|]. intros _ _. by left.
Qed.

Lemma prefix_hmove v v' :
  hmove v v' -> v_replied v `prefix_of` v_logged v -> v_replied v' `prefix_of` v_logged v'.
Proof. intros Hm. destruct Hm; simpl; try done. intros Hp. by apply prefix_app_r. Qed.

Lemma pc_ok_hmove p v v' : hmove v v' -> pc_ok p v -> pc_ok p v'.
Proof.
  intros Hm. pose proof (fun m => in_flight_hmove m v v' Hm) as Hfl.
  pose proof (quiet_hmove v v' Hm) as Hq.
  destruct p as [| | |m|m ?|m ? cmd ?|m ? cmd|m ? cmd|m ? cmd|m ?| |[e|]]; simpl; try done.
  - apply Hfl.
  - apply Hfl.
  - intros [Hf ?]. split; [by apply Hfl|done].
  - intros [Hf ?]. split; [by apply Hfl|done].
  - intros [Hf ?]. split; [by apply Hfl|done].
  - intros (Hf & ? & Hg). destruct (Hfl m Hf) as [Hf' Hg']. split_and!; [done|done|by apply Hg'].
  - destruct (watched m); [by apply finished_hmove|done].
  - by apply prefix_hmove.
Qed.

Lemma kf_app a b : kf (a ++ b) = kf a ++ kf b.
Proof. apply filter_app. Qed.

Lemma kf_cons m ms : kf (m :: ms) = if watched m then m :: kf ms else kf ms.
Proof. unfold kf. rewrite filter_cons. by destruct (watched m). Qed.

(** The keys of a message that was parsed. *)
Lemma msg_keys_meaning m c ks : cmd_of m = Some c -> keys_of c = Some ks -> msg_keys m = ks.
Proof. intros Hc Hk. unfold msg_keys. by rewrite Hc, Hk. Qed.

(** A message that is given up, logged, or released, keyed or not. *)
Lemma hmove_lose r g a m t rel l : hmove (View r g (kf (a ++ m :: t)) rel l) (View r g (kf (a ++ t)) rel l).
Proof. rewrite !kf_app, kf_cons. destruct (watched m); constructor. Qed.

Lemma hmove_drop r g m t rel l : hmove (View r g (kf (m :: t)) rel l) (View r g (kf t) rel l).
Proof. apply (hmove_lose r g []). Qed.

Lemma hmove_append r g m t l :
  hmove (View r (kf g) (kf (m :: t)) [] l) (View r (kf (g ++ [m])) (kf t) (kf [m]) l).
Proof.
  rewrite kf_app, !kf_cons. destruct (watched m); [constructor|]. simpl. rewrite app_nil_r. constructor.
Qed.

(** A message that is no watched write and was replicated has no watched keys. *)
Lemma unwatched_keys m : is_write m = true \/ msg_keys m = [] -> watched m = false -> wkeys m = [].
Proof.
  unfold watched. intros [->|E]; [|by unfold wkeys; rewrite E]. simpl.
  by intros Hn%negb_false_iff%bool_decide_eq_true_1.
Qed.

Lemma watched_union l ks :
  watched_of (l ∪ list_to_set ks) = watched_of l ∪ list_to_set (filter (fun k => W k = true) ks).
Proof. unfold watched_of. set_unfold. intros k. rewrite list_elem_of_filter. tauto. Qed.

Lemma watched_difference l ks :
  watched_of (l ∖ list_to_set ks) = watched_of l ∖ list_to_set (filter (fun k => W k = true) ks).
Proof. unfold watched_of. set_unfold. intros k. rewrite list_elem_of_filter. tauto. Qed.

Lemma hmove_release r g m t l :
  (is_write m = true \/ msg_keys m = []) ->
  hmove (View r g t (kf [m]) (watched_of l)) (View r g t [] (watched_of (l ∖ list_to_set (msg_keys m)))).
Proof.
  intros Hk. rewrite kf_cons, watched_difference. fold (wkeys m). destruct (watched m) eqn:E; [constructor|].
  rewrite unwatched_keys by done. cbn [list_to_set]. rewrite difference_empty_L. constructor.
Qed.

Lemma hmove_keep r g m t l : hmove (View r g t (kf [m]) l) (View r g t [] l).
Proof. rewrite kf_cons. destruct (watched m); constructor. Qed.

Context (Hrep : replicates_writes replicates).

Lemma run_handler_ok ctx (s s' : system C U L G) :
  handler_ok (sy_handler s) -> run_handler ctx s = Some s' ->
  hmove (view_of s) (view_of s') /\ handler_ok (sy_handler s') /\
  sy_sessions s' = sy_sessions s /\ sy_stream s' = sy_stream s.
Proof.
  destruct s as [h sh ses [p|] st rep]; [|done]. unfold run_handler, view_of. cbn [sy_handler sy_heap sy_shared].
  intros Hok E. destruct p as [m|m cmd|m ks|m ks|m|err]; [..|done]; cbn [handle_step] in E; simpl in Hok.
  - destruct ctx as [e|].
    { simpl in E. simplify_eq. simpl. split_and!; [apply hmove_drop|done..]. }
    unfold on_heap, mbind, M_bind in E.
    destruct (op_Cmd m h) as [[[cmd [e|]]| | |] h1] eqn:Ec; try done; simpl in E; simplify_eq; simpl.
    + split_and!; [apply hmove_drop|done..].
    + apply Cmd_meaning in Ec. split_and!; [constructor|done..].
  - destruct Hok as [Hr ->]. destruct (cmd_of m) as [c|] eqn:Hc; [|done].
    unfold on_heap, mbind, M_bind in E.
    destruct (op_Keys c h) as [[[ks [e|]]| | |] h1] eqn:Ek; try done; simpl in E; simplify_eq; simpl.
    + split_and!; [apply hmove_drop|done..].
    + apply Keys_meaning in Ek. rewrite (msg_keys_meaning m c ks) by done.
      split_and!; [constructor|done..].
  - destruct Hok as [Hr ->]. unfold with_log, mbind, M_bind in E.
    destruct (log_append m (sh_database sh) (sh_txnlog sh)) as [err g] eqn:Eg.
    apply append_spec in Eg. destruct err as [e|]; simpl in E; simplify_eq; simpl; rewrite Eg.
    + split_and!; [apply hmove_drop|done..].
    + split_and!; [apply hmove_append|done..].
  - destruct Hok as [Hr ->]. unfold with_locks, mbind, M_bind in E.
    destruct (lk_unlock (msg_keys m) (sh_keys sh)) as [err l] eqn:El.
    apply unlock_spec in El. destruct err as [e|]; simpl in E; simplify_eq; simpl; rewrite El.
    + split_and!; [apply hmove_keep|done..].
    + split_and!; [apply hmove_release, Hrep; done|done..].
  - simpl in E. destruct ctx; simplify_eq; simpl; (split_and!; [constructor|done..]).
Qed.

Lemma take_message_ok (s s' : system C U L G) :
  Forall (fun m => replicates m = true) (sy_stream s) -> take_message s = Some s' ->
  view_of s' = view_of s /\ handler_ok (sy_handler s') /\
  sy_sessions s' = sy_sessions s /\ Forall (fun m => replicates m = true) (sy_stream s').
Proof.
  destruct s as [h sh ses [p|] [|m st] rep]; try done. unfold take_message, view_of.
  cbn [sy_handler sy_stream]. intros [Hm Hst]%Forall_cons [= <-]. by split_and!.
Qed.

Lemma lose_message_ok (s s' : system C U L G) :
  Forall (fun m => replicates m = true) (sy_stream s) -> lose_message s = Some s' ->
  hmove (view_of s) (view_of s') /\ sy_handler s' = sy_handler s /\
  sy_sessions s' = sy_sessions s /\ Forall (fun m => replicates m = true) (sy_stream s').
Proof.
  destruct s as [h sh ses p [|m st] rep]; try done. unfold lose_message, view_of.
  cbn [sy_handler sy_stream]. intros [Hm Hst]%Forall_cons [= <-]. split_and!; [apply hmove_lose|done..].
Qed.

(** ** The session *)

Lemma or_return_ok err next v : pc_ok next v -> pc_ok (or_return err next) v.
Proof. destruct err; simpl; [apply pc_ok_prefix|done]. Qed.

Lemma client_shared {A} (m : M (heap * C) A) h (p : proxy_state C U L G) o h' p' :
  client m (h, p) = (o, (h', p')) -> px_shared p' = px_shared p.
Proof. unfold client. destruct (m (h, px_client p)) as [? [? ?]]. by intros [= <- <- <-]. Qed.

Lemma upstream_shared {A} (m : M (heap * U) A) h (p : proxy_state C U L G) o h' p' :
  upstream m (h, p) = (o, (h', p')) -> px_shared p' = px_shared p.
Proof. unfold upstream. destruct (m (h, px_upstream p)) as [? [? ?]]. by intros [= <- <- <-]. Qed.

(** The effect of a statement on what is shared, and on where the call goes on. *)
Definition step_effect (p p' : pc) (sh sh' : shared L G) : Prop :=
  sh_txnlog sh' = sh_txnlog sh /\
  match p with
  | PRead => sh_keys sh' = sh_keys sh /\ exists err req, p' = or_return err (PWrite req)
  | PWrite m => sh_keys sh' = sh_keys sh /\ exists err, p' = or_return err (PFlush m)
  | PFlush m => sh_keys sh' = sh_keys sh /\ exists err, p' = or_return err (PResp m)
  | PResp m => sh_keys sh' = sh_keys sh /\ exists err resp, p' = or_return err (PCmd m resp)
  | PCmd m r => sh_keys sh' = sh_keys sh /\
      ((exists e, p' = PFail m r None e) \/ p' = PSelect m r (cmd_of m))
  | PFail m r cmd _ => sh_keys sh' = sh_keys sh /\ exists err, p' = or_return err (PSelect m r cmd)
  | PSelect m r cmd => sh_keys sh' = sh_keys sh /\ exists c, cmd = Some c /\ p' = PLock m r c
  | PLock m r c =>
      ((exists e, p' = PReturn (Some e)) /\ held (sh_keys sh') = held (sh_keys sh)) \/
      (p' = PAwait m r c /\ IsWrite c = false /\ sh_keys sh' = sh_keys sh) \/
      (p' = PAwait m r c /\ IsWrite c = true /\ exists ks, keys_of c = Some ks /\
         held (sh_keys sh') = held (sh_keys sh) ∪ list_to_set ks)
  | PAwait m r c => sh_keys sh' = sh_keys sh /\
      ((exists e, p' = PReturn (Some e)) \/
       (p' = PReply m r /\ exists ks, keys_of c = Some ks /\ forall k, k ∈ ks -> k ∉ held (sh_keys sh)))
  | PReply m r => sh_keys sh' = sh_keys sh /\
      ((exists e, p' = PReturn (Some e)) \/ p' = PReplyFlush m)
  | PReplyFlush m => sh_keys sh' = sh_keys sh /\ exists err, p' = PReturn err
  | PReturn _ => True
  end.

(** Calls of the connections share nothing with the other goroutines. *)
Ltac by_link E :=
  apply bind_ret_inv in E as (? & [? ?] & ?Hl & E);
  match goal with
  | H : client _ _ = _ |- _ => apply client_shared in H
  | H : upstream _ _ = _ |- _ => apply upstream_shared in H
  end; simpl in *.

Lemma LockKeys_effect c h st err h' st' :
  LockKeys_ c (h, st) = (Ret err, (h', st')) ->
  sh_txnlog (px_shared st') = sh_txnlog (px_shared st) /\
  match err with
  | Some _ => held (sh_keys (px_shared st')) = held (sh_keys (px_shared (st : proxy_state C U L G)))
  | None => exists ks, keys_of c = Some ks /\
     held (sh_keys (px_shared st')) = held (sh_keys (px_shared st)) ∪ list_to_set ks
  end.
Proof.
  unfold LockKeys_, on_heap, mbind, M_bind, with_keys.
  destruct (op_Keys c h) as [[[ks [e|]]| | |] h1] eqn:Ek; try done; [by intros [= <- <- <-]|].
  destruct (lk_lock ks (sh_keys (px_shared st))) as [e l] eqn:El. intros [= <- <- <-].
  apply lock_spec in El. split; [done|]. destruct e as [e|]; [done|]. exists ks.
  by apply Keys_meaning in Ek.
Qed.

Lemma AwaitUnlocked_effect c h st err h' st' :
  AwaitUnlocked_ c (h, st) = (Ret err, (h', st')) ->
  px_shared st' = px_shared (st : proxy_state C U L G) /\
  (err = None -> exists ks, keys_of c = Some ks /\
     forall k, k ∈ ks -> k ∉ held (sh_keys (px_shared st))).
Proof.
  unfold AwaitUnlocked_, on_heap, mbind, M_bind, with_keys.
  destruct (op_Keys c h) as [[[ks [e|]]| | |] h1] eqn:Ek; try done; [by intros [= <- <- <-]|].
  destruct st as [cl up [l g db]]. cbn [px_shared sh_keys].
  intros [= El <- <-]. split; [done|]. intros ->. exists ks. apply Keys_meaning in Ek. split; [done|].
  by apply await_spec.
Qed.

Lemma proxy_step_effect p h st p' h' st' :
  proxy_step p (h, st) = (Ret p', (h', st')) ->
  step_effect p p' (px_shared (st : proxy_state C U L G)) (px_shared st').
Proof.
  unfold step_effect. destruct p as [|m|m|m|m r|m r cmd e|m r cmd|m r c|m r c|m r|m|err];
    cbn [proxy_step]; intros E.
  - by_link E. destruct x. inv_bind. rewrite Hl. eauto.
  - by_link E. destruct x. inv_bind. rewrite Hl. eauto.
  - by_link E. inv_bind. rewrite Hl. eauto.
  - by_link E. destruct x. inv_bind. rewrite Hl. eauto.
  - apply bind_ret_inv in E as ([cmd err] & [h1 st1] & Ec & E). unfold on_heap in Ec.
    destruct (op_Cmd m h) as [o h2] eqn:Eo. simplify_eq. inv_bind. split_and!; [done|done|].
    destruct err as [e|]; [apply Cmd_error in Eo as ->; eauto|apply Cmd_meaning in Eo as ->; eauto].
  - by_link E. destruct x. inv_bind. rewrite Hl. eauto.
  - destruct cmd as [c|]; [|done]. destruct (bool_decide _); [|by inv_bind; eauto 6].
    destruct (op_arg0 c) as [db|]; [|done].
    apply bind_ret_inv in E as (? & [h1 st1] & Ed & E). unfold set_database in Ed. simplify_eq.
    inv_bind. eauto 6.
  - destruct (IsWrite c) eqn:Hw; [|by inv_bind; split; eauto].
    apply bind_ret_inv in E as (err & [h1 st1] & El & E). apply LockKeys_effect in El as [Hg Hk].
    inv_bind. split; [done|]. destruct err as [e|]; simpl; [left; by eauto|]. right; right. eauto.
  - apply bind_ret_inv in E as (err & [h1 st1] & El & E). apply AwaitUnlocked_effect in El as [Hs Hk].
    inv_bind. rewrite Hs. split_and!; [done|done|]. destruct err as [e|]; simpl; [by eauto|]. right. eauto.
  - by_link E. destruct x as [n err]. inv_bind. rewrite Hl. split_and!; [done|done|].
    destruct err as [e|]; simpl; eauto.
  - by_link E. inv_bind. rewrite Hl. eauto.
  - by inv_bind.
Qed.

(** When a wait has ended, the keys of the write are not all locked. *)
Lemma await_not_held m c ks (l : L) :
  watched m = true -> cmd_of m = Some c -> keys_of c = Some ks -> (forall k, k ∈ ks -> k ∉ held l) ->
  ~ list_to_set (wkeys m) ⊆ watched_of (held l).
Proof.
  intros Hw Hc Hk Hh Hsub. destruct (wkeys m) as [|k wks] eqn:Hwk.
  { unfold watched in Hw. by rewrite Hwk, andb_false_r in Hw. }
  assert (k ∈ wkeys m) as Hin by (rewrite Hwk; left).
  unfold wkeys in Hin. rewrite list_elem_of_filter, (msg_keys_meaning m c ks) in Hin by done.
  apply (Hh k); [apply Hin|]. eapply elem_of_filter, Hsub, elem_of_list_to_set. left.
Qed.

(** A statement of the session keeps the invariant. *)
Lemma pc_ok_effect p p' (sh sh' : shared L G) r hb ha st emitted :
  step_effect p p' sh sh' -> rank p <> 0 ->
  pc_ok p (View r (kf (entries (sh_txnlog sh))) (kf (hb ++ st)) (kf ha) (watched_of (held (sh_keys sh)))) ->
  pc_ok p' (View (r ++ kf (replies_now p p')) (kf (entries (sh_txnlog sh')))
    (kf (hb ++ st ++ emits_now replicates p emitted)) (kf ha) (watched_of (held (sh_keys sh')))).
Proof.
  intros [-> He] Hrk. set (g := kf (entries (sh_txnlog sh))).
  destruct p as [|m|m|m|m rp|m rp cmd e|m rp cmd|m rp c|m rp c|m rp|m|err]; simpl replies_now; simpl emits_now;
    change (kf []) with (@nil Message); rewrite ?app_nil_r; intros Hp; simpl in Hp.
  - destruct He as (-> & err & req & ->). by apply or_return_ok.
  - destruct He as (-> & err & ->). by apply or_return_ok.
  - destruct He as (-> & err & ->). apply or_return_ok. simpl. rewrite app_assoc, kf_app.
    destruct Hp as (Hg & Ht & Hr). simpl in *. rewrite Ht, app_nil_l, Hr. unfold in_flight.
    assert (kf (if emitted && replicates m then [m] else []) = [] \/
      watched m = true /\ kf (if emitted && replicates m then [m] else []) = [m]) as [->|[-> ->]].
    { destruct (emitted && _); [|by left]. rewrite kf_cons. destruct (watched m); auto. }
    + destruct (watched m); [left|]; by split_and!.
    + right; left. by split_and!.
  - destruct He as (-> & err & resp & ->). by apply or_return_ok.
  - destruct He as (-> & [[e ->]| ->]); simpl; auto.
  - destruct He as (-> & err & ->). destruct Hp as [Hf ->]. apply or_return_ok. simpl. auto.
  - destruct He as (-> & c & -> & ->). destruct Hp as [Hf [Hc|Hc]]; [done|]. simpl. by rewrite <- Hc.
  - destruct Hp as [Hf Hc]. destruct He as [[[e ->] Hh]|[(-> & Hw & ->)|(-> & Hw & ks & Hk & Hh)]]; simpl.
    + by apply in_flight_prefix in Hf.
    + split_and!; [done|done|]. intros Hkey. unfold watched, is_write in Hkey. rewrite Hc, Hw in Hkey. done.
    + split_and!; [|done|].
      * unfold in_flight, on_its_way, quiet, finished in *. by destruct (watched m).
      * intros _. right. simpl. rewrite Hh, watched_union. unfold wkeys.
        rewrite (msg_keys_meaning m c ks) by done. apply union_subseteq_r.
  - destruct Hp as (Hf & Hc & Hg). destruct He as (-> & [[e ->]|(-> & ks & Hk & Hh)]); simpl.
    + by apply in_flight_prefix in Hf.
    + unfold in_flight in Hf. destruct (watched m) eqn:Hkey; [|done].
      destruct (Hg Hkey) as [Hfin|Hsub]; [done|]. by destruct (await_not_held m c ks (sh_keys sh)).
  - destruct He as (-> & [[e ->]| ->]).
    + simpl. change (kf []) with (@nil Message). rewrite app_nil_r.
      destruct (watched m); [by apply finished_prefix in Hp|by apply quiet_prefix in Hp].
    + simpl. rewrite kf_cons. destruct (watched m).
      * destruct Hp as (Hg & Ht & Hr). by split_and!.
      * destruct Hp as (Hg & Ht & Hr). split_and!; [simpl; by rewrite app_nil_r|done|done].
  - destruct He as (-> & err & ->). destruct err; simpl; [by apply quiet_prefix in Hp|done].
  - by destruct Hrk.
Qed.

(** A statement of session [i]. *)
Lemma run_session_inv i emitted (s s' : system C U L G) :
  run_session replicates i emitted s = Some s' ->
  exists c u p h c' u' p' sh',
    sy_sessions s !! i = Some (Session c u p) /\ rank p <> 0 /\ step_effect p p' (sy_shared s) sh' /\
    s' = System h sh' (<[i := Session c' u' p']> (sy_sessions s)) (sy_handler s)
           (sy_stream s ++ emits_now replicates p emitted) (sy_replied s ++ replies_now p p').
Proof.
  unfold run_session. destruct (sy_sessions s !! i) as [[c u p]|]; [|done].
  case_bool_decide as Hr; [done|].
  destruct (proxy_step p (sy_heap s, ProxyState c u (sy_shared s)))
    as [[p'| | |] [h' [c' u' sh']]] eqn:Ep; try done. intros [= <-].
  apply proxy_step_effect in Ep. simpl in Ep. by eexists c, u, p, h', c', u', p', sh'.
Qed.

Lemma emits_replicated p emitted : Forall (fun m => replicates m = true) (emits_now replicates p emitted).
Proof.
  destruct p; try by constructor. simpl.
  destruct emitted; [|by constructor]. simpl. destruct (replicates req) eqn:E; by repeat constructor.
Qed.

Record safe_state (s : system C U L G) : Prop := SafeState {
  ss_session : exists c u p, sy_sessions s = [Session c u p] /\ pc_ok p (view_of s);
  ss_handler : handler_ok (sy_handler s);
  ss_stream : Forall (fun m => replicates m = true) (sy_stream s);
}.

Lemma run_session_ok i emitted s s' :
  safe_state s -> run_session replicates i emitted s = Some s' -> safe_state s'.
Proof.
  intros [(c & u & p & Hs & Hp) Hh Hst] (? & ? & ? & h & c' & u' & p' & sh' & Hi & Hr & He & ->)%run_session_inv.
  rewrite Hs in Hi. destruct i as [|i]; [|done]. injection Hi as <- <- <-. split; cbn [sy_sessions sy_handler sy_stream].
  - exists c', u', p'. rewrite Hs. split; [done|]. unfold view_of. simpl.
    rewrite kf_app. apply (pc_ok_effect _ _ (sy_shared s)); [done..|exact Hp].
  - done.
  - apply Forall_app. split; [done|apply emits_replicated].
Qed.

Lemma call_again_ok i (s s' : system C U L G) : safe_state s -> call_again i s = Some s' -> safe_state s'.
Proof.
  intros [(c & u & p & Hs & Hp) Hh Hst] E. unfold call_again in E. rewrite Hs in E.
  destruct i as [|i]; [|done]. cbn [lookup list_lookup] in E.
  destruct p as [| | | | | | | | | | |[e|]]; try done. simplify_eq.
  split; [|done..]. by exists c, u, PRead.
Qed.

Lemma sys_step_ok e s s' : safe_state s -> sys_step replicates e s = Some s' -> safe_state s'.
Proof.
  intros Hs E. destruct e as [i emitted|i| | |ctx]; simpl in E.
  - by eapply run_session_ok.
  - by eapply call_again_ok.
  - destruct Hs as [(c & u & p & Hses & Hp) Hh Hst].
    destruct (take_message_ok s s' Hst E) as (Ev & Hh' & Es & Hst').
    split; [|done..]. exists c, u, p. by rewrite Es, Ev.
  - destruct Hs as [(c & u & p & Hses & Hp) Hh Hst].
    destruct (lose_message_ok s s' Hst E) as (Hm & Hh' & Es & Hst').
    split; [|by rewrite Hh'|done]. exists c, u, p. rewrite Es. split; [done|]. by eapply pc_ok_hmove.
  - destruct Hs as [(c & u & p & Hses & Hp) Hh Hst].
    destruct (run_handler_ok ctx s s' Hh E) as (Hm & Hh' & Es & Est).
    split; [|done|by rewrite Est]. exists c, u, p. rewrite Es. split; [done|]. by eapply pc_ok_hmove.
Qed.

Lemma start_safe h sh c u :
  entries (sh_txnlog sh) = [] -> safe_state (start (L := L) (G := G) h sh [(c, u)]).
Proof.
  intros Hl. split; [|done|constructor]. exists c, u, PRead. split; [done|].
  unfold view_of. simpl. by rewrite Hl.
Qed.

Lemma reaches_safe s0 s : safe_state s0 -> reaches replicates s0 s -> safe_state s.
Proof. intros Hs0 Hr. induction Hr as [|e s s' _ IH E]; [done|]. by eapply sys_step_ok. Qed.

End safety.

(** When every key is watched, the watched writes are the writes with keys. *)
Lemma kf_keyed `{!Meaning} ms : kf (fun _ => true) ms = filter (fun m => keyed m = true) ms.
Proof.
  apply list_filter_iff. intros m. unfold watched, wkeys, keyed.
  assert (filter (fun _ : bytes => true = true) (msg_keys m) = msg_keys m) as ->; [|done].
  induction (msg_keys m) as [|k ks IH]; [done|]. by rewrite filter_cons_True, IH.
Qed.

(** * The handler as a call *)

Lemma handleMessages_cases `{!CommandOps, !Meaning, !CommandSpec}
    {L G} `{!Locker L, !LockerView L, !LockerSpec L, !TxnLog G, !LogView G, !TxnLogSpec G}
    (ctxErr cause : option error) (m : Message) (h : heap) (sh : shared L G) err h' (sh' : shared L G) :
  handleMessages ctxErr cause m (h, sh) = (Ret err, (h', sh')) ->
  (err <> None /\ entries (sh_txnlog sh') = entries (sh_txnlog sh) /\ held (sh_keys sh') = held (sh_keys sh)) \/
  (entries (sh_txnlog sh') = entries (sh_txnlog sh) ++ [m] /\
   ((err <> None /\ held (sh_keys sh') = held (sh_keys sh)) \/
    (err = cause /\ held (sh_keys sh') = held (sh_keys sh) ∖ list_to_set (msg_keys m)))).
Proof.
  unfold handleMessages. cbn [run_handle handle_step]. destruct ctxErr as [e|].
  { intros [= <- <- <-]. by left. }
  intros E. unfold mbind, M_bind, on_heap in E.
  destruct (op_Cmd m h) as [[[cmd [e|]]| | |] h1] eqn:Ec; try done; simpl in E; [injection E as <- <- <-; by left|].
  apply Cmd_meaning in Ec. subst cmd. destruct (cmd_of m) as [c|] eqn:Hc; [|done].
  unfold mbind, M_bind, on_heap in E.
  destruct (op_Keys c h1) as [[[ks [e|]]| | |] h2] eqn:Ek; try done; simpl in E; [injection E as <- <- <-; by left|].
  apply Keys_meaning in Ek. rewrite (msg_keys_meaning m c ks) by done.
  unfold with_log, mbind, M_bind in E.
  destruct (log_append m (sh_database sh) (sh_txnlog sh)) as [er g] eqn:Eg. apply append_spec in Eg.
  destruct er as [e|]; simpl in E; [injection E as <- <- <-; by left|].
  unfold with_locks, mbind, M_bind in E. cbn [sh_keys sh_txnlog sh_database] in E.
  destruct (lk_unlock ks (sh_keys sh)) as [er l] eqn:El. apply unlock_spec in El.
  destruct er as [e|]; simpl in E; unfold mbind, M_bind, mret, M_ret in E; simpl in E;
    injection E as <- <- <-; right; (split; [exact Eg|]); [by left|by right].
Qed.

(** * Properties *)

(** C2: no reply before the log: with one client, however its proxy, the handler of the
    replication stream and redis interleave, and wherever errors end them, the writes
    with keys whose replies have been written are, in their order, the first ones of the
    writes with keys in the transaction log.  It rests on the contracts of the parser (a
    message means the same each time it is parsed), of the locks (a wait ends with nil
    only when none of its keys is locked) and of the log, and on redis replicating no
    command that has keys but is not a write. *)
Theorem no_reply_before_log `{!CommandOps, !Meaning, !CommandSpec}
    {C U L G} `{!Link C, !Link U, !Locker L, !LockerView L, !LockerSpec L, !TxnLog G, !LogView G, !TxnLogSpec G}
    (replicates : Message -> bool) (h : heap) (sh : shared L G) (c : C) (u : U) (s : system C U L G) :
  replicates_writes replicates -> entries (sh_txnlog sh) = [] ->
  reaches replicates (start h sh [(c, u)]) s ->
  filter (fun m => keyed m = true) (sy_replied s) `prefix_of`
    filter (fun m => keyed m = true) (entries (sh_txnlog (sy_shared s))).
Proof.
  intros Hrep Hl Hr.
  destruct (reaches_safe replicates (fun _ => true) Hrep _ _ (start_safe replicates _ h sh c u Hl) Hr)
    as [(c' & u' & p & _ & Hp) _ _].
  apply pc_ok_prefix in Hp. simpl in Hp. by rewrite !kf_keyed in Hp.
Qed.

(** C15: [handleMessages] logs before it releases: when it returns nil the message has been
    appended to the log and exactly its keys have been released; when it returns an error,
    either nothing has happened, or the message was appended and its keys are still
    locked, or, when the context ended meanwhile, both were done.  No key is ever released
    for a message that is not in the log. *)
Theorem handleMessages_logs_first `{!CommandOps, !Meaning, !CommandSpec}
    {L G} `{!Locker L, !LockerView L, !LockerSpec L, !TxnLog G, !LogView G, !TxnLogSpec G}
    (ctxErr cause : option error) (m : Message) (h : heap) (sh : shared L G) err h' (sh' : shared L G) :
  handleMessages ctxErr cause m (h, sh) = (Ret err, (h', sh')) ->
  (err <> None /\ entries (sh_txnlog sh') = entries (sh_txnlog sh) /\ held (sh_keys sh') = held (sh_keys sh)) \/
  (entries (sh_txnlog sh') = entries (sh_txnlog sh) ++ [m] /\
   ((err <> None /\ held (sh_keys sh') = held (sh_keys sh)) \/
    (err = cause /\ held (sh_keys sh') = held (sh_keys sh) ∖ list_to_set (msg_keys m)))).
Proof. apply handleMessages_cases. Qed.

(** * Concrete runs *)

Import scripted.

(** A write that is locked, logged and released in the intended order. *)
Example intended : run_on [[set_k "1"]] (go 0 7 ++ handle_one ++ go 0 2) = ([set_k "1"], [set_k "1"]).
Proof. by vm_compute. Qed.

Lemma no_reply_before_log_witness :
  let s := play is_write (go 0 7 ++ handle_one ++ go 0 2) (begin [[set_k "1"]]) in
  sy_replied s = [set_k "1"] /\
  filter (fun m => keyed m = true) (sy_replied s)
    `prefix_of` filter (fun m => keyed m = true) (entries (sh_txnlog (sy_shared s))).
Proof.
  split; [by vm_compute|].
  apply (no_reply_before_log is_write (Heap [] []) (Shared ∅ [] (str "0"))
    (client_of [set_k "1"]).1 (client_of [set_k "1"]).2).
  - apply is_write_replicates.
  - reflexivity.
  - apply play_reaches. apply reaches_start.
Defined.

Lemma handleMessages_logs_first_witness :
  entries (sh_txnlog (handleMessages None None (set_k "1") (Heap [] [], Shared {[str "k"; str "j"]} [] (str "0"))).2.2) = [set_k "1"] /\
  held (sh_keys (handleMessages None None (set_k "1") (Heap [] [], Shared {[str "k"; str "j"]} [] (str "0"))).2.2) = {[str "j"]}.
Proof.
  destruct (handleMessages_logs_first None None (set_k "1") (Heap [] []) (Shared {[str "k"; str "j"]} [] (str "0"))
    None (Heap [] []) (Shared {[str "j"]} [set_k "1"] (str "0"))) as [(E & _)|(E & _)].
  - reflexivity.
  - by destruct E.
  - split; [exact E|reflexivity].
Defined.

(** Two clients that write the same key: both writes are forwarded and both take the
    lock; when the first write is logged and its key released, the second client gets
    its reply, while its write is not in the log. *)
Theorem two_clients_one_key :
  run_on [[set_k "1"]; [set_k "2"]] (go 0 7 ++ go 1 7 ++ handle_one ++ go 1 2) = ([set_k "2"], [set_k "1"]).
Proof. by vm_compute. Qed.

(** A write without keys takes no lock: it is acknowledged before it is logged. *)
Theorem keyless_write_not_held :
  run_on [[words ["FLUSHALL"]]]%string (go 0 9) = ([words ["FLUSHALL"]]%string, []) /\
  is_write (words ["FLUSHALL"]%string) = true.
Proof. by vm_compute. Qed.

(** The stream is faster than the proxy: the write is logged and its key released before
    the proxy takes the lock.  Nobody releases it any more: the client's write is in the
    log, and no event is possible. *)
Definition overtaken : system script script (gset bytes) (list Message) :=
  play is_write (go 0 3 ++ handle_one ++ go 0 4) (begin [[set_k "1"]]).

Theorem late_lock_is_stuck :
  sh_txnlog (sy_shared overtaken) = [set_k "1"] /\ sy_replied overtaken = [] /\
  forall e, sys_step is_write e overtaken = None.
Proof.
  split_and!; [by vm_compute..|]. by intros [[|i] emitted|[|i]| | |].
Qed.

(** With the key locks of this repository, one client is enough: the lock that is taken
    is not the one that is waited for. *)
#[local] Instance store_locks : Locker MemDB := @keylocker MemDB _ (mem_feed [] None) 60.

Theorem store_locks_hold_nothing :
  let s := play is_write (go 0 9)
    (start (Heap [] []) (Shared no_locks [] (str "0")) [client_of [set_k "1"]]) in
  sy_replied s = [set_k "1"] /\ sh_txnlog (sy_shared s) = [].
Proof. by vm_compute. Qed.
