(* ===== verification/TransactorMany.v ===== *)
(** The promise of the transactor for any number of clients
    (src/anarchoredis/txn.go): as long as no two of them write the same key at the same
    time, every write that was answered is in the transaction log, and for each key
    the answers follow the order of the log.

    The condition is about the moment a write is flushed to redis: no write in flight,
    of another session or on the replication stream, has a key in common with it.
    Without it the promise fails ([two_clients_one_key] in TransactorSafety.v). *)

From S2P Require Import Prelude GoBase GoStrconv GoIO Kind Message Decoder Encoder.
From S2P Require Import Wire Conn Link Commands Transactor TransactorSystem TransactorSafety.

(** * Runs in which concurrent writes have no keys in common *)

Section apart.
Context `{!CommandOps, !Meaning} {C U L G : Type} `{!Link C, !Link U, !Locker L, !TxnLog G}.
Context (replicates : Message -> bool).
Implicit Types s : system C U L G.

(** The request of a session from the time it was flushed until it is answered. *)
Definition request (p : pc) : option Message :=
  match p with
  | PResp m | PCmd m _ | PFail m _ _ _ | PSelect m _ _ | PLock m _ _ | PAwait m _ _ | PReply m _ => Some m
  | PRead | PWrite _ | PFlush _ | PReplyFlush _ | PReturn _ => None
  end.

Definition in_flight_msgs s : list Message :=
  omap (fun se => request (se_pc se)) (sy_sessions s)
    ++ handler_before (sy_handler s) ++ handler_after (sy_handler s) ++ sy_stream s.

Definition conflict (m m' : Message) : bool :=
  is_write m && is_write m' && existsb (fun k => bool_decide (k ∈ msg_keys m')) (msg_keys m).

(** The write that session [i] is about to flush conflicts with none in flight. *)
Definition no_conflict (e : event) s : bool :=
  match e with
  | Run i _ =>
      match se_pc <$> sy_sessions s !! i with
      | Some (PFlush m) => forallb (fun m' => negb (conflict m m')) (in_flight_msgs s)
      | _ => true
      end
  | _ => true
  end.

Inductive reaches_apart s0 : system C U L G -> Prop :=
| apart_start : reaches_apart s0 s0
| apart_step e s s' :
    reaches_apart s0 s -> no_conflict e s = true -> sys_step replicates e s = Some s' ->
    reaches_apart s0 s'.

(** A schedule keeps concurrent writes apart. *)
Fixpoint apart (es : list event) s : bool :=
  match es with
  | [] => true
  | e :: es => no_conflict e s && apart es (default s (sys_step replicates e s))
  end.

Lemma play_apart es s0 s : reaches_apart s0 s -> apart es s = true -> reaches_apart s0 (play replicates es s).
Proof.
  revert s. induction es as [|e es IH]; intros s Hs Ha; [done|].
  simpl in Ha. apply andb_true_iff in Ha as [He Ha]. simpl. apply IH; [|done].
  destruct (sys_step replicates e s) eqn:E; simpl; [by eapply apart_step|done].
Qed.

End apart.

(** * The invariant for a set of watched keys *)

Section many.
Context `{!CommandOps, !Meaning, !CommandSpec}.
Context {C U L G : Type} `{!Link C, !Link U, !Locker L, !LockerView L, !LockerSpec L,
  !TxnLog G, !LogView G, !TxnLogSpec G}.
Context (replicates : Message -> bool) (W : bytes -> bool).
Implicit Types s : system C U L G.

(** Two watched writes always conflict. *)
Definition one_key : Prop :=
  forall m m', watched W m = true -> watched W m' = true -> conflict m m' = true.

Definition active (p : pc) : bool :=
  match request p with Some m => watched W m | None => false end.

(** The command of a session is that of its request. *)
Definition pc_cmd (p : pc) : Prop :=
  match p with
  | PFail _ _ cmd _ => cmd = None
  | PSelect m _ cmd => cmd = None \/ cmd = cmd_of m
  | PLock m _ c | PAwait m _ c => cmd_of m = Some c
  | _ => True
  end.

Lemma or_return_cmd err p : pc_cmd p -> pc_cmd (or_return err p).
Proof. by destruct err. Qed.

Ltac dest_effect He :=
  repeat match type of He with
  | _ /\ _ => let H := fresh "Hk" in destruct He as [H He]
  | _ \/ _ => destruct He as [He|He]
  | exists _, _ => destruct He as [? He]
  end.

Lemma pc_cmd_effect p p' (sh sh' : shared L G) : step_effect p p' sh sh' -> rank p <> 0 -> pc_cmd p -> pc_cmd p'.
Proof.
  intros [_ He] Hr Hp.
  destruct p as [|m|m|m|m rp|m rp cmd e|m rp cmd|m rp c|m rp c|m rp|m|err]; simpl in He, Hp; try done;
    dest_effect He; subst; repeat match goal with H : exists _, _ |- _ => destruct H end; subst;
    try apply or_return_cmd; simpl; auto; by destruct Hp.
Qed.

(** A session without a watched request changes nothing that is watched. *)
Lemma inactive_effect p p' (sh sh' : shared L G) emitted :
  step_effect p p' sh sh' -> rank p <> 0 -> pc_cmd p -> active p = false ->
  (forall m, p = PFlush m -> watched W m = false) ->
  active p' = false /\ kf W (replies_now p p') = [] /\ kf W (emits_now replicates p emitted) = [] /\
  watched_of W (held (sh_keys sh')) = watched_of W (held (sh_keys sh)).
Proof.
  intros [_ He] Hr Hp Ha Hf.
  assert (forall err m p0, request p0 = Some m -> watched W m = false -> active (or_return err p0) = false) as Hor.
  { intros [e|] m p0 E Hm; [done|]. unfold active. simpl. by rewrite E. }
  destruct p as [|m|m|m|m rp|m rp cmd e|m rp cmd|m rp c|m rp c|m rp|m|err]; simpl in He, Hp;
    unfold active in Ha; simpl in Ha.
  - destruct He as (-> & err & req & ->). by destruct err.
  - destruct He as (-> & err & ->). by destruct err.
  - destruct He as (-> & err & ->). specialize (Hf m eq_refl). split_and!; [by eapply Hor|by destruct err| |done].
    simpl. destruct (_ && _); [|done]. by rewrite kf_cons, Hf.
  - destruct He as (-> & err & resp & ->). split_and!; [by eapply Hor|by destruct err|done|done].
  - destruct He as (-> & [[e ->]| ->]); by unfold active.
  - destruct He as (-> & err & ->). split_and!; [by eapply Hor|by destruct err|done|done].
  - destruct He as (-> & c & -> & ->). by unfold active.
  - destruct He as [[[e ->] Hh]|[(-> & Hw & ->)|(-> & Hw & ks & Hk & Hh)]]; unfold active; simpl.
    + by rewrite Hh.
    + done.
    + split_and!; [done..|]. rewrite Hh, watched_union.
      assert (filter (fun k => W k = true) ks = []) as ->; [|cbn [list_to_set]; by rewrite union_empty_r_L].
      rewrite <- (msg_keys_meaning m c ks) by done. apply (unwatched_keys W m); [|done].
      left. unfold is_write. by rewrite Hp.
  - destruct He as (-> & [[e ->]|(-> & _)]); by unfold active.
  - destruct He as (-> & [[e ->]| ->]); [by unfold active|]. split_and!; [done| |done..].
    simpl. by rewrite kf_cons, Ha.
  - destruct He as (-> & err & ->). by unfold active.
  - by destruct Hr.
Qed.

(** ** The state of the system *)

Definition with_replied (r : list Message) (v : view) : view :=
  View r (v_logged v) (v_todo v) (v_releasing v) (v_held v).

(** [settled] are the watched writes that are over: those that were answered, and
    those that were logged while their session failed.  At most one session has a
    watched request, and its invariant holds relative to [settled]. *)
Record many_ok s : Prop := ManyOk {
  mo_settled : exists settled,
    kf W (sy_replied s) `sublist_of` settled /\ settled `prefix_of` kf W (entries (sh_txnlog (sy_shared s))) /\
    forall i se, sy_sessions s !! i = Some se -> active (se_pc se) = true ->
      pc_ok W (se_pc se) (with_replied settled (view_of W s));
  mo_single : forall i j se se', sy_sessions s !! i = Some se -> sy_sessions s !! j = Some se' ->
    active (se_pc se) = true -> active (se_pc se') = true -> i = j;
  mo_cmds : forall i se, sy_sessions s !! i = Some se -> pc_cmd (se_pc se);
  mo_handler : handler_ok replicates (sy_handler s);
  mo_stream : Forall (fun m => replicates m = true) (sy_stream s);
}.

Lemma hmove_replied r v v' : hmove W v v' -> hmove W (with_replied r v) (with_replied r v').
Proof. intros Hm. destruct Hm; constructor. Qed.

Lemma hmove_kept v v' : hmove W v v' -> v_replied v' = v_replied v.
Proof. intros Hm. by destruct Hm. Qed.

Context (Hrep : replicates_writes replicates).

Lemma many_hmove s s' :
  many_ok s -> hmove W (view_of W s) (view_of W s') -> sy_sessions s' = sy_sessions s ->
  handler_ok replicates (sy_handler s') -> Forall (fun m => replicates m = true) (sy_stream s') -> many_ok s'.
Proof.
  intros [(settled & Hs1 & Hs2 & Hs3) Hone Hc Hh Hst] Hm Es Hh' Hst'.
  split; rewrite ?Es; try done. exists settled. split_and!.
  - pose proof (hmove_kept _ _ Hm) as E'. simpl in E'. by rewrite E'.
  - by apply (prefix_hmove W (with_replied settled (view_of W s)) (with_replied settled (view_of W s')));
      [apply hmove_replied|].
  - intros i se Hi Ha. eapply pc_ok_hmove; [by apply hmove_replied|]. by eapply Hs3.
Qed.

Lemma many_handler ctx s s' : many_ok s -> run_handler ctx s = Some s' -> many_ok s'.
Proof.
  intros Hok E.
  destruct (run_handler_ok replicates W Hrep ctx s s' (mo_handler s Hok) E) as (Hm & Hh' & Es & Est).
  eapply many_hmove; [done..|]. rewrite Est. by apply mo_stream.
Qed.

Lemma many_take s s' : many_ok s -> take_message s = Some s' -> many_ok s'.
Proof.
  intros Hok E. destruct (take_message_ok replicates W s s' (mo_stream s Hok) E) as (Ev & Hh' & Es & Hst').
  eapply many_hmove; [done| |done..]. rewrite Ev. constructor.
Qed.

Lemma many_lose s s' : many_ok s -> lose_message s = Some s' -> many_ok s'.
Proof.
  intros Hok E. destruct (lose_message_ok replicates W s s' (mo_stream s Hok) E) as (Hm & Hh & Es & Hst).
  eapply many_hmove; [done..| |done]. rewrite Hh. by apply mo_handler.
Qed.

(** It is the only one with a watched request, or about to have it. *)
Lemma many_turn i emitted c u p h c' u' p' sh' s settled :
  many_ok s -> sy_sessions s !! i = Some (Session c u p) -> rank p <> 0 -> step_effect p p' (sy_shared s) sh' ->
  kf W (sy_replied s) `sublist_of` settled -> pc_ok W p (with_replied settled (view_of W s)) ->
  (forall j se, sy_sessions s !! j = Some se -> active (se_pc se) = true -> j = i) ->
  many_ok (System h sh' (<[i := Session c' u' p']> (sy_sessions s)) (sy_handler s)
    (sy_stream s ++ emits_now replicates p emitted) (sy_replied s ++ replies_now p p')).
Proof.
  intros [_ _ Hc Hh Hst] Hi Hr He Hsub Hp Hother.
  pose proof (pc_ok_effect replicates W p p' (sy_shared s) sh' settled _ _ _ emitted He Hr Hp) as Hp'.
  assert (forall j se, <[i := Session c' u' p']> (sy_sessions s) !! j = Some se ->
    (j = i /\ se = Session c' u' p') \/ (j <> i /\ sy_sessions s !! j = Some se)) as Hlook.
  { intros j se. destruct (decide (j = i)) as [->|Hn].
    - rewrite list_lookup_insert_eq by by eapply lookup_lt_Some. intros [= <-]. by left.
    - rewrite list_lookup_insert_ne by done. auto. }
  split; cbn [sy_sessions sy_handler sy_stream sy_replied sy_shared].
  - exists (settled ++ kf W (replies_now p p')). split_and!.
    + rewrite kf_app. by apply sublist_app.
    + by apply pc_ok_prefix in Hp'.
    + intros j se [[-> ->]|[Hn Hj]]%Hlook Ha; [exact Hp'|]. by apply Hother in Hj.
  - intros j j' se se' [[-> _]|[Hn Hj]]%Hlook [[-> _]|[Hn' Hj']]%Hlook Ha Ha'; [done|..].
    + by apply Hother in Hj'.
    + by apply Hother in Hj.
    + by apply Hother in Hj.
  - intros j se [[-> ->]|[Hn Hj]]%Hlook; [|by eapply Hc].
    eapply pc_cmd_effect; [done..|]. by apply (Hc i _ Hi).
  - done.
  - apply Forall_app. split; [done|apply emits_replicated].
Qed.

(** It has no watched request. *)
Lemma many_idle i emitted c u p h c' u' p' sh' s :
  many_ok s -> sy_sessions s !! i = Some (Session c u p) -> rank p <> 0 -> step_effect p p' (sy_shared s) sh' ->
  active p = false -> (forall m, p = PFlush m -> watched W m = false) ->
  many_ok (System h sh' (<[i := Session c' u' p']> (sy_sessions s)) (sy_handler s)
    (sy_stream s ++ emits_now replicates p emitted) (sy_replied s ++ replies_now p p')).
Proof.
  intros [(settled & Hs1 & Hs2 & Hs3) Hone Hc Hh Hst] Hi Hr He Ha Hf.
  pose proof (Hc i _ Hi) as Hpc. simpl in Hpc.
  destruct (inactive_effect p p' _ sh' emitted He Hr Hpc Ha Hf) as (Ha' & Hrep' & Hem & Hw).
  pose proof (pc_cmd_effect _ _ _ _ He Hr Hpc) as Hpc'. destruct He as [Hg _].
  assert (forall j se, <[i := Session c' u' p']> (sy_sessions s) !! j = Some se ->
    active (se_pc se) = true -> sy_sessions s !! j = Some se) as Hlook.
  { intros j se. destruct (decide (j = i)) as [->|Hn].
    - rewrite list_lookup_insert_eq by by eapply lookup_lt_Some. intros [= <-]. simpl. by rewrite Ha'.
    - by rewrite list_lookup_insert_ne. }
  split; cbn [sy_sessions sy_handler sy_stream sy_replied sy_shared].
  - exists settled. rewrite kf_app, Hrep', app_nil_r, Hg. split_and!; [done..|].
    intros j se Hj Hact. specialize (Hs3 j se (Hlook j se Hj Hact) Hact).
    unfold view_of, with_replied in *. simpl in *. by rewrite app_assoc, kf_app, Hem, app_nil_r, Hg, Hw.
  - intros j j' se se' Hj Hj' Hact Hact'. eapply Hone; eauto.
  - intros j se. destruct (decide (j = i)) as [->|Hn].
    + rewrite list_lookup_insert_eq by by eapply lookup_lt_Some. by intros [= <-].
    + rewrite list_lookup_insert_ne by done. apply Hc.
  - done.
  - apply Forall_app. split; [done|apply emits_replicated].
Qed.

Context (Hkey : one_key).

(** Before a watched write is flushed nothing that is watched is in flight. *)
Lemma flush_quiet s m :
  forallb (fun m' => negb (conflict m m')) (in_flight_msgs s) = true -> watched W m = true ->
  (forall j se, sy_sessions s !! j = Some se -> active (se_pc se) = false) /\
  v_todo (view_of W s) = [] /\ v_releasing (view_of W s) = [].
Proof.
  intros Hn Hm. rewrite forallb_forall in Hn.
  assert (forall m', m' ∈ in_flight_msgs s -> watched W m' = false) as Hu.
  { intros m' Hin%list_elem_of_In%Hn. apply negb_true_iff in Hin.
    destruct (watched W m') eqn:E; [|done]. by rewrite (Hkey m m') in Hin. }
  assert (forall ms, (forall m', m' ∈ ms -> m' ∈ in_flight_msgs s) -> kf W ms = []) as Hk.
  { intros ms Hms. apply elem_of_nil_inv. intros m' Hin.
    apply list_elem_of_filter in Hin as [Hw Hin]. by rewrite (Hu m' (Hms m' Hin)) in Hw. }
  unfold in_flight_msgs in *. split_and!.
  - intros j se Hj. unfold active. destruct (request (se_pc se)) as [m'|] eqn:Er; [|done].
    apply Hu, elem_of_app. left. apply list_elem_of_omap. exists se. split; [by eapply list_elem_of_lookup_2|done].
  - apply Hk. intros m'. rewrite !elem_of_app. tauto.
  - apply Hk. intros m'. rewrite !elem_of_app. tauto.
Qed.

Lemma many_session i emitted s s' :
  many_ok s -> no_conflict (Run i emitted) s = true -> run_session replicates i emitted s = Some s' -> many_ok s'.
Proof.
  intros Hok Hn (c & u & p & h & c' & u' & p' & sh' & Hi & Hr & He & ->)%run_session_inv.
  simpl in Hn. rewrite Hi in Hn. simpl in Hn. destruct (active p) eqn:Ha.
  { destruct (mo_settled s Hok) as (settled & Hs1 & Hs2 & Hs3). eapply many_turn; eauto.
    - by apply (Hs3 i _ Hi).
    - intros j se Hj Hact. by eapply (mo_single s Hok). }
  destruct (match p with PFlush m => watched W m | _ => false end) eqn:Ef.
  2:{ eapply many_idle; eauto. by intros m ->. }
  destruct p as [| |m| | | | | | | | |]; try done. destruct (flush_quiet s m Hn Ef) as (Hoth & Ht & Hrel).
  destruct (mo_settled s Hok) as (settled & Hs1 & Hs2 & Hs3).
  eapply (many_turn i emitted c u _ h c' u' p' sh' s (kf W (entries (sh_txnlog (sy_shared s))))); eauto.
  - etrans; [done|]. destruct Hs2 as [l ->]. by apply sublist_inserts_r.
  - done.
  - intros j se Hj. by rewrite (Hoth j se Hj).
Qed.

(** A session that calls [proxy] again has no request. *)
Lemma many_again i s s' : many_ok s -> call_again i s = Some s' -> many_ok s'.
Proof.
  intros [(settled & Hs1 & Hs2 & Hs3) Hone Hc Hh Hst] E. unfold call_again in E.
  destruct (sy_sessions s !! i) as [[c u p]|] eqn:Hi; [|done].
  destruct p as [| | | | | | | | | | |[e|]]; try done. simplify_eq.
  assert (forall j se, <[i := Session c u PRead]> (sy_sessions s) !! j = Some se ->
    se = Session c u PRead \/ sy_sessions s !! j = Some se) as Hlook.
  { intros j se. destruct (decide (j = i)) as [->|Hn].
    - rewrite list_lookup_insert_eq by by eapply lookup_lt_Some. intros [= <-]. by left.
    - rewrite list_lookup_insert_ne by done. auto. }
  split; cbn [sy_sessions sy_handler sy_stream sy_replied sy_shared]; try done.
  - exists settled. split_and!; [done..|]. intros j se [->|Hj]%Hlook Ha; [done|]. by apply (Hs3 j).
  - intros j j' se se' [->|Hj]%Hlook [->|Hj']%Hlook Ha Ha'; try done. by eapply Hone.
  - intros j se [->|Hj]%Hlook; [done|]. by eapply Hc.
Qed.

Lemma many_step e s s' :
  many_ok s -> no_conflict e s = true -> sys_step replicates e s = Some s' -> many_ok s'.
Proof.
  intros Hs Hn E. destruct e as [i emitted|i| | |ctx]; simpl in E;
    eauto using many_session, many_again, many_take, many_lose, many_handler.
Qed.

Lemma start_many h sh sessions :
  entries (sh_txnlog sh) = [] -> many_ok (start (C := C) (U := U) (L := L) (G := G) h sh sessions).
Proof.
  intros Hl.
  assert (forall i se, sy_sessions (start h sh sessions) !! i = Some se -> se_pc se = PRead) as Hp.
  { intros i se. simpl. rewrite list_lookup_fmap. destruct (sessions !! i); simpl; [|done]. by intros [= <-]. }
  split; [| | |done|constructor].
  - exists []. split_and!; [done|by apply prefix_nil|]. intros i se Hi%Hp. by rewrite Hi.
  - intros i j se se' Hi%Hp. by rewrite Hi.
  - intros i se Hi%Hp. by rewrite Hi.
Qed.

Lemma reaches_many s0 s : many_ok s0 -> reaches_apart replicates s0 s -> many_ok s.
Proof. intros Hs0 Hr. induction Hr as [|e s s' _ IH Hn E]; [done|]. by eapply many_step. Qed.

End many.

(** ** One key at a time *)

Section one_key.
Context `{!Meaning} (k : bytes).

Definition only (k' : bytes) : bool := bool_decide (k' = k).

Lemma watched_only m : watched only m = writes k m.
Proof.
  unfold watched, writes. f_equal. unfold wkeys, only.
  destruct (bool_decide (k ∈ msg_keys m)) eqn:E.
  - apply bool_decide_eq_true_1 in E. rewrite bool_decide_eq_false_2; [done|]. intros Hn.
    eapply (filter_nil_not_elem_of (fun k' => bool_decide (k' = k) = true)); [exact Hn| |exact E].
    by apply bool_decide_eq_true_2.
  - apply bool_decide_eq_false_1 in E. rewrite bool_decide_eq_true_2; [done|].
    apply elem_of_nil_inv. intros k' [Hk Hin]%list_elem_of_filter. apply bool_decide_eq_true_1 in Hk. by subst.
Qed.

Lemma only_one_key : one_key only.
Proof.
  intros m m'. rewrite !watched_only. unfold writes, conflict.
  intros [-> Hk%bool_decide_eq_true_1]%andb_true_iff [-> Hk'%bool_decide_eq_true_1]%andb_true_iff. simpl.
  apply existsb_exists. exists k. split; [by apply list_elem_of_In|by apply bool_decide_eq_true_2].
Qed.

Lemma kf_only ms : kf only ms = filter (fun m => writes k m = true) ms.
Proof. apply list_filter_iff. intros m. by rewrite watched_only. Qed.

End one_key.

(** * Properties *)

(** C3: no reply before the log, for any number of clients and one replication stream,
    with a parser, key locks and a log that keep their contracts ([CommandSpec],
    [LockerSpec], [TxnLogSpec]), from an empty log, and when redis replicates nothing
    but writes and commands without keys: in every run in which no write is flushed to
    redis while another write of one of its keys is in flight, the writes of a key that
    have been answered are, in their order, among the writes of that key in the
    transaction log; none of them is answered more often than it is logged.  The key
    locks of this repository do not keep the contract ([keylocker_contract]), and with
    them the conclusion fails ([store_locks_hold_nothing]). *)
Theorem no_reply_before_log_many `{!CommandOps, !Meaning, !CommandSpec}
    {C U L G} `{!Link C, !Link U, !Locker L, !LockerView L, !LockerSpec L, !TxnLog G, !LogView G, !TxnLogSpec G}
    (replicates : Message -> bool) (h : heap) (sh : shared L G) (sessions : list (C * U))
    (s : system C U L G) (k : bytes) :
  replicates_writes replicates -> entries (sh_txnlog sh) = [] ->
  reaches_apart replicates (start h sh sessions) s ->
  filter (fun m => writes k m = true) (sy_replied s) `sublist_of`
    filter (fun m => writes k m = true) (entries (sh_txnlog (sy_shared s))).
Proof.
  intros Hrep Hl Hr.
  destruct (reaches_many replicates (only k) Hrep (only_one_key k) _ _
    (start_many replicates (only k) h sh sessions Hl) Hr) as [(settled & Hs1 & Hs2 & _) _ _ _ _].
  rewrite !kf_only in *. etrans; [done|]. destruct Hs2 as [l ->]. by apply sublist_inserts_r.
Qed.

(** * Concrete runs *)

Import scripted.

(** Two clients that write different keys, interleaved. *)
Definition two_keys : list event :=
  go 0 4 ++ go 1 7 ++ go 0 3 ++ handle_one ++ handle_one ++ go 1 2 ++ go 0 2.

Definition set_j (v : string) : Message := words ["SET"; "j"; v]%string.

Lemma no_reply_before_log_many_witness :
  let s := play is_write two_keys (begin [[set_k "1"]; [set_j "2"]]) in
  sy_replied s = [set_j "2"; set_k "1"] /\
  filter (fun m => writes (str "k") m = true) (sy_replied s) `sublist_of`
    filter (fun m => writes (str "k") m = true) (entries (sh_txnlog (sy_shared s))).
Proof.
  split; [by vm_compute|].
  apply (no_reply_before_log_many is_write (Heap [] []) (Shared ∅ [] (str "0"))
    (client_of <$> [[set_k "1"]; [set_j "2"]])).
  - apply is_write_replicates.
  - reflexivity.
  - apply play_apart; [apply apart_start|]. by vm_compute.
Defined.

(** The schedule with which two clients on one key break the promise does not keep
    their writes apart. *)
Example one_key_conflicts :
  apart is_write (go 0 7 ++ go 1 7 ++ handle_one ++ go 1 2) (begin [[set_k "1"]; [set_k "2"]]) = false.
Proof. by vm_compute. Qed.
