(* ===== verification/TransactorStream.v ===== *)
(** The goroutine of [Transact] that follows the replication stream
    (src/anarchoredis/txn.go): [StreamUpdates] of the subscriber with [handleMessages]
    as its callback.

    Against the contracts of parser, locks and log, what it logs are the commands that
    reach the callback, in their order; over the command parser of this repository it
    ends at the first command and logs nothing. *)

From S2P Require Import Prelude GoBase GoStrings GoStrconv GoIO Kind Message Decoder.
From S2P Require Import Encoder Wire Conn Link Signal Commands Replication ReplicationSpec.
From S2P Require Import Badger KeyLocker Transactor TransactorSystem TransactorSafety.

(** * The goroutine *)

Section goroutine.
Context `{!FloatConv, !UnicodeCase, !OldFields, !CommandOps} {C L G : Type} `{!Link C, !Locker L, !TxnLog G}.

(** The callback; [ctx] is what the context reports at the start and at the end of the
    handling of a message. *)
Definition on_message (ctx : Message -> option error * option error) (msg : Message)
  : M (heap * shared L G) (option error) :=
  handleMessages (ctx msg).1 (ctx msg).2 msg.

Definition stream_goroutine (ctx : Message -> option error * option error) (t : Transactor L G)
    (dial : C + error) (sched : list turn)
  : M heap (option (option error) * Subscriber * shared L G * option C) :=
  StreamUpdates (on_message ctx) dial sched (tr_subscriber t) (tr_shared t).

End goroutine.

(** * What is logged and released *)

Section logs.
Context `{!FloatConv, !UnicodeCase, !OldFields, !CommandOps, !Meaning, !CommandSpec}.
Context {L G : Type} `{!Locker L, !LockerView L, !LockerSpec L, !TxnLog G, !LogView G, !TxnLogSpec G}.
Context (ctx : Message -> option error * option error).

(** Every message the parser is given is parsed: [handleMessages] does not panic. *)
Definition handler_returns : Prop :=
  forall m h (sh : shared L G), exists err st, on_message ctx m (h, sh) = (Ret err, st).

Definition keys_of_all (ms : list Message) : gset bytes := list_to_set (ms ≫= msg_keys).

(** The commands [ms] reached the callback: a front part of them was logged, and no key
    was released but those of logged commands; when the callback never failed, all of
    them were logged and all their keys released. *)
Record logged_from (ms : list Message) (sh sh' : shared L G) (failed : bool) : Prop := LoggedFrom {
  lf_logged : exists logged rest, ms = logged ++ rest /\
    entries (sh_txnlog sh') = entries (sh_txnlog sh) ++ logged /\
    held (sh_keys sh) ∖ keys_of_all logged ⊆ held (sh_keys sh') /\
    (failed = false -> rest = []);
  lf_taken : held (sh_keys sh') ⊆ held (sh_keys sh);
  lf_released : failed = false -> held (sh_keys sh') = held (sh_keys sh) ∖ keys_of_all ms;
}.

Lemma keys_of_all_cons m ms : keys_of_all (m :: ms) = list_to_set (msg_keys m) ∪ keys_of_all ms.
Proof. unfold keys_of_all. simpl. by rewrite list_to_set_app_L. Qed.

Lemma keys_of_all_nil : keys_of_all [] = ∅.
Proof. done. Qed.

(** A command that was not logged, or logged without its keys being released. *)
Lemma logged_stop m ms (sh sh' : shared L G) :
  (entries (sh_txnlog sh') = entries (sh_txnlog sh) \/ entries (sh_txnlog sh') = entries (sh_txnlog sh) ++ [m]) ->
  held (sh_keys sh) ∖ list_to_set (msg_keys m) ⊆ held (sh_keys sh') ->
  (entries (sh_txnlog sh') = entries (sh_txnlog sh) -> held (sh_keys sh') = held (sh_keys sh)) ->
  held (sh_keys sh') ⊆ held (sh_keys sh) ->
  logged_from (m :: ms) sh sh' true.
Proof.
  intros Hl Hk He Hs. split; [|done|done]. destruct Hl as [Hl|Hl].
  - exists [], (m :: ms). rewrite app_nil_r, keys_of_all_nil, difference_empty_L, (He Hl). by split_and!.
  - exists [m], ms. rewrite keys_of_all_cons, keys_of_all_nil, union_empty_r_L. by split_and!.
Qed.

Lemma logged_next m ms (sh sh1 sh' : shared L G) failed :
  entries (sh_txnlog sh1) = entries (sh_txnlog sh) ++ [m] ->
  held (sh_keys sh1) = held (sh_keys sh) ∖ list_to_set (msg_keys m) ->
  logged_from ms sh1 sh' failed -> logged_from (m :: ms) sh sh' failed.
Proof.
  intros Hl Hk [(logged & rest & -> & He & Hs & Hr) Ht Hf]. split.
  - exists (m :: logged), rest. rewrite He, Hl, <- app_assoc, keys_of_all_cons.
    split_and!; [done|done| |done]. by rewrite Hk, difference_difference_l_L in Hs.
  - rewrite Hk in Ht. etrans; [done|]. by apply subseteq_difference_l.
  - intros E. rewrite Hf, Hk by done. rewrite keys_of_all_cons. apply difference_difference_l_L.
Qed.

Lemma calls_logged ms sh o sh' :
  handler_returns -> calls (on_message ctx) ms sh o sh' ->
  exists err, o = Ret err /\ logged_from ms sh sh' (bool_decide (is_Some err)).
Proof.
  intros Hret Hc.
  induction Hc as [sh|m ms h sh h1 sh1 o sh' E _ IH|m ms h sh o h1 sh1 E Ho].
  - exists None. split; [done|]. split; [|done|].
    + exists [], []. rewrite !app_nil_r, keys_of_all_nil, difference_empty_L. by split_and!.
    + intros _. rewrite keys_of_all_nil. by rewrite difference_empty_L.
  - destruct IH as (err & -> & Hl). exists err. split; [done|].
    apply handleMessages_cases in E as [(He & _)|(Hg & [(He & _)|(_ & Hh)])]; [done|done|].
    by eapply logged_next.
  - destruct (Hret m h sh) as (err & st & E'). rewrite E in E'. injection E' as -> <-.
    exists err. split; [done|]. destruct err as [e|]; [|done].
    rewrite bool_decide_eq_true_2 by by eexists.
    apply handleMessages_cases in E as [(_ & Hg & Hh)|(Hg & [(_ & Hh)|(_ & Hh)])].
    + apply logged_stop; rewrite ?Hh; [by left|by apply subseteq_difference_l|done|done].
    + apply logged_stop; rewrite ?Hh; [by right|by apply subseteq_difference_l|done|done].
    + apply logged_stop; rewrite ?Hh; [by right|done| |by apply subseteq_difference_l].
      rewrite Hg. intros Hn%(f_equal length). rewrite length_app in Hn. simpl in Hn. lia.
Qed.

End logs.

(** ** From the loop to the goroutine *)

Section returned.
Context `{!FloatConv, !UnicodeCase, !OldFields} {X : Type} (msgFunc : Message -> M (heap * X) (option error)).

(** The callback always returns: so does the part after the handshake. *)
Lemma stream_from_calls s c x sched h :
  (forall m h x, exists err st, msgFunc m (h, x) = (Ret err, st)) ->
  Cancel ∉ sched -> length sched <= length (sc_in c) -> Forall regular (sc_in c) -> su_Logger s = true ->
  exists err s' c' x' h', stream_from msgFunc s c x sched h = (Ret (Some <$> err, s', x', Some c'), h') /\
    calls msgFunc (filter (fun m => forwarded m = true) (loop_msgs sched (sc_in c))) x (Ret err) x'.
Proof.
  intros Hret Hn Hlen Hr Hl.
  destruct (stream_loop_calls msgFunc sched _ h s c x AIdle eq_refl Hn Hlen Hr Hl)
    as (o & h1 & s1 & c1 & x1 & a1 & E & Hc & _).
  assert (exists err, o = Ret err) as [err ->].
  { clear - Hc Hret. induction Hc as [|m ms h x h1 x1 o x' E _ IH|m ms h x o h1 x1 E Ho]; [by eexists|done|].
    destruct (Hret m h x) as (err & st & E'). rewrite E in E'. injection E' as -> _. by eexists. }
  unfold stream_from, deferring. rewrite E. destruct err as [e|]; cbn [loop_result].
  - destruct (replconfAck_script s (su_Offset s) h1 c1) as (o2 & h2 & c2 & E2 & _ & _ & Ho & _).
    destruct (Ho Hl) as [err ->]. rewrite bool_decide_eq_true_2 by by eexists.
    unfold mbind, M_bind, on_conn. cbn [st_conn st_sub st_x st_ack]. rewrite E2.
    exists (Some e), s1, c2, x1, h2. by split.
  - rewrite bool_decide_eq_false_2 by by intros []. exists None, s1, c1, x1, h1. by split.
Qed.

(** A fresh subscriber whose leader answers the three messages of the handshake. *)
Lemma StreamUpdates_calls s c x sched h host port :
  (forall m h x, exists err st, msgFunc m (h, x) = (Ret err, st)) ->
  SplitHostPort (su_MyAddr s) = inl (host, port) -> su_Logger s = true -> sg_didSignal (su_signal s) = false ->
  Cancel ∉ sched -> 3 + length sched <= length (sc_in c) -> Forall regular (drop 3 (sc_in c)) ->
  exists err s' c' x' h', StreamUpdates msgFunc (inl c) sched s x h = (Ret (Some <$> err, s', x', Some c'), h') /\
    calls msgFunc (filter (fun m => forwarded m = true) (loop_msgs sched (drop 3 (sc_in c)))) x (Ret err) x'.
Proof.
  intros Hret Ha Hl Hs Hn Hlen Hr. unfold StreamUpdates.
  set (s0 := match su_ReplicationID s with None => set_ReplicationID [] s | Some _ => s end).
  assert (su_MyAddr s0 = su_MyAddr s /\ su_Logger s0 = su_Logger s /\ su_signal s0 = su_signal s) as (E1 & E2 & E3)
    by (unfold s0; by destruct (su_ReplicationID s)).
  rewrite E3, Hs. rewrite <- E1 in Ha. rewrite <- E2 in Hl.
  destruct (startReplication_script s0 c (default [] (su_ReplicationID s0)) (su_Offset s0) false h host port Ha)
    as (h1 & c1 & E & Hin & _); [lia|].
  rewrite (bind_ret _ _ _ _ _ E), <- Hin. apply stream_from_calls; try done; rewrite Hin; [|done].
  rewrite length_drop. lia.
Qed.

End returned.

(** ** The parser of this repository *)

Section real.
Context `{!FloatConv, !UnicodeCase} (go_on : bool).
Context (strings_of : option (iter Message) -> M (heap * unit) (list bytes)) (arg0 : Command -> option bytes).
Context {L G : Type} `{!Locker L, !TxnLog G}.



End real.

(** * Properties *)

(** C6: what the stream of a new transactor logs: when the leader answers the handshake
    and the stream has regular messages, for any interleaving of the loop with the
    acknowledgements the goroutine returns or is still running; the commands it has
    logged are a front part of those that reached its turns, in their order; no key was
    released but those of logged commands, and no key was locked.  Unless it returned,
    all of them are in the log and all their keys are released. *)
Theorem stream_logs_in_order `{!FloatConv, !UnicodeCase, !OldFields, !CommandOps, !Meaning, !CommandSpec}
    {L G} `{!Locker L, !LockerView L, !LockerSpec L, !TxnLog G, !LogView G, !TxnLogSpec G}
    (ctx : Message -> option error * option error) (open : bytes -> bool -> L + error) (conf : Conf) (g : G)
    (t : Transactor L G) (c : script) (sched : list turn) (h : heap) (host port : bytes) :
  handler_returns (L := L) (G := G) ctx -> NewTransactor open conf g = inl t ->
  SplitHostPort (cf_ListenAddress conf) = inl (host, port) ->
  Cancel ∉ sched -> 3 + length sched <= length (sc_in c) -> Forall regular (drop 3 (sc_in c)) ->
  exists r s' sh' c' h', stream_goroutine ctx t (inl c) sched h = (Ret (r, s', sh', Some c'), h') /\
    logged_from (filter (fun m => forwarded m = true) (loop_msgs sched (drop 3 (sc_in c))))
      (tr_shared t) sh' (bool_decide (is_Some r)).
Proof.
  unfold NewTransactor. intros Hret Ht Ha Hn Hlen Hr.
  destruct (open _ _) as [db|e]; [|done]. injection Ht as <-. unfold stream_goroutine. cbn [tr_subscriber tr_shared].
  destruct (StreamUpdates_calls (on_message ctx) (NewSubscriber conf) c (Shared db g (str "0")) sched h host port)
    as (err & s' & c' & x' & h' & E & Hc); [exact Hret|done..|].
  apply calls_logged in Hc as (? & [= <-] & Hl); [|done].
  exists (Some <$> err), s', x', c', h'. split; [done|]. by destruct err.
Qed.


(** * Concrete streams *)

Import scripted.
#[local] Existing Instance ascii_only.
#[local] Existing Instance current_fields.

Lemma words_return : handler_returns (L := gset bytes) (G := list Message) (fun _ => (None, None)).
Proof.
  intros m h sh. unfold on_message, handleMessages. simpl. unfold mbind, M_bind, on_heap. simpl.
  destruct (words_of m) as [|w ws]; by do 2 eexists.
Qed.

Definition listening : Conf :=
  MkConf (str "localhost:36379") (str "localhost:6379") [] [] [] [] [] 60.

(** The leader answers the handshake and replicates three commands and a PING. *)
Definition leader : script :=
  Script ([text "PONG"; text "OK"; text "FULLRESYNC 8371b4 1000";
           set_k "1"; words ["PING"]; words ["INCR"; "j"]; set_k "2"; words ["PING"]; words ["PING"]])%string EOF [].

Lemma leader_regular : Forall regular (drop 3 (sc_in leader)).
Proof. unfold leader. cbn [sc_in drop]. rewrite !Forall_cons. by split_and!. Qed.

(** The INCR is taken by an acknowledgement, which the loop interleaves with; the writes
    of k are logged. *)
Lemma stream_logs_in_order_witness :
  exists t r s' sh' c' h', NewTransactor (fun _ _ => inl {[str "k"; str "j"]}) listening [] = inl t /\
    stream_goroutine (fun _ => (None, None)) t (inl leader) [Loop; Ack; Loop; Ack; Ack; Loop] (Heap [] []) =
      (Ret (r, s', sh', Some c'), h') /\
    logged_from [set_k "1"; set_k "2"] (tr_shared t) sh' (bool_decide (is_Some r)).
Proof.
  eexists. destruct (stream_logs_in_order (fun _ => (None, None)) (fun _ _ => inl {[str "k"; str "j"]}) listening []
    (MkTransactor listening 0 (NewSubscriber listening) (Shared {[str "k"; str "j"]} [] (str "0")))
    leader [Loop; Ack; Loop; Ack; Ack; Loop] (Heap [] []) (str "localhost") (str "36379"))
    as (r & s' & sh' & c' & h' & E & Hl).
  - apply words_return.
  - reflexivity.
  - by vm_compute.
  - by apply (bool_decide_unpack _); vm_compute.
  - simpl. lia.
  - apply leader_regular.
  - exists r, s', sh', c', h'. split; [reflexivity|]. split; [exact E|exact Hl].
Defined.

(** The same run, evaluated: both writes of k are logged, and its lock is released. *)
Example stream_run :
  match stream_goroutine (fun _ => (None, None))
    (MkTransactor listening 0 (NewSubscriber listening) (Shared ({[str "k"; str "j"]} : gset bytes) [] (str "0")))
    (inl leader) [Loop; Ack; Loop; Ack; Ack; Loop] (Heap [] []) with
  | (Ret (None, _, sh, _), _) => Some (sh_txnlog sh, elements (sh_keys sh))
  | _ => None
  end = Some ([set_k "1"; set_k "2"], [str "j"]).
Proof. by vm_compute. Qed.

