(* ===== verification/TransactCall.v ===== *)
(** A call of [Transact] (src/anarchoredis/txn.go): it dials redis, starts the goroutine
    that follows the replication stream and the one that serves the client, and waits
    for both.

    The calls for different clients share the transactor: its subscriber, its locks, its
    log, its database, and the heap of messages.  The serving goroutine moves statement
    by statement; the streaming one moves by the handshake, the test of its loop, and one
    message read and handled; the acknowledging one that it started moves by one call on
    the connection to the leader.  A goroutine that waits, or has crashed, has no move. *)

From S2P Require Import Prelude GoBase GoStrings GoStrconv GoIO Kind Message Decoder Encoder.
From S2P Require Import Wire Conn Link Signal Commands Replication ReplicationSpec Badger KeyLocker.
From S2P Require Import Transactor TransactorSystem TransactorStream.

(** [errgroup.Group.Wait]: what it returns for the results of the group's functions, in
    the order in which they returned; it is documented to be the first non-nil error. *)
Class ErrGroup := { eg_Wait : list (option error) -> option error }.

Class ErrGroupSpec `{!ErrGroup} : Prop := {
  Wait_first rs : eg_Wait rs = head (omap id rs);
}.

(** * The machine *)

(** Where the streaming goroutine is: before [StreamUpdates], at the test of its loop,
    before reading a message, or returned.  [a] is where the acknowledging goroutine is,
    [ack] the offset the deferred acknowledgement was given. *)
Inductive streaming (R : Type) :=
| GStart
| GTest (p : R) (a : acking) (ack : Z)
| GRead (p : R) (a : acking) (ack : Z)
| GDone (p : option (R * acking)).
Arguments GStart {R}.
Arguments GTest {R}.
Arguments GRead {R}.
Arguments GDone {R}.

(** Where the serving goroutine is: at the test of its loop, in a call of [proxy], or
    returned. *)
Inductive proxying := QTest | QAt (p : pc) | QDone.

(** The two goroutines, and what they have returned, in the order of their returns. *)
Record group (C U R : Type) := Group {
  gr_client : C;
  gr_upstream : U;
  gr_proxy : proxying;
  gr_stream : streaming R;
  gr_results : list (option error);
}.
Arguments Group {C U R}.
Arguments gr_client {C U R}.
Arguments gr_upstream {C U R}.
Arguments gr_proxy {C U R}.
Arguments gr_stream {C U R}.
Arguments gr_results {C U R}.

Inductive call (C U R : Type) :=
| Dialling (client : C)
| Running (g : group C U R)
| Returned (err : option error).
Arguments Dialling {C U R}.
Arguments Running {C U R}.
Arguments Returned {C U R}.

(** What all calls share. *)
Record common (L G : Type) := Common { cm_heap : heap; cm_sub : Subscriber; cm_shared : shared L G }.
Arguments Common {L G}.
Arguments cm_heap {L G}.
Arguments cm_sub {L G}.
Arguments cm_shared {L G}.

Section calls.
Context `{!FloatConv, !UnicodeCase, !OldFields, !CommandOps, !ErrGroup}.
Context {C U R L G : Type} `{!Link C, !Link U, !Link R, !Locker L, !TxnLog G}.
Implicit Types (g : group C U R) (cm : common L G).

(** [ctx.Err()] of a context that was cancelled with a cause. *)
Context (ctx_err : error -> error).

(** [t.conf.Dialer.DialContext(ctx, "tcp", t.conf.RedisAddress)]. *)
Definition dial_move (d : U + error) (c : call C U R) : option (call C U R) :=
  match c with
  | Dialling client =>
      Some match d with
           | inr err => Returned (Some (Errorf "could not dial upstream address %q: %w" [err]))
           | inl u => Running (Group client u QTest GStart [])
           end
  | _ => None
  end.

(** The serving goroutine is at [q]; [rs] is what it returned, if it has. *)
Definition set_proxy (q : proxying) (rs : list (option error)) (g : group C U R) : group C U R :=
  Group (gr_client g) (gr_upstream g) q (gr_stream g) (gr_results g ++ rs).

(** What a statement of [proxy] leads to: the next one, the test of the loop after a
    return of nil, or the end of the goroutine. *)
Definition after_proxy (p : pc) (g : group C U R) : group C U R :=
  match p with
  | PReturn None => set_proxy QTest [] g
  | PReturn (Some e) => set_proxy QDone [Some e] g
  | p => set_proxy (QAt p) [] g
  end.

(** A wait for a lock ends with [ctx.Err()] when the context is cancelled. *)
Definition cancelled_wait (ctx : option error) (p : pc) : option error :=
  match p with PAwait _ _ _ => ctx_err <$> ctx | _ => None end.

(** The loop [for ctx.Err() == nil { err2 := t.proxy(...) ... }; return
    context.Cause(ctx)], one statement; [ctx] is the cause the context has. *)
Definition proxy_move (ctx : option error) cm g : option (group C U R * common L G) :=
  match gr_proxy g with
  | QTest =>
      Some (match ctx with
            | None => set_proxy (QAt PRead) [] g
            | Some cause => set_proxy QDone [Some cause] g
            end, cm)
  | QAt p =>
      match proxy_step p (cm_heap cm, ProxyState (gr_client g) (gr_upstream g) (cm_shared cm)) with
      | (Ret p', (h, ProxyState c u sh)) =>
          Some (after_proxy p' (Group c u (gr_proxy g) (gr_stream g) (gr_results g)), Common h (cm_sub cm) sh)
      | (Block, (h, ProxyState c u sh)) =>
          match cancelled_wait ctx p with
          | Some e => Some (set_proxy QDone [Some e] (Group c u (gr_proxy g) (gr_stream g) (gr_results g)),
                            Common h (cm_sub cm) sh)
          | None => None
          end
      | _ => None
      end
  | QDone => None
  end.

Definition set_stream (s : streaming R) (rs : list (option error)) (g : group C U R) : group C U R :=
  Group (gr_client g) (gr_upstream g) (gr_proxy g) s (gr_results g ++ rs).

(** The callback of the stream, [t.handleMessages(msg, ctx)]. *)
Definition callback (ctx : option error) : Message -> M (heap * shared L G) (option error) :=
  on_message (fun _ => (ctx_err <$> ctx, ctx)).

(** A turn of the loop of [StreamUpdates], followed by the deferred acknowledgement when
    the function returns there. *)
Definition stream_turn (ctx : option error) (t : turn) (p : R) (a : acking) (ack : Z) cm
  : outcome (option (option error)) * (heap * stream R (shared L G)) :=
  deferring (on_conn (replconfAck (cm_sub cm) ack)) (fun r => bool_decide (is_Some r))
    (stream_loop (callback ctx) [t]) (cm_heap cm, Stream (cm_sub cm) p (cm_shared cm) a).

(** What a turn leads to. *)
Definition after_turn (ack : Z) (g : group C U R)
    (res : outcome (option (option error)) * (heap * stream R (shared L G)))
  : option (group C U R * common L G) :=
  match res with
  | (Ret None, (h, st)) =>
      Some (set_stream (GTest (st_conn st) (st_ack st) ack) [] g, Common h (st_sub st) (st_x st))
  | (Ret (Some err), (h, st)) =>
      Some (set_stream (GDone (Some (st_conn st, st_ack st))) [err] g, Common h (st_sub st) (st_x st))
  | _ => None
  end.

(** [t.redisReplicationSubscriber.StreamUpdates(ctx, ...)]; [d] is what dialling the
    leader gives. *)
Definition stream_move (ctx : option error) (d : R + error) cm g : option (group C U R * common L G) :=
  match gr_stream g with
  | GStart =>
      match StreamUpdates (callback ctx) d [] (cm_sub cm) (cm_shared cm) (cm_heap cm) with
      | (Ret (None, s, sh, Some p), h) => Some (set_stream (GTest p AIdle (su_Offset s)) [] g, Common h s sh)
      | (Ret (Some err, s, sh, p), h) =>
          Some (set_stream (GDone ((fun p => (p, AIdle)) <$> p)) [err] g, Common h s sh)
      | _ => None
      end
  | GTest p a ack =>
      match ctx with
      | None => Some (set_stream (GRead p a ack) [] g, cm)
      | Some _ => after_turn ack g (stream_turn ctx Cancel p a ack cm)
      end
  | GRead p a ack => after_turn ack g (stream_turn ctx Loop p a ack cm)
  | GDone _ => None
  end.

(** The connection to the leader and the goroutine that acknowledges on it. *)
Definition leader_conn (s : streaming R) : option (R * acking) :=
  match s with
  | GStart => None
  | GTest p a _ | GRead p a _ => Some (p, a)
  | GDone p => p
  end.

Definition set_leader (p : R) (a : acking) (s : streaming R) : streaming R :=
  match s with
  | GStart => GStart
  | GTest _ _ ack => GTest p a ack
  | GRead _ _ ack => GRead p a ack
  | GDone _ => GDone (Some (p, a))
  end.

(** The goroutine of [StreamUpdates] that sends acknowledgements, one call on the
    connection; it goes on after [StreamUpdates] has returned, until it sees the end of
    the context. *)
Definition ack_move cm g : option (group C U R * common L G) :=
  match leader_conn (gr_stream g) with
  | None => None
  | Some (p, a) =>
      match stream_loop (callback None) [Ack] (cm_heap cm, Stream (cm_sub cm) p (cm_shared cm) a) with
      | (Ret _, (h, st)) =>
          Some (set_stream (set_leader (st_conn st) (st_ack st) (gr_stream g)) [] g, Common h (st_sub st) (st_x st))
      | _ => None
      end
  end.

(** [return g.Wait()]. *)
Definition wait_move (c : call C U R) : option (option error) :=
  match c with
  | Running g =>
      match gr_proxy g, gr_stream g with
      | QDone, GDone _ => Some (eg_Wait (gr_results g))
      | _, _ => None
      end
  | _ => None
  end.

(** What happens next in a call. *)
Inductive move :=
| Dials (d : U + error)
| Proxies
| Streams (d : R + error)
| Acks
| Waits.

Definition Transact_step (ctx : option error) (m : move) (c : call C U R) cm
  : option (call C U R * common L G) :=
  match m, c with
  | Dials d, _ => (fun c => (c, cm)) <$> dial_move d c
  | Waits, _ => (fun err => (Returned err, cm)) <$> wait_move c
  | Proxies, Running g => prod_map Running id <$> proxy_move ctx cm g
  | Streams d, Running g => prod_map Running id <$> stream_move ctx d cm g
  | Acks, Running g => prod_map Running id <$> ack_move cm g
  | _, _ => None
  end.

(** [Transact], at its first statement. *)
Definition Transact (conn : C) : call C U R := Dialling conn.

End calls.
Arguments move : clear implicits.
Arguments Dials {U R}.
Arguments Proxies {U R}.
Arguments Streams {U R}.
Arguments Acks {U R}.
Arguments Waits {U R}.

(** * What a call returns *)

(** The serving goroutine never returns nil, so that when it has returned, the group has
    an error. *)
Definition call_ok {C U R} (c : call C U R) : Prop :=
  match c with
  | Dialling _ => True
  | Running g => gr_proxy g = QDone -> Exists is_Some (gr_results g)
  | Returned err => is_Some err
  end.

Section returns.
Context `{!FloatConv, !UnicodeCase, !OldFields, !CommandOps, !ErrGroup, !ErrGroupSpec}.
Context {C U R L G : Type} `{!Link C, !Link U, !Link R, !Locker L, !TxnLog G}.
Context (ctx_err : error -> error).
Implicit Types (g : group C U R) (cm : common L G).

Lemma results_error (rs : list (option error)) e : Exists is_Some (rs ++ [Some e]).
Proof. apply Exists_app. right. left. by eexists. Qed.

Lemma results_more (rs rs' : list (option error)) : Exists is_Some rs -> Exists is_Some (rs ++ rs').
Proof. intros He. apply Exists_app. by left. Qed.

Lemma Wait_error (rs : list (option error)) : Exists is_Some rs -> is_Some (eg_Wait rs).
Proof.
  rewrite Wait_first. induction 1 as [r rs [e ->]|[e|] rs _ IH]; simpl; [by eexists..|done].
Qed.

Lemma after_proxy_ok p g : call_ok (Running (after_proxy p g)).
Proof. destruct p as [| | | | | | | | | | |[e|]]; simpl; try done. intros _. apply results_error. Qed.

Lemma proxy_move_ok ctx cm g g' cm' :
  proxy_move ctx_err ctx cm g = Some (g', cm') -> call_ok (Running g').
Proof.
  unfold proxy_move. destruct (gr_proxy g) as [|p|]; [| |done].
  - destruct ctx; intros [= <- _]; [intros _; apply results_error|done].
  - destruct (proxy_step p _) as [[p'| | |] [h [c u sh]]]; try done.
    + intros [= <- _]. apply after_proxy_ok.
    + destruct (cancelled_wait ctx_err ctx p); intros [= <- _]. intros _. apply results_error.
Qed.

(** A move of the stream leaves the serving goroutine where it is, and no error is
    forgotten. *)
Definition streamed g g' : Prop :=
  gr_proxy g' = gr_proxy g /\ (Exists is_Some (gr_results g) -> Exists is_Some (gr_results g')).

Lemma set_stream_streamed s rs g : streamed g (set_stream s rs g).
Proof. split; [done|apply results_more]. Qed.

Lemma after_turn_streamed ack g res g' cm' : after_turn (L := L) (G := G) ack g res = Some (g', cm') -> streamed g g'.
Proof.
  destruct res as [[[r|]| | |] [h st]]; intros [= <- _]; apply set_stream_streamed.
Qed.

Lemma stream_move_streamed ctx d cm g g' cm' : stream_move ctx_err ctx d cm g = Some (g', cm') -> streamed g g'.
Proof.
  unfold stream_move. destruct (gr_stream g) as [|p a ack|p a ack|p]; [|destruct ctx| |done].
  - destruct (StreamUpdates _ _ _ _ _ _) as [[[[[[e|] s] sh] [p|]]| | |] h]; intros [= <- _]; apply set_stream_streamed.
  - apply after_turn_streamed.
  - intros [= <- _]. apply set_stream_streamed.
  - apply after_turn_streamed.
Qed.

Lemma ack_move_streamed cm g g' cm' : ack_move ctx_err cm g = Some (g', cm') -> streamed g g'.
Proof.
  unfold ack_move. destruct (leader_conn _) as [[p a]|]; [|done].
  destruct (stream_loop _ _ _) as [[e| | |] [h st]]; intros [= <- _]; apply set_stream_streamed.
Qed.

Lemma streamed_ok g g' : streamed g g' -> call_ok (Running g) -> call_ok (Running g').
Proof. intros [Hp He] Hg Hq. rewrite Hp in Hq. by apply He, Hg. Qed.

Lemma wait_move_ok (c : call C U R) err : wait_move c = Some err -> call_ok c -> is_Some err.
Proof.
  destruct c as [|g|]; simpl; [done| |done]. intros E Hg.
  destruct (gr_proxy g), (gr_stream g); try done. injection E as <-. by apply Wait_error, Hg.
Qed.

(** The moves of a call. *)
Lemma Transact_step_ok ctx m (c : call C U R) cm c' cm' :
  Transact_step ctx_err ctx m c cm = Some (c', cm') -> call_ok c -> call_ok c'.
Proof.
  intros E Hc. destruct m as [d| |d| |], c as [cl|g|err]; simpl in E; try done.
  - destruct d; injection E as <- _; (done || by eexists).
  - apply fmap_Some in E as ([g' cm1] & Hm & [= -> _]). by eapply proxy_move_ok.
  - apply fmap_Some in E as ([g' cm1] & Hm & [= -> _]). eapply streamed_ok; [|done]. by eapply stream_move_streamed.
  - apply fmap_Some in E as ([g' cm1] & Hm & [= -> _]). eapply streamed_ok; [|done]. by eapply ack_move_streamed.
  - apply fmap_Some in E as (err & Hm & [= -> _]). by apply (wait_move_ok (Running g)).
Qed.

End returns.

(** * The group of the concrete runs: the documented behaviour of [Wait] *)

#[export] Instance first_error : ErrGroup := {| eg_Wait rs := head (omap id rs) |}.

#[export] Instance first_error_spec : ErrGroupSpec.
Proof. by split. Qed.
