(* ===== verification/TransactorLive.v ===== *)
(** Progress of the transactor (src/anarchoredis/txn.go): a client that waits for the
    release of its keys gets its reply once its write comes back on the replication
    stream, when the components its handling calls do not fail and nobody locks its
    keys again, however the goroutines are scheduled, if the scheduler is fair. *)

From S2P Require Import Prelude GoBase GoStrconv GoIO Kind Message Decoder Encoder.
From S2P Require Import Wire Conn Link Commands Transactor TransactorSystem.

#[global] Instance event_eq_dec : EqDecision event.
Proof. solve_decision. Defined.

Section live.
Context `{!CommandOps} {C U L G : Type} `{!Link C, !Link U, !Locker L, !LockerView L, !TxnLog G}.
Context (replicates : Message -> bool).
Implicit Types s : system C U L G.

(** The calls made for the message [m], whose command is [cmd] and whose keys are [ks],
    and for the reply [resp] succeed; a wait for keys that are not locked ends, and no
    wait for them ends with an error. *)
Record succeeds (m resp : Message) (cmd : Command) (ks : list bytes) : Prop := Succeeds {
  su_cmd h : exists h', op_Cmd m h = (Ret (Some cmd, None), h');
  su_keys h : exists h', op_Keys cmd h = (Ret (ks, None), h');
  su_append db (g : G) : exists g', log_append m db g = (None, g');
  su_unlock (l : L) : exists l', lk_unlock ks l = (None, l');
  su_await (l : L) : (forall k, k ∈ ks -> k ∉ held l) -> lk_await ks l = Ret None;
  su_wait (l : L) : lk_await ks l = Ret None \/ lk_await ks l = Block;
  su_write h (c : C) : exists n h' c', link_Write resp (h, c) = (Ret (n, None), (h', c'));
  su_flush h (c : C) : exists h' c', link_Flush (h, c) = (Ret None, (h', c'));
}.

(** The state after an event, which is skipped when it is not possible. *)
Definition after (e : event) s : system C U L G := default s (sys_step replicates e s).

Context (i : nat) (ks : list bytes).

(** The schedules the promise is about, from the state [s]: no message is lost, the
    context is not canceled, session [i] is not used for another call, and no statement
    locks a key of [ks]. *)
Definition allowed (e : event) : bool :=
  match e with
  | Lose | Handle (Some _) => false
  | Again j => negb (bool_decide (j = i))
  | _ => true
  end.

Definition locks_one s s' : bool :=
  existsb (fun k => bool_decide (k ∈ held (sh_keys (sy_shared s'))) &&
                    negb (bool_decide (k ∈ held (sh_keys (sy_shared s))))) ks.

Fixpoint calm (es : list event) s : bool :=
  match es with
  | [] => true
  | e :: es => allowed e && negb (locks_one s (after e s)) && calm es (after e s)
  end.

(** A round of a fair scheduler: everybody the wait depends on gets a turn, in any
    order, and whatever else happens in between. *)
Definition fair (es : list event) : bool :=
  bool_decide (Take ∈ es) && bool_decide (Handle None ∈ es) &&
  existsb (fun e => match e with Run j _ => bool_decide (j = i) | _ => false end) es.

Lemma calm_app es1 es2 s :
  calm (es1 ++ es2) s = true -> calm es1 s = true /\ calm es2 (play replicates es1 s) = true.
Proof.
  revert s. induction es1 as [|e es IH]; intros s; [done|]. cbn [app calm].
  rewrite !andb_true_iff. intros [[Ha Hl] [H1 H2]%IH]. by split_and!.
Qed.

Definition free s : Prop := forall k, k ∈ ks -> k ∉ held (sh_keys (sy_shared s)).

Lemma free_after s s' : locks_one s s' = false -> free s -> free s'.
Proof.
  intros He Hf k Hk Hin. apply (Hf k Hk). destruct (decide (k ∈ held (sh_keys (sy_shared s)))); [done|].
  assert (locks_one s s' = true) as Ht; [|by rewrite He in Ht].
  apply existsb_exists. exists k. split; [by apply list_elem_of_In|].
  by rewrite bool_decide_eq_true_2, bool_decide_eq_false_2 by done.
Qed.

Context {m resp : Message} {cmd : Command} (Hs : succeeds m resp cmd ks).
Context `{!LockerSpec L, !LogView G, !TxnLogSpec G}.

(** What the handler still has to do for [m], counted in statements until the keys are
    released; [log0] are the messages logged before. *)
Definition handler_left (log0 : list Message) (n : nat) s : Prop :=
  let logged := entries (sh_txnlog (sy_shared s)) in
  match n with
  | 5 => sy_handler s = None /\ head (sy_stream s) = Some m /\ logged = log0
  | 4 => sy_handler s = Some (HCmd m) /\ logged = log0
  | 3 => sy_handler s = Some (HKeys m (Some cmd)) /\ logged = log0
  | 2 => sy_handler s = Some (HAppend m ks) /\ logged = log0
  | 1 => sy_handler s = Some (HUnlock m ks) /\ logged = log0 ++ [m]
  | 0 => free s /\ log0 ++ [m] `prefix_of` logged
  | _ => False
  end.

(** What the session still has to do; [rep0] are the requests answered before. *)
Definition session_left (rep0 : list Message) (n : nat) s : Prop :=
  exists c u p, sy_sessions s !! i = Some (Session c u p) /\
  match n with
  | 3 => p = PAwait m resp cmd /\ rep0 `prefix_of` sy_replied s
  | 2 => p = PReply m resp /\ rep0 `prefix_of` sy_replied s
  | 1 => p = PReplyFlush m /\ exists others, rep0 ++ others ++ [m] `prefix_of` sy_replied s
  | 0 => p = PReturn None /\ exists others, rep0 ++ others ++ [m] `prefix_of` sy_replied s
  | _ => False
  end.

(** ** Who changes what *)

Definition keeps_log {A} (a : M (heap * proxy_state C U L G) A) : Prop :=
  forall h st o h' st', a (h, st) = (o, (h', st')) -> sh_txnlog (px_shared st') = sh_txnlog (px_shared st).

Lemma keeps_log_bind {A B} (a : M (heap * proxy_state C U L G) A) (f : A -> M (heap * proxy_state C U L G) B) :
  keeps_log a -> (forall x, keeps_log (f x)) -> keeps_log (mbind f a).
Proof.
  intros Ha Hf h st o h' st'. unfold mbind, M_bind. destruct (a (h, st)) as [o1 [h1 st1]] eqn:E.
  apply Ha in E. destruct o1; [|by intros [= <- <- <-]..]. intros Ef%Hf. congruence.
Qed.

Lemma keeps_log_ret {A} (x : A) : keeps_log (mret x).
Proof. by intros h st o h' st' [= <- <- <-]. Qed.

Lemma keeps_log_client {A} (a : M (heap * C) A) : keeps_log (client a).
Proof. intros h st o h' st'. unfold client. destruct (a _) as [? [? ?]]. by intros [= <- <- <-]. Qed.

Lemma keeps_log_upstream {A} (a : M (heap * U) A) : keeps_log (upstream a).
Proof. intros h st o h' st'. unfold upstream. destruct (a _) as [? [? ?]]. by intros [= <- <- <-]. Qed.

Lemma keeps_log_heap {A} (a : M heap A) : keeps_log (on_heap a).
Proof. intros h st o h' st'. unfold on_heap. destruct (a h) as [? ?]. by intros [= <- <- <-]. Qed.

Lemma keeps_log_keys {A} (f : L -> outcome A * L) : keeps_log (with_keys f).
Proof. intros h st o h' st'. unfold with_keys. destruct (f _) as [? ?]. by intros [= <- <- <-]. Qed.

Lemma keeps_log_database db : keeps_log (set_database db).
Proof. by intros h st o h' st' [= <- <- <-]. Qed.

Lemma keeps_log_panic {A} e : keeps_log (panic (A := A) e).
Proof. by intros h st o h' st' [= <- <- <-]. Qed.

Lemma proxy_step_log p : keeps_log (proxy_step p).
Proof.
  destruct p; cbn [proxy_step]; unfold LockKeys_, AwaitUnlocked_;
    repeat first [apply keeps_log_bind; [|intros ?] | apply keeps_log_ret | apply keeps_log_client
      | apply keeps_log_upstream | apply keeps_log_heap | apply keeps_log_keys | apply keeps_log_database
      | apply keeps_log_panic | case_match].
Qed.

(** A statement of a session leaves the handler, its message and the log alone. *)
Lemma run_handler_left log0 n j b s s' :
  run_session replicates j b s = Some s' -> locks_one s s' = false ->
  handler_left log0 n s -> handler_left log0 n s'.
Proof.
  unfold run_session. destruct (sy_sessions s !! j) as [[c u p]|]; [|done].
  destruct (bool_decide _); [done|].
  destruct (proxy_step p _) as [[p'| | |] [h [c' u' sh]]] eqn:E; [|done..]. intros [= <-] Hl.
  apply proxy_step_log in E. cbn in E. unfold handler_left. cbn. rewrite E. destruct n as [|[|[|[|[|[|n]]]]]]; [..|done].
  all: try done.
  - intros [Hf Hp]. split; [|done]. by eapply free_after.
  - intros (-> & Hh & ->). split_and!; [done| |done]. by destruct (sy_stream s).
Qed.

(** A statement of another session leaves this one alone. *)
Lemma run_session_left rep0 n j b s s' :
  j <> i -> run_session replicates j b s = Some s' -> session_left rep0 n s -> session_left rep0 n s'.
Proof.
  intros Hj. unfold run_session. destruct (sy_sessions s !! j) as [[c u p]|]; [|done].
  destruct (bool_decide _); [done|].
  destruct (proxy_step p _) as [[p'| | |] [h [c' u' sh]]]; [|done..]. intros [= <-].
  intros (c0 & u0 & p0 & Hi & Hn). exists c0, u0, p0. cbn. rewrite list_lookup_insert_ne by done. split; [done|].
  destruct n as [|[|[|[|n]]]]; [..|done]; (destruct Hn as [-> Hp]; split; [done|]).
  - destruct Hp as [others Hp]. exists others. by apply prefix_app_r.
  - destruct Hp as [others Hp]. exists others. by apply prefix_app_r.
  - by apply prefix_app_r.
  - by apply prefix_app_r.
Qed.

(** ** Progress *)

(** The session moves on, unless it waits for a key that is locked. *)
Lemma run_progress rep0 n b s :
  session_left rep0 n s ->
  exists n', n' <= n /\ session_left rep0 n' (after (Run i b) s) /\ (free s -> 0 < n -> n' < n).
Proof.
  destruct s as [h [l g db] ses hd st rep]. intros (c & u & p & Hi & Hn).
  pose proof (lookup_lt_Some _ _ _ Hi) as Hlt. unfold after, session_left, free.
  cbn [sys_step sy_sessions sy_replied sy_shared sh_keys] in *. unfold run_session. cbn [sy_sessions]. rewrite Hi.
  destruct n as [|[|[|[|n]]]]; [..|done]; destruct Hn as [-> Hp].
  - exists 0. split; [done|]. split; [|lia]. by exists c, u, (PReturn None).
  - exists 0. split; [lia|]. split; [|lia]. cbn. rewrite bool_decide_eq_false_2 by done. unfold mbind, M_bind, client.
    cbn [px_client]. destruct (su_flush _ _ _ _ Hs h c) as (h1 & c1 & ->). cbn. exists c1, u, (PReturn None).
    rewrite list_lookup_insert_eq by done. by rewrite app_nil_r.
  - exists 1. split; [lia|]. split; [|lia]. cbn. rewrite bool_decide_eq_false_2 by done. unfold mbind, M_bind, client.
    cbn [px_client]. destruct (su_write _ _ _ _ Hs h c) as (k & h1 & c1 & ->). cbn. exists c1, u, (PReplyFlush m).
    rewrite list_lookup_insert_eq by done. split; [done|]. split; [done|]. destruct Hp as [others ->].
    exists others. by rewrite <- !app_assoc.
  - cbn. rewrite bool_decide_eq_false_2 by done. unfold AwaitUnlocked_, mbind, M_bind, on_heap, with_keys.
    destruct (su_keys _ _ _ _ Hs h) as [h1 ->]. cbn [sh_keys px_shared].
    destruct (su_wait _ _ _ _ Hs l) as [E|E].
    + rewrite E. exists 2. split; [lia|]. split; [|lia]. cbn. exists c, u, (PReply m resp).
      rewrite list_lookup_insert_eq by done. by rewrite app_nil_r.
    + exists 3. split; [done|]. split.
      * rewrite E. by exists c, u, (PAwait m resp cmd).
      * intros Hf. rewrite (su_await _ _ _ _ Hs l Hf) in E. done.
Qed.

Lemma take_progress log0 n s :
  handler_left log0 n s ->
  exists n', n' <= n /\ handler_left log0 n' (after Take s) /\ (n = 5 -> n' = 4).
Proof.
  destruct s as [h [l g db] ses hd st rep]. unfold handler_left, after. cbn.
  intros Hn. destruct n as [|[|[|[|[|[|n]]]]]]; [..|done].
  - exists 0. split; [done|]. split; [|done]. by destruct hd, st.
  - exists 1. by destruct Hn as [-> ?].
  - exists 2. by destruct Hn as [-> ?].
  - exists 3. by destruct Hn as [-> ?].
  - exists 4. by destruct Hn as [-> ?].
  - exists 4. destruct Hn as (-> & Hh & ?). destruct st as [|m' ms]; [done|]. simpl in Hh. simplify_eq.
    split; [lia|]. by split.
Qed.

(** The log only grows. *)
Lemma handle_log ctx s s' :
  run_handler ctx s = Some s' ->
  entries (sh_txnlog (sy_shared s)) `prefix_of` entries (sh_txnlog (sy_shared s')).
Proof.
  destruct s as [h [l g db] ses [p|] st rep]; [|done]. unfold run_handler. cbn [sy_handler sy_heap sy_shared sh_txnlog].
  destruct p as [m'|m' c|m' k|m' k|m'|e]; [..|done]; cbn [handle_step]; unfold mbind, M_bind, on_heap, with_log, with_locks;
    cbn [sh_txnlog sh_keys sh_database].
  - destruct ctx; [by intros [= <-]|]. destruct (op_Cmd m' h) as [[[]| | |] ?]; by intros [= <-].
  - destruct c as [c|]; [|done]. destruct (op_Keys c h) as [[[]| | |] ?]; by intros [= <-].
  - destruct (log_append m' db g) as [e g'] eqn:E. apply append_spec in E. intros [= <-]. cbn. rewrite E.
    destruct e; [done|by apply prefix_app_r].
  - destruct (lk_unlock k l). by intros [= <-].
  - by intros [= <-].
Qed.

Lemma handle_progress log0 n s :
  locks_one s (after (Handle None) s) = false -> handler_left log0 n s ->
  exists n', n' <= n /\ handler_left log0 n' (after (Handle None) s) /\ (0 < n < 5 -> n' < n).
Proof.
  intros Hl Hn. unfold after in *. cbn [sys_step] in *. destruct n as [|[|[|[|[|[|n]]]]]]; [..|done].
  - exists 0. split; [done|]. split; [|lia]. destruct (run_handler None s) as [s'|] eqn:E; [|done].
    destruct Hn as [Hf Hp]. split; [by eapply free_after|]. etrans; [exact Hp|]. by eapply handle_log.
  - exists 0. clear Hl. destruct s as [h [l g db] ses hd st rep]. cbn in Hn. destruct Hn as [-> Hg].
    split; [lia|]. split; [|lia]. cbn. unfold mbind, M_bind, with_locks. cbn [sh_keys].
    destruct (su_unlock _ _ _ _ Hs l) as [l' E]. rewrite E. apply unlock_spec in E. cbn. unfold free. cbn.
    split; [|by rewrite Hg]. intros k Hk. rewrite E, elem_of_difference, elem_of_list_to_set. tauto.
  - exists 1. destruct s as [h [l g db] ses hd st rep]. cbn in Hn. destruct Hn as [-> Hg].
    split; [lia|]. split; [|lia]. cbn. unfold mbind, M_bind, with_log. cbn [sh_txnlog].
    destruct (su_append _ _ _ _ Hs db g) as [g' E]. rewrite E. apply append_spec in E. cbn. by rewrite E, Hg.
  - exists 2. destruct s as [h [l g db] ses hd st rep]. cbn in Hn. destruct Hn as [-> Hg].
    split; [lia|]. split; [|lia]. cbn. unfold mbind, M_bind, on_heap. by destruct (su_keys _ _ _ _ Hs h) as [h' ->].
  - exists 3. destruct s as [h [l g db] ses hd st rep]. cbn in Hn. destruct Hn as [-> Hg].
    split; [lia|]. split; [|lia]. cbn. unfold mbind, M_bind, on_heap. by destruct (su_cmd _ _ _ _ Hs h) as [h' ->].
  - exists 5. split; [done|]. split; [|lia]. destruct s as [h [l g db] ses hd st rep]. cbn in Hn. by destruct Hn as (-> & ? & ?).
Qed.

(** Who has to move next for the handler to go on. *)
Definition awaited (n : nat) : event := if bool_decide (n = 5) then Take else Handle None.

(** No event takes progress back; the one that is awaited, and a turn of the session once
    the keys are released, bring it forward. *)
Lemma event_progress log0 rep0 a b e s :
  allowed e = true -> locks_one s (after e s) = false -> handler_left log0 a s -> session_left rep0 b s ->
  exists a' b', a' <= a /\ b' <= b /\ handler_left log0 a' (after e s) /\ session_left rep0 b' (after e s) /\
    (e = awaited a -> 0 < a -> a' < a) /\ ((exists x, e = Run i x) -> a = 0 -> 0 < b -> b' < b).
Proof.
  intros Ha Hl Hh Hb. destruct e as [j x|j| | |ctx]; try done.
  - assert (handler_left log0 a (after (Run j x) s)) as Hh'.
    { unfold after in *. cbn [sys_step] in *. destruct (run_session _ _ _ _) eqn:E; [|done]. by eapply run_handler_left. }
    exists a. destruct (decide (j = i)) as [->|Hj].
    + destruct (run_progress rep0 b x s Hb) as (b' & ? & ? & Hlt). exists b'. split_and!; try done.
      * unfold awaited. by case_bool_decide.
      * intros _ ->. apply Hlt, Hh.
    + exists b. split_and!; try done.
      * unfold after. cbn [sys_step]. destruct (run_session _ _ _ _) eqn:E; [|done]. by eapply run_session_left.
      * unfold awaited. by case_bool_decide.
      * intros [? [= -> ->]]. done.
  - exists a, b. split_and!; try done; [| |unfold awaited; by case_bool_decide|by intros [? ?]].
    + unfold after in *. cbn [sys_step] in *. unfold call_again in *.
      by destruct (sy_sessions s !! j) as [[c u [| | | | | | | | | | |[e|]]]|].
    + unfold after in *. cbn [sys_step] in *. unfold call_again in *. simpl in Ha.
      apply negb_true_iff, bool_decide_eq_false_1 in Ha.
      destruct (sy_sessions s !! j) as [[c u [| | | | | | | | | | |[e|]]]|]; try done.
      destruct Hb as (c0 & u0 & p0 & Hi & Hn). exists c0, u0, p0. cbn. by rewrite list_lookup_insert_ne by done.
  - destruct (take_progress log0 a s Hh) as (a' & ? & ? & Hlt). exists a', b. split_and!; try done.
    + unfold after. cbn. unfold take_message. by destruct (sy_handler s), (sy_stream s).
    + unfold awaited. case_bool_decide; [|done]. lia.
    + by intros [? ?].
  - destruct ctx; [done|]. destruct (handle_progress log0 a s Hl Hh) as (a' & ? & ? & Hlt). exists a', b.
    split_and!; try done.
    + unfold after. cbn. unfold run_handler. destruct (sy_handler s) as [p|]; [|done].
      destruct p; try done; (destruct (handle_step _ _ _) as [[]  [? ?]]; done).
    + unfold awaited. case_bool_decide; [done|]. intros _ ?. assert (a < 5); [|lia].
      do 5 (destruct a as [|a]; [lia|]). destruct a; [done|]. by destruct Hh.
    + by intros [? ?].
Qed.

Lemma events_progress log0 rep0 es : forall a b s,
  calm es s = true -> handler_left log0 a s -> session_left rep0 b s ->
  exists a' b', a' <= a /\ b' <= b /\ handler_left log0 a' (play replicates es s) /\
    session_left rep0 b' (play replicates es s) /\
    (awaited a ∈ es -> 0 < a -> a' < a) /\ ((exists x, Run i x ∈ es) -> a = 0 -> 0 < b -> b' < b).
Proof.
  induction es as [|e es IH]; intros a b s; cbn [calm].
  { intros _ Hh Hb. exists a, b. split_and!; try done; [by intros ?%not_elem_of_nil|].
    by intros [x ?%not_elem_of_nil]. }
  rewrite !andb_true_iff, negb_true_iff. intros [[Ha Hl] Hc] Hh Hb.
  destruct (event_progress log0 rep0 a b e s Ha Hl Hh Hb) as (a1 & b1 & La & Lb & Hh1 & Hb1 & Da & Db).
  destruct (IH a1 b1 _ Hc Hh1 Hb1) as (a2 & b2 & La2 & Lb2 & Hh2 & Hb2 & Da2 & Db2).
  exists a2, b2. split_and!; [lia|lia|done|done| |].
  - intros Hd Hpos. destruct (decide (a1 < a)); [lia|]. assert (a1 = a) as -> by lia.
    apply elem_of_cons in Hd as [<-|Hd]; [specialize (Da eq_refl Hpos); lia|by apply Da2].
  - intros [x Hx] -> Hpos. destruct (decide (b1 < b)); [lia|]. assert (b1 = b) as -> by lia.
    apply elem_of_cons in Hx as [<-|Hx]; [specialize (Db (ex_intro _ x eq_refl) eq_refl Hpos); lia|].
    apply Db2; [by exists x|lia|done].
Qed.

Lemma fair_inv es : fair es = true -> Take ∈ es /\ Handle None ∈ es /\ exists x, Run i x ∈ es.
Proof.
  unfold fair. rewrite !andb_true_iff, !bool_decide_eq_true. intros [[? ?] Hr]. split_and!; [done..|].
  apply existsb_exists in Hr as (e & Hin & He). apply list_elem_of_In in Hin.
  destruct e as [j x| | | |]; try done. apply bool_decide_eq_true_1 in He as ->. by exists x.
Qed.

(** As many rounds as there are statements left complete both. *)
Lemma rounds_complete log0 rep0 rounds : forall a b s,
  forallb fair rounds = true -> a + b <= length rounds -> calm (concat rounds) s = true ->
  handler_left log0 a s -> session_left rep0 b s ->
  handler_left log0 0 (play replicates (concat rounds) s) /\
  session_left rep0 0 (play replicates (concat rounds) s).
Proof.
  induction rounds as [|r rounds IH]; intros a b s; cbn [concat length forallb].
  { intros _ Hn _. by assert (a = 0) as -> by lia; assert (b = 0) as -> by lia. }
  rewrite andb_true_iff. intros [(Ht & Hn & Hr)%fair_inv Hf] Hlen [Hc1 Hc2]%calm_app Hh Hb.
  destruct (events_progress log0 rep0 r a b s Hc1 Hh Hb) as (a1 & b1 & La & Lb & Hh1 & Hb1 & Da & Db).
  unfold play at 1 2. rewrite foldl_app. fold (play replicates r s).
  fold (play replicates (concat rounds) (play replicates r s)).
  apply (IH a1 b1); [done| |done..].
  destruct (decide (a = 0)) as [->|Hpos].
  - destruct (decide (b = 0)); [lia|]. specialize (Db Hr eq_refl ltac:(lia)). lia.
  - assert (awaited a ∈ r) as Hd by (unfold awaited; by case_bool_decide). specialize (Da Hd ltac:(lia)). lia.
Qed.

End live.

(** C16: a write that waits is answered.  Session [i] waits with its write [m] at the head
    of the replication stream, the handler is free, the locks and the log keep their
    contracts ([LockerSpec], [TxnLogSpec]) and the calls made for [m] and its reply
    succeed.  Then under every fair scheduler, after eight rounds in each of which the
    stream, the handler and the session get a turn, in any order and with any other
    statements of the other sessions in between, [m] is in the log, its keys are
    released and the reply has been written and flushed, provided that in these rounds
    no message of the stream is lost, the context is not canceled and nobody locks the
    keys of [m] again. *)
Theorem waiting_write_is_answered `{!CommandOps} {C U L G} `{!Link C, !Link U, !Locker L, !LockerView L,
    !LockerSpec L, !TxnLog G, !LogView G, !TxnLogSpec G}
    (replicates : Message -> bool) (m resp : Message) (cmd : Command) (ks : list bytes)
    (s : system C U L G) (i : nat) (c : C) (u : U) (rounds : list (list event)) :
  succeeds (C := C) (L := L) (G := G) m resp cmd ks ->
  sy_sessions s !! i = Some (Session c u (PAwait m resp cmd)) ->
  sy_handler s = None -> head (sy_stream s) = Some m ->
  8 <= length rounds -> forallb (fair i) rounds = true -> calm replicates i ks (concat rounds) s = true ->
  let s' := play replicates (concat rounds) s in
  (exists others, sy_replied s ++ others ++ [m] `prefix_of` sy_replied s') /\
  entries (sh_txnlog (sy_shared s)) ++ [m] `prefix_of` entries (sh_txnlog (sy_shared s')) /\
  (forall k, k ∈ ks -> k ∉ held (sh_keys (sy_shared s'))) /\
  exists c' u', sy_sessions s' !! i = Some (Session c' u' (PReturn None)).
Proof.
  intros Hs Hi Hh Hst Hlen Hf Hc.
  destruct (rounds_complete replicates i ks Hs (entries (sh_txnlog (sy_shared s))) (sy_replied s) rounds 5 3 s)
    as [[Hfree Hlog] (c' & u' & p & Hi' & -> & Hrep)]; [done|lia|done|done| |].
  { by exists c, u, (PAwait m resp cmd). }
  split_and!; [done|done|exact Hfree|]. by exists c', u'.
Qed.

(** * A concrete run *)

Import scripted.

Definition set_command : Command := MkCommand (str "SET") (m_Seq (set_k "1")) [] (set_k "1").

Lemma set_succeeds :
  succeeds (C := script) (L := gset bytes) (G := list Message) (set_k "1") ok_reply set_command [str "k"].
Proof.
  split; try by eexists.
  - intros l Hk. specialize (Hk (str "k") ltac:(left)). cbn [lk_await set_locker forallb].
    by rewrite bool_decide_eq_true_2.
  - intros l. cbn [lk_await set_locker]. case_match; [by left|by right].
  - intros h c. by do 3 eexists.
  - intros h c. by do 2 eexists.
Qed.

(** A client that waits for the release of k, while a second one has just sent a write. *)
Definition waiting (other : Message) : system script script (gset bytes) (list Message) :=
  play is_write (go 0 7 ++ go 1 1) (begin [[set_k "1"]; [other]]).

(** In each round the second client moves first, and the stream last. *)
Definition unkind : list (list event) := replicate 8 [Run 1 true; Run 0 true; Handle None; Take].

Definition set_j : Message := words ["SET"; "j"; "2"]%string.

Lemma waiting_write_is_answered_witness :
  (exists others, [] ++ others ++ [set_k "1"] `prefix_of` sy_replied (play is_write (concat unkind) (waiting set_j))) /\
  [set_k "1"] `prefix_of` entries (sh_txnlog (sy_shared (play is_write (concat unkind) (waiting set_j)))) /\
  sy_replied (waiting set_j) = [] /\ elements (sh_keys (sy_shared (waiting set_j))) = [str "k"].
Proof.
  destruct (sy_sessions (waiting set_j) !! 0) as [[c u p]|] eqn:E; [|by vm_compute in E].
  destruct (waiting_write_is_answered is_write (set_k "1") ok_reply set_command [str "k"] (waiting set_j) 0 c u unkind)
    as (Hr & Hl & _).
  - apply set_succeeds.
  - rewrite E. vm_compute in E. by injection E as <- <- <-.
  - by vm_compute.
  - by vm_compute.
  - by vm_compute.
  - by vm_compute.
  - by vm_compute.
  - split; [exact Hr|]. split; [exact Hl|]. split; by vm_compute.
Defined.

(** When the second client writes the same key it locks it again, and the first one is
    not answered in these rounds although its write is logged: the last condition is
    needed. *)
Example relocked_waits_on :
  let s := play is_write (concat unkind) (waiting (set_k "2")) in
  calm is_write 0 [str "k"] (concat unkind) (waiting (set_k "2")) = false /\
  sy_replied s = [] /\ entries (sh_txnlog (sy_shared s)) = [set_k "1"].
Proof. vm_compute. done. Qed.
