(* ===== verification/Server.v ===== *)
(** The server (src/server/server.go, src/server/config.go): its configuration and the
    accept loop, with the goroutines of its connections and the one that closes the
    listener. *)

From S2P Require Import Prelude GoBase.

(** * Configuration *)

Record Config := MkConfig {
  sc_Address : bytes;
  sc_MaxSize : Z;
  sc_RedisServersAddrs : list bytes;
}.

Definition zero_config : Config := MkConfig [] 0 [].

Definition getMaxSize (c : Config) : Z :=
  if (sc_MaxSize c =? 0)%Z then 512 * 1000000 else sc_MaxSize c.

(** [Config.Parse] on a pointer; [arg_parse] is [arg.Parse], which fills the
    configuration it is given.  The result is what the caller's pointer points to
    afterwards: for a nil pointer a new configuration is filled and dropped. *)
Definition Parse (arg_parse : Config -> Config * option error) (c : option Config)
  : option Config * option error :=
  match c with
  | None => (None, (arg_parse zero_config).2)
  | Some c => let '(c, err) := arg_parse c in (Some c, err)
  end.

(** [type Server struct]; [F] is the type of [ConnFunc]. *)
Record Server (Listener F : Type) := MkServer {
  sr_config : Config;
  sr_l : Listener;
  sr_connFunc : F;
}.
Arguments MkServer {Listener F}.
Arguments sr_config {Listener F}.
Arguments sr_l {Listener F}.
Arguments sr_connFunc {Listener F}.

(** [New]; [listen] is [ListenConfig.Listen] on "tcp". *)
Definition New {Listener F} (listen : bytes -> Listener + error) (config : Config) (f : F)
  : Server Listener F + error :=
  match listen (sc_Address config) with
  | inr err => inr err
  | inl l => inl (MkServer config l f)
  end.

(** * [Serve] *)

(** Where the accept loop is: at the test of the loop, waiting in [Accept], between a
    failed [Accept] and the test of the context, or returned. *)
Inductive serve_pc :=
| STest
| SAccept
| SFailed (err : error)
| SReturned (err : option error).

(** The cause with which the context of [Serve] was cancelled, whether the listener is
    open, the accept loop, and the connections: [true] while [connFunc] runs. *)
Record serving := Serving {
  sv_cause : option error;
  sv_open : bool;
  sv_pc : serve_pc;
  sv_conns : list bool;
}.

(** [net.ErrClosed], which [Accept] returns once the listener is closed. *)
Definition ErrClosed : error := Sentinel "net.ErrClosed".

(** [cancle(err)]: the first cause stays. *)
Definition cancel (err : error) (s : serving) : serving :=
  Serving (match sv_cause s with Some e => Some e | None => Some err end)
    (sv_open s) (sv_pc s) (sv_conns s).

Definition goto (p : serve_pc) (s : serving) : serving :=
  Serving (sv_cause s) (sv_open s) p (sv_conns s).

(** What happens next: the loop tests the context, [Accept] returns a connection or an
    error, the loop looks at the context after an error, connection [i] returns, the
    goroutine that waits for the context closes the listener, or the context the
    server was started with is cancelled. *)
Inductive event :=
| Test
| Accepted
| AcceptFails (err : error)
| LookAtContext
| ConnReturns (i : nat) (err : option error)
| CloseListener
| ParentCancelled (cause : error).

Definition serve_step (e : event) (s : serving) : option serving :=
  match e, sv_pc s with
  | Test, STest =>
      Some (goto (match sv_cause s with None => SAccept | Some e => SReturned (Some e) end) s)
  | Accepted, SAccept =>
      if sv_open s
      then Some (Serving (sv_cause s) true STest (sv_conns s ++ [true]))
      else None
  | AcceptFails err, SAccept =>
      if sv_open s then Some (goto (SFailed err) s)
      else if bool_decide (err = ErrClosed) then Some (goto (SFailed err) s) else None
  | LookAtContext, SFailed err =>
      Some (goto (SReturned (match sv_cause s with Some e => Some e | None => Some err end)) s)
  | ConnReturns i err, p =>
      match sv_conns s !! i with
      | Some true =>
          let s := Serving (sv_cause s) (sv_open s) p (<[i := false]> (sv_conns s)) in
          Some (match err with Some e => cancel e s | None => s end)
      | _ => None
      end
  | CloseListener, p =>
      match sv_cause s with
      | Some _ => if sv_open s then Some (Serving (sv_cause s) false p (sv_conns s)) else None
      | None => None
      end
  | ParentCancelled cause, _ => Some (cancel cause s)
  | _, _ => None
  end.

Inductive reaches (s0 : serving) : serving -> Prop :=
| reaches_start : reaches s0 s0
| reaches_step e s s' : reaches s0 s -> serve_step e s = Some s' -> reaches s0 s'.

Definition play (es : list event) (s : serving) : serving :=
  foldl (fun s e => default s (serve_step e s)) s es.

(** [Serve] is called with a context that may already be cancelled. *)
Definition Serve (parent : option error) : serving := Serving parent true STest [].

Lemma serve_play_reaches es s0 s : reaches s0 s -> reaches s0 (play es s).
Proof.
  revert s. induction es as [|e es IH]; intros s Hs; [done|]. simpl. apply IH.
  destruct (serve_step e s) eqn:E; simpl; [by eapply reaches_step|done].
Qed.

(** * Invariants *)

(** The first cause is never replaced, and a closed listener has one. *)
Lemma step_cause e s s' c :
  serve_step e s = Some s' -> sv_cause s = Some c -> sv_cause s' = Some c.
Proof.
  intros E Hc. destruct s as [ca op p cs]. simpl in Hc. subst ca.
  destruct e; simpl in E; repeat case_match; simplify_eq/=; done.
Qed.

Lemma reaches_cause s s' c : reaches s s' -> sv_cause s = Some c -> sv_cause s' = Some c.
Proof. intros Hr Hc. induction Hr as [|e s1 s2 _ IH E]; [done|]. by eapply step_cause. Qed.

Definition returned_ok (s : serving) : Prop :=
  (sv_open s = false -> is_Some (sv_cause s)) /\
  forall r, sv_pc s = SReturned r -> exists e, r = Some e.

Lemma step_ok e s s' : serve_step e s = Some s' -> returned_ok s -> returned_ok s'.
Proof.
  intros E [Ho Hr]. destruct s as [ca op p cs]. simpl in *.
  destruct e; simpl in E; repeat case_match; simplify_eq/=; split; simpl in *;
    try (intros; by eauto); try done; try (intros r [= <-]; by eauto);
    by destruct ca; eexists.
Qed.

(** What the loop returns once there is a cause. *)
Definition returns_only (c : error) (s : serving) : Prop :=
  sv_cause s = Some c /\ forall r, sv_pc s = SReturned r -> r = Some c.

Lemma step_returns_only c e s s' : serve_step e s = Some s' -> returns_only c s -> returns_only c s'.
Proof.
  intros E [Hc Hr]. split; [by eapply step_cause|]. destruct s as [ca op p cs]. simpl in *. subst ca.
  destruct e; simpl in E; repeat case_match; simplify_eq/=; try done;
    try (intros r [= <-]; done); exact Hr.
Qed.

Lemma reports_only c s s' :
  sv_cause s = Some c -> (forall r, sv_pc s <> SReturned r) -> reaches s s' ->
  forall r, sv_pc s' = SReturned r -> r = Some c.
Proof.
  intros Hc Hn Hr. assert (returns_only c s') as [_ H]; [|exact H].
  induction Hr as [|e s1 s2 _ IH E]; [split; [done|]; intros r Hp; by destruct (Hn r)|].
  by eapply step_returns_only.
Qed.

(** * Properties *)

(** [Serve] never returns nil: whatever its connections, its listener and its context
    do, when it has returned, it has returned an error; and a listener is closed only
    when the context has a cause. *)
Theorem Serve_returns_error (parent : option error) (s : serving) :
  reaches (Serve parent) s ->
  (sv_open s = false -> is_Some (sv_cause s)) /\
  forall r, sv_pc s = SReturned r -> exists e, r = Some e.
Proof.
  intros Hr. assert (returned_ok s) as Ho; [|exact Ho].
  induction Hr as [|e s s' _ IH E]; [by split|]. by eapply step_ok.
Qed.

(** C28: the first failure is the one reported: when the context has the cause [c] (the
    error of the first connection that failed, or the cancellation the server was
    given) before the loop has returned, then in every continuation it returns [c] and
    nothing else; once the goroutine that watches the context has run, which it can
    then, at most two more steps of the loop end it, and no connection is accepted any
    more. *)
Theorem Serve_reports_first_failure (c : error) (s s' : serving) :
  sv_cause s = Some c -> (forall r, sv_pc s <> SReturned r) -> reaches s s' ->
  (forall r, sv_pc s' = SReturned r -> r = Some c) /\
  (sv_open s' = true -> exists s2, serve_step CloseListener s' = Some s2 /\ sv_open s2 = false) /\
  (sv_open s' = false ->
     serve_step Accepted s' = None /\
     sv_pc (play [AcceptFails ErrClosed; Test; LookAtContext] s') = SReturned (Some c)).
Proof.
  intros Hc Hn Hr.
  pose proof (reaches_cause _ _ _ Hr Hc) as Hc'. pose proof (reports_only _ _ _ Hc Hn Hr) as Hr'.
  split_and!; [done|..].
  - intros Ho. destruct s' as [ca op p cs]. simpl in *. subst. eexists. split; [done|]. done.
  - intros Ho. destruct s' as [ca op p cs]. simpl in *. subst. split; [by destruct p|].
    destruct p as [| |e|r]; try done. simpl. by rewrite (Hr' r).
Qed.

(** Two connections, the second of which fails while the loop waits in [Accept]. *)
Definition oh_no : error := ErrorsNew (str "oh no!").

Definition second_fails : list event :=
  [Test; Accepted; Test; Accepted; Test; ConnReturns 0 None; ConnReturns 1 (Some oh_no)].

Lemma Serve_returns_error_witness :
  exists e, sv_pc (play (second_fails ++ [CloseListener; AcceptFails ErrClosed; LookAtContext]) (Serve None)) =
    SReturned (Some e).
Proof.
  destruct (Serve_returns_error None
    (play (second_fails ++ [CloseListener; AcceptFails ErrClosed; LookAtContext]) (Serve None)))
    as [_ Hr]; [apply serve_play_reaches, reaches_start|].
  destruct (Hr (Some oh_no)) as [e He]; [by vm_compute|]. exists e. rewrite <- He. by vm_compute.
Defined.

Lemma Serve_reports_first_failure_witness :
  sv_pc (play [AcceptFails ErrClosed; Test; LookAtContext]
    (play [CloseListener; ParentCancelled EOF] (play second_fails (Serve None)))) = SReturned (Some oh_no).
Proof.
  apply (Serve_reports_first_failure oh_no (play second_fails (Serve None))
    (play [CloseListener; ParentCancelled EOF] (play second_fails (Serve None)))).
  - by vm_compute.
  - intros r. by vm_compute.
  - apply serve_play_reaches, reaches_start.
  - by vm_compute.
Defined.

(** The limit of a configuration that sets none, and of one that does. *)
Lemma getMaxSize_spec c : getMaxSize c = if bool_decide (sc_MaxSize c = 0%Z) then 512000000%Z else sc_MaxSize c.
Proof. unfold getMaxSize. destruct (Z.eqb_spec (sc_MaxSize c) 0); by case_bool_decide. Qed.

(** * The program *)

(** The exit status of [main], for what [Run] returns. *)
Definition main (run : option error) : Z := match run with Some _ => 1 | None => 0 end.
