(* ===== verification/TransactServer.v ===== *)
(** The server with the transactor: [Serve] (src/server/server.go) with [Transact]
    (src/anarchoredis/txn.go) as the function it runs for every connection, whose type
    [Transact] has.

    The program is the accept loop of the server, one call of [Transact] per connection,
    and what the calls share; its context is the one [Serve] hands to every call.  In
    every step one goroutine of any of them moves. *)

From S2P Require Import Prelude GoBase GoStrings GoStrconv GoIO Kind Message Decoder Encoder.
From S2P Require Import Wire Conn Link Signal Commands Replication ReplicationSpec Badger KeyLocker.
From S2P Require Import Transactor TransactorSystem TransactorStream TransactCall Server.

(** * The program *)

Record program (C U R L G : Type) := Program {
  pg_server : serving;
  pg_calls : list (call C U R);
  pg_common : common L G;
}.
Arguments Program {C U R L G}.
Arguments pg_server {C U R L G}.
Arguments pg_calls {C U R L G}.
Arguments pg_common {C U R L G}.

Section program.
Context `{!FloatConv, !UnicodeCase, !OldFields, !CommandOps, !ErrGroup, !ErrGroupSpec}.
Context {C U R L G : Type} `{!Link C, !Link U, !Link R, !Locker L, !TxnLog G}.
Context (ctx_err : error -> error).
Implicit Types (s : program C U R L G).

(** What happens next: the server or its listener does something, a client connects, a
    call makes a move, or a call that has returned ends its goroutine. *)
Inductive happening :=
| ServerDoes (e : Server.event)
| Connects (conn : C)
| CallDoes (i : nat) (m : move U R)
| CallEnds (i : nat).

(** What the server does apart from its connections. *)
Definition own_event (e : Server.event) : bool :=
  match e with Accepted | ConnReturns _ _ => false | _ => true end.

Definition with_server (s : program C U R L G) (sv : serving) : program C U R L G :=
  Program sv (pg_calls s) (pg_common s).

Definition prog_step (e : happening) (s : program C U R L G) : option (program C U R L G) :=
  match e with
  | ServerDoes e => if own_event e then with_server s <$> serve_step e (pg_server s) else None
  | Connects conn =>
      (fun sv => Program sv (pg_calls s ++ [Transact conn]) (pg_common s)) <$> serve_step Accepted (pg_server s)
  | CallDoes i m =>
      match pg_calls s !! i with
      | None => None
      | Some c =>
          (fun '(c, cm) => Program (pg_server s) (<[i := c]> (pg_calls s)) cm) <$>
            Transact_step ctx_err (sv_cause (pg_server s)) m c (pg_common s)
      end
  | CallEnds i =>
      match pg_calls s !! i with
      | Some (Returned err) => with_server s <$> serve_step (ConnReturns i err) (pg_server s)
      | _ => None
      end
  end.

Inductive runs_to (s0 : program C U R L G) : program C U R L G -> Prop :=
| runs_start : runs_to s0 s0
| runs_step e s s' : runs_to s0 s -> prog_step e s = Some s' -> runs_to s0 s'.

(** A schedule; what is not possible is skipped. *)
Definition perform (es : list happening) (s : program C U R L G) : program C U R L G :=
  foldl (fun s e => default s (prog_step e s)) s es.

(** The program as it starts. *)
Definition launch (parent : option error) (cm : common L G) : program C U R L G :=
  Program (Serve parent) [] cm.

Lemma perform_runs es s0 s : runs_to s0 s -> runs_to s0 (perform es s).
Proof.
  revert s. induction es as [|e es IH]; intros s Hs; [done|]. simpl. apply IH.
  destruct (prog_step e s) eqn:E; simpl; [by eapply runs_step|done].
Qed.

(** ** The server's part *)

(** A step of the program is a step of the server, or none. *)
Lemma prog_step_server e s s' :
  prog_step e s = Some s' ->
  pg_server s' = pg_server s \/ exists ev, serve_step ev (pg_server s) = Some (pg_server s').
Proof.
  destruct e as [ev|c|i m|i]; simpl; intros E.
  - destruct (own_event ev); [|done]. apply fmap_Some in E as (sv & E & ->). right. by exists ev.
  - apply fmap_Some in E as (sv & E & ->). right. by exists Accepted.
  - destruct (pg_calls s !! i) as [c|]; [|done]. apply fmap_Some in E as ([c' cm] & _ & ->). by left.
  - destruct (pg_calls s !! i) as [[| |err]|]; try done. apply fmap_Some in E as (sv & E & ->). right. by exists (ConnReturns i err).
Qed.

Lemma runs_server s s' : runs_to s s' -> reaches (pg_server s) (pg_server s').
Proof.
  intros Hr. induction Hr as [|e s1 s2 _ IH E]; [apply reaches_start|].
  apply prog_step_server in E as [->|[ev E]]; [done|by eapply reaches_step].
Qed.

(** ** The invariant *)

(** Every connection has its call; a call returns only errors; and a connection that has
    ended has a call that returned, and has given the context a cause. *)
Record prog_ok (s : program C U R L G) : Prop := {
  po_len : length (sv_conns (pg_server s)) = length (pg_calls s);
  po_calls : Forall call_ok (pg_calls s);
  po_ended i : sv_conns (pg_server s) !! i = Some false ->
    is_Some (sv_cause (pg_server s)) /\ exists err, pg_calls s !! i = Some (Returned err);
}.

Lemma own_event_conns e sv sv' :
  own_event e = true -> serve_step e sv = Some sv' -> sv_conns sv' = sv_conns sv.
Proof.
  intros Ho E. destruct sv as [ca op p cs].
  destruct e; simpl in Ho, E; try done; repeat case_match; by simplify_eq/=.
Qed.

Lemma step_cause_some e sv sv' :
  serve_step e sv = Some sv' -> is_Some (sv_cause sv) -> is_Some (sv_cause sv').
Proof. intros E [c Hc]. exists c. by eapply step_cause. Qed.

(** A call that has returned makes no more moves. *)
Lemma returned_stays ctx m err (cm : common L G) :
  Transact_step ctx_err ctx m (Returned err : call C U R) cm = None.
Proof. by destruct m. Qed.

Lemma call_move_ok i m s s' : prog_step (CallDoes i m) s = Some s' -> prog_ok s -> prog_ok s'.
Proof.
  simpl. destruct (pg_calls s !! i) as [c|] eqn:Hi; [|done].
  intros ([c' cm] & Hm & ->)%fmap_Some [Hl Hc He]. split; simpl.
  - by rewrite length_insert.
  - apply Forall_insert; [done|]. eapply Transact_step_ok; [done|]. by eapply Forall_lookup_1.
  - intros j Hj. destruct (He j Hj) as [Hs [err Hr]]. split; [done|]. exists err.
    destruct (decide (i = j)) as [->|Hn]; [|by rewrite list_lookup_insert_ne].
    rewrite Hr in Hi. injection Hi as <-. by rewrite returned_stays in Hm.
Qed.

Lemma connect_ok c s s' : prog_step (Connects c) s = Some s' -> prog_ok s -> prog_ok s'.
Proof.
  simpl. intros (sv & Hm & ->)%fmap_Some [Hl Hc He].
  assert (sv_conns sv = sv_conns (pg_server s) ++ [true] /\ sv_cause sv = sv_cause (pg_server s)) as [Ec Ea].
  { destruct (pg_server s) as [ca op p cs]. simpl in Hm. by destruct p, op; simplify_eq/=. }
  split; simpl; rewrite ?Ec.
  - rewrite !length_app. simpl. lia.
  - apply Forall_app. by repeat constructor.
  - intros i Hi. rewrite Ea. apply lookup_app_Some in Hi as [Hi|[_ Hi]].
    + destruct (He i Hi) as [Hs [err Hr]]. split; [done|]. exists err. by apply lookup_app_l_Some.
    + by apply list_lookup_singleton_Some in Hi as [_ ?].
Qed.

Lemma end_ok i s s' : prog_step (CallEnds i) s = Some s' -> prog_ok s -> prog_ok s'.
Proof.
  cbn [prog_step]. destruct (pg_calls s !! i) as [[| |err]|] eqn:Hi; try done.
  intros (sv & Hm & ->)%fmap_Some [Hl Hc He].
  assert (is_Some err) as [e ->] by exact (Forall_lookup_1 _ _ _ _ Hc Hi).
  pose proof (step_cause_some _ _ _ Hm) as Hca. simpl in Hm.
  destruct (sv_conns (pg_server s) !! i) as [[|]|] eqn:Hci; try done. injection Hm as <-.
  split; simpl; [by rewrite length_insert|done|].
  intros j Hj. destruct (decide (i = j)) as [->|Hn].
  - split; [by destruct (sv_cause (pg_server s)); eexists|by eexists].
  - rewrite list_lookup_insert_ne in Hj by done. destruct (He j Hj) as [Hs Hr]. split; [by apply Hca|done].
Qed.

Lemma prog_step_ok e s s' : prog_step e s = Some s' -> prog_ok s -> prog_ok s'.
Proof.
  destruct e as [ev|c|i m|i]; [|apply connect_ok|apply call_move_ok|apply end_ok].
  simpl. destruct (own_event ev) eqn:Ho; [|done]. intros (sv & Hm & ->)%fmap_Some [Hl Hc He].
  pose proof (own_event_conns _ _ _ Ho Hm) as Ec. split; simpl; rewrite ?Ec; [done..|].
  intros i Hi. destruct (He i Hi) as [Hs Hr]. split; [by eapply step_cause_some|done].
Qed.

Lemma launch_ok parent cm : prog_ok (launch parent cm).
Proof. by split. Qed.

Lemma runs_ok s s' : runs_to s s' -> prog_ok s -> prog_ok s'.
Proof. intros Hr Hs. induction Hr as [|e s1 s2 _ IH E]; [done|by eapply prog_step_ok]. Qed.

(** ** Once replication has started *)

Definition replication_started (cm : common L G) : Prop := sg_didSignal (su_signal (cm_sub cm)) = true.

(** A call that has no connection to the leader; when its stream has returned, that was
    with an error. *)
Definition call_idle (c : call C U R) : Prop :=
  match c with
  | Running g => leader_conn (gr_stream g) = None /\ (gr_stream g = GDone None -> Exists is_Some (gr_results g))
  | _ => True
  end.

Lemma after_turn_started ack (g g' : group C U R) res (cm' : common L G) :
  after_turn ack g res = Some (g', cm') ->
  sg_didSignal (su_signal (st_sub res.2.2)) = true -> replication_started cm'.
Proof. by destruct res as [[[r|]| | |] [h st]]; intros [= _ <-]. Qed.

Lemma stream_turn_started ctx t p a ack (cm : common L G) :
  replication_started cm ->
  sg_didSignal (su_signal (st_sub (stream_turn (R := R) ctx_err ctx t p a ack cm).2.2)) = true.
Proof.
  intros Hs. apply (keeps_deferring (fun sb => sg_didSignal (su_signal sb) = true)).
  - apply keeps_on_conn.
  - by apply keeps_stream_loop; [..|apply broadcast_started].
  - exact Hs.
Qed.

(** [StreamUpdates] refuses a subscriber that has been used. *)
Lemma StreamUpdates_refuses f d sched sb (x : shared L G) h :
  sg_didSignal (su_signal sb) = true ->
  exists sb', StreamUpdates (C := R) f d sched sb x h =
    (Ret (Some (Some (Errorf "attempting to reuse a subscriber, which is not allowed" [])), sb', x, None), h) /\
    su_signal sb' = su_signal sb.
Proof.
  intros Hs. unfold StreamUpdates. destruct (su_ReplicationID sb); simpl; rewrite Hs; by eexists.
Qed.

Lemma stream_move_started ctx d cm (g g' : group C U R) (cm' : common L G) :
  stream_move ctx_err ctx d cm g = Some (g', cm') -> replication_started cm ->
  replication_started cm' /\ (call_idle (Running g) -> call_idle (Running g')).
Proof.
  intros E Hs. unfold stream_move in E. destruct (gr_stream g) as [|p a ack|p a ack|p] eqn:Hg; [|destruct ctx| |done].
  - destruct (StreamUpdates_refuses (callback ctx_err ctx) d [] (cm_sub cm) (cm_shared cm) (cm_heap cm) Hs)
      as (sb & Eu & Es). rewrite Eu in E. injection E as <- <-.
    split; [unfold replication_started; simpl; by rewrite Es|]. intros _. split; [done|]. intros _. apply results_error.
  - split; [by eapply after_turn_started, stream_turn_started|]. simpl. rewrite Hg. by intros [? _].
  - injection E as <- <-. split; [done|]. simpl. rewrite Hg. by intros [? _].
  - split; [by eapply after_turn_started, stream_turn_started|]. simpl. rewrite Hg. by intros [? _].
Qed.

Lemma proxy_move_started ctx cm (g g' : group C U R) (cm' : common L G) :
  proxy_move ctx_err ctx cm g = Some (g', cm') ->
  cm_sub cm' = cm_sub cm /\ gr_stream g' = gr_stream g /\ (Exists is_Some (gr_results g) -> Exists is_Some (gr_results g')).
Proof.
  unfold proxy_move. destruct (gr_proxy g) as [|p|]; [| |done].
  - destruct ctx; intros [= <- <-]; (split_and!; [done..|apply results_more]).
  - destruct (proxy_step p _) as [[p'| | |] [h [c u sh]]]; try done.
    + intros [= <- <-]. split; [done|].
      destruct p' as [| | | | | | | | | | |[e|]]; (split; [done|apply results_more]).
    + destruct (cancelled_wait ctx_err ctx p); intros [= <- <-]. split_and!; [done..|apply results_more].
Qed.

Lemma Transact_step_started ctx m (c c' : call C U R) (cm cm' : common L G) :
  Transact_step ctx_err ctx m c cm = Some (c', cm') -> replication_started cm ->
  replication_started cm' /\ (call_idle c -> call_idle c').
Proof.
  intros E Hs. destruct m as [d| |d| |], c as [cl|g|err]; simpl in E; try done.
  - by destruct d; injection E as <- <-.
  - apply fmap_Some in E as ([g' cm1] & (Hsub & Hst & He)%proxy_move_started & [= -> ->]).
    unfold replication_started. rewrite Hsub. split; [done|]. simpl. rewrite Hst. intros [Hn Hd].
    split; [done|]. intros Hq. by apply He, Hd.
  - apply fmap_Some in E as ([g' cm1] & Hm & [= -> ->]). by eapply stream_move_started.
  - apply fmap_Some in E as ([g' cm1] & Hm & [= -> ->]). unfold ack_move in Hm.
    destruct (leader_conn (gr_stream g)) as [[p a]|] eqn:Hp; [|done].
    pose proof (keeps_stream_loop (callback ctx_err None) (fun sb => sg_didSignal (su_signal sb) = true)
      (fun _ _ H => H) (fun _ _ H => H) broadcast_started [Ack] (cm_heap cm, Stream (cm_sub cm) p (cm_shared cm) a) Hs) as Hk.
    destruct (stream_loop _ _ _) as [[r| | |] [h st]]; try done. injection Hm as <- <-.
    split; [exact Hk|]. simpl. rewrite Hp. by intros [? _].
  - apply fmap_Some in E as (err & _ & [= -> ->]). done.
Qed.

End program.
Arguments happening : clear implicits.
Arguments ServerDoes {C U R}.
Arguments Connects {C U R}.
Arguments CallDoes {C U R}.
Arguments CallEnds {C U R}.

(** * Properties *)

(** C11: one client that leaves stops the server: in every run of the program, a
    connection that has ended, for whatever reason, has ended with an error, since
    [Transact] never returns nil, and has cancelled the context.  Unless the accept loop
    had returned already, whatever happens afterwards it returns that cause and nothing
    else, and once the listener is closed no client can connect. *)
Theorem client_end_stops_server `{!FloatConv, !UnicodeCase, !OldFields, !CommandOps, !ErrGroup, !ErrGroupSpec}
    {C U R L G} `{!Link C, !Link U, !Link R, !Locker L, !TxnLog G} (ctx_err : error -> error)
    (parent : option error) (cm : common L G) (s : program C U R L G) (i : nat) :
  runs_to ctx_err (launch parent cm) s -> sv_conns (pg_server s) !! i = Some false ->
  exists e c, pg_calls s !! i = Some (Returned (Some e)) /\ sv_cause (pg_server s) = Some c /\
    ((forall r, sv_pc (pg_server s) <> SReturned r) -> forall s', runs_to ctx_err s s' ->
       (forall r, sv_pc (pg_server s') = SReturned r -> r = Some c) /\
       (sv_open (pg_server s') = false -> forall conn, prog_step ctx_err (Connects conn) s' = None)).
Proof.
  intros Hr Hi. pose proof (runs_ok _ _ _ Hr (launch_ok parent cm)) as [_ Hc He].
  destruct (He i Hi) as [[c Hs] [err Hret]].
  assert (is_Some err) as [e ->] by exact (Forall_lookup_1 _ _ _ _ Hc Hret).
  exists e, c. split_and!; [done..|]. intros Hn s' Hs'. apply runs_server in Hs'.
  split; [by eapply reports_only|]. intros Ho conn. simpl.
  destruct (pg_server s') as [ca op p cs]. simpl in Ho. subst op. by destruct p.
Qed.

(** C32: once replication has started, a client whose stream has not been started never gets
    one: whatever happens afterwards its call has no connection to the leader, and when
    its stream has returned, that was with an error. *)
Theorem late_client_never_streams `{!FloatConv, !UnicodeCase, !OldFields, !CommandOps, !ErrGroup}
    {C U R L G} `{!Link C, !Link U, !Link R, !Locker L, !TxnLog G} (ctx_err : error -> error)
    (s s' : program C U R L G) (i : nat) :
  runs_to ctx_err s s' -> replication_started (pg_common s) ->
  (forall c, pg_calls s !! i = Some c -> call_idle c) ->
  replication_started (pg_common s') /\ forall c, pg_calls s' !! i = Some c -> call_idle c.
Proof.
  intros Hr Hs Hi. induction Hr as [|e s1 s2 _ [IHs IHi] E]; [done|].
  destruct e as [ev|cl|j m|j]; simpl in E.
  - destruct (own_event ev); [|done]. by apply fmap_Some in E as (sv & _ & ->).
  - apply fmap_Some in E as (sv & _ & ->). split; [done|]. simpl.
    intros c [Hc|[_ Hc]]%lookup_app_Some; [by apply IHi|].
    by apply list_lookup_singleton_Some in Hc as [_ <-].
  - destruct (pg_calls s1 !! j) as [c1|] eqn:Hj; [|done].
    apply fmap_Some in E as ([c2 cm] & (Hst & Hid)%Transact_step_started & ->); [|done].
    split; [done|]. simpl. intros c Hc. destruct (decide (j = i)) as [->|Hn].
    + rewrite list_lookup_insert_eq in Hc by by eapply lookup_lt_Some. injection Hc as <-. by apply Hid, IHi.
    + rewrite list_lookup_insert_ne in Hc by done. by apply IHi.
  - destruct (pg_calls s1 !! j) as [[| |err]|]; try done. by apply fmap_Some in E as (sv & _ & ->).
Qed.

(** * Concrete runs *)

Import scripted.
#[local] Existing Instance ascii_only.
#[local] Existing Instance current_fields.

Definition canceled_err (cause : error) : error := canceled.

(** A new transactor, with locks and log in memory. *)
Definition fresh : common (gset bytes) (list Message) :=
  Common (Heap [] []) (NewSubscriber listening) (Shared ∅ [] (str "0")).

(** A leader that answers the handshake and then sends the given updates. *)
Definition leader_of (ms : list Message) : script :=
  Script ([text "PONG"; text "OK"; text "FULLRESYNC 8371b4 1000"] ++ ms) EOF [].

Definition arrive (i : nat) (requests : list Message) : list (happening script script script) :=
  [ServerDoes Test; Connects (client_of requests).1; CallDoes i (Dials (inl (client_of requests).2))].

Definition proxies (i n : nat) : list (happening script script script) := replicate n (CallDoes i Proxies).

(** The start of the stream, and a message read and handled. *)
Definition streams (i : nat) (ms : list Message) : list (happening script script script) :=
  [CallDoes i (Streams (inl (leader_of ms)))].
Definition next_update (i : nat) : list (happening script script script) := streams i [] ++ streams i [].

(** A client that closes its connection without a request, while no leader is there. *)
Definition leaves : list (happening script script script) :=
  arrive 0 [] ++ proxies 0 2 ++ [CallDoes 0 (Streams (inr EOF)); CallDoes 0 Waits; CallEnds 0].

Definition left_alone : program script script script (gset bytes) (list Message) :=
  perform canceled_err leaves (launch None fresh).

Lemma client_end_stops_server_witness :
  exists e c, pg_calls left_alone !! 0 = Some (Returned (Some e)) /\ sv_cause (pg_server left_alone) = Some c /\
    ((forall r, sv_pc (pg_server left_alone) <> SReturned r) -> forall s', runs_to canceled_err left_alone s' ->
       (forall r, sv_pc (pg_server s') = SReturned r -> r = Some c) /\
       (sv_open (pg_server s') = false -> forall conn, prog_step canceled_err (Connects conn) s' = None)).
Proof.
  apply (client_end_stops_server canceled_err None fresh left_alone 0).
  - apply perform_runs, runs_start.
  - by vm_compute.
Defined.

(** The cause is the end of the client's input. *)
Example leaving_stops : sv_cause (pg_server left_alone) = Some EOF /\ sv_pc (pg_server left_alone) = STest.
Proof. by vm_compute. Qed.

(** Two clients, of which only the first sends requests.  Each of them has a stream, and
    both streams log the first write; the second of them releases the key while the
    second write is on its way, which is then answered although it was never logged. *)
Definition two_streams : list (happening script script script) :=
  arrive 0 [set_k "1"; set_k "2"] ++ arrive 1 [] ++
  streams 0 [set_k "1"] ++ streams 1 [set_k "1"] ++
  proxies 0 8 ++ next_update 0 ++ proxies 0 4 ++
  proxies 0 7 ++ next_update 1 ++ proxies 0 3.

Definition answers (s : program script script script (gset bytes) (list Message)) : option bytes :=
  match pg_calls s !! 0 with
  | Some (Running g) => Some (sc_out (gr_client g))
  | _ => None
  end.

Example second_stream_breaks_promise :
  let s := perform canceled_err two_streams (launch None fresh) in
  answers s = Some (concat (replicate 2 (str "+OK" ++ kind.EOL))) /\
  sh_txnlog (cm_shared (pg_common s)) = [set_k "1"; set_k "1"].
Proof. by vm_compute. Qed.

(** The leader announces a resynchronisation on the stream of the first client; the stream
    of the second is refused, and no message reaches it. *)
Definition resynced_once : program script script script (gset bytes) (list Message) :=
  perform canceled_err (arrive 0 [] ++ streams 0 [text "FULLRESYNC 8371b4 1000"] ++ next_update 0)
    (launch None fresh).

Definition late : list (happening script script script) :=
  arrive 1 [set_k "1"] ++ streams 1 [set_k "1"] ++ next_update 1.

Lemma late_client_never_streams_witness :
  replication_started (pg_common (perform canceled_err late resynced_once)) /\
  forall c, pg_calls (perform canceled_err late resynced_once) !! 1 = Some c -> call_idle c.
Proof.
  apply (late_client_never_streams canceled_err resynced_once (perform canceled_err late resynced_once) 1).
  - apply perform_runs, runs_start.
  - by vm_compute.
  - by vm_compute.
Defined.
