(* ===== verification/Kafka.v ===== *)
(** The kafka transaction log (src/kafka/log.go) and the consumer that replays it
    (src/kafka/consumer.go). *)

From S2P Require Import Prelude GoBase GoStrconv GoIO Bufio Kind Message Decoder Encoder Wire Conn.

(** * The log *)

(** [type TxnLog struct].  The connection is on top of the buffer, which is therefore
    the writer behind the connection's; [tl_records] are the values handed to kafka. *)
Record TxnLog := MkTxnLog {
  tl_clientId : bytes;
  tl_connection : Conn Buffer;
  tl_records : list bytes;
}.

(** [NewTxnLog]: the buffer starts with 1024 zero bytes; [new_client] is what creating
    the client gives, [r] the reader of the connection over the same buffer. *)
Definition NewTxnLog (new_client : option error) (clientID : bytes) (r : reader) : TxnLog + error :=
  let buffer := MkBuffer (replicate 1024 x00) in
  let conn := conn.NewConnection r buffer in
  match new_client with
  | Some err => inr err
  | None => inl (MkTxnLog clientID conn [])
  end.

Section log.
Context `{!FloatConv}.

Definition on_connection {A} (m : M (heap * Conn Buffer) A) : M (heap * TxnLog) A := fun '(h, l) =>
  let '(o, (h, c)) := m (h, tl_connection l) in (o, (h, MkTxnLog (tl_clientId l) c (tl_records l))).

(** [l.connection.Lock()] and [Unlock()]. *)
Definition Lock : M (heap * Conn Buffer) unit := fun '(h, c) =>
  if cn_locked c then (Block, (h, c)) else (Ret tt, (h, conn.set_locked true c)).
Definition Unlock : M (heap * Conn Buffer) unit := fun '(h, c) =>
  (Ret tt, (h, conn.set_locked false c)).

(** [c := make([]byte, l.buffer.Len()); copy(c, l.buffer.Bytes()); l.buffer.Reset()]. *)
Definition take_buffer : M (heap * Conn Buffer) bytes := fun '(h, c) =>
  let w := cn_writer c in
  (Ret (buf_bytes (bw_wr w)), (h, conn.set_writer (MkBufWriter (bw_buf w) (bw_err w) (MkBuffer [])) c)).

Definition produce (value : bytes) : M (heap * TxnLog) unit := fun '(h, l) =>
  (Ret tt, (h, MkTxnLog (tl_clientId l) (tl_connection l) (tl_records l ++ [value]))).

Definition Append (message : Message) : M (heap * TxnLog) (option error) :=
  _ ← on_connection Lock;
  '(_, err) ← on_connection (conn.Write message);
  match err with
  | Some e => _ ← on_connection Unlock; mret (Some e)
  | None =>
      c ← on_connection take_buffer;
      _ ← on_connection Unlock;
      _ ← produce c;
      mret None
  end.

(** The end of [Heartbeat]: the callback sends only an error over the channel, and the
    call waits for what arrives there; [delivery] is what kafka passes to the callback. *)
Definition heartbeat_wait (delivery : option error) : M (heap * TxnLog) (option error) := fun st =>
  match delivery with
  | Some e => (Ret (Some e), st)
  | None => (Block, st)
  end.

Definition Heartbeat (delivery : option error) : M (heap * TxnLog) (option error) :=
  clientId ← (fun st => (Ret (tl_clientId st.2), st));
  msg ← on_heap (protocol.NewOutgoingCommand [str "CONTROL"; str "HEARTBEAT"; clientId]);
  err ← Append msg;
  match err with
  | Some e => mret (Some e)
  | None => heartbeat_wait delivery
  end.

Lemma Append_waits m h l :
  exists c, Append m (h, l) = (Block, (h, MkTxnLog (tl_clientId l) c (tl_records l))) /\
    cn_locked c = true /\ cn_writer c = cn_writer (tl_connection l).
Proof.
  destruct l as [id [lk rd wr enc] recs]. unfold Append, on_connection, Lock, mbind, M_bind.
  cbn [tl_connection cn_locked]. destruct lk; cbn [tl_connection cn_locked conn.set_locked];
    by eexists.
Qed.

End log.

(** * The consumer *)

(** What a call of [PollFetches] returns: the errors of its partitions and the values
    of its records, in the order of the iterator. *)
Record fetches := Fetches { f_errors : list error; f_values : list bytes }.

Section consumer.
Context {W : Type} `{!IoWriter W}.

(** The loop over the records. *)
Fixpoint write_records (values : list bytes) (w : W) : option error * W :=
  match values with
  | [] => (None, w)
  | v :: values =>
      let '((_, err), w) := write v w in
      match err with
      | Some e => (Some e, w)
      | None => write_records values w
      end
  end.

(** [Run]: [inl] is a turn of the loop with the fetches it polls, [inr] the error of the
    context when the loop tests it and finds it done; [None] as a result means that the
    loop has not ended.  Of several errors the first one is returned. *)
Fixpoint Run (turns : list (fetches + error)) (w : W) : option (option error) * W :=
  match turns with
  | [] => (None, w)
  | inr ctx_err :: _ => (Some (Some ctx_err), w)
  | inl f :: turns =>
      match f_errors f with
      | e :: _ => (Some (Some (Errorf "errors.Join" [e])), w)
      | [] =>
          match write_records (f_values f) w with
          | (Some e, w) => (Some (Some e), w)
          | (None, w) => Run turns w
          end
      end
  end.

Definition values_of (turns : list (fetches + error)) : bytes :=
  concat ((fun t => match t with inl f => concat (f_values f) | inr _ => [] end) <$> turns).

Context `{!IoWriterSpec W}.

Lemma write_records_spec values w err w' :
  write_records values w = (err, w') ->
  exists n, accepted w' = accepted w ++ take n (concat values) /\ (err = None -> length (concat values) <= n).
Proof.
  revert w. induction values as [|v values IH]; intros w; simpl.
  { intros [= <- <-]. exists 0. rewrite app_nil_r. auto. }
  destruct (write v w) as [[k e] w1] eqn:E. apply write_spec in E as (Hk & Ha & Hok).
  destruct e as [e|].
  - intros [= <- <-]. exists (Z.to_nat k). rewrite take_app_le by (unfold zlen in Hk; lia). by split.
  - rewrite Hok in * by done. unfold zlen in Ha. rewrite Nat2Z.id, firstn_all in Ha.
    intros (n & E & Hn)%IH. exists (length v + n). rewrite take_app_add, E, Ha, <- app_assoc.
    split; [done|]. intros He. rewrite length_app. specialize (Hn He). lia.
Qed.

Lemma Run_spec turns w r w' :
  Run turns w = (r, w') ->
  exists n, accepted w' = accepted w ++ take n (values_of turns) /\
    (r = None -> length (values_of turns) <= n) /\ r <> Some None.
Proof.
  revert w. induction turns as [|[f|e] turns IH]; intros w; simpl.
  { intros [= <- <-]. exists 0. rewrite app_nil_r. auto. }
  2:{ intros [= <- <-]. exists 0. by rewrite app_nil_r. }
  destruct (f_errors f) as [|e es]; [|intros [= <- <-]; exists 0; by rewrite app_nil_r].
  unfold values_of. cbn [fmap list_fmap concat]. fold (values_of turns).
  destruct (write_records (f_values f) w) as [err w1] eqn:E.
  apply write_records_spec in E as (n & Ha & Hn). destruct err as [e|].
  - intros [= <- <-]. exists (n `min` length (concat (f_values f))). split_and!; [|done|done].
    rewrite take_app_le by lia. rewrite Ha. f_equal.
    destruct (decide (n <= length (concat (f_values f)))); [by rewrite Nat.min_l|].
    rewrite Nat.min_r, firstn_all, take_ge by lia. done.
  - specialize (Hn eq_refl). rewrite take_ge in Ha by done. intros (k & E & Hk & Hr)%IH.
    exists (length (concat (f_values f)) + k). rewrite take_app_add, E, Ha, <- app_assoc.
    split_and!; [done| |done]. intros Hnone. rewrite length_app. specialize (Hk Hnone). lia.
Qed.

End consumer.

(** As long as the records fit into the buffer of the writer they stay there. *)
Lemma write_records_buffered {W} `{!IoWriter W} values buf (w : W) :
  length buf + length (concat values) <= bufio_size ->
  write_records values (MkBufWriter buf None w) = (None, MkBufWriter (buf ++ concat values) None w).
Proof.
  revert buf. induction values as [|v values IH]; intros buf Hl.
  { simpl. by rewrite app_nil_r. }
  cbn [concat write_records] in *. rewrite length_app in Hl.
  assert (write v (MkBufWriter buf None w) =
    ((0 + zlen v, None)%Z, MkBufWriter (buf ++ v) None w)) as ->.
  { cbn [write BufWriter_writer bufio_write bw_err bw_buf bw_wr]. unfold Available. cbn [bw_buf].
    by rewrite (proj2 (Nat.ltb_ge _ _)) by lia. }
  rewrite IH by (rewrite length_app; lia). by rewrite <- app_assoc.
Qed.

Lemma Run_buffered {W} `{!IoWriter W} turns buf (w : W) :
  length buf + length (values_of turns) <= bufio_size ->
  exists r buf', Run turns (MkBufWriter buf None w) = (r, MkBufWriter buf' None w).
Proof.
  revert buf. induction turns as [|[f|e] turns IH]; intros buf Hl; simpl; [by eauto| |by eauto].
  destruct (f_errors f); [|by eauto]. unfold values_of in Hl. cbn [fmap list_fmap concat] in Hl.
  fold (values_of turns) in Hl. rewrite length_app in Hl.
  rewrite write_records_buffered by lia. apply IH. rewrite length_app. lia.
Qed.

(** * Properties *)

(** C36: the consumer writes the values of the records in the order in which it fetched
    them and nothing else: whenever it stops, with an error of kafka, of the writer or of
    its context, or is still running, the writer has accepted a front part of the
    concatenation of the fetched values, all of it when it is still running; and it never
    returns nil. *)
Theorem Run_writes_in_order {W} `{!IoWriter W, !IoWriterSpec W} (turns : list (fetches + error)) (w : W) :
  exists r w' bs, Run turns w = (r, w') /\ accepted w' = accepted w ++ bs /\
    bs `prefix_of` values_of turns /\ (r = None -> bs = values_of turns) /\ r <> Some None.
Proof.
  destruct (Run turns w) as [r w'] eqn:E. apply Run_spec in E as (n & Ha & Hn & Hr).
  exists r, w', (take n (values_of turns)). split_and!; [done|done| | |done].
  - exists (drop n (values_of turns)). by rewrite take_drop.
  - intros He. by apply take_ge, Hn.
Qed.

(** The consumer never flushes its writer: records that fit into the buffer do not reach
    what is behind it, however long it runs and however it ends. *)
Theorem Run_never_flushes {W} `{!IoWriter W} (turns : list (fetches + error)) (w : W) :
  length (values_of turns) <= bufio_size ->
  exists r buf, Run turns (NewWriter w) = (r, MkBufWriter buf None w).
Proof. intros Hl. by apply Run_buffered. Qed.

(** Nothing is ever appended to the kafka log: [Append] locks the connection and then
    calls its [Write], which waits for that lock; so it never returns, neither nil nor an
    error, no record is produced, the message is not even buffered, and the connection
    stays locked, so that every later call waits too.  The same holds of [Heartbeat]. *)
Theorem Append_never_returns `{!FloatConv} (m : Message) (delivery : option error) (h : heap) (l : TxnLog) :
  (exists l', Append m (h, l) = (Block, (h, l')) /\ tl_records l' = tl_records l /\
     cn_writer (tl_connection l') = cn_writer (tl_connection l) /\ cn_locked (tl_connection l') = true) /\
  (exists st', Heartbeat delivery (h, l) = (Block, st') /\ tl_records st'.2 = tl_records l).
Proof.
  split.
  - destruct (Append_waits m h l) as (c & E & Hl & Hw). by eexists.
  - unfold Heartbeat.
    destruct (NewOutgoingCommand_rep [str "CONTROL"; str "HEARTBEAT"; tl_clientId l] h)
      as (msg & h1 & fp & E1 & _).
    unfold mbind, M_bind, on_heap. cbn [snd]. rewrite E1.
    destruct (Append_waits msg h1 l) as (c & E & _). rewrite E. by eexists.
Qed.

(** Even if a record were produced, [Heartbeat] would return only the error of a failed
    delivery, and wait forever after a successful one. *)
Lemma heartbeat_only_fails delivery st err st' :
  heartbeat_wait delivery st = (Ret err, st') -> err <> None.
Proof. destruct delivery; simpl; [by intros [= <- <-]|done]. Qed.

(** A new log, and a consumer of two fetches and a cancelled context. *)
Definition new_log : TxnLog := MkTxnLog (str "me") (conn.NewConnection (RSrc 0) (MkBuffer (replicate 1024 x00))) [].

Example new_log_made : NewTxnLog None (str "me") (RSrc 0) = inl new_log.
Proof. done. Qed.

Lemma Run_writes_in_order_witness :
  exists r w' bs, Run [inl (Fetches [] [str "a"; str "b"]); inl (Fetches [] [str "c"]); inr EOF] (MkBuffer []) = (r, w') /\
    accepted w' = accepted (MkBuffer []) ++ bs /\
    bs `prefix_of` values_of [inl (Fetches [] [str "a"; str "b"]); inl (Fetches [] [str "c"]); inr EOF] /\
    (r = None -> bs = values_of [inl (Fetches [] [str "a"; str "b"]); inl (Fetches [] [str "c"]); inr EOF]) /\
    r <> Some None.
Proof.
  apply (Run_writes_in_order [inl (Fetches [] [str "a"; str "b"]); inl (Fetches [] [str "c"]); inr EOF] (MkBuffer [])).
Defined.

Example consumed :
  Run [inl (Fetches [] [str "a"; str "b"]); inl (Fetches [] [str "c"]); inr EOF] (NewWriter (MkBuffer [])) =
    (Some (Some EOF), MkBufWriter (str "abc") None (MkBuffer [])).
Proof. reflexivity. Qed.
