(* ===== verification/RaftUtil.v ===== *)
(** src/raft/util.go: the big-endian encoding of log indices, which makes the
    byte-wise order of keys the numeric order of indices.  The msgpack codec,
    over which the same file encodes logs, is the class [MsgPack]. *)

From S2P Require Import Prelude GoBase.

Local Open Scope Z_scope.

(** [binary.BigEndian.PutUint64] and [Uint64], for any width. *)
Fixpoint be_split (n : nat) (u : Z) : bytes :=
  match n with
  | O => []
  | S n => to_byte (u / 256 ^ Z.of_nat n) :: be_split n u
  end.

Definition be_combine (l : bytes) : Z := foldl (fun a b => a * 256 + byte_val b) 0 l.

(** [uint64ToBytes]. *)
Definition uint64ToBytes (u : Z) : bytes := be_split 8 u.

(** [bytesToUint64]: reads the first eight bytes; panics when there are fewer. *)
Definition bytesToUint64 (b : bytes) : outcome Z :=
  if (length b <? 8)%nat then Panic "index out of range"
  else Ret (be_combine (take 8 b)).

(** The msgpack codec with its default handle, for the type of raft logs:
    [codec_Encode] gives the bytes written to the stream, also when it fails, and
    [codec_Decode] fills an existing value and leaves the rest of the stream.  Decoding
    what was encoded replaces the value. *)
Class MsgPack (A : Type) := {
  codec_Encode : A -> bytes * option error;
  codec_Decode : bytes -> A -> A * bytes * option error;
}.

Class MsgPackSpec (A : Type) `{!MsgPack A} : Prop := {
  codec_roundtrip (a old : A) bs :
    codec_Encode a = (bs, None) -> exists rest, codec_Decode bs old = (a, rest, None);
}.

Section msgpack.
Context {A : Type} `{!MsgPack A}.

(** What is left in the buffer after decoding is dropped. *)
Definition decodeMsgPack (buf : bytes) (out : A) : A * option error :=
  let '(out, _, err) := codec_Decode buf out in (out, err).

(** The buffer is new, and returned with the error. *)
Definition encodeMsgPack (in_ : A) : bytes * option error :=
  let buf := [] in
  let '(written, err) := codec_Encode in_ in (buf ++ written, err).

Lemma decode_encode `{!MsgPackSpec A} (a old : A) bs :
  encodeMsgPack a = (bs, None) -> decodeMsgPack bs old = (a, None).
Proof.
  unfold encodeMsgPack, decodeMsgPack. destruct (codec_Encode a) as [w err] eqn:E. intros [= <- ->].
  destruct (codec_roundtrip a old w E) as [rest Ed]. simpl. by rewrite Ed.
Qed.

End msgpack.

(** * Properties of the encoding *)

Lemma length_be_split n u : length (be_split n u) = n.
Proof. induction n; simpl; auto. Qed.

Lemma pow256_pos n : 0 < 256 ^ Z.of_nat n.
Proof. apply Z.pow_pos_nonneg; lia. Qed.

Lemma pow256_succ n : 256 ^ Z.of_nat (S n) = 256 * 256 ^ Z.of_nat n.
Proof. rewrite Nat2Z.inj_succ, Z.pow_succ_r by lia. done. Qed.

Lemma foldl_be_acc l a :
  foldl (fun a b => a * 256 + byte_val b) a l = a * 256 ^ zlen l + be_combine l.
Proof.
  unfold be_combine. revert a. induction l as [|b l IH]; intros a.
  { simpl. rewrite zlen_nil. lia. }
  simpl foldl. rewrite IH, (IH (0 * 256 + byte_val b)). unfold zlen.
  simpl length. rewrite pow256_succ. ring.
Qed.

Lemma be_combine_cons b l : be_combine (b :: l) = byte_val b * 256 ^ zlen l + be_combine l.
Proof. unfold be_combine at 1. simpl foldl. rewrite foldl_be_acc. ring. Qed.

Lemma be_combine_bound l : 0 <= be_combine l < 256 ^ zlen l.
Proof.
  induction l as [|b l IH]; [by vm_compute|].
  rewrite be_combine_cons. pose proof (byte_val_range b).
  unfold zlen in *. simpl length. rewrite pow256_succ. nia.
Qed.

Lemma be_combine_split n u : 0 <= u -> be_combine (be_split n u) = u mod 256 ^ Z.of_nat n.
Proof.
  intros Hu. induction n as [|n IH].
  { simpl. by rewrite Z.mod_1_r. }
  simpl be_split. rewrite be_combine_cons, byte_val_to_byte, IH.
  unfold zlen. rewrite length_be_split, pow256_succ.
  pose proof (pow256_pos n). rewrite (Z.mul_comm 256), Z.rem_mul_r by lia. ring.
Qed.

Lemma be_split_combine l n : length l = n -> be_split n (be_combine l) = l.
Proof.
  intros <-.
  enough (forall p, be_split (length l) (p * 256 ^ zlen l + be_combine l) = l) as Hp.
  { apply (Hp 0). }
  induction l as [|b l IH]; intros p; [done|].
  simpl be_split. rewrite be_combine_cons.
  pose proof (be_combine_bound l). unfold zlen in *. simpl length.
  rewrite pow256_succ. pose proof (pow256_pos (length l)). f_equal.
  - replace (p * (256 * 256 ^ Z.of_nat (length l)) + (byte_val b * 256 ^ Z.of_nat (length l) + be_combine l))
      with (be_combine l + (p * 256 + byte_val b) * 256 ^ Z.of_nat (length l)) by ring.
    rewrite Z.div_add, Z.div_small by lia.
    apply (inj byte_val). rewrite byte_val_to_byte, Z.add_0_l, Z.add_comm, Z.mod_add by lia.
    apply Z.mod_small, byte_val_range.
  - etransitivity; [|apply (IH (p * 256 + byte_val b))]. f_equal. ring.
Qed.

(** Lexicographic comparison of equally long strings compares the numbers. *)
Lemma bytes_le_be_combine l1 l2 :
  length l1 = length l2 -> bytes_le l1 l2 <-> be_combine l1 <= be_combine l2.
Proof.
  revert l2. induction l1 as [|a l1 IH]; intros [|b l2] Hl; try done.
  injection Hl as Hl. rewrite bytes_le_cons, !be_combine_cons, (IH l2 Hl).
  pose proof (be_combine_bound l1). pose proof (be_combine_bound l2).
  unfold zlen in *. rewrite <- Hl in *. pose proof (pow256_pos (length l1)).
  split.
  - intros [?|[-> ?]]; nia.
  - intros Hle. destruct (Z.lt_trichotomy (byte_val a) (byte_val b)) as [?|[E|?]]; [auto| |nia].
    right. apply (inj byte_val) in E as ->. split; [done|lia].
Qed.

Lemma be_combine_uint64 u : uint64_range u -> be_combine (uint64ToBytes u) = u.
Proof.
  intros [H0 H1]. unfold uint64ToBytes. rewrite be_combine_split by done.
  apply Z.mod_small. unfold max_uint64 in H1. change (256 ^ Z.of_nat 8) with (2 ^ 64). lia.
Qed.

Lemma length_uint64ToBytes u : length (uint64ToBytes u) = 8%nat.
Proof. apply length_be_split. Qed.

Lemma bytesToUint64_8 b : length b = 8%nat -> bytesToUint64 b = Ret (be_combine b).
Proof. intros Hb. unfold bytesToUint64. rewrite Hb. simpl. by rewrite take_ge by lia. Qed.

Lemma be_combine_8_range b : length b = 8%nat -> uint64_range (be_combine b).
Proof.
  intros Hb. pose proof (be_combine_bound b). unfold zlen in *. rewrite Hb in *.
  change (256 ^ Z.of_nat 8) with (2 ^ 64) in *.
  unfold uint64_range, max_uint64. lia.
Qed.

Lemma uint64_bytes_le u v :
  uint64_range u -> uint64_range v ->
  bytes_le (uint64ToBytes u) (uint64ToBytes v) <-> u <= v.
Proof.
  intros Hu Hv. rewrite bytes_le_be_combine by by rewrite !length_uint64ToBytes.
  by rewrite !be_combine_uint64.
Qed.

Lemma uint64ToBytes_inj u v :
  uint64_range u -> uint64_range v -> uint64ToBytes u = uint64ToBytes v -> u = v.
Proof.
  intros Hu Hv E. apply (f_equal be_combine) in E. by rewrite !be_combine_uint64 in E.
Qed.

(** C18: the encoding of indices is a bijection between the uint64 values and the
    strings of eight bytes that preserves the order: converting back gives the
    number (and never panics), converting eight bytes there and back gives the
    bytes, and keys compare as the numbers they encode. *)
Theorem uint64_encoding u v b :
  uint64_range u -> uint64_range v -> length b = 8%nat ->
  bytesToUint64 (uint64ToBytes u) = Ret u /\
  (exists w, bytesToUint64 b = Ret w /\ uint64ToBytes w = b) /\
  (bytes_le (uint64ToBytes u) (uint64ToBytes v) <-> u <= v).
Proof.
  intros Hu Hv Hb. split_and!.
  - rewrite bytesToUint64_8 by apply length_uint64ToBytes. by rewrite be_combine_uint64.
  - exists (be_combine b). split; [by apply bytesToUint64_8|]. by apply be_split_combine.
  - by apply uint64_bytes_le.
Qed.

Lemma uint64_encoding_witness :
  bytesToUint64 (uint64ToBytes 258) = Ret 258 /\
  (exists w, bytesToUint64 (replicate 8 xff) = Ret w /\ uint64ToBytes w = replicate 8 xff) /\
  (bytes_le (uint64ToBytes 258) (uint64ToBytes 65536) <-> 258 <= 65536).
Proof. apply (uint64_encoding 258 65536 (replicate 8 xff)); by vm_compute. Defined.

(** * A codec for small logs

    Logs of an index and its data, as an instance of the codec's laws. *)

Record entry := MkEntry { entry_index : Z; entry_data : bytes }.

#[export] Instance uint64_range_dec u : Decision (uint64_range u).
Proof. unfold uint64_range. apply _. Defined.

#[export] Instance entry_msgpack : MsgPack entry := {
  codec_Encode e :=
    if decide (uint64_range (entry_index e)) then (uint64ToBytes (entry_index e) ++ entry_data e, None)
    else ([], Some (ErrorsNew []));
  codec_Decode bs old :=
    if (length bs <? 8)%nat then (old, bs, Some EOF)
    else (MkEntry (be_combine (take 8 bs)) (drop 8 bs), [], None);
}.

#[export] Instance entry_msgpack_spec : MsgPackSpec entry.
Proof.
  split. intros [i d] old bs. unfold codec_Encode, codec_Decode. cbn [entry_msgpack entry_index entry_data].
  case_decide as Hi; [|done]. intros Hb. exists [].
  assert (bs = uint64ToBytes i ++ d) as -> by congruence.
  pose proof (length_uint64ToBytes i) as Hl. pose proof (be_combine_uint64 i Hi) as Hc.
  destruct (Nat.ltb_spec (length (uint64ToBytes i ++ d)) 8) as [Hlt|_].
  { rewrite length_app in Hlt. lia. }
  replace (take 8 _) with (uint64ToBytes i) by (by rewrite take_app_length').
  replace (drop 8 _) with d by (by rewrite drop_app_length').
  by rewrite Hc.
Qed.
