(* ===== verification/RaftStore.v ===== *)
(** The raft log and stable store over badger (src/raft/badger_store.go). *)

From S2P Require Import Prelude GoBase GoStrings Badger RaftUtil.

Local Open Scope Z_scope.

Definition prefixLogs : bytes := [x00].
Definition prefixConf : bytes := [x01].

Definition log_key (i : Z) : bytes := prefixLogs ++ uint64ToBytes i.
Definition conf_key (k : bytes) : bytes := prefixConf ++ k.

(** [ErrKeyNotFound] of this package, and [raft.ErrLogNotFound]. *)
Definition ErrNotFound : error := Sentinel "raftbadger.ErrKeyNotFound".
Definition ErrLogNotFound : error := Sentinel "raft.ErrLogNotFound".

Definition is_not_found (e : error) : bool :=
  match e with Sentinel n => String.eqb n "badger.ErrKeyNotFound" | _ => false end.

(** How the loop of [StoreLogs] or [DeleteRange] over one transaction ends: at the
    end of its input, because the transaction is full (with where to start again),
    or with an error. *)
Inductive loop_end (A : Type) :=
| LoopDone (ws : list wr)
| LoopFull (ws : list wr) (again : A)
| LoopFail (e : error).
Arguments LoopDone {A} ws.
Arguments LoopFull {A} ws again.
Arguments LoopFail {A} e.

(** * Operations *)

Section store.
Context {DB : Type} `{!Badger DB}.

(** The view that reads an index off the key an iterator stands on. *)
Definition index_at (db : DB) (it : list bytes) : outcome (Z * option error) :=
  match db_err db with
  | Some e => Ret (0, Some e)
  | None =>
      match item_with_prefix prefixLogs it with
      | None => Ret (0, None)
      | Some k =>
          match bytesToUint64 (drop 1 k) with
          | Ret v => Ret (v, None)
          | Panic w => Panic w
          | Block => Block
          | OutOfFuel => OutOfFuel
          end
      end
  end.

(** [FirstIndex] seeks the log prefix forward. *)
Definition FirstIndex (db : DB) : outcome (Z * option error) :=
  index_at db (seek prefixLogs (snapshot db)).

(** [LastIndex] seeks backward from the log prefix followed by seven 0xff bytes. *)
Definition last_seek : bytes := prefixLogs ++ replicate 7 xff.

Definition LastIndex (db : DB) : outcome (Z * option error) :=
  index_at db (seek_reverse last_seek (snapshot db)).

(** [Set] and [Get], the stable store. *)
Definition Set_ (key val : bytes) (db : DB) : option error * DB :=
  Update db (fun ws => txn_write db ws (WSet (conf_key key) val)).

Definition Get (key : bytes) (db : DB) : bytes * option error :=
  match db_err db with
  | Some e => ([], Some e)
  | None =>
      match txn_get db (conf_key key) with
      | inl v => (v, None)
      | inr e => ([], Some (if is_not_found e then ErrNotFound else e))
      end
  end.

Definition SetUint64 (key : bytes) (val : Z) (db : DB) : option error * DB :=
  Set_ key (uint64ToBytes val) db.

Definition GetUint64 (key : bytes) (db : DB) : outcome (Z * option error) :=
  match Get key db with
  | (_, Some e) => Ret (0, Some e)
  | (val, None) =>
      match bytesToUint64 val with
      | Ret v => Ret (v, None)
      | Panic w => Panic w
      | Block => Block
      | OutOfFuel => OutOfFuel
      end
  end.

(** ** Logs *)

Section logs.
Context {Log : Type} (Index : Log -> Z) `{!MsgPack Log}.

(** [GetLog] decodes into the log it is given. *)
Definition GetLog (index : Z) (log : Log) (db : DB) : Log * option error :=
  match db_err db with
  | Some e => (log, Some e)
  | None =>
      match txn_get db (log_key index) with
      | inl val => decodeMsgPack val log
      | inr e => (log, Some (if is_not_found e then ErrLogNotFound else e))
      end
  end.

Definition StoreLog (log : Log) (db : DB) : option error * DB :=
  match encodeMsgPack log with
  | (_, Some e) => (Some e, db)
  | (val, None) => Update db (fun ws => txn_write db ws (WSet (log_key (Index log)) val))
  end.

Fixpoint store_loop (db : DB) (logs : list Log) (ws : list wr) : loop_end (list Log) :=
  match logs with
  | [] => LoopDone ws
  | log :: rest =>
      match encodeMsgPack log with
      | (_, Some e) => LoopFail e
      | (val, None) =>
          let w := WSet (log_key (Index log)) val in
          match refuse db ws w with
          | None => store_loop db rest (ws ++ [w])
          | Some e => if is_too_big e then LoopFull ws logs else LoopFail e
          end
      end
  end.

(** [StoreLogs]: every transaction but the last ends because it is full; the fuel
    bounds how often that happens. *)
Fixpoint store_logs (fuel : nat) (logs : list Log) (db : DB)
  : outcome (option error) * DB :=
  match fuel with
  | O => (OutOfFuel, db)
  | S fuel =>
      match store_loop db logs [] with
      | LoopFail e => (Ret (Some e), db)
      | LoopDone ws => let '(err, db) := commit db ws in (Ret err, db)
      | LoopFull ws rest =>
          match commit db ws with
          | (Some e, db) => (Ret (Some e), db)
          | (None, db) => store_logs fuel rest db
          end
      end
  end.

Definition StoreLogs (logs : list Log) (db : DB) : outcome (option error) * DB :=
  store_logs (S (length logs)) logs db.

End logs.

(** ** Deleting a range *)

(** The loop of [DeleteRange] over the keys the iterator still has to visit.  The
    key is copied into nine fresh bytes, and the number is read off those. *)
Fixpoint delete_loop (db : DB) (max : Z) (it : list bytes) (ws : list wr) : loop_end Z :=
  match it with
  | [] => LoopDone ws
  | k :: it =>
      let key := key_copy 9 k in
      let v := be_combine (drop 1 key) in
      if max <? v then LoopDone ws
      else
        match refuse db ws (WDel key) with
        | None => delete_loop db max it (ws ++ [WDel key])
        | Some e => if is_too_big e then LoopFull ws v else LoopFail e
        end
  end.

Fixpoint delete_range (fuel : nat) (min max : Z) (db : DB)
  : outcome (option error) * DB :=
  match fuel with
  | O => (OutOfFuel, db)
  | S fuel =>
      match delete_loop db max (seek (log_key min) (snapshot db)) [] with
      | LoopFail e => (Ret (Some e), db)
      | LoopDone ws => let '(err, db) := commit db ws in (Ret err, db)
      | LoopFull ws v =>
          match commit db ws with
          | (Some e, db) => (Ret (Some e), db)
          | (None, db) => delete_range fuel v max db
          end
      end
  end.

(** [DeleteRange].  As long as the iteration stays within the log keys, a full
    transaction has deleted a key that was there, so there are at most as many
    transactions as keys, and one more. *)
Definition DeleteRange (min max : Z) (db : DB) : outcome (option error) * DB :=
  delete_range (S (size (snapshot db))) min max db.

End store.

(** * Keys

    [wf m]: every key of the store is a log key or a key of the stable store. *)

Definition wf (m : gmap bytes bytes) : Prop :=
  forall k, is_Some (m !! k) ->
    (exists i, uint64_range i /\ k = log_key i) \/ (exists c, k = conf_key c).

Definition has_log (m : gmap bytes bytes) (i : Z) : Prop :=
  uint64_range i /\ is_Some (m !! log_key i).

Lemma log_key_le i j :
  uint64_range i -> uint64_range j -> bytes_le (log_key i) (log_key j) <-> i <= j.
Proof. intros. unfold log_key. rewrite bytes_le_app. by apply uint64_bytes_le. Qed.

Lemma log_key_inj i j : uint64_range i -> uint64_range j -> log_key i = log_key j -> i = j.
Proof. intros Hi Hj E. apply (app_inv_head prefixLogs) in E. by apply uint64ToBytes_inj. Qed.

Lemma conf_not_le_log i c : ~ bytes_le (conf_key c) (log_key i).
Proof. intros [H|[H _]]%bytes_le_cons; [by vm_compute in H|discriminate]. Qed.

Lemma prefix_le_log i : bytes_le prefixLogs (log_key i).
Proof. apply bytes_le_cons. right. done. Qed.

Lemma drop_log_key i : drop 1 (log_key i) = uint64ToBytes i.
Proof. done. Qed.

Lemma index_of_key i : uint64_range i -> bytesToUint64 (drop 1 (log_key i)) = Ret i.
Proof.
  intros. rewrite drop_log_key, bytesToUint64_8 by apply length_uint64ToBytes.
  by rewrite be_combine_uint64.
Qed.

Lemma be_combine_snoc l x : be_combine (l ++ [x]) = be_combine l * 256 + byte_val x.
Proof. unfold be_combine. by rewrite foldl_app. Qed.

(** A string one byte longer than [q] is at most [q] exactly when its front is
    smaller. *)
Lemma bytes_le_snoc p x q :
  length p = length q -> bytes_le (p ++ [x]) q <-> be_combine p < be_combine q.
Proof.
  revert q. induction p as [|a p IH]; intros [|b q] Hl; try done.
  injection Hl as Hl. simpl app. rewrite bytes_le_cons, (IH q Hl), !be_combine_cons.
  pose proof (be_combine_bound p). pose proof (be_combine_bound q).
  unfold zlen in *. rewrite <- Hl in *. pose proof (pow256_pos (length p)).
  split.
  - intros [?|[-> ?]]; nia.
  - intros Hlt. destruct (Z.lt_trichotomy (byte_val a) (byte_val b)) as [?|[E|?]]; [auto| |nia].
    right. apply (inj byte_val) in E as ->. split; [done|lia].
Qed.

(** The index space [LastIndex] can see. *)
Definition last_visible : Z := 2 ^ 64 - 257.

Lemma log_key_le_last i :
  uint64_range i -> bytes_le (log_key i) last_seek <-> i <= last_visible.
Proof.
  intros Hi. unfold log_key, last_seek. rewrite bytes_le_app.
  pose proof (length_uint64ToBytes i) as Hl. pose proof (be_combine_uint64 i Hi) as Hc.
  destruct (uint64ToBytes i) as [|x l] using rev_ind; [done|].
  rewrite length_app in Hl. simpl in Hl.
  rewrite bytes_le_snoc by (rewrite length_replicate; lia).
  rewrite be_combine_snoc in Hc. pose proof (byte_val_range x).
  replace (be_combine (replicate 7 xff)) with (2 ^ 56 - 1) by by vm_compute.
  unfold last_visible. lia.
Qed.

Lemma conf_not_le_last c : ~ bytes_le (conf_key c) last_seek.
Proof. intros [H|[H _]]%bytes_le_cons; [by vm_compute in H|discriminate]. Qed.

(** * The indices *)

Section index_proofs.
Context {DB : Type} `{!Badger DB}.

Lemma FirstIndex_spec (db : DB) :
  wf (snapshot db) -> db_err db = None ->
  (exists i, FirstIndex db = Ret (i, None) /\ has_log (snapshot db) i /\
     forall j, has_log (snapshot db) j -> i <= j) \/
  (FirstIndex db = Ret (0, None) /\ forall j, ~ has_log (snapshot db) j).
Proof.
  intros Hwf He. unfold FirstIndex, index_at. rewrite He.
  pose proof (seek_head prefixLogs (snapshot db)) as Hh.
  destruct (seek prefixLogs (snapshot db)) as [|k it]; simpl.
  { right. split; [done|]. intros j [_ Hj]. apply (Hh _ Hj), prefix_le_log. }
  destruct Hh as (Hk & _ & Hmin). destruct (Hwf k Hk) as [(i & Hi & ->)|(c & ->)].
  - left. exists i. unfold has_prefix. rewrite bool_decide_eq_true_2 by done.
    rewrite index_of_key by done. split_and!; [done..|].
    intros j [Hj Hjk]. apply log_key_le; [done..|]. apply Hmin; [done|]. apply prefix_le_log.
  - right. split; [done|]. intros j [Hj Hjk].
    eapply conf_not_le_log, Hmin; [done|]. apply prefix_le_log.
Qed.

Lemma LastIndex_spec (db : DB) :
  wf (snapshot db) -> db_err db = None ->
  (exists i, LastIndex db = Ret (i, None) /\ has_log (snapshot db) i /\ i <= last_visible /\
     forall j, has_log (snapshot db) j -> j <= last_visible -> j <= i) \/
  (LastIndex db = Ret (0, None) /\
     forall j, has_log (snapshot db) j -> last_visible < j).
Proof.
  intros Hwf He. unfold LastIndex, index_at. rewrite He.
  pose proof (seek_reverse_head last_seek (snapshot db)) as Hh.
  destruct (seek_reverse last_seek (snapshot db)) as [|k it]; simpl.
  { right. split; [done|]. intros j [Hr Hj].
    destruct (Z.lt_ge_cases last_visible j); [done|].
    exfalso. apply (Hh _ Hj), log_key_le_last; [done|lia]. }
  destruct Hh as (Hk & Hle & Hmax). destruct (Hwf k Hk) as [(i & Hi & ->)|(c & ->)].
  - left. exists i. unfold has_prefix. rewrite bool_decide_eq_true_2 by done.
    rewrite index_of_key by done. rewrite log_key_le_last in Hle by done.
    split_and!; [done..|]. intros j [Hj Hjk] Hv.
    apply log_key_le; [done..|]. apply Hmax; [done|]. by apply log_key_le_last.
  - exfalso. by eapply conf_not_le_last.
Qed.

(** C19: [FirstIndex] and [LastIndex] bound the log: when no index exceeds
    2^64 - 257, they return the least and the greatest stored index, or both 0
    when there is no log. *)
Theorem index_bounds (db : DB) :
  wf (snapshot db) -> db_err db = None ->
  (forall j, has_log (snapshot db) j -> j <= last_visible) ->
  (exists f l, FirstIndex db = Ret (f, None) /\ LastIndex db = Ret (l, None) /\
     has_log (snapshot db) f /\ has_log (snapshot db) l /\
     forall j, has_log (snapshot db) j -> f <= j <= l) \/
  (FirstIndex db = Ret (0, None) /\ LastIndex db = Ret (0, None) /\
     forall j, ~ has_log (snapshot db) j).
Proof.
  intros Hwf He Hv.
  destruct (FirstIndex_spec db Hwf He) as [(f & -> & Hf & Hfm)|[-> Hf]];
    destruct (LastIndex_spec db Hwf He) as [(l & -> & Hl & _ & Hlm)|[-> Hl]].
  - left. exists f, l. split_and!; [done..|]. intros j Hj. split; [auto|]. by apply Hlm; [|apply Hv].
  - specialize (Hl f Hf). specialize (Hv f Hf). lia.
  - by destruct (Hf l).
  - right. by split_and!.
Qed.

End index_proofs.

Definition one_log (i : Z) : MemDB := MkMemDB {[ log_key i := [] ]} 8.

Lemma index_bounds_witness :
  (exists f l, FirstIndex (one_log 7) = Ret (f, None) /\ LastIndex (one_log 7) = Ret (l, None) /\
     has_log (snapshot (one_log 7)) f /\ has_log (snapshot (one_log 7)) l /\
     forall j, has_log (snapshot (one_log 7)) j -> f <= j <= l) \/
  (FirstIndex (one_log 7) = Ret (0, None) /\ LastIndex (one_log 7) = Ret (0, None) /\
     forall j, ~ has_log (snapshot (one_log 7)) j).
Proof.
  apply (index_bounds (one_log 7)); [|done|].
  - intros k [v Hv]. cbn [snapshot MemDB_badger mem_map one_log] in Hv.
    apply lookup_singleton_Some in Hv as [<- _]. left. exists 7.
    by split; [vm_compute|].
  - intros j [Hj [v Hv]]. cbn [snapshot MemDB_badger mem_map one_log] in Hv.
    apply lookup_singleton_Some in Hv as [E _].
    assert (7 = j) as <- by (apply log_key_inj; [by vm_compute|done|done]). by vm_compute.
Defined.

(** An index beyond 2^64 - 257 is out of [LastIndex]'s sight: with log 2^64 - 1
    as its only log, the store reports first index 2^64 - 1 and last index 0. *)
Theorem LastIndex_misses_top :
  FirstIndex (one_log (2 ^ 64 - 1)) = Ret (2 ^ 64 - 1, None) /\
  LastIndex (one_log (2 ^ 64 - 1)) = Ret (0, None).
Proof. split; by vm_compute. Qed.
