(* ===== verification/RaftDelete.v ===== *)
(** [DeleteRange] of src/raft/badger_store.go: which keys it deletes, that it
    returns, and what it does once its iterator has left the log keys. *)

From S2P Require Import Prelude GoBase Badger RaftUtil RaftStore.

Local Open Scope Z_scope.

(** * Deleting logs by index *)

(** The index a key of nine bytes under the log prefix stands for. *)
Definition log_index (k : bytes) : option Z :=
  match k with
  | x00 :: b => if (length b =? 8)%nat then Some (be_combine b) else None
  | _ => None
  end.

(** The store without the logs with an index in [lo, hi). *)
Definition outside (lo hi : Z) (kv : bytes * bytes) : Prop :=
  match log_index kv.1 with Some i => ~ (lo <= i < hi) | None => True end.

#[export] Instance outside_dec lo hi kv : Decision (outside lo hi kv).
Proof. unfold outside. destruct (log_index kv.1); apply _. Defined.

Definition del_logs (lo hi : Z) (m : gmap bytes bytes) : gmap bytes bytes :=
  filter (outside lo hi) m.

Lemma log_index_key i : uint64_range i -> log_index (log_key i) = Some i.
Proof.
  intros Hi. change (log_index (log_key i)) with
    (if (length (uint64ToBytes i) =? 8)%nat then Some (be_combine (uint64ToBytes i)) else None).
  by rewrite length_uint64ToBytes, be_combine_uint64.
Qed.

Lemma log_index_conf c : log_index (conf_key c) = None.
Proof. done. Qed.

Lemma log_index_Some k i : log_index k = Some i -> uint64_range i /\ k = log_key i.
Proof.
  unfold log_index. destruct k as [|b k]; [done|]. destruct b; try done.
  destruct (length k =? 8)%nat eqn:Hl; [|done]. apply Nat.eqb_eq in Hl.
  intros [= <-]. split; [by apply be_combine_8_range|].
  unfold log_key, prefixLogs, uint64ToBytes. by rewrite be_split_combine.
Qed.

Lemma del_logs_lookup lo hi m k :
  del_logs lo hi m !! k =
  match log_index k with
  | Some i => if decide (lo <= i < hi) then None else m !! k
  | None => m !! k
  end.
Proof.
  unfold del_logs. rewrite map_lookup_filter.
  destruct (m !! k) as [v|]; simpl.
  - case_guard as Ho; simpl; unfold outside in Ho; simpl in Ho;
      destruct (log_index k); try case_decide; first [done|tauto].
  - destruct (log_index k); [by case_decide|done].
Qed.

Lemma del_logs_wf lo hi m : wf m -> wf (del_logs lo hi m).
Proof.
  intros Hwf k [v Hv]. apply Hwf. exists v. unfold del_logs in Hv.
  by apply map_lookup_filter_Some_1_1 in Hv.
Qed.

Lemma del_logs_has lo hi m i :
  has_log (del_logs lo hi m) i <-> has_log m i /\ ~ (lo <= i < hi).
Proof.
  unfold has_log. split.
  - intros [Hi Hk]. rewrite del_logs_lookup, log_index_key in Hk by done.
    case_decide; [by destruct Hk|naive_solver].
  - intros [[Hi Hk] Hn]. split; [done|]. rewrite del_logs_lookup, log_index_key by done.
    by rewrite decide_False.
Qed.

(** Deleting in two passes. *)
Lemma del_logs_del_logs lo mid hi m :
  lo <= mid -> mid <= hi -> del_logs mid hi (del_logs lo mid m) = del_logs lo hi m.
Proof.
  intros. apply map_eq. intros k. rewrite !del_logs_lookup.
  destruct (log_index k); [|done]. repeat case_decide; first [done|lia].
Qed.

Lemma del_logs_size lo hi m i :
  has_log m i -> lo <= i < hi -> (size (del_logs lo hi m) < size m)%nat.
Proof.
  intros [Hi [v Hv]] Hr. apply map_subset_size. split; [apply map_filter_subseteq|].
  intros Hsub. apply (lookup_weaken _ _ _ _ Hv) in Hsub.
  by rewrite del_logs_lookup, log_index_key, decide_True in Hsub by done.
Qed.

(** * One transaction *)

(** The number [DeleteRange] reads off a key. *)
Definition key_num (k : bytes) : Z := be_combine (drop 1 (key_copy 9 k)).

Lemma key_copy_log i : key_copy 9 (log_key i) = log_key i.
Proof.
  unfold key_copy. assert (length (log_key i) = 9%nat) as ->.
  { unfold log_key. by rewrite length_app, length_uint64ToBytes. }
  done.
Qed.

Lemma key_num_log i : uint64_range i -> key_num (log_key i) = i.
Proof. intros. unfold key_num. rewrite key_copy_log, drop_log_key. by apply be_combine_uint64. Qed.

Section delete.
Context {DB : Type} `{!Badger DB} `{!BadgerSpec DB}.

(** Where the loop stops: the keys [l] it has deleted are those in front of the
    first number beyond [max], of the key the transaction had no room for, or of
    the end. *)
Lemma delete_loop_spec (db : DB) max it ws :
  match delete_loop db max it ws with
  | LoopDone ws' => exists l rest, it = l ++ rest /\ ws' = ws ++ (WDel <$> (key_copy 9 <$> l)) /\
      Forall (fun k => key_num k <= max) l /\
      (forall k rest', rest = k :: rest' -> max < key_num k)
  | LoopFull ws' v => exists l k rest, it = l ++ k :: rest /\
      ws' = ws ++ (WDel <$> (key_copy 9 <$> l)) /\
      Forall (fun k => key_num k <= max) (l ++ [k]) /\ v = key_num k /\ (ws = [] -> l <> [])
  | LoopFail _ => True
  end.
Proof.
  revert ws. induction it as [|k it IH]; intros ws; simpl.
  { exists [], []. simpl. rewrite app_nil_r. by split_and!; [..|constructor|]. }
  change (be_combine (drop 1 (key_copy 9 k))) with (key_num k).
  destruct (Z.ltb_spec max (key_num k)).
  { exists [], (k :: it). simpl. rewrite app_nil_r. split_and!; [done|done|by constructor|by intros ?? [= <- _]]. }
  destruct (refuse db ws (WDel (key_copy 9 k))) as [e|] eqn:Hr.
  - destruct (is_too_big e) eqn:He; [|done].
    exists [], k, it. simpl. rewrite app_nil_r. split_and!; try done.
    + by apply Forall_singleton.
    + intros ->. apply refuse_first in Hr. congruence.
  - specialize (IH (ws ++ [WDel (key_copy 9 k)])).
    destruct (delete_loop db max it _) as [ws'|ws' v|e]; [..|done].
    + destruct IH as (l & rest & -> & -> & Hl & Hrest). exists (k :: l), rest.
      simpl. rewrite <- app_assoc. split_and!; try done. by constructor.
    + destruct IH as (l & k' & rest & -> & -> & Hl & -> & _). exists (k :: l), k', rest.
      simpl. rewrite <- app_assoc. split_and!; try done. by constructor.
Qed.

Lemma delete_loop_keys (db : DB) max it ws :
  match delete_loop db max it ws with
  | LoopDone ws' | LoopFull ws' _ =>
      exists l, l ⊆ it /\ ws' = ws ++ (WDel <$> (key_copy 9 <$> l))
  | LoopFail _ => True
  end.
Proof.
  pose proof (delete_loop_spec db max it ws) as Hl.
  destruct (delete_loop db max it ws); [..|done].
  - destruct Hl as (l & rest & -> & -> & _). exists l. split; [|done].
    apply list_subseteq_app_l. done.
  - destruct Hl as (l & k & rest & -> & -> & _). exists l. split; [|done].
    apply list_subseteq_app_l. done.
Qed.

Lemma delete_loop_plain (db : DB) max it :
  match delete_loop db max it [] with
  | LoopDone ws | LoopFull ws _ => Forall plain ws
  | LoopFail _ => True
  end.
Proof.
  pose proof (delete_loop_keys db max it []) as Hl.
  destruct (delete_loop db max it []); [..|done]; destruct Hl as (l & _ & ->); by apply plain_fmap.
Qed.

(** The iteration meets an index beyond [max], or there is nothing but logs. *)
Definition stays (min max : Z) (m : gmap bytes bytes) : Prop :=
  (exists j, has_log m j /\ min <= j /\ max < j) \/ (forall c, m !! conf_key c = None).

Lemma stays_del min max v m :
  min <= v <= max -> stays min max m -> stays v max (del_logs min v m).
Proof.
  intros Hv [(j & Hj & ? & ?)|Hc]; [left|right].
  - exists j. rewrite del_logs_has. split_and!; [done|lia..].
  - intros c. by rewrite del_logs_lookup, log_index_conf.
Qed.

(** Then the keys with numbers up to [max] in front of the iteration are log keys. *)
Lemma stays_logs min max m l rest :
  wf m -> uint64_range min -> stays min max m -> seek (log_key min) m = l ++ rest ->
  Forall (fun k => key_num k <= max) l ->
  Forall (fun k => exists i, has_log m i /\ k = log_key i /\ min <= i <= max) l.
Proof.
  intros Hwf Hmin Hst Hseek Hall. rewrite Forall_forall in *. intros k Hk.
  assert (k ∈ seek (log_key min) m) as Hin by (rewrite Hseek; apply elem_of_app; by left).
  apply elem_of_seek in Hin as [Hle Hsome]. pose proof (Hall k Hk) as Hl.
  destruct (Hwf k Hsome) as [(i & Hi & ->)|(c & ->)].
  { exists i. rewrite key_num_log in Hl by done. rewrite log_key_le in Hle by done.
    by split_and!. }
  exfalso. destruct Hst as [(j & [Hj Hjs] & Hmj & Hmaxj)|Hc].
  - assert (log_key j ∈ l ++ rest) as Hin.
    { rewrite <- Hseek. apply elem_of_seek. by rewrite log_key_le. }
    apply elem_of_app in Hin as [Hin|Hin].
    + specialize (Hall _ Hin). rewrite key_num_log in Hall by done. lia.
    + pose proof (seek_sorted (log_key min) m) as Hs. rewrite Hseek in Hs.
      eapply conf_not_le_log, StronglySorted_app_1_elem_of; done.
  - rewrite Hc in Hsome. by destruct Hsome.
Qed.

(** Deleting the keys [l] in front of the iteration deletes the logs below [hi],
    when [hi] separates them from the rest. *)
Lemma deletes_front min hi m l rest :
  uint64_range min -> seek (log_key min) m = l ++ rest ->
  Forall (fun k => exists i, has_log m i /\ k = log_key i /\ min <= i < hi) l ->
  (forall i, has_log m i -> log_key i ∈ rest -> hi <= i) ->
  apply_writes (WDel <$> (key_copy 9 <$> l)) m = del_logs min hi m.
Proof.
  intros Hmin Hseek Hl Hrest. rewrite Forall_forall in Hl.
  assert (key_copy 9 <$> l = l) as ->.
  { clear -Hl. induction l as [|k l IH]; [done|]. simpl. f_equal.
    - destruct (Hl k) as (i & _ & -> & _); [left|]. apply key_copy_log.
    - apply IH. intros x Hx. apply Hl. by right. }
  apply map_eq. intros k. rewrite apply_deletes, del_logs_lookup.
  destruct (log_index k) as [i|] eqn:Hi.
  - apply log_index_Some in Hi as [Hi ->]. destruct (decide (log_key i ∈ l)) as [Hin|Hin].
    + destruct (Hl _ Hin) as (j & [Hj _] & E & Hr). apply log_key_inj in E as <-; [|done..].
      by rewrite decide_True.
    + case_decide as Hr; [|done]. destruct (m !! log_key i) eqn:Hm; [exfalso|done].
      assert (has_log m i) as Hhas by (split; [done|by eexists]).
      assert (log_key i ∈ l ++ rest) as [?|Hin']%elem_of_app; [|done|].
      { rewrite <- Hseek. apply elem_of_seek. split; [apply log_key_le; [done..|lia]|by eexists]. }
      specialize (Hrest i Hhas Hin'). lia.
  - rewrite decide_False; [done|]. intros Hin. destruct (Hl _ Hin) as (j & [Hj _] & -> & _).
    by rewrite log_index_key in Hi.
Qed.

(** The key after the front is at most every log key that follows. *)
Lemma next_le min m l k rest i :
  wf m -> seek (log_key min) m = l ++ k :: rest -> uint64_range i -> log_key i ∈ k :: rest ->
  exists v, has_log m v /\ k = log_key v /\ v <= i.
Proof.
  intros Hwf Hseek Hi Hin.
  assert (bytes_le k (log_key i)) as Hle.
  { pose proof (seek_sorted (log_key min) m) as Hs. rewrite Hseek in Hs.
    apply StronglySorted_app_1_r, StronglySorted_cons in Hs as [Hs _].
    rewrite Forall_forall in Hs. by apply elem_of_cons in Hin as [->|?]; [|auto]. }
  assert (k ∈ seek (log_key min) m) as Hk.
  { rewrite Hseek. apply elem_of_app. right. by left. }
  apply elem_of_seek in Hk as [_ Hk]. destruct (Hwf k Hk) as [(v & Hv & ->)|(c & ->)].
  - exists v. apply log_key_le in Hle; [|done..]. by split_and!.
  - by apply conf_not_le_log in Hle.
Qed.

(** One transaction deletes every log of the range, or those below the index at
    which the next one starts, at least one of which was there. *)
Lemma delete_round (db : DB) min max :
  wf (snapshot db) -> uint64_range min -> stays min max (snapshot db) ->
  match delete_loop db max (seek (log_key min) (snapshot db)) [] with
  | LoopDone ws => apply_writes ws (snapshot db) = del_logs min (max + 1) (snapshot db)
  | LoopFull ws v =>
      uint64_range v /\ min <= v <= max /\
      apply_writes ws (snapshot db) = del_logs min v (snapshot db) /\
      exists i, has_log (snapshot db) i /\ min <= i < v
  | LoopFail _ => True
  end.
Proof.
  intros Hwf Hmin Hst. set (m := snapshot db) in *.
  pose proof (delete_loop_spec db max (seek (log_key min) m) []) as Hloop.
  pose proof (seek_sorted (log_key min) m) as Hsort.
  pose proof (seek_NoDup (log_key min) m) as Hdup.
  destruct (delete_loop _ _ _ _) as [ws|ws v|e]; [| |done].
  - destruct Hloop as (l & rest & Hseek & -> & Hle & Hnext).
    apply (deletes_front _ _ _ _ rest); [done..| |].
    + eapply Forall_impl; [by eapply stays_logs|]. simpl. intros k (i & ? & ? & ?).
      exists i. split_and!; [done..|lia|lia].
    + intros i [Hi Hs] Hin. destruct rest as [|k rest]; [by apply elem_of_nil in Hin|].
      destruct (next_le _ _ _ _ _ _ Hwf Hseek Hi Hin) as (v & [Hv _] & -> & Hvi).
      specialize (Hnext _ _ eq_refl). rewrite key_num_log in Hnext by done. lia.
  - destruct Hloop as (l & k & rest & Hseek & -> & Hle & -> & Hne).
    pose proof (stays_logs min max m (l ++ [k]) rest Hwf Hmin Hst) as Hlogs.
    rewrite <- app_assoc in Hlogs. specialize (Hlogs Hseek Hle).
    apply Forall_app in Hlogs as [Hlogs (v & Hv & -> & Hvr)%Forall_singleton].
    rewrite key_num_log by apply Hv.
    assert (Forall (fun k => exists i, has_log m i /\ k = log_key i /\ min <= i < v) l) as Hl.
    { rewrite Forall_forall in *. intros k Hk. destruct (Hlogs k Hk) as (i & Hi & -> & Hr).
      exists i. split_and!; [done..|lia|]. rewrite Hseek in Hsort, Hdup.
      assert (bytes_le (log_key i) (log_key v)) as Hiv.
      { eapply StronglySorted_app_1_elem_of; [done..|]. by left. }
      apply log_key_le in Hiv; [|apply Hi|apply Hv].
      assert (i <> v); [intros ->|lia]. apply NoDup_app in Hdup as (_ & Hdup & _).
      apply (Hdup _ Hk). by left. }
    split_and!; [apply Hv|lia|lia| |].
    + apply (deletes_front _ _ _ _ (log_key v :: rest)); [done..|].
      intros i [Hi _] Hin. destruct (next_le _ _ _ _ _ _ Hwf Hseek Hi Hin) as (w & [Hw _] & E & ?).
      apply log_key_inj in E as ->; [done|apply Hv|done].
    + destruct l as [|k l]; [by destruct Hne|]. apply Forall_inv in Hl as (i & ? & _ & ?).
      by exists i.
Qed.

Lemma del_logs_max lo hi m : del_logs lo (Z.max lo hi) m = del_logs lo hi m.
Proof.
  apply map_eq. intros k. rewrite !del_logs_lookup.
  destruct (log_index k); [|done]. repeat case_decide; first [done|lia].
Qed.

Lemma del_logs_none lo m : del_logs lo lo m = m.
Proof.
  apply map_eq. intros k. rewrite del_logs_lookup.
  destruct (log_index k); [|done]. by rewrite decide_False by lia.
Qed.

(** What [DeleteRange] leaves: on success the logs of the range are gone, on an
    error those below some index of it; nothing else changes. *)
Definition range_deleted (min max : Z) (m : gmap bytes bytes) (r : outcome (option error))
    (m' : gmap bytes bytes) : Prop :=
  exists err hi, r = Ret err /\ m' = del_logs min hi m /\
    min <= hi <= Z.max min (max + 1) /\ (err = None -> hi = Z.max min (max + 1)).

Lemma range_deleted_error min max m e : range_deleted min max m (Ret (Some e)) m.
Proof. exists (Some e), min. rewrite del_logs_none. split_and!; [done..|lia|lia|done]. Qed.

Lemma delete_range_spec fuel min max (db : DB) :
  (size (snapshot db) < fuel)%nat ->
  wf (snapshot db) -> uint64_range min -> stays min max (snapshot db) ->
  range_deleted min max (snapshot db)
    (delete_range fuel min max db).1 (snapshot (delete_range fuel min max db).2).
Proof.
  revert min db. induction fuel as [|fuel IH]; intros min db Hf Hwf Hmin Hst; [lia|].
  simpl. pose proof (delete_round db min max Hwf Hmin Hst) as Hround.
  pose proof (delete_loop_plain db max (seek (log_key min) (snapshot db))) as Hp.
  destruct (delete_loop _ _ _ _) as [ws|ws v|e].
  - destruct (commit db ws) as [[e|] db1] eqn:Hc; simpl.
    + rewrite (commit_none _ _ _ _ Hc). apply range_deleted_error.
    + exists None, (Z.max min (max + 1)). rewrite del_logs_max, (commit_all _ _ _ Hp Hc).
      split_and!; [done..|lia|lia|done].
  - destruct Hround as (Hv & Hr & Hws & i & Hi & Hir).
    destruct (commit db ws) as [[e|] db1] eqn:Hc; simpl.
    { rewrite (commit_none _ _ _ _ Hc). apply range_deleted_error. }
    apply commit_all in Hc; [|done]. rewrite Hws in Hc.
    pose proof (del_logs_size _ _ _ _ Hi Hir).
    destruct (IH v db1) as (err & hi & -> & -> & Hhi & Hok).
    + rewrite Hc. lia.
    + rewrite Hc. by apply del_logs_wf.
    + done.
    + rewrite Hc. by apply stays_del.
    + exists err, hi. rewrite Hc, del_logs_del_logs by lia. split_and!; [done..|lia|lia|].
      intros He. specialize (Hok He). lia.
  - apply range_deleted_error.
Qed.

(** C5: [DeleteRange(min, max)] returns, and when it succeeds it has deleted exactly
    the logs with an index in [min, max]; when it fails it has deleted exactly
    those from [min] up to some index.  This is so whenever the iteration meets an
    index beyond [max] or the stable store is empty, however often the transaction
    had to be split. *)
Theorem DeleteRange_exact (db : DB) min max :
  wf (snapshot db) -> uint64_range min -> stays min max (snapshot db) ->
  exists err hi,
    (DeleteRange min max db).1 = Ret err /\
    snapshot (DeleteRange min max db).2 = del_logs min hi (snapshot db) /\
    min <= hi <= Z.max min (max + 1) /\ (err = None -> hi = Z.max min (max + 1)).
Proof.
  intros Hwf Hmin Hst. apply (delete_range_spec _ min max db); [lia|done..].
Qed.

(** ** Beyond the log keys *)

Definition long_keys (m : gmap bytes bytes) : Prop :=
  forall c, is_Some (m !! conf_key c) -> (8 < length c)%nat.

Lemma key_copy_zero k m :
  wf m -> long_keys m -> is_Some (m !! k) -> exists b, key_copy 9 k = x00 :: b.
Proof.
  intros Hwf Hlong Hk. destruct (Hwf k Hk) as [(i & _ & ->)|(c & ->)].
  - rewrite key_copy_log. by eexists.
  - specialize (Hlong c Hk). unfold key_copy. simpl length.
    destruct (Nat.leb_spec (S (length c)) 9); [lia|]. by eexists.
Qed.

(** What a transaction of [DeleteRange] commits deletes logs only. *)
Lemma deletes_zero m l :
  wf m -> long_keys m -> (forall k, k ∈ l -> is_Some (m !! k)) ->
  apply_writes (WDel <$> (key_copy 9 <$> l)) m ⊆ m /\
  forall c, apply_writes (WDel <$> (key_copy 9 <$> l)) m !! conf_key c = m !! conf_key c.
Proof.
  intros Hwf Hlong Hl. split.
  - apply map_subseteq_spec. intros k v. rewrite apply_deletes. by case_decide.
  - intros c. rewrite apply_deletes. rewrite decide_False; [done|].
    intros (k & E & Hk)%list_elem_of_fmap.
    destruct (key_copy_zero k m Hwf Hlong (Hl k Hk)) as [b Hb]. by rewrite Hb in E.
Qed.

(** C21: when the keys of the stable store are longer than eight bytes, as the keys
    raft uses are, no transaction of [DeleteRange] touches the stable store or adds
    a key, whatever the range, however many transactions it takes and however it
    ends. *)
Theorem DeleteRange_keeps_stable fuel min max (db : DB) :
  wf (snapshot db) -> long_keys (snapshot db) ->
  snapshot (delete_range fuel min max db).2 ⊆ snapshot db /\
  forall c, snapshot (delete_range fuel min max db).2 !! conf_key c = snapshot db !! conf_key c.
Proof.
  revert min db. induction fuel as [|fuel IH]; intros min db Hwf Hlong; [done|]. simpl.
  pose proof (delete_loop_keys db max (seek (log_key min) (snapshot db)) []) as Hl.
  destruct (delete_loop _ _ _ _) as [ws|ws v|e]; [..|done];
    destruct Hl as (l & Hsub & ->); simpl;
    (destruct (deletes_zero (snapshot db) l Hwf Hlong) as [Hm Hc];
      [by intros k Hk; apply Hsub, elem_of_seek in Hk as [_ ?]|]);
    destruct (commit db _) as [[e|] db1] eqn:E; simpl;
    try by rewrite (commit_none _ _ _ _ E).
  - by rewrite (commit_all _ _ _ (plain_fmap WDel _ (fun _ => I)) E).
  - apply commit_all in E; [|by apply plain_fmap]. rewrite <- E in *. clear E. destruct (IH v db1) as [Hm' Hc'].
    + intros k Hk. by apply Hwf, (lookup_weaken_is_Some (snapshot db1)).
    + intros c. rewrite Hc. apply Hlong.
    + split; [by etrans|]. intros c. by rewrite Hc'.
Qed.

End delete.

(** * Concrete stores *)

(** Logs 1, 2 and 3 (with empty contents) and the given stable keys, in
    transactions of at most [S limit] writes. *)
Definition three_logs (limit : nat) (stable : list bytes) : MemDB :=
  MkMemDB (list_to_map (((fun i => (log_key i, [])) <$> [1; 2; 3]) ++
    ((fun c => (conf_key c, [])) <$> stable))) limit.

Lemma three_logs_keys limit stable k :
  is_Some (snapshot (three_logs limit stable) !! k) ->
  (exists i, (i = 1 \/ i = 2 \/ i = 3) /\ k = log_key i) \/ (exists c, c ∈ stable /\ k = conf_key c).
Proof.
  intros [v Hv]. apply elem_of_list_to_map_2, elem_of_app in Hv as [Hv|Hv].
  - left. apply list_elem_of_fmap in Hv as (i & [= -> _] & Hi). exists i. split; [|done].
    repeat (apply elem_of_cons in Hi as [Hi|Hi]; [by auto|]). by apply elem_of_nil in Hi.
  - right. apply list_elem_of_fmap in Hv as (c & [= -> _] & Hc). by exists c.
Qed.

Lemma three_logs_wf limit stable : wf (snapshot (three_logs limit stable)).
Proof.
  intros k [(i & Hi & ->)|(c & _ & ->)]%three_logs_keys; [left|right; by exists c].
  exists i. split; [|done]. unfold uint64_range, max_uint64. lia.
Qed.

(** The theorems apply to such stores. *)
Lemma DeleteRange_exact_witness :
  exists err hi,
    (DeleteRange 1 2 (three_logs 0 [str "CurrentTerm"])).1 = Ret err /\
    snapshot (DeleteRange 1 2 (three_logs 0 [str "CurrentTerm"])).2 =
      del_logs 1 hi (snapshot (three_logs 0 [str "CurrentTerm"])) /\
    1 <= hi <= Z.max 1 (2 + 1) /\ (err = None -> hi = Z.max 1 (2 + 1)).
Proof.
  apply (DeleteRange_exact (three_logs 0 [str "CurrentTerm"]) 1 2).
  - apply three_logs_wf.
  - by vm_compute.
  - left. exists 3. split_and!; [split|lia..]; [by vm_compute|]. eexists. by vm_compute.
Defined.

Lemma DeleteRange_keeps_stable_witness :
  snapshot (delete_range 9 2 3 (three_logs 1 [str "CurrentTerm"])).2
    ⊆ snapshot (three_logs 1 [str "CurrentTerm"]) /\
  forall c, snapshot (delete_range 9 2 3 (three_logs 1 [str "CurrentTerm"])).2 !! conf_key c =
    snapshot (three_logs 1 [str "CurrentTerm"]) !! conf_key c.
Proof.
  apply (DeleteRange_keeps_stable 9 2 3 (three_logs 1 [str "CurrentTerm"])).
  - apply three_logs_wf.
  - intros c [(i & _ & E)|(c' & Hc & E)]%three_logs_keys; [done|].
    apply (app_inv_head prefixConf) in E as ->.
    apply list_elem_of_singleton in Hc as ->. by vm_compute; lia.
Defined.

(** [DeleteRange] leaves the log keys when the range reaches the last index,
    and then deletes a key of the stable store whose eight bytes read as a number
    up to [max]. *)
Theorem DeleteRange_deletes_stable_key :
  let key := uint64ToBytes 2 in
  let db := three_logs 8 [key] in
  is_Some (snapshot db !! conf_key key) /\
  (DeleteRange 1 3 db).1 = Ret None /\
  snapshot (DeleteRange 1 3 db).2 !! conf_key key = None.
Proof. split_and!; [eexists|..]; by vm_compute. Qed.

(** When the transaction is full at a key of the stable store longer than
    eight bytes, [DeleteRange(2, 3)] starts again at index 0 and deletes log 1. *)
Theorem DeleteRange_restarts_below_min :
  let db := three_logs 1 [str "CurrentTerm"] in
  has_log (snapshot db) 1 /\
  (DeleteRange 2 3 db).1 = Ret None /\
  snapshot (DeleteRange 2 3 db).2 !! log_key 1 = None.
Proof. split_and!; [split; [by vm_compute|eexists]|..]; by vm_compute. Qed.

Lemma delete_range_again {DB} `{!Badger DB} n min max (db db' : DB) ws v :
  delete_loop db max (seek (log_key min) (snapshot db)) [] = LoopFull ws v ->
  commit db ws = (None, db') ->
  delete_range (S n) min max db = delete_range n v max db'.
Proof. simpl. by intros -> ->. Qed.

(** The stable keys alone, in transactions of one write. *)
Definition stuck : MemDB := MkMemDB (list_to_map
  ((fun c => (conf_key c, [])) <$> [str "CurrentTerm"; str "LastVoteTerm"])) 0.

Lemma stuck_again n : (delete_range n 0 3 stuck).1 = OutOfFuel.
Proof.
  induction n as [|n IH]; [done|].
  rewrite (delete_range_again n 0 3 stuck stuck [WDel (log_key 0)] 0); [done|by vm_compute..].
Qed.

(** And with two such keys that do not fit one transaction it never returns:
    every number of transactions is too few. *)
Theorem DeleteRange_may_not_return fuel :
  (delete_range fuel 1 3 (three_logs 0 [str "CurrentTerm"; str "LastVoteTerm"])).1 = OutOfFuel.
Proof.
  pose (stable := [str "CurrentTerm"; str "LastVoteTerm"]).
  pose (logs l := MkMemDB (list_to_map (((fun i => (log_key i, [])) <$> l) ++
    ((fun c => (conf_key c, [])) <$> stable))) 0).
  destruct fuel as [|fuel]; [done|].
  rewrite (delete_range_again fuel 1 3 _ (logs [2; 3]) [WDel (log_key 1)] 2); [|by vm_compute..].
  destruct fuel as [|fuel]; [done|].
  rewrite (delete_range_again fuel 2 3 _ (logs [3]) [WDel (log_key 2)] 3); [|by vm_compute..].
  destruct fuel as [|fuel]; [done|].
  rewrite (delete_range_again fuel 3 3 _ stuck [WDel (log_key 3)] 0); [|by vm_compute..].
  apply stuck_again.
Qed.
