(* ===== verification/RaftSpec.v ===== *)
(** What the raft store promises: a map of logs by index and a map of stable keys,
    and the proof that the store over badger (src/raft/badger_store.go) implements
    it. *)

From S2P Require Import Prelude GoBase Badger RaftUtil RaftStore RaftDelete.

Local Open Scope Z_scope.

(** * The abstract store *)

Section spec.
Context {Log : Type} (Index : Log -> Z) `{!MsgPack Log}.

Record astore := MkAStore { a_logs : gmap Z Log; a_conf : gmap bytes bytes }.

Definition add_log (a : astore) (l : Log) : astore :=
  MkAStore (<[Index l := l]> (a_logs a)) (a_conf a).
Definition add_logs (ls : list Log) (a : astore) : astore := foldl add_log a ls.
Definition set_conf (k v : bytes) (a : astore) : astore :=
  MkAStore (a_logs a) (<[k := v]> (a_conf a)).
Definition remove_logs (lo hi : Z) (a : astore) : astore :=
  MkAStore (filter (fun kv => ~ (lo <= kv.1 < hi)) (a_logs a)) (a_conf a).

(** The store's operations and their results. *)
Inductive op :=
| OpFirstIndex
| OpLastIndex
| OpGetLog (i : Z) (log : Log)
| OpStoreLog (log : Log)
| OpStoreLogs (logs : list Log)
| OpDeleteRange (min max : Z)
| OpSet (k v : bytes)
| OpGet (k : bytes)
| OpSetUint64 (k : bytes) (v : Z)
| OpGetUint64 (k : bytes).

Inductive result :=
| RIndex (r : outcome (Z * option error))
| RLog (r : Log * option error)
| RErr (r : outcome (option error))
| RVal (r : bytes * option error).

(** [least a i]: [i] is the first index; [greatest a i]: the last one, of those
    up to [last_visible]. *)
Definition least (a : astore) (i : Z) : Prop :=
  (is_Some (a_logs a !! i) /\ forall j, is_Some (a_logs a !! j) -> i <= j) \/
  (a_logs a = ∅ /\ i = 0).
Definition greatest (a : astore) (i : Z) : Prop :=
  (is_Some (a_logs a !! i) /\ i <= last_visible /\
     forall j, is_Some (a_logs a !! j) -> j <= last_visible -> j <= i) \/
  ((forall j, is_Some (a_logs a !! j) -> last_visible < j) /\ i = 0).

Definition conf_number (v : bytes) : outcome (Z * option error) :=
  match bytesToUint64 v with
  | Ret n => Ret (n, None)
  | Panic w => Panic w
  | Block => Block
  | OutOfFuel => OutOfFuel
  end.

(** The specification: [Env e] are the errors the environment may report.  A read
    gives what is stored or reports such an error; a write that fails leaves the
    store as it was, or, for [StoreLogs] and [DeleteRange], with the first logs
    stored or deleted. *)
Inductive spec (EnvErr : error -> Prop) (a : astore) : op -> result -> astore -> Prop :=
| SpecFirstIndex i : least a i -> spec EnvErr a OpFirstIndex (RIndex (Ret (i, None))) a
| SpecFirstIndexErr e : EnvErr e -> spec EnvErr a OpFirstIndex (RIndex (Ret (0, Some e))) a
| SpecLastIndex i : greatest a i -> spec EnvErr a OpLastIndex (RIndex (Ret (i, None))) a
| SpecLastIndexErr e : EnvErr e -> spec EnvErr a OpLastIndex (RIndex (Ret (0, Some e))) a
| SpecGetLog i old l : a_logs a !! i = Some l -> spec EnvErr a (OpGetLog i old) (RLog (l, None)) a
| SpecGetLogNone i old : a_logs a !! i = None ->
    spec EnvErr a (OpGetLog i old) (RLog (old, Some ErrLogNotFound)) a
| SpecGetLogErr i old e : EnvErr e -> spec EnvErr a (OpGetLog i old) (RLog (old, Some e)) a
| SpecStoreLog l : spec EnvErr a (OpStoreLog l) (RErr (Ret None)) (add_log a l)
| SpecStoreLogErr l e : spec EnvErr a (OpStoreLog l) (RErr (Ret (Some e))) a
| SpecStoreLogs ls : spec EnvErr a (OpStoreLogs ls) (RErr (Ret None)) (add_logs ls a)
| SpecStoreLogsErr pre rest e :
    spec EnvErr a (OpStoreLogs (pre ++ rest)) (RErr (Ret (Some e))) (add_logs pre a)
| SpecDeleteRange min max :
    spec EnvErr a (OpDeleteRange min max) (RErr (Ret None)) (remove_logs min (max + 1) a)
| SpecDeleteRangeErr min max hi e : min <= hi <= Z.max min (max + 1) ->
    spec EnvErr a (OpDeleteRange min max) (RErr (Ret (Some e))) (remove_logs min hi a)
| SpecSet k v : spec EnvErr a (OpSet k v) (RErr (Ret None)) (set_conf k v a)
| SpecSetErr k v e : spec EnvErr a (OpSet k v) (RErr (Ret (Some e))) a
| SpecGet k v : a_conf a !! k = Some v -> spec EnvErr a (OpGet k) (RVal (v, None)) a
| SpecGetNone k : a_conf a !! k = None -> spec EnvErr a (OpGet k) (RVal ([], Some ErrNotFound)) a
| SpecGetErr k e : EnvErr e -> spec EnvErr a (OpGet k) (RVal ([], Some e)) a
| SpecSetUint64 k n :
    spec EnvErr a (OpSetUint64 k n) (RErr (Ret None)) (set_conf k (uint64ToBytes n) a)
| SpecSetUint64Err k n e : spec EnvErr a (OpSetUint64 k n) (RErr (Ret (Some e))) a
| SpecGetUint64 k v : a_conf a !! k = Some v ->
    spec EnvErr a (OpGetUint64 k) (RIndex (conf_number v)) a
| SpecGetUint64None k : a_conf a !! k = None ->
    spec EnvErr a (OpGetUint64 k) (RIndex (Ret (0, Some ErrNotFound))) a
| SpecGetUint64Err k e : EnvErr e -> spec EnvErr a (OpGetUint64 k) (RIndex (Ret (0, Some e))) a.

Inductive spec_run (EnvErr : error -> Prop) : astore -> list op -> list result -> astore -> Prop :=
| SpecNil a : spec_run EnvErr a [] [] a
| SpecCons a o r a' os rs a'' :
    spec EnvErr a o r a' -> spec_run EnvErr a' os rs a'' ->
    spec_run EnvErr a (o :: os) (r :: rs) a''.

(** * The representation *)

Definition represents (m : gmap bytes bytes) (a : astore) : Prop :=
  wf m /\
  (forall i, is_Some (a_logs a !! i) -> uint64_range i) /\
  (forall i, uint64_range i ->
     match a_logs a !! i with
     | Some l => exists bs, encodeMsgPack l = (bs, None) /\ m !! log_key i = Some bs
     | None => m !! log_key i = None
     end) /\
  (forall c, m !! conf_key c = a_conf a !! c).

End spec.
Arguments astore : clear implicits.
Arguments op : clear implicits.
Arguments result : clear implicits.
Arguments spec {Log} Index EnvErr a o r a' : rename.

Section represents.
Context {Log : Type} (Index : Log -> Z) `{!MsgPack Log}.
Implicit Types (m : gmap bytes bytes) (a : astore Log).

Lemma represents_has m a i :
  represents m a -> has_log m i <-> is_Some (a_logs a !! i).
Proof.
  intros (_ & Hr & Hl & _). split.
  - intros [Hi [v Hv]]. specialize (Hl i Hi). destruct (a_logs a !! i); [by eexists|congruence].
  - intros Hs. split; [auto|]. specialize (Hl i (Hr i Hs)). destruct Hs as [l Hs].
    rewrite Hs in Hl. destruct Hl as (bs & _ & ->). by eexists.
Qed.

Lemma represents_add_log m a l bs :
  uint64_range (Index l) -> encodeMsgPack l = (bs, None) -> represents m a ->
  represents (<[log_key (Index l) := bs]> m) (add_log Index a l).
Proof.
  intros Hi He (Hwf & Hr & Hl & Hc). split_and!; simpl.
  - intros k. rewrite lookup_insert_is_Some. intros [<-|[_ Hk]]; [left; by eexists|auto].
  - intros i. rewrite lookup_insert_is_Some. intros [<-|[_ Hs]]; auto.
  - intros i Hri. destruct (decide (i = Index l)) as [->|Hne].
    + rewrite !lookup_insert_eq. by eexists.
    + rewrite (lookup_insert_ne (a_logs a)) by done.
      rewrite (lookup_insert_ne m) by (by intros E%log_key_inj). by apply Hl.
  - intros c. by rewrite lookup_insert_ne.
Qed.

Lemma represents_set_conf m a k v :
  represents m a -> represents (<[conf_key k := v]> m) (set_conf k v a).
Proof.
  intros (Hwf & Hr & Hl & Hc). split_and!; simpl.
  - intros k'. rewrite lookup_insert_is_Some. intros [<-|[_ Hk]]; [right; by eexists|auto].
  - done.
  - intros i Hi. rewrite lookup_insert_ne by done. by apply Hl.
  - intros c. destruct (decide (c = k)) as [->|Hne]; [by rewrite !lookup_insert_eq|].
    rewrite (lookup_insert_ne (a_conf a)) by done.
    rewrite (lookup_insert_ne m); [done|]. by intros E%(inj (app prefixConf)).
Qed.

Lemma represents_remove m a lo hi :
  represents m a -> represents (del_logs lo hi m) (remove_logs lo hi a).
Proof.
  intros (Hwf & Hr & Hl & Hc). split_and!; simpl.
  - by apply del_logs_wf.
  - intros i [l Hs]. apply map_lookup_filter_Some in Hs as [Hs _]. apply Hr. by eexists.
  - intros i Hi. rewrite del_logs_lookup, log_index_key by done. specialize (Hl i Hi).
    destruct (a_logs a !! i) as [l|] eqn:E; case_decide as Hd.
    + rewrite map_lookup_filter, E. simpl. by rewrite option_guard_False by tauto.
    + rewrite map_lookup_filter, E. simpl. by rewrite option_guard_True by done.
    + by rewrite map_lookup_filter, E.
    + by rewrite map_lookup_filter, E.
  - intros c. rewrite del_logs_lookup. apply Hc.
Qed.

Lemma remove_logs_max lo hi a : remove_logs lo (Z.max lo hi) a = remove_logs lo hi a.
Proof. unfold remove_logs. f_equal. apply map_filter_ext. intros i l _. simpl. lia. Qed.

End represents.

(** * The store over badger implements it *)

Section refinement.
Context {DB : Type} `{!Badger DB} `{!BadgerSpec DB}.
Context {Log : Type} (Index : Log -> Z) `{!MsgPack Log} `{!MsgPackSpec Log}.
Implicit Types (db : DB) (a : astore Log).

Definition env_err (e : error) : Prop :=
  exists db, db_err db = Some e \/ exists k, fault db k = Some e.

(** ** Storing logs *)

Definition encodable (l : Log) : Prop := exists bs, encodeMsgPack l = (bs, None).

Definition write_of (l : Log) : wr :=
  WSet (log_key (Index l)) (encodeMsgPack l).1.

Lemma represents_writes m a ls :
  Forall (fun l => uint64_range (Index l)) ls -> Forall encodable ls -> represents m a ->
  represents (apply_writes (write_of <$> ls) m) (add_logs Index ls a).
Proof.
  revert m a. induction ls as [|l ls IH]; intros m a Hr He Hm; [done|].
  apply Forall_cons in Hr as [Hl Hr]. apply Forall_cons in He as [[bs Hbs] He].
  apply IH; [done..|]. simpl. rewrite Hbs. by apply represents_add_log.
Qed.

Lemma store_loop_spec db ls ws :
  match store_loop Index db ls ws with
  | LoopDone ws' => ws' = ws ++ (write_of <$> ls) /\ Forall encodable ls
  | LoopFull ws' again => exists pre, ls = pre ++ again /\
      ws' = ws ++ (write_of <$> pre) /\ Forall encodable pre /\ (ws = [] -> pre <> [])
  | LoopFail _ => True
  end.
Proof.
  revert ws. induction ls as [|l ls IH]; intros ws; simpl.
  { by rewrite app_nil_r. }
  destruct (encodeMsgPack l) as [bs [e|]] eqn:He; [done|].
  assert (WSet (log_key (Index l)) bs = write_of l) as -> by (unfold write_of; by rewrite He).
  assert (encodable l) as Hl by (by exists bs).
  destruct (refuse db ws (write_of l)) as [e|] eqn:Hr.
  - destruct (is_too_big e) eqn:Hb; [|done]. exists []. simpl. rewrite app_nil_r.
    split_and!; [done|done|by constructor|]. intros ->. apply refuse_first in Hr. congruence.
  - specialize (IH (ws ++ [write_of l])). destruct (store_loop _ _ _ _); [..|done].
    + destruct IH as [-> ?]. rewrite <- app_assoc. split; [done|by constructor].
    + destruct IH as (pre & -> & -> & ? & _). exists (l :: pre). rewrite <- app_assoc.
      split_and!; [done|done|by constructor|done].
Qed.

(** [StoreLogs] returns; it has stored the logs in front of the one it failed at. *)
Lemma store_logs_spec fuel ls db :
  (length ls < fuel)%nat ->
  exists err pre rest, (store_logs Index fuel ls db).1 = Ret err /\ ls = pre ++ rest /\
    snapshot (store_logs Index fuel ls db).2 = apply_writes (write_of <$> pre) (snapshot db) /\
    Forall encodable pre /\ (err = None -> rest = []).
Proof.
  revert ls db. induction fuel as [|fuel IH]; intros ls db Hf; [lia|]. simpl.
  assert (forall e d, snapshot d = snapshot db -> exists err pre rest,
    Ret (A:=option error) (Some e) = Ret err /\ ls = pre ++ rest /\
    snapshot d = apply_writes (write_of <$> pre) (snapshot db) /\
    Forall encodable pre /\ (err = None -> rest = [])) as Hfail.
  { intros e d Hd. exists (Some e), [], ls. split_and!; [done|done|done|by constructor|done]. }
  pose proof (store_loop_spec db ls []) as Hl. simpl in Hl.
  destruct (store_loop _ _ _ _) as [ws|ws again|e].
  - destruct Hl as [-> He]. destruct (commit db _) as [[e|] db1] eqn:Hc; simpl.
    { by eapply Hfail, commit_none. }
    exists None, ls, []. rewrite app_nil_r, (commit_all _ _ _ (plain_fmap write_of _ (fun _ => I)) Hc). done.
  - destruct Hl as (pre & -> & -> & He & Hne). destruct (commit db _) as [[e|] db1] eqn:Hc; simpl.
    { by eapply Hfail, commit_none. }
    rewrite length_app in Hf. destruct pre as [|p pre]; [by destruct Hne|].
    destruct (IH again db1) as (err & pre' & rest & -> & -> & -> & He' & Hok); [simpl in *; lia|].
    exists err, ((p :: pre) ++ pre'), rest. rewrite (commit_all _ _ _ (plain_fmap write_of _ (fun _ => I)) Hc), fmap_app, apply_writes_app.
    split_and!; [done|by rewrite app_assoc|done|by apply Forall_app|done].
  - by apply Hfail.
Qed.

(** ** One operation *)

Definition step (o : op Log) (db : DB) : result Log * DB :=
  match o with
  | OpFirstIndex => (RIndex (FirstIndex db), db)
  | OpLastIndex => (RIndex (LastIndex db), db)
  | OpGetLog i old => (RLog (GetLog i old db), db)
  | OpStoreLog l => let '(e, db) := StoreLog Index l db in (RErr (Ret e), db)
  | OpStoreLogs ls => let '(r, db) := StoreLogs Index ls db in (RErr r, db)
  | OpDeleteRange lo hi => let '(r, db) := DeleteRange lo hi db in (RErr r, db)
  | OpSet k v => let '(e, db) := Set_ k v db in (RErr (Ret e), db)
  | OpGet k => (RVal (Get k db), db)
  | OpSetUint64 k n => let '(e, db) := SetUint64 k n db in (RErr (Ret e), db)
  | OpGetUint64 k => (RIndex (GetUint64 k db), db)
  end.

(** The indices are uint64 values, and [DeleteRange] stays within the logs. *)
Definition op_ok (o : op Log) (m : gmap bytes bytes) : Prop :=
  match o with
  | OpGetLog i _ => uint64_range i
  | OpStoreLog l => uint64_range (Index l)
  | OpStoreLogs ls => Forall (fun l => uint64_range (Index l)) ls
  | OpDeleteRange lo hi => uint64_range lo /\ stays lo hi m
  | _ => True
  end.

Lemma is_not_found_errors_is e : errors_is e "badger.ErrKeyNotFound" = false -> is_not_found e = false.
Proof. by destruct e. Qed.

Lemma represents_least m a i :
  represents m a ->
  (has_log m i /\ forall j, has_log m j -> i <= j) \/ ((forall j, ~ has_log m j) /\ i = 0) ->
  least a i.
Proof.
  intros Hm H. unfold least. destruct H as [[Hi Hj]|[Hn ->]]; [left|right].
  - rewrite <- (represents_has m) by done. split; [done|]. intros j Hs.
    apply Hj. by rewrite (represents_has m).
  - split; [|done]. apply map_eq. intros j. rewrite lookup_empty.
    apply eq_None_not_Some. rewrite <- (represents_has m) by done. apply Hn.
Qed.

Lemma FirstIndex_refines db a :
  represents (snapshot db) a -> spec Index env_err a OpFirstIndex (RIndex (FirstIndex db)) a.
Proof.
  intros Hm. destruct (db_err db) as [e|] eqn:He.
  { unfold FirstIndex, index_at. rewrite He. constructor. exists db. by left. }
  destruct (FirstIndex_spec db) as [(i & -> & H)|[-> H]]; [apply Hm|done|..];
    constructor; eapply represents_least; eauto.
Qed.

Lemma LastIndex_refines db a :
  represents (snapshot db) a -> spec Index env_err a OpLastIndex (RIndex (LastIndex db)) a.
Proof.
  intros Hm. destruct (db_err db) as [e|] eqn:He.
  { unfold LastIndex, index_at. rewrite He. constructor. exists db. by left. }
  destruct (LastIndex_spec db) as [(i & -> & Hi & Hv & Hj)|[-> Hj]]; [apply Hm|done|..];
    constructor; [left|right].
  - rewrite <- (represents_has (snapshot db)) by done. split_and!; [done..|]. intros j Hs.
    apply Hj. by rewrite (represents_has (snapshot db)).
  - split; [|done]. intros j Hs. apply Hj. by rewrite (represents_has (snapshot db)).
Qed.

Lemma GetLog_refines db a i old :
  uint64_range i -> represents (snapshot db) a ->
  spec Index env_err a (OpGetLog i old) (RLog (GetLog i old db)) a.
Proof.
  intros Hi (_ & _ & Hl & _). unfold GetLog. destruct (db_err db) as [e|] eqn:He.
  { apply SpecGetLogErr. exists db. by left. }
  specialize (Hl i Hi). destruct (txn_get_cases db (log_key i)) as [Hg|(e & -> & Hf & Ho)].
  - destruct (a_logs a !! i) as [l|] eqn:E.
    + destruct Hl as (bs & Hbs & Hm). rewrite Hm in Hg. rewrite Hg.
      rewrite (decode_encode _ old _ Hbs). by apply SpecGetLog.
    + rewrite Hl in Hg. rewrite Hg. by apply SpecGetLogNone.
  - rewrite (is_not_found_errors_is _ Ho). apply SpecGetLogErr. exists db. right. by exists (log_key i).
Qed.

Lemma Get_refines db a k :
  represents (snapshot db) a ->
  (exists v, a_conf a !! k = Some v /\ Get k db = (v, None)) \/
  (a_conf a !! k = None /\ Get k db = ([], Some ErrNotFound)) \/
  (exists e, env_err e /\ Get k db = ([], Some e)).
Proof.
  intros (_ & _ & _ & Hc). unfold Get. destruct (db_err db) as [e|] eqn:He.
  { right; right. exists e. split; [|done]. exists db. by left. }
  specialize (Hc k). destruct (txn_get_cases db (conf_key k)) as [Hg|(e & -> & Hf & Ho)].
  - rewrite Hc in Hg. destruct (a_conf a !! k) as [v|]; rewrite Hg; eauto.
  - rewrite (is_not_found_errors_is _ Ho). right; right. exists e. split; [|done].
    exists db. right. by exists (conf_key k).
Qed.

Lemma Set_refines db a k v :
  represents (snapshot db) a ->
  represents (snapshot (Set_ k v db).2)
    (match (Set_ k v db).1 with None => set_conf k v a | Some _ => a end).
Proof.
  intros Hm. destruct (Set_ k v db) as [err db'] eqn:E. apply Update_one in E; [|done]. simpl.
  rewrite E. destruct err; [done|]. by apply represents_set_conf.
Qed.

(** One operation of the store is one of the specification. *)
Lemma step_refines o db a :
  op_ok o (snapshot db) -> represents (snapshot db) a ->
  exists a', spec Index env_err a o (step o db).1 a' /\ represents (snapshot (step o db).2) a'.
Proof.
  intros Hok Hm. destruct o as [| |i old|l|ls|lo hi|k v|k|k n|k]; simpl in *.
  - exists a. split; [by apply FirstIndex_refines|done].
  - exists a. split; [by apply LastIndex_refines|done].
  - exists a. split; [by apply GetLog_refines|done].
  - unfold StoreLog. destruct (encodeMsgPack l) as [bs [e|]] eqn:He.
    { exists a. split; [constructor|done]. }
    destruct (Update db _) as [err db'] eqn:E. apply Update_one in E; [|done]. simpl. rewrite E.
    destruct err; [exists a; split; [constructor|done]|].
    exists (add_log Index a l). split; [constructor|]. by apply represents_add_log.
  - unfold StoreLogs. destruct (store_logs_spec (S (length ls)) ls db)
      as (err & pre & rest & Hr & -> & Hs & He & Hnone); [lia|].
    destruct (store_logs _ _ _ _) as [r db']. simpl in *. subst r. rewrite Hs.
    apply Forall_app in Hok as [Hok _]. exists (add_logs Index pre a).
    split; [|by apply represents_writes].
    destruct err; [constructor|]. rewrite (Hnone eq_refl), app_nil_r. constructor.
  - destruct Hok as [Hlo Hst]. unfold DeleteRange.
    pose proof (delete_range_spec (S (size (snapshot db))) lo hi db) as Hd.
    destruct Hd as (err & h & Hr & Hs & Hh & Hnone); [lia|apply Hm|done..|].
    destruct (delete_range _ _ _ _) as [r db']. simpl in *. subst r. rewrite Hs.
    exists (remove_logs lo h a). split; [|by apply represents_remove].
    destruct err; [by constructor|]. rewrite (Hnone eq_refl), remove_logs_max. constructor.
  - pose proof (Set_refines db a k v Hm) as Hs. destruct (Set_ k v db) as [[e|] db'];
      eexists; (split; [constructor|done]).
  - exists a. split; [|done].
    destruct (Get_refines db a k Hm) as [(v & Hv & ->)|[[Hv ->]|(e & He & ->)]]; by constructor.
  - pose proof (Set_refines db a k (uint64ToBytes n) Hm) as Hs. unfold SetUint64.
    destruct (Set_ k _ db) as [[e|] db']; eexists; (split; [constructor|done]).
  - exists a. split; [|done]. unfold GetUint64.
    destruct (Get_refines db a k Hm) as [(v & Hv & ->)|[[Hv ->]|(e & He & ->)]]; by constructor.
Qed.

(** ** Sequences of operations *)

Fixpoint run (os : list (op Log)) (db : DB) : list (result Log) * DB :=
  match os with
  | [] => ([], db)
  | o :: os =>
      let '(r, db) := step o db in
      let '(rs, db) := run os db in (r :: rs, db)
  end.

Fixpoint run_ok (os : list (op Log)) (db : DB) : Prop :=
  match os with
  | [] => True
  | o :: os => op_ok o (snapshot db) /\ run_ok os (step o db).2
  end.

(** C4: the badger store refines the abstract store of logs and stable keys: for every
    sequence of operations in which the iteration of each [DeleteRange] stays within the
    log keys ([run_ok]), the results, errors of the environment included, are results
    the specification allows, in an order in which the abstract store makes the same
    steps, and the final contents represent the final abstract store. In particular
    every operation returns, a stored log or value is the one read back, the two key
    spaces do not interfere, and a failed [StoreLogs] or [DeleteRange] has done a front
    part of its work. Of a [DeleteRange] that runs into the stable keys this does not
    hold ([DeleteRange_deletes_stable_key], [DeleteRange_restarts_below_min]). *)
Theorem store_refines os db a :
  represents (snapshot db) a -> run_ok os db ->
  exists a', spec_run Index env_err a os (run os db).1 a' /\ represents (snapshot (run os db).2) a'.
Proof.
  revert db a. induction os as [|o os IH]; intros db a Hm Hok.
  { exists a. split; [constructor|done]. }
  destruct Hok as [Ho Hok]. destruct (step_refines o db a Ho Hm) as (a1 & H1 & Hm1).
  simpl. destruct (step o db) as [r db1]. simpl in *.
  destruct (IH db1 a1 Hm1 Hok) as (a' & Hs & Hm'). destruct (run os db1) as [rs db'].
  exists a'. split; [by econstructor|done].
Qed.

(** C20: [StoreLogs] stores every log, in as many transactions as it takes, or
    reports an error and has stored a front part of the list; a log read back
    after that is the last one stored under its index. *)
Theorem StoreLogs_then_GetLog db a ls i old :
  represents (snapshot db) a -> Forall (fun l => uint64_range (Index l)) ls -> uint64_range i ->
  db_err (StoreLogs Index ls db).2 = None ->
  fault (StoreLogs Index ls db).2 (log_key i) = None ->
  exists err pre rest,
    (StoreLogs Index ls db).1 = Ret err /\ ls = pre ++ rest /\ (err = None -> rest = []) /\
    GetLog i old (StoreLogs Index ls db).2 =
      match a_logs (add_logs Index pre a) !! i with
      | Some l => (l, None)
      | None => (old, Some ErrLogNotFound)
      end.
Proof.
  intros Hm Hls Hi Hdb Hf. unfold StoreLogs in *.
  destruct (store_logs_spec (S (length ls)) ls db)
    as (err & pre & rest & Hr & E & Hs & He & Hnone); [lia|].
  exists err, pre, rest. split_and!; [done..|].
  destruct (store_logs _ _ _ _) as [r db']. simpl in *. rewrite E in Hls.
  apply Forall_app in Hls as [Hls _].
  pose proof (represents_writes _ _ _ Hls He Hm) as Hm'. rewrite <- Hs in Hm'.
  destruct Hm' as (_ & _ & Hl & _). specialize (Hl i Hi).
  unfold GetLog, txn_get. rewrite Hdb, Hf.
  destruct (a_logs (add_logs Index pre a) !! i) as [l|].
  - destruct Hl as (bs & Hbs & ->). by apply decode_encode.
  - by rewrite Hl.
Qed.

End refinement.

(** * Concrete runs *)

Lemma represents_empty : represents (∅ : gmap bytes bytes) (MkAStore ∅ ∅ : astore entry).
Proof.
  split_and!; simpl.
  - intros k. rewrite lookup_empty. by intros [].
  - intros i. rewrite lookup_empty. by intros [].
  - intros i _. by rewrite !lookup_empty.
  - done.
Qed.

Definition empty_store : MemDB := MkMemDB ∅ 1.

Definition entries : list entry := (fun i => MkEntry i (str "x")) <$> [1; 2; 3; 4; 5].

Definition sample_ops : list (op entry) :=
  [OpStoreLogs entries; OpSetUint64 (str "CurrentTerm") 7; OpDeleteRange 1 3; OpLastIndex].

Definition sample_results : list (result entry) :=
  [RErr (Ret None); RErr (Ret None); RErr (Ret None); RIndex (Ret (5, None))].

Lemma store_refines_witness :
  exists a',
    spec_run entry_index (env_err (DB := MemDB)) (MkAStore ∅ ∅) sample_ops sample_results a' /\
    represents (snapshot (run entry_index sample_ops empty_store).2) a'.
Proof.
  assert (sample_results = (run entry_index sample_ops empty_store).1) as -> by by vm_compute.
  apply (store_refines entry_index sample_ops empty_store (MkAStore ∅ ∅)); [apply represents_empty|].
  refine (conj _ (conj I (conj (conj _ _) (conj I I)))).
  - repeat constructor; by vm_compute.
  - by vm_compute.
  - left. exists 4. split_and!; [split; [by vm_compute|eexists; by vm_compute]|lia..].
Defined.

Lemma StoreLogs_then_GetLog_witness :
  exists err pre rest,
    (StoreLogs entry_index entries empty_store).1 = Ret err /\ entries = pre ++ rest /\
    (err = None -> rest = []) /\
    GetLog 3 (MkEntry 0 []) (StoreLogs entry_index entries empty_store).2 =
      match a_logs (add_logs entry_index pre (MkAStore ∅ ∅)) !! 3 with
      | Some l => (l, None)
      | None => (MkEntry 0 [], Some ErrLogNotFound)
      end.
Proof.
  apply (StoreLogs_then_GetLog entry_index empty_store (MkAStore ∅ ∅) entries 3 (MkEntry 0 []));
    [apply represents_empty|repeat constructor; by vm_compute|by vm_compute|by vm_compute|by vm_compute].
Defined.
