(* ===== verification/RaftGC.v ===== *)
(** The life of a raft store around its operations (src/raft/badger_store.go): its
    options, opening it, the garbage collection of the value log, and closing it. *)

From S2P Require Import Prelude GoBase.

(** * Options *)

(** [badger.Options], as far as the file uses it. *)
Record BadgerOptions := MkBadgerOptions { bo_Dir : bytes; bo_SyncWrites : bool }.

(** [type Options struct]; durations are nanoseconds. *)
Record Options := MkOptions {
  op_Path : bytes;
  op_BadgerOptions : option BadgerOptions;
  op_NoSync : bool;
  op_ValueLogGC : bool;
  op_GCInterval : Z;
  op_MandatoryGCInterval : Z;
  op_GCThreshold : Z;
}.

Definition Minute : Z := 60 * 1000000000.

(** [if x = dflt; option != 0 { x = option }]. *)
Definition or_default (dflt option : Z) : Z := if (option =? 0)%Z then dflt else option.

(** The tickers and the threshold of the garbage collection, [None] when it is off. *)
Record gc_config := GcConfig { gc_interval : Z; gc_mandatory : Z; gc_threshold : Z }.

Definition gc_config_of (o : Options) : option gc_config :=
  if op_ValueLogGC o
  then Some (GcConfig (or_default (1 * Minute) (op_GCInterval o))
                      (or_default (10 * Minute) (op_MandatoryGCInterval o))
                      (or_default (2 ^ 30) (op_GCThreshold o)))
  else None.

(** * The value log of the database *)

(** The size of the value log, and one run of its garbage collection, which reports an
    error when it rewrote nothing. *)
Class VlogDB (D : Type) := {
  vlog_size : D -> Z;
  RunValueLogGC : D -> option error * D;
}.

(** [type BadgerStore struct]: the tickers are set and running, or not set. *)
Record BadgerStore (D : Type) := MkBadgerStore {
  bs_conn : D;
  bs_path : bytes;
  bs_vlogTicker : option bool;
  bs_mandatoryVlogTicker : option bool;
}.
Arguments MkBadgerStore {D}.
Arguments bs_conn {D}.
Arguments bs_path {D}.
Arguments bs_vlogTicker {D}.
Arguments bs_mandatoryVlogTicker {D}.

Section store.
Context {D : Type} `{!VlogDB D}.
Context (DefaultOptions : bytes -> BadgerOptions) (open : BadgerOptions -> D + error).

(** [New]: the store, the garbage collector it starts, and what the caller's badger
    options point to afterwards, since [SyncWrites] is set through the pointer. *)
Definition New (options : Options)
  : ((BadgerStore D * option gc_config) + error) * option BadgerOptions :=
  let given := default (DefaultOptions (op_Path options)) (op_BadgerOptions options) in
  let used := MkBadgerOptions (bo_Dir given) (negb (op_NoSync options)) in
  let callers := match op_BadgerOptions options with Some _ => Some used | None => None end in
  match open used with
  | inr err => (inr err, callers)
  | inl handle =>
      match gc_config_of options with
      | Some g => (inl (MkBadgerStore handle (op_Path options) (Some true) (Some true), Some g), callers)
      | None => (inl (MkBadgerStore handle (op_Path options) None None, None), callers)
      end
  end.

Definition NewBadgerStore (path : bytes) : ((BadgerStore D * option gc_config) + error) * option BadgerOptions :=
  New (MkOptions path None false false 0 0 0).

(** [Close]: the tickers are stopped; the goroutine that waits for them is not told. *)
Definition Close (close : D -> option error) (b : BadgerStore D) : option error * BadgerStore D :=
  (close (bs_conn b),
   MkBadgerStore (bs_conn b) (bs_path b) ((fun _ => false) <$> bs_vlogTicker b)
     ((fun _ => false) <$> bs_mandatoryVlogTicker b)).

(** * [runVlogGC] *)

(** [runGC]: the loop that repeats a successful run; the database then, and its size as
    [lastVlogSize]. *)
Fixpoint gc_loop (fuel : nat) (d : D) : outcome D :=
  match fuel with
  | O => OutOfFuel
  | S fuel =>
      match RunValueLogGC d with
      | (None, d) => gc_loop fuel d
      | (Some _, d) => Ret d
      end
  end.

(** The state of the goroutine: the database, [lastVlogSize], and how often [runGC] has
    been called. *)
Record collector := Collector { co_db : D; co_last : Z; co_runs : nat }.

Definition runGC (fuel : nat) (c : collector) : outcome collector :=
  match gc_loop fuel (co_db c) with
  | Ret d => Ret (Collector d (vlog_size d) (S (co_runs c)))
  | Panic w => Panic w
  | Block => Block
  | OutOfFuel => OutOfFuel
  end.

(** What arrives: a tick of either ticker, or, between them, the database changes. *)
Inductive tick := VlogTick | MandatoryTick | Changed (d : D).

Definition gc_step (fuel : nat) (threshold : Z) (t : tick) (c : collector) : outcome collector :=
  match t with
  | VlogTick =>
      if (vlog_size (co_db c) <? wrap64 (co_last c + threshold))%Z then Ret c else runGC fuel c
  | MandatoryTick => runGC fuel c
  | Changed d => Ret (Collector d (co_last c) (co_runs c))
  end.

Fixpoint gc_run (fuel : nat) (threshold : Z) (ts : list tick) (c : collector) : outcome collector :=
  match ts with
  | [] => Ret c
  | t :: ts =>
      match gc_step fuel threshold t c with
      | Ret c => gc_run fuel threshold ts c
      | r => r
      end
  end.

(** The goroutine starts with the size the value log has. *)
Definition runVlogGC (fuel : nat) (d : D) (threshold : Z) (ts : list tick) : outcome collector :=
  gc_run fuel threshold ts (Collector d (vlog_size d) 0).

(** [collects n d d']: run again and again on [d], the collection succeeds [n] times and
    then fails, leaving [d']. *)
Inductive collects : nat -> D -> D -> Prop :=
| collects_stop d e d' : RunValueLogGC d = (Some e, d') -> collects 0 d d'
| collects_next n d d1 d' : RunValueLogGC d = (None, d1) -> collects n d1 d' -> collects (S n) d d'.

Lemma gc_loop_spec fuel d d' :
  gc_loop fuel d = Ret d' <-> exists n, n < fuel /\ collects n d d'.
Proof.
  revert d. induction fuel as [|fuel IH]; intros d; simpl.
  { split; [done|]. intros (n & Hn & _). lia. }
  destruct (RunValueLogGC d) as [[e|] d1] eqn:E.
  - split.
    + intros [= <-]. exists 0. split; [lia|by econstructor].
    + intros (n & _ & Hc). inversion Hc; subst; congruence.
  - rewrite IH. split.
    + intros (n & Hn & Hc). exists (S n). split; [lia|by econstructor].
    + intros (n & Hn & Hc). inversion Hc as [|k ? d2 ? E2 Hk]; subst; [congruence|].
      rewrite E in E2. injection E2 as <-. exists k. split; [lia|done].
Qed.

Lemma runGC_spec fuel c c' :
  runGC fuel c = Ret c' <->
  (exists n, n < fuel /\ collects n (co_db c) (co_db c')) /\
  co_last c' = vlog_size (co_db c') /\ co_runs c' = S (co_runs c).
Proof.
  unfold runGC. destruct (gc_loop fuel (co_db c)) as [d|w| |] eqn:E.
  - split.
    + intros [= <-]. simpl. split_and!; [by apply gc_loop_spec|done..].
    + intros (Hn & Hl & Hr). apply gc_loop_spec in Hn. rewrite E in Hn. injection Hn as ->.
      destruct c' as [d' l r]. simpl in *. by subst.
  - split; [done|]. intros (Hn & _). apply gc_loop_spec in Hn. by rewrite E in Hn.
  - split; [done|]. intros (Hn & _). apply gc_loop_spec in Hn. by rewrite E in Hn.
  - split; [done|]. intros (Hn & _). apply gc_loop_spec in Hn. by rewrite E in Hn.
Qed.

(** When a tick makes the collector run. *)
Definition due (threshold : Z) (t : tick) (c : collector) : Prop :=
  t = MandatoryTick \/
  (t = VlogTick /\ (wrap64 (co_last c + threshold) <= vlog_size (co_db c))%Z).

End store.
Arguments tick : clear implicits.
Arguments collector : clear implicits.

(** * Properties *)

(** C34: the garbage collector runs when it should and as long as it should.  A tick is due
    when it is the mandatory one, or when the value log has grown by the threshold since
    the last run or the start, the sum taken in 64 bits; a tick that is not due changes
    nothing.  A due tick repeats the collection until it fails for the first time, and
    records the size the value log then has; the collector is back at its tickers exactly
    if the collection does fail at some point.  When it is, and the threshold is positive
    and the sum does not overflow, the value log is smaller than the recorded size plus
    the threshold. *)
Theorem gc_step_runs {D} `{!VlogDB D} (threshold : Z) (fuel : nat) (t : tick D) (c : collector D) :
  (forall d, t <> Changed d) ->
  (~ due threshold t c -> gc_step fuel threshold t c = Ret c) /\
  (due threshold t c -> forall c', gc_step fuel threshold t c = Ret c' <->
     (exists n, n < fuel /\ collects n (co_db c) (co_db c')) /\
     co_last c' = vlog_size (co_db c') /\ co_runs c' = S (co_runs c)) /\
  (forall c', gc_step fuel threshold t c = Ret c' ->
     (0 < threshold)%Z -> int64_range (co_last c + threshold) ->
     (vlog_size (co_db c') < co_last c' + threshold)%Z).
Proof.
  intros Hn. unfold due. destruct t as [| |d]; [| |by destruct (Hn d)]; cbn [gc_step].
  - destruct (Z.ltb_spec (vlog_size (co_db c)) (wrap64 (co_last c + threshold))) as [Hlt|Hge].
    + split_and!; [done|intros [|[_ ?]]; [done|lia]|]. intros c' [= <-] _ Hr. by rewrite wrap64_small in Hlt.
    + split_and!; [intros []; by right|intros _ c'; apply runGC_spec|].
      intros c' (_ & -> & _)%runGC_spec ? _. lia.
  - split_and!; [intros []; by left|intros _ c'; apply runGC_spec|].
    intros c' (_ & -> & _)%runGC_spec ? _. lia.
Qed.

(** A database whose value log is a list of files, of which those marked can be
    collected. *)
#[local] Instance file_db : VlogDB (list (Z * bool)) := {|
  vlog_size fs := foldr (fun f n => (f.1 + n)%Z) 0%Z fs;
  RunValueLogGC fs :=
    match list_find (fun f => f.2 = true) fs with
    | Some (i, _) => (None, delete i fs)
    | None => (Some (Sentinel "badger.ErrNoRewrite"), fs)
    end;
|}.

Definition grown : collector (list (Z * bool)) :=
  Collector [(600%Z, true); (500%Z, false); (700%Z, true)] 700 0.

(** Two files are collected, and the third run fails. *)
Lemma gc_step_runs_witness :
  gc_step 5 1000 VlogTick grown = Ret (Collector [(500%Z, false)] 500 1) /\
  (vlog_size (co_db (Collector [(500%Z, false)] 500 1)) < 1500)%Z.
Proof.
  destruct (gc_step_runs 1000 5 VlogTick grown) as (_ & Hdue & Hb); [done|].
  assert (gc_step 5 1000 VlogTick grown = Ret (Collector [(500%Z, false)] 500 1)) as E.
  { apply Hdue; [right; by split; [|vm_compute]|]. split_and!; [|done..]. exists 2. split; [lia|].
    eapply collects_next; [reflexivity|]. eapply collects_next; [reflexivity|].
    eapply collects_stop. reflexivity. }
  split; [exact E|]. by apply (Hb _ E).
Defined.

Example gc_collects : gc_step 5 1000 VlogTick grown = Ret (Collector [(500%Z, false)] 500 1).
Proof. reflexivity. Qed.

(** A threshold close to the greatest int64 overflows: every tick collects. *)
Example threshold_overflow :
  gc_step 5 max_int64 VlogTick (Collector [(10%Z, false)] 10 0) = Ret (Collector [(10%Z, false)] 10 1).
Proof. reflexivity. Qed.

(** Opening with the defaults: writes are synchronous and no garbage is collected. *)
Lemma NewBadgerStore_defaults {D} (dflt : bytes -> BadgerOptions) (open : BadgerOptions -> D + error) path d :
  open (MkBadgerOptions (bo_Dir (dflt path)) true) = inl d ->
  NewBadgerStore dflt open path = (inl (MkBadgerStore d path None None, None), None).
Proof. intros E. unfold NewBadgerStore, New. simpl. by rewrite E. Qed.

(** The caller's own choice of [SyncWrites] is overwritten in the caller's options. *)
Lemma New_overwrites_sync {D} (dflt : bytes -> BadgerOptions) (open : BadgerOptions -> D + error) o b :
  op_BadgerOptions o = Some b ->
  (New dflt open o).2 = Some (MkBadgerOptions (bo_Dir b) (negb (op_NoSync o))).
Proof. intros E. unfold New. rewrite E. simpl. by repeat case_match. Qed.
