(* ===== verification/RaftFSM.v ===== *)
(** The raft appender and its finite-state machine (src/raft/appender.go): applying a
    committed log entry to redis over a pooled connection, and setting raft up. *)

From S2P Require Import Prelude GoBase GoStrconv GoIO Bufio Kind Message Decoder Encoder Wire Conn.
From S2P Require Import Transactor RaftGC.

(** * The pool

    The connections of a pool with the state puddle keeps of each.  Which connection
    [Acquire] hands out, and what [Release] and [Destroy] do to a resource in which
    state, is puddle's. *)

Inductive resource_status := Idle | Acquired | Destroyed.

#[global] Instance resource_status_eq_dec : EqDecision resource_status.
Proof. solve_decision. Defined.

Abbreviation pool W := (list (Conn W * resource_status)).

Class Puddle (W : Type) := {
  acquire : pool W -> nat + error;
  release_to : resource_status -> outcome resource_status;
  destroy_to : resource_status -> outcome resource_status;
}.

(** [Acquire] hands out an idle connection, [Release] of an acquired one makes it idle
    again, and [Destroy] of an acquired one destroys it.  After either the resource must
    not be used; what they do to one that is not acquired is left open. *)
Class PuddleSpec (W : Type) `{!Puddle W} : Prop := {
  acquire_idle p i : acquire p = inl i -> exists c, p !! i = Some (c, Idle);
  release_acquired : release_to Acquired = Ret Idle;
  destroy_acquired : destroy_to Acquired = Ret Destroyed;
}.


Section fsm.
Context `{!FloatConv} {W : Type} `{!IoWriter W, !Puddle W}.









(** [RedisFSM.Restore]. *)
Definition Restore {S} : M S (option error) := panic "implement me".

(** * Properties *)

Context `{!IoWriterSpec W, !PuddleSpec W}.






End fsm.


(** * Snapshots *)

(** [type fsmSnapshot struct] and its methods. *)
Record fsmSnapshot (Sink S : Type) := MkFsmSnapshot {
  fs_persist : Sink -> M S (option error);
  fs_release : M S unit;
}.
Arguments MkFsmSnapshot {Sink S}.
Arguments fs_persist {Sink S}.
Arguments fs_release {Sink S}.

Definition Persist {Sink S} (f : fsmSnapshot Sink S) (sink : Sink) : M S (option error) := fs_persist f sink.
Definition Release_snapshot {Sink S} (f : fsmSnapshot Sink S) : M S unit := fs_release f.

(** * [Open] *)

(** [type Appender struct], without the pool and what [Open] does not use; [R] is the
    type of raft instances. *)
Record Appender (R : Type) := MkAppender {
  ap_path : bytes;
  ap_RaftBind : bytes;
  ap_RaftDir : bytes;
  ap_RetainSnapshotCount : Z;
  ap_raft : option R;
}.
Arguments MkAppender {R}.
Arguments ap_path {R}.
Arguments ap_RaftBind {R}.
Arguments ap_RaftDir {R}.
Arguments ap_RetainSnapshotCount {R}.
Arguments ap_raft {R}.

(** [type RedisFSM struct]; whether the context is set, and the configuration if it
    is. *)
Record RedisFSM (W : Type) := MkRedisFSM {
  rf_pool : pool W;
  rf_ctx : bool;
  rf_conf : option Conf;
}.
Arguments MkRedisFSM {W}.
Arguments rf_pool {W}.
Arguments rf_ctx {W}.
Arguments rf_conf {W}.

(** The calls [Open] makes into the network library, hashicorp's raft and badger:
    addresses, transports, snapshot stores, databases and raft instances are theirs. *)
Class RaftLib (W A T N D R : Type) := {
  ResolveTCPAddr : bytes -> A + error;
  NewTCPTransport : bytes -> A -> Z -> Z -> T + error;
  NewFileSnapshotStore : bytes -> Z -> N + error;
  badger_DefaultOptions : bytes -> BadgerOptions;
  badger_Open : BadgerOptions -> D + error;
  NewRaft : bytes -> RedisFSM W -> BadgerStore D -> BadgerStore D -> N -> T -> R + error;
  LocalAddr : T -> bytes;
}.

Section open.
Context {W A T N D R : Type} `{!RaftLib W A T N D R}.

Definition second : Z := 1000000000.

(** [&RedisFSM{}]. *)
Definition empty_fsm : RedisFSM W := MkRedisFSM [] false None.

(** The error, the appender afterwards, and the servers of the configuration with which
    the cluster is bootstrapped, if it is; the error of that call is dropped. *)
Definition Open (s : Appender R) (enableSingle : bool) (localID : bytes)
  : option error * Appender R * option (list (bytes * bytes)) :=
  match ResolveTCPAddr (ap_RaftBind s) with
  | inr err => (Some err, s, None)
  | inl addr =>
  match NewTCPTransport (ap_RaftBind s) addr 3 (10 * second) with
  | inr err => (Some err, s, None)
  | inl transport =>
  match NewFileSnapshotStore (ap_RaftDir s) (ap_RetainSnapshotCount s) with
  | inr _ => (Some (Errorf "file snapshot store: %s" []), s, None)
  | inl snapshots =>
  match (NewBadgerStore badger_DefaultOptions badger_Open (ap_path s)).1 with
  | inr err => (Some err, s, None)
  | inl (store, _) =>
  match NewRaft localID empty_fsm store store snapshots transport with
  | inr _ => (Some (Errorf "new raft: %s" []), s, None)
  | inl ra =>
      (None,
       MkAppender (ap_path s) (ap_RaftBind s) (ap_RaftDir s) (ap_RetainSnapshotCount s) (Some ra),
       if enableSingle then Some [(localID, LocalAddr transport)] else None)
  end end end end end.

(** [Open] sets the raft instance exactly when it returns nil, and bootstraps a cluster
    only then and on request, with this server as its only member.  Raft gets a machine
    without a pool, and one badger store, opened with synchronous writes and without
    garbage collection, for its log and its stable values.  A store that was opened
    before [NewRaft] failed is not closed. *)
Theorem Open_all_or_error (s : Appender R) (enableSingle : bool) (localID : bytes) err s' boot :
  Open s enableSingle localID = (err, s', boot) ->
  match err with
  | Some _ => s' = s /\ boot = None
  | None =>
      exists addr transport snapshots d ra,
        ResolveTCPAddr (ap_RaftBind s) = inl addr /\
        NewTCPTransport (ap_RaftBind s) addr 3 (10 * second) = inl transport /\
        NewFileSnapshotStore (ap_RaftDir s) (ap_RetainSnapshotCount s) = inl snapshots /\
        badger_Open (MkBadgerOptions (bo_Dir (badger_DefaultOptions (ap_path s))) true) = inl d /\
        (let store := MkBadgerStore d (ap_path s) None None in
         NewRaft localID (MkRedisFSM [] false None) store store snapshots transport = inl ra) /\
        ap_raft s' = Some ra /\
        boot = if enableSingle then Some [(localID, LocalAddr transport)] else None
  end.
Proof.
  unfold Open, NewBadgerStore, New. cbn [op_Path op_BadgerOptions op_NoSync gc_config_of default negb].
  intros E. destruct (badger_Open _) as [d|e] eqn:Ed; repeat case_match; simpl in *; simplify_eq; try by split.
  all: do 5 eexists; by split_and!.
Qed.

End open.

(** * A concrete pool *)

#[local] Existing Instance zero_floats.

#[local] Instance simple_pool : Puddle Buffer := {|
  acquire p := match list_find (fun cs => cs.2 = Idle) p with Some (i, _) => inl i | None => inr EOF end;
  release_to s := match s with Acquired => Ret Idle | _ => Panic "tried to release resource that is not acquired" end;
  destroy_to s := match s with Acquired => Ret Destroyed | _ => Panic "tried to destroy resource that is not acquired" end;
|}.

#[local] Instance simple_pool_spec : PuddleSpec Buffer.
Proof.
  split; [|done|done]. intros p i. simpl.
  destruct (list_find (fun cs => cs.2 = Idle) p) as [[j [c s]]|] eqn:E; [|done]. intros [= <-].
  apply list_find_Some in E as (Hj & Hs & _). simpl in Hs. subst s. by exists c.
Qed.


