(* ===== verification/Valkey.v ===== *)
(** The valkey process (src/valkey/valkey.go): starting and stopping a server. *)

From S2P Require Import Prelude GoBase.

(** * Processes, as [os/exec] sees them

    A command that was not started, a running process, one that has exited (by itself
    with or without success, or killed) and has not been waited for, and one that has. *)

Inductive process := NotStarted | Running | Exited (success : bool) | Reaped.

Definition ErrProcessDone : error := Sentinel "os.ErrProcessDone".
Definition ErrNotStarted : error := Sentinel "exec: not started".
Definition ErrWaitCalled : error := Sentinel "exec: Wait was already called".
Definition ExitError : error := Sentinel "exec.ExitError".

(** [cmd.Cancel()]: for a command made with a context it kills the process; a command
    that was not started has none. *)
Definition Cancel (p : process) : outcome (option error) * process :=
  match p with
  | NotStarted => (Panic nil_deref, p)
  | Running => (Ret None, Exited false)
  | Exited s => (Ret None, Exited s)
  | Reaped => (Ret (Some ErrProcessDone), Reaped)
  end.

(** [cmd.Wait()]. *)
Definition Wait (p : process) : outcome (option error) * process :=
  match p with
  | NotStarted => (Ret (Some ErrNotStarted), p)
  | Running => (Block, p)
  | Exited true => (Ret None, Reaped)
  | Exited false => (Ret (Some ExitError), Reaped)
  | Reaped => (Ret (Some ErrWaitCalled), Reaped)
  end.

(** * [Valkey] *)

(** The commands made so far with their arguments, and the one the pointer holds. *)
Record Valkey := MkValkey {
  vk_RedisAddress : bytes;
  vk_procs : list (list bytes * process);
  vk_cmd : option nat;
}.

Definition valkey_args (v : Valkey) : list bytes :=
  [str "valkey-server"; str "--save=" ++ [x22; x22]; str "--port=" ++ vk_RedisAddress v].

Definition GetRedisAddress (v : Valkey) : bytes := vk_RedisAddress v.

(** [Start]; [fails] is the error of [cmd.Start()]. *)
Definition Start (fails : option error) : M Valkey (option error) := fun v =>
  let p := match fails with Some _ => NotStarted | None => Running end in
  (Ret fails,
   MkValkey (vk_RedisAddress v) (vk_procs v ++ [(valkey_args v, p)]) (Some (length (vk_procs v)))).

(** A call on a command. *)
Definition on_proc (i : nat) (f : process -> outcome (option error) * process) : M Valkey (option error) := fun v =>
  match vk_procs v !! i with
  | None => (Panic nil_deref, v)
  | Some (args, p) =>
      let '(o, p) := f p in
      (o, MkValkey (vk_RedisAddress v) (<[i := (args, p)]> (vk_procs v)) (vk_cmd v))
  end.

(** [v.cmd.Load()] and [v.cmd.Store(nil)]. *)
Definition load_cmd : M Valkey (option nat) := fun v => (Ret (vk_cmd v), v).
Definition clear_cmd : M Valkey unit := fun v =>
  (Ret tt, MkValkey (vk_RedisAddress v) (vk_procs v) None).

Definition Stop : M Valkey (option error) :=
  cmd ← load_cmd;
  match cmd with
  | None => panic nil_deref
  | Some i =>
      err ← on_proc i Cancel;
      match err with
      | Some e => mret (Some e)
      | None =>
          err ← on_proc i Wait;
          match err with
          | Some e => mret (Some e)
          | None => _ ← clear_cmd; mret None
          end
      end
  end.

(** The process the pointer holds. *)
Definition current (v : Valkey) : option process := vk_cmd v ≫= fun i => snd <$> vk_procs v !! i.

Lemma on_proc_at i f v args p :
  vk_procs v !! i = Some (args, p) ->
  on_proc i f v = ((f p).1, MkValkey (vk_RedisAddress v) (<[i := (args, (f p).2)]> (vk_procs v)) (vk_cmd v)).
Proof. intros E. unfold on_proc. rewrite E. by destruct (f p). Qed.

Definition set_proc (i : nat) (args : list bytes) (p : process) (v : Valkey) : Valkey :=
  MkValkey (vk_RedisAddress v) (<[i := (args, p)]> (vk_procs v)) (vk_cmd v).

Lemma Stop_at v i args p :
  vk_cmd v = Some i -> vk_procs v !! i = Some (args, p) ->
  Stop v = match p with
           | NotStarted => (Panic nil_deref, set_proc i args NotStarted v)
           | Running | Exited false => (Ret (Some ExitError), set_proc i args Reaped v)
           | Exited true =>
               (Ret None, MkValkey (vk_RedisAddress v) (<[i := (args, Reaped)]> (vk_procs v)) None)
           | Reaped => (Ret (Some ErrProcessDone), set_proc i args Reaped v)
           end.
Proof.
  intros Hc Hi. pose proof (lookup_lt_Some _ _ _ Hi) as Hl.
  assert (load_cmd v = (Ret (Some i), v)) as E0 by (unfold load_cmd; by rewrite Hc).
  unfold Stop. rewrite (bind_ret _ _ _ _ _ E0). pose proof (on_proc_at i Cancel v args p Hi) as E1.
  assert (forall q, on_proc i Wait (set_proc i args q v) = ((Wait q).1, set_proc i args (Wait q).2 v)) as E2.
  { intros q. rewrite (on_proc_at i Wait _ args q) by (simpl; by rewrite list_lookup_insert_eq).
    unfold set_proc. simpl. by rewrite list_insert_insert_eq. }
  fold (set_proc i args (Cancel p).2 v) in E1.
  destruct p as [| |[]|]; cbn [Cancel fst snd] in E1; unfold mbind, M_bind; rewrite E1;
    try rewrite E2; done.
Qed.

Lemma set_proc_current i args p0 p v :
  vk_cmd v = Some i -> vk_procs v !! i = Some (args, p0) -> current (set_proc i args p v) = Some p.
Proof.
  intros Hc Hi. pose proof (lookup_lt_Some _ _ _ Hi) as Hl. unfold current, set_proc. simpl.
  rewrite Hc. simpl. by rewrite list_lookup_insert_eq.
Qed.

(** What [Stop] does, by the process the pointer holds.  Without one, or when starting
    it failed, it panics.  A running process is killed and waited for, and [Stop] returns
    the error of a process that did not succeed: it returns nil only when the process had
    already exited with success, and only then the pointer is cleared.  After any other
    [Stop] that returned, calling it again gives an error and never nil. *)
Theorem Stop_cases (v : Valkey) :
  match current v with
  | None | Some NotStarted => exists w v', Stop v = (Panic w, v')
  | Some (Exited true) => exists v', Stop v = (Ret None, v') /\ current v' = None
  | Some Running | Some (Exited false) =>
      exists v', Stop v = (Ret (Some ExitError), v') /\ current v' = Some Reaped /\
        (Stop v').1 = Ret (Some ErrProcessDone)
  | Some Reaped => exists v', Stop v = (Ret (Some ErrProcessDone), v') /\ current v' = Some Reaped
  end.
Proof.
  destruct (vk_cmd v) as [i|] eqn:Hc.
  2:{ unfold current. rewrite Hc. simpl. exists nil_deref, v. unfold Stop.
      rewrite (bind_ret load_cmd _ v v None); [done|]. unfold load_cmd. by rewrite Hc. }
  destruct (vk_procs v !! i) as [[args p]|] eqn:Hi.
  2:{ unfold current. rewrite Hc. simpl. rewrite Hi. simpl. exists nil_deref, v. unfold Stop.
      rewrite (bind_ret load_cmd _ v v (Some i)) by (unfold load_cmd; by rewrite Hc).
      unfold mbind, M_bind, on_proc. by rewrite Hi. }
  assert (current v = Some p) as -> by (unfold current; rewrite Hc; simpl; by rewrite Hi).
  pose proof (Stop_at v i args p Hc Hi) as E. pose proof (lookup_lt_Some _ _ _ Hi) as Hl.
  assert ((Stop (set_proc i args Reaped v)).1 = Ret (Some ErrProcessDone)) as E2.
  { rewrite (Stop_at (set_proc i args Reaped v) i args Reaped); [done|done|].
    simpl. by rewrite list_lookup_insert_eq. }
  destruct p as [| |[]|]; eauto 6 using set_proc_current.
Qed.

(** A server that is started and stopped: the call that stops it reports an error. *)
Definition port_only : Valkey := MkValkey (str "6379") [] None.

Example start_then_stop :
  (Stop (Start None port_only).2).1 = Ret (Some ExitError) /\
  (Stop port_only).1 = Panic nil_deref /\
  (Stop (Start (Some EOF) port_only).2).1 = Panic nil_deref.
Proof. done. Qed.

(** Starting twice loses the first process, which keeps running. *)
Lemma Start_twice v :
  exists args args', vk_procs (Start None (Start None v).2).2 = vk_procs v ++ [(args, Running); (args', Running)] /\
    vk_cmd (Start None (Start None v).2).2 = Some (S (length (vk_procs v))).
Proof.
  simpl. rewrite <- app_assoc, length_app. simpl. rewrite Nat.add_1_r. by eauto.
Qed.
